(* ===== verification/_CoqProject ===== *)
-Q . S2P
Prelude.v
MessageBuffer.v
RateLimit.v
Json.v
JsonString.v
JsonLexer.v
JsonGrisu.v
JsonGrisuSpec.v
JsonPrinter.v
JsonDecimal.v
JsonStrtod.v
JsonParser.v
JsonValid.v
JsonGrammar.v
JsonRoundtrip.v
JsonValue.v
JsonPlatform.v
Session.v
World.v
SessionPool.v
Zones.v
SessionStore.v
Invariant.v
Lifecycle.v
SessionManager.v
DataHandler.v
LoginFlow.v
Dispatcher.v
Reading.v
UdpReceive.v
Server.v
System.v
Frames.v
Exec.v
PoolSpec.v
CloseSpec.v
WriteSpec.v
SweepSpec.v
UdpSpec.v
LoginSpec.v
Scenarios.v
DbLink.v
DbClient.v
DbRouter.v
DbSystem.v
DbSpec.v
Requests.v
DbCalls.v
Joint.v
JointSpec.v
JointScenarios.v
DeliverySpec.v
QueueSpec.v
WireSpec.v
TextSpec.v
DbTextSpec.v
JointText.v
Startup.v
