(* ===== verification/Prelude.v ===== *)
(** * ServerApplication: a verification library

    The repository is a TCP/UDP game server on Boost.Asio, with an optional
    link to a database middleware.  This library models its own code, the files
    under [src/ServerApplication/] except the generated Protobuf code, and the
    part of the vendored JSON library it calls, as functions that run, and
    proves what the parts and the whole do.

    ** The program and the files that model it

    Handlers.  A completion handler of asio, or a lambda of a strand, is a
    value of the monad [M] of this file: a function of the state that returns,
    throws, or runs into undefined behaviour.  Each C++ function that changes
    state is one definition with its name, guards in their order, and calls
    the definitions of the functions it calls.

    - [MessageBuffer]: MessageBufferManager.{h,cpp}, the receive buffer with
      its length-prefixed frames and its resynchronisation.
    - [RateLimit]: the token bucket of Session.cpp, the sharded limiter of
      Utility.h, the table of bad UDP packets of DataHandler.cpp.
    - [Json]: JSON values, the accessors of nlohmann::json the code uses, and
      the interface [Platform] to its parser and serializer.
    - json.hpp: [JsonString] (string literals, UTF-8), [JsonLexer] (numbers,
      tokens), [JsonParser] (the parser's loop over a stack), [JsonGrisu]
      (doubles to decimals), [JsonPrinter] (integers, [dump]), [JsonValue]
      (braced values, freeing);
      [JsonPlatform] makes them an instance of [Platform].
    - [Session]: Session.h, the state of a connection and its small operations;
      [Lifecycle]: closing, the task queue, the write queue, strands, the login
      timer (Session.cpp); [Reading]: the read loop (Session::do_read).
    - [World]: the objects of the server in one record (the pool, the session
      table, the nickname index, the zones, the UDP maps, outstanding
      operations, queued lambdas, what was sent).
    - [SessionPool], [SessionStore] and [SessionManager], [Zones]: the files of
      those names.
    - [DataHandler]: DataHandler.cpp but for UDP reception: broadcasts, sweeps,
      periodic loops; [UdpReceive]: DataHandler::on_udp_receive and
      UDPManager.cpp.
    - [LoginFlow]: UseCases/LoginFlow.cpp and MessageHandlers/*.cpp;
      [Dispatcher]: MessageDispatcher.cpp and UDPMessageHandlers/*.cpp.
    - [Server]: Server.cpp and the construction of the objects in
      ServerApplication.cpp.
    - [System]: all of them as a transition system whose events are completions
      (accept, read, write, datagram, timer, database answer), queued lambdas,
      the stop signal and the passage of time; [reachable] closes the start-up state under it.
    - [Startup]: [main] up to [io.run()]: config.json, the settings the
      constructors read, the failures; it ends in the start of [System] and of
      the link.
    - [DbLink], [DbClient], [DbRouter]: DBMiddlewareClient.{h,cpp},
      DBmwRouter.{h,cpp}, DBmwHandlerRegistry.h, Handlers/DBmw/*.cpp and the
      wiring in ServerApplication.cpp; [DbSystem] is their transition system.
    - [Requests]: the interface between a login and the router, a class with
      its laws; [DbCalls]: the router as an instance of it; [Joint]: the server
      composed with any instance.

    ** What is proved

    - Whole server ([System]): no event of a reachable state runs into the
      undefined behaviour that the model has (below), and each is processed;
      accepting, UDP reception and the periodic timers are never lost; exceptions
      end an io thread in two places only; queues, buffers and zones are bounded
      (a read buffer beyond 512 KiB only by the reads that a number without a
      finite value cuts short); at most one write per
      session is in flight; the pool hands out no session twice; every stored
      pointer is to an existing session.  All follow from the invariant [Inv]
      of [Invariant], which each operation is shown to keep ([safe]).  Over any run
      the queue of messages to a client is a bounded FIFO, from which every
      completed write takes one message, until the session is closed or
      recycled ([QueueSpec]); a connected session with messages always has a
      write under way, and the completions of its writes put them all on the wire
      ([DeliverySpec]).
    - Components: round trip, independence of segmentation, equivalence with a
      reference and memory bound of the framing ([MessageBuffer]); rates and
      windows of the flood control ([RateLimit]); the sharded table refines one
      map ([SessionStore]); what a fresh pooled session is, closing,
      broadcasting, the sweeps, logging in, dispatching, UDP authorisation and
      registration, on every branch ([PoolSpec], [CloseSpec], [WriteSpec],
      [SweepSpec], [LoginSpec], [UdpSpec]); [Exec] has the rules these use to
      run handlers symbolically.
    - JSON: the parser returns on every text, accepts exactly the texts of a
      declarative grammar and with the grammar's value ([JsonValid],
      [JsonGrammar]); what it yields is written and read back ([JsonRoundtrip]);
      the serializer throws exactly on ill-formed UTF-8 ([JsonString]); integers
      are written exactly ([JsonPrinter]), values are freed without recursion, each
      once ([JsonValue]), doubles so that a correctly rounding
      [strtod] reads them back ([JsonGrisuSpec] for the digits, [JsonDecimal] for
      the text; [JsonStrtod] is such a [strtod]).
    - From bytes to handlers ([WireSpec]): a read dispatches exactly the values
      whose frames it completes, in order.  Back to bytes ([TextSpec] for the
      server, [DbTextSpec] for the link, each an invariant over all handlers;
      [JointText] for both together): whatever arrives, everything the program
      queues and writes is a text that json.hpp parses.
    - The start ([Startup]): how [main] ends for every file and environment.
    - Database link ([DbSystem], [DbSpec]): its invariant, answers and timeouts
      of requests, their termination, request ids.
    - Composition ([JointSpec], over the interface of [Requests]; [Frames] shows
      what it needs of the server's handlers): server and link together refine
      the server alone, and every callback belongs to a waiting login and is
      called once.
    - Traps: theorems and computed runs that show where the code does not do
      what it means to ([Scenarios], [JointScenarios], parts of [WriteSpec],
      [RateLimit] and [DbSpec]): a late answer logs in a stranger, a request
      that times out calls no callback, a registration is acknowledged that does
      not bind, datagrams end the io threads, a failed write mutes the link, a
      slow socket reads a dead buffer, and others.

    ** Conventions and bounds

    - A handler runs without interruption and at one instant [w_now], in
      nanoseconds.  Other threads show in the order of events and in [w_busy]
      and [w_busy_zones], which say whose strands are being run, so that a
      [post] or [dispatch] runs its lambda at once or queues it.
    - Undefined behaviour is a result of a handler: a dangling session, [pop] of
      an empty queue, an index out of the range of a container, locking a
      [std::mutex] twice, and the length prefix of [Session::do_write_queue],
      whose buffer is a local array that is dead when a socket without room for
      it takes it later ([World.send_prefixed]).  Whether a socket has room is
      the environment's: [w_slow] has the sessions whose socket has none, and it
      is empty from the start on, so that every theorem about reachable states
      is about sockets that take four bytes at once ([World.prompt]).
      Data races are outside the model, since handlers run one by one.
    - A double out of the range of [int] is converted to the least [int], as
      x86-64 does ([RateLimit.int_of_double]); C++ leaves this undefined.
    - A session object is an address in [w_heap], a weak pointer is an address
      that is looked up; pooled sessions are never freed.  A strand that
      [Session::reset] replaces is identified with the old one.
    - Integers are [Z]; the conversions of the code that wrap are written with
      [u32], [u64] and [i32].  64-bit counters are not wrapped.
    - Loops over the read buffer have fuel: the length of the buffer plus one.
      Each round takes a frame of at least five bytes, and running out of fuel
      is undefined behaviour, so that the safety theorems show it is enough.
    - The release build is modelled: the assertions under [#ifndef NDEBUG] are
      not there.  [std::sort] may order equal elements in any way; the model
      keeps their order.
    - In the link, a lambda dispatched on a strand runs at once; in [Joint] a
      request is handed over when the handler that makes it returns, and
      callbacks run one by one in the order they are called; the stop signal
      waits for the handlers that run.

    ** Parameters

    [Json.Platform] has what JSON parsing and printing and the random device
    return.  Nothing is assumed of it in the theorems about the server;
    [JsonPlatform.nlohmann] is the instance by the model of json.hpp, and the
    witnesses run on [exact_platform], one of these.  Its own parameter is
    [JsonLexer.Strtod], the C library's [strtod], with the laws
    [JsonDecimal.StrtodLaws] where a theorem needs them ([JsonStrtod] proves them
    of an exact one).  [DbLink.Wire] is Protobuf parsing, of which
    [DbTextSpec.WireLaws] states what the generated parser checks.

    [Platform.dump] does not throw: the library's [dump] throws on ill-formed
    UTF-8 only ([JsonString.dump_escaped_exact]), where [nlohmann] gives the
    empty text, which is no JSON; [JointText.everything_exchanged_is_json] shows that
    the program never comes there.

    In [System] the configuration is a map from keys to integers, which is what
    [Startup.value_int_entries] makes of the file; the settings that are read
    while the server runs ([Startup.run_time_keys]) are taken to be numbers, as
    they are in config.json ([Startup.shipped_configuration]).

    ** Not modelled

    Logging (Logger.cpp, spdlog calls), MemoryTracker.cpp, the HTTP request of an
    admin alert (Utility.cpp; the alert itself is an output), resolving and
    printing addresses, the sockets themselves, creating and joining the threads
    of main (how many there are is [System.initial]), generated code, code that
    is commented out.  Of json.hpp, what the program does not call: indentation,
    [ensure_ascii], comments, callbacks, iterators, pointers, patches, the binary
    formats; and the texts and positions of its exceptions, which are only
    logged. *)
From Stdlib Require Import ZArith Lia.
From stdpp Require Import base gmap sets list strings.

(** ** Machine integers *)

Definition u32 (z : Z) : Z := z mod 2 ^ 32.
Definition u64 (z : Z) : Z := z mod 2 ^ 64.

(** Two's complement wrap-around of a C++ [int]. *)
Definition i32 (z : Z) : Z := (z + 2 ^ 31) mod 2 ^ 32 - 2 ^ 31.

Lemma i32_range z : (- 2 ^ 31 <= i32 z < 2 ^ 31)%Z.
Proof. unfold i32. pose proof (Z.mod_pos_bound (z + 2 ^ 31) (2 ^ 32)). lia. Qed.

Lemma i32_small z : (- 2 ^ 31 <= z < 2 ^ 31)%Z -> i32 z = z.
Proof. intros H. unfold i32. rewrite Z.mod_small by lia. lia. Qed.

Lemma u64_range z : (0 <= u64 z < 2 ^ 64)%Z.
Proof. unfold u64. apply Z.mod_pos_bound. lia. Qed.

Lemma u64_small z : (0 <= z < 2 ^ 64)%Z -> u64 z = z.
Proof. intros H. unfold u64. apply Z.mod_small. lia. Qed.

(** ** Record update

    [r <| f := v |>] replaces one field.  The setter of a field is derived
    from the record's eta expansion, so that a projection of an update
    computes on an abstract record. *)

Class Settable (R : Type) := eta : R -> R.

Class Setter {R E : Type} (getter : R -> E) := set_field : (E -> E) -> R -> R.
#[global] Arguments set_field {R E} getter {_} f r.

Ltac head_of t := lazymatch t with ?f _ => head_of f | _ => t end.

Ltac derive_setter :=
  lazymatch goal with
  | |- @Setter ?R ?E ?getter =>
      let e := constr:(@eta R _) in
      let i := lazymatch e with @eta _ ?i => i end in
      let h := head_of i in
      let t := eval cbv beta delta [h] in i in
      exact (fun (f : E -> E) (r : R) => ltac:(
        let b := eval cbv beta in (t r) in
        match b with
        | context C [getter r] => let b' := context C [f (getter r)] in exact b'
        end))
  end.

#[export] Hint Extern 1 (Setter _) => derive_setter : typeclass_instances.

Declare Scope update_scope.
Delimit Scope update_scope with upd.
Notation "r <| f := v |>" := (set_field f (fun _ => v) r)
  (at level 1, left associativity, f at level 0, v at level 99, format "r <| f  :=  v |>") : update_scope.
Notation "r <| f ::= g |>" := (set_field f g r)
  (at level 1, left associativity, f at level 0, g at level 99, format "r <| f  ::=  g |>") : update_scope.
Open Scope update_scope.

(** ** State, exceptions and undefined behaviour

    A handler of the program is a function of the state.  It returns
    normally, or throws an exception that an enclosing [catch] may handle, or
    runs into undefined behaviour (a dangling pointer, [pop] of an empty
    queue, locking a [std::mutex] twice), which nothing catches. *)

Inductive exn :=
| TypeError    (** [nlohmann::json::type_error] *)
| ParseError   (** [nlohmann::json::parse_error] *)
| StdError.    (** any other [std::exception] *)

Inductive res (A : Type) :=
| Ret (a : A)
| Exn (e : exn)
| UB.
#[global] Arguments Ret {A} a.
#[global] Arguments Exn {A} e.
#[global] Arguments UB {A}.

#[export] Instance exn_eq_dec : EqDecision exn.
Proof. solve_decision. Defined.

Definition M (W A : Type) : Type := W -> res A * W.

Section monad.
Context {W : Type}.

Definition ret {A} (a : A) : M W A := fun w => (Ret a, w).
Definition throw {A} (e : exn) : M W A := fun w => (Exn e, w).
Definition ub {A} : M W A := fun w => (UB, w).
Definition bind {A B} (m : M W A) (k : A -> M W B) : M W B := fun w =>
  match m w with
  | (Ret a, w') => k a w'
  | (Exn e, w') => (Exn e, w')
  | (UB, w') => (UB, w')
  end.
Definition catch {A} (m : M W A) (h : exn -> M W A) : M W A := fun w =>
  match m w with
  | (Exn e, w') => h e w'
  | r => r
  end.
Definition gets {A} (f : W -> A) : M W A := fun w => (Ret (f w), w).
Definition modify (f : W -> W) : M W unit := fun w => (Ret tt, f w).
Definition lift {A} (r : res A) : M W A := fun w => (r, w).
Definition when (b : bool) (m : M W unit) : M W unit := if b then m else ret tt.

Fixpoint for_each {A} (l : list A) (f : A -> M W unit) : M W unit :=
  match l with
  | [] => ret tt
  | x :: l' => bind (f x) (fun _ => for_each l' f)
  end.
End monad.

#[export] Instance M_bind W : MBind (M W) := fun A B k m => bind m k.
#[export] Instance M_ret W : MRet (M W) := fun A a => ret a.

(** *** Hoare triples

    [hoare Pre m E Q]: started in a state of [Pre], the handler [m] never
    reaches undefined behaviour; it returns a value and state of [Q] or throws
    an exception in a state of [E].  [safe I m E Q] is the triple of an
    invariant: it is kept on every path, only exceptions of [E] escape, and
    the value returned satisfies [Q]. *)
Definition hoare {W A} (Pre : W -> Prop) (m : M W A) (E : exn -> W -> Prop)
    (Q : A -> W -> Prop) : Prop :=
  forall w, Pre w ->
    match m w with
    | (Ret a, w') => Q a w'
    | (Exn e, w') => E e w'
    | (UB, _) => False
    end.

Definition safe {W A} (I : W -> Prop) (m : M W A) (E : exn -> Prop) (Q : A -> Prop) : Prop :=
  hoare I m (fun e w => E e /\ I w) (fun a w => Q a /\ I w).

(** No exception; any exception. *)
Definition never (e : exn) : Prop := False.
Definition any (e : exn) : Prop := True.

(** The state a handler leaves behind, and what it returned. *)
Definition exec {W A} (m : M W A) (w : W) : W := snd (m w).
Definition outcome {W A} (m : M W A) (w : W) : res A := fst (m w).

Section hoare.
Context {W : Type}.

Lemma hoare_bind {A B} (Pre : W -> Prop) (m : M W A) (k : A -> M W B)
    (E : exn -> W -> Prop) (R : A -> W -> Prop) (Q : B -> W -> Prop) :
  hoare Pre m E R -> (forall a, hoare (R a) (k a) E Q) -> hoare Pre (m ≫= k) E Q.
Proof.
  intros Hm Hk w Hw. specialize (Hm w Hw).
  unfold mbind, M_bind, bind. destruct (m w) as [[a | e |] w']; [| done | done].
  by apply Hk.
Qed.

Lemma hoare_conseq {A} (Pre Pre' : W -> Prop) (m : M W A)
    (E E' : exn -> W -> Prop) (Q Q' : A -> W -> Prop) :
  hoare Pre' m E' Q' -> (forall w, Pre w -> Pre' w) ->
  (forall e w, E' e w -> E e w) -> (forall a w, Q' a w -> Q a w) -> hoare Pre m E Q.
Proof.
  intros Hm HP HE HQ w Hw. specialize (Hm w (HP w Hw)).
  destruct (m w) as [[a | e |] w']; auto.
Qed.

Lemma hoare_catch {A} (Pre : W -> Prop) (m : M W A) (h : exn -> M W A)
    (E E' : exn -> W -> Prop) (Q : A -> W -> Prop) :
  hoare Pre m E' Q -> (forall e, hoare (E' e) (h e) E Q) -> hoare Pre (catch m h) E Q.
Proof.
  intros Hm Hh w Hw. specialize (Hm w Hw). unfold catch.
  destruct (m w) as [[a | e |] w']; [done | by apply Hh | done].
Qed.
End hoare.

Section safe.
Context {W : Type} (I : W -> Prop) (E : exn -> Prop).

Lemma safe_ret {A} (a : A) (Q : A -> Prop) : Q a -> safe I (ret a) E Q.
Proof. by intros HQ w Hw. Qed.

Lemma safe_mret {A} (a : A) (Q : A -> Prop) : Q a -> safe I (mret a) E Q.
Proof. by intros HQ w Hw. Qed.

Lemma safe_throw {A} e (Q : A -> Prop) : E e -> safe I (throw e) E Q.
Proof. by intros He w Hw. Qed.

Lemma safe_bind {A B} (m : M W A) (k : A -> M W B) (R : A -> Prop) (Q : B -> Prop) :
  safe I m E R -> (forall a, R a -> safe I (k a) E Q) -> safe I (m ≫= k) E Q.
Proof.
  intros Hm Hk. eapply hoare_bind; [exact Hm |].
  intros a w [Ha Hw]. by apply Hk.
Qed.

Lemma safe_weaken {A} (m : M W A) (R Q : A -> Prop) :
  safe I m E R -> (forall a, R a -> Q a) -> safe I m E Q.
Proof.
  intros Hm HRQ. eapply hoare_conseq; [exact Hm | done | done |].
  cbn. intros a w [Ha Hw]. auto.
Qed.

Lemma safe_weaken_exn {A} (m : M W A) (E' : exn -> Prop) (Q : A -> Prop) :
  safe I m E' Q -> (forall e, E' e -> E e) -> safe I m E Q.
Proof.
  intros Hm HE. eapply hoare_conseq; [exact Hm | done | | done].
  cbn. intros e w [He Hw]. auto.
Qed.

Lemma safe_catch {A} (E' : exn -> Prop) (m : M W A) (h : exn -> M W A) (Q : A -> Prop) :
  safe I m E' Q -> (forall e, E' e -> safe I (h e) E Q) -> safe I (catch m h) E Q.
Proof. intros Hm Hh. eapply hoare_catch; [exact Hm |]. intros e w [He Hw]. by apply Hh. Qed.

Lemma safe_gets {A} (f : W -> A) (Q : A -> Prop) :
  (forall w, I w -> Q (f w)) -> safe I (gets f) E Q.
Proof. intros HQ w Hw. split; auto. Qed.

(** What is read of the state is read of some state of the invariant. *)
Lemma safe_gets_some {A} (f : W -> A) :
  safe I (gets f) E (fun a => exists w, I w /\ a = f w).
Proof. intros w Hw. split; eauto. Qed.

Lemma safe_modify (f : W -> W) :
  (forall w, I w -> I (f w)) -> safe I (modify f) E (fun _ => True).
Proof. intros Hf w Hw. split; auto. Qed.

Lemma safe_lift {A} (r : res A) (Q : A -> Prop) :
  match r with Ret a => Q a | Exn e => E e | UB => False end ->
  safe I (lift r) E Q.
Proof. intros H w Hw. unfold lift. by destruct r. Qed.

Lemma safe_when b (m : M W unit) :
  (b = true -> safe I m E (fun _ => True)) -> safe I (when b m) E (fun _ => True).
Proof. intros Hm. destruct b; [by apply Hm |]. by apply safe_ret. Qed.

Lemma safe_for_each {A} (l : list A) (f : A -> M W unit) :
  (forall x, x ∈ l -> safe I (f x) E (fun _ => True)) ->
  safe I (for_each l f) E (fun _ => True).
Proof.
  induction l as [| x l IH]; intros Hf; cbn [for_each]; [by apply safe_ret |].
  eapply safe_bind; [apply Hf; set_solver |].
  intros _ _. apply IH. intros y Hy. apply Hf. set_solver.
Qed.

Lemma safe_outcome {A} (m : M W A) (Q : A -> Prop) w :
  safe I m E Q -> I w -> I (exec m w) /\ outcome m w <> UB.
Proof.
  intros Hm Hw. specialize (Hm w Hw). unfold exec, outcome.
  destruct (m w) as [[a | e |] w']; cbn; naive_solver.
Qed.
End safe.

(** *** Relations between the states before and after

    [steps R m]: whatever [m] does, and however it ends, the states before and
    after it are related by [R]. *)
Definition steps {W A} (R : relation W) (m : M W A) : Prop := forall w, R w (snd (m w)).

Section steps.
Context {W : Type} (R : relation W) `{!PreOrder R}.

Lemma steps_mret {A} (a : A) : steps R (mret a).
Proof. intros w. reflexivity. Qed.

Lemma steps_ret {A} (a : A) : steps R (ret a).
Proof. intros w. reflexivity. Qed.

Lemma steps_throw {A} e : steps R (throw e : M W A).
Proof. intros w. reflexivity. Qed.

Lemma steps_ub {A} : steps R (ub : M W A).
Proof. intros w. reflexivity. Qed.

Lemma steps_lift {A} (r : res A) : steps R (lift r).
Proof. intros w. reflexivity. Qed.

Lemma steps_gets {A} (f : W -> A) : steps R (gets f).
Proof. intros w. reflexivity. Qed.

Lemma steps_modify (f : W -> W) : (forall w, R w (f w)) -> steps R (modify f).
Proof. done. Qed.

Lemma steps_bind {A B} (m : M W A) (k : A -> M W B) :
  steps R m -> (forall a, steps R (k a)) -> steps R (m ≫= k).
Proof.
  intros Hm Hk w. specialize (Hm w). unfold mbind, M_bind, bind.
  destruct (m w) as [[a | e |] w1]; [| done | done]. etrans; [exact Hm | apply Hk].
Qed.

Lemma steps_catch {A} (m : M W A) (h : exn -> M W A) :
  steps R m -> (forall e, steps R (h e)) -> steps R (catch m h).
Proof.
  intros Hm Hh w. specialize (Hm w). unfold catch.
  destruct (m w) as [[a | e |] w1]; [done | | done]. etrans; [exact Hm | apply Hh].
Qed.

Lemma steps_when b (m : M W unit) : steps R m -> steps R (when b m).
Proof. intros Hm. destruct b; [done | apply steps_ret]. Qed.

Lemma steps_for_each {A} (l : list A) (f : A -> M W unit) :
  (forall x, steps R (f x)) -> steps R (for_each l f).
Proof.
  intros Hf. induction l as [| x l IH]; cbn [for_each]; [apply steps_ret |].
  by apply steps_bind.
Qed.
End steps.

(** *** Invariants with results

    [maintains I m Q]: [m] keeps [I] however it ends, and a value it returns
    satisfies [Q]. *)
Definition maintains {W A} (I : W -> Prop) (m : M W A) (Q : A -> Prop) : Prop :=
  forall w, I w ->
    match m w with
    | (Ret a, w') => Q a /\ I w'
    | (_, w') => I w'
    end.

Section maintains.
Context {W : Type} (I : W -> Prop).

Lemma maintains_bind {A B} (m : M W A) (k : A -> M W B) R Q :
  maintains I m R -> (forall a, R a -> maintains I (k a) Q) -> maintains I (m ≫= k) Q.
Proof.
  intros Hm Hk w Hw. specialize (Hm w Hw). unfold mbind, M_bind, bind.
  destruct (m w) as [[a | e |] w']; [| done..]. destruct Hm as [Ha Hw']. by apply (Hk a Ha).
Qed.

Lemma maintains_weaken {A} (m : M W A) (R Q : A -> Prop) :
  maintains I m R -> (forall a, R a -> Q a) -> maintains I m Q.
Proof.
  intros Hm HQ w Hw. specialize (Hm w Hw). destruct (m w) as [[a | e |] w']; [| done..].
  destruct Hm. auto.
Qed.

Lemma maintains_mret {A} (a : A) (Q : A -> Prop) : Q a -> maintains I (mret a) Q.
Proof. by intros Ha w Hw. Qed.

Lemma maintains_ret {A} (a : A) (Q : A -> Prop) : Q a -> maintains I (ret a) Q.
Proof. by intros Ha w Hw. Qed.

Lemma maintains_throw {A} e (Q : A -> Prop) : maintains I (throw e) Q.
Proof. by intros w Hw. Qed.

Lemma maintains_ub {A} (Q : A -> Prop) : maintains I ub Q.
Proof. by intros w Hw. Qed.

Lemma maintains_lift {A} (r : res A) (Q : A -> Prop) : (forall a, r = Ret a -> Q a) -> maintains I (lift r) Q.
Proof. intros HQ w Hw. unfold lift. destruct r; [| done..]. split; [by apply HQ | done]. Qed.

Lemma maintains_catch {A} (m : M W A) h Q :
  maintains I m Q -> (forall e, maintains I (h e) Q) -> maintains I (catch m h) Q.
Proof.
  intros Hm Hh w Hw. specialize (Hm w Hw). unfold catch. destruct (m w) as [[a | e |] w']; [done | | done].
  by apply Hh.
Qed.

Lemma maintains_when b (m : M W unit) : maintains I m (fun _ => True) -> maintains I (when b m) (fun _ => True).
Proof. intros Hm. destruct b; [done | by apply maintains_ret]. Qed.

Lemma maintains_for_each {A} (l : list A) (f : A -> M W unit) :
  (forall x, maintains I (f x) (fun _ => True)) -> maintains I (for_each l f) (fun _ => True).
Proof.
  intros Hf. induction l as [| x l IH]; [by apply maintains_ret |]. cbn [for_each].
  apply (maintains_bind (f x) _ _ _ (Hf x)). by intros [].
Qed.

Lemma maintains_gets {A} (f : W -> A) (Q : A -> Prop) : (forall w, I w -> Q (f w)) -> maintains I (gets f) Q.
Proof. intros HQ w Hw. split; [by apply HQ | done]. Qed.

Lemma maintains_modify (f : W -> W) : (forall w, I w -> I (f w)) -> maintains I (modify f) (fun _ => True).
Proof. intros Hf w Hw. split; [done | by apply Hf]. Qed.

Lemma maintains_exec (m : M W unit) w : maintains I m (fun _ => True) -> I w -> I (snd (m w)).
Proof. intros Hm Hw. specialize (Hm w Hw). destruct (m w) as [[[] | e |] w']; [apply Hm | done..]. Qed.
End maintains.

Create HintDb steps discriminated.
#[export] Hint Constants Opaque : steps.
#[export] Hint Resolve steps_mret steps_ret steps_throw steps_ub steps_lift steps_gets : steps.

(** Walks through a handler, unfolding what has no lemma of its own. *)
Ltac walk_step :=
  lazymatch goal with
  | |- forall _, _ => intro
  | |- steps _ (_ ≫= _) => apply steps_bind; [exact _ | | intro]
  | |- steps _ (bind _ _) => apply steps_bind; [exact _ | | intro]
  | |- steps _ (catch _ _) => apply steps_catch; [exact _ | | intro]
  | |- steps _ (when _ _) => apply steps_when; [exact _ |]
  | |- steps _ (for_each _ _) => apply steps_for_each; [exact _ | intro]
  | |- steps _ (match ?x with _ => _ end) => destruct x
  | |- steps _ ?m =>
      first [ solve [eauto with steps typeclass_instances]
            | let h := head_of m in progress (unfold h; cbv beta zeta) ]
  end.
Ltac walk := repeat walk_step.

Create HintDb safe discriminated.
#[export] Hint Constants Opaque : safe.
#[export] Hint Resolve safe_ret safe_mret : safe.

(** One step of a [safe] proof: the next operation of a sequence is discharged
    from the hint database. *)
Ltac safe_step :=
  lazymatch goal with
  | |- safe _ (_ ≫= _) _ _ =>
      eapply safe_bind; [solve [eauto with safe] | cbv beta; intros]
  | |- safe _ (bind _ _) _ _ =>
      eapply safe_bind; [solve [eauto with safe] | cbv beta; intros]
  | |- safe _ (when _ _) _ _ => eapply safe_when; intros
  end.
Ltac safe_done := solve [eauto with safe | eapply safe_weaken; [eauto with safe | done]].

(** Lists. *)
Definition len {A} (l : list A) : Z := Z.of_nat (length l).

Lemma len_app {A} (l k : list A) : len (l ++ k) = (len l + len k)%Z.
Proof. unfold len. rewrite length_app. lia. Qed.

Lemma len_cons {A} (x : A) l : len (x :: l) = (1 + len l)%Z.
Proof. unfold len. cbn [length]. lia. Qed.

Lemma len_nil {A} : len (@nil A) = 0%Z.
Proof. reflexivity. Qed.

Lemma len_nonneg {A} (l : list A) : (0 <= len l)%Z.
Proof. unfold len. lia. Qed.

Create Rewrite HintDb len.
#[export] Hint Rewrite @len_app @len_cons @len_nil : len.

(** Maps. *)
Lemma map_to_list_disj_union {K A} `{Countable K} (m1 m2 : gmap K A) :
  m1 ##ₘ m2 -> map_to_list (m1 ∪ m2) ≡ₚ map_to_list m1 ++ map_to_list m2.
Proof.
  intros Hd. apply NoDup_Permutation.
  - apply NoDup_map_to_list.
  - apply NoDup_app. split; [apply NoDup_map_to_list |].
    split; [| apply NoDup_map_to_list].
    intros [k x] H1 H2. apply elem_of_map_to_list in H1, H2.
    by eapply map_disjoint_spec.
  - intros [k x]. rewrite elem_of_app, !elem_of_map_to_list, lookup_union_Some by done. done.
Qed.
