(* ===== verification/MessageBuffer.v ===== *)
(** * MessageBufferManager.{h,cpp} and the length-prefix framing

    The accumulation buffer of a TCP connection: [append], and
    [extract_message], which takes the next 4-byte-prefixed message off the
    buffer and resynchronises on a corrupt prefix.  The same framing is
    written by [Session::do_write_queue] and [DBMiddlewareClient::send_framed].

    [FrameDecoder] is the contract the two read loops of the program rely on;
    the buffer manager discharges it at the end of the file. *)
From Stdlib Require Import ZArith Lia Strings.Byte Wf_nat.
From stdpp Require Import base list.
From S2P Require Import Prelude.

Open Scope Z_scope.

Definition MAX_PACKET_SIZE : Z := 64 * 4096.
Definition kMaxResyncScan : Z := 16384.
Definition ABSOLUTE_MAX_BUFFER : Z := 512 * 1024.

(** ** Big-endian 32-bit lengths *)

Definition byte_of_Z (z : Z) : byte :=
  match Byte.of_N (Z.to_N (z mod 256)) with Some b => b | None => x00 end.
Definition Z_of_byte (b : byte) : Z := Z.of_N (Byte.to_N b).

(** The four bytes [htonl] leaves in memory. *)
Definition htonl_bytes (z : Z) : list byte :=
  [byte_of_Z (Z.shiftr z 24); byte_of_Z (Z.shiftr z 16);
   byte_of_Z (Z.shiftr z 8); byte_of_Z z].

(** [read_len_at]: [ntohl] of the four bytes at an offset. *)
Definition ntohl_bytes (l : list byte) : Z :=
  match l with
  | a :: b :: c :: d :: _ =>
      Z.lor (Z.shiftl (Z_of_byte a) 24)
        (Z.lor (Z.shiftl (Z_of_byte b) 16)
           (Z.lor (Z.shiftl (Z_of_byte c) 8) (Z_of_byte d)))
  | _ => 0
  end.

Definition read_len_at (buffer : list byte) (offset : Z) : Z :=
  ntohl_bytes (drop (Z.to_nat offset) buffer).

(** Length prefix followed by the body. *)
Definition frame (body : list byte) : list byte :=
  htonl_bytes (u32 (len body)) ++ body.

(** ** The buffer manager *)

Record MessageBufferManager := mkMessageBufferManager {
  buffer_ : list byte;
  last_clear_by_invalid_length_ : bool
}.

Definition empty_buffer : MessageBufferManager := mkMessageBufferManager [] false.

Definition append (m : MessageBufferManager) (data : list byte) : MessageBufferManager :=
  mkMessageBufferManager (buffer_ m ++ data) (last_clear_by_invalid_length_ m).

Definition clear (m : MessageBufferManager) : MessageBufferManager :=
  mkMessageBufferManager [] (last_clear_by_invalid_length_ m).

Definition was_last_clear_by_invalid_length (m : MessageBufferManager) : bool :=
  last_clear_by_invalid_length_ m.

Definition valid_len (n : Z) : bool := (0 <? n) && (n <=? MAX_PACKET_SIZE).

(** The resynchronisation loop [for (i = 1; i + 4 <= scan_limit; ++i)]: the
    first offset with a plausible length prefix.  [n] counts the iterations
    left, so it starts at [scan_limit - 4]. *)
Fixpoint resync (n : nat) (i : Z) (buffer : list byte) : option (Z * Z) :=
  match n with
  | O => None
  | S n' =>
      let cand := read_len_at buffer i in
      if valid_len cand then Some (i, cand) else resync n' (i + 1) buffer
  end.

Definition extract_message (m : MessageBufferManager) :
    option (list byte) * MessageBufferManager :=
  let buf := buffer_ m in
  let size := len buf in
  let wait := (None, mkMessageBufferManager buf false) in
  if size <? 4 then wait
  else
    let len_0 := read_len_at buf 0 in
    if valid_len len_0 then
      if u32 (4 + len_0) <=? size then
        (Some (take (Z.to_nat len_0) (drop 4 buf)),
         mkMessageBufferManager (drop (Z.to_nat (u32 (4 + len_0))) buf) false)
      else wait
    else
      let scan_limit := Z.min size (kMaxResyncScan + 4) in
      match resync (Z.to_nat (scan_limit - 4)) 1 buf with
      | Some (i, cand) =>
          let buf' := drop (Z.to_nat i) buf in
          if i + 4 + cand <=? size then
            (Some (take (Z.to_nat cand) (drop 4 buf')),
             mkMessageBufferManager (drop (Z.to_nat (u32 (4 + cand))) buf') false)
          else (None, mkMessageBufferManager buf' false)
      | None =>
          if ABSOLUTE_MAX_BUFFER <? size
          then (None, mkMessageBufferManager [] true)
          else wait
      end.

(** A message the receiver accepts. *)
Definition wf_message (msg : list byte) : Prop := 0 < len msg <= MAX_PACKET_SIZE.

(** The bytes of a message that has not completely arrived. *)
Definition incomplete (p : list byte) : Prop :=
  exists msg q, wf_message msg /\ p ++ q = frame msg /\ q <> [].

(** ** What a read loop relies on

    A decoder promises that the bytes it holds ([fd_view]) are what was
    appended, that a complete frame at their head is taken off, that an
    incomplete one is waited for, and that every message it delivers shortens
    what it holds.  [drain] is the loop [while (auto m = extract_message())]
    of the read callbacks. *)
Class FrameDecoder (D : Type) := {
  fd_empty : D;
  fd_append : D -> list byte -> D;
  fd_extract : D -> option (list byte) * D;
  fd_overflow : D -> bool;
  fd_view : D -> list byte;
  fd_view_empty : fd_view fd_empty = [];
  fd_view_append : forall d s, fd_view (fd_append d s) = fd_view d ++ s;
  fd_extract_shrinks : forall d msg d',
    fd_extract d = (Some msg, d') -> (length (fd_view d') < length (fd_view d))%nat;
  fd_extract_frame : forall d msg rest,
    wf_message msg -> fd_view d = frame msg ++ rest ->
    exists d', fd_extract d = (Some msg, d') /\ fd_view d' = rest;
  fd_extract_incomplete : forall d,
    incomplete (fd_view d) ->
    exists d', fd_extract d = (None, d') /\ fd_view d' = fd_view d
}.

Fixpoint drain_fuel {D} `{FrameDecoder D} (fuel : nat) (d : D) : list (list byte) * D :=
  match fuel with
  | O => ([], d)
  | S fuel' =>
      match fd_extract d with
      | (Some msg, d') => let '(msgs, d'') := drain_fuel fuel' d' in (msg :: msgs, d'')
      | (None, d') => ([], d')
      end
  end.

Definition drain {D} `{FrameDecoder D} (d : D) : list (list byte) * D :=
  drain_fuel (S (length (fd_view d))) d.

(** One segment after another, draining after each, as the read callbacks do. *)
Fixpoint receive {D} `{FrameDecoder D} (d : D) (segments : list (list byte)) :
    list (list byte) * D :=
  match segments with
  | [] => ([], d)
  | s :: rest =>
      let '(msgs, d') := drain (fd_append d s) in
      let '(msgs', d'') := receive d' rest in
      (msgs ++ msgs', d'')
  end.

(** ** Bytes and lengths *)

Lemma Z_of_byte_range b : 0 <= Z_of_byte b < 256.
Proof. unfold Z_of_byte. pose proof (Byte.to_N_bounded b). lia. Qed.

Lemma Z_of_byte_of_Z z : Z_of_byte (byte_of_Z z) = z mod 256.
Proof.
  unfold byte_of_Z, Z_of_byte.
  pose proof (Z.mod_pos_bound z 256 ltac:(lia)) as Hz.
  destruct (Byte.of_N (Z.to_N (z mod 256))) as [b |] eqn:E.
  - apply Byte.to_of_N in E. rewrite E. lia.
  - apply Byte.of_N_None_iff in E. lia.
Qed.

Lemma byte_of_Z_of_byte b : byte_of_Z (Z_of_byte b) = b.
Proof.
  unfold byte_of_Z, Z_of_byte. pose proof (Byte.to_N_bounded b).
  rewrite Z.mod_small by lia. rewrite N2Z.id. by rewrite Byte.of_to_N.
Qed.

Lemma byte_of_Z_mod z b : z mod 256 = Z_of_byte b -> byte_of_Z z = b.
Proof.
  intros H. rewrite <- (byte_of_Z_of_byte b), <- H.
  unfold byte_of_Z. by rewrite Z.mod_mod.
Qed.

Lemma lor_shiftl_add a b k : 0 <= k -> 0 <= b < 2 ^ k -> Z.lor (Z.shiftl a k) b = a * 2 ^ k + b.
Proof.
  intros Hk Hb. rewrite <- Z.shiftl_mul_pow2, <- Z.add_lor_land by lia.
  enough (Z.land (Z.shiftl a k) b = 0) by lia.
  apply Z.bits_inj'. intros n Hn. rewrite Z.land_spec, Z.bits_0.
  destruct (Z.lt_ge_cases n k).
  - by rewrite Z.shiftl_spec_low.
  - destruct (decide (b = 0)) as [-> | Hb0]; [by rewrite Z.bits_0, andb_false_r |].
    rewrite (Z.bits_above_log2 b), andb_false_r; [done | lia |].
    apply Z.log2_lt_pow2; [lia |].
    apply Z.lt_le_trans with (2 ^ k); [lia |]. apply Z.pow_le_mono_r; lia.
Qed.

Lemma ntohl_bytes_arith a b c d l :
  ntohl_bytes (a :: b :: c :: d :: l) =
  Z_of_byte a * 2 ^ 24 + (Z_of_byte b * 2 ^ 16 + (Z_of_byte c * 2 ^ 8 + Z_of_byte d)).
Proof.
  pose proof (Z_of_byte_range a). pose proof (Z_of_byte_range b).
  pose proof (Z_of_byte_range c). pose proof (Z_of_byte_range d).
  unfold ntohl_bytes.
  rewrite (lor_shiftl_add _ (Z_of_byte d)) by lia.
  rewrite (lor_shiftl_add (Z_of_byte b)) by lia.
  by rewrite lor_shiftl_add by lia.
Qed.

Lemma ntohl_bytes_range l : 0 <= ntohl_bytes l < 2 ^ 32.
Proof.
  destruct l as [| a [| b [| c [| d l]]]]; try (cbn; lia).
  rewrite ntohl_bytes_arith.
  pose proof (Z_of_byte_range a). pose proof (Z_of_byte_range b).
  pose proof (Z_of_byte_range c). pose proof (Z_of_byte_range d). lia.
Qed.

Lemma ntohl_htonl z l : 0 <= z < 2 ^ 32 -> ntohl_bytes (htonl_bytes z ++ l) = z.
Proof.
  intros Hz. unfold htonl_bytes. cbn [app]. rewrite ntohl_bytes_arith, !Z_of_byte_of_Z.
  rewrite !Z.shiftr_div_pow2 by lia. Z.to_euclidean_division_equations. lia.
Qed.

Lemma htonl_ntohl a b c d :
  htonl_bytes (ntohl_bytes [a; b; c; d]) = [a; b; c; d].
Proof.
  rewrite ntohl_bytes_arith. unfold htonl_bytes. rewrite !Z.shiftr_div_pow2 by lia.
  pose proof (Z_of_byte_range a). pose proof (Z_of_byte_range b).
  pose proof (Z_of_byte_range c). pose proof (Z_of_byte_range d).
  repeat f_equal; apply byte_of_Z_mod; Z.to_euclidean_division_equations; lia.
Qed.

(** ** Extraction *)

Lemma read_len_at_0 l : read_len_at l 0 = ntohl_bytes l.
Proof. reflexivity. Qed.

Lemma valid_len_spec n : valid_len n = true <-> 0 < n <= MAX_PACKET_SIZE.
Proof. unfold valid_len. rewrite andb_true_iff, Z.ltb_lt, Z.leb_le. lia. Qed.

Lemma u32_small z : 0 <= z < 2 ^ 32 -> u32 z = z.
Proof. intros H. unfold u32. by apply Z.mod_small. Qed.

Lemma u32_header n : 0 < n <= MAX_PACKET_SIZE -> u32 (4 + n) = 4 + n.
Proof. unfold MAX_PACKET_SIZE. intros H. apply u32_small. lia. Qed.

Lemma len_frame msg : len (frame msg) = 4 + len msg.
Proof. unfold frame. rewrite len_app. reflexivity. Qed.

Lemma read_len_frame msg rest :
  wf_message msg -> read_len_at (frame msg ++ rest) 0 = len msg.
Proof.
  unfold wf_message, MAX_PACKET_SIZE. intros H.
  rewrite read_len_at_0. unfold frame. rewrite <- app_assoc, u32_small by lia.
  apply ntohl_htonl. lia.
Qed.

Lemma drop_frame msg rest : drop 4 (frame msg ++ rest) = msg ++ rest.
Proof. unfold frame. by rewrite <- app_assoc. Qed.

Lemma to_nat_len {A} (l : list A) : Z.to_nat (len l) = length l.
Proof. unfold len. lia. Qed.

Lemma extract_frame_app b msg rest :
  wf_message msg ->
  extract_message (mkMessageBufferManager (frame msg ++ rest) b) =
  (Some msg, mkMessageBufferManager rest false).
Proof.
  intros Hm. unfold extract_message. cbn [buffer_].
  rewrite read_len_frame by done. rewrite len_app, len_frame.
  pose proof (len_nonneg rest). pose proof Hm as Hm'. unfold wf_message in Hm'.
  rewrite (proj2 (Z.ltb_ge _ _)) by lia.
  rewrite (proj2 (valid_len_spec _)) by done.
  rewrite u32_header by done. rewrite (proj2 (Z.leb_le _ _)) by lia.
  rewrite drop_frame, to_nat_len, take_app_length.
  replace (Z.to_nat (4 + len msg)) with (length (frame msg)).
  - by rewrite drop_app_length.
  - rewrite <- to_nat_len, len_frame. lia.
Qed.

(** A buffer whose prefix is valid but whose message is incomplete is left
    alone; so is a buffer too short to hold a prefix. *)
Lemma extract_incomplete m :
  incomplete (buffer_ m) ->
  extract_message m = (None, mkMessageBufferManager (buffer_ m) false).
Proof.
  intros (msg & q & Hm & Hpq & Hq). unfold extract_message.
  destruct m as [p b]. cbn [buffer_] in *.
  destruct (Z.ltb_spec (len p) 4) as [| Hp]; [done |].
  assert (Hlen : len p + len q = 4 + len msg) by (rewrite <- len_app, Hpq; apply len_frame).
  assert (Hr : read_len_at p 0 = len msg).
  { rewrite <- (read_len_frame msg []), app_nil_r, <- Hpq by done. rewrite !read_len_at_0.
    destruct p as [| x1 [| x2 [| x3 [| x4 p]]]]; autorewrite with len in Hp; try lia. done. }
  rewrite Hr, (proj2 (valid_len_spec _)), u32_header by done.
  assert (0 < len q) by (destruct q; [done | rewrite len_cons; pose proof (len_nonneg q); lia]).
  by rewrite (proj2 (Z.leb_gt _ _)) by lia.
Qed.

Lemma take_drop_frame n buf :
  read_len_at buf 0 = n -> 0 < n <= MAX_PACKET_SIZE -> 4 + n <= len buf ->
  let msg := take (Z.to_nat n) (drop 4 buf) in
  len msg = n /\ buf = frame msg ++ drop (Z.to_nat (4 + n)) buf.
Proof.
  intros Hr Hn Hl msg. unfold MAX_PACKET_SIZE in Hn.
  destruct buf as [| x1 [| x2 [| x3 [| x4 buf]]]]; autorewrite with len in Hl; try lia.
  pose proof (len_nonneg buf).
  assert (Hlen : len msg = n).
  { unfold msg, len. cbn [drop]. rewrite length_take, drop_0. unfold len in *. lia. }
  split; [done |]. unfold frame. rewrite Hlen, u32_small by lia.
  assert (Hh : htonl_bytes n = [x1; x2; x3; x4])
    by (rewrite <- Hr; exact (htonl_ntohl x1 x2 x3 x4)).
  rewrite Hh. unfold msg.
  replace (Z.to_nat (4 + n)) with (S (S (S (S (Z.to_nat n))))) by lia.
  cbn [drop app]. by rewrite take_drop.
Qed.

Lemma resync_spec n i buf j c :
  resync n i buf = Some (j, c) ->
  i <= j < i + Z.of_nat n /\ c = read_len_at buf j /\ valid_len c = true.
Proof.
  revert i. induction n as [| n IH]; intros i; cbn [resync]; [done |].
  destruct (valid_len (read_len_at buf i)) eqn:E; intros H.
  - injection H as <- <-. repeat split; [lia | lia | done].
  - apply IH in H. destruct H as (? & ? & ?). repeat split; [lia | lia | done | done].
Qed.

Lemma resync_none n i buf j :
  resync n i buf = None -> i <= j < i + Z.of_nat n -> valid_len (read_len_at buf j) = false.
Proof.
  revert i. induction n as [| n IH]; intros i; cbn [resync]; [lia |].
  destruct (valid_len (read_len_at buf i)) eqn:E; [done |].
  intros H Hj. destruct (decide (i = j)) as [-> | Hne]; [done |].
  apply (IH (i + 1)); [done | lia].
Qed.

Lemma read_len_at_drop buf i : 0 <= i -> read_len_at buf i = read_len_at (drop (Z.to_nat i) buf) 0.
Proof. reflexivity. Qed.

(** Case analysis on [extract_message], one premise per branch of the code. *)
Lemma extract_cases (m : MessageBufferManager) (P : option (list byte) * MessageBufferManager -> Prop) :
  let buf := buffer_ m in
  let wait := (None, mkMessageBufferManager buf false) in
  (len buf < 4 -> P wait) ->
  (0 < read_len_at buf 0 <= MAX_PACKET_SIZE -> len buf < 4 + read_len_at buf 0 -> P wait) ->
  (forall i,
     0 <= i <= kMaxResyncScan -> 0 < read_len_at buf i <= MAX_PACKET_SIZE ->
     i + 4 + read_len_at buf i <= len buf ->
     P (Some (take (Z.to_nat (read_len_at buf i)) (drop 4 (drop (Z.to_nat i) buf))),
        mkMessageBufferManager
          (drop (Z.to_nat (4 + read_len_at buf i)) (drop (Z.to_nat i) buf)) false)) ->
  (forall i,
     0 < i <= kMaxResyncScan -> 0 < read_len_at buf i <= MAX_PACKET_SIZE ->
     i + 4 <= len buf < i + 4 + read_len_at buf i ->
     P (None, mkMessageBufferManager (drop (Z.to_nat i) buf) false)) ->
  ((forall i, 0 <= i <= kMaxResyncScan -> i + 4 <= len buf ->
      valid_len (read_len_at buf i) = false) ->
   4 <= len buf ->
   P (if ABSOLUTE_MAX_BUFFER <? len buf then (None, mkMessageBufferManager [] true) else wait)) ->
  P (extract_message m).
Proof.
  intros buf wait Hshort Hwait Hmsg Hresync Hnone.
  unfold extract_message. fold buf. fold wait. cbv zeta.
  destruct (Z.ltb_spec (len buf) 4) as [| H4]; [auto |].
  destruct (valid_len (read_len_at buf 0)) eqn:Hv.
  - apply valid_len_spec in Hv. rewrite u32_header by done.
    destruct (Z.leb_spec (4 + read_len_at buf 0) (len buf)); [| auto].
    apply (Hmsg 0); unfold kMaxResyncScan in *; [lia | done | lia].
  - destruct (resync _ _ _) as [[i c] |] eqn:Hs.
    + apply resync_spec in Hs as (Hi & -> & Hc). apply valid_len_spec in Hc.
      rewrite u32_header by done. unfold kMaxResyncScan in *.
      destruct (Z.leb_spec (i + 4 + read_len_at buf i) (len buf));
        [apply Hmsg | apply Hresync]; unfold kMaxResyncScan; (done || lia).
    + apply Hnone; [| done]. intros i Hi Hl.
      destruct (decide (i = 0)) as [-> | Hi0]; [done |].
      eapply resync_none; [exact Hs |]. unfold kMaxResyncScan in *. lia.
Qed.

Lemma extract_sound_aux m msg m' :
  extract_message m = (Some msg, m') ->
  exists junk, buffer_ m = junk ++ frame msg ++ buffer_ m' /\
    len junk <= kMaxResyncScan /\ wf_message msg.
Proof.
  apply (extract_cases m (fun r => r = (Some msg, m') -> _)); try done.
  - intros i Hi Hv Hl [= <- <-]. cbn [buffer_].
    exists (take (Z.to_nat i) (buffer_ m)).
    rewrite read_len_at_drop in * by lia. revert Hv Hl.
    set (buf := drop (Z.to_nat i) (buffer_ m)). intros Hv Hl.
    assert (Hb : len buf = len (buffer_ m) - i).
    { unfold buf, len. rewrite length_drop. unfold len in Hl. lia. }
    destruct (take_drop_frame _ buf eq_refl Hv ltac:(lia)) as [Hlen Heq].
    rewrite <- Heq. split; [unfold buf; by rewrite take_drop |]. split.
    + unfold len. rewrite length_take. lia.
    + unfold wf_message. lia.
  - intros _ _. by case_match.
Qed.

Lemma extract_shrinks m msg m' :
  extract_message m = (Some msg, m') ->
  (length (buffer_ m') < length (buffer_ m))%nat.
Proof.
  intros (junk & -> & _ & Hm)%extract_sound_aux.
  rewrite !length_app. pose proof (len_frame msg) as Hf.
  unfold wf_message in Hm. unfold len in *. lia.
Qed.

Lemma extract_none_bound m m' :
  extract_message m = (None, m') -> len (buffer_ m') <= ABSOLUTE_MAX_BUFFER.
Proof.
  apply (extract_cases m (fun r => r = (None, m') -> _)); unfold ABSOLUTE_MAX_BUFFER.
  - intros H [= <-]. cbn [buffer_]. lia.
  - unfold MAX_PACKET_SIZE. intros Hv H [= <-]. cbn [buffer_]. lia.
  - done.
  - intros i Hi Hv Hl [= <-]. cbn [buffer_]. unfold MAX_PACKET_SIZE in Hv.
    assert (len (drop (Z.to_nat i) (buffer_ m)) = len (buffer_ m) - i); [| lia].
    unfold len. rewrite length_drop. unfold len in Hl. lia.
  - intros _ _. destruct (Z.ltb_spec (512 * 1024) (len (buffer_ m))); intros [= <-];
      cbn [buffer_]; rewrite ?len_nil; lia.
Qed.

#[export] Program Instance MessageBufferManager_decoder : FrameDecoder MessageBufferManager := {
  fd_empty := empty_buffer;
  fd_append := append;
  fd_extract := extract_message;
  fd_overflow := was_last_clear_by_invalid_length;
  fd_view := buffer_;
  fd_extract_shrinks := extract_shrinks
}.
Next Obligation. done. Qed.
Next Obligation. done. Qed.
Next Obligation.
  intros [buf b] msg rest Hm. cbn [buffer_]. intros ->. rewrite extract_frame_app by done. eauto.
Qed.
Next Obligation. intros m Hm. rewrite extract_incomplete by done. eauto. Qed.

(** *** Draining *)

(** [drain] never runs out of fuel: one more unit changes nothing. *)
Lemma drain_fuel_enough {D} `{FrameDecoder D} n1 n2 d :
  (length (fd_view d) < n1)%nat -> (length (fd_view d) < n2)%nat -> drain_fuel n1 d = drain_fuel n2 d.
Proof.
  revert n2 d. induction n1 as [| n1 IH]; intros [| n2] d H1 H2; try lia.
  cbn [drain_fuel]. destruct (fd_extract d) as [[msg |] d'] eqn:E; [| done].
  pose proof (fd_extract_shrinks _ _ _ E). rewrite (IH n2 d') by lia. done.
Qed.

Lemma drain_some {D} `{FrameDecoder D} d msg d' :
  fd_extract d = (Some msg, d') ->
  drain d = (msg :: fst (drain d'), snd (drain d')).
Proof.
  intros E. pose proof (fd_extract_shrinks _ _ _ E).
  unfold drain at 1. cbn [drain_fuel]. rewrite E.
  rewrite (drain_fuel_enough _ (S (length (fd_view d'))) d') by lia. fold (drain d').
  by destruct (drain d').
Qed.

Lemma drain_none {D} `{FrameDecoder D} d d' :
  fd_extract d = (None, d') -> drain d = ([], d').
Proof. intros E. unfold drain. cbn [drain_fuel]. by rewrite E. Qed.

(** After draining, the last extraction found nothing. *)
Lemma drain_exhausted {D} `{FrameDecoder D} d :
  exists d', fd_extract d' = (None, snd (drain d)).
Proof.
  induction d as [d IH] using (induction_ltof1 _ (fun d : D => length (fd_view d))).
  destruct (fd_extract d) as [[msg |] d'] eqn:E.
  - rewrite (drain_some _ _ _ E). apply IH. unfold ltof. eapply fd_extract_shrinks; eauto.
  - rewrite (drain_none _ _ E). eauto.
Qed.

(** *** Streams of frames *)

Definition frames (msgs : list (list byte)) : list byte := concat (map frame msgs).

Lemma incomplete_nil : incomplete [].
Proof. exists [x00], (frame [x00]). by repeat split. Qed.

Lemma incomplete_prefix x y : incomplete (x ++ y) -> incomplete x.
Proof.
  intros (msg & q & Hm & Heq & Hq). exists msg, (y ++ q). rewrite app_assoc.
  repeat split; [apply Hm | apply Hm | done |]. by destruct y.
Qed.

(** Cutting a stream anywhere leaves whole frames and an incomplete one. *)
Lemma cut_stream msgs p x y :
  Forall wf_message msgs -> incomplete p -> x ++ y = frames msgs ++ p ->
  exists msgs1 msgs2 p1, msgs = msgs1 ++ msgs2 /\ x = frames msgs1 ++ p1 /\
    incomplete p1 /\ p1 ++ y = frames msgs2 ++ p.
Proof.
  intros Hms Hp. revert x. induction Hms as [| m ms Hm Hms IH]; intros x Heq.
  - exists [], [], x. repeat split; [| done]. apply (incomplete_prefix _ y).
    cbn in Heq. by rewrite Heq.
  - unfold frames in Heq. cbn [map concat] in Heq. rewrite <- app_assoc in Heq.
    apply app_eq_inv in Heq as [(k & -> & Hk) | (k & Hx & Hy)].
    + destruct (IH k (eq_sym Hk)) as (ms1 & ms2 & p1 & -> & -> & Hp1 & Heq1).
      exists (m :: ms1), ms2, p1. unfold frames. cbn [map concat app].
      by rewrite <- app_assoc.
    + destruct k as [| b k].
      * rewrite app_nil_r in Hx. cbn in Hy. subst y.
        exists [m], ms, []. unfold frames. cbn [map concat].
        rewrite !app_nil_r. repeat split; [done | apply incomplete_nil].
      * exists [], (m :: ms), x. repeat split.
        -- exists m, (b :: k). repeat split; [apply Hm | apply Hm | done | done].
        -- unfold frames. cbn [map concat]. by rewrite Hy, Hx, <- !app_assoc.
Qed.

Section stream.
Context {D : Type} `{FrameDecoder D}.

Lemma drain_stream msgs p d :
  Forall wf_message msgs -> incomplete p -> fd_view d = frames msgs ++ p ->
  fst (drain d) = msgs /\ fd_view (snd (drain d)) = p.
Proof.
  intros Hms Hp. revert d. induction Hms as [| m ms Hm Hms IH]; intros d Hd.
  - cbn in Hd. destruct (fd_extract_incomplete d) as (d' & E & Hd'); [by rewrite Hd |].
    rewrite (drain_none _ _ E). cbn. by rewrite Hd', Hd.
  - unfold frames in Hd. cbn [map concat] in Hd. rewrite <- app_assoc in Hd.
    destruct (fd_extract_frame _ _ _ Hm Hd) as (d' & E & Hd').
    rewrite (drain_some _ _ _ E). cbn [fst snd].
    destruct (IH _ Hd') as [-> ->]. done.
Qed.

Lemma receive_stream segments msgs p d :
  Forall wf_message msgs -> incomplete p -> incomplete (fd_view d) ->
  fd_view d ++ concat segments = frames msgs ++ p ->
  fst (receive d segments) = msgs /\ fd_view (snd (receive d segments)) = p.
Proof.
  intros Hms Hp. revert msgs d Hms. induction segments as [| s segs IH]; intros msgs d Hms Hd Heq.
  - cbn [concat receive] in *. rewrite app_nil_r in Heq.
    destruct (drain_stream msgs p d Hms Hp Heq) as [Hf Hs].
    destruct (fd_extract_incomplete d Hd) as (d' & E & Hd').
    rewrite (drain_none _ _ E) in Hf, Hs. cbn in *. split; congruence.
  - cbn [concat receive] in *. rewrite app_assoc, <- fd_view_append in Heq.
    destruct (cut_stream _ _ _ _ Hms Hp Heq) as (ms1 & ms2 & p1 & -> & Hv & Hp1 & Heq1).
    apply Forall_app in Hms as [Hms1 Hms2].
    destruct (drain_stream ms1 p1 _ Hms1 Hp1 Hv) as [Hf Hs].
    destruct (drain (fd_append d s)) as [out d1]. cbn [fst snd] in *. subst out.
    destruct (IH ms2 d1 Hms2) as [Hf2 Hs2]; [by rewrite Hs | by rewrite Hs |].
    destruct (receive d1 segs). cbn [fst snd] in *. by subst.
Qed.
End stream.

(** ** Properties *)

(** Round trip of the framing: whatever follows a framed message in the
    buffer, [extract_message] returns exactly that message and leaves exactly
    the bytes that follow it. *)
Theorem extract_roundtrip m msg rest :
  wf_message msg -> buffer_ m = frame msg ++ rest ->
  extract_message m = (Some msg, mkMessageBufferManager rest false).
Proof. destruct m as [buf b]. cbn [buffer_]. intros Hm ->. by apply extract_frame_app. Qed.

Lemma extract_roundtrip_witness :
  extract_message (append empty_buffer (frame [x7b; x7d] ++ [x00; x01])) =
  (Some [x7b; x7d], mkMessageBufferManager [x00; x01] false).
Proof.
  apply (extract_roundtrip _ [x7b; x7d] [x00; x01]); [| reflexivity].
  vm_compute. split; [reflexivity | discriminate].
Defined.

(** C14. Segmentation independence: if the bytes of a TCP connection are whole
    frames followed by an unfinished one, then however the kernel cuts them
    into segments, appending each segment and draining after it delivers
    exactly the sent messages in order and keeps exactly the unfinished
    bytes. *)
Theorem receive_segmentation segments msgs p :
  Forall wf_message msgs -> incomplete p ->
  concat segments = frames msgs ++ p ->
  fst (receive empty_buffer segments) = msgs /\
  buffer_ (snd (receive empty_buffer segments)) = p.
Proof.
  intros Hms Hp Heq.
  exact (receive_stream segments msgs p empty_buffer Hms Hp incomplete_nil Heq).
Qed.

Lemma receive_segmentation_witness :
  let a := [x61; x62] in let b := [x63] in
  fst (receive empty_buffer
         [[x00]; [x00; x00]; [x02; x61]; [x62; x00; x00; x00; x01; x63; x00]]) = [a; b].
Proof.
  apply (receive_segmentation _ [[x61; x62]; [x63]] [x00]).
  - repeat constructor; vm_compute; (reflexivity || discriminate).
  - exists [x64], [x00; x00; x01; x64]. repeat split; vm_compute; (reflexivity || discriminate).
  - reflexivity.
Defined.

(** Soundness of extraction on arbitrary input, resynchronisation
    included: a delivered message is a contiguous part of the buffer, preceded
    by its own length prefix, between 1 byte and [MAX_PACKET_SIZE] long, with
    at most [kMaxResyncScan] bytes of noise dropped before it, and nothing
    after it is lost. *)
Theorem extract_sound m msg m' :
  extract_message m = (Some msg, m') ->
  exists junk, buffer_ m = junk ++ frame msg ++ buffer_ m' /\
    len junk <= kMaxResyncScan /\ wf_message msg.
Proof. apply extract_sound_aux. Qed.

Lemma extract_sound_witness :
  exists junk, [xff; xff; xff; xff; x00; x00; x00; x01; x61; x62] =
    junk ++ frame [x61] ++ [x62] /\ len junk <= kMaxResyncScan /\ wf_message [x61].
Proof.
  apply (extract_sound
           (mkMessageBufferManager [xff; xff; xff; xff; x00; x00; x00; x01; x61; x62] true)
           [x61] (mkMessageBufferManager [x62] false)).
  reflexivity.
Defined.

(** The function as the header describes it: look for the first offset, among
    the scanned ones, with a plausible length prefix, and drop what is before. *)
Definition plausible (buf : list byte) (i : Z) : bool := valid_len (read_len_at buf i).

Definition first_prefix (buf : list byte) : option Z :=
  head (List.filter (plausible buf) (seqZ 0 (Z.min (kMaxResyncScan + 1) (len buf - 3)))).

Definition extract_reference (m : MessageBufferManager) : option (list byte) * MessageBufferManager :=
  let buf := buffer_ m in
  match first_prefix buf with
  | Some i =>
      let n := Z.to_nat (read_len_at buf i) in
      let rest := drop (Z.to_nat i) buf in
      if i + 4 + Z.of_nat n <=? len buf
      then (Some (take n (drop 4 rest)), mkMessageBufferManager (drop (4 + n) rest) false)
      else (None, mkMessageBufferManager rest false)
  | None =>
      let lost := ABSOLUTE_MAX_BUFFER <? len buf in
      (None, mkMessageBufferManager (if lost then [] else buf) lost)
  end.

Lemma resync_first n i buf :
  resync n i buf =
  (fun j => (j, read_len_at buf j)) <$> head (List.filter (plausible buf) (seqZ i (Z.of_nat n))).
Proof.
  revert i. induction n as [| n IH]; intros i; [done |].
  rewrite seqZ_cons by lia. cbn [resync List.filter]. unfold plausible at 1.
  destruct (valid_len _); [done |]. rewrite IH. replace (Z.pred (Z.of_nat (S n))) with (Z.of_nat n) by lia.
  done.
Qed.

(** C15. Equivalence with a reference definition: on every buffer, well formed or
    not, [extract_message] does what looking for the first plausible prefix
    among the first 16385 offsets prescribes. *)
Theorem extract_is_reference m : extract_message m = extract_reference m.
Proof.
  unfold extract_message, extract_reference, first_prefix. set (buf := buffer_ m).
  destruct (Z.ltb_spec (len buf) 4) as [H4 | H4].
  { replace (seqZ 0 _) with (@nil Z) by (symmetry; apply seqZ_nil; unfold kMaxResyncScan; lia).
    cbn [List.filter head]. by rewrite (proj2 (Z.ltb_ge _ _)) by (unfold ABSOLUTE_MAX_BUFFER; lia). }
  rewrite seqZ_cons by (unfold kMaxResyncScan; lia). cbn [List.filter]. unfold plausible at 1.
  destruct (valid_len (read_len_at buf 0)) eqn:Hv; cbn [head].
  - apply valid_len_spec in Hv. rewrite u32_header, Z2Nat.id by lia.
    destruct (Z.leb_spec (4 + read_len_at buf 0) (len buf)); rewrite ?drop_0;
      [rewrite (proj2 (Z.leb_le _ _)) by lia | by rewrite (proj2 (Z.leb_gt _ _)) by lia].
    by replace (Z.to_nat (4 + read_len_at buf 0)) with (4 + Z.to_nat (read_len_at buf 0))%nat by lia.
  - rewrite resync_first. unfold kMaxResyncScan in *.
    replace (Z.of_nat (Z.to_nat (Z.min (len buf) (16384 + 4) - 4)))
      with (Z.pred (Z.min (16384 + 1) (len buf - 3))) by lia.
    change (Z.succ 0) with 1.
    destruct (head _) as [i |] eqn:Hh; cbn [fmap option_fmap option_map].
    + assert (Hi : plausible buf i = true /\ 1 <= i).
      { apply head_Some_elem_of in Hh. apply list_elem_of_In, List.filter_In in Hh as [Hin Hp].
        split; [done |]. apply list_elem_of_In, elem_of_seqZ in Hin. lia. }
      destruct Hi as [Hp Hi]. apply valid_len_spec in Hp. rewrite u32_header, Z2Nat.id by lia.
      destruct (i + 4 + read_len_at buf i <=? len buf); [| done].
      by replace (Z.to_nat (4 + read_len_at buf i)) with (4 + Z.to_nat (read_len_at buf i))%nat by lia.
    + by destruct (ABSOLUTE_MAX_BUFFER <? len buf).
Qed.

(** C16. Memory bound and overflow signal: once a read callback has drained the
    buffer, at most 512 KiB stay buffered; and [extract_message] raises the
    flag that makes the session close exactly when the buffer holds more than
    512 KiB and no plausible prefix in its scanned head. *)
Theorem buffer_bounded m :
  len (buffer_ (snd (drain m))) <= ABSOLUTE_MAX_BUFFER /\
  (was_last_clear_by_invalid_length (snd (extract_message m)) = true <->
   ABSOLUTE_MAX_BUFFER < len (buffer_ m) /\
   forall i, 0 <= i <= kMaxResyncScan -> i + 4 <= len (buffer_ m) ->
     valid_len (read_len_at (buffer_ m) i) = false).
Proof.
  split.
  - destruct (drain_exhausted m) as (d & Hd). by apply extract_none_bound in Hd.
  - apply (extract_cases m (fun r => was_last_clear_by_invalid_length (snd r) = true <-> _));
      unfold ABSOLUTE_MAX_BUFFER, was_last_clear_by_invalid_length.
    + intros Hl. cbn. split; [done | lia].
    + unfold MAX_PACKET_SIZE. intros Hv Hl. cbn. split; [done | lia].
    + intros i Hi Hv Hl. cbn. split; [done |]. intros [_ Hn].
      rewrite <- valid_len_spec in Hv. rewrite Hn in Hv; [done | lia |].
      apply valid_len_spec in Hv. lia.
    + intros i Hi Hv Hl. cbn. split; [done |]. intros [_ Hn].
      rewrite <- valid_len_spec in Hv. rewrite Hn in Hv; [done | lia | lia].
    + intros Hn Hl. destruct (Z.ltb_spec (512 * 1024) (len (buffer_ m))); cbn.
      * split; [| done]. intros _. split; [done |]. apply Hn.
      * split; [done | lia].
Qed.
