(* ===== verification/RateLimit.v ===== *)
(** * UDP flood control

    The three limiters a datagram passes: the sharded server-wide counter of
    [Utility.h] ([sharded_udp_rate_limit]), the per-session token bucket of
    [Session::checkUdpRateLimit], and the table of endpoints that sent
    malformed packets ([DataHandler::register_bad_udp_packet],
    [DataHandler::is_blocked_udp]).  Times are [steady_clock] values in
    nanoseconds. *)
From Stdlib Require Import ZArith Lia Floats.SpecFloat.
From stdpp Require Import base gmap list strings pretty.
From S2P Require Import Prelude.

Open Scope Z_scope.

Definition seconds (s : Z) : Z := s * 1000000000.

(** ** Token bucket

    The refill is computed by the source in [double]: the IEEE operations are
    those of [SpecFloat], and [static_cast<int>] truncates.  C++ leaves the
    conversion of a double beyond the range of [int] undefined; the model has
    the value of the x86-64 instruction [cvttsd2si], the least [int]. *)

Definition double_of_Z (z : Z) : spec_float := binary_normalize 53 1024 z 0 false.

Definition int_of_double (f : spec_float) : Z :=
  match f with
  | S754_zero _ => 0
  | S754_finite s m e =>
      let a := if 0 <=? e then Z.pos m * 2 ^ e else Z.pos m / 2 ^ (- e) in
      let z := if s then - a else a in
      if (- 2 ^ 31 <=? z) && (z <? 2 ^ 31) then z else - 2 ^ 31
  | S754_infinity _ | S754_nan => - 2 ^ 31
  end.

Lemma int_of_double_range f : - 2 ^ 31 <= int_of_double f < 2 ^ 31.
Proof.
  unfold int_of_double. destruct f as [s | s | | s m e]; [lia .. |]. cbv zeta.
  destruct (_ && _) eqn:E; [| lia]. apply andb_true_iff in E as [?%Z.leb_le ?%Z.ltb_lt]. lia.
Qed.

Definition maxTokens_ : Z := 120.
Definition refillRatePerSec_ : Z := 60.

(** [static_cast<int>((elapsed / 1000.0) * refillRatePerSec_)], with [elapsed]
    in milliseconds; it is in the range of [int] for more than 400 days
    ([refill_in_range]). *)
Definition refill_of (elapsed : Z) : Z :=
  int_of_double
    (SFmul 53 1024 (SFdiv 53 1024 (double_of_Z elapsed) (double_of_Z 1000))
       (double_of_Z refillRatePerSec_)).

Record TokenBucket := mkTokenBucket {
  udpTokens_ : Z;
  lastUdpTokenRefill_ : Z
}.

Definition fresh_bucket (now : Z) : TokenBucket := mkTokenBucket 120 now.

Definition checkUdpRateLimit (now : Z) (b : TokenBucket) : bool * TokenBucket :=
  let elapsed := Z.quot (now - lastUdpTokenRefill_ b) 1000000 in
  let refill := refill_of elapsed in
  let b := if 0 <? refill
           then mkTokenBucket (Z.min (udpTokens_ b + refill) maxTokens_) now
           else b in
  if 0 <? udpTokens_ b
  then (true, mkTokenBucket (udpTokens_ b - 1) (lastUdpTokenRefill_ b))
  else (false, b).

(** A sequence of packets of one session, at the given times. *)
Fixpoint run_bucket (ts : list Z) (b : TokenBucket) : Z * TokenBucket :=
  match ts with
  | [] => (0, b)
  | t :: ts' =>
      let '(ok, b') := checkUdpRateLimit t b in
      let '(n, b'') := run_bucket ts' b' in
      ((if ok then 1 else 0) + n, b'')
  end.

(** ** Sharded server-wide limiter *)

Record UdpRateLimiterShard := mkUdpRateLimiterShard {
  counts : list Z;
  window_secs : list Z
}.

Definition new_limiter (shard_count : nat) : UdpRateLimiterShard :=
  mkUdpRateLimiterShard (replicate shard_count 0) (replicate shard_count 0).

(** One packet, processed by a thread whose id hashes to [tid_hash].  The
    sequence of atomic operations is executed without interleaving. *)
Definition sharded_udp_rate_limit (tid_hash : Z) (now limit_per_sec : Z)
    (l : UdpRateLimiterShard) : bool * UdpRateLimiterShard :=
  let shard_count := length (counts l) in
  if decide (shard_count = 0%nat) then (true, l)
  else
    let now_sec := Z.quot now 1000000000 in
    let idx := Z.to_nat (tid_hash mod Z.of_nat shard_count) in
    let old_sec := nth idx (window_secs l) 0 in
    let l1 := if decide (now_sec = old_sec) then l
              else mkUdpRateLimiterShard (<[idx := 0]> (counts l))
                     (<[idx := now_sec]> (window_secs l)) in
    let l2 := mkUdpRateLimiterShard
                (<[idx := u64 (nth idx (counts l1) 0 + 1)]> (counts l1)) (window_secs l1) in
    let total := foldl (fun acc c => u64 (acc + c)) 0 (counts l2) in
    (total <=? limit_per_sec, l2).

(** Packets given as (thread hash, time). *)
Fixpoint run_limiter (limit : Z) (ps : list (Z * Z)) (l : UdpRateLimiterShard) :
    list bool * UdpRateLimiterShard :=
  match ps with
  | [] => ([], l)
  | (h, t) :: ps' =>
      let '(ok, l') := sharded_udp_rate_limit h t limit l in
      let '(oks, l'') := run_limiter limit ps' l' in
      (ok :: oks, l'')
  end.

(** ** Endpoints that sent malformed packets *)

Record endpoint := mkEndpoint { ep_address : string; ep_port : Z }.

#[export] Instance endpoint_eq_dec : EqDecision endpoint.
Proof. solve_decision. Defined.

#[export] Program Instance endpoint_countable : Countable endpoint :=
  inj_countable' (fun e => (ep_address e, ep_port e)) (fun p => mkEndpoint (fst p) (snd p)) _.
Next Obligation. by intros []. Qed.

Record BadUdpInfo := mkBadUdpInfo { fail_count : Z; first_fail_time : Z }.

Definition bad_udp_limit_ : Z := 10.
Definition block_time_ : Z := seconds 60.

Definition endpoint_key (e : endpoint) : string :=
  (ep_address e +:+ ":" +:+ pretty (ep_port e))%string.

Definition register_bad_udp_packet (e : endpoint) (now : Z) (m : gmap string BadUdpInfo) :
    gmap string BadUdpInfo :=
  let key := endpoint_key e in
  match m !! key with
  | None => <[key := mkBadUdpInfo 1 now]> m
  | Some info =>
      if block_time_ <? now - first_fail_time info
      then <[key := mkBadUdpInfo 1 now]> m
      else <[key := mkBadUdpInfo (fail_count info + 1) (first_fail_time info)]> m
  end.

Definition is_blocked_udp (e : endpoint) (now : Z) (m : gmap string BadUdpInfo) :
    bool * gmap string BadUdpInfo :=
  let key := endpoint_key e in
  match m !! key with
  | None => (false, m)
  | Some info =>
      if block_time_ <? now - first_fail_time info then (false, delete key m)
      else (bad_udp_limit_ <=? fail_count info, m)
  end.

(** ** Token bucket: lemmas *)

(** Below the saturation point of two seconds the floating-point refill is the
    exact quotient; checked by evaluation. *)
Lemma refill_exact elapsed :
  0 <= elapsed < 2000 -> refill_of elapsed = elapsed * 60 / 1000.
Proof.
  intros H.
  assert (Hall : forallb (fun e => Z.eqb (refill_of (Z.of_nat e)) (Z.of_nat e * 60 / 1000))
                   (seq 0 2000) = true) by (vm_compute; reflexivity).
  rewrite forallb_forall in Hall.
  specialize (Hall (Z.to_nat elapsed)). rewrite Z2Nat.id in Hall by lia.
  apply Z.eqb_eq, Hall. apply in_seq. lia.
Qed.

(** Silences of up to 400 days, by evaluation at the end of the range. *)
Example refill_in_range : refill_of (400 * 86400 * 1000) = 400 * 86400 * 60.
Proof. vm_compute. reflexivity. Qed.

Example refill_beyond : refill_of (500 * 86400 * 1000) = - 2 ^ 31.
Proof. vm_compute. reflexivity. Qed.

(** What one call adds to the bucket, in packets times nanoseconds: no more
    than 60 packets per second of elapsed time. *)
Lemma bucket_gain_bound now last tokens :
  last <= now -> 0 <= tokens <= maxTokens_ ->
  let refill := refill_of (Z.quot (now - last) 1000000) in
  0 < refill ->
  (Z.min (tokens + refill) maxTokens_ - tokens) * 1000000000 <=
  refillRatePerSec_ * (now - last).
Proof.
  intros Hle Ht. unfold maxTokens_, refillRatePerSec_ in *.
  rewrite Z.quot_div_nonneg by lia.
  cbv zeta. set (e := (now - last) / 1000000). intros Hr.
  assert (He : 0 <= e /\ e * 1000000 <= now - last)
    by (unfold e; split; [apply Z.div_pos; lia |];
        pose proof (Z.mul_div_le (now - last) 1000000); lia).
  destruct (Z.lt_ge_cases e 2000) as [Hlt | Hge].
  - rewrite refill_exact in * by lia.
    pose proof (Z.mul_div_le (e * 60) 1000). lia.
  - lia.
Qed.

Definition bucket_ok (b : TokenBucket) : Prop := 0 <= udpTokens_ b <= maxTokens_.

Lemma checkUdpRateLimit_ok now b : bucket_ok b -> bucket_ok (snd (checkUdpRateLimit now b)).
Proof.
  unfold bucket_ok, checkUdpRateLimit, maxTokens_. intros Hb.
  destruct (Z.ltb_spec 0 (refill_of (Z.quot (now - lastUdpTokenRefill_ b) 1000000)));
    cbn [udpTokens_]; case_match; cbn [snd udpTokens_]; rewrite ?Z.ltb_lt, ?Z.ltb_ge in *; lia.
Qed.

Lemma fresh_bucket_ok now : bucket_ok (fresh_bucket now).
Proof. unfold bucket_ok, fresh_bucket, maxTokens_. cbn. lia. Qed.

(** Amortised accounting of one call. *)
Lemma checkUdpRateLimit_step now b :
  bucket_ok b -> lastUdpTokenRefill_ b <= now ->
  let '(ok, b') := checkUdpRateLimit now b in
  lastUdpTokenRefill_ b <= lastUdpTokenRefill_ b' <= now /\
  ((if ok then 1 else 0) + udpTokens_ b' - udpTokens_ b) * 1000000000 <=
  refillRatePerSec_ * (lastUdpTokenRefill_ b' - lastUdpTokenRefill_ b).
Proof.
  intros Hb Hle. unfold checkUdpRateLimit.
  pose proof (bucket_gain_bound now (lastUdpTokenRefill_ b) (udpTokens_ b) Hle Hb) as Hg.
  cbv zeta in Hg. unfold refillRatePerSec_, maxTokens_ in *.
  destruct (Z.ltb_spec 0 (refill_of (Z.quot (now - lastUdpTokenRefill_ b) 1000000)))
    as [Hr |]; cbn [udpTokens_ lastUdpTokenRefill_].
  - specialize (Hg Hr). destruct (0 <? _); cbn [udpTokens_ lastUdpTokenRefill_]; lia.
  - destruct (0 <? _); cbn [udpTokens_ lastUdpTokenRefill_]; lia.
Qed.

Fixpoint ascending (t0 : Z) (ts : list Z) : Prop :=
  match ts with
  | [] => True
  | t :: ts' => t0 <= t /\ ascending t ts'
  end.

Lemma ascending_le t0 t1 ts : t1 <= t0 -> ascending t0 ts -> ascending t1 ts.
Proof. destruct ts; cbn; [done |]. intros H [? ?]. split; [lia | done]. Qed.

(** The time of the last packet, or [t0] if there is none. *)
Fixpoint end_time (t0 : Z) (ts : list Z) : Z :=
  match ts with
  | [] => t0
  | t :: ts' => end_time t ts'
  end.

Lemma end_time_mono t0 t1 ts : t0 <= t1 -> end_time t0 ts <= end_time t1 ts.
Proof. destruct ts; cbn; lia. Qed.

Lemma run_bucket_amortised ts b :
  bucket_ok b -> ascending (lastUdpTokenRefill_ b) ts ->
  let '(n, b') := run_bucket ts b in
  bucket_ok b' /\ lastUdpTokenRefill_ b <= lastUdpTokenRefill_ b' <=
    end_time (lastUdpTokenRefill_ b) ts /\
  (n + udpTokens_ b' - udpTokens_ b) * 1000000000 <=
  refillRatePerSec_ * (lastUdpTokenRefill_ b' - lastUdpTokenRefill_ b).
Proof.
  revert b. induction ts as [| t ts IH]; intros b Hb; cbn [ascending run_bucket].
  - intros _. cbn. split; [done | lia].
  - intros [Ht Hts].
    pose proof (checkUdpRateLimit_step t b Hb Ht) as Hstep.
    pose proof (checkUdpRateLimit_ok t b Hb) as Hb'.
    destruct (checkUdpRateLimit t b) as [ok b'] eqn:E. cbn [snd] in Hb'.
    destruct Hstep as [Hl Hstep].
    specialize (IH b' Hb' (ascending_le t (lastUdpTokenRefill_ b') ts ltac:(lia) Hts)).
    destruct (run_bucket ts b') as [n b'']. destruct IH as (Hb'' & Hl'' & IH).
    split; [done |]. cbn [end_time].
    pose proof (end_time_mono (lastUdpTokenRefill_ b') t ts ltac:(lia)). lia.
Qed.

(** ** Sharded limiter: lemmas *)

Fixpoint sum (l : list Z) : Z :=
  match l with
  | [] => 0
  | c :: l' => c + sum l'
  end.

Definition limiter_wf (l : UdpRateLimiterShard) : Prop :=
  length (window_secs l) = length (counts l) /\ Forall (fun c => 0 <= c) (counts l).

Lemma sum_nonneg l : Forall (fun c => 0 <= c) l -> 0 <= sum l.
Proof. induction 1; cbn; lia. Qed.

Lemma sum_insert l i x : (i < length l)%nat -> sum (<[i := x]> l) = sum l - nth i l 0 + x.
Proof.
  revert i. induction l as [| a l IH]; intros [| i] Hi; cbn in *; try lia.
  rewrite IH by lia. lia.
Qed.

Lemma nth_le_sum l i : Forall (fun c => 0 <= c) l -> nth i l 0 <= sum l.
Proof.
  intros H. revert i. induction H as [| a l Ha Hl IH]; intros [| i]; cbn; try lia.
  - pose proof (sum_nonneg l Hl).  lia.
  - specialize (IH i).  lia.
Qed.

Lemma nth_nonneg l i : Forall (fun c => 0 <= c) l -> 0 <= nth i l 0.
Proof. intros H. revert i. induction H; intros [| i]; cbn; auto; lia. Qed.

(** Adding up in [size_t] is exact as long as the sum fits. *)
Lemma total_exact acc l :
  Forall (fun c => 0 <= c) l -> 0 <= acc -> acc + sum l < 2 ^ 64 ->
  foldl (fun acc c => u64 (acc + c)) acc l = acc + sum l.
Proof.
  intros H. revert acc. induction H as [| a l Ha Hl IH]; intros acc Hacc Hb; cbn in *; [lia |].
  pose proof (sum_nonneg l Hl). 
  rewrite u64_small by lia. rewrite IH by lia. lia.
Qed.

Lemma nth_insert_same {A} (l : list A) i x d : (i < length l)%nat -> nth i (<[i := x]> l) d = x.
Proof. revert i. induction l; intros [| i] Hi; cbn in *; (lia || done || apply IHl; lia). Qed.

Lemma nth_insert_other {A} (l : list A) i j x d : i <> j -> nth j (<[i := x]> l) d = nth j l d.
Proof. revert i j. induction l; intros [| i] [| j] Hij; cbn; auto; done. Qed.

Lemma Forall_insert_nonneg l i x :
  Forall (fun c => 0 <= c) l -> 0 <= x -> Forall (fun c => 0 <= c) (<[i := x]> l).
Proof. intros H Hx. by apply Forall_insert. Qed.

Lemma shard_index h n : (0 < n)%nat -> (Z.to_nat (h mod Z.of_nat n) < n)%nat.
Proof. intros H. pose proof (Z.mod_pos_bound h (Z.of_nat n)). lia. Qed.

(** Packets counted for second [s]: the counters of the shards whose window is
    at [s]. *)
Definition counted (s : Z) (l : UdpRateLimiterShard) : Z :=
  sum (zip_with (fun c w => if decide (w = s) then c else 0) (counts l) (window_secs l)).

Lemma nth_zip_with {A B C} (f : A -> B -> C) l k i d e c :
  (i < length l)%nat -> length k = length l ->
  nth i (zip_with f l k) c = f (nth i l d) (nth i k e).
Proof.
  revert k i. induction l as [| a l IH]; intros [| b k] [| i] Hi Hl; cbn in *; try lia; [done |].
  apply IH; lia.
Qed.

Lemma insert_nth_id {A} (l : list A) i d : (i < length l)%nat -> <[i := nth i l d]> l = l.
Proof.
  revert i. induction l as [| a l IH]; intros [| i] Hi; cbn in *; try lia; [done |].
  f_equal. apply IH. lia.
Qed.

(** The shard a packet is counted on, and its counter afterwards. *)
Definition shard_of (h : Z) (l : UdpRateLimiterShard) : nat :=
  Z.to_nat (h mod Z.of_nat (length (counts l))).
Definition bumped (h s : Z) (l : UdpRateLimiterShard) : Z :=
  if decide (nth (shard_of h l) (window_secs l) 0 = s) then nth (shard_of h l) (counts l) 0 + 1
  else 1.

(** The whole step as one update, when the counters do not overflow. *)
Lemma limiter_step h t limit l :
  limiter_wf l -> counts l <> [] -> sum (counts l) + 1 < 2 ^ 64 ->
  let s := Z.quot t 1000000000 in
  let l' := mkUdpRateLimiterShard (<[shard_of h l := bumped h s l]> (counts l))
              (<[shard_of h l := s]> (window_secs l)) in
  sharded_udp_rate_limit h t limit l = (sum (counts l') <=? limit, l') /\
  limiter_wf l' /\ sum (counts l') <= sum (counts l) + 1 /\ counts l' <> [].
Proof.
  intros [Hlen Hpos] Hne Hb s. cbv zeta.
  assert (Hn : (0 < length (counts l))%nat) by (destruct (counts l); [done | cbn; lia]).
  pose proof (shard_index h _ Hn) as Hidx. fold (shard_of h l) in Hidx.
  pose proof (nth_nonneg (counts l) (shard_of h l) Hpos) as Hnn.
  pose proof (nth_le_sum (counts l) (shard_of h l) Hpos) as Hle.
  assert (Hbump : 0 <= bumped h s l /\ bumped h s l <= nth (shard_of h l) (counts l) 0 + 1)
    by (unfold bumped; destruct (decide _); lia).
  assert (Hsum : sum (<[shard_of h l := bumped h s l]> (counts l)) <= sum (counts l) + 1)
    by (rewrite sum_insert by done; lia).
  assert (Hpos' : Forall (fun c => 0 <= c) (<[shard_of h l := bumped h s l]> (counts l)))
    by (apply Forall_insert_nonneg; [done | lia]).
  split; [| split; [| split]].
  - unfold sharded_udp_rate_limit. destruct (decide _) as [H0 |]; [lia |].
    fold s. cbv zeta. fold (shard_of h l).
    destruct (decide (s = nth (shard_of h l) (window_secs l) 0)) as [Hw | Hw];
      cbn [counts window_secs]; rewrite ?nth_insert_same by done;
      rewrite ?list_insert_insert_eq; rewrite u64_small by lia.
    + replace (nth (shard_of h l) (counts l) 0 + 1) with (bumped h s l)
        by (unfold bumped; by rewrite decide_True).
      assert (Hwl : <[shard_of h l := s]> (window_secs l) = window_secs l)
        by (rewrite Hw; apply insert_nth_id; lia).
      rewrite Hwl, total_exact by (done || lia). by rewrite Z.add_0_l.
    + replace (0 + 1) with (bumped h s l) by (unfold bumped; by rewrite decide_False).
      rewrite total_exact by (done || lia). by rewrite Z.add_0_l.
  - split; cbn [counts window_secs]; [by rewrite !length_insert | done].
  - done.
  - cbn [counts]. intros Hnil. apply (f_equal length) in Hnil.
    rewrite length_insert in Hnil. cbn in Hnil. lia.
Qed.

Lemma counted_step h s l :
  limiter_wf l -> counts l <> [] ->
  counted s (mkUdpRateLimiterShard (<[shard_of h l := bumped h s l]> (counts l))
              (<[shard_of h l := s]> (window_secs l))) = counted s l + 1.
Proof.
  intros [Hlen Hpos] Hne. unfold counted. cbn [counts window_secs].
  assert (Hn : (0 < length (counts l))%nat) by (destruct (counts l); [done | cbn; lia]).
  pose proof (shard_index h _ Hn) as Hidx. fold (shard_of h l) in Hidx.
  rewrite <- insert_zip_with, sum_insert by (rewrite length_zip_with; lia).
  rewrite (nth_zip_with _ _ _ _ 0 0) by lia.
  rewrite (decide_True (P := s = s)) by done. unfold bumped.
  destruct (decide _); lia.
Qed.

Lemma counted_le_sum s l : limiter_wf l -> 0 <= counted s l <= sum (counts l).
Proof.
  intros [Hlen Hpos]. unfold counted. destruct l as [cs ws]. cbn [counts window_secs] in *.
  revert ws Hlen. induction Hpos as [| c cs Hc Hcs IH]; intros [| w ws] Hlen; cbn in *; try lia.
  specialize (IH ws ltac:(lia)). destruct (decide _); lia.
Qed.

Fixpoint accepted (oks : list bool) : Z :=
  match oks with
  | [] => 0
  | ok :: oks' => (if ok then 1 else 0) + accepted oks'
  end.

(** Within one second the number of packets already counted bounds what can
    still be accepted. *)
Lemma run_limiter_second limit s ps l :
  limiter_wf l -> counts l <> [] -> sum (counts l) + len ps < 2 ^ 64 ->
  Forall (fun p => Z.quot (snd p) 1000000000 = s) ps ->
  accepted (fst (run_limiter limit ps l)) <= Z.max 0 (limit - counted s l).
Proof.
  intros Hwf Hne Hb Hps. revert l Hwf Hne Hb.
  induction Hps as [| [h t] ps Hs Hps IH]; intros l Hwf Hne Hb; cbn [run_limiter]; [cbn; lia |].
  cbn [snd] in Hs. rewrite len_cons in Hb. pose proof (len_nonneg ps).
  destruct (limiter_step h t limit l Hwf Hne ltac:(lia)) as (-> & Hwf' & Hsum & Hne').
  rewrite Hs in *.
  pose proof (counted_step h s l Hwf Hne) as Hc.
  set (l' := mkUdpRateLimiterShard _ _) in *.
  specialize (IH l' Hwf' Hne' ltac:(lia)).
  pose proof (counted_le_sum s l' Hwf').
  destruct (run_limiter limit ps l') as [oks l'']. cbn [fst accepted] in *.
  destruct (Z.leb_spec (sum (counts l')) limit); lia.
Qed.

Lemma two_le_sum l i j :
  Forall (fun c => 0 <= c) l -> i <> j -> nth i l 0 + nth j l 0 <= sum l.
Proof.
  intros H. revert i j. induction H as [| a l Ha Hl IH]; intros [| i] [| j] Hij; cbn; try done.
  - pose proof (nth_le_sum l j Hl). lia.
  - pose proof (nth_le_sum l i Hl). lia.
  - specialize (IH i j ltac:(congruence)). lia.
Qed.

(** ** Malformed packets: lemmas *)

(** Malformed packets from one endpoint at the given times. *)
Definition register_all (e : endpoint) (ts : list Z) (m : gmap string BadUdpInfo) :
    gmap string BadUdpInfo :=
  foldl (fun m t => register_bad_udp_packet e t m) m ts.

Lemma register_all_within e ts first n m :
  m !! endpoint_key e = Some (mkBadUdpInfo n first) ->
  Forall (fun t => t - first <= block_time_) ts ->
  register_all e ts m !! endpoint_key e = Some (mkBadUdpInfo (n + len ts) first).
Proof.
  intros Hm Hts. revert n m Hm. induction Hts as [| t ts Ht Hts IH]; intros n m Hm.
  - cbn. by rewrite Z.add_0_r.
  - unfold register_all. cbn [foldl]. rewrite len_cons.
    replace (n + (1 + len ts)) with (n + 1 + len ts) by lia. apply IH.
    unfold register_bad_udp_packet. rewrite Hm. cbn [first_fail_time fail_count].
    rewrite (proj2 (Z.ltb_ge _ _)) by lia. apply lookup_insert_eq.
Qed.

(** ** Properties *)

(** C17. Per-session flood control: whatever the arrival times, a session's
    bucket admits no more packets than it holds plus 60 per second elapsed
    since its last refill, and it never leaves the range 0..120, so a burst
    after any silence is at most 120 packets. *)
Theorem token_bucket_rate ts b :
  bucket_ok b -> ascending (lastUdpTokenRefill_ b) ts ->
  let '(n, b') := run_bucket ts b in
  bucket_ok b' /\
  n * seconds 1 <= udpTokens_ b * seconds 1 +
    refillRatePerSec_ * (end_time (lastUdpTokenRefill_ b) ts - lastUdpTokenRefill_ b).
Proof.
  intros Hb Hts. pose proof (run_bucket_amortised ts b Hb Hts) as H.
  destruct (run_bucket ts b) as [n b']. destruct H as (Hb' & Hl & H).
  split; [done |]. unfold bucket_ok, refillRatePerSec_, seconds in *. lia.
Qed.

Lemma token_bucket_rate_witness :
  let '(n, b') := run_bucket (replicate 130 (seconds 1)) (fresh_bucket 0) in
  bucket_ok b' /\ n * seconds 1 <= 120 * seconds 1 + 60 * seconds 1.
Proof.
  pose proof (token_bucket_rate (replicate 130 (seconds 1)) (fresh_bucket 0)
                (fresh_bucket_ok 0)) as H.
  apply H. vm_compute. repeat (split; [discriminate |]). exact I.
Defined.

(** C18. Server-wide flood control: of the packets that arrive in one second of
    the clock, on whatever threads, at most [limit_per_sec] are admitted,
    whatever the counters held before (each packet's atomic operations taken
    without interleaving). *)
Theorem limiter_per_second limit s ps l :
  limiter_wf l -> counts l <> [] -> sum (counts l) + len ps < 2 ^ 64 ->
  Forall (fun p => Z.quot (snd p) 1000000000 = s) ps ->
  accepted (fst (run_limiter limit ps l)) <= Z.max 0 limit.
Proof.
  intros Hwf Hne Hb Hps. pose proof (run_limiter_second limit s ps l Hwf Hne Hb Hps).
  pose proof (counted_le_sum s l Hwf). lia.
Qed.

Lemma limiter_per_second_witness :
  accepted (fst (run_limiter 3 [(5, seconds 7); (6, seconds 7); (5, seconds 7); (5, seconds 7)]
                   (new_limiter 4))) <= Z.max 0 3.
Proof.
  apply (limiter_per_second 3 7).
  - split; [reflexivity |]. repeat constructor; discriminate.
  - discriminate.
  - reflexivity.
  - repeat constructor.
Defined.

(** The counters of a shard are only reset by a packet of a thread that
    hashes to it, yet the total sums all shards: once one shard has counted
    [limit_per_sec] packets, every later packet on the other shards is
    rejected, in every later second, for as long as no thread of that shard
    receives a packet. *)
Theorem stale_shard_starves limit j ps l :
  limiter_wf l -> (j < length (counts l))%nat -> limit <= nth j (counts l) 0 ->
  sum (counts l) + len ps < 2 ^ 64 ->
  Forall (fun p => shard_of (fst p) l <> j) ps ->
  fst (run_limiter limit ps l) = replicate (length ps) false.
Proof.
  unfold shard_of. remember (length (counts l)) as n eqn:Hn.
  intros Hwf Hj Hlim Hb Hps. revert l Hn Hwf Hlim Hb.
  induction Hps as [| [h t] ps Hp Hps IH]; intros l Hn Hwf Hlim Hb; [done |].
  rewrite len_cons in Hb. pose proof (len_nonneg ps).
  assert (Hne : counts l <> []) by (intros Hnil; rewrite Hnil in Hn; cbn in Hn; lia).
  cbn [run_limiter length replicate fst] in *.
  destruct (limiter_step h t limit l Hwf Hne ltac:(lia)) as (-> & Hwf' & Hsum & Hne').
  set (l' := mkUdpRateLimiterShard _ _) in *.
  assert (Hij : shard_of h l <> j) by (unfold shard_of; by rewrite <- Hn).
  assert (Hnth : nth j (counts l') 0 = nth j (counts l) 0) by (by apply nth_insert_other).
  assert (Hown : 1 <= nth (shard_of h l) (counts l') 0).
  { unfold l'. cbn [counts]. rewrite nth_insert_same by (apply shard_index; lia).
    destruct Hwf as [_ Hpos]. pose proof (nth_nonneg (counts l) (shard_of h l) Hpos).
    unfold bumped. destruct (decide _); lia. }
  pose proof (two_le_sum (counts l') _ _ (proj2 Hwf') Hij) as Htwo.
  rewrite (proj2 (Z.leb_gt _ _)) by lia.
  specialize (IH l'). destruct (run_limiter limit ps l') as [oks l'']. cbn [fst] in *.
  f_equal. apply IH; [unfold l'; cbn [counts]; by rewrite length_insert | done | lia | lia].
Qed.

Lemma stale_shard_starves_witness :
  fst (run_limiter 2 [(1, seconds 100); (1, seconds 200); (1, seconds 300)]
         (snd (run_limiter 2 [(0, seconds 1); (0, seconds 1)] (new_limiter 2)))) =
  [false; false; false].
Proof.
  apply (stale_shard_starves 2 0 [(1, seconds 100); (1, seconds 200); (1, seconds 300)]
           (snd (run_limiter 2 [(0, seconds 1); (0, seconds 1)] (new_limiter 2)))).
  - split; [reflexivity |]. vm_compute. repeat constructor; discriminate.
  - vm_compute. lia.
  - vm_compute. discriminate.
  - reflexivity.
  - repeat constructor; vm_compute; discriminate.
Defined.

(** The malformed-packet table: after the first malformed packet of an
    endpoint at [t0] and [ts] more within the 60 s window, the endpoint is
    reported blocked exactly from the tenth one on while the window lasts, and
    past the window the record is dropped and it is not blocked. *)
Theorem bad_udp_window e t0 ts now m :
  m !! endpoint_key e = None ->
  Forall (fun t => t - t0 <= block_time_) ts ->
  let m' := register_all e (t0 :: ts) m in
  (now - t0 <= block_time_ ->
   is_blocked_udp e now m' = (bad_udp_limit_ <=? 1 + len ts, m')) /\
  (block_time_ < now - t0 ->
   is_blocked_udp e now m' = (false, delete (endpoint_key e) m')).
Proof.
  intros Hm Hts. cbv zeta. set (m' := register_all e (t0 :: ts) m).
  assert (Hm' : m' !! endpoint_key e = Some (mkBadUdpInfo (1 + len ts) t0)).
  { unfold m', register_all. cbn [foldl].
    apply (register_all_within e ts t0 1); [| done].
    unfold register_bad_udp_packet. rewrite Hm. apply lookup_insert_eq. }
  unfold is_blocked_udp. rewrite Hm'. cbn [first_fail_time fail_count].
  split; intros Hn; destruct (Z.ltb_spec block_time_ (now - t0)); (done || lia).
Qed.

Lemma bad_udp_window_witness :
  let e := mkEndpoint "10.0.0.1" 4000 in
  fst (is_blocked_udp e (seconds 59) (register_all e (0 :: replicate 9 (seconds 1)) ∅)) = true.
Proof.
  cbv zeta.
  rewrite (proj1 (bad_udp_window (mkEndpoint "10.0.0.1" 4000) 0 (replicate 9 (seconds 1))
                    (seconds 59) ∅ (lookup_empty _) ltac:(repeat constructor; vm_compute; discriminate))).
  - reflexivity.
  - vm_compute. discriminate.
Defined.
