(* ===== verification/Json.v ===== *)
(** * JSON values and the platform services

    The values of [nlohmann::json] and the members of it the program calls:
    [value(key, default)], [operator[]] on objects, iteration over a payload.
    Parsing and printing are parameters of the program's part of the
    development ([Platform]), which [JsonPlatform.nlohmann] instantiates with the
    library's own. *)
From Stdlib Require Import ZArith Lia Floats.SpecFloat.
From stdpp Require Import base list strings pretty.
From S2P Require Import Prelude RateLimit.

Open Scope Z_scope.

(** [JInt] is both [number_integer] and [number_unsigned]: the program never asks
    which, and the two are printed and converted alike.  No value of the program
    is [binary] or [discarded]. *)
#[local] Unset Elimination Schemes.
Inductive json :=
| JNull
| JBool (b : bool)
| JInt (z : Z)
| JFloat (f : spec_float)
| JStr (s : string)
| JArr (l : list json)
| JObj (o : list (string * json)).   (** sorted by key, as [std::map] *)
#[local] Set Elimination Schemes.

Fixpoint obj_get (key : string) (o : list (string * json)) : option json :=
  match o with
  | [] => None
  | (k, v) :: o' => if decide (k = key) then Some v else obj_get key o'
  end.

(** [j[key] = v] on an object: [std::map] keeps the keys ordered. *)
Fixpoint obj_set (key : string) (v : json) (o : list (string * json)) : list (string * json) :=
  match o with
  | [] => [(key, v)]
  | (k, w) :: o' =>
      match String.compare key k with
      | Lt => (key, v) :: o
      | Eq => (key, v) :: o'
      | Gt => (k, w) :: obj_set key v o'
      end
  end.

(** [emplace]: the value of a key that is there stays. *)
Definition obj_emplace (key : string) (v : json) (o : list (string * json)) : list (string * json) :=
  match obj_get key o with Some _ => o | None => obj_set key v o end.

(** A braced initialiser of pairs. *)
Definition obj (kvs : list (string * json)) : json :=
  JObj (foldl (fun o kv => obj_emplace (fst kv) (snd kv) o) [] kvs).

(** [j.value(key, "default")]: a non-object throws, a missing key gives the
    default, a value of another type throws. *)
Definition value_str (j : json) (key default : string) : res string :=
  match j with
  | JObj o =>
      match obj_get key o with
      | None => Ret default
      | Some (JStr s) => Ret s
      | Some _ => Exn TypeError
      end
  | _ => Exn TypeError
  end.

(** [j.value(key, int)]: any arithmetic value converts, an integer modulo 2^32
    and a double as [int_of_double] says, also where C++ leaves it undefined. *)
Definition value_int (j : json) (key : string) (default : Z) : res Z :=
  match j with
  | JObj o =>
      match obj_get key o with
      | None => Ret default
      | Some (JInt z) => Ret (i32 z)
      | Some (JBool b) => Ret (if b then 1 else 0)
      | Some (JFloat f) => Ret (int_of_double f)
      | Some _ => Exn TypeError
      end
  | _ => Exn TypeError
  end.

(** A C++ raw string literal, written with apostrophes for its quotation
    marks. *)
Fixpoint raw (s : string) : string :=
  match s with
  | EmptyString => EmptyString
  | String c s' =>
      String (if Ascii.eqb c (Ascii.ascii_of_nat 39) then Ascii.ascii_of_nat 34 else c) (raw s')
  end.

Definition newline : string := String (Ascii.ascii_of_nat 10) EmptyString.

(** What [nlohmann::json::parse] throws: a syntax error, or a number that has
    no finite value. *)
Inductive json_exception := parse_error | out_of_range.

#[export] Instance json_exception_eq_dec : EqDecision json_exception.
Proof. solve_decision. Defined.

Definition exn_of (e : json_exception) : exn :=
  match e with parse_error => ParseError | out_of_range => StdError end.

(** What the handlers take from outside: printing and parsing JSON, and the outcomes
    of the [std::uniform_int_distribution] over 0..15 seeded by the [n]-th
    [std::random_device]. *)
Class Platform := {
  dump : json -> string;
  parse : string -> json_exception + json;
  draw : nat -> nat -> Z
}.

(** [try_parse_json] catches whatever [parse] throws. *)
Definition try_parse_json `{Platform} (msg : string) : option json :=
  match parse msg with inl _ => None | inr j => Some j end.

(** ** Objects *)

Lemma string_compare_refl s : String.compare s s = Eq.
Proof.
  pose proof (String.compare_antisym s s) as H.
  by destruct (String.compare s s).
Qed.

Lemma obj_get_set_same key v o : obj_get key (obj_set key v o) = Some v.
Proof.
  induction o as [| [k w] o IH]; cbn; [by rewrite decide_True |].
  destruct (String.compare key k) eqn:E; cbn.
  - by rewrite decide_True.
  - by rewrite decide_True.
  - destruct (decide (k = key)) as [-> |]; [| done].
    by rewrite string_compare_refl in E.
Qed.

Lemma obj_get_set_other key key' v o :
  key <> key' -> obj_get key' (obj_set key v o) = obj_get key' o.
Proof.
  intros Hne. induction o as [| [k w] o IH]; cbn; [by rewrite decide_False |].
  destruct (String.compare key k) eqn:E; cbn.
  - apply String.compare_eq_iff in E as <-. by rewrite !decide_False.
  - by rewrite decide_False.
  - destruct (decide (k = key')); [done |]. apply IH.
Qed.
