(* ===== verification/JsonString.v ===== *)
(** * json.hpp: string literals

    Reading a string literal ([lexer::scan_string]) and writing one
    ([serializer::dump_escaped] with its UTF-8 automaton [decode]), and that
    every text the lexer produces is well-formed UTF-8 and is read back from
    what the serializer writes. *)
From Stdlib Require Import ZArith Lia Ascii.
From stdpp Require Import base list strings.
From S2P Require Import Prelude.

Open Scope Z_scope.

(** ** Bytes *)

Definition code (c : ascii) : Z := Z.of_N (Ascii.N_of_ascii c).
Definition chr (n : Z) : ascii := Ascii.ascii_of_N (Z.to_N n).

Definition in_range (lo hi : Z) (c : ascii) : bool := (lo <=? code c) && (code c <=? hi).

Fixpoint bytes_below (n : nat) : list ascii :=
  match n with O => [] | S k => bytes_below k ++ [chr (Z.of_nat k)] end.

Lemma code_range c : 0 <= code c < 256.
Proof.
  unfold code. pose proof (Ascii.N_ascii_bounded c). lia.
Qed.

Lemma chr_code c : chr (code c) = c.
Proof. unfold chr, code. by rewrite N2Z.id, Ascii.ascii_N_embedding. Qed.

Lemma code_chr n : 0 <= n < 256 -> code (chr n) = n.
Proof. intros Hn. unfold code, chr. rewrite Ascii.N_ascii_embedding by lia. lia. Qed.

Lemma code_inj c d : code c = code d -> c = d.
Proof. intros H. by rewrite <- (chr_code c), H, chr_code. Qed.

Lemma in_range_iff lo hi c : in_range lo hi c = true <-> lo <= code c <= hi.
Proof. unfold in_range. rewrite andb_true_iff, !Z.leb_le. lia. Qed.

(** A boolean fact of all bytes is checked on the 256 of them. *)
Lemma all_bytes_below n c : (code c < Z.of_nat n) -> c ∈ bytes_below n.
Proof.
  induction n as [| n IH]; intros Hc; [pose proof (code_range c); lia |]. cbn [bytes_below].
  apply elem_of_app. destruct (decide (code c = Z.of_nat n)) as [<- | Hne].
  - right. rewrite chr_code. by left.
  - left. apply IH. lia.
Qed.

Lemma all_bytes (P : ascii -> bool) :
  forallb P (bytes_below 256) = true -> forall c, P c = true.
Proof.
  intros HP c. rewrite forallb_forall in HP. apply HP, list_elem_of_In, all_bytes_below.
  pose proof (code_range c). lia.
Qed.

(** ** Reading: [lexer::scan_string] *)

(** [get_codepoint]: the value of four hexadecimal digits, or -1. *)
Definition hex_digit (c : ascii) : option Z :=
  if in_range 0x30 0x39 c then Some (code c - 0x30)
  else if in_range 0x41 0x46 c then Some (code c - 0x37)
  else if in_range 0x61 0x66 c then Some (code c - 0x57)
  else None.

Definition get_codepoint (c1 c2 c3 c4 : ascii) : Z :=
  match hex_digit c1, hex_digit c2, hex_digit c3, hex_digit c4 with
  | Some d1, Some d2, Some d3, Some d4 =>
      Z.shiftl d1 12 + Z.shiftl d2 8 + Z.shiftl d3 4 + Z.shiftl d4 0
  | _, _, _, _ => -1
  end.

(** The bytes of a code point. *)
Definition utf8_bytes (cp : Z) : list Z :=
  if cp <? 0x80 then [cp]
  else if cp <=? 0x7FF then
    [Z.lor 0xC0 (Z.shiftr cp 6); Z.lor 0x80 (Z.land cp 0x3F)]
  else if cp <=? 0xFFFF then
    [Z.lor 0xE0 (Z.shiftr cp 12); Z.lor 0x80 (Z.land (Z.shiftr cp 6) 0x3F);
     Z.lor 0x80 (Z.land cp 0x3F)]
  else
    [Z.lor 0xF0 (Z.shiftr cp 18); Z.lor 0x80 (Z.land (Z.shiftr cp 12) 0x3F);
     Z.lor 0x80 (Z.land (Z.shiftr cp 6) 0x3F); Z.lor 0x80 (Z.land cp 0x3F)].

(** [add]: the bytes go to the token buffer. *)
Definition add (bytes : list ascii) (r : option (string * string)) : option (string * string) :=
  match r with
  | Some (s, rest) => Some (foldr String s bytes, rest)
  | None => None
  end.

Definition add_codepoint (cp : Z) := add (map chr (utf8_bytes cp)).

Definition is_high_surrogate (cp : Z) : bool := (0xD800 <=? cp) && (cp <=? 0xDBFF).
Definition is_low_surrogate (cp : Z) : bool := (0xDC00 <=? cp) && (cp <=? 0xDFFF).

(** The code point of a pair of surrogates, in 32 bits. *)
Definition surrogate_pair (cp1 cp2 : Z) : Z := u32 (Z.shiftl cp1 10 + cp2 - 0x35FDC00).

(** The one-character escapes. *)
Definition simple_escape (c : ascii) : option ascii :=
  if code c =? 34 then Some (chr 34)
  else if code c =? 92 then Some (chr 92)
  else if code c =? 47 then Some (chr 47)
  else if code c =? 98 then Some (chr 8)
  else if code c =? 102 then Some (chr 12)
  else if code c =? 110 then Some (chr 10)
  else if code c =? 114 then Some (chr 13)
  else if code c =? 116 then Some (chr 9)
  else None.

(** The ranges [next_byte_in_range] is called with after a lead byte. *)
Definition continuation (c : ascii) : option (list (Z * Z)) :=
  if in_range 0xC2 0xDF c then Some [(0x80, 0xBF)]
  else if in_range 0xE0 0xE0 c then Some [(0xA0, 0xBF); (0x80, 0xBF)]
  else if in_range 0xE1 0xEC c || in_range 0xEE 0xEF c then Some [(0x80, 0xBF); (0x80, 0xBF)]
  else if in_range 0xED 0xED c then Some [(0x80, 0x9F); (0x80, 0xBF)]
  else if in_range 0xF0 0xF0 c then Some [(0x90, 0xBF); (0x80, 0xBF); (0x80, 0xBF)]
  else if in_range 0xF1 0xF3 c then Some [(0x80, 0xBF); (0x80, 0xBF); (0x80, 0xBF)]
  else if in_range 0xF4 0xF4 c then Some [(0x80, 0x8F); (0x80, 0xBF); (0x80, 0xBF)]
  else None.

Definition in_pair (r : Z * Z) (c : ascii) : bool := in_range (fst r) (snd r) c.

(** The text after the opening quote, up to the closing one, and what follows;
    [None] is [token_type::parse_error]. *)
Fixpoint scan_string (s : string) : option (string * string) :=
  match s with
  | EmptyString => None
  | String c s1 =>
      if code c =? 34 then Some (EmptyString, s1)
      else if code c =? 92 then
        match s1 with
        | EmptyString => None
        | String e s2 =>
            match simple_escape e with
            | Some b => add [b] (scan_string s2)
            | None =>
                if code e =? 117 then
                  match s2 with
                  | String h1 (String h2 (String h3 (String h4 s3))) =>
                      let codepoint1 := get_codepoint h1 h2 h3 h4 in
                      if codepoint1 =? -1 then None
                      else if is_high_surrogate codepoint1 then
                        match s3 with
                        | String b (String u (String k1 (String k2 (String k3 (String k4 s4))))) =>
                            let codepoint2 := get_codepoint k1 k2 k3 k4 in
                            if (code b =? 92) && (code u =? 117) && is_low_surrogate codepoint2
                            then add_codepoint (surrogate_pair codepoint1 codepoint2) (scan_string s4)
                            else None
                        | _ => None
                        end
                      else if is_low_surrogate codepoint1 then None
                      else add_codepoint codepoint1 (scan_string s3)
                  | _ => None
                  end
                else None
            end
        end
      else if code c <=? 0x1F then None
      else if code c <=? 0x7F then add [c] (scan_string s1)
      else
        match continuation c with
        | Some [r1] =>
            match s1 with
            | String c1 s2 => if in_pair r1 c1 then add [c; c1] (scan_string s2) else None
            | _ => None
            end
        | Some [r1; r2] =>
            match s1 with
            | String c1 (String c2 s3) =>
                if in_pair r1 c1 && in_pair r2 c2 then add [c; c1; c2] (scan_string s3) else None
            | _ => None
            end
        | Some [r1; r2; r3] =>
            match s1 with
            | String c1 (String c2 (String c3 s4)) =>
                if in_pair r1 c1 && in_pair r2 c2 && in_pair r3 c3
                then add [c; c1; c2; c3] (scan_string s4) else None
            | _ => None
            end
        | _ => None
        end
  end.

(** ** Writing: [serializer::dump_escaped]

    As [dump()] calls it: [ensure_ascii] is false and the error handler is
    strict.  The output buffer is the text written so far. *)

Definition UTF8_ACCEPT : Z := 0.
Definition UTF8_REJECT : Z := 1.

(** The types of the 256 bytes, then the transitions of the nine states. *)
Definition utf8d : list Z :=
  replicate 128 0 ++ replicate 16 1 ++ replicate 16 9 ++ replicate 32 7 ++
  [8; 8] ++ replicate 30 2 ++
  [0xA; 3; 3; 3; 3; 3; 3; 3; 3; 3; 3; 3; 3; 4; 3; 3] ++
  [0xB; 6; 6; 6; 5; 8; 8; 8; 8; 8; 8; 8; 8; 8; 8; 8] ++
  [0; 1; 2; 3; 5; 8; 7; 1; 1; 1; 4; 6; 1; 1; 1; 1] ++
  [1; 1; 1; 1; 1; 1; 1; 1; 1; 1; 1; 1; 1; 1; 1; 1;  1; 0; 1; 1; 1; 1; 1; 0; 1; 0; 1; 1; 1; 1; 1; 1] ++
  [1; 2; 1; 1; 1; 1; 1; 2; 1; 2; 1; 1; 1; 1; 1; 1;  1; 1; 1; 1; 1; 1; 1; 2; 1; 1; 1; 1; 1; 1; 1; 1] ++
  [1; 2; 1; 1; 1; 1; 1; 1; 1; 2; 1; 1; 1; 1; 1; 1;  1; 1; 1; 1; 1; 1; 1; 3; 1; 3; 1; 1; 1; 1; 1; 1] ++
  [1; 3; 1; 1; 1; 1; 1; 3; 1; 3; 1; 1; 1; 1; 1; 1;  1; 3; 1; 1; 1; 1; 1; 1; 1; 1; 1; 1; 1; 1; 1; 1].

Definition utf8d_at (i : Z) : Z := nth (Z.to_nat i) utf8d UTF8_REJECT.

(** [decode]: the next state and the code point so far. *)
Definition decode (state codep : Z) (byte : ascii) : Z * Z :=
  let type := utf8d_at (code byte) in
  (utf8d_at (256 + state * 16 + type),
   if state =? UTF8_ACCEPT then Z.land (Z.shiftr 0xFF type) (code byte)
   else Z.lor (Z.land (code byte) 0x3F) (u32 (Z.shiftl codep 6))).

Definition backslash (c : ascii) (s : string) : string := String (chr 92) (String c s).

(** ["%04x"] of a code point below 256. *)
Definition hex_char (d : Z) : ascii := if d <? 10 then chr (0x30 + d) else chr (0x57 + d).
Definition hex4 (n : Z) (s : string) : string :=
  String (hex_char (Z.shiftr n 12)) (String (hex_char (Z.land (Z.shiftr n 8) 15))
    (String (hex_char (Z.land (Z.shiftr n 4) 15)) (String (hex_char (Z.land n 15)) s))).

(** What is written for the last byte of a code point. *)
Definition escape (codepoint : Z) (byte : ascii) (s : string) : string :=
  if codepoint =? 0x08 then backslash (chr 98) s
  else if codepoint =? 0x09 then backslash (chr 116) s
  else if codepoint =? 0x0A then backslash (chr 110) s
  else if codepoint =? 0x0C then backslash (chr 102) s
  else if codepoint =? 0x0D then backslash (chr 114) s
  else if codepoint =? 0x22 then backslash (chr 34) s
  else if codepoint =? 0x5C then backslash (chr 92) s
  else if codepoint <=? 0x1F then backslash (chr 117) (hex4 codepoint s)
  else String byte s.

(** [None] is [type_error.316]: invalid or incomplete UTF-8. *)
Fixpoint escape_loop (state codepoint : Z) (s : string) : option string :=
  match s with
  | EmptyString => if state =? UTF8_ACCEPT then Some EmptyString else None
  | String byte s' =>
      let '(state', codepoint') := decode state codepoint byte in
      if state' =? UTF8_ACCEPT then escape codepoint' byte <$> escape_loop state' codepoint' s'
      else if state' =? UTF8_REJECT then None
      else String byte <$> escape_loop state' codepoint' s'
  end.

Definition dump_escaped (s : string) : option string := escape_loop UTF8_ACCEPT 0 s.

(** ** Well-formed UTF-8 *)

Inductive utf8 : string -> Prop :=
| utf8_nil : utf8 EmptyString
| utf8_one c s : code c < 0x80 -> utf8 s -> utf8 (String c s)
| utf8_two c r1 c1 s :
    continuation c = Some [r1] -> in_pair r1 c1 = true -> utf8 s ->
    utf8 (String c (String c1 s))
| utf8_three c r1 r2 c1 c2 s :
    continuation c = Some [r1; r2] -> in_pair r1 c1 = true -> in_pair r2 c2 = true -> utf8 s ->
    utf8 (String c (String c1 (String c2 s)))
| utf8_four c r1 r2 r3 c1 c2 c3 s :
    continuation c = Some [r1; r2; r3] -> in_pair r1 c1 = true -> in_pair r2 c2 = true ->
    in_pair r3 c3 = true -> utf8 s ->
    utf8 (String c (String c1 (String c2 (String c3 s)))).

(** *** The bytes of a code point are well formed *)

Lemma lor_check (k n : Z) (x : Z) :
  forallb (fun i => Z.lor k (Z.of_nat i) =? k + Z.of_nat i) (seq 0 (Z.to_nat n)) = true ->
  0 <= x < n -> Z.lor k x = k + x.
Proof.
  intros Hf Hx. rewrite forallb_forall in Hf.
  specialize (Hf (Z.to_nat x)). rewrite Z2Nat.id in Hf by lia.
  apply Z.eqb_eq, Hf, List.in_seq. lia.
Qed.

Lemma low6 x : 0 <= Z.land x 0x3F < 64.
Proof. change 0x3F with (Z.ones 6). rewrite Z.land_ones by lia. apply Z.mod_pos_bound. lia. Qed.

Lemma code_tail x : code (chr (Z.lor 0x80 (Z.land x 0x3F))) = 0x80 + Z.land x 0x3F.
Proof.
  pose proof (low6 x). rewrite (lor_check 0x80 64) by (done || lia). apply code_chr. lia.
Qed.

Lemma in_tail x : in_range 0x80 0xBF (chr (Z.lor 0x80 (Z.land x 0x3F))) = true.
Proof. apply in_range_iff. rewrite code_tail. pose proof (low6 x). lia. Qed.

Lemma continuation_codes c d : code c = code d -> continuation c = continuation d.
Proof. by intros ->%code_inj. Qed.

Definition scalar (cp : Z) : Prop := 0 <= cp < 0x110000 /\ is_high_surrogate cp || is_low_surrogate cp = false.

Lemma continuation_of lo hi rs :
  forallb (fun c => implb (in_range lo hi c) (bool_decide (continuation c = Some rs))) (bytes_below 256) = true ->
  forall c, lo <= code c <= hi -> continuation c = Some rs.
Proof.
  intros Hf c Hc. pose proof (all_bytes _ Hf c) as H. cbv beta in H.
  apply in_range_iff in Hc. rewrite Hc in H. by apply bool_decide_eq_true in H.
Qed.

Definition tail_range : Z * Z := (0x80, 0xBF).

Lemma lead_C2 c : 0xC2 <= code c <= 0xDF -> continuation c = Some [tail_range].
Proof. apply continuation_of. vm_compute. reflexivity. Qed.

Lemma lead_E0 c : 0xE0 <= code c <= 0xE0 -> continuation c = Some [(0xA0, 0xBF); tail_range].
Proof. apply continuation_of. vm_compute. reflexivity. Qed.

Lemma lead_E1 c : 0xE1 <= code c <= 0xEC -> continuation c = Some [tail_range; tail_range].
Proof. apply continuation_of. vm_compute. reflexivity. Qed.

Lemma lead_EE c : 0xEE <= code c <= 0xEF -> continuation c = Some [tail_range; tail_range].
Proof. apply continuation_of. vm_compute. reflexivity. Qed.

Lemma lead_ED c : 0xED <= code c <= 0xED -> continuation c = Some [(0x80, 0x9F); tail_range].
Proof. apply continuation_of. vm_compute. reflexivity. Qed.

Lemma lead_F0 c : 0xF0 <= code c <= 0xF0 -> continuation c = Some [(0x90, 0xBF); tail_range; tail_range].
Proof. apply continuation_of. vm_compute. reflexivity. Qed.

Lemma lead_F1 c : 0xF1 <= code c <= 0xF3 -> continuation c = Some [tail_range; tail_range; tail_range].
Proof. apply continuation_of. vm_compute. reflexivity. Qed.

Lemma lead_F4 c : 0xF4 <= code c <= 0xF4 -> continuation c = Some [(0x80, 0x8F); tail_range; tail_range].
Proof. apply continuation_of. vm_compute. reflexivity. Qed.

(** Shifts and masks as division and remainder, for [lia]. *)
Ltac arith :=
  rewrite ?Z.shiftr_div_pow2 in * by lia; change 0x3F with (Z.ones 6) in *;
  rewrite ?Z.land_ones in * by lia; cbn [Z.pow Z.pow_pos Pos.iter Z.mul Pos.mul] in *;
  Z.div_mod_to_equations; lia.

Lemma utf8_codepoint cp s :
  scalar cp -> utf8 s -> utf8 (foldr String s (map chr (utf8_bytes cp))).
Proof.
  intros [Hcp Hsur] Hs. unfold utf8_bytes.
  apply orb_false_iff in Hsur as [Hhi Hlo]. unfold is_high_surrogate, is_low_surrogate in *.
  destruct (Z.ltb_spec cp 0x80); [cbn; apply utf8_one; [rewrite code_chr; lia | done] |].
  destruct (Z.leb_spec cp 0x7FF); [| destruct (Z.leb_spec cp 0xFFFF)]; cbn [map foldr].
  - assert (Hc : code (chr (Z.lor 0xC0 (Z.shiftr cp 6))) = 0xC0 + Z.shiftr cp 6).
    { rewrite (lor_check 0xC0 32); [apply code_chr; arith | vm_compute; reflexivity | arith]. }
    eapply utf8_two; [apply lead_C2; rewrite Hc; arith | | done].
    apply in_tail.
  - assert (Hc : code (chr (Z.lor 0xE0 (Z.shiftr cp 12))) = 0xE0 + Z.shiftr cp 12).
    { rewrite (lor_check 0xE0 16); [apply code_chr; arith | vm_compute; reflexivity | arith]. }
    destruct (decide (Z.shiftr cp 12 = 0)) as [Hz |]; [| destruct (decide (Z.shiftr cp 12 = 13)) as [Hd |]].
    + eapply utf8_three; [apply lead_E0; lia | | apply in_tail | done].
      apply in_range_iff. cbn [fst snd]. rewrite code_tail. arith.
    + eapply utf8_three; [apply lead_ED; lia | | apply in_tail | done].
      apply in_range_iff. cbn [fst snd]. rewrite code_tail. arith.
    + assert (0 <= Z.shiftr cp 12 < 16) by arith.
      destruct (Z.leb_spec (Z.shiftr cp 12) 12).
      * eapply utf8_three; [apply lead_E1; lia | | apply in_tail | done].
        apply in_tail.
      * eapply utf8_three; [apply lead_EE; lia | | apply in_tail | done].
        apply in_tail.
  - assert (Hc : code (chr (Z.lor 0xF0 (Z.shiftr cp 18))) = 0xF0 + Z.shiftr cp 18).
    { rewrite (lor_check 0xF0 8); [apply code_chr; arith | vm_compute; reflexivity | arith]. }
    destruct (decide (Z.shiftr cp 18 = 0)) as [Hz |]; [| destruct (decide (Z.shiftr cp 18 = 4)) as [Hf |]].
    + eapply utf8_four; [apply lead_F0; lia | | apply in_tail.. | done].
      apply in_range_iff. cbn [fst snd]. rewrite code_tail. arith.
    + eapply utf8_four; [apply lead_F4; lia | | apply in_tail.. | done].
      apply in_range_iff. cbn [fst snd]. rewrite code_tail. arith.
    + assert (0 <= Z.shiftr cp 18 < 5) by arith.
      eapply utf8_four; [apply lead_F1; lia | apply in_tail.. | done].
Qed.

(** *** The scanner yields well-formed UTF-8 *)

Lemma hex_digit_range c d : hex_digit c = Some d -> 0 <= d < 16.
Proof.
  unfold hex_digit. intros H.
  destruct (in_range 0x30 0x39 c) eqn:E1; [apply in_range_iff in E1; injection H as <-; lia |].
  destruct (in_range 0x41 0x46 c) eqn:E2; [apply in_range_iff in E2; injection H as <-; lia |].
  destruct (in_range 0x61 0x66 c) eqn:E3; [apply in_range_iff in E3; injection H as <-; lia | done].
Qed.

Lemma get_codepoint_range c1 c2 c3 c4 :
  get_codepoint c1 c2 c3 c4 = -1 \/ 0 <= get_codepoint c1 c2 c3 c4 <= 0xFFFF.
Proof.
  unfold get_codepoint.
  destruct (hex_digit c1) as [d1 |] eqn:E1, (hex_digit c2) as [d2 |] eqn:E2,
    (hex_digit c3) as [d3 |] eqn:E3, (hex_digit c4) as [d4 |] eqn:E4; try by left.
  apply hex_digit_range in E1, E2, E3, E4. right. rewrite !Z.shiftl_mul_pow2 by lia. lia.
Qed.

Lemma surrogate_pair_scalar cp1 cp2 :
  is_high_surrogate cp1 = true -> is_low_surrogate cp2 = true -> scalar (surrogate_pair cp1 cp2).
Proof.
  unfold is_high_surrogate, is_low_surrogate. intros H1 H2.
  apply andb_true_iff in H1 as [A1 A2], H2 as [B1 B2]. rewrite Z.leb_le in *.
  unfold surrogate_pair, u32. rewrite Z.shiftl_mul_pow2 by lia. rewrite Z.mod_small by lia.
  split; [lia |]. unfold is_high_surrogate, is_low_surrogate.
  apply orb_false_iff; split; apply andb_false_iff; [right | right]; apply Z.leb_gt; lia.
Qed.

Lemma simple_escape_ascii c b : simple_escape c = Some b -> code b < 0x80.
Proof.
  unfold simple_escape. intros H.
  repeat (destruct (_ =? _); [injection H as <-; rewrite code_chr; lia |]). done.
Qed.

Lemma add_some bytes r t rest :
  add bytes r = Some (t, rest) -> exists t', r = Some (t', rest) /\ t = foldr String t' bytes.
Proof. destruct r as [[t' rest'] |]; [| done]. intros [= <- <-]. by exists t'. Qed.

(** A string token is well-formed UTF-8, and the scanner moves on. *)
Lemma scan_string_sound s t rest :
  scan_string s = Some (t, rest) -> utf8 t /\ (String.length rest < String.length s)%nat.
Proof.
  remember (String.length s) as n eqn:Hn. revert s t rest Hn.
  induction n as [n IH] using lt_wf_ind. intros s t rest -> Hs.
  assert (Hrec : forall s' bytes, (String.length s' < String.length s)%nat ->
    (forall t', utf8 t' -> utf8 (foldr String t' bytes)) -> add bytes (scan_string s') = Some (t, rest) ->
    utf8 t /\ (String.length rest < String.length s)%nat).
  { intros s' bytes Hlt Hb Ha. apply add_some in Ha as (t' & Hs' & ->).
    destruct (IH _ Hlt s' t' rest eq_refl Hs') as [Hu Hl]. split; [by apply Hb | lia]. }
  destruct s as [| c s1]; [done |]. cbn [scan_string] in Hs. cbn [String.length] in *.
  destruct (Z.eqb_spec (code c) 34); [injection Hs as <- <-; split; [apply utf8_nil | lia] |].
  destruct (Z.eqb_spec (code c) 92).
  { destruct s1 as [| esc s2]; [done |]. cbn [String.length] in *.
    destruct (simple_escape esc) as [b |] eqn:Ee.
    { apply (Hrec s2 [b]); [lia | | done]. intros t' Ht'. apply utf8_one; [by eapply simple_escape_ascii | done]. }
    destruct (code esc =? 117); [| done].
    destruct s2 as [| h1 [| h2 [| h3 [| h4 s3]]]]; try done. cbn [String.length] in *.
    destruct (get_codepoint_range h1 h2 h3 h4) as [Hcp | Hcp]; [by rewrite Hcp in Hs |].
    destruct (Z.eqb_spec (get_codepoint h1 h2 h3 h4) (-1)); [done |].
    destruct (is_high_surrogate _) eqn:Ehi.
    - destruct s3 as [| b [| u [| k1 [| k2 [| k3 [| k4 s4]]]]]]; try done. cbn [String.length] in *.
      destruct (_ && _ && _) eqn:Elo; [| done]. apply andb_true_iff in Elo as [_ Elo].
      eapply (Hrec s4); [lia | | exact Hs]. intros t' Ht'.
      apply utf8_codepoint; [by apply surrogate_pair_scalar | done].
    - destruct (is_low_surrogate _) eqn:Elo; [done |].
      eapply (Hrec s3); [lia | | exact Hs]. intros t' Ht'. apply utf8_codepoint; [| done].
      split; [lia | by rewrite Ehi, Elo]. }
  destruct (code c <=? 0x1F); [done |].
  destruct (Z.leb_spec (code c) 0x7F).
  { apply (Hrec s1 [c]); [lia | | done]. intros t' Ht'. apply utf8_one; [lia | done]. }
  destruct (continuation c) as [[| r1 [| r2 [| r3 [| ]]]] |] eqn:Ec; try done.
  - destruct s1 as [| c1 s2]; [done |]. cbn [String.length] in *.
    destruct (in_pair r1 c1) eqn:E1; [| done].
    apply (Hrec s2 [c; c1]); [lia | | done]. intros t' Ht'. by eapply utf8_two.
  - destruct s1 as [| c1 [| c2 s3]]; try done. cbn [String.length] in *.
    destruct (_ && _) eqn:E1; [| done]. apply andb_true_iff in E1 as [E1 E2].
    apply (Hrec s3 [c; c1; c2]); [lia | | done]. intros t' Ht'. by eapply utf8_three.
  - destruct s1 as [| c1 [| c2 [| c3 s4]]]; try done. cbn [String.length] in *.
    destruct (_ && _ && _) eqn:E1; [| done]. apply andb_true_iff in E1 as [E1 E3].
    apply andb_true_iff in E1 as [E1 E2].
    apply (Hrec s4 [c; c1; c2; c3]); [lia | | done]. intros t' Ht'. by eapply utf8_four.
Qed.

(** ** The automaton accepts well-formed UTF-8 *)

(** The state between the bytes of a code point and the bounds of what has been
    decoded, by the ranges of the bytes still to come. *)
Definition expectation (rs : list (Z * Z)) : option (Z * Z * Z) :=
  if decide (rs = []) then Some (UTF8_ACCEPT, 0x80, 2 ^ 32)
  else if decide (rs = [tail_range]) then Some (2, 2, 2 ^ 20)
  else if decide (rs = [tail_range; tail_range]) then Some (3, 1, 2 ^ 14)
  else if decide (rs = [(0xA0, 0xBF); tail_range]) then Some (4, 0, 2 ^ 14)
  else if decide (rs = [(0x80, 0x9F); tail_range]) then Some (5, 1, 2 ^ 14)
  else if decide (rs = [(0x90, 0xBF); tail_range; tail_range]) then Some (6, 0, 2 ^ 8)
  else if decide (rs = [tail_range; tail_range; tail_range]) then Some (7, 1, 2 ^ 8)
  else if decide (rs = [(0x80, 0x8F); tail_range; tail_range]) then Some (8, 1, 2 ^ 8)
  else None.

Definition awaits (rs : list (Z * Z)) (d : Z * Z) : bool :=
  match expectation rs with
  | Some (state, lo, hi) => (fst d =? state) && (lo <=? snd d) && (snd d <? hi)
  | None => false
  end.

Lemma decode_lead c cp rs : continuation c = Some rs -> awaits rs (decode UTF8_ACCEPT cp c) = true.
Proof.
  intros Hc. change (decode UTF8_ACCEPT cp c) with (decode UTF8_ACCEPT 0 c).
  pose proof (all_bytes (fun c => match continuation c with
    | Some rs => awaits rs (decode UTF8_ACCEPT 0 c) | None => true end)
    ltac:(vm_compute; reflexivity) c) as H. cbv beta in H. by rewrite Hc in H.
Qed.

Lemma lor_shiftl x y : 0 <= y -> Z.lor (Z.land x 0x3F) (Z.shiftl y 6) = Z.land x 0x3F + Z.shiftl y 6.
Proof.
  intros Hy. pose proof (Z.add_lor_land (Z.land x 0x3F) (Z.shiftl y 6)) as H.
  enough (Z.land (Z.land x 0x3F) (Z.shiftl y 6) = 0) by lia.
  apply Z.bits_inj'. intros n Hn. rewrite !Z.land_spec, Z.bits_0. change 0x3F with (Z.ones 6).
  destruct (Z.ltb_spec n 6).
  - rewrite (Z.shiftl_spec_low y 6 n), andb_false_r by lia. done.
  - rewrite (Z.ones_spec_high 6 n), andb_false_r by lia. done.
Qed.

Lemma decode_value state cp c :
  state <> UTF8_ACCEPT -> 0 <= cp < 2 ^ 20 -> 0x80 <= code c <= 0xBF ->
  snd (decode state cp c) = cp * 64 + (code c - 0x80).
Proof.
  intros Hst Hcp Hc. unfold decode. cbn [snd]. destruct (Z.eqb_spec state UTF8_ACCEPT); [done |].
  unfold u32. rewrite Z.mod_small by (rewrite Z.shiftl_mul_pow2 by lia; lia).
  rewrite lor_shiftl, Z.shiftl_mul_pow2 by lia. change 0x3F with (Z.ones 6).
  rewrite Z.land_ones by lia. change (2 ^ 6) with 64.
  replace (code c) with ((code c - 0x80) + 2 * 64) at 1 by lia.
  rewrite Z.mod_add, Z.mod_small by lia. lia.
Qed.

Lemma decode_state state state' r :
  forallb (fun c => implb (in_pair r c) (fst (decode state 0 c) =? state')) (bytes_below 256) = true ->
  forall c cp, in_pair r c = true -> fst (decode state cp c) = state'.
Proof.
  intros Hf c cp Hr. pose proof (all_bytes _ Hf c) as H. cbv beta in H. rewrite Hr in H.
  by apply Z.eqb_eq in H.
Qed.

Lemma awaits_intro rs state lo hi d :
  expectation rs = Some (state, lo, hi) -> fst d = state -> lo <= snd d < hi -> awaits rs d = true.
Proof.
  intros He Hs Hb. unfold awaits. rewrite He, Hs, Z.eqb_refl. cbn.
  apply andb_true_iff. rewrite Z.leb_le, Z.ltb_lt. lia.
Qed.

(** One more of the bytes that are awaited. *)
Lemma decode_tail c cp state rs r :
  awaits (r :: rs) (state, cp) = true -> in_pair r c = true -> awaits rs (decode state cp c) = true.
Proof.
  intros Ha Hr. unfold awaits, expectation in Ha.
  destruct (decide (r :: rs = [])); [done |].
  repeat match type of Ha with
  | context [decide (r :: rs = ?l)] => destruct (decide (r :: rs = l)) as [[= -> ->] |]
  end; try done;
    apply andb_true_iff in Ha as [[Hst%Z.eqb_eq Hlo]%andb_true_iff Hhi]; cbn [fst snd] in *; subst state;
    rewrite Z.leb_le, Z.ltb_lt in *; (eapply awaits_intro;
      [reflexivity | refine (decode_state _ _ _ _ c cp Hr); vm_compute; reflexivity |]);
    apply in_range_iff in Hr; cbn [fst snd tail_range] in Hr;
    (rewrite decode_value; [lia | done | lia | lia]).
Qed.

(** ** What is written is read back *)

Lemma awaits_incomplete r rs d :
  awaits (r :: rs) d = true -> (fst d =? UTF8_ACCEPT) = false /\ (fst d =? UTF8_REJECT) = false.
Proof.
  unfold awaits, expectation. intros Ha. destruct (decide (r :: rs = [])); [done |].
  repeat match type of Ha with
  | context [decide (r :: rs = ?l)] => destruct (decide (r :: rs = l)) as [_ |]
  end; try done; apply andb_true_iff in Ha as [[->%Z.eqb_eq _]%andb_true_iff _]; done.
Qed.

Lemma awaits_done d :
  awaits [] d = true -> (fst d =? UTF8_ACCEPT) = true /\ 0x80 <= snd d.
Proof.
  unfold awaits, expectation. rewrite decide_True by done.
  intros [[H1 H2]%andb_true_iff _]%andb_true_iff. rewrite Z.leb_le in H2. done.
Qed.

(** A byte inside a code point is copied; so is the last one. *)
Lemma escape_inside r rs state cp c s :
  awaits (r :: rs) (decode state cp c) = true ->
  escape_loop state cp (String c s) =
    String c <$> escape_loop (fst (decode state cp c)) (snd (decode state cp c)) s.
Proof.
  intros Ha. apply awaits_incomplete in Ha as [H1 H2]. cbn [escape_loop].
  destruct (decode state cp c) as [st' cp']. cbn [fst snd] in *. by rewrite H1, H2.
Qed.

Lemma escape_large cp c s : 0x80 <= cp -> escape cp c s = String c s.
Proof.
  intros Hcp. unfold escape.
  repeat match goal with
  | |- context [cp =? ?k] => destruct (Z.eqb_spec cp k); [lia |]
  | |- context [cp <=? ?k] => destruct (Z.leb_spec cp k); [lia |]
  end. done.
Qed.

Lemma escape_last state cp c s :
  awaits [] (decode state cp c) = true ->
  escape_loop state cp (String c s) = String c <$> escape_loop UTF8_ACCEPT (snd (decode state cp c)) s.
Proof.
  intros Ha. apply awaits_done in Ha as [H1 H2]. cbn [escape_loop].
  destruct (decode state cp c) as [st' cp']. cbn [fst snd] in *. rewrite H1.
  apply Z.eqb_eq in H1 as ->. destruct (escape_loop _ _ s); [| done]. cbn.
  f_equal. by apply escape_large.
Qed.

Lemma escape_ascii cp c s :
  code c < 0x80 ->
  escape_loop UTF8_ACCEPT cp (String c s) = escape (code c) c <$> escape_loop UTF8_ACCEPT (code c) s.
Proof.
  intros Hc. change (escape_loop UTF8_ACCEPT cp (String c s)) with (escape_loop UTF8_ACCEPT 0 (String c s)).
  cbn [escape_loop]. pose proof (all_bytes (fun c => implb (code c <? 0x80)
    ((fst (decode UTF8_ACCEPT 0 c) =? UTF8_ACCEPT) && (snd (decode UTF8_ACCEPT 0 c) =? code c)))
    ltac:(vm_compute; reflexivity) c) as H.
  cbv beta in H. apply Z.ltb_lt in Hc. rewrite Hc in H. apply andb_true_iff in H as [H1 H2].
  destruct (decode UTF8_ACCEPT 0 c) as [st cp']. cbn [fst snd] in *. rewrite H1.
  by apply Z.eqb_eq in H1 as ->, H2 as ->.
Qed.

(** A character of one byte, escaped or not, is read back. *)
Lemma scan_escape c t :
  code c < 0x80 -> scan_string (escape (code c) c t) = add [c] (scan_string t).
Proof.
  destruct c as [[] [] [] [] [] [] [] []]; intros Hc;
    first [reflexivity | exfalso; revert Hc; vm_compute; discriminate].
Qed.

Lemma continuation_high c rs : continuation c = Some rs -> 0x80 <= code c.
Proof.
  intros Hc. pose proof (all_bytes (fun c => match continuation c with Some _ => 0x80 <=? code c | None => true end)
    ltac:(vm_compute; reflexivity) c) as H. cbv beta in H. rewrite Hc in H. by apply Z.leb_le in H.
Qed.

(** The scanner at a lead byte. *)
Lemma scan_lead c rs s :
  continuation c = Some rs ->
  scan_string (String c s) =
    match rs, s with
    | [r1], String c1 s2 => if in_pair r1 c1 then add [c; c1] (scan_string s2) else None
    | [r1; r2], String c1 (String c2 s3) =>
        if in_pair r1 c1 && in_pair r2 c2 then add [c; c1; c2] (scan_string s3) else None
    | [r1; r2; r3], String c1 (String c2 (String c3 s4)) =>
        if in_pair r1 c1 && in_pair r2 c2 && in_pair r3 c3
        then add [c; c1; c2; c3] (scan_string s4) else None
    | _, _ => None
    end.
Proof.
  intros Hc. pose proof (continuation_high c rs Hc). cbn [scan_string].
  repeat match goal with
  | |- context [code c =? ?k] => destruct (Z.eqb_spec (code c) k); [lia |]
  | |- context [code c <=? ?k] => destruct (Z.leb_spec (code c) k); [lia |]
  end.
  rewrite Hc. by repeat case_match.
Qed.

Definition next (d : Z * Z) (c : ascii) : Z * Z := decode (fst d) (snd d) c.

Lemma next_tail r rs d c : awaits (r :: rs) d = true -> in_pair r c = true -> awaits rs (next d c) = true.
Proof. destruct d as [state cp]. apply decode_tail. Qed.

Definition escape_from (d : Z * Z) (s : string) : option string := escape_loop (fst d) (snd d) s.

Lemma escape_from_inside r rs d c s :
  awaits (r :: rs) (next d c) = true ->
  escape_from d (String c s) = String c <$> escape_from (next d c) s.
Proof. apply escape_inside. Qed.

Lemma escape_from_last d c s :
  awaits [] (next d c) = true ->
  escape_from d (String c s) = String c <$> escape_loop UTF8_ACCEPT (snd (next d c)) s.
Proof. apply escape_last. Qed.

(** The bytes of a code point beyond ASCII are copied. *)
Lemma escape_tail rs cs :
  Forall2 (fun r c => in_pair r c = true) rs cs -> forall d s, rs <> [] -> awaits rs d = true ->
  exists cp, escape_from d (foldr String s cs) = (fun t => foldr String t cs) <$> escape_loop UTF8_ACCEPT cp s.
Proof.
  induction 1 as [| r c rs cs Hr Hrs IH]; intros d s Hne Ha; [done |].
  pose proof (next_tail _ _ _ _ Ha Hr) as D. destruct rs as [| r' rs].
  - inversion Hrs; subst. eexists. cbn [foldr]. by rewrite (escape_from_last _ _ _ D).
  - destruct (IH (next d c) s) as [cp Hcp]; [done | done |]. exists cp. cbn [foldr].
    rewrite (escape_from_inside _ _ _ _ _ D), Hcp. by destruct (escape_loop _ _ _).
Qed.

Lemma escape_multi c rs cs cp s :
  continuation c = Some rs -> rs <> [] -> Forall2 (fun r c => in_pair r c = true) rs cs ->
  exists cp', escape_loop UTF8_ACCEPT cp (String c (foldr String s cs)) =
    (fun t => String c (foldr String t cs)) <$> escape_loop UTF8_ACCEPT cp' s.
Proof.
  intros Hc Hne Hrs. pose proof (decode_lead c cp _ Hc) as D.
  change (decode _ _ _) with (next (UTF8_ACCEPT, cp) c) in D.
  destruct (escape_tail rs cs Hrs (next (UTF8_ACCEPT, cp) c) s Hne D) as [cp' Hcp'].
  exists cp'. change (escape_loop UTF8_ACCEPT cp) with (escape_from (UTF8_ACCEPT, cp)).
  destruct rs as [| r rs]; [done |]. rewrite (escape_from_inside _ _ _ _ _ D), Hcp'.
  by destruct (escape_loop _ _ _).
Qed.

Lemma append_cons c s t : String c s +:+ t = String c (s +:+ t).
Proof. done. Qed.

(** Every well-formed text is written, and what is written, closed by a quote,
    is read back as the text. *)
Lemma escape_scan s :
  utf8 s -> forall cp, exists d, escape_loop UTF8_ACCEPT cp s = Some d /\
    forall rest, scan_string (d +:+ String (chr 34) rest) = Some (s, rest).
Proof.
  induction 1 as [| c s Hc _ IH | c r1 c1 s Hc H1 _ IH | c r1 r2 c1 c2 s Hc H1 H2 _ IH
                 | c r1 r2 r3 c1 c2 c3 s Hc H1 H2 H3 _ IH]; intros cp.
  { by exists EmptyString. }
  { destruct (IH (code c)) as (d & Hd & Hs). exists (escape (code c) c d).
    rewrite escape_ascii, Hd by done. split; [done |]. intros rest.
    assert (Happ : escape (code c) c d +:+ String (chr 34) rest = escape (code c) c (d +:+ String (chr 34) rest))
      by (unfold escape, backslash, hex4; by repeat case_match).
    by rewrite Happ, scan_escape, Hs. }
  1: destruct (escape_multi c [r1] [c1] cp s Hc) as [cp' Hcp']; [done | by repeat constructor |].
  2: destruct (escape_multi c [r1; r2] [c1; c2] cp s Hc) as [cp' Hcp']; [done | by repeat constructor |].
  3: destruct (escape_multi c [r1; r2; r3] [c1; c2; c3] cp s Hc) as [cp' Hcp']; [done | by repeat constructor |].
  all: destruct (IH cp') as (d & Hd & Hs); cbn [foldr] in Hcp'; rewrite Hcp', Hd; eexists; (split; [done |]);
    intros rest; rewrite !append_cons, (scan_lead c _ _ Hc), ?H1, ?H2, ?H3, Hs; done.
Qed.

Theorem dump_scan s :
  utf8 s -> exists d, dump_escaped s = Some d /\
    forall rest, scan_string (d +:+ String (chr 34) rest) = Some (s, rest).
Proof. intros Hs. by apply escape_scan. Qed.

(** ** What is not UTF-8 is rejected *)

Lemma decode_reject_lead c cp :
  0x80 <= code c -> continuation c = None -> fst (decode UTF8_ACCEPT cp c) = UTF8_REJECT.
Proof.
  intros Hc Hn. pose proof (all_bytes (fun c => implb (0x80 <=? code c) match continuation c with
    | Some _ => true | None => fst (decode UTF8_ACCEPT 0 c) =? UTF8_REJECT end)
    ltac:(vm_compute; reflexivity) c) as H.
  cbv beta in H. apply Z.leb_le in Hc. rewrite Hc, Hn in H. by apply Z.eqb_eq in H.
Qed.

Lemma decode_reject_tail c cp state rs r :
  awaits (r :: rs) (state, cp) = true -> in_pair r c = false -> fst (decode state cp c) = UTF8_REJECT.
Proof.
  intros Ha Hr. unfold awaits, expectation in Ha.
  destruct (decide (r :: rs = [])); [done |].
  assert (Hrej : forall r state, forallb (fun c => in_pair r c || (fst (decode state 0 c) =? UTF8_REJECT)) (bytes_below 256) = true ->
    in_pair r c = false -> fst (decode state cp c) = UTF8_REJECT).
  { intros r' st Hf Hr'. pose proof (all_bytes _ Hf c) as H. cbv beta in H. rewrite Hr' in H. by apply Z.eqb_eq in H. }
  repeat match type of Ha with
  | context [decide (r :: rs = ?l)] => destruct (decide (r :: rs = l)) as [[= -> ->] |]
  end; try done;
    apply andb_true_iff in Ha as [[Hst%Z.eqb_eq _]%andb_true_iff _]; cbn [fst] in Hst; subst state;
    refine (Hrej _ _ _ Hr); vm_compute; reflexivity.
Qed.

Lemma escape_reject state cp c s :
  fst (decode state cp c) = UTF8_REJECT -> escape_loop state cp (String c s) = None.
Proof. intros H. cbn [escape_loop]. destruct (decode state cp c) as [st cp']. cbn in H. by subst st. Qed.

Lemma escape_tail_inv rs : forall d s t,
  rs <> [] -> awaits rs d = true -> escape_from d s = Some t ->
  exists cs s' cp, s = foldr String s' cs /\ Forall2 (fun r c => in_pair r c = true) rs cs /\
    is_Some (escape_loop UTF8_ACCEPT cp s').
Proof.
  induction rs as [| r rs IH]; intros d s t Hne Ha He; [done |].
  destruct s as [| c s].
  { apply awaits_incomplete in Ha as [H1 _]. unfold escape_from in He. cbn [escape_loop] in He.
    by rewrite H1 in He. }
  destruct (in_pair r c) eqn:Hr.
  2: { destruct d as [st cp]. unfold escape_from in He. cbn [fst snd] in He.
       by rewrite escape_reject in He by (eapply decode_reject_tail; done). }
  pose proof (next_tail _ _ _ _ Ha Hr) as D. destruct rs as [| r' rs].
  - rewrite (escape_from_last _ _ _ D) in He. destruct (escape_loop _ _ s) eqn:E; [| done].
    exists [c], s. eexists. split; [done |]. split; [by repeat constructor | by eexists].
  - rewrite (escape_from_inside _ _ _ _ _ D) in He.
    destruct (escape_from (next d c) s) as [t' |] eqn:E; [| done].
    destruct (IH _ _ _ ltac:(done) D E) as (cs & s' & cp & -> & Hf & Hs).
    exists (c :: cs), s', cp. split; [done |]. split; [by constructor | done].
Qed.

Lemma escape_utf8 s cp d : escape_loop UTF8_ACCEPT cp s = Some d -> utf8 s.
Proof.
  remember (String.length s) as n eqn:Hn. revert s cp d Hn.
  induction n as [n IH] using lt_wf_ind. intros s cp d -> He.
  destruct s as [| c s]; [apply utf8_nil |]. cbn [String.length] in IH.
  destruct (Z.ltb_spec (code c) 0x80).
  { rewrite escape_ascii in He by done. destruct (escape_loop _ _ s) eqn:E; [| done].
    apply utf8_one; [done |]. by apply (IH _ (Nat.lt_succ_diag_r _) s _ _ eq_refl E). }
  destruct (continuation c) as [rs |] eqn:Hc; [| by rewrite escape_reject in He by by apply decode_reject_lead].
  pose proof (decode_lead c cp _ Hc) as D. destruct rs as [| r rs].
  { exfalso. pose proof (all_bytes (fun c => match continuation c with Some [] => false | _ => true end)
      ltac:(vm_compute; reflexivity) c) as Hne. cbv beta in Hne. by rewrite Hc in Hne. }
  change (escape_loop UTF8_ACCEPT cp) with (escape_from (UTF8_ACCEPT, cp)) in He.
  change (decode _ _ _) with (next (UTF8_ACCEPT, cp) c) in D.
  rewrite (escape_from_inside _ _ _ _ _ D) in He.
  destruct (escape_from _ s) as [t |] eqn:E; [| done].
  destruct (escape_tail_inv (r :: rs) _ _ _ ltac:(done) D E) as (cs & s' & cp' & -> & Hf & [t' Ht]).
  assert (Hs' : (String.length s' < S (String.length (foldr String s' cs)))%nat).
  { clear. induction cs; cbn; lia. }
  pose proof (IH _ Hs' s' cp' t' eq_refl Ht) as Hu. clear IH Hs' E He D.
  inversion Hf as [| ? c1 ? cs1 H1 Hf1]; subst. inversion Hf1 as [| ? c2 ? cs2 H2 Hf2]; subst.
  { by eapply utf8_two. }
  inversion Hf2 as [| ? c3 ? cs3 H3 Hf3]; subst; [by eapply utf8_three |].
  inversion Hf3; subst; [by eapply utf8_four |]. exfalso.
  pose proof (all_bytes (fun c => match continuation c with Some (_ :: _ :: _ :: _ :: _) => false | _ => true end)
    ltac:(vm_compute; reflexivity) c) as Hne. cbv beta in Hne. by rewrite Hc in Hne.
Qed.

(** [dump_escaped] throws exactly on ill-formed UTF-8. *)
Lemma dump_escaped_iff s : is_Some (dump_escaped s) <-> utf8 s.
Proof.
  split; [by intros [d Hd]; eapply escape_utf8 |].
  intros Hs. destruct (dump_scan s Hs) as (d & -> & _). by eexists.
Qed.

(** C39. [dump_escaped]: a string is written if and only if it is well-formed
    UTF-8 (otherwise [type_error.316] is thrown), and what is written, closed by
    a quotation mark, is read by [scan_string] as the string. *)
Theorem dump_escaped_exact s :
  match dump_escaped s with
  | Some d => utf8 s /\ forall rest, scan_string (d +:+ String (chr 34) rest) = Some (s, rest)
  | None => ~ utf8 s
  end.
Proof.
  destruct (dump_escaped s) as [d |] eqn:E.
  - assert (Hs : utf8 s) by (apply dump_escaped_iff; by rewrite E). split; [done |].
    destruct (dump_scan s Hs) as (d' & Hd & Hr). by replace d with d' by congruence.
  - rewrite <- dump_escaped_iff, E. by intros [? ?].
Qed.
