(* ===== verification/JsonLexer.v ===== *)
(** * json.hpp: numbers and tokens

    The state machine of [lexer::scan_number], the conversion of its text, and
    the scanner [lexer::scan].
    The value of a floating-point number is left to [std::strtod], a parameter
    ([Strtod]). *)
From Stdlib Require Import ZArith Lia Ascii Floats.SpecFloat.
From stdpp Require Import base list strings.
From S2P Require Import Prelude JsonString.

Open Scope Z_scope.

(** ** Doubles *)

(** The C library's conversion, in the C locale. *)
Class Strtod := strtod : string -> spec_float.

(** [std::isfinite]. *)
Definition isfinite (f : spec_float) : bool :=
  match f with S754_zero _ | S754_finite _ _ _ => true | _ => false end.

(** The finite values of a [double]. *)
Definition is_double (f : spec_float) : Prop := isfinite f = true /\ valid_binary 53 1024 f = true.

(** ** Scanning a number *)

Definition is_digit (c : ascii) : bool := in_range 0x30 0x39 c.

(** The labels of [scan_number]. *)
Inductive num_state :=
| scan_number_minus | scan_number_zero | scan_number_any1 | scan_number_decimal1
| scan_number_decimal2 | scan_number_exponent | scan_number_sign | scan_number_any2.

Inductive num_step := goto (st : num_state) | scan_number_done | scan_number_error.

Inductive number_type := type_unsigned | type_integer | type_float.

(** The state after the first character; other characters do not come here. *)
Definition scan_number_init (c : ascii) : num_step :=
  if code c =? 45 then goto scan_number_minus
  else if code c =? 48 then goto scan_number_zero
  else if is_digit c then goto scan_number_any1
  else scan_number_error.

(** The [switch] of each state on the next character; [None] is the end of the
    input. *)
Definition next_state (st : num_state) (c : option ascii) : num_step :=
  let now k := match c with Some c => code c =? k | None => false end in
  let digit := match c with Some c => is_digit c | None => false end in
  let exponent := now 101 || now 69 in
  match st with
  | scan_number_minus =>
      if now 48 then goto scan_number_zero
      else if digit then goto scan_number_any1 else scan_number_error
  | scan_number_zero =>
      if now 46 then goto scan_number_decimal1
      else if exponent then goto scan_number_exponent else scan_number_done
  | scan_number_any1 =>
      if digit then goto scan_number_any1
      else if now 46 then goto scan_number_decimal1
      else if exponent then goto scan_number_exponent else scan_number_done
  | scan_number_decimal1 =>
      if digit then goto scan_number_decimal2 else scan_number_error
  | scan_number_decimal2 =>
      if digit then goto scan_number_decimal2
      else if exponent then goto scan_number_exponent else scan_number_done
  | scan_number_exponent =>
      if now 43 || now 45 then goto scan_number_sign
      else if digit then goto scan_number_any2 else scan_number_error
  | scan_number_sign =>
      if digit then goto scan_number_any2 else scan_number_error
  | scan_number_any2 =>
      if digit then goto scan_number_any2 else scan_number_done
  end.

(** The assignment to [number_type] at a label. *)
Definition enter (st : num_state) (ty : number_type) : number_type :=
  match st with
  | scan_number_minus => type_integer
  | scan_number_decimal1 | scan_number_exponent => type_float
  | _ => ty
  end.

(** The text of the number, its type and what follows; the character after the
    number is not consumed ([unget]). *)
Fixpoint scan_digits (st : num_state) (ty : number_type) (s : string) :
    option (string * number_type * string) :=
  match s with
  | EmptyString =>
      match next_state st None with
      | scan_number_done => Some (EmptyString, ty, EmptyString)
      | _ => None
      end
  | String c s' =>
      match next_state st (Some c) with
      | goto st' =>
          match scan_digits st' (enter st' ty) s' with
          | Some (text, ty', rest) => Some (String c text, ty', rest)
          | None => None
          end
      | scan_number_done => Some (EmptyString, ty, s)
      | scan_number_error => None
      end
  end.

Definition scan_number_text (s : string) : option (string * number_type * string) :=
  match s with
  | EmptyString => None
  | String c s' =>
      match scan_number_init c with
      | goto st =>
          match scan_digits st (enter st type_unsigned) s' with
          | Some (text, ty, rest) => Some (String c text, ty, rest)
          | None => None
          end
      | _ => None
      end
  end.

(** The value of decimal digits, as [strtoull] computes it. *)
Fixpoint digits_value (acc : Z) (s : string) : Z :=
  match s with
  | EmptyString => acc
  | String c s' => digits_value (acc * 10 + (code c - 48)) s'
  end.

(** ** Tokens *)

Module token_type.
Inductive t :=
| literal_true | literal_false | literal_null
| value_string (s : string)
| value_unsigned (z : Z)
| value_integer (z : Z)
| value_float (f : spec_float)
| begin_array | begin_object | end_array | end_object | name_separator | value_separator
| parse_error
| end_of_input.
End token_type.

Section lexer.
Context `{Strtod}.

(** [scan_number_done]: integers first; one that does not fit in 64 bits
    becomes a double. *)
Definition number_token (text : string) (ty : number_type) : token_type.t :=
  match ty with
  | type_unsigned =>
      let x := digits_value 0 text in
      if x <? 2 ^ 64 then token_type.value_unsigned x else token_type.value_float (strtod text)
  | type_integer =>
      let x := match text with String _ digits => - digits_value 0 digits | EmptyString => 0 end in
      if - 2 ^ 63 <=? x then token_type.value_integer x else token_type.value_float (strtod text)
  | type_float => token_type.value_float (strtod text)
  end.

Definition scan_number (s : string) : token_type.t * string :=
  match scan_number_text s with
  | Some (text, ty, rest) => (number_token text ty, rest)
  | None => (token_type.parse_error, EmptyString)
  end.

Fixpoint strip_prefix (p s : string) : option string :=
  match p, s with
  | EmptyString, _ => Some s
  | String c p', String d s' => if decide (c = d) then strip_prefix p' s' else None
  | String _ _, EmptyString => None
  end.

(** The characters after the first one of a literal. *)
Definition scan_literal (literal_text : string) (return_type : token_type.t) (s : string) :
    token_type.t * string :=
  match strip_prefix literal_text s with
  | Some rest => (return_type, rest)
  | None => (token_type.parse_error, EmptyString)
  end.

Definition is_whitespace (c : ascii) : bool :=
  (code c =? 32) || (code c =? 9) || (code c =? 10) || (code c =? 13).

Fixpoint skip_whitespace (s : string) : string :=
  match s with
  | String c s' => if is_whitespace c then skip_whitespace s' else s
  | EmptyString => EmptyString
  end.

(** [scan] after the byte order mark: the next token.  A null byte is the end of
    the input. *)
Definition scan (s : string) : token_type.t * string :=
  match skip_whitespace s with
  | EmptyString => (token_type.end_of_input, EmptyString)
  | String c s' =>
      if code c =? 91 then (token_type.begin_array, s')
      else if code c =? 93 then (token_type.end_array, s')
      else if code c =? 123 then (token_type.begin_object, s')
      else if code c =? 125 then (token_type.end_object, s')
      else if code c =? 58 then (token_type.name_separator, s')
      else if code c =? 44 then (token_type.value_separator, s')
      else if code c =? 116 then scan_literal "rue" token_type.literal_true s'
      else if code c =? 102 then scan_literal "alse" token_type.literal_false s'
      else if code c =? 110 then scan_literal "ull" token_type.literal_null s'
      else if code c =? 34 then
        match scan_string s' with
        | Some (text, rest) => (token_type.value_string text, rest)
        | None => (token_type.parse_error, EmptyString)
        end
      else if (code c =? 45) || is_digit c then scan_number (String c s')
      else if code c =? 0 then (token_type.end_of_input, s')
      else (token_type.parse_error, EmptyString)
  end.

(** [skip_bom], before the first token: [None] is an incomplete mark. *)
Definition skip_bom (s : string) : option string :=
  match s with
  | String c s' =>
      if code c =? 0xEF then
        match s' with
        | String c1 (String c2 rest) =>
            if (code c1 =? 0xBB) && (code c2 =? 0xBF) then Some rest else None
        | _ => None
        end
      else Some s
  | EmptyString => Some s
  end.

Definition scan_first (s : string) : token_type.t * string :=
  match skip_bom s with
  | Some s' => scan s'
  | None => (token_type.parse_error, EmptyString)
  end.
End lexer.
