(* ===== verification/JsonGrisu.v ===== *)
(** * json.hpp: writing doubles

    [detail::to_chars]: the Grisu2 algorithm of [dtoa_impl] on 64-bit integers
    and the layout of its digits.  A buffer of digits is the list of the digits
    written so far, the last one first. *)
From Stdlib Require Import ZArith Lia Ascii Floats.SpecFloat.
From stdpp Require Import base list strings.
From S2P Require Import Prelude JsonString JsonLexer.

Open Scope Z_scope.

(** ** diyfp: f * 2^e *)

Record diyfp := mkDiyfp { dy_f : Z; dy_e : Z }.

Definition diyfp_sub (x y : diyfp) : diyfp := mkDiyfp (u64 (dy_f x - dy_f y)) (dy_e x).

(** The upper half of the 128-bit product, rounded, from 32-bit halves. *)
Definition diyfp_mul (x y : diyfp) : diyfp :=
  let u_lo := Z.land (dy_f x) 0xFFFFFFFF in
  let u_hi := Z.shiftr (dy_f x) 32 in
  let v_lo := Z.land (dy_f y) 0xFFFFFFFF in
  let v_hi := Z.shiftr (dy_f y) 32 in
  let p0 := u64 (u_lo * v_lo) in
  let p1 := u64 (u_lo * v_hi) in
  let p2 := u64 (u_hi * v_lo) in
  let p3 := u64 (u_hi * v_hi) in
  let p0_hi := Z.shiftr p0 32 in
  let p1_lo := Z.land p1 0xFFFFFFFF in
  let p1_hi := Z.shiftr p1 32 in
  let p2_lo := Z.land p2 0xFFFFFFFF in
  let p2_hi := Z.shiftr p2 32 in
  let Q := u64 (p0_hi + p1_lo + p2_lo) in
  let Q := u64 (Q + Z.shiftl 1 (64 - 32 - 1)) in
  mkDiyfp (u64 (p3 + p2_hi + p1_hi + Z.shiftr Q 32)) (dy_e x + dy_e y + 64).

(** The loop of [normalize]; 64 rounds are enough. *)
Fixpoint normalize_loop (fuel : nat) (x : diyfp) : diyfp :=
  match fuel with
  | O => x
  | S fuel =>
      if Z.shiftr (dy_f x) 63 =? 0
      then normalize_loop fuel (mkDiyfp (u64 (Z.shiftl (dy_f x) 1)) (dy_e x - 1))
      else x
  end.

Definition normalize (x : diyfp) : diyfp := normalize_loop 64 x.

Definition normalize_to (x : diyfp) (target_exponent : Z) : diyfp :=
  let delta := dy_e x - target_exponent in
  mkDiyfp (u64 (Z.shiftl (dy_f x) delta)) target_exponent.

(** ** The boundaries of a double *)

(** The bits of the positive double [m * 2^e]. *)
Definition bits_of (m : positive) (e : Z) : Z :=
  if Zpos m <? 2 ^ 52 then Zpos m else (e + 1075) * 2 ^ 52 + (Zpos m - 2 ^ 52).

Definition kBias : Z := 1075.
Definition kMinExp : Z := 1 - kBias.
Definition kHiddenBit : Z := Z.shiftl 1 52.

Record boundaries := mkBoundaries { bo_w : diyfp; bo_minus : diyfp; bo_plus : diyfp }.

Definition compute_boundaries (bits : Z) : boundaries :=
  let E := Z.shiftr bits 52 in
  let F := Z.land bits (kHiddenBit - 1) in
  let v := if E =? 0 then mkDiyfp F kMinExp else mkDiyfp (F + kHiddenBit) (E - kBias) in
  let lower_boundary_is_closer := (F =? 0) && (1 <? E) in
  let m_plus := mkDiyfp (2 * dy_f v + 1) (dy_e v - 1) in
  let m_minus := if lower_boundary_is_closer then mkDiyfp (4 * dy_f v - 1) (dy_e v - 2)
                 else mkDiyfp (2 * dy_f v - 1) (dy_e v - 1) in
  let w_plus := normalize m_plus in
  let w_minus := normalize_to m_minus (dy_e w_plus) in
  mkBoundaries (normalize v) w_minus w_plus.

(** ** Cached powers of ten *)

Definition kAlpha : Z := - 60.
Definition kGamma : Z := - 32.

Record cached_power := mkCached { cp_f : Z; cp_e : Z; cp_k : Z }.

Definition kCachedPowersMinDecExp : Z := - 300.
Definition kCachedPowersDecStep : Z := 8.

Definition kCachedPowers : list cached_power :=
  [mkCached 0xAB70FE17C79AC6CA (-1060) (-300); mkCached 0xFF77B1FCBEBCDC4F (-1034) (-292);
   mkCached 0xBE5691EF416BD60C (-1007) (-284); mkCached 0x8DD01FAD907FFC3C (-980) (-276);
   mkCached 0xD3515C2831559A83 (-954) (-268); mkCached 0x9D71AC8FADA6C9B5 (-927) (-260);
   mkCached 0xEA9C227723EE8BCB (-901) (-252); mkCached 0xAECC49914078536D (-874) (-244);
   mkCached 0x823C12795DB6CE57 (-847) (-236); mkCached 0xC21094364DFB5637 (-821) (-228);
   mkCached 0x9096EA6F3848984F (-794) (-220); mkCached 0xD77485CB25823AC7 (-768) (-212);
   mkCached 0xA086CFCD97BF97F4 (-741) (-204); mkCached 0xEF340A98172AACE5 (-715) (-196);
   mkCached 0xB23867FB2A35B28E (-688) (-188); mkCached 0x84C8D4DFD2C63F3B (-661) (-180);
   mkCached 0xC5DD44271AD3CDBA (-635) (-172); mkCached 0x936B9FCEBB25C996 (-608) (-164);
   mkCached 0xDBAC6C247D62A584 (-582) (-156); mkCached 0xA3AB66580D5FDAF6 (-555) (-148);
   mkCached 0xF3E2F893DEC3F126 (-529) (-140); mkCached 0xB5B5ADA8AAFF80B8 (-502) (-132);
   mkCached 0x87625F056C7C4A8B (-475) (-124); mkCached 0xC9BCFF6034C13053 (-449) (-116);
   mkCached 0x964E858C91BA2655 (-422) (-108); mkCached 0xDFF9772470297EBD (-396) (-100);
   mkCached 0xA6DFBD9FB8E5B88F (-369) (-92); mkCached 0xF8A95FCF88747D94 (-343) (-84);
   mkCached 0xB94470938FA89BCF (-316) (-76); mkCached 0x8A08F0F8BF0F156B (-289) (-68);
   mkCached 0xCDB02555653131B6 (-263) (-60); mkCached 0x993FE2C6D07B7FAC (-236) (-52);
   mkCached 0xE45C10C42A2B3B06 (-210) (-44); mkCached 0xAA242499697392D3 (-183) (-36);
   mkCached 0xFD87B5F28300CA0E (-157) (-28); mkCached 0xBCE5086492111AEB (-130) (-20);
   mkCached 0x8CBCCC096F5088CC (-103) (-12); mkCached 0xD1B71758E219652C (-77) (-4);
   mkCached 0x9C40000000000000 (-50) (4); mkCached 0xE8D4A51000000000 (-24) (12);
   mkCached 0xAD78EBC5AC620000 (3) (20); mkCached 0x813F3978F8940984 (30) (28);
   mkCached 0xC097CE7BC90715B3 (56) (36); mkCached 0x8F7E32CE7BEA5C70 (83) (44);
   mkCached 0xD5D238A4ABE98068 (109) (52); mkCached 0x9F4F2726179A2245 (136) (60);
   mkCached 0xED63A231D4C4FB27 (162) (68); mkCached 0xB0DE65388CC8ADA8 (189) (76);
   mkCached 0x83C7088E1AAB65DB (216) (84); mkCached 0xC45D1DF942711D9A (242) (92);
   mkCached 0x924D692CA61BE758 (269) (100); mkCached 0xDA01EE641A708DEA (295) (108);
   mkCached 0xA26DA3999AEF774A (322) (116); mkCached 0xF209787BB47D6B85 (348) (124);
   mkCached 0xB454E4A179DD1877 (375) (132); mkCached 0x865B86925B9BC5C2 (402) (140);
   mkCached 0xC83553C5C8965D3D (428) (148); mkCached 0x952AB45CFA97A0B3 (455) (156);
   mkCached 0xDE469FBD99A05FE3 (481) (164); mkCached 0xA59BC234DB398C25 (508) (172);
   mkCached 0xF6C69A72A3989F5C (534) (180); mkCached 0xB7DCBF5354E9BECE (561) (188);
   mkCached 0x88FCF317F22241E2 (588) (196); mkCached 0xCC20CE9BD35C78A5 (614) (204);
   mkCached 0x98165AF37B2153DF (641) (212); mkCached 0xE2A0B5DC971F303A (667) (220);
   mkCached 0xA8D9D1535CE3B396 (694) (228); mkCached 0xFB9B7CD9A4A7443C (720) (236);
   mkCached 0xBB764C4CA7A44410 (747) (244); mkCached 0x8BAB8EEFB6409C1A (774) (252);
   mkCached 0xD01FEF10A657842C (800) (260); mkCached 0x9B10A4E5E9913129 (827) (268);
   mkCached 0xE7109BFBA19C0C9D (853) (276); mkCached 0xAC2820D9623BF429 (880) (284);
   mkCached 0x80444B5E7AA7CF85 (907) (292); mkCached 0xBF21E44003ACDD2D (933) (300);
   mkCached 0x8E679C2F5E44FF8F (960) (308); mkCached 0xD433179D9C8CB841 (986) (316);
   mkCached 0x9E19DB92B4E31BA9 (1013) (324)].

Definition cached_index (e : Z) : Z :=
  let f := kAlpha - e - 1 in
  let k := Z.quot (f * 78913) (Z.shiftl 1 18) + (if 0 <? f then 1 else 0) in
  Z.quot (- kCachedPowersMinDecExp + k + (kCachedPowersDecStep - 1)) kCachedPowersDecStep.

Definition get_cached_power_for_binary_exponent (e : Z) : cached_power :=
  nth (Z.to_nat (cached_index e)) kCachedPowers (mkCached 0 0 0).

(** ** Generating the digits *)

Definition find_largest_pow10 (n : Z) : nat * Z :=
  if 1000000000 <=? n then (10%nat, 1000000000)
  else if 100000000 <=? n then (9%nat, 100000000)
  else if 10000000 <=? n then (8%nat, 10000000)
  else if 1000000 <=? n then (7%nat, 1000000)
  else if 100000 <=? n then (6%nat, 100000)
  else if 10000 <=? n then (5%nat, 10000)
  else if 1000 <=? n then (4%nat, 1000)
  else if 100 <=? n then (3%nat, 100)
  else if 10 <=? n then (2%nat, 10)
  else (1%nat, 1).

(** A digit is decremented at most nine times. *)
Fixpoint grisu2_round (fuel : nat) (buf : list Z) (dist delta rest ten_k : Z) : list Z :=
  match fuel with
  | O => buf
  | S fuel =>
      if (rest <? dist) && (ten_k <=? delta - rest) &&
         ((rest + ten_k <? dist) || (rest + ten_k - dist <? dist - rest))
      then
        match buf with
        | d :: buf' => grisu2_round fuel ((d - 1) :: buf') dist delta (u64 (rest + ten_k)) ten_k
        | [] => []
        end
      else buf
  end.

Definition round_fuel : nat := 10.

(** The digits of the integral part [p1]: the buffer and the exponent, or the
    buffer with which the fractional part goes on. *)
Fixpoint integral_digits (n : nat) (buf : list Z) (p1 pow10 p2 dist delta one_e : Z) : list Z * option Z :=
  match n with
  | O => (buf, None)
  | S n =>
      let d := p1 / pow10 in
      let r := p1 mod pow10 in
      let buf := d :: buf in
      let rest := u64 (u64 (Z.shiftl r (- one_e)) + p2) in
      if rest <=? delta
      then (grisu2_round round_fuel buf dist delta rest (u64 (Z.shiftl pow10 (- one_e))), Some (Z.of_nat n))
      else integral_digits n buf r (pow10 / 10) p2 dist delta one_e
  end.

(** The digits of the fractional part; [m] counts them. *)
Fixpoint fractional_digits (fuel : nat) (buf : list Z) (m p2 dist delta one_f one_e : Z) : option (list Z * Z) :=
  match fuel with
  | O => None
  | S fuel =>
      let p2 := u64 (p2 * 10) in
      let d := Z.shiftr p2 (- one_e) in
      let r := Z.land p2 (one_f - 1) in
      let buf := d :: buf in
      let delta := u64 (delta * 10) in
      let dist := u64 (dist * 10) in
      if r <=? delta
      then Some (grisu2_round round_fuel buf dist delta r one_f, m + 1)
      else fractional_digits fuel buf (m + 1) r dist delta one_f one_e
  end.

Definition fractional_fuel : nat := 20.

(** The digits and the decimal exponent. *)
Definition grisu2_digit_gen (decimal_exponent : Z) (M_minus w M_plus : diyfp) : option (list Z * Z) :=
  let delta := dy_f (diyfp_sub M_plus M_minus) in
  let dist := dy_f (diyfp_sub M_plus w) in
  let one := mkDiyfp (Z.shiftl 1 (- dy_e M_plus)) (dy_e M_plus) in
  let p1 := u32 (Z.shiftr (dy_f M_plus) (- dy_e one)) in
  let p2 := Z.land (dy_f M_plus) (dy_f one - 1) in
  let '(k, pow10) := find_largest_pow10 p1 in
  match integral_digits k [] p1 pow10 p2 dist delta (dy_e one) with
  | (buf, Some n) => Some (buf, decimal_exponent + n)
  | (buf, None) =>
      match fractional_digits fractional_fuel buf 0 p2 dist delta (dy_f one) (dy_e one) with
      | Some (buf, m) => Some (buf, decimal_exponent - m)
      | None => None
      end
  end.

Definition grisu2_scaled (m_minus v m_plus : diyfp) : option (list Z * Z) :=
  let cached := get_cached_power_for_binary_exponent (dy_e m_plus) in
  let c_minus_k := mkDiyfp (cp_f cached) (cp_e cached) in
  let w := diyfp_mul v c_minus_k in
  let w_minus := diyfp_mul m_minus c_minus_k in
  let w_plus := diyfp_mul m_plus c_minus_k in
  let M_minus := mkDiyfp (u64 (dy_f w_minus + 1)) (dy_e w_minus) in
  let M_plus := mkDiyfp (u64 (dy_f w_plus - 1)) (dy_e w_plus) in
  grisu2_digit_gen (- cp_k cached) M_minus w M_plus.

Definition grisu2 (bits : Z) : option (list Z * Z) :=
  let b := compute_boundaries bits in grisu2_scaled (bo_minus b) (bo_w b) (bo_plus b).

(** ** The layout *)

Definition digit (d : Z) : ascii := chr (0x30 + d).

(** The digits of a buffer, in order. *)
Fixpoint digits_text (buf : list Z) (rest : string) : string :=
  match buf with [] => rest | d :: buf => digits_text buf (String (digit d) rest) end.

Fixpoint zeros (n : nat) (rest : string) : string :=
  match n with O => rest | S n => String (digit 0) (zeros n rest) end.

Definition append_exponent (e : Z) : string :=
  let '(sign, k) := if e <? 0 then (45, - e) else (43, e) in
  String (chr sign)
    (if k <? 10 then String (digit 0) (String (digit k) EmptyString)
     else if k <? 100 then String (digit (k / 10)) (String (digit (k mod 10)) EmptyString)
     else
       let k' := k mod 100 in
       String (digit (k / 100)) (String (digit (k' / 10)) (String (digit (k' mod 10)) EmptyString))).

Definition kMinExp10 : Z := - 4.
Definition kMaxExp10 : Z := 15.

(** Where the decimal point goes: [after] digits are behind it. *)
Definition point_text (buf : list Z) (after : nat) : string :=
  digits_text (drop after buf) (String (chr 46) (digits_text (take after buf) EmptyString)).

Definition format_buffer (buf : list Z) (decimal_exponent : Z) : string :=
  let k := Z.of_nat (length buf) in
  let n := k + decimal_exponent in
  if (k <=? n) && (n <=? kMaxExp10)
  then digits_text buf (zeros (Z.to_nat (n - k)) (String (chr 46) (String (digit 0) EmptyString)))
  else if (0 <? n) && (n <=? kMaxExp10) then point_text buf (Z.to_nat (k - n))
  else if (kMinExp10 <? n) && (n <=? 0)
  then String (digit 0) (String (chr 46) (zeros (Z.to_nat (- n)) (digits_text buf EmptyString)))
  else
    (if k =? 1 then digits_text buf EmptyString else point_text buf (Z.to_nat (k - 1))) +:+
    String (chr 101) (append_exponent (n - 1)).

(** The text of a finite double. *)
Definition to_chars (value : spec_float) : string :=
  let '(sign, text) :=
    match value with
    | S754_zero s => (s, String (digit 0) (String (chr 46) (String (digit 0) EmptyString)))
    | S754_finite s m e =>
        (s, match grisu2 (bits_of m e) with
            | Some (buf, decimal_exponent) => format_buffer buf decimal_exponent
            | None => EmptyString
            end)
    | _ => (false, EmptyString)
    end in
  if sign then String (chr 45) text else text.
