(* ===== verification/JsonGrisuSpec.v ===== *)
(** * json.hpp: Grisu2 is right

    The digits that [JsonGrisu.grisu2] generates stand for a number strictly
    between the boundaries of the double: every correctly rounding conversion
    reads the double back from them. *)
From Stdlib Require Import ZArith Lia QArith Qpower Lqa Floats.SpecFloat.
From stdpp Require Import base list.
From S2P Require Import Prelude JsonGrisu.

Open Scope Z_scope.

(** ** Arithmetic of diyfp *)

Lemma shiftr_div x n : 0 <= n -> Z.shiftr x n = x / 2 ^ n.
Proof. apply Z.shiftr_div_pow2. Qed.

Lemma land_low x n : 0 <= n -> Z.land x (2 ^ n - 1) = x mod 2 ^ n.
Proof. intros. replace (2 ^ n - 1) with (Z.ones n) by (rewrite Z.ones_equiv; lia). by apply Z.land_ones. Qed.

Definition fits (x : Z) : Prop := 0 <= x < 2 ^ 64.

(** [mul] rounds the product to its upper half. *)
Lemma mul_rounds x y : fits (dy_f x) -> fits (dy_f y) ->
  dy_f (diyfp_mul x y) = (dy_f x * dy_f y + 2 ^ 63) / 2 ^ 64.
Proof.
  unfold fits. destruct x as [x ex], y as [y ey]. cbn [dy_f dy_e diyfp_mul]. intros Hx Hy.
  change 0xFFFFFFFF with (2 ^ 32 - 1). rewrite !shiftr_div, !land_low by lia.
  change (Z.shiftl 1 (64 - 32 - 1)) with (2 ^ 31).
  pose proof (Z.div_mod x (2 ^ 32) ltac:(lia)) as Ex. pose proof (Z.mod_pos_bound x (2 ^ 32) ltac:(lia)) as Bx.
  pose proof (Z.div_mod y (2 ^ 32) ltac:(lia)) as Ey. pose proof (Z.mod_pos_bound y (2 ^ 32) ltac:(lia)) as By.
  set (xl := x mod 2 ^ 32) in *. set (xh := x / 2 ^ 32) in *.
  set (yl := y mod 2 ^ 32) in *. set (yh := y / 2 ^ 32) in *.
  assert (Hxh : 0 <= xh <= 2 ^ 32 - 1) by lia. assert (Hyh : 0 <= yh <= 2 ^ 32 - 1) by lia.
  assert (Hp : forall a b, 0 <= a <= 2 ^ 32 - 1 -> 0 <= b <= 2 ^ 32 - 1 -> 0 <= a * b <= (2 ^ 32 - 1) * (2 ^ 32 - 1)).
  { intros a b Ha Hb. split; [lia |]. apply Z.mul_le_mono_nonneg; lia. }
  pose proof (Hp xl yl ltac:(lia) ltac:(lia)) as P0. pose proof (Hp xl yh ltac:(lia) ltac:(lia)) as P1.
  pose proof (Hp xh yl ltac:(lia) ltac:(lia)) as P2. pose proof (Hp xh yh ltac:(lia) ltac:(lia)) as P3.
  assert (E : x * y = xh * yh * 2 ^ 64 + (xl * yh + xh * yl) * 2 ^ 32 + xl * yl) by (rewrite Ex, Ey; ring).
  rewrite E. clear E Ex Ey Bx By Hp Hx Hy. clearbody xl xh yl yh.
  revert P0 P1 P2 P3. generalize (xl * yl), (xl * yh), (xh * yl), (xh * yh). intros p0 p1 p2 p3 P0 P1 P2 P3.
  change (2 ^ 63) with (9223372036854775808). change (2 ^ 64) with 18446744073709551616.
  change (2 ^ 32) with 4294967296 in *. change (2 ^ 31) with 2147483648.
  assert (B0 : 0 <= p0 / 4294967296 <= 4294967294) by (Z.div_mod_to_equations; lia).
  pose proof (Z.mod_pos_bound p1 4294967296 ltac:(lia)) as B1.
  pose proof (Z.mod_pos_bound p2 4294967296 ltac:(lia)) as B2.
  assert (Hb : 2 ^ 64 = 18446744073709551616) by reflexivity.
  rewrite !(u64_small p0), !(u64_small p1), !(u64_small p2), !(u64_small p3) by lia.
  rewrite (u64_small (p0 / _ + _ + _)) by lia. rewrite (u64_small (_ + 2147483648)) by lia.
  rewrite u64_small by (Z.div_mod_to_equations; lia).
  Z.div_mod_to_equations. lia.
Qed.

Lemma normalize_loop_spec fuel x e :
  0 < x -> x < 2 ^ 64 -> 2 ^ 63 <= x * 2 ^ Z.of_nat fuel ->
  exists j, 0 <= j <= Z.of_nat fuel /\ normalize_loop fuel (mkDiyfp x e) = mkDiyfp (x * 2 ^ j) (e - j) /\
    2 ^ 63 <= x * 2 ^ j < 2 ^ 64.
Proof.
  revert x e. induction fuel as [| fuel IH]; intros x e H0 H1 H2.
  - exists 0. cbn [normalize_loop]. change (2 ^ Z.of_nat 0) with 1 in H2. change (2 ^ 0) with 1.
    rewrite Z.sub_0_r, !Z.mul_1_r in *. split; [lia |]. split; [done | lia].
  - cbn [normalize_loop dy_f dy_e]. rewrite shiftr_div by lia. rewrite Nat2Z.inj_succ, Z.pow_succ_r in H2 by lia.
    destruct (Z.eqb_spec (x / 2 ^ 63) 0) as [Hz | Hnz].
    + assert (Hx : x < 2 ^ 63) by (apply Z.div_small_iff in Hz; lia).
      rewrite Z.shiftl_mul_pow2 by lia. change (2 ^ 1) with 2. rewrite u64_small by lia.
      destruct (IH (x * 2) (e - 1)) as (j & Hj & E & Hb); [lia.. |].
      assert (Hp : x * 2 ^ (j + 1) = x * 2 * 2 ^ j) by (rewrite Z.pow_add_r by lia; ring).
      exists (j + 1). rewrite E, Hp. split; [lia |]. split; [f_equal; lia | lia].
    + exists 0. change (2 ^ 0) with 1. rewrite Z.sub_0_r, !Z.mul_1_r. split; [lia |]. split; [done |].
      assert (~ x < 2 ^ 63) by (intros Hlt; apply Hnz, Z.div_small; lia). lia.
Qed.

(** ** Powers of ten *)

Definition numerator (c : cached_power) : Z := 10 ^ Z.max (cp_k c) 0 * 2 ^ Z.max (- cp_e c) 0.
Definition denominator (c : cached_power) : Z := 10 ^ Z.max (- cp_k c) 0 * 2 ^ Z.max (cp_e c) 0.

(** A cached power is normalised and within half a unit of 10^k. *)
Definition cached_good (c : cached_power) : bool :=
  (2 ^ 63 <=? cp_f c) && (cp_f c <? 2 ^ 64) && (-300 <=? cp_k c) && (cp_k c <=? 324) &&
  (2 * Z.abs (cp_f c * denominator c - numerator c) <=? denominator c).

Definition exponent_good (e : Z) : bool :=
  (0 <=? cached_index e) && (cached_index e <? 79) &&
  (kAlpha <=? cp_e (get_cached_power_for_binary_exponent e) + e + 64) &&
  (cp_e (get_cached_power_for_binary_exponent e) + e + 64 <=? kGamma).

Lemma cached_powers_good : forallb cached_good kCachedPowers = true.
Proof. vm_compute. reflexivity. Qed.

Definition exponents : list Z := map (fun i => Z.of_nat i - 1137) (seq 0 2098).

Lemma exponents_good : forallb exponent_good exponents = true.
Proof. vm_compute. reflexivity. Qed.

(** The power chosen for an exponent of a double scales it into the range. *)
Lemma cached_spec e : -1137 <= e <= 960 ->
  let c := get_cached_power_for_binary_exponent e in
  2 ^ 63 <= cp_f c < 2 ^ 64 /\ -300 <= cp_k c <= 324 /\
  2 * Z.abs (cp_f c * denominator c - numerator c) <= denominator c /\
  kAlpha <= cp_e c + e + 64 <= kGamma.
Proof.
  intros He c. pose proof exponents_good as Hg. rewrite forallb_forall in Hg.
  specialize (Hg e). unfold exponents in Hg. rewrite in_map_iff in Hg.
  assert (Hin : exists i, Z.of_nat i - 1137 = e /\ In i (seq 0 2098)).
  { exists (Z.to_nat (e + 1137)). rewrite in_seq. lia. }
  specialize (Hg Hin). unfold exponent_good in Hg. fold c in Hg. rewrite !andb_true_iff, !Z.leb_le, Z.ltb_lt in Hg.
  destruct Hg as (((Hi0 & Hi1) & Ha) & Hb).
  assert (Hc : In c kCachedPowers).
  { apply nth_In. change (length kCachedPowers) with 79%nat. lia. }
  pose proof cached_powers_good as Hp. rewrite forallb_forall in Hp. specialize (Hp c Hc).
  unfold cached_good in Hp. rewrite !andb_true_iff, !Z.leb_le, Z.ltb_lt in Hp. lia.
Qed.

(** ** The digits *)

Definition digit_ok (d : Z) : Prop := 0 <= d <= 9.

(** The number a buffer stands for. *)
Fixpoint val (buf : list Z) : Z := match buf with [] => 0 | d :: buf => 10 * val buf + d end.

(** Digits without a leading zero. *)
Definition buffer_ok (buf : list Z) : Prop :=
  Forall digit_ok buf /\ exists d, last buf = Some d /\ 1 <= d.

(** Rounding moves the last digit down, within what is left of [delta]. *)
Lemma round_spec fuel : forall d buf dist delta rest ten_k,
  0 <= rest <= delta -> delta < 2 ^ 64 -> 0 < ten_k -> delta < d * ten_k + rest ->
  exists d', grisu2_round fuel (d :: buf) dist delta rest ten_k = d' :: buf /\ 1 <= d' <= d /\
    (d - d') * ten_k + rest <= delta.
Proof.
  induction fuel as [| fuel IH]; intros d buf dist delta rest ten_k Hr Hd Ht Hlt.
  { exists d. split; [done |]. nia. }
  cbn [grisu2_round]. destruct (_ && _ && _) eqn:E; [| exists d; split; [done |]; nia].
  rewrite !andb_true_iff in E. destruct E as [[_ E] _]. apply Z.leb_le in E.
  rewrite u64_small by lia.
  destruct (IH (d - 1) buf dist delta (rest + ten_k) ten_k) as (d' & Hd' & Hb & Hs); [nia.. |].
  exists d'. split; [done |]. nia.
Qed.

(** Changing the last digit keeps a buffer good. *)
Lemma last_digit_ok d d' buf :
  Forall digit_ok (d :: buf) -> (buf <> [] -> exists x, last buf = Some x /\ 1 <= x) -> 1 <= d' <= d ->
  buffer_ok (d' :: buf).
Proof.
  intros [Hd Hb]%Forall_cons Hlead Hd'. destruct Hd as [? ?]. split.
  - constructor; [split; lia | done].
  - destruct buf as [| b buf]; [exists d'; split; [done | lia] |]. rewrite last_cons_cons. by apply Hlead.
Qed.

Section digits.
Context (s : Z) (Hs : 32 <= s <= 60) (p2 dist delta : Z).
Context (Hp2 : 0 <= p2 < 2 ^ s) (Hdelta : 1 <= delta < 2 ^ 64).

Lemma shiftl_scale x : Z.shiftl x (- - s) = x * 2 ^ s.
Proof. rewrite Z.opp_involutive. apply Z.shiftl_mul_pow2. lia. Qed.

Lemma integral_spec n : forall buf p1,
  Forall digit_ok buf -> (buf = [] -> (0 < n)%nat /\ 10 ^ Z.of_nat (n - 1) <= p1) ->
  (buf <> [] -> exists d, last buf = Some d /\ 1 <= d) ->
  0 <= p1 < 10 ^ Z.of_nat n -> delta < p1 * 2 ^ s + p2 -> p1 * 2 ^ s + p2 < 2 ^ 64 ->
  let total := val buf * 10 ^ Z.of_nat n * 2 ^ s + p1 * 2 ^ s + p2 in
  match integral_digits n buf p1 (10 ^ Z.of_nat (n - 1)) p2 dist delta (- s) with
  | (buf', Some x) => exists n', x = Z.of_nat n' /\ (n' < n)%nat /\ buffer_ok buf' /\
      length buf' = (length buf + (n - n'))%nat /\
      total - delta <= val buf' * 10 ^ x * 2 ^ s <= total
  | (buf', None) => buffer_ok buf' /\ length buf' = (length buf + n)%nat /\
      val buf' * 2 ^ s + p2 = total /\ delta < p2
  end.
Proof using Hs Hp2 Hdelta.
  induction n as [| n IH]; intros buf p1 Hok Hnil Hlead Hp1 Hlt Hfit total.
  - cbn [integral_digits]. assert (Hne : buf <> []) by (intros ->; destruct (Hnil eq_refl); lia).
    change (10 ^ Z.of_nat 0) with 1 in *. subst total. split; [by split; [| apply Hlead] |]. split; [lia |]. nia.
  - cbn [integral_digits]. replace (S n - 1)%nat with n by lia.
    set (ten := 10 ^ Z.of_nat n) in *. assert (Hten : 0 < ten) by (apply Z.pow_pos_nonneg; lia).
    assert (Hsucc : 10 ^ Z.of_nat (S n) = 10 * ten) by (rewrite Nat2Z.inj_succ, Z.pow_succ_r by lia; done).
    rewrite Hsucc in Hp1.
    pose proof (Z.div_mod p1 ten ltac:(lia)) as Ediv. pose proof (Z.mod_pos_bound p1 ten Hten) as Hmod.
    assert (Ho : 0 < 2 ^ s) by (apply Z.pow_pos_nonneg; lia).
    assert (Hd : digit_ok (p1 / ten)).
    { split; [apply Z.div_pos; lia |]. apply Z.lt_succ_r, Z.div_lt_upper_bound; lia. }
    assert (Hdl : exists x, last (p1 / ten :: buf) = Some x /\ 1 <= x).
    { destruct buf as [| b buf]; [| rewrite last_cons_cons; by apply Hlead].
      exists (p1 / ten). split; [done |]. destruct (Hnil eq_refl) as [_ H1]. replace (S n - 1)%nat with n in H1 by lia.
      apply Z.div_le_lower_bound; lia. }
    revert Ediv Hmod Hd Hdl. generalize (p1 / ten), (p1 mod ten). intros d r Ediv Hmod Hd Hdl.
    assert (Hdb : Forall digit_ok (d :: buf)) by by constructor.
    assert (Hrs : 0 <= r * 2 ^ s <= p1 * 2 ^ s).
    { split; [apply Z.mul_nonneg_nonneg; lia | apply Z.mul_le_mono_nonneg_r; [lia |]]. pose proof (Z.mul_nonneg_nonneg ten d). destruct Hd. lia. }
    rewrite !shiftl_scale. rewrite (u64_small (r * 2 ^ s)), (u64_small (r * 2 ^ s + p2)) by lia.
    assert (Htot : total = val (d :: buf) * ten * 2 ^ s + (r * 2 ^ s + p2)) by (unfold total; rewrite Hsucc; cbn [val]; rewrite Ediv; ring).
    destruct (Z.leb_spec (r * 2 ^ s + p2) delta) as [Hle | Hgt].
    + assert (Hp1s : p1 * 2 ^ s = d * (ten * 2 ^ s) + r * 2 ^ s) by (rewrite Ediv; ring).
      assert (Hw : 0 < ten * 2 ^ s) by lia. assert (Hd1 : 1 <= d) by (destruct Hd; destruct (Z.eq_dec d 0) as [-> |]; lia).
      pose proof (Z.mul_le_mono_nonneg_r 1 d (ten * 2 ^ s) ltac:(lia) Hd1).
      assert (Hw64 : ten * 2 ^ s <= p1 * 2 ^ s) by lia. rewrite (u64_small (ten * 2 ^ s)) by lia.
      destruct (round_spec round_fuel d buf dist delta (r * 2 ^ s + p2) (ten * 2 ^ s)) as (d' & -> & Hb & Hstep);
        [lia.. |].
      exists n. split; [done |]. split; [lia |]. split; [by apply (last_digit_ok d) |]. split; [cbn [length]; lia |].
      assert (Hval : val (d' :: buf) * ten * 2 ^ s = val (d :: buf) * ten * 2 ^ s - (d - d') * (ten * 2 ^ s))
        by (cbn [val]; ring).
      pose proof (Z.mul_nonneg_nonneg (d - d') (ten * 2 ^ s)). fold ten. clearbody total. lia.
    + assert (Hpow : integral_digits n (d :: buf) r (ten / 10) p2 dist delta (- s) =
                     integral_digits n (d :: buf) r (10 ^ Z.of_nat (n - 1)) p2 dist delta (- s)).
      { destruct n as [| n]; [done |]. subst ten. rewrite Nat2Z.inj_succ, Z.pow_succ_r by lia.
        rewrite Z.mul_comm, Z.div_mul by lia. by replace (S n - 1)%nat with n by lia. }
      rewrite Hpow. specialize (IH (d :: buf) r Hdb ltac:(done) ltac:(done) Hmod Hgt ltac:(lia)).
      cbv zeta in IH. fold ten in IH. rewrite <- Z.add_assoc, <- Htot in IH.
      destruct (integral_digits n _ _ _ _ _ _ _) as [buf' [x |]]; cbn [length] in IH.
      * destruct IH as (n' & -> & Hn' & Hb & Hl & Hv). exists n'. split; [done |]. split; [lia |].
        split; [done |]. split; [lia | done].
      * destruct IH as (Hb & Hl & Hv & Hlt'). split; [done |]. split; [lia | done].
Qed.

(** [m] more digits; [fuel] rounds are enough. *)
Lemma fractional_spec fuel : forall buf m p2 dist delta,
  Forall digit_ok buf -> (exists d, last buf = Some d /\ 1 <= d) ->
  1 <= delta < p2 -> p2 < 2 ^ s -> 2 ^ s <= delta * 10 ^ Z.of_nat fuel ->
  exists buf' m', fractional_digits fuel buf m p2 dist delta (2 ^ s) (- s) = Some (buf', m + m') /\
    1 <= m' <= Z.of_nat fuel /\ buffer_ok buf' /\ Z.of_nat (length buf') = Z.of_nat (length buf) + m' /\
    (val buf * 2 ^ s + p2 - delta) * 10 ^ m' <= val buf' * 2 ^ s <= (val buf * 2 ^ s + p2) * 10 ^ m'.
Proof using Hs.
  induction fuel as [| fuel IH]; intros buf m q dist' delta' Hok Hlast Hd Hq Hf.
  { change (10 ^ Z.of_nat 0) with 1 in Hf. lia. }
  assert (Ho : 0 < 2 ^ s) by (apply Z.pow_pos_nonneg; lia).
  assert (Ho60 : 2 ^ s <= 2 ^ 60) by (apply Z.pow_le_mono_r; lia).
  cbn [fractional_digits]. rewrite Z.opp_involutive, shiftr_div, land_low by lia.
  rewrite (u64_small (q * 10)), (u64_small (delta' * 10)) by lia.
  pose proof (Z.div_mod (q * 10) (2 ^ s) ltac:(lia)) as Ediv.
  pose proof (Z.mod_pos_bound (q * 10) (2 ^ s) Ho) as Hmod.
  assert (Hdig : digit_ok (q * 10 / 2 ^ s)).
  { split; [apply Z.div_pos; lia |]. apply Z.lt_succ_r, Z.div_lt_upper_bound; lia. }
  revert Ediv Hmod Hdig. generalize (q * 10 / 2 ^ s), ((q * 10) mod 2 ^ s). intros d r Ediv Hmod Hdig.
  assert (Hdb : Forall digit_ok (d :: buf)) by by constructor.
  assert (Hdl : exists x, last (d :: buf) = Some x /\ 1 <= x).
  { destruct Hlast as (x & Hx & Hx1). exists x. split; [| done]. by destruct buf. }
  assert (Htot : (val buf * 2 ^ s + q) * 10 = val (d :: buf) * 2 ^ s + r) by (cbn [val]; lia).
  destruct (Z.leb_spec r (delta' * 10)) as [Hle | Hgt].
  - destruct (round_spec round_fuel d buf (u64 (dist' * 10)) (delta' * 10) r (2 ^ s)) as (d' & -> & Hb & Hstep);
      [lia.. |].
    exists (d' :: buf), 1. split; [done |]. split; [lia |].
    split; [by apply (last_digit_ok d) |]. split; [cbn [length]; lia |].
    assert (Hval : val (d' :: buf) * 2 ^ s = val (d :: buf) * 2 ^ s - (d - d') * 2 ^ s) by (cbn [val]; ring).
    pose proof (Z.mul_nonneg_nonneg (d - d') (2 ^ s)). change (10 ^ 1) with 10. lia.
  - rewrite Nat2Z.inj_succ, Z.pow_succ_r in Hf by lia.
    destruct (IH (d :: buf) (m + 1) r (u64 (dist' * 10)) (delta' * 10)) as (buf' & m' & E & Hm & Hb & Hl & Hv);
      [done | done | lia | lia | lia |].
    exists buf', (m' + 1). rewrite E. split; [do 2 f_equal; lia |]. split; [lia |]. split; [done |].
    cbn [length] in Hl. split; [lia |].
    assert (Hp : 10 ^ (m' + 1) = 10 * 10 ^ m') by (rewrite Z.pow_add_r by lia; change (10 ^ 1) with 10; ring).
    rewrite Hp, !Z.mul_assoc. replace ((val buf * 2 ^ s + q - delta') * 10) with (val (d :: buf) * 2 ^ s + r - delta' * 10) by lia.
    by rewrite Htot.
Qed.
End digits.

Ltac found :=
  match goal with |- exists k, (?a, _) = _ /\ _ =>
    exists a; split; [reflexivity |]; split; [lia |];
    let lo := eval vm_compute in (10 ^ Z.of_nat (a - 1)) in change (10 ^ Z.of_nat (a - 1)) with lo;
    let hi := eval vm_compute in (10 ^ Z.of_nat a) in change (10 ^ Z.of_nat a) with hi; lia
  end.

Lemma find_largest_pow10_spec n : 1 <= n < 2 ^ 32 ->
  exists k, find_largest_pow10 n = (k, 10 ^ Z.of_nat (k - 1)) /\ (1 <= k <= 10)%nat /\
    10 ^ Z.of_nat (k - 1) <= n < 10 ^ Z.of_nat k.
Proof.
  intros Hn. unfold find_largest_pow10.
  repeat match goal with
  | |- context [if ?a <=? n then _ else _] => destruct (Z.leb_spec a n); [found |]
  end. found.
Qed.

(** The digits generated are a number of the closed interval. *)
Lemma digit_gen_spec dexp (Mm Mp e' : Z) (w : diyfp) (s : Z) :
  32 <= s <= 60 -> 0 < Mm < Mp -> 2 ^ 60 <= Mp < 2 ^ 64 ->
  exists buf up down, grisu2_digit_gen dexp (mkDiyfp Mm e') w (mkDiyfp Mp (- s)) = Some (buf, dexp + (up - down)) /\
    0 <= up <= 9 /\ 0 <= down <= 20 /\ buffer_ok buf /\ (length buf <= 30)%nat /\
    Mm * 10 ^ down <= val buf * 10 ^ up * 2 ^ s <= Mp * 10 ^ down.
Proof.
  intros Hs Hm Hp. unfold grisu2_digit_gen. cbn [dy_f dy_e diyfp_sub].
  rewrite (u64_small (Mp - Mm)) by lia. rewrite Z.opp_involutive, shiftr_div, Z.shiftl_mul_pow2, Z.mul_1_l by lia.
  rewrite land_low by lia. set (delta := Mp - Mm).
  assert (Ho : 0 < 2 ^ s) by (apply Z.pow_pos_nonneg; lia).
  assert (Ho60 : 2 ^ s <= 2 ^ 60) by (apply Z.pow_le_mono_r; lia).
  assert (Ho32 : 2 ^ 32 <= 2 ^ s) by (apply Z.pow_le_mono_r; lia).
  assert (H1 : 1 <= Mp / 2 ^ s < 2 ^ 32).
  { split; [apply Z.div_le_lower_bound; lia |]. apply Z.div_lt_upper_bound; [done |].
    change (2 ^ 64) with (2 ^ 32 * 2 ^ 32) in Hp. nia. }
  unfold u32. rewrite (Z.mod_small (Mp / 2 ^ s)) by lia.
  destruct (find_largest_pow10_spec (Mp / 2 ^ s) H1) as (k & -> & Hk & Hb).
  pose proof (Z.div_mod Mp (2 ^ s) ltac:(lia)) as Ediv. pose proof (Z.mod_pos_bound Mp (2 ^ s) Ho) as Hmod.
  assert (Emp : Mp / 2 ^ s * 2 ^ s + Mp mod 2 ^ s = Mp) by lia.
  assert (Hd : 1 <= delta < 2 ^ 64) by lia.
  pose proof (integral_spec s Hs (Mp mod 2 ^ s) (u64 (Mp - dy_f w)) delta Hmod Hd k [] (Mp / 2 ^ s)
    ltac:(constructor) ltac:(intros _; lia) ltac:(done) ltac:(lia)) as Hi.
  rewrite Emp in Hi. specialize (Hi ltac:(lia) ltac:(lia)). cbv zeta in Hi. cbn [val length] in Hi.
  rewrite <- Z.add_assoc, Emp in Hi. change (0 * 10 ^ Z.of_nat k * 2 ^ s) with 0 in Hi. rewrite Z.add_0_l in Hi.
  destruct (integral_digits k [] _ _ _ _ _ _) as [buf [x |]].
  - destruct Hi as (n & -> & Hn & Hbuf & Hl & Hv). exists buf, (Z.of_nat n), 0.
    split; [do 2 f_equal; lia |]. split; [lia |]. split; [lia |]. split; [done |]. split; [lia |].
    change (10 ^ 0) with 1. lia.
  - destruct Hi as (Hbuf & Hl & Hv & Hlt). destruct Hbuf as [Hok Hlast].
    destruct (fractional_spec s Hs fractional_fuel buf 0 (Mp mod 2 ^ s) (u64 (Mp - dy_f w)) delta)
      as (buf' & m & -> & Hm' & Hbuf' & Hl' & Hv'); [done | done | lia | lia | |].
    { change (10 ^ Z.of_nat fractional_fuel) with 100000000000000000000. lia. }
    change (Z.of_nat fractional_fuel) with 20 in Hm'.
    exists buf', 0, m. split; [do 2 f_equal; lia |]. split; [lia |]. split; [lia |]. split; [done |].
    split; [lia |]. rewrite Hv in Hv'. change (10 ^ 0) with 1. rewrite Z.mul_1_r.
    replace (Mp - delta) with Mm in Hv' by lia. exact Hv'.
Qed.

(** ** The scaling by a cached power *)

Definition ten (x : Z) : Q := Qpower 10 x.
Definition two (x : Z) : Q := Qpower 2 x.

Lemma ten_plus x y : (ten (x + y) == ten x * ten y)%Q.
Proof. by apply Qpower_plus. Qed.

Lemma two_plus x y : (two (x + y) == two x * two y)%Q.
Proof. by apply Qpower_plus. Qed.

Lemma ten_Z x : 0 <= x -> (inject_Z (10 ^ x) == ten x)%Q.
Proof. intros. by rewrite Zpower_Qpower. Qed.

Lemma two_Z x : 0 <= x -> (inject_Z (2 ^ x) == two x)%Q.
Proof. intros. by rewrite Zpower_Qpower. Qed.

Lemma two_pos x : (0 < two x)%Q.
Proof. by apply Qpower_0_lt. Qed.

Lemma ten_pos x : (0 < ten x)%Q.
Proof. by apply Qpower_0_lt. Qed.

Lemma power_ratio c :
  (inject_Z (numerator c) == ten (cp_k c) * two (- cp_e c) * inject_Z (denominator c))%Q.
Proof.
  unfold numerator, denominator. rewrite !inject_Z_mult, !ten_Z, !two_Z by lia.
  assert (Ht : (ten (Z.max (cp_k c) 0) == ten (cp_k c) * ten (Z.max (- cp_k c) 0))%Q)
    by (rewrite <- ten_plus; replace (cp_k c + Z.max (- cp_k c) 0) with (Z.max (cp_k c) 0) by lia; reflexivity).
  assert (Hw : (two (Z.max (- cp_e c) 0) == two (- cp_e c) * two (Z.max (cp_e c) 0))%Q)
    by (rewrite <- two_plus; replace (- cp_e c + Z.max (cp_e c) 0) with (Z.max (- cp_e c) 0) by lia; reflexivity).
  rewrite Ht, Hw. ring.
Qed.

Lemma denominator_pos c : 0 < denominator c.
Proof. unfold denominator. apply Z.mul_pos_pos; apply Z.pow_pos_nonneg; lia. Qed.

Lemma numerator_pos c : 0 < numerator c.
Proof. unfold numerator. apply Z.mul_pos_pos; apply Z.pow_pos_nonneg; lia. Qed.

(** The errors of the cached power and of [mul] are less than the one unit that
    is left out at each end. *)
Lemma product_upper p c A B W :
  0 < p < 2 ^ 64 -> 0 < B -> 2 * Z.abs (c * B - A) <= B -> W = (p * c + 2 ^ 63) / 2 ^ 64 ->
  2 ^ 64 * (W - 1) * B < p * A.
Proof.
  intros Hp HB Hc ->. pose proof (Z.mul_div_le (p * c + 2 ^ 63) (2 ^ 64) ltac:(lia)) as Hd.
  set (W := (p * c + 2 ^ 63) / 2 ^ 64) in *.
  pose proof (Z.mul_le_mono_nonneg_r _ _ B ltac:(lia) Hd) as H1.
  pose proof (Z.mul_le_mono_nonneg_l (2 * (c * B - A)) B p ltac:(lia) ltac:(lia)) as H2.
  pose proof (Z.mul_lt_mono_pos_r B p (2 ^ 64) HB) as H3. nia.
Qed.

Lemma product_lower p c A B W :
  0 < p < 2 ^ 64 -> 0 < B -> 2 * Z.abs (c * B - A) <= B -> W = (p * c + 2 ^ 63) / 2 ^ 64 ->
  p * A < 2 ^ 64 * (W + 1) * B.
Proof.
  intros Hp HB Hc ->. pose proof (Z.mul_succ_div_gt (p * c + 2 ^ 63) (2 ^ 64) ltac:(lia)) as Hd.
  set (W := (p * c + 2 ^ 63) / 2 ^ 64) in *.
  apply (Z.mul_lt_mono_pos_r B _ _ HB) in Hd.
  pose proof (Z.mul_le_mono_nonneg_l (2 * (A - c * B)) B p ltac:(lia) ltac:(lia)) as H2.
  pose proof (Z.mul_lt_mono_pos_r B p (2 ^ 64) HB) as H3. nia.
Qed.

(** The digits of a scaled interval stand for a number strictly inside the
    interval itself. *)
Lemma unscale c mm mp pe s V up down :
  s = - (cp_e c + pe + 64) -> 0 <= s -> 0 <= up -> 0 <= down ->
  mm * numerator c * 10 ^ down < 2 ^ 64 * denominator c * (V * 10 ^ up * 2 ^ s) ->
  2 ^ 64 * denominator c * (V * 10 ^ up * 2 ^ s) < mp * numerator c * 10 ^ down ->
  (inject_Z mm * two pe < inject_Z V * ten (- cp_k c + (up - down)) < inject_Z mp * two pe)%Q.
Proof.
  intros Es Hs Hup Hdown Hlo Hhi. set (X := inject_Z (numerator c * 10 ^ down)).
  assert (HX : (0 < X)%Q).
  { unfold X. change 0%Q with (inject_Z 0). rewrite <- Zlt_Qlt.
    apply Z.mul_pos_pos; [apply numerator_pos | apply Z.pow_pos_nonneg; lia]. }
  assert (E : (ten (- cp_k c + (up - down)) * X ==
               inject_Z (2 ^ 64 * denominator c * (10 ^ up * 2 ^ s)) * two pe)%Q).
  { unfold X. rewrite !inject_Z_mult, power_ratio, !ten_Z, (two_Z s), (two_Z 64) by lia.
    assert (H1 : (ten (- cp_k c + (up - down)) * ten (cp_k c) * ten down == ten up)%Q)
      by (rewrite <- !ten_plus; replace (- cp_k c + (up - down) + cp_k c + down) with up by lia; reflexivity).
    assert (H2 : (two 64 * two s * two pe == two (- cp_e c))%Q)
      by (rewrite <- !two_plus; replace (64 + s + pe) with (- cp_e c) by lia; reflexivity).
    rewrite <- H1, <- H2. ring. }
  assert (EV : (inject_Z V * ten (- cp_k c + (up - down)) * X ==
                inject_Z (2 ^ 64 * denominator c * (V * 10 ^ up * 2 ^ s)) * two pe)%Q).
  { rewrite <- Qmult_assoc, E, !inject_Z_mult. ring. }
  assert (Em : forall m, (inject_Z m * two pe * X == inject_Z (m * numerator c * 10 ^ down) * two pe)%Q)
    by (intros m; unfold X; rewrite !inject_Z_mult; ring).
  split; apply (Qmult_lt_r _ _ X HX); rewrite EV, Em; apply Qmult_lt_r; try apply two_pos; by rewrite <- Zlt_Qlt.
Qed.

Lemma scaled_spec mm mp pe v :
  -1137 <= pe <= 960 -> 2 ^ 63 <= mp < 2 ^ 64 -> 0 < mm -> mm + 2 ^ 9 <= mp ->
  exists buf D, grisu2_scaled (mkDiyfp mm pe) v (mkDiyfp mp pe) = Some (buf, D) /\ buffer_ok buf /\
    (length buf <= 30)%nat /\ -400 <= D <= 400 /\
    (inject_Z mm * two pe < inject_Z (val buf) * ten D < inject_Z mp * two pe)%Q.
Proof.
  intros Hpe Hmp Hmm Hgap. unfold grisu2_scaled. cbn [dy_e].
  destruct (cached_spec pe Hpe) as (Hcf & Hck & Hgood & Hrange). unfold kAlpha, kGamma in Hrange.
  set (c := get_cached_power_for_binary_exponent pe) in *.
  pose proof (mul_rounds (mkDiyfp mm pe) (mkDiyfp (cp_f c) (cp_e c)) ltac:(unfold fits; cbn [dy_f]; lia)
    ltac:(unfold fits; cbn [dy_f]; lia)) as Ewm.
  pose proof (mul_rounds (mkDiyfp mp pe) (mkDiyfp (cp_f c) (cp_e c)) ltac:(unfold fits; cbn [dy_f]; lia)
    ltac:(unfold fits; cbn [dy_f]; lia)) as Ewp.
  cbn [dy_f] in Ewm, Ewp. rewrite Ewm, Ewp.
  change (dy_e (diyfp_mul (mkDiyfp mm pe) (mkDiyfp (cp_f c) (cp_e c)))) with (pe + cp_e c + 64).
  change (dy_e (diyfp_mul (mkDiyfp mp pe) (mkDiyfp (cp_f c) (cp_e c)))) with (pe + cp_e c + 64).
  pose proof (denominator_pos c) as HB.
  pose proof (product_upper mp (cp_f c) _ _ _ ltac:(lia) HB Hgood eq_refl) as Hupper.
  pose proof (product_lower mm (cp_f c) _ _ _ ltac:(lia) HB Hgood eq_refl) as Hlower.
  assert (Hwm : 0 <= (mm * cp_f c + 2 ^ 63) / 2 ^ 64) by (apply Z.div_pos; lia).
  assert (Hwp : 2 ^ 62 <= (mp * cp_f c + 2 ^ 63) / 2 ^ 64 < 2 ^ 64).
  { split; [apply Z.div_le_lower_bound; nia |]. apply Z.div_lt_upper_bound; nia. }
  assert (Hw : (mm * cp_f c + 2 ^ 63) / 2 ^ 64 + 3 <= (mp * cp_f c + 2 ^ 63) / 2 ^ 64).
  { apply Z.div_le_lower_bound; [lia |]. pose proof (Z.mul_div_le (mm * cp_f c + 2 ^ 63) (2 ^ 64) ltac:(lia)). nia. }
  revert Hupper Hlower Hwm Hwp Hw. clear Ewm Ewp.
  generalize ((mm * cp_f c + 2 ^ 63) / 2 ^ 64), ((mp * cp_f c + 2 ^ 63) / 2 ^ 64). intros Wm Wp Hupper Hlower Hwm Hwp Hw.
  rewrite (u64_small (Wm + 1)), (u64_small (Wp - 1)) by lia.
  set (s := - (cp_e c + pe + 64)). replace (pe + cp_e c + 64) with (- s) by (unfold s; lia).
  destruct (digit_gen_spec (- cp_k c) (Wm + 1) (Wp - 1) (- s) (diyfp_mul v (mkDiyfp (cp_f c) (cp_e c))) s)
    as (buf & up & down & -> & Hup & Hdown & Hbuf & Hl & Hv); [lia.. |].
  exists buf, (- cp_k c + (up - down)). split; [done |]. split; [done |]. split; [done |]. split; [lia |].
  pose proof (Z.pow_pos_nonneg 10 down ltac:(lia) ltac:(lia)) as Ht.
  apply (unscale c mm mp pe s); [done | lia | lia | lia | |].
  - apply (Z.mul_lt_mono_pos_r (10 ^ down)) in Hlower; [| done].
    assert (2 ^ 64 * denominator c * ((Wm + 1) * 10 ^ down) <= 2 ^ 64 * denominator c * (val buf * 10 ^ up * 2 ^ s))
      by (apply Z.mul_le_mono_nonneg_l; lia). lia.
  - apply (Z.mul_lt_mono_pos_r (10 ^ down)) in Hupper; [| done].
    assert (2 ^ 64 * denominator c * (val buf * 10 ^ up * 2 ^ s) <= 2 ^ 64 * denominator c * ((Wp - 1) * 10 ^ down))
      by (apply Z.mul_le_mono_nonneg_l; lia). lia.
Qed.

(** ** Doubles and their boundaries *)

Lemma digits_bound m :
  2 ^ (Zpos (digits2_pos m) - 1) <= Zpos m < 2 ^ Zpos (digits2_pos m).
Proof.
  induction m as [m IH | m IH |]; cbn [digits2_pos]; [| | done].
  all: rewrite Pos2Z.inj_succ.
  all: replace (Z.succ (Zpos (digits2_pos m)) - 1) with (Z.succ (Zpos (digits2_pos m) - 1)) by lia.
  all: rewrite !Z.pow_succ_r by lia; lia.
Qed.

Lemma bounded_iff m e : bounded 53 1024 m e = true <->
  Zpos m < 2 ^ 53 /\ -1074 <= e <= 971 /\ (Zpos m < 2 ^ 52 -> e = -1074).
Proof.
  unfold bounded, canonical_mantissa, fexp, emin. rewrite andb_true_iff, Z.eqb_eq, Z.leb_le.
  pose proof (digits_bound m) as Hm. set (d := Zpos (digits2_pos m)) in *.
  assert (Hlt : forall k, 0 <= k -> (Zpos m < 2 ^ k <-> d <= k)).
  { intros k Hk. split; intros H.
    - apply Z.lt_succ_r. assert (d - 1 < k) by (apply (Z.pow_lt_mono_r_iff 2); lia). lia.
    - apply (Z.lt_le_trans _ (2 ^ d)); [lia |]. apply Z.pow_le_mono_r; lia. }
  rewrite !Hlt by lia. lia.
Qed.

(** The numbers strictly between these round to the double, whichever way ties
    are broken. *)
Definition lower_boundary (m : positive) (e : Z) : Q :=
  if (Zpos m =? 2 ^ 52) && (-1074 <? e)
  then inject_Z (4 * Zpos m - 1) * two (e - 2) else inject_Z (2 * Zpos m - 1) * two (e - 1).

Definition upper_boundary (m : positive) (e : Z) : Q := inject_Z (2 * Zpos m + 1) * two (e - 1).

Lemma normalize_spec x e : 0 < x < 2 ^ 64 ->
  exists j, 0 <= j <= 64 /\ normalize (mkDiyfp x e) = mkDiyfp (x * 2 ^ j) (e - j) /\ 2 ^ 63 <= x * 2 ^ j < 2 ^ 64.
Proof.
  intros Hx. apply (normalize_loop_spec 64); [lia.. |]. change (2 ^ Z.of_nat 64) with (2 ^ 64). lia.
Qed.

Lemma decode_bits m e : bounded 53 1024 m e = true ->
  (Z.shiftr (bits_of m e) 52 = 0 /\ Z.land (bits_of m e) (kHiddenBit - 1) = Zpos m /\ e = kMinExp /\ Zpos m < 2 ^ 52) \/
  (Z.shiftr (bits_of m e) 52 = e + kBias /\ 1 <= e + kBias /\
   Z.land (bits_of m e) (kHiddenBit - 1) + kHiddenBit = Zpos m).
Proof.
  rewrite bounded_iff. intros (H1 & H2 & H3). change kHiddenBit with (2 ^ 52). change kBias with 1075.
  change kMinExp with (-1074). rewrite shiftr_div, land_low by lia. unfold bits_of.
  destruct (Z.ltb_spec (Zpos m) (2 ^ 52)).
  - left. rewrite Z.div_small, Z.mod_small by lia. auto.
  - right. rewrite Z.div_add_l, (Z.div_small (Zpos m - 2 ^ 52)) by lia.
    rewrite (Z.add_comm (_ * 2 ^ 52)), Z.mod_add, Z.mod_small by lia. lia.
Qed.

Lemma two_scale x e j : 0 <= j -> (inject_Z (x * 2 ^ j) * two (e - j) == inject_Z x * two e)%Q.
Proof.
  intros Hj. rewrite inject_Z_mult, two_Z by done. rewrite <- Qmult_assoc, <- two_plus.
  replace (j + (e - j)) with e by lia. reflexivity.
Qed.

Lemma normalize_to_spec x e j : 0 <= j -> 0 <= x -> x * 2 ^ j < 2 ^ 64 ->
  normalize_to (mkDiyfp x e) (e - j) = mkDiyfp (x * 2 ^ j) (e - j).
Proof.
  intros Hj H0 Hx. unfold normalize_to. cbn [dy_e dy_f]. replace (e - (e - j)) with j by lia.
  rewrite Z.shiftl_mul_pow2 by done. rewrite u64_small; [done |]. split; [| done].
  apply Z.mul_nonneg_nonneg; [done | apply Z.pow_nonneg; lia].
Qed.

(** [compute_boundaries]: both boundaries exactly, at one exponent. *)
Lemma boundaries_spec m e : bounded 53 1024 m e = true ->
  exists mm mp pe, bo_minus (compute_boundaries (bits_of m e)) = mkDiyfp mm pe /\
    bo_plus (compute_boundaries (bits_of m e)) = mkDiyfp mp pe /\
    -1137 <= pe <= 960 /\ 2 ^ 63 <= mp < 2 ^ 64 /\ 0 < mm /\ mm + 2 ^ 9 <= mp /\
    (inject_Z mm * two pe == lower_boundary m e)%Q /\ (inject_Z mp * two pe == upper_boundary m e)%Q.
Proof.
  intros Hb. pose proof (decode_bits m e Hb) as Hd. apply bounded_iff in Hb as (Hm & He & Hsub).
  unfold compute_boundaries. set (E := Z.shiftr (bits_of m e) 52) in *.
  set (F := Z.land (bits_of m e) (kHiddenBit - 1)) in *.
  assert (Hv : (if E =? 0 then mkDiyfp F kMinExp else mkDiyfp (F + kHiddenBit) (E - kBias)) = mkDiyfp (Zpos m) e).
  { destruct Hd as [(-> & -> & -> & _) | (-> & Hpos & ->)]; [done |].
    destruct (Z.eqb_spec (e + kBias) 0); [lia |]. f_equal. lia. }
  assert (Hc : (F =? 0) && (1 <? E) = (Zpos m =? 2 ^ 52) && (-1074 <? e)).
  { change kHiddenBit with (2 ^ 52) in Hd. change kBias with 1075 in Hd.
    destruct Hd as [(-> & -> & -> & Hlt) | (-> & Hpos & Hf)].
    - destruct (Z.eqb_spec (Zpos m) (2 ^ 52)); [lia |]. by destruct (Z.eqb_spec (Zpos m) 0).
    - f_equal; [destruct (Z.eqb_spec F 0), (Z.eqb_spec (Zpos m) (2 ^ 52)); lia |].
      destruct (Z.ltb_spec 1 (e + 1075)), (Z.ltb_spec (-1074) e); lia. }
  rewrite Hv, Hc. cbn [bo_minus bo_plus dy_f dy_e].
  destruct (normalize_spec (2 * Zpos m + 1) (e - 1)) as (j & Hj & -> & Hn); [lia |]. cbn [dy_e].
  assert (Hj62 : 10 <= j <= 62).
  { split.
    - apply Z.lt_succ_r, (Z.pow_lt_mono_r_iff 2); [lia.. |]. rewrite <- Z.add_1_r, Z.pow_add_r by lia.
      change (2 ^ 63) with (2 ^ 53 * 2 ^ 10) in Hn. nia.
    - apply Z.lt_succ_r, (Z.pow_lt_mono_r_iff 2); [lia.. |]. change (2 ^ Z.succ 62) with (2 ^ 63).
      change (2 ^ 64) with (2 * 2 ^ 63) in Hn. pose proof (Z.pow_nonneg 2 j). nia. }
  assert (Hpe : -1137 <= e - 1 - j <= 960).
  { split; [| lia]. destruct (Z.le_gt_cases (2 ^ 52) (Zpos m)); [| lia]. 
    assert (j <= 11); [| lia]. apply Z.lt_succ_r, (Z.pow_lt_mono_r_iff 2); [lia.. |].
    change (2 ^ 64) with (2 ^ 52 * 2 ^ 12) in Hn. change (2 ^ Z.succ 11) with (2 ^ 12). nia. }
  pose proof (Z.pow_le_mono_r 2 10 j ltac:(lia) ltac:(lia)) as Hj10. change (2 ^ 10) with 1024 in Hj10.
  destruct ((Zpos m =? 2 ^ 52) && (-1074 <? e)) eqn:Ec.
  - assert (Hj1 : 2 ^ j = 2 * 2 ^ (j - 1))
      by (rewrite <- Z.pow_succ_r by lia; f_equal; lia).
    replace (e - 1 - j) with (e - 2 - (j - 1)) by lia.
    rewrite normalize_to_spec by nia.
    exists ((4 * Zpos m - 1) * 2 ^ (j - 1)), ((2 * Zpos m + 1) * 2 ^ j), (e - 2 - (j - 1)).
    split; [done |]. split; [done |]. split; [lia |]. split; [lia |]. split; [nia |]. split; [nia |].
    split; [rewrite two_scale by lia; unfold lower_boundary; by rewrite Ec |].
    replace (e - 2 - (j - 1)) with (e - 1 - j) by lia. by rewrite two_scale by lia.
  - rewrite normalize_to_spec by nia.
    exists ((2 * Zpos m - 1) * 2 ^ j), ((2 * Zpos m + 1) * 2 ^ j), (e - 1 - j).
    split; [done |]. split; [done |]. split; [lia |]. split; [lia |]. split; [nia |]. split; [nia |].
    split; [rewrite two_scale by lia; unfold lower_boundary; by rewrite Ec | by rewrite two_scale by lia].
Qed.

(** [grisu2] on a double: digits without a leading zero, for a number strictly
    between the boundaries. *)
Theorem grisu2_between m e : bounded 53 1024 m e = true ->
  exists buf D, grisu2 (bits_of m e) = Some (buf, D) /\ buffer_ok buf /\
    (length buf <= 30)%nat /\ -400 <= D <= 400 /\
    (lower_boundary m e < inject_Z (val buf) * ten D < upper_boundary m e)%Q.
Proof.
  intros Hb. destruct (boundaries_spec m e Hb) as (mm & mp & pe & Em & Ep & H1 & H2 & H3 & H4 & Elo & Ehi).
  unfold grisu2. rewrite Em, Ep.
  destruct (scaled_spec mm mp pe (bo_w (compute_boundaries (bits_of m e)))) as (buf & D & E & Hok & Hl & HD & Hlo & Hhi);
    [done.. |].
  exists buf, D. rewrite <- Elo, <- Ehi. done.
Qed.
