(* ===== verification/JsonPrinter.v ===== *)
(** * json.hpp: the serializer

    [serializer::dump] as [dump()] calls it (no indentation), with the integer
    conversion [dump_integer], which fills a buffer of [count_digits] characters
    from its end, two digits at a time. *)
From Stdlib Require Import ZArith Lia Ascii Floats.SpecFloat.
From stdpp Require Import base list strings pretty.
From S2P Require Import Prelude Json JsonString JsonLexer JsonGrisu.

Open Scope Z_scope.

(** ** Integers *)

(** The loop divides by 10000; five rounds are enough for 64 bits. *)
Fixpoint count_digits_loop (fuel : nat) (n_digits x : Z) : Z :=
  match fuel with
  | O => n_digits
  | S fuel =>
      if x <? 10 then n_digits
      else if x <? 100 then n_digits + 1
      else if x <? 1000 then n_digits + 2
      else if x <? 10000 then n_digits + 3
      else count_digits_loop fuel (n_digits + 4) (x / 10000)
  end.

Definition count_digits (x : Z) : Z := count_digits_loop 5 1 x.

(** [digits_to_99[i]]. *)
Definition digits_to_99 (i : Z) : ascii * ascii := (digit (i / 10), digit (i mod 10)).

(** From the end of the buffer; [acc] is what is there already.  Ten rounds are
    enough for 64 bits. *)
Fixpoint fill_digits (fuel : nat) (abs_value : Z) (acc : string) : string :=
  match fuel with
  | O => acc
  | S fuel =>
      if 100 <=? abs_value then
        let d := digits_to_99 (abs_value mod 100) in
        fill_digits fuel (abs_value / 100) (String (fst d) (String (snd d) acc))
      else if 10 <=? abs_value then
        let d := digits_to_99 abs_value in String (fst d) (String (snd d) acc)
      else String (digit abs_value) acc
  end.

(** The absolute value of a negative 64-bit integer, without overflow. *)
Definition remove_sign (x : Z) : Z := u64 (u64 (- (x + 1)) + 1).

Definition dump_integer (x : Z) : string :=
  if x =? 0 then String (digit 0) EmptyString
  else if x <? 0 then String (chr 45) (fill_digits 10 (remove_sign x) EmptyString)
  else fill_digits 10 x EmptyString.

(** [n_chars], the size of the buffer that is written out. *)
Definition n_chars (x : Z) : Z :=
  if x <? 0 then 1 + count_digits (remove_sign x) else count_digits x.

(** ** Values *)

Definition dump_float (x : spec_float) : string := if isfinite x then to_chars x else "null"%string.

Definition quote (s : string) : string := String (chr 34) (s +:+ String (chr 34) EmptyString).

(** The elements of an array and the members of an object, separated by commas;
    [dump] writes a value. *)
Definition dump_elements (dump : json -> option string) : list json -> option string :=
  fix go (l : list json) : option string :=
    match l with
    | [] => Some EmptyString
    | [x] => dump x
    | x :: l' =>
        match dump x, go l' with
        | Some t, Some t' => Some (t +:+ String (chr 44) t')
        | _, _ => None
        end
    end.

Definition dump_member (dump : json -> option string) (k : string) (x : json) : option string :=
  match dump_escaped k, dump x with
  | Some k, Some t => Some (quote k +:+ String (chr 58) t)
  | _, _ => None
  end.

Definition dump_members (dump : json -> option string) : list (string * json) -> option string :=
  fix go (o : list (string * json)) : option string :=
    match o with
    | [] => Some EmptyString
    | [(k, x)] => dump_member dump k x
    | (k, x) :: o' =>
        match dump_member dump k x, go o' with
        | Some t, Some t' => Some (t +:+ String (chr 44) t')
        | _, _ => None
        end
    end.

Definition bracket (opening closing : Z) (t : string) : string :=
  String (chr opening) (t +:+ String (chr closing) EmptyString).

(** [None] is [type_error.316], thrown on the first ill-formed string. *)
Fixpoint dump_text (j : json) : option string :=
  match j with
  | JNull => Some "null"%string
  | JBool b => Some (if b then "true" else "false")%string
  | JInt z => Some (dump_integer z)
  | JFloat f => Some (dump_float f)
  | JStr s => quote <$> dump_escaped s
  | JArr l => bracket 91 93 <$> dump_elements dump_text l
  | JObj o => bracket 123 125 <$> dump_members dump_text o
  end.

(** ** The decimal digits of an integer *)

Lemma digit_code d : 0 <= d < 10 -> code (digit d) = 48 + d.
Proof. intros. apply code_chr. lia. Qed.

Lemma digits_value_app acc s t : digits_value acc (s +:+ t) = digits_value (digits_value acc s) t.
Proof. revert acc. induction s as [| c s IH]; intros acc; [done |]. rewrite append_cons. cbn. apply IH. Qed.

(** One digit of stdpp's decimal printer. *)
Lemma pretty_step x acc :
  0 < x -> pretty_N_go (Z.to_N x) acc = pretty_N_go (Z.to_N (x / 10)) (String (digit (x mod 10)) acc).
Proof.
  intros Hx. rewrite pretty_N_go_step by lia.
  replace (Z.to_N x `div` 10)%N with (Z.to_N (x / 10)) by (rewrite Z2N.inj_div by lia; done).
  f_equal. f_equal.
  replace (Z.to_N x `mod` 10)%N with (Z.to_N (x mod 10)) by (rewrite Z2N.inj_mod by lia; done).
  pose proof (Z.mod_pos_bound x 10 ltac:(lia)) as Hm. revert Hm. generalize (x mod 10). intros d Hd.
  assert (Hc : d = 0 \/ d = 1 \/ d = 2 \/ d = 3 \/ d = 4 \/ d = 5 \/ d = 6 \/ d = 7 \/ d = 8 \/ d = 9) by lia.
  by repeat destruct Hc as [-> | Hc]; [.. | subst].
Qed.

Lemma fill_digits_pretty fuel x acc :
  0 < x < 100 ^ Z.of_nat fuel -> fill_digits fuel x acc = pretty_N_go (Z.to_N x) acc.
Proof.
  revert x acc. induction fuel as [| fuel IH]; intros x acc Hx; [cbn in Hx; lia |].
  rewrite Nat2Z.inj_succ, Z.pow_succ_r in Hx by lia. cbn [fill_digits].
  destruct (Z.leb_spec 100 x); [| destruct (Z.leb_spec 10 x)]; cbn [digits_to_99 fst snd].
  - rewrite IH by (Z.div_mod_to_equations; lia).
    rewrite (pretty_step x), (pretty_step (x / 10)) by (Z.div_mod_to_equations; lia).
    rewrite Z.div_div by lia. change (10 * 10) with 100. f_equal. f_equal; [f_equal | f_equal; f_equal].
    + Z.div_mod_to_equations; lia.
    + Z.div_mod_to_equations; lia.
  - rewrite (pretty_step x), (pretty_step (x / 10)) by (Z.div_mod_to_equations; lia).
    replace (x / 10 / 10) with 0 by (Z.div_mod_to_equations; lia).
    rewrite (Z.mod_small (x / 10) 10) by (Z.div_mod_to_equations; lia). done.
  - rewrite (pretty_step x), Z.div_small, Z.mod_small by lia. done.
Qed.

Lemma remove_sign_opp x : - 2 ^ 63 <= x < 0 -> remove_sign x = - x.
Proof.
  intros Hx. unfold remove_sign, u64. rewrite (Z.mod_small (- (x + 1))) by lia.
  rewrite Z.mod_small by lia. lia.
Qed.

(** [dump_integer] writes the decimal representation. *)
Lemma dump_integer_decimal x : - 2 ^ 63 <= x < 2 ^ 64 -> dump_integer x = pretty x.
Proof.
  intros Hx. unfold dump_integer. destruct (Z.eqb_spec x 0) as [-> | Hne]; [reflexivity |].
  destruct (Z.ltb_spec x 0).
  - rewrite remove_sign_opp, fill_digits_pretty by (cbn; lia).
    destruct x as [| p | p]; [lia.. |]. done.
  - rewrite fill_digits_pretty by (cbn; lia). destruct x as [| p | p]; [lia | | lia].
    cbn. unfold pretty, pretty_Z, pretty, pretty_N. done.
Qed.

(** *** The digits, one by one *)

Fixpoint all_digits (s : string) : Prop :=
  match s with EmptyString => True | String c s' => is_digit c = true /\ all_digits s' end.

Lemma digit_is_digit d : 0 <= d < 10 -> is_digit (digit d) = true.
Proof. intros. apply in_range_iff. rewrite digit_code by done. lia. Qed.

Lemma all_digits_app s t : all_digits s -> all_digits t -> all_digits (s +:+ t).
Proof. induction s as [| c s IH]; [done |]. rewrite append_cons. cbn. intros [? ?] ?. auto. Qed.

Lemma append_assoc s t u : (s +:+ t) +:+ u = s +:+ (t +:+ u).
Proof. induction s as [| c s IH]; [done |]. by rewrite !append_cons, IH. Qed.

Lemma append_nil s : s +:+ EmptyString = s.
Proof. induction s as [| c s IH]; [done |]. by rewrite append_cons, IH. Qed.

Lemma length_append s t : String.length (s +:+ t) = (String.length s + String.length t)%nat.
Proof. induction s as [| c s IH]; [done |]. rewrite append_cons. cbn. by rewrite IH. Qed.

(** The decimal text of a positive number: no leading zero, its digits have its
    value, and there are as many as its magnitude says. *)
Record decimal (x : Z) (c : ascii) (p : string) : Prop := {
  dec_first : 49 <= code c <= 57;
  dec_digits : all_digits p;
  dec_value : digits_value 0 (String c p) = x;
  dec_length : 10 ^ Z.of_nat (String.length p) <= x < 10 ^ Z.of_nat (S (String.length p))
}.

Lemma decimal_text x :
  0 < x -> exists c p, decimal x c p /\ forall acc, pretty_N_go (Z.to_N x) acc = String c (p +:+ acc).
Proof.
  induction x as [x IH] using (well_founded_induction (Z.lt_wf 0)). intros Hx.
  destruct (Z.ltb_spec x 10).
  - exists (digit x), EmptyString. split.
    + split; [rewrite digit_code by lia; lia | done | | cbn; lia].
      cbn [digits_value]. rewrite digit_code by lia. lia.
    + intros acc. by rewrite pretty_step, Z.div_small, Z.mod_small by lia.
  - destruct (IH (x / 10)) as (c & p & [H1 H2 H3 H4] & Hp); [Z.div_mod_to_equations; lia.. |].
    exists c, (p +:+ String (digit (x mod 10)) EmptyString).
    pose proof (Z.mod_pos_bound x 10 ltac:(lia)). split.
    + split; [done | apply all_digits_app; [done | split; [by apply digit_is_digit | done]] | |].
      * rewrite <- append_cons, digits_value_app, H3. cbn [digits_value].
        rewrite digit_code by done. Z.div_mod_to_equations; lia.
      * rewrite length_append. cbn [String.length].
        replace (String.length p + 1)%nat with (S (String.length p)) by lia.
        rewrite !Nat2Z.inj_succ, !Z.pow_succ_r in * by lia. Z.div_mod_to_equations; lia.
    + intros acc. by rewrite pretty_step, Hp, append_assoc by lia.
Qed.

Lemma count_digits_loop_ok fuel n x :
  0 < x < 10000 ^ Z.of_nat fuel ->
  exists m, 0 <= m /\ count_digits_loop fuel n x = n + m /\ 10 ^ m <= x < 10 ^ (m + 1).
Proof.
  revert n x. induction fuel as [| fuel IH]; intros n x Hx; [cbn in Hx; lia |].
  rewrite Nat2Z.inj_succ, Z.pow_succ_r in Hx by lia. cbn [count_digits_loop].
  destruct (Z.ltb_spec x 10); [exists 0; cbn; lia |]. destruct (Z.ltb_spec x 100); [exists 1; cbn; lia |].
  destruct (Z.ltb_spec x 1000); [exists 2; cbn; lia |]. destruct (Z.ltb_spec x 10000); [exists 3; cbn; lia |].
  destruct (IH (n + 4) (x / 10000)) as (m & Hm & -> & Hb); [Z.div_mod_to_equations; lia |].
  exists (4 + m). split; [lia |]. split; [lia |].
  replace (4 + m + 1) with (4 + (m + 1)) by lia. rewrite !(Z.pow_add_r 10 4) by lia.
  change (10 ^ 4) with 10000. Z.div_mod_to_equations; lia.
Qed.

Lemma count_digits_decimal x c p :
  0 < x < 2 ^ 64 -> decimal x c p -> count_digits x = Z.of_nat (S (String.length p)).
Proof.
  intros Hx [_ _ _ Hl]. destruct (count_digits_loop_ok 5 1 x) as (m & Hm & Hc & Hb); [cbn; lia |].
  unfold count_digits. rewrite Hc. rewrite Nat2Z.inj_succ in *.
  assert (m < Z.succ (Z.of_nat (String.length p))) by (apply (Z.pow_lt_mono_r_iff 10); lia).
  assert (Z.of_nat (String.length p) < m + 1) by (apply (Z.pow_lt_mono_r_iff 10); lia). lia.
Qed.

(** The buffer is filled exactly: [buffer_ptr] ends where it began. *)
Lemma dump_integer_fills x :
  - 2 ^ 63 <= x < 2 ^ 64 -> Z.of_nat (String.length (dump_integer x)) = n_chars x.
Proof.
  intros Hx. unfold dump_integer, n_chars. destruct (Z.eqb_spec x 0) as [-> |]; [reflexivity |].
  destruct (Z.ltb_spec x 0).
  - rewrite remove_sign_opp, fill_digits_pretty by (cbn; lia).
    destruct (decimal_text (- x)) as (c & p & Hd & ->); [lia |].
    rewrite (count_digits_decimal (- x) c p) by (done || lia). cbn [String.length]. rewrite append_nil. lia.
  - rewrite fill_digits_pretty by (cbn; lia).
    destruct (decimal_text x) as (c & p & Hd & ->); [lia |].
    rewrite (count_digits_decimal x c p) by (done || lia). cbn [String.length]. by rewrite append_nil.
Qed.

(** [dump_integer] writes the decimal representation of every integer of 64
    bits, signed or unsigned, and fills exactly the characters it has reserved
    with [count_digits]. *)
Theorem dump_integer_exact x : - 2 ^ 63 <= x < 2 ^ 64 ->
  dump_integer x = pretty x /\ Z.of_nat (String.length (dump_integer x)) = n_chars x.
Proof. intros Hx. split; [by apply dump_integer_decimal | by apply dump_integer_fills]. Qed.

Lemma dump_integer_exact_witness :
  - 2 ^ 63 <= - 2 ^ 63 < 2 ^ 64 /\ dump_integer (- 2 ^ 63) = "-9223372036854775808"%string /\
  (dump_integer (- 2 ^ 63) = pretty (- 2 ^ 63) /\
   Z.of_nat (String.length (dump_integer (- 2 ^ 63))) = n_chars (- 2 ^ 63)).
Proof.
  split; [split; [discriminate | reflexivity] |]. split; [vm_compute; reflexivity |].
  apply (dump_integer_exact (- 2 ^ 63)). split; [discriminate | reflexivity].
Defined.
