(* ===== verification/JsonDecimal.v ===== *)
(** * json.hpp: the text of a double

    Reading a decimal text, what is relied on of [std::strtod], and that the
    text [to_chars] writes is a number of JSON that is read as the double. *)
From Stdlib Require Import ZArith Lia Ascii QArith Qpower Lqa Floats.SpecFloat.
From stdpp Require Import base list strings.
From S2P Require Import Prelude JsonString JsonLexer JsonGrisu JsonGrisuSpec JsonPrinter.

Open Scope Z_scope.

(** ** The number a text stands for *)

(** The value of the digits at the front, how many there are, and the rest. *)
Fixpoint read_digits (acc count : Z) (s : string) : Z * Z * string :=
  match s with
  | String c s' => if is_digit c then read_digits (acc * 10 + (code c - 48)) (count + 1) s' else (acc, count, s)
  | EmptyString => (acc, count, EmptyString)
  end.

Definition read_sign (s : string) : bool * string :=
  match s with
  | String c s' => if code c =? 45 then (true, s') else if code c =? 43 then (false, s') else (false, s)
  | EmptyString => (false, s)
  end.

Definition read_exponent (s : string) : Z :=
  match s with
  | String c s' =>
      if (code c =? 101) || (code c =? 69) then
        let '(negative, s1) := read_sign s' in
        let x := fst (fst (read_digits 0 0 s1)) in if negative then - x else x
      else 0
  | EmptyString => 0
  end.

(** [n] and [x] of a number [n * 10^x] without its sign. *)
Definition read_unsigned (s : string) : Z * Z :=
  let '(n, _, s2) := read_digits 0 0 s in
  match s2 with
  | String c s3 =>
      if code c =? 46 then
        let '(n', k, s4) := read_digits n 0 s3 in (n', read_exponent s4 - k)
      else (n, read_exponent s2)
  | EmptyString => (n, 0)
  end.

Definition read_decimal (s : string) : bool * Z * Z :=
  let '(sign, s1) := read_sign s in
  let '(n, x) := read_unsigned s1 in (sign, n, x).

Definition number_text (text : string) : Prop :=
  exists ty, scan_number_text text = Some (text, ty, EmptyString).

(** [strtod] yields doubles, and rounds to the nearest one: a number between
    the boundaries of a double is converted to it. *)
Class StrtodLaws (S : Strtod) : Prop := {
  strtod_double : forall text, isfinite (strtod text) = true -> valid_binary 53 1024 (strtod text) = true;
  strtod_zero : forall text sign x,
    number_text text -> read_decimal text = (sign, 0, x) -> strtod text = S754_zero sign;
  strtod_nearest : forall text sign n x m e,
    number_text text -> read_decimal text = (sign, n, x) -> bounded 53 1024 m e = true ->
    (lower_boundary m e < inject_Z n * ten x < upper_boundary m e)%Q -> strtod text = S754_finite sign m e
}.

(** ** Digits *)

Lemma read_digits_app p rest acc count :
  all_digits p -> (forall c r, rest = String c r -> is_digit c = false) ->
  read_digits acc count (p +:+ rest) = (digits_value acc p, count + Z.of_nat (String.length p), rest).
Proof.
  intros Hp Hr. revert acc count Hp. induction p as [| c p IH]; intros acc count Hp.
  - change (EmptyString +:+ rest) with rest. cbn [digits_value String.length]. rewrite Z.add_0_r.
    destruct rest as [| c r]; [done |]. cbn [read_digits]. by rewrite (Hr c r eq_refl).
  - destruct Hp as [Hc Hp]. rewrite append_cons. cbn [read_digits]. rewrite Hc, IH by done.
    cbn [digits_value String.length]. f_equal. f_equal. lia.
Qed.

(** The digits of a buffer as a text of their own. *)
Definition digits_of (buf : list Z) : string := digits_text buf EmptyString.

Lemma digits_text_app buf rest : digits_text buf rest = digits_of buf +:+ rest.
Proof.
  unfold digits_of. revert rest. induction buf as [| d buf IH]; intros rest; [done |].
  cbn [digits_text]. rewrite IH, (IH (String _ EmptyString)), append_assoc. done.
Qed.

Lemma digits_of_cons d buf : digits_of (d :: buf) = digits_of buf +:+ String (digit d) EmptyString.
Proof. unfold digits_of at 1. cbn [digits_text]. apply digits_text_app. Qed.

Lemma digits_of_split n buf : digits_of (drop n buf) +:+ digits_of (take n buf) = digits_of buf.
Proof.
  revert n. induction buf as [| d buf IH]; intros [| n]; cbn [take drop]; try by rewrite ?append_nil.
  by rewrite !digits_of_cons, <- append_assoc, IH.
Qed.

Lemma digits_of_digits buf : Forall digit_ok buf -> all_digits (digits_of buf).
Proof.
  induction 1 as [| d buf Hd _ IH]; [done |]. rewrite digits_of_cons. apply all_digits_app; [done |].
  split; [apply digit_is_digit; destruct Hd; lia | done].
Qed.

Lemma digits_of_value buf : Forall digit_ok buf -> digits_value 0 (digits_of buf) = val buf.
Proof.
  induction 1 as [| d buf Hd _ IH]; [done |]. rewrite digits_of_cons, digits_value_app, IH.
  cbn [digits_value val]. rewrite digit_code by (destruct Hd; lia). lia.
Qed.

Lemma digits_of_length buf : String.length (digits_of buf) = length buf.
Proof.
  induction buf as [| d buf IH]; [done |]. rewrite digits_of_cons, length_append, IH. cbn. lia.
Qed.

Lemma digits_of_first buf : buffer_ok buf ->
  exists c p, digits_of buf = String c p /\ 49 <= code c <= 57 /\ all_digits p.
Proof.
  intros [Hok (x & Hx & Hx1)]. pose proof (digits_of_digits buf Hok) as Hd.
  assert (Hfirst : exists p, digits_of buf = String (digit x) p).
  { clear Hd Hx1. induction buf as [| d buf IH]; [done |]. apply Forall_cons in Hok as [_ Hok].
    rewrite digits_of_cons. destruct buf as [| b buf]; [injection Hx as ->; by exists EmptyString |].
    rewrite last_cons_cons in Hx. destruct (IH Hok Hx) as [p ->]. by eexists. }
  destruct Hfirst as [p Hp]. exists (digit x), p. rewrite Hp in Hd. destruct Hd as [_ Hd].
  split; [done |]. split; [| done]. apply last_Some_elem_of in Hx. rewrite Forall_forall in Hok.
  destruct (Hok x Hx). rewrite digit_code by lia. lia.
Qed.

Lemma zeros_app n rest : zeros n rest = zeros n EmptyString +:+ rest.
Proof. induction n as [| n IH]; [done |]. cbn [zeros]. by rewrite IH, append_cons. Qed.

Lemma zeros_digits n : all_digits (zeros n EmptyString).
Proof. induction n as [| n IH]; [done |]. by split. Qed.

Lemma zeros_value n acc : digits_value acc (zeros n EmptyString) = acc * 10 ^ Z.of_nat n.
Proof.
  revert acc. induction n as [| n IH]; intros acc; [cbn; lia |]. cbn [zeros digits_value]. rewrite IH.
  change (code (digit 0)) with 48. rewrite Nat2Z.inj_succ, Z.pow_succ_r by lia. ring.
Qed.

Lemma zeros_length n : String.length (zeros n EmptyString) = n.
Proof. induction n as [| n IH]; [done |]. cbn. by rewrite IH. Qed.

(** ** The layouts *)

Lemma is_digit_false c : (code c < 48 \/ 57 < code c) -> is_digit c = false.
Proof. intros Hc. apply not_true_iff_false. unfold is_digit. rewrite in_range_iff. lia. Qed.

(** Digits where more digits may follow. *)
Lemma scan_digits_app st ty p t ty' :
  st = scan_number_any1 \/ st = scan_number_decimal2 \/ st = scan_number_any2 -> all_digits p ->
  scan_digits st ty t = Some (t, ty', EmptyString) ->
  scan_digits st ty (p +:+ t) = Some (p +:+ t, ty', EmptyString).
Proof.
  intros Hst Hp Ht. induction p as [| c p IH]; [done |]. destruct Hp as [Hc Hp].
  rewrite append_cons. cbn [scan_digits].
  assert (next_state st (Some c) = goto st) as -> by (destruct Hst as [-> | [-> | ->]]; cbn; by rewrite Hc).
  assert (enter st ty = ty) as -> by (by destruct Hst as [-> | [-> | ->]]). by rewrite (IH Hp).
Qed.

Lemma scan_fraction st ty c p t :
  st = scan_number_zero \/ st = scan_number_any1 -> all_digits (String c p) ->
  scan_digits scan_number_decimal2 type_float t = Some (t, type_float, EmptyString) ->
  scan_digits st ty (String (chr 46) (String c p +:+ t)) =
  Some (String (chr 46) (String c p +:+ t), type_float, EmptyString).
Proof.
  intros Hst [Hc Hp] Ht. cbn [scan_digits].
  assert (next_state st (Some (chr 46)) = goto scan_number_decimal1) as -> by (by destruct Hst as [-> | ->]).
  rewrite append_cons. cbn [scan_digits next_state enter]. rewrite Hc. cbn [enter].
  rewrite (scan_digits_app scan_number_decimal2 type_float p t type_float); auto.
Qed.

Lemma append_exponent_spec x : -1000 < x < 1000 ->
  exists c p, append_exponent x = String (chr (if x <? 0 then 45 else 43)) (String c p) /\
    all_digits (String c p) /\ digits_value 0 (String c p) = Z.abs x.
Proof.
  intros Hx. unfold append_exponent.
  assert ((if x <? 0 then (45, - x) else (43, x)) = (if x <? 0 then 45 else 43, Z.abs x)) as ->
    by (destruct (Z.ltb_spec x 0); f_equal; lia).
  revert Hx. generalize (if x <? 0 then 45 else 43). intros sgn Hx.
  set (k := Z.abs x). assert (Hk : 0 <= k < 1000) by lia. clearbody k.
  destruct (Z.ltb_spec k 10); [| destruct (Z.ltb_spec k 100)]; eexists _, _; (split; [reflexivity |]);
    cbn [all_digits digits_value]; rewrite !digit_code by (Z.div_mod_to_equations; lia);
    repeat split; try apply digit_is_digit; Z.div_mod_to_equations; lia.
Qed.

Lemma scan_exponent st ty x : -1000 < x < 1000 ->
  st = scan_number_any1 \/ st = scan_number_decimal2 ->
  scan_digits st ty (String (chr 101) (append_exponent x)) =
  Some (String (chr 101) (append_exponent x), type_float, EmptyString).
Proof.
  intros Hx Hst. destruct (append_exponent_spec x Hx) as (c & p & -> & [Hc Hp] & _).
  set (sign := chr (if x <? 0 then 45 else 43)). cbn [scan_digits].
  assert (next_state st (Some (chr 101)) = goto scan_number_exponent) as -> by (by destruct Hst as [-> | ->]).
  cbn [enter]. assert (next_state scan_number_exponent (Some sign) = goto scan_number_sign) as ->
    by (unfold sign; by destruct (x <? 0)).
  cbn [enter next_state]. rewrite Hc. cbn [enter].
  pose proof (scan_digits_app scan_number_any2 type_float p EmptyString type_float
    (or_intror (or_intror eq_refl)) Hp eq_refl) as E.
  rewrite append_nil in E. by rewrite E.
Qed.

Lemma read_exponent_append x : -1000 < x < 1000 -> read_exponent (String (chr 101) (append_exponent x)) = x.
Proof.
  intros Hx. destruct (append_exponent_spec x Hx) as (c & p & -> & Hd & Hv). cbn [read_exponent].
  change ((code (chr 101) =? 101) || (code (chr 101) =? 69)) with true. cbv iota.
  assert (read_sign (String (chr (if x <? 0 then 45 else 43)) (String c p)) = (x <? 0, String c p)) as ->
    by (by destruct (x <? 0)).
  pose proof (read_digits_app (String c p) EmptyString 0 0 Hd ltac:(done)) as E. rewrite append_nil in E.
  rewrite E, Hv. cbn [fst]. destruct (Z.ltb_spec x 0); lia.
Qed.

(** What follows the digits behind the point: nothing, or an exponent. *)
Definition no_digit (t : string) : Prop := forall c r, t = String c r -> is_digit c = false.

Lemma read_fraction p0 p1 t : all_digits p0 -> all_digits p1 -> no_digit t ->
  read_unsigned (p0 +:+ String (chr 46) (p1 +:+ t)) =
  (digits_value (digits_value 0 p0) p1, read_exponent t - Z.of_nat (String.length p1)).
Proof.
  intros H0 H1 Ht. unfold read_unsigned. rewrite read_digits_app; [| done | by intros c r [= <- _]].
  change (code (chr 46) =? 46) with true. cbv iota. by rewrite read_digits_app.
Qed.

Lemma read_integer p0 e : all_digits p0 ->
  read_unsigned (p0 +:+ String (chr 101) e) = (digits_value 0 p0, read_exponent (String (chr 101) e)).
Proof.
  intros H0. unfold read_unsigned. by rewrite read_digits_app; [| done | by intros c r [= <- _]].
Qed.

(** A text without its sign: a number of JSON of value [n * 10^x]. *)
Definition body_ok (body : string) (n x : Z) : Prop :=
  (exists c p st, body = String c p /\
    (code c = 48 /\ st = scan_number_zero \/ 49 <= code c <= 57 /\ st = scan_number_any1) /\
    forall ty, scan_digits st ty p = Some (p, type_float, EmptyString)) /\
  read_unsigned body = (n, x).

Lemma body_signed (sign : bool) body n x : body_ok body n x ->
  let text := if sign then String (chr 45) body else body in
  scan_number_text text = Some (text, type_float, EmptyString) /\ read_decimal text = (sign, n, x).
Proof.
  intros [(c & p & st & -> & Hc & Hs) Hr]. cbv zeta.
  assert (Hd : is_digit c = true) by (apply in_range_iff; lia).
  assert (H45 : (code c =? 45) = false) by (apply Z.eqb_neq; lia).
  assert (H43 : (code c =? 43) = false) by (apply Z.eqb_neq; lia).
  assert (H48 : (code c =? 48) = match st with scan_number_zero => true | _ => false end).
  { destruct Hc as [[-> ->] | [? ->]]; [done | apply Z.eqb_neq; lia]. }
  assert (Hst : st = scan_number_zero \/ st = scan_number_any1) by (destruct Hc as [[_ ->] | [_ ->]]; auto).
  unfold read_decimal. destruct sign; cbn [scan_number_text read_sign].
  - change (scan_number_init (chr 45)) with (goto scan_number_minus). change (code (chr 45) =? 45) with true.
    cbn [scan_digits next_state enter]. rewrite H48, Hd, Hr. cbv iota.
    destruct Hst as [-> | ->]; cbn [enter]; by rewrite Hs.
  - unfold scan_number_init. rewrite H45, H43, H48, Hd, Hr. destruct Hst as [-> | ->]; by rewrite Hs.
Qed.

Lemma ten_shift n j x : 0 <= j -> (inject_Z (n * 10 ^ j) * ten x == inject_Z n * ten (j + x))%Q.
Proof. intros Hj. rewrite inject_Z_mult, ten_Z, ten_plus by done. ring. Qed.

(** Digits, a point somewhere between them, and an exponent. *)
Lemma point_body buf after t : buffer_ok buf -> (0 < after < length buf)%nat ->
  no_digit t -> scan_digits scan_number_decimal2 type_float t = Some (t, type_float, EmptyString) ->
  body_ok (point_text buf after +:+ t) (val buf) (read_exponent t - Z.of_nat after).
Proof.
  intros Hb Hafter Hnd Ht. destruct (digits_of_first buf Hb) as (c0 & p0 & Hfirst & Hc0 & Hp0).
  destruct Hb as [Hok _]. unfold point_text. rewrite digits_text_app, append_assoc, append_cons.
  fold (digits_of (take after buf)).
  pose proof (digits_of_split after buf) as Hsplit.
  assert (Hhi : all_digits (digits_of (drop after buf))) by (apply digits_of_digits; by apply Forall_drop).
  assert (Hlo : all_digits (digits_of (take after buf))) by (apply digits_of_digits; by apply Forall_take).
  assert (Hlen : String.length (digits_of (take after buf)) = after) by (rewrite digits_of_length, length_take; lia).
  split.
  - destruct (digits_of (drop after buf)) as [| c p] eqn:Ehi.
    { pose proof (digits_of_length (drop after buf)) as Hl. rewrite Ehi, length_drop in Hl. cbn in Hl. lia. }
    rewrite Hfirst, append_cons in Hsplit. assert (c = c0) as -> by (by inversion Hsplit).
    exists c0, (p +:+ String (chr 46) (digits_of (take after buf) +:+ t)), scan_number_any1.
    rewrite append_cons. split; [done |]. split; [by right |]. intros ty. destruct Hhi as [_ Hp].
    apply scan_digits_app; [by left | done |].
    destruct (digits_of (take after buf)) as [| d q]; [cbn in Hlen; lia |]. apply scan_fraction; auto.
  - rewrite read_fraction by done. rewrite <- digits_value_app, Hsplit, digits_of_value, Hlen by done. done.
Qed.

(** The four layouts of [format_buffer]. *)
Section layouts.
Context (buf : list Z) (Hb : buffer_ok buf).

Lemma buffer_text : exists c0 p0, digits_of buf = String c0 p0 /\ 49 <= code c0 <= 57 /\ all_digits p0 /\
  all_digits (digits_of buf) /\ digits_value 0 (digits_of buf) = val buf.
Proof using Hb.
  destruct (digits_of_first buf Hb) as (c0 & p0 & ? & ? & ?). destruct Hb as [Hok _].
  exists c0, p0. repeat (split; [done |]). split; [by apply digits_of_digits | by apply digits_of_value].
Qed.

Lemma integer_body z :
  body_ok (digits_text buf (zeros z (String (chr 46) (String (digit 0) EmptyString))))
    (val buf * 10 ^ Z.of_nat z * 10) (-1).
Proof using Hb.
  destruct buffer_text as (c0 & p0 & Hfirst & Hc0 & Hp0 & Hd & Hv). rewrite digits_text_app, zeros_app. split.
  - exists c0, (p0 +:+ zeros z EmptyString +:+ ".0"%string), scan_number_any1.
    rewrite Hfirst, append_cons. split; [done |]. split; [by right |]. intros ty.
    apply scan_digits_app; [by left | done |]. apply scan_digits_app; [by left | apply zeros_digits | done].
  - rewrite <- append_assoc.
    change (String (chr 46) (String (digit 0) EmptyString))
      with (String (chr 46) (String (digit 0) EmptyString +:+ EmptyString)).
    rewrite read_fraction; [| apply all_digits_app; [done | apply zeros_digits] | done | done].
    rewrite digits_value_app, Hv, zeros_value. f_equal.
    change (digits_value (val buf * 10 ^ Z.of_nat z) (String (digit 0) EmptyString))
      with (val buf * 10 ^ Z.of_nat z * 10 + 0). lia.
Qed.

Lemma small_body z :
  body_ok (String (digit 0) (String (chr 46) (zeros z (digits_of buf)))) (val buf)
    (0 - (Z.of_nat z + Z.of_nat (length buf))).
Proof using Hb.
  destruct buffer_text as (c0 & p0 & Hfirst & Hc0 & Hp0 & Hd & Hv). pose proof (zeros_digits z) as Hz.
  assert (Ha : all_digits (zeros z EmptyString +:+ digits_of buf)) by by apply all_digits_app.
  rewrite zeros_app. split.
  - exists (digit 0), (String (chr 46) (zeros z EmptyString +:+ digits_of buf)), scan_number_zero.
    split; [done |]. split; [by left |]. intros ty.
    destruct (zeros z _ +:+ digits_of buf) as [| c p] eqn:Ez.
    { apply (f_equal String.length) in Ez. rewrite length_append, Hfirst in Ez. cbn in Ez. lia. }
    rewrite <- (append_nil (String c p)). apply scan_fraction; auto.
  - change (String (digit 0) (String (chr 46) (zeros z EmptyString +:+ digits_of buf)))
      with (String (digit 0) EmptyString +:+ String (chr 46) (zeros z EmptyString +:+ digits_of buf)).
    rewrite <- (append_nil (zeros _ _ +:+ digits_of buf)). rewrite read_fraction by done.
    rewrite digits_value_app, zeros_value. change (digits_value 0 (String (digit 0) EmptyString)) with 0.
    rewrite Z.mul_0_l, Hv, length_append, zeros_length, digits_of_length. f_equal. cbn [read_exponent]. lia.
Qed.

Lemma exponent_body x : -1000 < x < 1000 ->
  body_ok (digits_of buf +:+ String (chr 101) (append_exponent x)) (val buf) x.
Proof using Hb.
  intros Hx. destruct buffer_text as (c0 & p0 & Hfirst & Hc0 & Hp0 & Hd & Hv). split.
  - rewrite Hfirst, append_cons. exists c0, (p0 +:+ String (chr 101) (append_exponent x)), scan_number_any1.
    split; [done |]. split; [by right |]. intros ty.
    apply scan_digits_app; [by left | done |]. apply scan_exponent; auto.
  - rewrite read_integer, read_exponent_append, Hv by done. done.
Qed.
End layouts.

Lemma layout buf D : buffer_ok buf -> (length buf <= 30)%nat -> -400 <= D <= 400 ->
  exists n x, body_ok (format_buffer buf D) n x /\ (inject_Z n * ten x == inject_Z (val buf) * ten D)%Q.
Proof.
  intros Hb Hl HD. unfold format_buffer. set (k := Z.of_nat (length buf)). set (n := k + D).
  assert (Hk : 1 <= k) by (destruct Hb as [_ (d & Hd & _)]; destruct buf; [done | cbn in k; lia]).
  destruct ((k <=? n) && (n <=? kMaxExp10)) eqn:E1; [| destruct ((0 <? n) && (n <=? kMaxExp10)) eqn:E2;
    [| destruct ((kMinExp10 <? n) && (n <=? 0)) eqn:E3]].
  - apply andb_true_iff in E1 as [E1%Z.leb_le _]. eexists _, _. split; [by apply integer_body |].
    rewrite <- Z.mul_assoc. change 10 with (10 ^ 1) at 2. rewrite <- Z.pow_add_r, ten_shift by lia.
    replace (Z.of_nat (Z.to_nat (n - k)) + 1 + -1) with D by lia. reflexivity.
  - apply andb_true_iff in E2 as [E2%Z.ltb_lt E2'%Z.leb_le].
    apply andb_false_iff in E1. rewrite !Z.leb_gt in E1. assert (n < k) by (unfold kMaxExp10 in *; lia).
    exists (val buf), (0 - Z.of_nat (Z.to_nat (k - n))). split.
    + rewrite <- (append_nil (point_text _ _)). by apply point_body; [| lia | |].
    + replace (0 - Z.of_nat (Z.to_nat (k - n))) with D by lia. reflexivity.
  - apply andb_true_iff in E3 as [E3%Z.ltb_lt E3'%Z.leb_le]. eexists _, _. split; [by apply small_body |].
    replace (0 - (Z.of_nat (Z.to_nat (- n)) + Z.of_nat (length buf))) with D by lia. reflexivity.
  - exists (val buf), D. split; [| reflexivity]. assert (Hn : -1000 < n - 1 < 1000) by lia.
    destruct (Z.eqb_spec k 1) as [Hk1 | Hk1].
    + replace D with (n - 1) by lia. by apply exponent_body.
    + replace D with (read_exponent (String (chr 101) (append_exponent (n - 1))) - Z.of_nat (Z.to_nat (k - 1)))
        by (rewrite read_exponent_append by done; lia).
      apply point_body; [done | lia | by intros c r [= <- _] |]. apply scan_exponent; auto.
Qed.

(** ** Doubles *)

(** What [to_chars] writes is a number of JSON, of a value between the boundaries
    of the double. *)
Lemma to_chars_spec f : is_double f ->
  scan_number_text (to_chars f) = Some (to_chars f, type_float, EmptyString) /\
  exists sign n x, read_decimal (to_chars f) = (sign, n, x) /\
    match f with
    | S754_finite s m e => sign = s /\ (lower_boundary m e < inject_Z n * ten x < upper_boundary m e)%Q
    | _ => f = S754_zero sign /\ n = 0
    end.
Proof.
  intros [Hf Hv]. destruct f as [s | | | s m e]; try done.
  { split; [by destruct s |]. exists s, 0, (-1). split; [by destruct s | done]. }
  destruct (grisu2_between m e Hv) as (buf & D & E & Hb & Hl & HD & Hlo & Hhi).
  destruct (layout buf D Hb Hl HD) as (n & x & Hbody & Hq).
  unfold to_chars. rewrite E. destruct (body_signed s _ _ _ Hbody) as [Hs Hr]. split; [done |].
  exists s, n, x. split; [done |]. split; [done |]. by rewrite Hq.
Qed.

(** A double is read back from its text. *)
Lemma strtod_to_chars `{L : StrtodLaws} f : is_double f -> strtod (to_chars f) = f.
Proof.
  intros Hf. pose proof Hf as [Hfin Hv]. destruct (to_chars_spec f Hf) as (Hs & sign & n & x & Hr & Hx).
  assert (Hn : number_text (to_chars f)) by by eexists.
  destruct f as [s | | | s m e]; try done.
  - destruct Hx as [[= ->] ->]. by eapply strtod_zero.
  - destruct Hx as [-> Hx]. by eapply strtod_nearest.
Qed.

(** ** The size of the text *)

Lemma append_exponent_length x : (String.length (append_exponent x) <= 4)%nat.
Proof.
  unfold append_exponent. destruct (x <? 0); destruct (_ <? 10); try destruct (_ <? 100); cbn [String.length]; lia.
Qed.

Lemma point_text_length buf after : String.length (point_text buf after) = S (length buf).
Proof.
  unfold point_text. rewrite digits_text_app, length_append. cbn [String.length]. fold (digits_of (take after buf)).
  rewrite !digits_of_length, length_drop, length_take. lia.
Qed.

Lemma format_buffer_length buf D : (length buf <= 30)%nat -> (String.length (format_buffer buf D) <= 36)%nat.
Proof.
  intros Hl. unfold format_buffer. set (k := Z.of_nat (length buf)). set (n := k + D).
  destruct ((k <=? n) && (n <=? kMaxExp10)) eqn:E1; [| destruct ((0 <? n) && (n <=? kMaxExp10)) eqn:E2;
    [| destruct ((kMinExp10 <? n) && (n <=? 0)) eqn:E3]].
  - apply andb_true_iff in E1 as [E1%Z.leb_le E1'%Z.leb_le]. unfold kMaxExp10 in E1'.
    rewrite digits_text_app, zeros_app, !length_append, digits_of_length, zeros_length. cbn [String.length]. lia.
  - rewrite point_text_length. lia.
  - apply andb_true_iff in E3 as [E3%Z.ltb_lt E3'%Z.leb_le]. unfold kMinExp10 in E3. cbn [String.length].
    rewrite zeros_app, length_append, zeros_length. fold (digits_of buf). rewrite digits_of_length. lia.
  - rewrite length_append. cbn [String.length]. pose proof (append_exponent_length (n - 1)).
    destruct (k =? 1); [fold (digits_of buf); rewrite digits_of_length | rewrite point_text_length]; lia.
Qed.

(** C36. [to_chars]: the text of a finite double is a number of JSON, fits in the
    buffer of 64 characters, and is converted back to the double. *)
Theorem to_chars_roundtrip `{L : StrtodLaws} f : is_double f ->
  scan_number_text (to_chars f) = Some (to_chars f, type_float, EmptyString) /\
  (String.length (to_chars f) <= 64)%nat /\ strtod (to_chars f) = f.
Proof.
  intros Hf. split; [by apply to_chars_spec |]. split; [| by apply strtod_to_chars].
  destruct Hf as [Hfin Hv]. destruct f as [s | | | s m e]; try done; [destruct s; cbn; lia |].
  destruct (grisu2_between m e Hv) as (buf & D & E & _ & Hl & _). unfold to_chars. rewrite E.
  pose proof (format_buffer_length buf D Hl). destruct s; cbn [String.length]; lia.
Qed.
