(* ===== verification/JsonStrtod.v ===== *)
(** * A conversion of decimal texts to doubles

    An instance of [Strtod] that rounds to the nearest double, ties to even, and
    the laws for it: they can be satisfied, and the parser can be run. *)
From Stdlib Require Import ZArith Lia QArith Qpower Lqa Floats.SpecFloat.
From stdpp Require Import base strings.
From S2P Require Import Prelude JsonLexer JsonGrisu JsonGrisuSpec JsonDecimal.

Open Scope Z_scope.

(** ** Rounding *)

(** The exponent of the power of two at or below [a / b]. *)
Definition ratio_log2 (a b : Z) : Z :=
  let e := Z.log2 a - Z.log2 b in
  if a * 2 ^ Z.max (- e) 0 <? b * 2 ^ Z.max e 0 then e - 1 else e.

(** The integer nearest to [a / b]. *)
Definition nearest (a b : Z) : Z :=
  let q := a / b in
  let r := a mod b in
  if (b <? 2 * r) || ((b =? 2 * r) && Z.odd q) then q + 1 else q.

(** The double nearest to [a / b]. *)
Definition round_ratio (sign : bool) (a b : Z) : spec_float :=
  let e := Z.max (ratio_log2 a b - 52) (-1074) in
  let q := nearest (a * 2 ^ Z.max (- e) 0) (b * 2 ^ Z.max e 0) in
  let '(m, e) := if q =? 2 ^ 53 then (2 ^ 52, e + 1) else (q, e) in
  if m <=? 0 then S754_zero sign
  else if 971 <? e then S754_infinity sign
  else S754_finite sign (Z.to_pos m) e.

(** The double nearest to [n * 10^x]. *)
Definition round_decimal (sign : bool) (n x : Z) : spec_float :=
  if n <=? 0 then S754_zero sign else round_ratio sign (n * 10 ^ Z.max x 0) (10 ^ Z.max (- x) 0).

Definition exact_strtod : Strtod := fun text =>
  let '(sign, n, x) := read_decimal text in
  let f := round_decimal sign n x in
  if valid_binary 53 1024 f then f else S754_nan.

(** ** It is the nearest double *)

Lemma two_succ x : (two (x + 1) == 2 * two x)%Q.
Proof. rewrite two_plus. change (two 1) with 2%Q. ring. Qed.

Lemma two_lt_inv x y : (two x < two y)%Q -> x < y.
Proof. intros H. by apply (Qpower_lt_compat_l_inv 2). Qed.

Lemma inject_lt_iff x y : (inject_Z x < inject_Z y)%Q <-> x < y.
Proof. by rewrite Zlt_Qlt. Qed.

Lemma inject_le_iff x y : (inject_Z x <= inject_Z y)%Q <-> x <= y.
Proof. by rewrite Zle_Qle. Qed.

(** An integer nearer than a half. *)
Lemma nearest_spec A B q : 0 < B -> (2 * q - 1) * B < 2 * A < (2 * q + 1) * B -> nearest A B = q.
Proof.
  intros HB [H1 H2]. unfold nearest. pose proof (Z.div_mod A B ltac:(lia)) as Hd.
  pose proof (Z.mod_pos_bound A B HB) as Hm. set (d := A / B) in *. set (r := A mod B) in *. clearbody d r.
  assert (Hq : q = d \/ q = d + 1) by nia.
  destruct Hq as [-> | ->].
  - destruct (Z.ltb_spec B (2 * r)); [nia |]. destruct (Z.eqb_spec B (2 * r)); [nia | done].
  - destruct (Z.ltb_spec B (2 * r)); [done |]. nia.
Qed.

Section ratio.
Context (a b : Z) (v : Q) (Ha : 0 < a) (Hb : 0 < b) (Hv : (inject_Z a == v * inject_Z b)%Q).

Lemma b_pos : (0 < inject_Z b)%Q.
Proof using Hb. by apply (inject_lt_iff 0). Qed.

(** Scaling by a power of two. *)
Lemma scaled_ratio e :
  (inject_Z (a * 2 ^ Z.max (- e) 0) == v * two (- e) * inject_Z (b * 2 ^ Z.max e 0))%Q.
Proof using Hv.
  rewrite !inject_Z_mult, !two_Z, Hv by lia.
  assert (Hw : (two (Z.max (- e) 0) == two (- e) * two (Z.max e 0))%Q)
    by (rewrite <- two_plus; replace (- e + Z.max e 0) with (Z.max (- e) 0) by lia; reflexivity).
  rewrite Hw. ring.
Qed.

Lemma scaled_pos e : 0 < b * 2 ^ Z.max e 0.
Proof using Hb. apply Z.mul_pos_pos; [done | apply Z.pow_pos_nonneg; lia]. Qed.

Lemma ratio_log2_spec : (two (ratio_log2 a b) <= v < two (ratio_log2 a b + 1))%Q.
Proof using Ha Hb Hv.
  unfold ratio_log2. set (e := Z.log2 a - Z.log2 b). pose proof b_pos as Hbq.
  pose proof (Z.log2_spec a Ha) as [Ha1 Ha2]. pose proof (Z.log2_spec b Hb) as [Hb1 Hb2].
  pose proof (Z.log2_nonneg a). pose proof (Z.log2_nonneg b).
  apply inject_le_iff in Ha1, Hb1. apply inject_lt_iff in Ha2, Hb2.
  rewrite two_Z in Ha1, Ha2, Hb1, Hb2 by lia. rewrite <- Z.add_1_r in Ha2, Hb2.
  rewrite (two_succ (Z.log2 a)) in Ha2. rewrite (two_succ (Z.log2 b)) in Hb2.
  assert (Hea : (two (Z.log2 a) == two e * two (Z.log2 b))%Q)
    by (rewrite <- two_plus; unfold e; replace (Z.log2 a - Z.log2 b + Z.log2 b) with (Z.log2 a) by lia; reflexivity).
  pose proof (two_pos e) as He. pose proof (two_pos (Z.log2 b)) as Hl.
  assert (Hnear : (two e < 2 * v /\ v < 2 * two e)%Q).
  { split; apply (Qmult_lt_r _ _ (inject_Z b) Hbq); nra. }
  pose proof (scaled_ratio e) as Hs. pose proof (scaled_pos e) as Hp.
  set (A := a * _) in *. set (B := b * _) in *.
  assert (Hen : (two (- e) * two e == 1)%Q) by (rewrite <- two_plus; replace (- e + e) with 0 by lia; reflexivity).
  apply inject_lt_iff in Hp. change (inject_Z 0) with 0%Q in Hp.
  destruct (Z.ltb_spec A B) as [Hlt | Hle].
  - apply inject_lt_iff in Hlt. rewrite Hs in Hlt.
    assert (Hw : (v * two (- e) < 1)%Q) by (apply (Qmult_lt_r _ _ (inject_Z B) Hp); lra).
    assert (Hve : (v < two e)%Q).
    { apply (Qmult_lt_r _ _ (two (- e)) (two_pos _)). rewrite (Qmult_comm (two e)), Hen. exact Hw. }
    pose proof (two_succ (e - 1)) as H1. replace (e - 1 + 1) with e in * by lia. split; lra.
  - apply inject_le_iff in Hle. rewrite Hs in Hle.
    assert (Hw : (1 <= v * two (- e))%Q) by (apply (Qmult_le_r _ _ (inject_Z B) Hp); lra).
    assert (Hve : (two e <= v)%Q).
    { apply (Qmult_le_r _ _ (two (- e)) (two_pos _)). rewrite (Qmult_comm (two e)), Hen. exact Hw. }
    rewrite two_succ. split; lra.
Qed.

(** The exponent is the one of the power of two below the ratio. *)
Lemma ratio_log2_unique t : (two t <= v < two (t + 1))%Q -> ratio_log2 a b = t.
Proof using Ha Hb Hv.
  intros [H1 H2]. pose proof ratio_log2_spec as [H3 H4].
  assert (ratio_log2 a b < t + 1) by (apply two_lt_inv; lra).
  assert (t < ratio_log2 a b + 1) by (apply two_lt_inv; lra). lia.
Qed.

Lemma ratio_log2_below t : (v < two t)%Q -> ratio_log2 a b < t.
Proof using Ha Hb Hv. intros H. pose proof ratio_log2_spec as [H3 H4]. apply two_lt_inv. lra. Qed.

Lemma nearest_ratio q e :
  (inject_Z (2 * q - 1) * two (e - 1) < v < inject_Z (2 * q + 1) * two (e - 1))%Q ->
  nearest (a * 2 ^ Z.max (- e) 0) (b * 2 ^ Z.max e 0) = q.
Proof using Ha Hb Hv.
  intros [H1 H2]. apply nearest_spec; [apply scaled_pos |].
  pose proof (scaled_ratio e) as Hs. pose proof (scaled_pos e) as Hp. set (A := a * _) in *. set (B := b * _) in *.
  apply inject_lt_iff in Hp. change (inject_Z 0) with 0%Q in Hp.
  assert (Hen : (two (e - 1) * (2 * two (- e)) == 1)%Q).
  { rewrite <- two_succ, <- two_plus. replace (e - 1 + (- e + 1)) with 0 by lia. reflexivity. }
  assert (Hw : (0 < 2 * two (- e) * inject_Z B)%Q) by (pose proof (two_pos (- e)); nra).
  assert (E : (inject_Z (2 * A) == v * (2 * two (- e) * inject_Z B))%Q) by (rewrite inject_Z_mult, Hs; ring).
  assert (Em : forall m, (inject_Z (m * B) == inject_Z m * two (e - 1) * (2 * two (- e) * inject_Z B))%Q).
  { intros m. rewrite inject_Z_mult. transitivity (inject_Z m * (two (e - 1) * (2 * two (- e))) * inject_Z B)%Q;
      [rewrite Hen; ring | ring]. }
  split; apply inject_lt_iff; rewrite E, Em; by apply Qmult_lt_r.
Qed.
End ratio.

Lemma two_mono x y : x <= y -> (two x <= two y)%Q.
Proof. intros H. apply Qpower_le_compat_l; [done | by vm_compute]. Qed.

(** [k * 2^e] below a power of two. *)
Lemma scale_le k e j : 0 <= j -> k <= 2 ^ j -> (inject_Z k * two e <= two (e + j))%Q.
Proof.
  intros Hj Hk. rewrite two_plus, <- (two_Z j), Qmult_comm by done.
  apply inject_le_iff in Hk. pose proof (two_pos e). nra.
Qed.

Lemma scale_ge k e j : 0 <= j -> 2 ^ j <= k -> (two (e + j) <= inject_Z k * two e)%Q.
Proof.
  intros Hj Hk. rewrite two_plus, <- (two_Z j), Qmult_comm by done.
  apply inject_le_iff in Hk. pose proof (two_pos e). nra.
Qed.

Section round.
Context (a b : Z) (v : Q) (Ha : 0 < a) (Hb : 0 < b) (Hv : (inject_Z a == v * inject_Z b)%Q).
Context (m : positive) (e : Z) (Hm : bounded 53 1024 m e = true)
  (Hlo : (lower_boundary m e < v)%Q) (Hhi : (v < upper_boundary m e)%Q).

(** The lower boundary is not below half a unit. *)
Lemma lower_half : (inject_Z (2 * Zpos m - 1) * two (e - 1) <= lower_boundary m e)%Q.
Proof using Type.
  unfold lower_boundary. destruct (_ && _); [| lra].
  replace (e - 1) with (e - 2 + 1) by lia. rewrite two_succ.
  assert (H : (inject_Z (2 * (2 * Zpos m - 1)) <= inject_Z (4 * Zpos m - 1))%Q) by (apply inject_le_iff; lia).
  rewrite inject_Z_mult in H. change (inject_Z 2) with 2%Q in H. pose proof (two_pos (e - 2)). nra.
Qed.

(** Unless the ratio is below a power of two, its exponent is that of the double. *)
Lemma exponent_same : (Zpos m <> 2 ^ 52 \/ e = -1074 \/ (two (e + 52) <= v)%Q) ->
  Z.max (ratio_log2 a b - 52) (-1074) = e.
Proof using Ha Hb Hv Hm Hlo Hhi.
  intros Hcase. apply bounded_iff in Hm as (H53 & He & Hsub). pose proof lower_half as Hh.
  assert (Htop : forall k, 2 * Zpos m + 1 <= 2 ^ k -> 0 <= k -> (v < two (e - 1 + k))%Q).
  { intros k Hk Hk0. eapply Qlt_le_trans; [exact Hhi |]. by apply scale_le. }
  destruct (Z.lt_ge_cases (Zpos m) (2 ^ 52)) as [Hlt | Hge].
  - specialize (Hsub Hlt). pose proof (Htop 53 ltac:(lia) ltac:(lia)) as H1.
    apply (ratio_log2_below a b v Ha Hb Hv) in H1. lia.
  - pose proof (Htop 54 ltac:(lia) ltac:(lia)) as H1.
    assert (Hbelow : (two (e + 52) <= v)%Q \/ e = -1074 /\ Zpos m = 2 ^ 52).
    { destruct (Z.eq_dec (Zpos m) (2 ^ 52)) as [E | E].
      - destruct Hcase as [Hc | [Hc | Hc]]; [done | by right | by left].
      - left. apply Qlt_le_weak. eapply Qle_lt_trans; [| exact Hlo]. eapply Qle_trans; [| exact Hh].
        replace (e + 52) with (e - 1 + 53) by lia. apply scale_ge; lia. }
    destruct Hbelow as [Hbelow | [-> E]].
    + rewrite (ratio_log2_unique a b v Ha Hb Hv (e + 52)); [lia |]. split; [done |].
      replace (e + 52 + 1) with (e - 1 + 54) by lia. done.
    + apply (ratio_log2_below a b v Ha Hb Hv) in H1. destruct (Z.eq_dec (ratio_log2 a b) (-1022)); lia.
Qed.

Lemma round_same sign : Z.max (ratio_log2 a b - 52) (-1074) = e -> round_ratio sign a b = S754_finite sign m e.
Proof using Ha Hb Hv Hm Hlo Hhi.
  intros Hsame. apply bounded_iff in Hm as (H53 & He & _). unfold round_ratio. rewrite Hsame.
  rewrite (nearest_ratio a b v Ha Hb Hv (Zpos m) e).
  - destruct (Z.eqb_spec (Zpos m) (2 ^ 53)); [lia |]. cbn [Z.leb Z.compare Z.to_pos].
    destruct (Z.ltb_spec 971 e); [lia | done].
  - split; [eapply Qle_lt_trans; [apply lower_half | exact Hlo] | exact Hhi].
Qed.

(** Below a power of two the unit is half as large; the ratio is rounded up to
    the power. *)
Lemma round_below sign : Zpos m = 2 ^ 52 -> -1074 < e -> (v < two (e + 52))%Q ->
  round_ratio sign a b = S754_finite sign m e.
Proof using Ha Hb Hv Hm Hlo Hhi.
  intros Em He Hbelow. apply bounded_iff in Hm as (_ & He' & _).
  unfold lower_boundary in Hlo. rewrite (proj2 (Z.eqb_eq _ _) Em), (proj2 (Z.ltb_lt _ _) He) in Hlo.
  cbn [andb] in Hlo. rewrite Em in Hlo.
  assert (Hlog : ratio_log2 a b = e + 51).
  { apply (ratio_log2_unique a b v Ha Hb Hv). replace (e + 51 + 1) with (e + 52) by lia. split; [| done].
    apply Qlt_le_weak. eapply Qle_lt_trans; [| exact Hlo]. replace (e + 51) with (e - 2 + 53) by lia.
    apply scale_ge; lia. }
  unfold round_ratio. rewrite Hlog. replace (Z.max (e + 51 - 52) (-1074)) with (e - 1) by lia.
  rewrite (nearest_ratio a b v Ha Hb Hv (2 ^ 53) (e - 1)).
  - rewrite Z.eqb_refl. replace (e - 1 + 1) with e by lia. change (2 ^ 52 <=? 0) with false. cbv iota.
    destruct (Z.ltb_spec 971 e); [lia |]. rewrite <- Em. done.
  - replace (e - 1 - 1) with (e - 2) by lia. split; [exact Hlo |]. eapply Qlt_le_trans; [exact Hbelow |].
    replace (e + 52) with (e - 2 + 54) by lia. apply scale_ge; lia.
Qed.

Lemma round_ratio_nearest sign : round_ratio sign a b = S754_finite sign m e.
Proof using Ha Hb Hv Hm Hlo Hhi.
  pose proof exponent_same as Hsame. pose proof (proj1 (bounded_iff m e) Hm) as (_ & He & _).
  destruct (Z.eq_dec (Zpos m) (2 ^ 52)) as [Em | Em]; [| by apply round_same, Hsame; left].
  destruct (Z.eq_dec e (-1074)) as [Ee | Ee]; [by apply round_same, Hsame; right; left |].
  destruct (Qlt_le_dec v (two (e + 52))) as [Hbelow | Habove]; [apply round_below; [done | lia | done] |].
  by apply round_same, Hsame; right; right.
Qed.
End round.

Lemma decimal_ratio n x :
  (inject_Z (n * 10 ^ Z.max x 0) == inject_Z n * ten x * inject_Z (10 ^ Z.max (- x) 0))%Q.
Proof.
  rewrite inject_Z_mult, !ten_Z by lia. rewrite <- Qmult_assoc, <- ten_plus.
  replace (x + Z.max (- x) 0) with (Z.max x 0) by lia. reflexivity.
Qed.

Lemma boundary_pos m e : (0 < lower_boundary m e)%Q.
Proof.
  unfold lower_boundary. pose proof (two_pos (e - 2)). pose proof (two_pos (e - 1)).
  destruct (_ && _).
  - assert (Hn : (inject_Z 0 < inject_Z (4 * Zpos m - 1))%Q) by (apply inject_lt_iff; lia).
    change (inject_Z 0) with 0%Q in Hn. nra.
  - assert (Hn : (inject_Z 0 < inject_Z (2 * Zpos m - 1))%Q) by (apply inject_lt_iff; lia).
    change (inject_Z 0) with 0%Q in Hn. nra.
Qed.

#[export] Instance exact_strtod_laws : StrtodLaws exact_strtod.
Proof.
  split.
  - intros text. unfold strtod, exact_strtod. destruct (read_decimal text) as [[sign n] x]. cbv zeta.
    by destruct (valid_binary _ _ _) eqn:E.
  - intros text sign x _ Hr. unfold strtod, exact_strtod. by rewrite Hr.
  - intros text sign n x m e _ Hr Hm [Hlo Hhi]. unfold strtod, exact_strtod. rewrite Hr.
    assert (Hn : 0 < n).
    { apply inject_lt_iff. change (inject_Z 0) with 0%Q. apply (Qmult_lt_r _ _ (ten x) (ten_pos x)).
      pose proof (boundary_pos m e). lra. }
    unfold round_decimal. rewrite (proj2 (Z.leb_gt n 0)) by done.
    rewrite (round_ratio_nearest _ _ (inject_Z n * ten x)%Q) with (m := m) (e := e); [| | | apply decimal_ratio | done..].
    + cbn [valid_binary]. by rewrite Hm.
    + apply Z.mul_pos_pos; [done | apply Z.pow_pos_nonneg; lia].
    + apply Z.pow_pos_nonneg; lia.
Qed.

(** 0.1 *)
Lemma to_chars_roundtrip_witness :
  let f := S754_finite false 7205759403792794 (-56) in
  is_double f /\ to_chars f = "0.1"%string /\
  (scan_number_text (to_chars f) = Some (to_chars f, type_float, EmptyString) /\
   (String.length (to_chars f) <= 64)%nat /\ strtod (Strtod := exact_strtod) (to_chars f) = f).
Proof.
  split; [split; vm_compute; reflexivity |]. split; [vm_compute; reflexivity |].
  apply (to_chars_roundtrip (L := exact_strtod_laws)). split; vm_compute; reflexivity.
Defined.
