(* ===== verification/JsonParser.v ===== *)
(** * json.hpp: the parser

    [parser::sax_parse_internal] with the events of [json_sax_dom_parser] that
    build the value, and [json::parse].  The stack of open arrays and objects
    carries what has been built of them. *)
From Stdlib Require Import ZArith Lia Ascii Floats.SpecFloat.
From stdpp Require Import base list strings.
From S2P Require Import Prelude Json JsonString JsonLexer.

Open Scope Z_scope.

(** An open container: the elements of an array so far, or the members of an
    object so far with the key whose value comes next ([object_element]). *)
Inductive frame :=
| in_array (elements : list json)
| in_object (members : list (string * json)) (key : string).

(** Where an iteration of the loop starts: at a token, or, with
    [skip_to_state_evaluation], behind the value just finished. *)
Inductive position := at_token (last_token : token_type.t) | behind_value (v : json).

Inductive outcome := Parsed (v : json) (rest : string) | Failed (e : json_exception) | OutOfFuel.

Section parser.
Context `{Strtod}.

(** What the value of a scalar token is; [None] for the other tokens. *)
Definition scalar_value (tok : token_type.t) : option (json_exception + json) :=
  match tok with
  | token_type.literal_true => Some (inr (JBool true))
  | token_type.literal_false => Some (inr (JBool false))
  | token_type.literal_null => Some (inr JNull)
  | token_type.value_string s => Some (inr (JStr s))
  | token_type.value_unsigned z | token_type.value_integer z => Some (inr (JInt z))
  | token_type.value_float f => Some (if isfinite f then inr (JFloat f) else inl out_of_range)
  | _ => None
  end.

(** The separator behind a key, and the token behind it. *)
Definition parse_separator (s : string) (continue : token_type.t -> string -> outcome) : outcome :=
  match scan s with
  | (token_type.name_separator, s1) => let '(tok, s2) := scan s1 in continue tok s2
  | _ => Failed parse_error
  end.

(** Behind the value [v]: it belongs to the innermost open container. *)
Definition evaluate_state (continue : position -> string -> list frame -> outcome)
    (states : list frame) (v : json) (s : string) : outcome :=
  match states with
  | [] => Parsed v s
  | in_array l :: outer =>
      match scan s with
      | (token_type.value_separator, s1) =>
          let '(tok, s2) := scan s1 in continue (at_token tok) s2 (in_array (l ++ [v]) :: outer)
      | (token_type.end_array, s1) => continue (behind_value (JArr (l ++ [v]))) s1 outer
      | _ => Failed parse_error
      end
  | in_object o key :: outer =>
      match scan s with
      | (token_type.value_separator, s1) =>
          match scan s1 with
          | (token_type.value_string key', s2) =>
              parse_separator s2 (fun tok s3 =>
                continue (at_token tok) s3 (in_object (obj_set key v o) key' :: outer))
          | _ => Failed parse_error
          end
      | (token_type.end_object, s1) => continue (behind_value (JObj (obj_set key v o))) s1 outer
      | _ => Failed parse_error
      end
  end.

(** One iteration of the loop. *)
Definition sax_iteration (continue : position -> string -> list frame -> outcome)
    (pos : position) (s : string) (states : list frame) : outcome :=
  match pos with
  | behind_value v => evaluate_state continue states v s
  | at_token token_type.begin_object =>
      match scan s with
      | (token_type.end_object, s1) => evaluate_state continue states (JObj []) s1
      | (token_type.value_string key, s1) =>
          parse_separator s1 (fun tok s2 => continue (at_token tok) s2 (in_object [] key :: states))
      | _ => Failed parse_error
      end
  | at_token token_type.begin_array =>
      match scan s with
      | (token_type.end_array, s1) => evaluate_state continue states (JArr []) s1
      | (tok, s1) => continue (at_token tok) s1 (in_array [] :: states)
      end
  | at_token tok =>
      match scalar_value tok with
      | Some (inr v) => evaluate_state continue states v s
      | Some (inl e) => Failed e
      | None => Failed parse_error
      end
  end.

(** One iteration after another; each reads at least one token. *)
Fixpoint sax_parse_internal (fuel : nat) (pos : position) (s : string) (states : list frame) : outcome :=
  match fuel with
  | O => OutOfFuel
  | S fuel => sax_iteration (sax_parse_internal fuel) pos s states
  end.

(** [parser::parse], strict: the value is followed by the end of the input. *)
Definition parse_text (fuel : nat) (s : string) : outcome :=
  let '(tok, s1) := scan_first s in
  match sax_parse_internal fuel (at_token tok) s1 [] with
  | Parsed v rest =>
      match scan rest with
      | (token_type.end_of_input, _) => Parsed v rest
      | _ => Failed parse_error
      end
  | o => o
  end.

(** Every iteration but the last consumes a character. *)
Definition parse_fuel (s : string) : nat := S (S (String.length s)).

(** [json::parse]. *)
Definition json_parse (s : string) : json_exception + json :=
  match parse_text (parse_fuel s) s with
  | Parsed v _ => inr v
  | Failed e => inl e
  | OutOfFuel => inl parse_error
  end.
End parser.
