(* ===== verification/JsonValid.v ===== *)
(** * json.hpp: well-formed values

    What the parser yields: a value whose strings are UTF-8, whose integers fit
    in 64 bits, whose doubles are finite and whose keys are in order; and that
    the parser ends on every input. *)
From Stdlib Require Import ZArith Lia Ascii Floats.SpecFloat.
From stdpp Require Import base list strings pretty sorting.
From S2P Require Import Prelude Json JsonString JsonLexer JsonParser JsonPrinter JsonDecimal.

Open Scope Z_scope.

(** ** Well-formed values *)

Definition key_lt (a b : string) : Prop := String.compare a b = Lt.

#[global] Instance key_lt_trans : Transitive key_lt.
Proof.
  intros a b c Hab Hbc. unfold key_lt in *.
  assert (Hle : forall x y, String.compare x y = Lt -> String.le x y)
    by (intros x y H; unfold String.le, String.leb; by rewrite H).
  pose proof (transitivity (Hle _ _ Hab) (Hle _ _ Hbc)) as Hac.
  destruct (String.compare a c) eqn:E; [| done |].
  - apply String.compare_eq_iff in E as <-.
    rewrite String.compare_antisym, Hab in Hbc. done.
  - unfold String.le, String.leb in Hac. by rewrite E in Hac.
Qed.

Fixpoint valid_json (j : json) : Prop :=
  match j with
  | JNull | JBool _ => True
  | JInt z => - 2 ^ 63 <= z < 2 ^ 64
  | JFloat f => is_double f
  | JStr s => utf8 s
  | JArr l => foldr (fun x P => valid_json x /\ P) True l
  | JObj o => StronglySorted key_lt o.*1 /\
      foldr (fun kx P => (utf8 (fst kx) /\ valid_json (snd kx)) /\ P) True o
  end.

Definition valid_member (kx : string * json) : Prop := utf8 (fst kx) /\ valid_json (snd kx).

Lemma foldr_conj {A} (P : A -> Prop) (l : list A) : foldr (fun x Q => P x /\ Q) True l <-> Forall P l.
Proof.
  induction l as [| x l IH]; [done |]. cbn. rewrite IH, Forall_cons. done.
Qed.

Lemma valid_arr l : valid_json (JArr l) <-> Forall valid_json l.
Proof. apply (foldr_conj valid_json). Qed.

Lemma valid_obj o : valid_json (JObj o) <-> StronglySorted key_lt o.*1 /\ Forall valid_member o.
Proof. cbn [valid_json]. by rewrite (foldr_conj valid_member). Qed.

(** Induction on values. *)
Section induction.
Context (P : json -> Prop).
Context (Hnull : P JNull) (Hbool : forall b, P (JBool b)) (Hint : forall z, P (JInt z))
  (Hfloat : forall f, P (JFloat f)) (Hstr : forall s, P (JStr s))
  (Harr : forall l, Forall P l -> P (JArr l))
  (Hobj : forall o, Forall (fun kx => P (snd kx)) o -> P (JObj o)).

Fixpoint json_induction (j : json) : P j :=
  match j with
  | JNull => Hnull
  | JBool b => Hbool b
  | JInt z => Hint z
  | JFloat f => Hfloat f
  | JStr s => Hstr s
  | JArr l => Harr l ((fix go l : Forall P l :=
      match l with
      | [] => Forall_nil_2 P
      | x :: l' => Forall_cons_2 P x l' (json_induction x) (go l')
      end) l)
  | JObj o => Hobj o ((fix go o : Forall (fun kx => P (snd kx)) o :=
      match o with
      | [] => Forall_nil_2 _
      | kx :: o' => Forall_cons_2 (fun kx => P (snd kx)) kx o' (json_induction (snd kx)) (go o')
      end) o)
  end.
End induction.

(** Appending a larger key. *)
Lemma obj_set_last key v o :
  Forall (fun k => key_lt k key) o.*1 -> obj_set key v o = o ++ [(key, v)].
Proof.
  induction o as [| [k w] o IH]; [done |]. cbn. intros [Hk Ho]%Forall_cons.
  rewrite String.compare_antisym. rewrite Hk. cbn. by rewrite IH.
Qed.

(** [operator[]] keeps the keys in order. *)
Lemma obj_set_valid key v o :
  StronglySorted key_lt o.*1 -> Forall valid_member o -> valid_member (key, v) ->
  StronglySorted key_lt (obj_set key v o).*1 /\ Forall valid_member (obj_set key v o) /\
  forall k, key_lt k key -> Forall (key_lt k) o.*1 -> Forall (key_lt k) (obj_set key v o).*1.
Proof.
  intros Hs Hv Hkv. induction o as [| [k w] o IH]; cbn.
  { split; [by repeat constructor |]. split; [by constructor |]. intros k ? _. by constructor. }
  cbn in Hs. apply StronglySorted_inv in Hs as [Hs Hk]. apply Forall_cons in Hv as [Hkw Hv].
  destruct (IH Hs Hv) as (I1 & I2 & I3). destruct (String.compare key k) eqn:E; cbn.
  - apply String.compare_eq_iff in E as ->.
    split; [by constructor |]. split; [by apply Forall_cons | by intros k' ? [? ?]%Forall_cons; apply Forall_cons].
  - split.
    { constructor; [by constructor |]. constructor; [done |]. eapply Forall_impl; [done |].
      intros k' Hk'. by transitivity k. }
    split; [by repeat apply Forall_cons_2 |]. intros k' H1 H2. by apply Forall_cons.
  - assert (key_lt k key) by (unfold key_lt; by rewrite String.compare_antisym, E).
    split; [constructor; [done | by apply I3] |]. split; [by apply Forall_cons |].
    intros k' H1 [H2 H3]%Forall_cons. constructor; [done | by apply I3].
Qed.

Section roundtrip.
Context `{F : Strtod}.

(** ** Scanning moves on *)

Lemma skip_whitespace_length s : (String.length (skip_whitespace s) <= String.length s)%nat.
Proof. induction s as [| c s IH]; [done |]. cbn. destruct (is_whitespace c); cbn; lia. Qed.

Lemma strip_prefix_length p s r : strip_prefix p s = Some r -> (String.length r <= String.length s)%nat.
Proof.
  revert s. induction p as [| c p IH]; intros s Hp; [by injection Hp as -> |].
  destruct s as [| d s]; [done |]. cbn in *. destruct (decide (c = d)); [| done].
  specialize (IH s Hp). lia.
Qed.

Lemma scan_digits_length st ty s text ty' rest :
  scan_digits st ty s = Some (text, ty', rest) -> (String.length rest <= String.length s)%nat.
Proof.
  revert st ty text. induction s as [| c s IH]; intros st ty text H; cbn in H.
  - destruct (next_state st None); try done. by inversion H.
  - destruct (next_state st (Some c)) as [st' | |]; [| by injection H as <- <- <- | done].
    destruct (scan_digits st' _ s) as [[[? ?] ?] |] eqn:E; [| done]. injection H as <- <- <-.
    specialize (IH _ _ _ E). cbn. lia.
Qed.

Lemma scan_number_length c s :
  (String.length (snd (scan_number (String c s))) < S (String.length s))%nat.
Proof using Type.
  unfold scan_number, scan_number_text. destruct (scan_number_init c); cbn; try lia.
  destruct (scan_digits _ _ s) as [[[text ty] rest] |] eqn:E; cbn; [| lia].
  apply scan_digits_length in E. lia.
Qed.

(** The scanner consumes a character of whatever is left. *)
Lemma scan_length s :
  s <> EmptyString -> (String.length (snd (scan s)) < String.length s)%nat.
Proof using Type.
  intros Hs. unfold scan. pose proof (skip_whitespace_length s) as Hw.
  destruct (skip_whitespace s) as [| c s'] eqn:E; [destruct s; [done | cbn; lia] |]. cbn [String.length] in Hw.
  assert (Hlit : forall p tok, (String.length (snd (scan_literal p tok s')) < String.length s)%nat).
  { intros p tok. unfold scan_literal. destruct (strip_prefix p s') eqn:Ep; cbn; [| lia].
    apply strip_prefix_length in Ep. lia. }
  repeat match goal with
  | |- context [if ?b then _ else _] => destruct b
  end; try apply Hlit; cbn [snd String.length]; try lia.
  - destruct (scan_string s') as [[text rest] |] eqn:Et; cbn; [| lia].
    apply scan_string_sound in Et as [_ ?]. lia.
  - pose proof (scan_number_length c s'). lia.
Qed.

Lemma scan_length_le s : (String.length (snd (scan s)) <= String.length s)%nat.
Proof using Type.
  destruct (decide (s = EmptyString)) as [-> | Hne]; [done |]. pose proof (scan_length s Hne). lia.
Qed.

Lemma scan_empty : scan EmptyString = (token_type.end_of_input, EmptyString).
Proof using Type. done. Qed.

(** ** The parser ends *)

Lemma parse_separator_total n s (k : token_type.t -> string -> outcome) :
  (String.length s <= n)%nat ->
  (forall tok s', (String.length s' <= n)%nat -> k tok s' <> OutOfFuel) -> parse_separator s k <> OutOfFuel.
Proof using Type.
  intros Hs Hk. unfold parse_separator. pose proof (scan_length_le s).
  destruct (scan s) as [[] s1]; try done. cbn in *.
  pose proof (scan_length_le s1). destruct (scan s1) as [tok s2]. apply Hk. cbn in *. lia.
Qed.

Lemma evaluate_total n k states v s :
  (String.length s <= S n)%nat ->
  (forall pos s' st, (String.length s' <= n)%nat -> k pos s' st <> OutOfFuel) ->
  evaluate_state k states v s <> OutOfFuel.
Proof using Type.
  intros Hs Hk. unfold evaluate_state. destruct states as [| [l | o key] outer]; [done | |].
  all: destruct (decide (s = EmptyString)) as [-> | Hne]; [by rewrite scan_empty |].
  all: pose proof (scan_length s Hne); destruct (scan s) as [[] s1]; try done; cbn in *.
  - apply Hk. lia.
  - pose proof (scan_length_le s1). destruct (scan s1) as [tok s2]. cbn in *. apply Hk. lia.
  - apply Hk. lia.
  - pose proof (scan_length_le s1). destruct (scan s1) as [[] s2]; try done. cbn in *.
    apply (parse_separator_total n); [lia |]. intros tok s3 ?. by apply Hk.
Qed.

Lemma sax_parse_total fuel : forall pos s states,
  (S (String.length s) < fuel)%nat -> sax_parse_internal fuel pos s states <> OutOfFuel.
Proof using Type.
  induction fuel as [| fuel IH]; intros pos s states Hf; [lia |]. cbn [sax_parse_internal]. unfold sax_iteration.
  destruct (decide (s = EmptyString)) as [-> | Hne].
  { destruct fuel as [| fuel]; [cbn in Hf; lia |].
    assert (Hev : forall v, evaluate_state (sax_parse_internal (S fuel)) states v EmptyString <> OutOfFuel)
      by (intros v; by destruct states as [| [] ?]).
    destruct pos as [tok | v]; [| apply Hev]. rewrite scan_empty.
    destruct tok; cbn [scalar_value]; try done; try by apply Hev. by destruct (isfinite f); [apply Hev |]. }
  pose proof (scan_length s Hne) as Hlt.
  assert (Hev : forall v s', (String.length s' <= String.length s)%nat ->
    evaluate_state (sax_parse_internal fuel) states v s' <> OutOfFuel).
  { intros v s' Hs'. apply (evaluate_total (String.length s - 1)); [lia |]. intros. apply IH. lia. }
  destruct pos as [tok | v]; [| by apply Hev].
  destruct tok; cbn [scalar_value]; try done; try by apply Hev.
  - by destruct (isfinite f); [apply Hev |].
  - destruct (scan s) as [[] s1]; cbn in Hlt; try (apply IH; lia). apply Hev. lia.
  - destruct (scan s) as [[] s1]; cbn in Hlt; try done; [| apply Hev; lia].
    apply (parse_separator_total (String.length s1)); [lia |]. intros tok s2 ?. apply IH. lia.
Qed.

Lemma skip_bom_length s s' : skip_bom s = Some s' -> (String.length s' <= String.length s)%nat.
Proof.
  unfold skip_bom. destruct s as [| c s]; [by intros [= <-] |].
  destruct (code c =? 0xEF); [| by intros [= <-]].
  destruct s as [| c1 [| c2 s]]; try done. destruct (_ && _); [| done]. intros [= <-]. cbn. lia.
Qed.

Lemma scan_first_length s : (String.length (snd (scan_first s)) <= String.length s)%nat.
Proof using Type.
  unfold scan_first. destruct (skip_bom s) as [s' |] eqn:E; [| cbn; lia].
  apply skip_bom_length in E. pose proof (scan_length_le s'). lia.
Qed.

(** C38. The parser ends on every text: one iteration for each character, and two
    more, are enough. *)
Theorem parse_terminates s : parse_text (parse_fuel s) s <> OutOfFuel.
Proof using Type.
  unfold parse_text. pose proof (scan_first_length s). destruct (scan_first s) as [tok s1]. cbn [snd] in *.
  pose proof (sax_parse_total (parse_fuel s) (at_token tok) s1 []) as Ht.
  destruct (sax_parse_internal _ _ _ _) as [v rest | |]; [| discriminate |].
  - by destruct (scan rest) as [[] ?].
  - apply Ht. unfold parse_fuel. lia.
Qed.
(** ** The parser yields well-formed values *)

Context {L : StrtodLaws F}.

Definition valid_token (tok : token_type.t) : Prop :=
  match tok with
  | token_type.value_string s => utf8 s
  | token_type.value_unsigned z | token_type.value_integer z => - 2 ^ 63 <= z < 2 ^ 64
  | token_type.value_float f => isfinite f = true -> is_double f
  | _ => True
  end.

Lemma scan_digits_float st s text ty rest :
  st <> scan_number_minus -> st <> scan_number_zero -> st <> scan_number_any1 ->
  scan_digits st type_float s = Some (text, ty, rest) -> ty = type_float.
Proof.
  revert st text rest. induction s as [| c s IH]; intros st text rest H1 H2 H3 H; cbn in H.
  - destruct (next_state st None); try done. by inversion H.
  - destruct (next_state st (Some c)) as [st' | |] eqn:E; [| by inversion H | done].
    destruct (scan_digits st' _ s) as [[[t' ty'] s0] |] eqn:E'; [| done].
    assert (ty' = ty) as -> by (by inversion H).
    assert (Hst : st' <> scan_number_minus /\ st' <> scan_number_zero /\ st' <> scan_number_any1).
    { unfold next_state in E. destruct st; try done; repeat case_match; by inversion E. }
    destruct Hst as (A1 & A2 & A3). replace (enter st' type_float) with type_float in E' by (by destruct st').
    by apply (IH st' t' s0).
Qed.

(** The text of an integer is digits only. *)
Lemma scan_digits_integer st ty s text ty' rest :
  st = scan_number_zero \/ st = scan_number_any1 -> ty' <> type_float ->
  scan_digits st ty s = Some (text, ty', rest) -> all_digits text /\ ty' = ty.
Proof.
  revert st text rest. induction s as [| c s IH]; intros st text rest Hst Hty H; cbn in H.
  - destruct (next_state st None); try done. by inversion H.
  - destruct (next_state st (Some c)) as [st' | |] eqn:E; [| by inversion H | done].
    destruct (scan_digits st' _ s) as [[[text' ty0] s0] |] eqn:E'; [| done].
    assert (ty0 = ty') as -> by (by inversion H). assert (text = String c text') as -> by (by inversion H).
    assert (Hst' : is_digit c = true /\ st' = scan_number_any1 \/
                   st' = scan_number_decimal1 \/ st' = scan_number_exponent).
    { unfold next_state in E. destruct Hst as [-> | ->].
      - repeat case_match; try done; inversion E; auto.
      - destruct (is_digit c); [inversion E; by left |].
        repeat case_match; try done; inversion E; auto. }
    destruct Hst' as [[Hc ->] | Hfl].
    + destruct (IH scan_number_any1 text' s0 (or_intror eq_refl) Hty E') as [? ->]. done.
    + exfalso. apply Hty. destruct Hfl as [-> | ->]; cbn [enter] in E'; by apply scan_digits_float in E'.
Qed.

Lemma digits_value_nonneg s acc : all_digits s -> 0 <= acc -> 0 <= digits_value acc s.
Proof.
  revert acc. induction s as [| c s IH]; intros acc Hs Ha; [done |]. destruct Hs as [Hc Hs]. cbn.
  apply in_range_iff in Hc. apply IH; [done | lia].
Qed.

Lemma number_token_valid s text ty rest :
  scan_number_text s = Some (text, ty, rest) -> valid_token (number_token text ty).
Proof using L.
  assert (Hf : forall t, valid_token (token_type.value_float (strtod t))).
  { intros t Ht. split; [done | by apply strtod_double]. }
  destruct s as [| c s]; [done |]. cbn [scan_number_text].
  destruct (scan_number_init c) as [st | |] eqn:Ei; [| done..].
  destruct (scan_digits _ _ s) as [[[text' ty'] rest'] |] eqn:E; [| done]. intros [= <- <- <-].
  unfold scan_number_init in Ei. destruct (Z.eqb_spec (code c) 45).
  - injection Ei as <-. cbn [enter] in E. destruct ty' eqn:Ety; cbn [number_token].
    + exfalso. destruct s as [| d s]; [done |]. cbn [scan_digits next_state] in E.
      destruct (code d =? 48); [| destruct (is_digit d); [| done]]; cbn [enter] in E;
        destruct (scan_digits _ _ s) as [[[? ?] ?] |] eqn:E'; try done; injection E as <- -> <-;
        apply scan_digits_integer in E' as [_ ?]; auto; done.
    + assert (Hd : all_digits text').
      { destruct s as [| d s]; [done |]. cbn [scan_digits next_state] in E.
        destruct (Z.eqb_spec (code d) 48); [| destruct (is_digit d) eqn:Ed; [| done]]; cbn [enter] in E;
          destruct (scan_digits _ _ s) as [[[? ?] ?] |] eqn:E'; try done; injection E as <- -> <-;
          apply scan_digits_integer in E' as [? _]; auto; try done; split; try done.
        apply in_range_iff. lia. }
      pose proof (digits_value_nonneg text' 0 Hd). destruct (Z.leb_spec (- 2 ^ 63) (- digits_value 0 text'));
        [cbn; lia | apply Hf].
    + apply Hf.
  - assert (Hst : st = scan_number_zero \/ st = scan_number_any1) by (repeat case_match; inversion Ei; auto).
    assert (Hc : is_digit c = true).
    { destruct (Z.eqb_spec (code c) 48); [apply in_range_iff; lia |]. by destruct (is_digit c). }
    destruct ty' eqn:Ety; cbn [number_token]; [| | apply Hf].
    + apply scan_digits_integer in E as [Hd _]; [| done | done].
      pose proof (digits_value_nonneg (String c text') 0 (conj Hc Hd)).
      destruct (Z.ltb_spec (digits_value 0 (String c text')) (2 ^ 64)); [cbn -[digits_value]; lia | apply Hf].
    + apply scan_digits_integer in E as [_ Hty]; [| done | done]. destruct Hst as [-> | ->]; done.
Qed.

Lemma scan_valid s : valid_token (fst (scan s)).
Proof using L.
  unfold scan. destruct (skip_whitespace s) as [| c s']; [done |].
  assert (Hlit : forall p tok, valid_token tok -> valid_token (fst (scan_literal p tok s'))).
  { intros p tok Ht. unfold scan_literal. by destruct (strip_prefix p s'). }
  repeat match goal with
  | |- context [if ?b then _ else _] => destruct b
  end; try apply Hlit; try done.
  - destruct (scan_string s') as [[text rest] |] eqn:Et; [| done]. by apply scan_string_sound in Et as [? _].
  - unfold scan_number. destruct (scan_number_text _) as [[[text ty] rest] |] eqn:E; [| done].
    by apply number_token_valid in E.
Qed.

Definition valid_frame (f : frame) : Prop :=
  match f with
  | in_array l => Forall valid_json l
  | in_object o key => StronglySorted key_lt o.*1 /\ Forall valid_member o /\ utf8 key
  end.

Definition valid_position (pos : position) : Prop :=
  match pos with at_token tok => valid_token tok | behind_value v => valid_json v end.

Definition valid_outcome (o : outcome) : Prop :=
  match o with Parsed v _ => valid_json v | _ => True end.

Lemma valid_set o key v :
  valid_frame (in_object o key) -> valid_json v ->
  StronglySorted key_lt (obj_set key v o).*1 /\ Forall valid_member (obj_set key v o).
Proof.
  intros (Hs & Ho & Hk) Hv. destruct (obj_set_valid key v o Hs Ho (conj Hk Hv)) as (? & ? & _). done.
Qed.

Lemma parse_separator_valid s (k : token_type.t -> string -> outcome) :
  (forall tok s', valid_token tok -> valid_outcome (k tok s')) -> valid_outcome (parse_separator s k).
Proof using L.
  intros Hk. unfold parse_separator. destruct (scan s) as [[] s1]; try done.
  pose proof (scan_valid s1). destruct (scan s1) as [tok s2]. by apply Hk.
Qed.

Lemma evaluate_valid k states v s :
  (forall pos s' st, valid_position pos -> Forall valid_frame st -> valid_outcome (k pos s' st)) ->
  Forall valid_frame states -> valid_json v -> valid_outcome (evaluate_state k states v s).
Proof using L.
  intros Hk Hst Hv. unfold evaluate_state. destruct states as [| [l | o key] outer]; [done | |].
  all: apply Forall_cons in Hst as [Hf Hst].
  - assert (Hl : Forall valid_json (l ++ [v])) by (apply Forall_app; split; [done | by constructor]).
    destruct (scan s) as [[] s1]; try done.
    + apply Hk; [by apply valid_arr | done].
    + pose proof (scan_valid s1). destruct (scan s1) as [tok s2]. apply Hk; [done |]. by constructor.
  - destruct (valid_set o key v Hf Hv) as [Hs Ho]. destruct (scan s) as [[] s1]; try done.
    + apply Hk; [by apply valid_obj | done].
    + pose proof (scan_valid s1) as Hkey. destruct (scan s1) as [[] s2]; try done.
      apply parse_separator_valid. intros tok s3 Ht. apply Hk; [done |]. by constructor.
Qed.

Lemma sax_parse_valid fuel : forall pos s states,
  valid_position pos -> Forall valid_frame states ->
  valid_outcome (sax_parse_internal fuel pos s states).
Proof using L.
  induction fuel as [| fuel IH]; intros pos s states Hp Hst; [done |]. cbn [sax_parse_internal]. unfold sax_iteration.
  assert (Hev : forall v s', valid_json v ->
    valid_outcome (evaluate_state (sax_parse_internal fuel) states v s'))
    by (intros; by apply evaluate_valid).
  destruct pos as [tok | v]; [| by apply Hev].
  destruct tok; cbn [scalar_value]; try done; try by apply Hev.
  - destruct (isfinite f) eqn:Ef; [| done]. apply Hev. by apply Hp.
  - pose proof (scan_valid s) as Ht. destruct (scan s) as [tok s1].
    destruct tok; try (apply IH; [done | by repeat constructor]). by apply Hev.
  - pose proof (scan_valid s) as Ht. destruct (scan s) as [[] s1]; try done.
    + apply parse_separator_valid. intros tok s2 ?. apply IH; [done |].
      constructor; [| done]. split; [constructor |]. split; [constructor | done].
    + apply Hev. split; [constructor | done].
Qed.

(** Whatever is parsed is well formed: strings are UTF-8, integers fit in 64
    bits, doubles are finite, keys are in order. *)
Lemma parse_valid s j : json_parse s = inr j -> valid_json j.
Proof using L.
  unfold json_parse, parse_text, scan_first. intros Hp.
  assert (Ht : valid_token (fst (match skip_bom s with Some s' => scan s'
    | None => (token_type.parse_error, EmptyString) end)))
    by (destruct (skip_bom s); [apply scan_valid | done]).
  destruct (match skip_bom s with Some s' => scan s' | None => _ end) as [tok s1].
  pose proof (sax_parse_valid (parse_fuel s) (at_token tok) s1 [] Ht (Forall_nil_2 _)) as Hv.
  destruct (sax_parse_internal _ _ _ _) as [v rest | |]; [| done..].
  destruct (scan rest) as [[] ?]; try done. by injection Hp as <-.
Qed.
End roundtrip.
