(* ===== verification/JsonGrammar.v ===== *)
(** * json.hpp: the language of the parser

    A grammar of JSON values over the tokens of the scanner, and that the
    iterative parser with its stack accepts exactly its texts, with the value
    the grammar gives them. *)
From Stdlib Require Import ZArith Lia Ascii Floats.SpecFloat.
From stdpp Require Import base list strings.
From S2P Require Import Prelude Json JsonString JsonLexer JsonParser JsonValid.

Open Scope Z_scope.

(** ** The grammar *)

(** The members of an object from those of its text, in their order: a later
    member replaces an earlier one with its key. *)
Definition members_of (kvs : list (string * json)) : list (string * json) :=
  foldl (fun o kv => obj_set (fst kv) (snd kv) o) [] kvs.

Inductive value : list token_type.t -> json -> Prop :=
| value_scalar tok v : scalar_value tok = Some (inr v) -> value [tok] v
| value_empty_array : value [token_type.begin_array; token_type.end_array] (JArr [])
| value_array ts l :
    elements ts l -> value (token_type.begin_array :: ts ++ [token_type.end_array]) (JArr l)
| value_empty_object : value [token_type.begin_object; token_type.end_object] (JObj [])
| value_object ts kvs :
    members ts kvs ->
    value (token_type.begin_object :: ts ++ [token_type.end_object]) (JObj (members_of kvs))
with elements : list token_type.t -> list json -> Prop :=
| elements_one ts v : value ts v -> elements ts [v]
| elements_more ts l ts' v :
    elements ts l -> value ts' v -> elements (ts ++ token_type.value_separator :: ts') (l ++ [v])
with members : list token_type.t -> list (string * json) -> Prop :=
| members_one key ts v :
    value ts v -> members (token_type.value_string key :: token_type.name_separator :: ts) [(key, v)]
| members_more ts kvs key ts' v :
    members ts kvs -> value ts' v ->
    members (ts ++ token_type.value_separator :: token_type.value_string key :: token_type.name_separator :: ts')
      (kvs ++ [(key, v)]).

Scheme value_mut := Minimality for value Sort Prop
with elements_mut := Minimality for elements Sort Prop
with members_mut := Minimality for members Sort Prop.
Combined Scheme grammar_ind from value_mut, elements_mut, members_mut.

Lemma members_of_snoc kvs key v : members_of (kvs ++ [(key, v)]) = obj_set key v (members_of kvs).
Proof. unfold members_of. by rewrite foldl_app. Qed.

(** Lists of elements and of members can be put together. *)
Lemma elements_app ts l ts' l' :
  elements ts l -> elements ts' l' -> elements (ts ++ token_type.value_separator :: ts') (l ++ l').
Proof.
  intros Hts H'. induction H' as [ts' v Hv | ts1 l1 ts' v H1 IH Hv]; [by constructor |].
  rewrite (app_assoc l). change (?a :: ts1 ++ ?b) with ((a :: ts1) ++ b). rewrite (app_assoc ts).
  by constructor.
Qed.

Lemma members_app ts kvs ts' kvs' :
  members ts kvs -> members ts' kvs' -> members (ts ++ token_type.value_separator :: ts') (kvs ++ kvs').
Proof.
  intros Hts H'. induction H' as [key ts' v Hv | ts1 l1 key ts' v H1 IH Hv]; [by constructor |].
  rewrite (app_assoc kvs). change (?a :: ts1 ++ ?b) with ((a :: ts1) ++ b). rewrite (app_assoc ts).
  by constructor.
Qed.

Section grammar.
Context `{F : Strtod}.

(** [ts] are the tokens at the front of [s]; [rest] is behind them. *)
Fixpoint lexes (s : string) (ts : list token_type.t) (rest : string) : Prop :=
  match ts with
  | [] => s = rest
  | tok :: ts => exists s1, scan s = (tok, s1) /\ lexes s1 ts rest
  end.

Lemma lexes_app s ts ts' rest :
  lexes s (ts ++ ts') rest <-> exists s1, lexes s ts s1 /\ lexes s1 ts' rest.
Proof using Type.
  revert s. induction ts as [| tok ts IH]; intros s; cbn.
  - split; [by eauto | by intros (? & -> & ?)].
  - split.
    + intros (s1 & E & (s2 & H1 & H2)%IH). eauto.
    + intros (s2 & (s1 & E & H1) & H2). exists s1. split; [done |]. apply IH. eauto.
Qed.

(** The whole text is one value. *)
Definition denotes (s : string) (j : json) : Prop :=
  exists s0 ts rest, skip_bom s = Some s0 /\ lexes s0 ts rest /\ value ts j /\
    fst (scan rest) = token_type.end_of_input.

(** ** Running the parser with enough fuel *)

Definition runs (pos : position) (s : string) (states : list frame) (o : outcome) : Prop :=
  exists n, forall fuel, (n <= fuel)%nat -> sax_parse_internal fuel pos s states = o.

Lemma runs_same pos s st pos' s' st' o :
  (forall fuel, sax_parse_internal fuel pos s st = sax_parse_internal fuel pos' s' st') ->
  runs pos' s' st' o -> runs pos s st o.
Proof using Type. intros He [n Hn]. exists n. intros fuel Hf. rewrite He. by apply Hn. Qed.

Lemma runs_step pos s st pos' s' st' o :
  (forall fuel, sax_parse_internal (S fuel) pos s st = sax_parse_internal fuel pos' s' st') ->
  runs pos' s' st' o -> runs pos s st o.
Proof using Type.
  intros He [n Hn]. exists (S n). intros [| fuel] Hf; [lia |]. rewrite He. apply Hn. lia.
Qed.

Ltac unfold_iteration :=
  cbn [sax_parse_internal]; unfold sax_iteration, evaluate_state, parse_separator.

Lemma runs_scalar tok v s st o :
  scalar_value tok = Some (inr v) -> runs (behind_value v) s st o -> runs (at_token tok) s st o.
Proof using Type.
  intros Hv. apply runs_same. intros [| fuel]; [done |].
  unfold_iteration. destruct tok; rewrite ?Hv; done.
Qed.

Lemma runs_empty_array s s1 st o :
  scan s = (token_type.end_array, s1) ->
  runs (behind_value (JArr [])) s1 st o -> runs (at_token token_type.begin_array) s st o.
Proof using Type. intros E. apply runs_same. intros [| fuel]; [done |]. unfold_iteration. by rewrite E. Qed.

Lemma runs_begin_array s tok s1 st o :
  scan s = (tok, s1) -> tok <> token_type.end_array ->
  runs (at_token tok) s1 (in_array [] :: st) o -> runs (at_token token_type.begin_array) s st o.
Proof using Type. intros E Hne. apply runs_step. intros fuel. unfold_iteration. rewrite E. by destruct tok. Qed.

Lemma runs_next_element v l s s1 tok s2 st o :
  scan s = (token_type.value_separator, s1) -> scan s1 = (tok, s2) ->
  runs (at_token tok) s2 (in_array (l ++ [v]) :: st) o -> runs (behind_value v) s (in_array l :: st) o.
Proof using Type.
  intros E E1. apply runs_step. intros fuel. unfold_iteration. by rewrite E, E1.
Qed.

Lemma runs_end_array v l s s1 st o :
  scan s = (token_type.end_array, s1) ->
  runs (behind_value (JArr (l ++ [v]))) s1 st o -> runs (behind_value v) s (in_array l :: st) o.
Proof using Type.
  intros E. apply runs_step. intros fuel. unfold_iteration. by rewrite E.
Qed.

Lemma runs_empty_object s s1 st o :
  scan s = (token_type.end_object, s1) ->
  runs (behind_value (JObj [])) s1 st o -> runs (at_token token_type.begin_object) s st o.
Proof using Type. intros E. apply runs_same. intros [| fuel]; [done |]. unfold_iteration. by rewrite E. Qed.

(** A key, the separator and the first token of the member's value. *)
Definition scans_member (s key : string) (tok : token_type.t) (s3 : string) : Prop :=
  exists s1 s2, scan s = (token_type.value_string key, s1) /\
    scan s1 = (token_type.name_separator, s2) /\ scan s2 = (tok, s3).

Lemma runs_begin_object s key tok s3 st o :
  scans_member s key tok s3 ->
  runs (at_token tok) s3 (in_object [] key :: st) o -> runs (at_token token_type.begin_object) s st o.
Proof using Type.
  intros (s1 & s2 & E & E1 & E2). apply runs_step. intros fuel. unfold_iteration. by rewrite E, E1, E2.
Qed.

Lemma runs_next_member v m key s s0 key' tok s3 st o :
  scan s = (token_type.value_separator, s0) -> scans_member s0 key' tok s3 ->
  runs (at_token tok) s3 (in_object (obj_set key v m) key' :: st) o ->
  runs (behind_value v) s (in_object m key :: st) o.
Proof using Type.
  intros E0 (s1 & s2 & E & E1 & E2). apply runs_step. intros fuel. unfold_iteration. by rewrite E0, E, E1, E2.
Qed.

Lemma runs_end_object v m key s s1 st o :
  scan s = (token_type.end_object, s1) ->
  runs (behind_value (JObj (obj_set key v m))) s1 st o -> runs (behind_value v) s (in_object m key :: st) o.
Proof using Type.
  intros E. apply runs_step. intros fuel. unfold_iteration. by rewrite E.
Qed.

(** ** Fuel does not matter *)

Definition refines (k k' : position -> string -> list frame -> outcome) : Prop :=
  forall pos s st, k pos s st <> OutOfFuel -> k' pos s st = k pos s st.

Lemma evaluate_refines k k' st v s : refines k k' ->
  evaluate_state k st v s <> OutOfFuel -> evaluate_state k' st v s = evaluate_state k st v s.
Proof using Type.
  intros Hk. unfold evaluate_state, parse_separator.
  destruct st as [| [l | m key] st]; [done | |]; destruct (scan s) as [[] s1]; try done; try apply Hk.
  - destruct (scan s1) as [tok s2]. apply Hk.
  - destruct (scan s1) as [[] s2]; try done. destruct (scan s2) as [[] s3]; try done.
    destruct (scan s3) as [tok s4]. apply Hk.
Qed.

Lemma iteration_refines k k' : refines k k' -> refines (sax_iteration k) (sax_iteration k').
Proof using Type.
  intros Hk pos s st. assert (Hev : forall v s', evaluate_state k st v s' <> OutOfFuel ->
    evaluate_state k' st v s' = evaluate_state k st v s') by (intros; by apply evaluate_refines).
  destruct pos as [tok | v]; [| by apply Hev]. unfold sax_iteration, parse_separator.
  destruct tok; cbn [scalar_value]; try done; try by apply Hev.
  - destruct (isfinite f); [apply Hev | done].
  - destruct (scan s) as [[] s1]; apply Hk || apply Hev.
  - destruct (scan s) as [[] s1]; try done; [| by apply Hev].
    destruct (scan s1) as [[] s2]; try done. destruct (scan s2) as [tok s3]. apply Hk.
Qed.

Lemma sax_parse_refines fuel : refines (sax_parse_internal fuel) (sax_parse_internal (S fuel)).
Proof using Type.
  induction fuel as [| fuel IH]; intros pos s st Hne; [done |].
  change (sax_iteration (sax_parse_internal fuel) pos s st <> OutOfFuel) in Hne.
  change (sax_iteration (sax_parse_internal (S fuel)) pos s st = sax_iteration (sax_parse_internal fuel) pos s st).
  revert IH Hne. generalize (sax_parse_internal (S fuel)), (sax_parse_internal fuel). intros k' k Hk.
  apply iteration_refines. exact Hk.
Qed.

Lemma sax_parse_mono n m pos s st : (n <= m)%nat ->
  sax_parse_internal n pos s st <> OutOfFuel ->
  sax_parse_internal m pos s st = sax_parse_internal n pos s st.
Proof using Type.
  induction 1 as [| m Hm IH]; [done |]. intros Hne. rewrite sax_parse_refines; rewrite IH; done.
Qed.

(** With its own fuel the parser gives what it gives with enough. *)
Lemma runs_enough pos s st o n :
  runs pos s st o -> (S (String.length s) < n)%nat -> sax_parse_internal n pos s st = o.
Proof using Type.
  intros [m Hm] Hn. pose proof (sax_parse_total n pos s st Hn) as Ht.
  rewrite <- (Hm (Nat.max m n)) by lia. symmetry. apply sax_parse_mono; [lia | done].
Qed.

(** ** Every text of the grammar is parsed *)

(** The first token of a value starts the parser, which comes to be behind it. *)
Definition reads_value (ts : list token_type.t) (v : json) : Prop :=
  forall s rest, lexes s ts rest -> exists tok s1, scan s = (tok, s1) /\ tok <> token_type.end_array /\
    forall st o, runs (behind_value v) rest st o -> runs (at_token tok) s1 st o.

Definition reads_elements (ts : list token_type.t) (l : list json) : Prop :=
  exists l0 v, l = l0 ++ [v] /\
  forall s rest, lexes s ts rest -> exists tok s1, scan s = (tok, s1) /\ tok <> token_type.end_array /\
    forall st o, runs (behind_value v) rest (in_array l0 :: st) o -> runs (at_token tok) s1 (in_array [] :: st) o.

Definition reads_members (ts : list token_type.t) (kvs : list (string * json)) : Prop :=
  exists kvs0 key v, kvs = kvs0 ++ [(key, v)] /\
  forall s rest, lexes s ts rest -> exists key0 tok s1, scans_member s key0 tok s1 /\
    forall st o, runs (behind_value v) rest (in_object (members_of kvs0) key :: st) o ->
      runs (at_token tok) s1 (in_object [] key0 :: st) o.

Lemma grammar_reads :
  (forall ts v, value ts v -> reads_value ts v) /\
  (forall ts l, elements ts l -> reads_elements ts l) /\
  (forall ts kvs, members ts kvs -> reads_members ts kvs).
Proof using Type.
  apply grammar_ind.
  - intros tok v Hv s rest (s1 & E & <-). exists tok, s1. split; [done |]. split; [by intros -> |].
    intros st o. by apply runs_scalar.
  - intros s rest (s1 & E & s2 & E1 & <-). exists token_type.begin_array, s1.
    split; [done |]. split; [done |]. intros st o. by apply runs_empty_array.
  - intros ts l _ (l0 & v & -> & R) s rest (s1 & E & (s2 & Hl & s3 & E3 & <-)%lexes_app).
    destruct (R _ _ Hl) as (tok & s4 & E4 & Hne & Hr). exists token_type.begin_array, s1.
    split; [done |]. split; [done |]. intros st o Ho. eapply runs_begin_array; [done.. |].
    apply Hr. by eapply runs_end_array.
  - intros s rest (s1 & E & s2 & E1 & <-). exists token_type.begin_object, s1.
    split; [done |]. split; [done |]. intros st o. by apply runs_empty_object.
  - intros ts kvs _ (kvs0 & key & v & -> & R) s rest (s1 & E & (s2 & Hl & s3 & E3 & <-)%lexes_app).
    destruct (R _ _ Hl) as (key0 & tok & s4 & E4 & Hr). exists token_type.begin_object, s1.
    split; [done |]. split; [done |]. intros st o Ho. eapply runs_begin_object; [done |].
    apply Hr. eapply runs_end_object; [done |]. by rewrite <- members_of_snoc.
  - intros ts v _ R. exists [], v. split; [done |]. intros s rest (tok & s1 & E & Hne & Hr)%R.
    exists tok, s1. auto.
  - intros ts l ts' v _ (l0 & v0 & -> & R) _ R'. exists (l0 ++ [v0]), v. split; [done |].
    intros s rest (s2 & Hl & s3 & E3 & Hl')%lexes_app.
    destruct (R _ _ Hl) as (tok & s1 & E & Hne & Hr). exists tok, s1. split; [done |]. split; [done |].
    destruct (R' _ _ Hl') as (tok' & s4 & E4 & _ & Hr'). intros st o Ho. apply Hr.
    eapply runs_next_element; [done.. |]. by apply Hr'.
  - intros key ts v _ R. exists [], key, v. split; [done |]. intros s rest (s1 & E & s2 & E1 & Hl).
    destruct (R _ _ Hl) as (tok & s3 & E3 & _ & Hr). exists key, tok, s3. split; [by exists s1, s2 | auto].
  - intros ts kvs key ts' v _ (kvs0 & key0 & v0 & -> & R) _ R'. exists (kvs0 ++ [(key0, v0)]), key, v.
    split; [done |]. intros s rest (s2 & Hl & s3 & E3 & s4 & E4 & s5 & E5 & Hl')%lexes_app.
    destruct (R _ _ Hl) as (key1 & tok & s1 & E & Hr). exists key1, tok, s1. split; [done |].
    destruct (R' _ _ Hl') as (tok' & s6 & E6 & _ & Hr'). intros st o Ho. apply Hr.
    eapply runs_next_member; [done | by exists s4, s5 |]. rewrite <- members_of_snoc. by apply Hr'.
Qed.

Lemma denotes_parses s j : denotes s j -> json_parse s = inr j.
Proof using Type.
  intros (s0 & ts & rest & Hb & Hl & Hv & He). apply (proj1 grammar_reads) in Hv.
  destruct (Hv _ _ Hl) as (tok & s1 & E & _ & Hr).
  assert (Hrun : runs (at_token tok) s1 [] (Parsed j rest)).
  { apply Hr. exists 1%nat. by intros [| fuel] ?; [lia |]. }
  unfold json_parse, parse_text, scan_first. rewrite Hb, E.
  pose proof (skip_bom_length s s0 Hb). pose proof (scan_length_le s0) as Hs. rewrite E in Hs. cbn [snd] in Hs.
  rewrite (runs_enough _ _ _ _ (parse_fuel s) Hrun) by (unfold parse_fuel; lia).
  destruct (scan rest) as [[] ?]; done.
Qed.

(** ** Every parsed text is one of the grammar *)

(** The tokens read since an array or object was opened, for its elements and
    members so far: the last one is followed by a comma. *)
Definition open_elements (ts : list token_type.t) (l : list json) : Prop :=
  ts = [] /\ l = [] \/ exists ts', ts = ts' ++ [token_type.value_separator] /\ elements ts' l.

Definition open_members (ts : list token_type.t) (kvs : list (string * json)) : Prop :=
  ts = [] /\ kvs = [] \/ exists ts', ts = ts' ++ [token_type.value_separator] /\ members ts' kvs.

(** The tokens read so far, for the open containers. *)
Inductive opened : list frame -> list token_type.t -> Prop :=
| opened_nil : opened [] []
| opened_array outer pre ts l :
    opened outer pre -> open_elements ts l ->
    opened (in_array l :: outer) (pre ++ token_type.begin_array :: ts)
| opened_object outer pre ts kvs key :
    opened outer pre -> open_members ts kvs ->
    opened (in_object (members_of kvs) key :: outer)
      (pre ++ token_type.begin_object :: ts ++ [token_type.value_string key; token_type.name_separator]).

Lemma open_elements_close ts l vt v : open_elements ts l -> value vt v -> elements (ts ++ vt) (l ++ [v]).
Proof.
  intros [[-> ->] | (ts' & -> & Hts)] Hv; [by constructor |]. rewrite <- app_assoc. by constructor.
Qed.

Lemma open_members_close ts kvs key vt v : open_members ts kvs -> value vt v ->
  members (ts ++ token_type.value_string key :: token_type.name_separator :: vt) (kvs ++ [(key, v)]).
Proof.
  intros [[-> ->] | (ts' & -> & Hts)] Hv; [by constructor |]. rewrite <- app_assoc. by constructor.
Qed.

(** The tokens of a position, behind those of the open containers. *)
Definition at_position (pos : position) (vt : list token_type.t) : Prop :=
  match pos with at_token tok => vt = [tok] | behind_value v => value vt v end.

(** What is left of the text completes the tokens read so far to a value. *)
Definition completes (k : position -> string -> list frame -> outcome) : Prop :=
  forall pos s st j rest pre vt, k pos s st = Parsed j rest -> opened st pre -> at_position pos vt ->
    exists ts, lexes s ts rest /\ value (pre ++ vt ++ ts) j.

(** The value's tokens are those of [H], grouped in another way. *)
Ltac regroup H :=
  lazymatch goal with |- value ?a _ => lazymatch type of H with value ?b _ =>
    replace a with b; [exact H | repeat (rewrite <- app_assoc || cbn [app]); reflexivity] end end.

Lemma evaluate_completes k st v s j rest pre vt : completes k ->
  evaluate_state k st v s = Parsed j rest -> opened st pre -> value vt v ->
  exists ts, lexes s ts rest /\ value (pre ++ vt ++ ts) j.
Proof using Type.
  intros Hk H Hst Hv. unfold evaluate_state, parse_separator in H.
  destruct Hst as [| outer pre mid l Hst Hmid | outer pre mid kvs key Hst Hmid].
  - assert (v = j /\ s = rest) as [-> ->] by (by inversion H). exists []. by rewrite app_nil_r.
  - pose proof (open_elements_close _ _ _ _ Hmid Hv) as Hel.
    destruct (scan s) as [[] s1] eqn:E; try done.
    + destruct (Hk _ _ _ _ _ _ _ H Hst (value_array _ _ Hel)) as (ts & Hl & Hj).
      exists (token_type.end_array :: ts). split; [by exists s1 |].
      regroup Hj.
    + destruct (scan s1) as [tok s2] eqn:E1.
      assert (Hop : open_elements ((mid ++ vt) ++ [token_type.value_separator]) (l ++ [v])) by (right; eauto).
      destruct (Hk _ _ _ _ _ _ [tok] H (opened_array _ _ _ _ Hst Hop) eq_refl) as (ts & Hl & Hj).
      exists (token_type.value_separator :: tok :: ts). split; [by exists s1; split; [| exists s2] |].
      regroup Hj.
  - pose proof (open_members_close _ _ key _ _ Hmid Hv) as Hm.
    destruct (scan s) as [[] s1] eqn:E; try done; rewrite <- members_of_snoc in H.
    + destruct (Hk _ _ _ _ _ _ _ H Hst (value_object _ _ Hm)) as (ts & Hl & Hj).
      exists (token_type.end_object :: ts). split; [by exists s1 |].
      regroup Hj.
    + destruct (scan s1) as [[] s2] eqn:E1; try done. destruct (scan s2) as [[] s3] eqn:E2; try done.
      destruct (scan s3) as [tok s4] eqn:E3.
      assert (Hop : open_members ((mid ++ token_type.value_string key :: token_type.name_separator :: vt) ++
                                  [token_type.value_separator]) (kvs ++ [(key, v)])) by (right; eauto).
      destruct (Hk _ _ _ _ _ _ [tok] H (opened_object _ _ _ _ _ Hst Hop) eq_refl) as (ts & Hl & Hj).
      eexists (_ :: _ :: _ :: tok :: ts). split; [cbn; eauto 10 |].
      regroup Hj.
Qed.

Lemma iteration_completes k : completes k -> completes (sax_iteration k).
Proof using Type.
  intros Hk pos s st j rest pre vt H Hst Hvt.
  assert (Hev : forall v s' vt', evaluate_state k st v s' = Parsed j rest -> value vt' v ->
    exists ts, lexes s' ts rest /\ value (pre ++ vt' ++ ts) j) by (intros; by eapply evaluate_completes).
  destruct pos as [tok | v]; [cbn in Hvt; subst vt | by apply (Hev v)].
  assert (Hscalar : forall v, scalar_value tok = Some (inr v) -> evaluate_state k st v s = Parsed j rest ->
    exists ts, lexes s ts rest /\ value (pre ++ [tok] ++ ts) j).
  { intros v Hv H'. apply (Hev v); [done | by constructor]. }
  unfold sax_iteration, parse_separator in H.
  destruct tok; cbn [scalar_value] in H; try done; try (by eapply Hscalar).
  - destruct (isfinite f) eqn:Ef; [| done]. eapply Hscalar; [| done]. cbn. by rewrite Ef.
  - destruct (scan s) as [tok s1] eqn:E. assert (Hd : tok = token_type.end_array \/ tok <> token_type.end_array) by (destruct tok; auto).
    destruct Hd as [-> | Hne].
    + destruct (Hev _ _ _ H value_empty_array) as (ts & Hl & Hj). exists (token_type.end_array :: ts).
      split; [by exists s1 | done].
    + assert (Hn : k (at_token tok) s1 (in_array [] :: st) = Parsed j rest) by (by destruct tok).
      destruct (Hk _ _ _ _ _ _ [tok] Hn (opened_array _ _ [] [] Hst (or_introl (conj eq_refl eq_refl))) eq_refl)
        as (ts & Hl & Hj).
      exists (tok :: ts). split; [by exists s1 |]. regroup Hj.
  - destruct (scan s) as [[] s1] eqn:E; try done.
    + destruct (scan s1) as [[] s2] eqn:E1; try done. destruct (scan s2) as [tok s3] eqn:E2.
      destruct (Hk _ _ _ _ _ _ [tok] H
        (opened_object _ _ [] [] _ Hst (or_introl (conj eq_refl eq_refl))) eq_refl) as (ts & Hl & Hj).
      eexists (_ :: _ :: tok :: ts). split; [cbn; eauto 10 |]. regroup Hj.
    + destruct (Hev _ _ _ H value_empty_object) as (ts & Hl & Hj). exists (token_type.end_object :: ts).
      split; [by exists s1 | done].
Qed.

Lemma sax_parse_completes fuel : completes (sax_parse_internal fuel).
Proof using Type.
  induction fuel as [| fuel IH]; [by intros pos s st j rest pre vt H |].
  apply (iteration_completes _ IH).
Qed.

Lemma parses_denotes s j : json_parse s = inr j -> denotes s j.
Proof using Type.
  unfold json_parse, parse_text, scan_first. intros H. destruct (skip_bom s) as [s0 |] eqn:Eb; [| done].
  destruct (scan s0) as [tok s1] eqn:E.
  destruct (sax_parse_internal _ _ _ _) as [v rest | |] eqn:Ep; try done.
  destruct (scan rest) as [[] s2] eqn:Er; try done. assert (v = j) as -> by (by inversion H).
  destruct (sax_parse_completes _ _ _ _ _ _ [] [tok] Ep opened_nil eq_refl) as (ts & Hl & Hj).
  exists s0, (tok :: ts), rest. split; [done |]. split; [by exists s1 |]. split; [done | by rewrite Er].
Qed.

(** C35. The iterative parser of json.hpp, with its stack and its fuel, accepts
    exactly the texts of the recursive grammar, and gives them the value of the
    grammar. *)
Theorem parse_iff_denotes s j : json_parse s = inr j <-> denotes s j.
Proof using Type. split; [apply parses_denotes | apply denotes_parses]. Qed.
End grammar.
