(* ===== verification/JsonRoundtrip.v ===== *)
(** * json.hpp: what is written is read back

    The serializer writes every well-formed value, and the parser reads the text
    as that value; whatever the parser yields is well formed.  So json.hpp is an
    instance of [Json.Platform] that keeps its laws. *)
From Stdlib Require Import ZArith Lia Ascii Floats.SpecFloat.
From stdpp Require Import base list strings pretty sorting.
From S2P Require Import Prelude Json JsonString JsonLexer JsonGrisu JsonParser JsonPrinter JsonDecimal JsonStrtod JsonValid JsonGrammar.

Open Scope Z_scope.

(** The tests for characters that, by arithmetic, this one is not. *)
Ltac other_codes :=
  repeat match goal with
  | |- context [code ?c =? ?k] => destruct (Z.eqb_spec (code c) k); [lia |]
  end.

(** ** Numbers followed by a delimiter *)

(** What follows a value in a text: nothing, or a character that ends it. *)
Definition delim (rest : string) : Prop :=
  match rest with
  | EmptyString => True
  | String c _ => code c = 44 \/ code c = 93 \/ code c = 125 \/ is_whitespace c = true
  end.

Lemma next_state_delim st c s :
  delim (String c s) -> next_state st None = scan_number_done -> next_state st (Some c) = scan_number_done.
Proof.
  intros Hc. assert (Hr : code c = 44 \/ code c = 93 \/ code c = 125 \/ code c <= 32).
  { cbn [delim] in Hc. unfold is_whitespace in Hc. rewrite !orb_true_iff, !Z.eqb_eq in Hc. lia. }
  assert (Hd : is_digit c = false) by (apply is_digit_false; lia).
  unfold next_state. rewrite Hd.
  other_codes. by destruct st.
Qed.

(** A text that is a number is also one in front of a delimiter. *)
Lemma scan_digits_delim st ty s ty' rest :
  delim rest -> scan_digits st ty s = Some (s, ty', EmptyString) ->
  scan_digits st ty (s +:+ rest) = Some (s, ty', rest).
Proof.
  intros Hr. revert st ty. induction s as [| c s IH]; intros st ty H.
  - cbn [scan_digits] in H. destruct (next_state st None) eqn:E; try done.
    assert (ty = ty') as -> by (by inversion H). change (EmptyString +:+ rest) with rest.
    destruct rest as [| c r]; cbn [scan_digits]; [by rewrite E |]. by rewrite (next_state_delim st c r Hr E).
  - rewrite append_cons. cbn [scan_digits] in *. destruct (next_state st (Some c)) as [st' | |]; try done.
    destruct (scan_digits st' (enter st' ty) s) as [[[t ty1] r] |] eqn:E; [| done].
    assert (t = s /\ ty1 = ty' /\ r = EmptyString) as (-> & -> & ->) by (by inversion H).
    by rewrite (IH _ _ E).
Qed.

Lemma scan_number_delim t ty rest :
  delim rest -> scan_number_text t = Some (t, ty, EmptyString) ->
  scan_number_text (t +:+ rest) = Some (t, ty, rest).
Proof.
  intros Hr. destruct t as [| c s]; [done |]. rewrite append_cons. cbn [scan_number_text].
  destruct (scan_number_init c); try done. intros H.
  destruct (scan_digits st _ s) as [[[t ty1] r] |] eqn:E; [| done].
  assert (t = s /\ ty1 = ty /\ r = EmptyString) as (-> & -> & ->) by (by inversion H).
  by rewrite (scan_digits_delim _ _ _ _ _ Hr E).
Qed.

Lemma scan_all_digits ty p : all_digits p -> scan_digits scan_number_any1 ty p = Some (p, ty, EmptyString).
Proof.
  induction p as [| c p IH]; [done |]. intros [Hc Hp]. cbn [scan_digits next_state]. rewrite Hc.
  cbn [enter]. by rewrite IH.
Qed.

(** Keys in front of a key of a sorted object are smaller. *)
Lemma sorted_before (acc : list (string * json)) k x o :
  StronglySorted key_lt (acc ++ (k, x) :: o).*1 -> Forall (fun k' => key_lt k' k) acc.*1.
Proof.
  induction acc as [| [k' x'] acc IH]; [constructor |]. cbn. intros [Hs Hk]%StronglySorted_inv.
  constructor; [| by apply IH]. rewrite Forall_forall in Hk. apply Hk.
  rewrite fmap_app. apply elem_of_app. right. by left.
Qed.

Section roundtrip.
Context `{F : Strtod}.

(** ** Texts of values *)

(** In front of a delimiter, [t] is a text of the value [v]. *)
Definition reads (t : string) (v : json) : Prop :=
  forall rest, delim rest -> exists ts, lexes (t +:+ rest) ts rest /\ value ts v.

Lemma reads_scalar t v tok :
  scalar_value tok = Some (inr v) -> (forall rest, delim rest -> scan (t +:+ rest) = (tok, rest)) -> reads t v.
Proof using Type.
  intros Hv Ht rest Hr. exists [tok]. split; [| by constructor]. exists rest. split; [by apply Ht | done].
Qed.

(** [scan] sends a number to [scan_number]. *)
Lemma scan_number_start c s text ty rest :
  scan_number_text (String c s) = Some (text, ty, rest) -> scan (String c s) = (number_token text ty, rest).
Proof using Type.
  intros H. assert (Hc : code c = 45 \/ 48 <= code c <= 57).
  { cbn [scan_number_text] in H. destruct (scan_number_init c) eqn:E; try done. unfold scan_number_init in E.
    destruct (Z.eqb_spec (code c) 45); [by left | right]. destruct (Z.eqb_spec (code c) 48); [lia |].
    destruct (is_digit c) eqn:Ed; [by apply in_range_iff in Ed | done]. }
  unfold scan. assert (Hw : skip_whitespace (String c s) = String c s).
  { cbn [skip_whitespace]. unfold is_whitespace.
    other_codes. done. }
  rewrite Hw. assert (Hd : (code c =? 45) || is_digit c = true).
  { apply orb_true_iff. unfold is_digit. rewrite in_range_iff, Z.eqb_eq. lia. }
  rewrite Hd. unfold scan_number. rewrite H.
  other_codes. done.
Qed.

Lemma reads_number t ty v :
  scan_number_text t = Some (t, ty, EmptyString) ->
  scalar_value (number_token t ty) = Some (inr v) -> reads t v.
Proof using Type.
  intros Ht Hv. apply (reads_scalar _ _ _ Hv). intros rest Hr. destruct t as [| c s]; [done |].
  rewrite append_cons. apply scan_number_start. rewrite <- append_cons. by apply scan_number_delim.
Qed.

Lemma reads_integer z : - 2 ^ 63 <= z < 2 ^ 64 -> reads (dump_integer z) (JInt z).
Proof using Type.
  intros Hz. unfold dump_integer. destruct (Z.eqb_spec z 0) as [-> | Hne].
  { by apply (reads_number _ type_unsigned). }
  destruct (Z.ltb_spec z 0).
  - rewrite remove_sign_opp, fill_digits_pretty by (cbn; lia).
    destruct (decimal_text (- z)) as (c & p & [Hc Hp Hv _] & ->); [lia |]. rewrite append_nil.
    apply (reads_number _ type_integer).
    + cbn [scan_number_text]. change (scan_number_init (chr 45)) with (goto scan_number_minus).
      cbn [scan_digits next_state enter]. assert (is_digit c = true) as -> by (apply in_range_iff; lia).
      destruct (Z.eqb_spec (code c) 48); [lia |]. cbn [enter]. by rewrite scan_all_digits.
    + cbn [number_token]. rewrite Hv. destruct (Z.leb_spec (- 2 ^ 63) (- - z)); [| lia].
      cbn [scalar_value]. do 3 f_equal. lia.
  - rewrite fill_digits_pretty by (cbn; lia).
    destruct (decimal_text z) as (c & p & [Hc Hp Hv _] & ->); [lia |]. rewrite append_nil.
    apply (reads_number _ type_unsigned).
    + cbn [scan_number_text]. unfold scan_number_init.
      assert (is_digit c = true) as -> by (apply in_range_iff; lia).
      destruct (Z.eqb_spec (code c) 45); [lia |]. destruct (Z.eqb_spec (code c) 48); [lia |].
      cbn [enter]. by rewrite scan_all_digits.
    + cbn [number_token]. rewrite Hv. by destruct (Z.ltb_spec z (2 ^ 64)); [| lia].
Qed.

Lemma scan_quoted s : utf8 s ->
  exists d, dump_escaped s = Some d /\ forall rest, scan (quote d +:+ rest) = (token_type.value_string s, rest).
Proof using Type.
  intros Hs. destruct (dump_scan s Hs) as (d & Hd & Hr). exists d. split; [done |]. intros rest.
  unfold quote. rewrite append_cons, append_assoc, append_cons. change (EmptyString +:+ rest) with rest.
  change (scan (String (chr 34) ?x)) with
    (match scan_string x with
     | Some (text, rest') => (token_type.value_string text, rest')
     | None => (token_type.parse_error, EmptyString)
     end). by rewrite Hr.
Qed.

(** What one value is proved of. *)
Definition writes (j : json) : Prop := exists t, dump_text j = Some t /\ reads t j.

Lemma append_bracket t closing rest :
  (t +:+ String (chr closing) EmptyString) +:+ rest = t +:+ String (chr closing) rest.
Proof. by rewrite append_assoc, append_cons. Qed.

Lemma delim_chr n rest : n = 44 \/ n = 93 \/ n = 125 -> delim (String (chr n) rest).
Proof. intros [-> | [-> | ->]]; vm_compute; auto. Qed.

(** A list of elements or members in front of its closing bracket. *)
Definition reads_list {A} (g : list token_type.t -> A -> Prop) (closing : Z) (t : string) (l : A) : Prop :=
  forall rest, exists ts, lexes (t +:+ String (chr closing) rest) ts (String (chr closing) rest) /\ g ts l.

Lemma elements_read l : l <> [] -> Forall writes l ->
  exists t, dump_elements dump_text l = Some t /\ reads_list elements 93 t l.
Proof using Type.
  induction l as [| x l IH]; [done |]. intros _ [(tx & Hx & Rx) Hl]%Forall_cons.
  destruct l as [| y l].
  - exists tx. split; [done |]. intros rest. destruct (Rx (String (chr 93) rest)) as (ts & H1 & H2);
      [by apply delim_chr; auto |]. exists ts. split; [done | by constructor].
  - destruct (IH ltac:(done) Hl) as (t & Ht & R). exists (tx +:+ String (chr 44) t).
    split; [cbn [dump_elements] in *; by rewrite Hx, Ht |]. intros rest.
    destruct (R rest) as (ts' & R1 & R2).
    destruct (Rx (String (chr 44) (t +:+ String (chr 93) rest))) as (ts & H1 & H2); [by apply delim_chr; auto |].
    exists (ts ++ token_type.value_separator :: ts'). rewrite append_assoc, append_cons. split.
    + apply lexes_app. eexists. split; [exact H1 |]. by eexists.
    + by apply (elements_app ts [x]); [constructor |].
Qed.

Lemma member_read k x : utf8 k -> writes x ->
  exists t, dump_member dump_text k x = Some t /\ forall rest, delim rest -> exists ts,
    lexes (t +:+ rest) ts rest /\ members ts [(k, x)].
Proof using Type.
  intros Hk (tx & Hx & Rx). destruct (scan_quoted k Hk) as (d & Hd & Hs).
  exists (quote d +:+ String (chr 58) tx). split; [unfold dump_member; by rewrite Hd, Hx |]. intros rest Hr.
  destruct (Rx rest Hr) as (ts & H1 & H2).
  exists (token_type.value_string k :: token_type.name_separator :: ts). split; [| by constructor].
  exists (String (chr 58) (tx +:+ rest)). rewrite append_assoc. split; [apply Hs |]. by exists (tx +:+ rest).
Qed.

Lemma members_read kvs : kvs <> [] -> Forall (fun kx => utf8 (fst kx) /\ writes (snd kx)) kvs ->
  exists t, dump_members dump_text kvs = Some t /\ reads_list members 125 t kvs.
Proof using Type.
  induction kvs as [| [k x] o IH]; [done |]. intros _ [[Hk Hx] Ho]%Forall_cons.
  destruct (member_read k x Hk Hx) as (tx & Ht & Rx). destruct o as [| kx o].
  - exists tx. split; [done |]. intros rest. apply Rx, delim_chr. auto.
  - destruct (IH ltac:(done) Ho) as (t & Ht' & R). exists (tx +:+ String (chr 44) t).
    split; [cbn [dump_members] in *; destruct kx; by rewrite Ht, Ht' |]. intros rest.
    destruct (R rest) as (ts' & R1 & R2).
    destruct (Rx (String (chr 44) (t +:+ String (chr 125) rest))) as (ts & H1 & H2); [by apply delim_chr; auto |].
    exists (ts ++ token_type.value_separator :: ts'). rewrite append_assoc, append_cons. split.
    + apply lexes_app. eexists. split; [exact H1 |]. by eexists.
    + by apply (members_app ts [(k, x)]).
Qed.

(** The members of a sorted object are put in as they are. *)
Lemma members_of_sorted o : StronglySorted key_lt o.*1 -> members_of o = o.
Proof.
  induction o as [| [k x] o IH] using rev_ind; [done |]. intros Hs. rewrite members_of_snoc.
  rewrite IH, obj_set_last; [done | by eapply sorted_before |].
  rewrite fmap_app in Hs. by apply StronglySorted_app_1_l in Hs.
Qed.

(** ** The round trip *)

Context {L : StrtodLaws F}.

Lemma json_writes j : valid_json j -> writes j.
Proof using L.
  induction j as [| b | z | f | s | l IH | o IH] using json_induction; intros Hj.
  - exists "null"%string. split; [done |]. by apply (reads_scalar _ _ token_type.literal_null).
  - exists (if b then "true" else "false")%string. split; [done |].
    destruct b; [by apply (reads_scalar _ _ token_type.literal_true) |].
    by apply (reads_scalar _ _ token_type.literal_false).
  - exists (dump_integer z). split; [done | by apply reads_integer].
  - exists (to_chars f). cbn [dump_text]. destruct Hj as [Hf Hv]. unfold dump_float. rewrite Hf. split; [done |].
    apply (reads_number _ type_float); [by apply to_chars_spec |].
    cbn [number_token]. rewrite strtod_to_chars by done. cbn [scalar_value]. by rewrite Hf.
  - destruct (scan_quoted s Hj) as (d & Hd & Hs). exists (quote d). cbn [dump_text]. rewrite Hd. split; [done |].
    by apply (reads_scalar _ _ (token_type.value_string s)).
  - apply valid_arr in Hj. destruct (decide (l = [])) as [-> | Hne].
    { exists "[]"%string. split; [done |]. intros rest Hr. eexists. split; [| apply value_empty_array].
      exists (String (chr 93) rest). split; [done |]. by exists rest. }
    destruct (elements_read l Hne) as (t & Ht & R).
    { apply Forall_forall. intros x Hx. rewrite Forall_forall in IH, Hj. by auto. }
    exists (bracket 91 93 t). cbn [dump_text]. rewrite Ht. split; [done |]. intros rest Hr.
    destruct (R rest) as (ts & R1 & R2). eexists. split; [| by apply value_array].
    exists (t +:+ String (chr 93) rest). unfold bracket. rewrite append_cons, append_bracket. split; [done |].
    apply lexes_app. eexists. split; [exact R1 |]. by exists rest.
  - apply valid_obj in Hj as [Hs Ho]. destruct (decide (o = [])) as [-> | Hne].
    { exists "{}"%string. split; [done |]. intros rest Hr. eexists. split; [| apply value_empty_object].
      exists (String (chr 125) rest). split; [done |]. by exists rest. }
    destruct (members_read o Hne) as (t & Ht & R).
    { apply Forall_forall. intros kx Hx. rewrite Forall_forall in IH, Ho. destruct (Ho kx Hx). by auto. }
    exists (bracket 123 125 t). cbn [dump_text]. rewrite Ht. split; [done |]. intros rest Hr.
    destruct (R rest) as (ts & R1 & R2). pose proof (value_object _ _ R2) as Hv.
    rewrite (members_of_sorted o Hs) in Hv. eexists. split; [| exact Hv].
    exists (t +:+ String (chr 125) rest). unfold bracket. rewrite append_cons, append_bracket. split; [done |].
    apply lexes_app. eexists. split; [exact R1 |]. by exists rest.
Qed.

Lemma scan_whitespace ws : skip_whitespace ws = EmptyString -> scan ws = (token_type.end_of_input, EmptyString).
Proof using Type. intros H. unfold scan. by rewrite H. Qed.

Lemma delim_whitespace ws : skip_whitespace ws = EmptyString -> delim ws.
Proof. destruct ws as [| c ws]; [done |]. cbn. destruct (is_whitespace c); auto. done. Qed.

(** No value starts with the first byte of a byte order mark. *)
Lemma value_no_bom s ts rest v : lexes s ts rest -> value ts v -> skip_bom s = Some s.
Proof using Type.
  destruct s as [| c s]; [done |]. cbn [skip_bom]. destruct (Z.eqb_spec (code c) 0xEF) as [Hc |]; [| done].
  assert (c = chr 0xEF) as -> by (apply code_inj; by rewrite Hc). intros Hl Hv. exfalso.
  destruct Hv as [tok v Hv | | | |]; destruct Hl as (s1 & E & _); inversion E. by subst tok.
Qed.

Lemma reads_parses t j ws :
  reads t j -> skip_whitespace ws = EmptyString -> json_parse (t +:+ ws) = inr j.
Proof using Type.
  intros R Hws. destruct (R ws (delim_whitespace ws Hws)) as (ts & Hl & Hv). apply denotes_parses.
  exists (t +:+ ws), ts, ws. rewrite (scan_whitespace ws Hws). split; [by eapply value_no_bom | done].
Qed.

(** A value that is written is read back, with or without white space behind it. *)
Lemma dump_parses j : valid_json j ->
  exists t, dump_text j = Some t /\
    forall ws, skip_whitespace ws = EmptyString -> json_parse (t +:+ ws) = inr j.
Proof using L.
  intros (t & Ht & R)%json_writes. exists t. split; [done |]. intros ws. by apply reads_parses.
Qed.

(** C37. The values the parser yields are exactly the well-formed ones; the
    serializer writes each of them, and the text, with or without white space
    behind it, is parsed as the value. *)
Theorem dump_parse j :
  (valid_json j <-> exists s, json_parse s = inr j) /\
  (valid_json j -> exists t, dump_text j = Some t /\
    forall ws, skip_whitespace ws = EmptyString -> json_parse (t +:+ ws) = inr j).
Proof using L.
  split; [| apply dump_parses]. split; [| by intros [s Hs%parse_valid]].
  intros (t & _ & Hp)%dump_parses. exists t. specialize (Hp EmptyString eq_refl). by rewrite append_nil in Hp.
Qed.
End roundtrip.

(** An object with a double, an array and an escaped string. *)
Definition demo_value : json :=
  obj [("a", JArr [JNull; JInt (-7); JFloat (S754_finite false 7205759403792794 (-56))]);
       ("b", JStr newline)]%string.

Lemma dump_parse_witness :
  valid_json demo_value /\ dump_text demo_value = Some (raw "{'a':[null,-7,0.1],'b':'\n'}")%string /\
  ((valid_json demo_value <-> exists s, json_parse (H := exact_strtod) s = inr demo_value) /\
   (valid_json demo_value -> exists t, dump_text demo_value = Some t /\
     forall ws, skip_whitespace ws = EmptyString -> json_parse (H := exact_strtod) (t +:+ ws) = inr demo_value)).
Proof.
  split; [| split; [vm_compute; reflexivity | apply (dump_parse (F := exact_strtod) demo_value)]].
  split; [by repeat constructor |]. cbn. repeat split; try done; by repeat constructor.
Defined.
