(* ===== verification/JsonValue.v ===== *)
(** * Building and freeing JSON values

    The constructor of json.hpp behind every braced value of the program, and
    the destructor, which frees a value with a stack of its own instead of
    recursion. *)
From Stdlib Require Import ZArith Lia.
From stdpp Require Import base list strings.
From S2P Require Import Prelude Json.

Open Scope Z_scope.

(** ** [basic_json(initializer_list_t, bool, value_t)] *)

Inductive manual_type := ManualArray | ManualObject.
#[export] Instance manual_type_eq_dec : EqDecision manual_type.
Proof. solve_decision. Defined.

(** A two-element array whose first element is a string. *)
Definition is_pair (element : json) : bool :=
  match element with JArr [JStr _; _] => true | _ => false end.

Definition emplace_pair (o : list (string * json)) (element : json) : list (string * json) :=
  match element with JArr [JStr key; v] => obj_emplace key v o | _ => o end.

(** [type_error.301] when an object is asked for and there is none. *)
Definition of_initializer_list (init : list json) (type_deduction : bool) (manual : manual_type) : res json :=
  let is_an_object := forallb is_pair init in
  let is_an_object := if negb type_deduction && bool_decide (manual = ManualArray) then false else is_an_object in
  if negb type_deduction && bool_decide (manual = ManualObject) && negb is_an_object then Exn TypeError
  else if is_an_object then Ret (JObj (foldl emplace_pair [] init))
  else Ret (JArr init).

(** A braced list in the program: the type is deduced. *)
Definition braced_list (init : list json) : res json := of_initializer_list init true ManualArray.

(** [{key, value}] is an array, whatever the value is. *)
Lemma braced_pair key v : braced_list [JStr key; v] = Ret (JArr [JStr key; v]).
Proof. reflexivity. Qed.

(** A braced list of braced pairs is the object [obj] of the program's model. *)
Lemma braced_object kvs :
  braced_list (map (fun kv => JArr [JStr (fst kv); snd kv]) kvs) = Ret (obj kvs).
Proof.
  unfold braced_list, of_initializer_list. cbn [negb andb].
  assert (Hall : forallb is_pair (map (fun kv => JArr [JStr (fst kv); snd kv]) kvs) = true)
    by (induction kvs; [done | by cbn]).
  rewrite Hall. unfold obj. do 2 f_equal. generalize (@nil (string * json)).
  induction kvs as [| [k v] kvs IH]; intros o; [done |]. cbn [map foldl fst snd emplace_pair]. apply IH.
  by cbn in Hall.
Qed.

(** A list of two-element lists that start with a string is no list any more. *)
Example braced_pairs_collapse :
  braced_list [JArr [JStr "kim"; JStr "lee"]; JArr [JStr "ann"; JStr "bob"]] =
  Ret (JObj [("ann", JStr "bob"); ("kim", JStr "lee")]%string).
Proof. reflexivity. Qed.

(** ** [json_value::destroy] *)

Definition children (j : json) : list json :=
  match j with
  | JArr l => l
  | JObj o => o.*2
  | _ => []
  end.

(** The loop: [stack] is the vector, its last element first; [freed] are the
    items destroyed, each after its children have been moved away. *)
Fixpoint destroy_loop (fuel : nat) (stack freed : list json) : option (list json) :=
  match stack, fuel with
  | [], _ => Some freed
  | _, O => None
  | current_item :: stack, S fuel =>
      destroy_loop fuel (rev_append (children current_item) stack) (freed ++ [current_item])
  end.

(** The children of a value are moved to the stack; at the end its own, now
    empty, container is freed. *)
Definition destroy (fuel : nat) (j : json) : option (list json) :=
  freed ← destroy_loop fuel (rev (children j)) [];
  Some (freed ++ [j]).

(** All values of a tree. *)
Fixpoint nodes (j : json) : list json :=
  j :: match j with
       | JArr l => flat_map nodes l
       | JObj o => flat_map (fun kv => nodes (snd kv)) o
       | _ => []
       end.

Lemma nodes_children j : nodes j = j :: flat_map nodes (children j).
Proof.
  destruct j as [| | | | | l | o]; try done. cbn. f_equal.
  induction o as [| [k v] o IH]; [done |]. cbn. by rewrite IH.
Qed.

Lemma rev_append_perm {A} (l k : list A) : rev_append l k ≡ₚ l ++ k.
Proof. rewrite rev_append_rev. by rewrite <- Permutation_rev. Qed.

(** With one round for each value below the root the loop ends. *)
Lemma destroy_loop_frees fuel : forall stack freed,
  (length (flat_map nodes stack) <= fuel)%nat ->
  exists all, destroy_loop fuel stack freed = Some all /\ all ≡ₚ freed ++ flat_map nodes stack.
Proof.
  induction fuel as [| fuel IH]; intros [| j stack] freed Hfuel;
    [exists freed; by rewrite app_nil_r | | exists freed; by rewrite app_nil_r |].
  { cbn [flat_map] in Hfuel. rewrite nodes_children in Hfuel. cbn in Hfuel. lia. }
  assert (Hmoved : flat_map nodes (rev_append (children j) stack) ≡ₚ flat_map nodes (children j) ++ flat_map nodes stack).
  { rewrite <- flat_map_app. apply Permutation_flat_map. apply rev_append_perm. }
  cbn [flat_map] in Hfuel. rewrite nodes_children in Hfuel. cbn in Hfuel. rewrite length_app in Hfuel.
  destruct (IH (rev_append (children j) stack) (freed ++ [j])) as (all & Hrun & Hall).
  { rewrite Hmoved, length_app. lia. }
  exists all. split; [exact Hrun |]. rewrite Hall, Hmoved. cbn [flat_map]. rewrite nodes_children.
  by rewrite <- !(assoc_L app).
Qed.

(** Freeing a value ends within one round per value below it, needs no recursion
    and destroys every value of the tree exactly once, the root last. *)
Theorem destroy_frees j fuel :
  (length (nodes j) <= S fuel)%nat ->
  exists below, destroy fuel j = Some (below ++ [j]) /\ below ++ [j] ≡ₚ nodes j.
Proof.
  rewrite nodes_children. cbn [length]. intros Hfuel.
  assert (Hrev : flat_map nodes (rev (children j)) ≡ₚ flat_map nodes (children j))
    by (apply Permutation_flat_map; by rewrite <- Permutation_rev).
  destruct (destroy_loop_frees fuel (rev (children j)) []) as (all & Hrun & Hall); [rewrite Hrev; lia |].
  exists all. unfold destroy. rewrite Hrun. cbn. split; [done |]. rewrite Hall, Hrev. cbn.
  by rewrite Permutation_app_comm.
Qed.

Example destroy_order :
  destroy 4 (JArr [JArr [JInt 1; JInt 2]; JInt 3]) =
  Some [JInt 3; JArr [JInt 1; JInt 2]; JInt 2; JInt 1; JArr [JArr [JInt 1; JInt 2]; JInt 3]].
Proof. reflexivity. Qed.
