(* ===== verification/JsonPlatform.v ===== *)
(** * json.hpp as the platform of the program

    [nlohmann] gives [Json.Platform] by the library's own parser and serializer;
    [exact_platform] is the one of the concrete runs. *)
From Stdlib Require Import ZArith Strings.Ascii.
From stdpp Require Import base list strings.
From S2P Require Import Prelude Json JsonLexer JsonDecimal JsonStrtod JsonString JsonParser JsonPrinter JsonValid JsonRoundtrip.

Open Scope Z_scope.

(** [dump] gives the empty text where the library throws [type_error.316]. *)
Definition nlohmann (F : Strtod) (draws : nat -> nat -> Z) : Platform := {|
  dump := fun j => default EmptyString (dump_text j);
  parse := json_parse;
  draw := draws
|}.

(** A message built of parsed values is read back from its line. *)
Lemma nlohmann_line (F : Strtod) (L : StrtodLaws F) draws j :
  valid_json j ->
  parse (Platform := nlohmann F draws) (dump (Platform := nlohmann F draws) j +:+ newline) = inr j.
Proof. intros Hj. destruct (dump_parses j Hj) as (t & Ht & Hp). cbn. rewrite Ht. by apply Hp. Qed.

Definition exact_draws (n i : nat) : Z := Z.of_nat (n + i) mod 16.
Definition exact_platform : Platform := nlohmann exact_strtod exact_draws.

(** ** Texts at the edge of the grammar *)

Section edges.
#[local] Existing Instance exact_strtod.

Definition quoted (s : string) : string := String "034" (s +:+ String "034" EmptyString).
Definition member (key value : string) : string := key +:+ ":" +:+ value.
Definition braced (members : string) : string := "{" +:+ members +:+ "}".

(** The last of two members of the same name wins in a text; in a braced
    initialiser the first ([obj]). *)
Example last_member_wins :
  json_parse (braced (member (quoted "a") "1" +:+ "," +:+ member (quoted "a") "2")) = inr (JObj [("a"%string, JInt 2)]).
Proof. vm_compute. reflexivity. Qed.

(** A NUL character ends the input, whatever is behind it. *)
Example nul_ends_input : json_parse ("1" +:+ String "000" "junk") = inr (JInt 1).
Proof. vm_compute. reflexivity. Qed.

(** A byte order mark is skipped, half of one is an error. *)
Example byte_order_mark :
  json_parse (String "239" (String "187" (String "191" "null"))) = inr JNull /\
  json_parse (String "239" (String "187" "null")) = inl parse_error.
Proof. vm_compute. split; reflexivity. Qed.

(** The largest 64-bit integers, and the doubles the ones beyond become. *)
Example integers_at_the_edge :
  json_parse "18446744073709551615" = inr (JInt (2 ^ 64 - 1)) /\
  json_parse "-9223372036854775808" = inr (JInt (- 2 ^ 63)) /\
  json_parse "18446744073709551616" = inr (JFloat (SpecFloat.S754_finite false (2 ^ 52) 12)) /\
  json_parse "-9223372036854775809" = inr (JFloat (SpecFloat.S754_finite true (2 ^ 52) 11)).
Proof. vm_compute. repeat split; reflexivity. Qed.

(** A number beyond the doubles is no syntax error but [out_of_range.406], which
    the handlers of [json::parse_error] do not catch. *)
Example number_out_of_range : json_parse "1e999" = inl out_of_range.
Proof. vm_compute. reflexivity. Qed.

(** A surrogate pair is one character, half of one is an error. *)
Example surrogates :
  json_parse (quoted "\ud83d\ude00") =
    inr (JStr (String "240" (String "159" (String "152" (String "128" EmptyString))))) /\
  json_parse (quoted "\ud83d") = inl parse_error.
Proof. vm_compute. split; reflexivity. Qed.
End edges.

(** ** The payload of an admin alert

    [send_admin_alert] puts the message between two literals, unescaped. *)
Definition alert_payload (message : string) : string := braced (member (quoted "text") (quoted message)).

(** A message the serializer would not change is read back by the receiver. *)
Lemma alert_readable (F : Strtod) (L : StrtodLaws F) message :
  dump_escaped message = Some message ->
  json_parse (alert_payload message) = inr (JObj [("text"%string, JStr message)]).
Proof.
  intros Hm. assert (Hv : valid_json (JObj [("text"%string, JStr message)])).
  { apply valid_obj. split; [by repeat constructor |]. repeat constructor. cbn. apply dump_escaped_iff. by rewrite Hm. }
  destruct (dump_parses _ Hv) as (t & Ht & Hp). specialize (Hp EmptyString eq_refl). rewrite append_nil in Hp.
  cbn in Ht. unfold dump_member in Ht. cbn in Ht. rewrite Hm in Ht. injection Ht as <-. exact Hp.
Qed.

(** A quotation mark in it leaves no JSON. *)
Example alert_with_quote :
  json_parse (H := exact_strtod) (alert_payload (quoted "x")) = inl parse_error.
Proof. vm_compute. reflexivity. Qed.
