(* ===== verification/Session.v ===== *)
(** * Session.{h,cpp}: the state of one connection

    The members of [class Session] and its member functions that touch only
    the session itself.  What reaches other components ([close_session],
    [post_write], the read loop) is in [Lifecycle] and [Reading].

    Left out: [data_], the raw buffer handed to [async_read_some] (a read
    completion carries its bytes), and [retry_timer_], which is cancelled but
    never armed.  The two members of the token bucket are the record
    [bucket_].  [generation_] is not wrapped at 2^64. *)
From Stdlib Require Import ZArith Lia.
From stdpp Require Import base list strings.
From S2P Require Import Prelude MessageBuffer RateLimit.

Open Scope Z_scope.

Inductive SessionState := Handshaking | Handshaked | LoginWait | Ready | Closed.
Inductive LifeState := LIdle | LActive | LClosing | LClosed | LReleased.

#[export] Instance SessionState_eq_dec : EqDecision SessionState.
Proof. solve_decision. Defined.
#[export] Instance LifeState_eq_dec : EqDecision LifeState.
Proof. solve_decision. Defined.

(** The closures put on [task_queue_]: only [do_read] posts one, and it starts
    an asynchronous read. *)
Inductive Task := TRead.

Record Session := mkSession {
  write_queue_overflow_count_ : Z;
  socket_ : option Z;                (** the open TCP connection *)
  message_ : string;
  session_id_ : Z;
  nickname_ : string;
  line_buffer_ : string;
  read_pending_ : bool;
  task_queue_ : list Task;
  task_running_ : bool;
  msg_buf_mgr_ : MessageBufferManager;
  write_queue_ : list string;
  write_in_progress_ : bool;
  closed_ : bool;
  login_timer_ : option Z;           (** expiry, when a wait is outstanding *)
  nickname_registered_ : bool;
  last_alive_time_ : Z;
  state_ : SessionState;
  udp_endpoint_ : option endpoint;
  udp_ep_update_time_ : Z;
  last_udp_alive_time_ : Z;
  udp_token_ : string;
  udp_packet_count_ : Z;
  udp_packet_window_ : Z;
  zone_id_ : Z;
  generation_ : Z;
  life_state_ : LifeState;
  release_callback_ : bool;
  bucket_ : TokenBucket;
  zone_ : option Z;
  udp_token_issued_ : Z;
  udp_token_ttl_sec_ : Z
}.

#[export] Instance eta_Session : Settable Session := fun s => mkSession
  (write_queue_overflow_count_ s) (socket_ s) (message_ s) (session_id_ s) (nickname_ s)
  (line_buffer_ s) (read_pending_ s) (task_queue_ s) (task_running_ s) (msg_buf_mgr_ s)
  (write_queue_ s) (write_in_progress_ s) (closed_ s) (login_timer_ s)
  (nickname_registered_ s) (last_alive_time_ s) (state_ s) (udp_endpoint_ s)
  (udp_ep_update_time_ s) (last_udp_alive_time_ s) (udp_token_ s) (udp_packet_count_ s)
  (udp_packet_window_ s) (zone_id_ s) (generation_ s) (life_state_ s) (release_callback_ s)
  (bucket_ s) (zone_ s) (udp_token_issued_ s) (udp_token_ttl_sec_ s).

(** The constructor, for the sessions of the pool: the socket is not open. *)
Definition new_session (now : Z) : Session := {|
  write_queue_overflow_count_ := 0;
  socket_ := None;
  message_ := EmptyString;
  session_id_ := -1;
  nickname_ := EmptyString;
  line_buffer_ := EmptyString;
  read_pending_ := false;
  task_queue_ := [];
  task_running_ := false;
  msg_buf_mgr_ := empty_buffer;
  write_queue_ := [];
  write_in_progress_ := false;
  closed_ := false;
  login_timer_ := None;
  nickname_registered_ := false;
  last_alive_time_ := now;
  state_ := Handshaking;
  udp_endpoint_ := None;
  udp_ep_update_time_ := 0;
  last_udp_alive_time_ := 0;
  udp_token_ := EmptyString;
  udp_packet_count_ := 0;
  udp_packet_window_ := 0;
  zone_id_ := 0;
  generation_ := 0;
  life_state_ := LIdle;
  release_callback_ := false;
  bucket_ := fresh_bucket now;
  zone_ := None;
  udp_token_issued_ := 0;
  udp_token_ttl_sec_ := 300
|}.

(** ** Accessors and small state changes of the header *)

Definition update_alive_time (now : Z) (s : Session) : Session := s <| last_alive_time_ := now |>.

Definition set_nickname (n : string) (s : Session) : Session := s <| nickname_ := n |>.

Definition try_acquire_read (s : Session) : bool * Session :=
  (negb (read_pending_ s), s <| read_pending_ := true |>).

Definition release_read (s : Session) : Session := s <| read_pending_ := false |>.

Definition set_state (st : SessionState) (s : Session) : Session := s <| state_ := st |>.

Definition set_udp_endpoint (now : Z) (ep : endpoint) (s : Session) : Session :=
  s <| udp_endpoint_ := Some ep |> <| udp_ep_update_time_ := now |>.

Definition clear_udp_endpoint (s : Session) : Session := s <| udp_endpoint_ := None |>.

Definition update_udp_alive_time (now : Z) (s : Session) : Session :=
  s <| last_udp_alive_time_ := now |>.

Definition state_to_string (s : Session) : string :=
  match state_ s with
  | Handshaking => "Handshaking"
  | LoginWait => "LoginWait"
  | Ready => "Ready"
  | Closed => "Closed"
  | _ => "Unknown"
  end.

Definition set_zone (z : option Z) (s : Session) : Session := s <| zone_ := z |>.
Definition set_zone_id (zone_id : Z) (s : Session) : Session := s <| zone_id_ := zone_id |>.
Definition clear_zone (s : Session) : Session := s <| zone_ := None |>.

Definition set_udp_token_ttl (secs : Z) (s : Session) : Session := s <| udp_token_ttl_sec_ := secs |>.

(** [ttl] is the configured [udp_token_ttl_seconds]. *)
Definition set_udp_token (now ttl : Z) (token : string) (s : Session) : Session :=
  s <| udp_token_ := token |> <| udp_token_issued_ := now |> <| udp_token_ttl_sec_ := ttl |>.

Definition is_udp_token_valid (now : Z) (s : Session) : bool :=
  if decide (udp_token_ s = EmptyString) then false
  else if decide (udp_token_issued_ s = 0) then false
  else Z.quot (now - udp_token_issued_ s) 1000000000 <=? udp_token_ttl_sec_ s.

Definition clear_udp_token (s : Session) : Session :=
  s <| udp_token_ := EmptyString |> <| udp_token_issued_ := 0 |>.

(** ** Life cycle *)

(** [compare_exchange_strong]. *)
Definition cas_life (expected desired : LifeState) (s : Session) : bool * Session :=
  if decide (life_state_ s = expected) then (true, s <| life_state_ := desired |>)
  else (false, s).

Definition try_activate (s : Session) : bool * Session := cas_life LIdle LActive s.

Definition try_close (s : Session) : bool * Session :=
  match cas_life LActive LClosing s with
  | (true, s') => (true, s')
  | (false, s') => cas_life LIdle LClosing s'
  end.

Definition finalize_close (s : Session) : Session := s <| life_state_ := LClosed |>.
Definition mark_released (s : Session) : Session := s <| life_state_ := LReleased |>.

Definition set_active (v : bool) (s : Session) : Session :=
  if v then snd (try_activate s) else snd (cas_life LActive LIdle s).

Definition is_active (s : Session) : bool := bool_decide (life_state_ s = LActive).
Definition is_released (s : Session) : bool := bool_decide (life_state_ s = LReleased).

Definition on_nickname_registered (s : Session) : Session :=
  s <| nickname_registered_ := true |> <| state_ := Ready |> <| login_timer_ := None |>.

(** [reset(new_socket, session_id)]. *)
Definition reset (now : Z) (new_socket : Z) (session_id : Z) (s : Session) : Session :=
  s <| socket_ := Some new_socket |>
    <| login_timer_ := None |>
    <| session_id_ := session_id |>
    <| nickname_ := EmptyString |> <| line_buffer_ := EmptyString |> <| message_ := EmptyString |>
    <| closed_ := false |> <| read_pending_ := false |> <| task_running_ := false |>
    <| task_queue_ := [] |> <| write_queue_ := [] |>
    <| state_ := Handshaking |>
    <| udp_endpoint_ := None |> <| udp_ep_update_time_ := 0 |> <| last_udp_alive_time_ := 0 |>
    <| udp_token_ := EmptyString |> <| udp_packet_count_ := 0 |> <| udp_packet_window_ := 0 |>
    <| zone_id_ := 0 |>
    <| last_alive_time_ := now |> <| nickname_registered_ := false |>
    <| msg_buf_mgr_ ::= clear |>
    <| generation_ ::= Z.succ |>
    <| udp_token_issued_ := 0 |> <| udp_token_ttl_sec_ := 300 |>.

Definition cleanup (s : Session) : Session :=
  s <| nickname_ := EmptyString |> <| line_buffer_ := EmptyString |> <| message_ := EmptyString |>
    <| udp_endpoint_ := None |> <| udp_ep_update_time_ := 0 |> <| last_udp_alive_time_ := 0 |>
    <| udp_token_ := EmptyString |> <| udp_packet_count_ := 0 |> <| udp_packet_window_ := 0 |>
    <| zone_ := None |> <| zone_id_ := -1 |>
    <| task_queue_ := [] |> <| write_queue_ := [] |>
    <| login_timer_ := None |>
    <| generation_ ::= Z.succ |>
    <| closed_ := false |> <| read_pending_ := false |> <| task_running_ := false |>
    <| nickname_registered_ := false |>
    <| life_state_ := LIdle |>.

(** ** Flood control *)
Definition check_udp_rate (now : Z) (s : Session) : bool * Session :=
  let '(ok, b) := checkUdpRateLimit now (bucket_ s) in (ok, s <| bucket_ := b |>).

(** ** The write queue

    [enqueue_write] up to the point where it may close the session: drops the
    oldest message when the queue is full and says whether the limit of
    consecutive overflows is reached. *)
Definition enqueue_overflow (max_write_queue_size overflow_limit : Z) (s : Session) :
    bool * Session :=
  if max_write_queue_size <=? len (write_queue_ s) then
    let s := s <| write_queue_ ::= tail |>
               <| write_queue_overflow_count_ ::= Z.succ |> in
    (overflow_limit <=? write_queue_overflow_count_ s, s)
  else (false, s <| write_queue_overflow_count_ := 0 |>).

Definition push_write (msg : string) (s : Session) : Session :=
  s <| write_queue_ ::= fun q => q ++ [msg] |>.
