(* ===== verification/World.v ===== *)
(** * The server's state

    One record holds the heap of sessions and the members of the components
    that share them: [SessionPool], [SessionManager], [ZoneManager] with its
    zones, [DataHandler], the acceptor's counter, the queues of asio (strand
    jobs, outstanding asynchronous operations) and the trace of what was sent.

    A [shared_ptr<Session>] is an address in [w_heap]; a [weak_ptr] is one
    too, and [weak_lock] fails when the address is not in the heap.  Handlers
    run one at a time, each at one instant [w_now]. *)
From Stdlib Require Import ZArith Lia Strings.Byte.
From stdpp Require Import base gmap sets list strings.
From S2P Require Import Prelude MessageBuffer RateLimit Json Session.

Open Scope Z_scope.

Abbreviation sptr := nat.

(** A lambda waiting in the strand of a session. *)
Inductive Job :=
| JPostWrite (msg : string)      (** body of [post_write] *)
| JPostTask (t : Task).          (** body of [post_task] *)

(** A lambda waiting in [udp_send_strand_] or in the strand of a zone. *)
Inductive BgJob :=
| BUdpBroadcast (msg sender_nickname : string)
| BZoneBroadcast (zone_id : Z) (msg sender_nickname : string).

(** The periodic timers of [DataHandler]. *)
Inductive LoopTimer := KeepaliveTimer | MonitorTimer | CleanupTimer.

#[export] Instance LoopTimer_eq_dec : EqDecision LoopTimer.
Proof. solve_decision. Defined.

(** Outstanding asynchronous operations: what asio will complete one day by
    calling the handler of the operation. *)
Inductive Op :=
| OpRead (p : sptr)                                (** [async_read_some] *)
| OpWrite (p : sptr) (msg : string) (gen : Z)      (** [async_write] *)
| OpAccept                                         (** [async_accept] *)
| OpReceive                                        (** [async_receive_from] *)
| OpTimer (t : LoopTimer) (expiry : Z)             (** [async_wait] *)
| OpDb (p : sptr) (nickname : string) (session_id : Z).
                                                   (** a request of [LoginFlow] *)

#[export] Instance Op_eq_dec : EqDecision Op.
Proof. solve_decision. Defined.

(** What leaves the process. *)
Inductive Out :=
| OTcp (conn : Z) (bytes : list byte)
| OUdp (dest : endpoint) (payload : string)
| OAlert (text : string).

Record Pool := mkPool {
  pool_ : list sptr;
  reusable_indices_ : list nat;
  available_index_set_ : gset nat;
  max_size_ : Z
}.
#[export] Instance eta_Pool : Settable Pool := fun x =>
  mkPool (pool_ x) (reusable_indices_ x) (available_index_set_ x) (max_size_ x).

Record SessionManager := mkSessionManager {
  shard_count_ : Z;
  session_buckets_ : list (gmap Z sptr);
  nickname_index_ : gmap string sptr;
  nickname_locked : bool             (** [nickname_mutex_] is held *)
}.
#[export] Instance eta_SessionManager : Settable SessionManager := fun x =>
  mkSessionManager (shard_count_ x) (session_buckets_ x) (nickname_index_ x) (nickname_locked x).

Record Zone := mkZone {
  max_sessions_ : Z;
  sessions_ : gmap Z sptr
}.
#[export] Instance eta_Zone : Settable Zone := fun x => mkZone (max_sessions_ x) (sessions_ x).

Record DataHandler := mkDataHandler {
  udp_endpoint_to_session_ : gmap endpoint sptr;
  bad_udp_map_ : gmap string BadUdpInfo;
  udp_total_packet_count_ : Z;
  udp_total_packet_window_ : Z;
  udp_global_limiter_ : UdpRateLimiterShard;
  session_pool_set : bool            (** [session_pool_] is not null *)
}.
#[export] Instance eta_DataHandler : Settable DataHandler := fun x =>
  mkDataHandler (udp_endpoint_to_session_ x) (bad_udp_map_ x) (udp_total_packet_count_ x)
    (udp_total_packet_window_ x) (udp_global_limiter_ x) (session_pool_set x).

(** The weak pointers of [AppContext] and the state of the DB link that
    [LoginFlow] asks for. *)
Record AppLinks := mkAppLinks {
  db_router_alive : bool;
  db_client_connected : bool;
  managers_alive : bool
}.

Record World := mkWorld {
  w_now : Z;
  w_config : gmap string Z;
  w_handler_alive : bool;            (** [Session::data_handler_] can be locked *)
  w_strand : option sptr;            (** the session strand this handler runs in *)
  w_busy : gset sptr;                (** session strands other threads are running *)
  w_busy_zones : gset Z;             (** zone strands other threads are running *)
  w_heap : gmap sptr Session;
  w_next : sptr;                     (** next fresh address *)
  w_jobs : gmap sptr (list Job);
  w_ops : list Op;
  w_pool : Pool;
  w_sm : SessionManager;
  w_zones : gmap Z Zone;
  w_dh : DataHandler;
  w_bg : list BgJob;
  w_counter : Z;                     (** [Server::session_counter_] *)
  w_devices : nat;                   (** random devices consumed *)
  w_links : AppLinks;
  w_out : list Out;
  w_slow : gset sptr                 (** sessions whose socket has no room for four bytes *)
}.
#[export] Instance eta_World : Settable World := fun w => mkWorld
  (w_now w) (w_config w) (w_handler_alive w) (w_strand w) (w_busy w) (w_busy_zones w) (w_heap w) (w_next w) (w_jobs w)
  (w_ops w) (w_pool w) (w_sm w) (w_zones w) (w_dh w) (w_bg w) (w_counter w) (w_devices w)
  (w_links w) (w_out w) (w_slow w).

Abbreviation P := (M World).

(** [AppContext::instance().config.value(key, default)] for the integer
    settings, and its conversion to [size_t]. *)
Definition config_value (c : gmap string Z) (key : string) (default : Z) : Z :=
  match c !! key with Some v => v | None => default end.
Definition config_int (key : string) (default : Z) : P Z :=
  gets (fun w => config_value (w_config w) key default).
Definition config_size (key : string) (default : Z) : P Z :=
  gets (fun w => u64 (config_value (w_config w) key default)).

Definition now : P Z := gets w_now.

(** ** The heap *)

(** Reads the session and writes back; a dangling pointer is undefined
    behaviour. *)
Definition with_session {A} (p : sptr) (f : Session -> A * Session) : P A := fun w =>
  match w_heap w !! p with
  | None => (UB, w)
  | Some s => let '(a, s') := f s in (Ret a, w <| w_heap ::= <[p := s']> |>)
  end.

Definition get {A} (p : sptr) (f : Session -> A) : P A := fun w =>
  match w_heap w !! p with
  | None => (UB, w)
  | Some s => (Ret (f s), w)
  end.

Definition upd (p : sptr) (f : Session -> Session) : P unit :=
  with_session p (fun s => (tt, f s)).

(** [weak_ptr::lock]. *)
Definition weak_lock (p : sptr) : P (option sptr) :=
  gets (fun w => match w_heap w !! p with Some _ => Some p | None => None end).

(** [std::make_shared<Session>]. *)
Definition alloc : P sptr := fun w =>
  let p := w_next w in
  (Ret p, w <| w_heap ::= <[p := new_session (w_now w)]> |> <| w_next ::= S |>).

Definition start_op (o : Op) : P unit := modify (fun w => w <| w_ops ::= fun l => l ++ [o] |>).

Definition emit (o : Out) : P unit := modify (fun w => w <| w_out ::= fun l => l ++ [o] |>).

(** [udp_socket.async_send_to(buffer, ep, ...)]. *)
Definition async_send_to (payload : string) (ep : endpoint) : P unit := emit (OUdp ep payload).

Definition send_admin_alert (message : string) : P unit := emit (OAlert message).

(** [async_write] of a message behind its length prefix.  The prefix is in
    [len_buf], a local array of the caller: asio takes its four bytes when the
    operation starts if the socket has room for them, and reads the dead array
    later if not, which is undefined behaviour. *)
Definition send_prefixed (p : sptr) (conn : Z) (msg : string) : P unit :=
  slow ← gets (fun w => bool_decide (p ∈ w_slow w));
  if (slow : bool) then ub
  else emit (OTcp conn (frame (String.list_byte_of_string msg))).

(** Every socket takes the prefix at once. *)
Definition prompt (w : World) : Prop := w_slow w = ∅.

Lemma send_prefixed_prompt p conn msg w :
  prompt w -> send_prefixed p conn msg w = emit (OTcp conn (frame (String.list_byte_of_string msg))) w.
Proof.
  intros Hp. unfold send_prefixed, gets, mbind, M_bind, bind. rewrite bool_decide_false; [done |].
  rewrite Hp. apply not_elem_of_empty.
Qed.

(** A lock of [nickname_mutex_]: taking a [std::mutex] that is already held by
    the thread is undefined behaviour. *)
Definition with_nickname_lock {A} (m : P A) : P A := fun w =>
  if nickname_locked (w_sm w) then (UB, w)
  else
    let '(r, w') := m (w <| w_sm ::= fun sm => sm <| nickname_locked := true |> |>) in
    (r, w' <| w_sm ::= fun sm => sm <| nickname_locked := false |> |>).

Definition upd_pool (f : Pool -> Pool) : P unit := modify (fun w => w <| w_pool ::= f |>).
Definition upd_sm (f : SessionManager -> SessionManager) : P unit :=
  modify (fun w => w <| w_sm ::= f |>).
Definition upd_dh (f : DataHandler -> DataHandler) : P unit :=
  modify (fun w => w <| w_dh ::= f |>).
Definition upd_zones (f : gmap Z Zone -> gmap Z Zone) : P unit :=
  modify (fun w => w <| w_zones ::= f |>).

(** ** Running one operation of a sequence *)

Section run.
Context {A B : Type}.

Lemma bind_get (p : sptr) (f : Session -> A) (k : A -> P B) w s :
  w_heap w !! p = Some s -> (get p f ≫= k) w = k (f s) w.
Proof. intros Hs. unfold mbind, M_bind, bind, get. by rewrite Hs. Qed.

Lemma bind_with_session (p : sptr) (f : Session -> A * Session) (k : A -> P B) w s :
  w_heap w !! p = Some s ->
  (with_session p f ≫= k) w = k (fst (f s)) (w <| w_heap ::= <[p := snd (f s)]> |>).
Proof. intros Hs. unfold mbind, M_bind, bind, with_session. rewrite Hs. by destruct (f s). Qed.

Lemma bind_upd (p : sptr) (f : Session -> Session) (k : unit -> P B) w s :
  w_heap w !! p = Some s -> (upd p f ≫= k) w = k tt (w <| w_heap ::= <[p := f s]> |>).
Proof. intros Hs. unfold mbind, M_bind, bind, upd, with_session. by rewrite Hs. Qed.

Lemma bind_gets (f : World -> A) (k : A -> P B) w : (gets f ≫= k) w = k (f w) w.
Proof. reflexivity. Qed.

Lemma bind_modify (f : World -> World) (k : unit -> P B) w : (modify f ≫= k) w = k tt (f w).
Proof. reflexivity. Qed.

Lemma bind_ret (a : A) (k : A -> P B) w : (mret a ≫= k) w = k a w.
Proof. reflexivity. Qed.
End run.
