(* ===== verification/SessionPool.v ===== *)
(** * SessionPool.{h,cpp}

    The pool owns every session object ([pool_]); [reusable_indices_] is the
    queue of indices to hand out again and [available_index_set_] guards
    against a second release.  The release build is modelled: the [assert]s
    under [#ifndef NDEBUG] are absent. *)
From Stdlib Require Import ZArith Lia.
From stdpp Require Import base gmap sets list strings pretty.
From S2P Require Import Prelude RateLimit Json Session World.

Open Scope Z_scope.

(** The constructor: [pool_size] sessions, all reusable. *)
Fixpoint construct (n : nat) : P unit :=
  match n with
  | O => ret tt
  | S n' =>
      p ← alloc;
      i ← gets (fun w => length (pool_ (w_pool w)));
      upd_pool (fun x => x <| pool_ ::= fun l => l ++ [p] |>
                           <| reusable_indices_ ::= fun q => q ++ [i] |>);;
      construct n'
  end.

Definition pool_size : P nat := gets (fun w => length (pool_ (w_pool w))).

(** The index [acquire] works on: a reusable one, or a new session at the end
    of the pool, or none when the pool is full. *)
Definition take_index : P (option nat) :=
  pool ← gets w_pool;
  match reusable_indices_ pool with
  | [] =>
      if u64 (max_size_ pool) <=? len (pool_ pool) then mret None
      else
        p ← alloc;
        upd_pool (fun x => x <| pool_ ::= fun l => l ++ [p] |>);;
        mret (Some (length (pool_ pool)))
  | idx :: rest =>
      upd_pool (fun x => x <| reusable_indices_ := rest |>
                           <| available_index_set_ ::= fun s => s ∖ {[idx]} |>);;
      mret (Some idx)
  end.

Definition acquire (socket : Z) (session_id : Z) : P (option sptr) :=
  idx ← take_index;
  match idx with
  | None => mret None
  | Some idx =>
      pool ← gets w_pool;
      match pool_ pool !! idx with
      | None => ub
      | Some sess =>
          t ← now;
          upd sess (reset t socket session_id);;
          upd sess (set_active true);;
          upd sess (fun s => s <| release_callback_ := true |>);;
          upd sess cleanup;;
          mret (Some sess)
      end
  end.

(** [std::find] over [pool_]. *)
Fixpoint index_of (p : sptr) (l : list sptr) : option nat :=
  match l with
  | [] => None
  | q :: l' => if decide (q = p) then Some O else S <$> index_of p l'
  end.

Definition release (session : sptr) : P unit :=
  pool ← gets w_pool;
  match index_of session (pool_ pool) with
  | None => mret tt
  | Some idx =>
      if decide (idx ∈ available_index_set_ pool) then
        send_admin_alert ("[ALERT] SessionPool 중복 acquire 감지! idx=" +:+ pretty idx)
      else
        upd session cleanup;;
        upd session mark_released;;
        upd session (set_active false);;
        upd_pool (fun x => x <| reusable_indices_ ::= fun q => q ++ [idx] |>
                             <| available_index_set_ ::= fun s => {[idx]} ∪ s |>)
  end.

(** The sessions [for_each_active] visits, in pool order. *)
Definition active_sessions (w : World) : list sptr :=
  List.filter (fun p => match w_heap w !! p with Some s => is_active s | None => false end)
    (pool_ (w_pool w)).

Definition for_each_active (fn : sptr -> P unit) : P unit :=
  l ← gets active_sessions;
  for_each l fn.

Definition count_active : P Z := gets (fun w => len (active_sessions w)).
