(* ===== verification/Zones.v ===== *)
(** * Zone.{h,cpp} and ZoneManager.{h,cpp}

    A zone holds weak pointers to at most [max_sessions_] sessions, keyed by
    session id. *)
From Stdlib Require Import ZArith Lia.
From stdpp Require Import base gmap sets list strings.
From S2P Require Import Prelude RateLimit Json Session World.

Open Scope Z_scope.

(** ** Zone *)

Definition Zone_add_session (z : Zone) (id : Z) (p : sptr) : bool * Zone :=
  if max_sessions_ z <=? Z.of_nat (size (sessions_ z)) then (false, z)
  else
    match sessions_ z !! id with
    | Some _ => (false, z)
    | None => (true, z <| sessions_ ::= <[id := p]> |>)
    end.

Definition Zone_remove_session (z : Zone) (id : Z) : Zone := z <| sessions_ ::= delete id |>.

(** The live sessions of a zone. *)
Definition zone_members (z : Zone) (heap : gmap sptr Session) : list sptr :=
  filter (fun p => is_Some (heap !! p)) ((map_to_list (sessions_ z)).*2).

(** [Zone::for_each_session]: calls [fn] on the live sessions and drops the
    expired entries.  The zone is named by its id; callers hold a pointer they
    got from [get_zone], so it is in the table. *)
Definition Zone_for_each_session (zone_id : Z) (fn : sptr -> P unit) : P unit :=
  w ← gets id;
  match w_zones w !! zone_id with
  | None => mret tt
  | Some z =>
      for_each (zone_members z (w_heap w)) fn;;
      upd_zones (<[zone_id :=
        z <| sessions_ ::= filter (fun kv => is_Some (w_heap w !! kv.2)) |>]>)
  end.

(** The lambda [Zone::broadcast] dispatches on the zone's strand. *)
Definition run_zone_broadcast (zone_id : Z) (msg sender_nickname : string) : P unit :=
  w ← gets id;
  match w_zones w !! zone_id with
  | None => mret tt
  | Some z =>
      for_each (zone_members z (w_heap w)) (fun sess =>
        nick ← get sess nickname_;
        ep ← get sess udp_endpoint_;
        if decide (nick = sender_nickname) then mret tt
        else match ep with
             | Some ep => async_send_to msg ep
             | None => mret tt
             end)
  end.

(** The lambda runs at once when the zone's strand is idle. *)
Definition zone_idle (zone_id : Z) (w : World) : bool :=
  bool_decide (zone_id ∉ w_busy_zones w) &&
  forallb (fun j => match j with
                    | BZoneBroadcast z _ _ => negb (bool_decide (z = zone_id))
                    | _ => true
                    end) (w_bg w).

Definition Zone_broadcast (zone_id : Z) (msg sender_nickname : string) : P unit :=
  inline ← gets (zone_idle zone_id);
  if (inline : bool) then run_zone_broadcast zone_id msg sender_nickname
  else modify (fun w => w <| w_bg ::= fun q => q ++ [BZoneBroadcast zone_id msg sender_nickname] |>).

(** ** ZoneManager *)

(** The constructor: zones [1..zone_count]. *)
Fixpoint make_zones (n : nat) (max_sessions : Z) : gmap Z Zone :=
  match n with
  | O => ∅
  | S n' => <[Z.of_nat n := mkZone max_sessions ∅]> (make_zones n' max_sessions)
  end.

Definition ZoneManager_init (c : gmap string Z) (zone_count : Z) : gmap Z Zone :=
  make_zones (Z.to_nat zone_count) (u64 (config_value c "zone_max_sessions_count" 500)).

Definition get_zone (zone_id : Z) : P (option Zone) := gets (fun w => w_zones w !! zone_id).

Definition remove_zone (zone_id : Z) : P unit := upd_zones (delete zone_id).

Definition ZoneManager_remove_session (sess : sptr) : P unit :=
  zone_id ← get sess zone_id_;
  when (-1 <? zone_id) (
    zone ← get_zone zone_id;
    match zone with
    | Some z =>
        id ← get sess session_id_;
        upd_zones (<[zone_id := Zone_remove_session z id]>);;
        upd sess (set_zone_id (-1));;
        upd sess clear_zone
    | None => mret tt
    end).
