(* ===== verification/SessionStore.v ===== *)
(** * SessionManager: the sharded table and the nickname index

    The operations of [SessionManager] that do not close sessions, and the
    proof that the shards together behave as one map from session ids. *)
From Stdlib Require Import ZArith Lia.
From stdpp Require Import base gmap sets list strings.
From S2P Require Import Prelude RateLimit Json Session World.

Open Scope Z_scope.

(** [session_id % shard_count_]: the [int] is converted to [size_t], the
    remainder back to [int]. *)
Definition get_shard (shard_count session_id : Z) : Z := i32 (u64 session_id mod shard_count).

Definition new_manager (shard_count : Z) : SessionManager := {|
  shard_count_ := shard_count;
  session_buckets_ := replicate (Z.to_nat shard_count) ∅;
  nickname_index_ := ∅;
  nickname_locked := false
|}.

(** The bucket of a session id, read and written under its mutex. *)
Definition with_bucket {A} (session_id : Z) (f : gmap Z sptr -> A * gmap Z sptr) : P A := fun w =>
  let shard := Z.to_nat (get_shard (shard_count_ (w_sm w)) session_id) in
  match session_buckets_ (w_sm w) !! shard with
  | None => (UB, w)
  | Some b =>
      let '(a, b') := f b in
      (Ret a, w <| w_sm ::= fun sm => sm <| session_buckets_ ::= <[shard := b']> |> |>)
  end.

Definition remove_session (session_id : Z) : P (option sptr) :=
  with_bucket session_id (fun b => (b !! session_id, delete session_id b)).

Definition find_session (session_id : Z) : P (option sptr) :=
  with_bucket session_id (fun b => (b !! session_id, b)).

(** The vector [for_each_session] fills before calling back. *)
Definition all_sessions (sm : SessionManager) : list sptr :=
  concat (map (fun b : gmap Z sptr => (map_to_list b).*2) (session_buckets_ sm)).

Definition for_each_session (fn : sptr -> P unit) : P unit :=
  sessions ← gets (fun w => all_sessions (w_sm w));
  for_each sessions fn.

Definition session_count : P Z :=
  gets (fun w => foldl (fun total (b : gmap Z sptr) => total + Z.of_nat (size b)) 0
                   (session_buckets_ (w_sm w))).

(** [get_total_session_count] has the same body as [session_count]. *)
Definition get_total_session_count : P Z :=
  gets (fun w => foldl (fun total (b : gmap Z sptr) => total + Z.of_nat (size b)) 0
                   (session_buckets_ (w_sm w))).

Definition find_session_by_nickname (nickname : string) : P (option sptr) :=
  with_nickname_lock (
    idx ← gets (fun w => nickname_index_ (w_sm w));
    match idx !! nickname with
    | Some p => weak_lock p
    | None => mret None
    end).

Definition cleanup_expired_nicknames : P unit :=
  with_nickname_lock (
    heap ← gets w_heap;
    upd_sm (fun sm => sm <| nickname_index_ ::= filter (fun kv => is_Some (heap !! kv.2)) |>)).

Definition unregister_nickname (nickname : string) (session : sptr) : P unit :=
  with_nickname_lock (
    idx ← gets (fun w => nickname_index_ (w_sm w));
    match idx !! nickname with
    | None => mret tt
    | Some p =>
        owner ← weak_lock p;
        if decide (owner = Some session)
        then upd_sm (fun sm => sm <| nickname_index_ ::= delete nickname |>)
        else mret tt
    end;;
    cleanup_expired_nicknames).

(** ** The abstract table *)

(** The shards seen as one map. *)
Definition table (sm : SessionManager) : gmap Z sptr := ⋃ (session_buckets_ sm).

Definition wf_manager (sm : SessionManager) : Prop :=
  0 < shard_count_ sm <= 2 ^ 31 /\
  length (session_buckets_ sm) = Z.to_nat (shard_count_ sm) /\
  forall i b id, session_buckets_ sm !! i = Some b -> is_Some (b !! id) ->
    Z.to_nat (get_shard (shard_count_ sm) id) = i.

Lemma get_shard_range n id : 0 < n <= 2 ^ 31 -> 0 <= get_shard n id < n.
Proof.
  intros Hn. unfold get_shard. pose proof (Z.mod_pos_bound (u64 id) n ltac:(lia)).
  rewrite i32_small; lia.
Qed.

Lemma new_manager_wf n : 0 < n <= 2 ^ 31 -> wf_manager (new_manager n).
Proof.
  intros Hn. split; [done |]. split; [apply length_replicate |].
  intros i b id Hb [p Hp]. cbn in Hb. apply lookup_replicate in Hb as [-> _].
  by rewrite lookup_empty in Hp.
Qed.

Lemma bucket_exists sm id :
  wf_manager sm ->
  exists b, session_buckets_ sm !! Z.to_nat (get_shard (shard_count_ sm) id) = Some b.
Proof.
  intros (Hn & Hlen & _). pose proof (get_shard_range (shard_count_ sm) id Hn).
  apply lookup_lt_is_Some. lia.
Qed.

Lemma union_list_lookup (l : list (gmap Z sptr)) (id : Z) (i : nat) (b : gmap Z sptr) :
  l !! i = Some b ->
  (forall j b', l !! j = Some b' -> is_Some (b' !! id) -> j = i) ->
  (⋃ l) !! id = b !! id.
Proof.
  revert i. induction l as [| a l IH]; intros i Hi Hu; [done |]. cbn [union_list foldr].
  destruct i as [| i]; cbn in Hi.
  - injection Hi as ->. destruct (b !! id) eqn:E.
    + by apply lookup_union_Some_l.
    + rewrite lookup_union_r by done.
      assert (Hno : forall j b', l !! j = Some b' -> b' !! id = None).
      { intros j b' Hj. destruct (b' !! id) eqn:E'; [| done].
        specialize (Hu (S j) b' Hj (ex_intro _ _ E')). lia. }
      clear -Hno. induction l as [| c l IH]; [apply lookup_empty |]. cbn [union_list foldr].
      rewrite lookup_union_r by (apply (Hno O); done). apply IH.
      intros j b' Hj. apply (Hno (S j) b' Hj).
  - rewrite lookup_union_r.
    + apply (IH i Hi). intros j b' Hj Hs. specialize (Hu (S j) b' Hj Hs). lia.
    + destruct (a !! id) eqn:E; [| done]. specialize (Hu O a eq_refl (ex_intro _ _ E)). lia.
Qed.

Lemma table_lookup sm id b :
  wf_manager sm ->
  session_buckets_ sm !! Z.to_nat (get_shard (shard_count_ sm) id) = Some b ->
  table sm !! id = b !! id.
Proof.
  intros (Hn & Hlen & Hwf) Hb. unfold table. eapply union_list_lookup; [exact Hb |].
  intros j b' Hj Hs. symmetry. by eapply Hwf.
Qed.

(** Rewriting the bucket of one id, at that id only. *)
Definition set_bucket (id : Z) (b : gmap Z sptr) (sm : SessionManager) : SessionManager :=
  sm <| session_buckets_ ::= <[Z.to_nat (get_shard (shard_count_ sm) id) := b]> |>.

Lemma set_bucket_wf sm id b b' :
  wf_manager sm ->
  session_buckets_ sm !! Z.to_nat (get_shard (shard_count_ sm) id) = Some b ->
  (forall k, k <> id -> b' !! k = b !! k) ->
  wf_manager (set_bucket id b' sm).
Proof.
  intros (Hn & Hlen & Hwf) Hb Hk. split; [done |]. split; [by cbn; rewrite length_insert |].
  cbn. intros i c k Hi Hs. apply list_lookup_insert_Some in Hi as [(<- & <- & _) | (Hne & Hi)].
  - destruct (decide (k = id)) as [-> | Hkne]; [done |].
    rewrite Hk in Hs by done. by eapply Hwf.
  - by eapply Hwf.
Qed.

Lemma set_bucket_table sm id b b' k :
  wf_manager sm ->
  session_buckets_ sm !! Z.to_nat (get_shard (shard_count_ sm) id) = Some b ->
  (forall k, k <> id -> b' !! k = b !! k) ->
  table (set_bucket id b' sm) !! k = if decide (k = id) then b' !! id else table sm !! k.
Proof.
  intros Hsm Hb Hk. pose proof (set_bucket_wf sm id b b' Hsm Hb Hk) as Hwf'.
  assert (Hlt := lookup_lt_Some _ _ _ Hb).
  destruct (bucket_exists sm k Hsm) as [c Hc].
  destruct (decide (Z.to_nat (get_shard (shard_count_ sm) k) =
                    Z.to_nat (get_shard (shard_count_ sm) id))) as [Hs | Hs].
  - rewrite (table_lookup _ k b' Hwf').
    2: { cbn. rewrite Hs. by apply list_lookup_insert_eq. }
    destruct (decide (k = id)) as [-> | Hne]; [done |].
    rewrite Hk by done. symmetry. apply table_lookup; [done |]. by rewrite Hs.
  - rewrite (table_lookup _ k c Hwf').
    2: { cbn. by rewrite list_lookup_insert_ne. }
    destruct (decide (k = id)) as [-> | Hne]; [done |].
    symmetry. by apply table_lookup.
Qed.

Lemma disjoint_buckets (b : gmap Z sptr) (l : list (gmap Z sptr)) :
  (forall j c id, l !! j = Some c -> is_Some (b !! id) -> is_Some (c !! id) -> False) ->
  b ##ₘ ⋃ l.
Proof.
  intros H. induction l as [| c l IH]; cbn [union_list foldr]; [apply map_disjoint_empty_r |].
  apply map_disjoint_union_r_2.
  - apply map_disjoint_spec. intros id x y Hx Hy. apply (H O c id); eauto.
  - apply IH. intros j d id Hj. apply (H (S j) d id Hj).
Qed.

Lemma concat_buckets (l : list (gmap Z sptr)) :
  (forall i j b c id, l !! i = Some b -> l !! j = Some c ->
     is_Some (b !! id) -> is_Some (c !! id) -> i = j) ->
  concat (map (fun b : gmap Z sptr => (map_to_list b).*2) l) ≡ₚ (map_to_list (⋃ l)).*2 /\
  forall n, foldl (fun total (b : gmap Z sptr) => total + Z.of_nat (size b)) n l =
            n + Z.of_nat (size (⋃ l)).
Proof.
  induction l as [| b l IH]; intros H; cbn [union_list foldr map concat foldl].
  - split; [by rewrite map_to_list_empty |]. intros n. rewrite map_size_empty. lia.
  - assert (Hd : b ##ₘ ⋃ l).
    { apply disjoint_buckets. intros j c id Hj Hb Hc.
      specialize (H O (S j) b c id eq_refl Hj Hb Hc). lia. }
    destruct IH as [IH1 IH2].
    { intros i j b' c' id Hi Hj Hb Hc. specialize (H (S i) (S j) b' c' id Hi Hj Hb Hc). lia. }
    split.
    + fold (⋃ l). rewrite map_to_list_disj_union by done. by rewrite fmap_app, IH1.
    + intros n. rewrite IH2. fold (⋃ l). rewrite map_size_disj_union by done. lia.
Qed.

Lemma wf_buckets_disjoint sm :
  wf_manager sm ->
  forall i j b c id, session_buckets_ sm !! i = Some b -> session_buckets_ sm !! j = Some c ->
    is_Some (b !! id) -> is_Some (c !! id) -> i = j.
Proof.
  intros (_ & _ & Hwf) i j b c id Hi Hj Hb Hc.
  rewrite <- (Hwf i b id Hi Hb), <- (Hwf j c id Hj Hc). done.
Qed.

Lemma all_sessions_table sm :
  wf_manager sm -> all_sessions sm ≡ₚ (map_to_list (table sm)).*2.
Proof. intros H. apply concat_buckets, (wf_buckets_disjoint sm H). Qed.

Lemma elem_of_all_sessions sm p :
  wf_manager sm -> p ∈ all_sessions sm <-> exists id, table sm !! id = Some p.
Proof.
  intros H. rewrite (all_sessions_table sm H), list_elem_of_fmap. split.
  - intros ([id q] & -> & Hin). exists id. by apply elem_of_map_to_list.
  - intros [id Hid]. exists (id, p). split; [done |]. by apply elem_of_map_to_list.
Qed.

(** ** Properties *)

(** C19. Refinement of the sharded table: on a well-formed manager
    [remove_session], [find_session], [session_count] and the sweep of
    [for_each_session] behave as deletion, lookup, size and enumeration of one
    abstract map from session ids to sessions, never index a bucket out of
    range, and keep the manager well formed; no other component is touched. *)
Theorem sharding_refines_map w id :
  wf_manager (w_sm w) ->
  let t := table (w_sm w) in
  outcome (remove_session id) w = Ret (t !! id) /\
  (forall k, table (w_sm (exec (remove_session id) w)) !! k = delete id t !! k) /\
  wf_manager (w_sm (exec (remove_session id) w)) /\
  w_heap (exec (remove_session id) w) = w_heap w /\
  outcome (find_session id) w = Ret (t !! id) /\
  outcome session_count w = Ret (Z.of_nat (size t)) /\
  all_sessions (w_sm w) ≡ₚ (map_to_list t).*2.
Proof.
  intros Hsm t. destruct (bucket_exists (w_sm w) id Hsm) as [b Hb].
  assert (Ht : t !! id = b !! id) by by apply table_lookup.
  assert (Hk : forall k, k <> id -> delete id b !! k = b !! k)
    by (intros k Hk; by apply lookup_delete_ne).
  unfold remove_session, find_session, with_bucket, exec, outcome. rewrite Hb.
  cbn [fst snd w_sm w_heap].
  split; [by rewrite Ht |]. split.
  { intros k. etransitivity; [apply (set_bucket_table _ id b (delete id b)); done |].
    rewrite lookup_delete_eq. destruct (decide (k = id)) as [-> |].
    - by rewrite lookup_delete_eq.
    - by rewrite lookup_delete_ne. }
  split; [by apply (set_bucket_wf _ id b (delete id b)) |].
  split; [done |]. split; [by rewrite Ht |]. split.
  - unfold session_count, gets. cbn [fst].
    rewrite (proj2 (concat_buckets _ (wf_buckets_disjoint _ Hsm))). f_equal.
  - by apply all_sessions_table.
Qed.

Definition demo_world (heap : gmap sptr Session) (sm : SessionManager) : World := {|
  w_now := seconds 1; w_config := ∅; w_handler_alive := true; w_strand := None; w_busy := ∅; w_busy_zones := ∅;
  w_heap := heap; w_next := size heap; w_jobs := ∅; w_ops := [];
  w_pool := mkPool [] [] ∅ 0; w_sm := sm; w_zones := ∅;
  w_dh := mkDataHandler ∅ ∅ 0 0 (new_limiter 4) true; w_bg := []; w_counter := 0;
  w_devices := O; w_links := mkAppLinks false false true; w_out := []; w_slow := ∅
|}.

Lemma sharding_refines_map_witness :
  outcome (remove_session 7) (demo_world ∅ (new_manager 4)) = Ret None.
Proof.
  destruct (sharding_refines_map (demo_world ∅ (new_manager 4)) 7) as [H _].
  - apply (new_manager_wf 4). vm_compute. split; [reflexivity | discriminate].
  - rewrite H. vm_compute. reflexivity.
Defined.

(** [unregister_nickname] calls [cleanup_expired_nicknames] while it holds
    [nickname_mutex_], which the callee locks again: whatever the state, the
    call relocks a [std::mutex] it already owns. *)
Theorem unregister_nickname_relocks w nickname session :
  outcome (unregister_nickname nickname session) w = UB.
Proof.
  unfold outcome, unregister_nickname, with_nickname_lock at 1.
  destruct (nickname_locked (w_sm w)); [done |].
  unfold mbind, M_bind, bind, gets, weak_lock. cbn.
  destruct (nickname_index_ (w_sm w) !! nickname) as [p |]; [| done].
  by destruct (w_heap w !! p); destruct (decide _).
Qed.
