(* ===== verification/Invariant.v ===== *)
(** * The global invariant of the server's state

    [Inv c bufs svc locked quiet D w]: under configuration [c], with
    [nickname_mutex_] held or not, every pointer the components keep is one of [D], the sessions the pool
    has handed out; the tables are well formed; queues and zones respect their
    configured bounds; and each connection has at most one write of its
    current generation in flight, with a queue that is then not empty, and the
    session [quiet] has none; no socket is slow; the read buffers are those of [bufs]
    and the outstanding services (accept, UDP reception, timers) those of [svc].  The
    lemmas below are the [safe] triples of the primitives of [World],
    [SessionPool], [Zones] and [SessionStore]. *)
From Stdlib Require Import ZArith Lia.
From stdpp Require Import base gmap sets list strings pretty.
From S2P Require Import Prelude MessageBuffer RateLimit Json Session World.
From S2P Require Import SessionPool Zones.
From S2P Require SessionStore.

Open Scope Z_scope.

Definition max_write_queue (c : gmap string Z) : Z :=
  u64 (config_value c "max_write_queue_size" 100).
Definition max_task_queue (c : gmap string Z) : Z :=
  u64 (config_value c "max_task_queue" 1000).

(** ** Sessions *)

Definition session_ok (c : gmap string Z) (s : Session) : Prop :=
  bucket_ok (bucket_ s) /\
  len (write_queue_ s) <= max_write_queue c /\
  len (task_queue_ s) <= max_task_queue c.

(** [advances] without the buffer. *)
Definition advances_buf (s s' : Session) : Prop :=
  generation_ s <= generation_ s' /\
  (generation_ s' = generation_ s -> write_queue_ s <> [] -> write_queue_ s' <> []).

(** What an update may do to a session without upsetting the writes in
    flight and the read buffer: the generation grows, the queue is not emptied
    unless it does, and the buffer stays as it is. *)
Definition advances (s s' : Session) : Prop :=
  generation_ s <= generation_ s' /\
  (generation_ s' = generation_ s -> write_queue_ s <> [] -> write_queue_ s' <> []) /\
  msg_buf_mgr_ s' = msg_buf_mgr_ s.

(** The writes in flight of a session, by generation. *)
Definition is_write_of (p : sptr) (g : Z) (o : Op) : bool :=
  match o with
  | OpWrite q _ g' => bool_decide (q = p) && bool_decide (g' = g)
  | _ => false
  end.
Definition writes_of (p : sptr) (g : Z) (ops : list Op) : nat :=
  length (List.filter (is_write_of p g) ops).

Definition writes_ok (ops : list Op) (p : sptr) (s : Session) : Prop :=
  (writes_of p (generation_ s) ops <= 1)%nat /\
  ((0 < writes_of p (generation_ s) ops)%nat -> write_queue_ s <> []) /\
  (forall g, generation_ s < g -> writes_of p g ops = 0%nat).

Lemma advances_same s s' :
  generation_ s' = generation_ s -> write_queue_ s' = write_queue_ s ->
  msg_buf_mgr_ s' = msg_buf_mgr_ s -> advances s s'.
Proof. intros Hg Hw Hb. unfold advances. rewrite Hg, Hw, Hb. split; [lia |]. auto. Qed.

Lemma advances_nonempty s s' :
  generation_ s' = generation_ s -> write_queue_ s' <> [] ->
  msg_buf_mgr_ s' = msg_buf_mgr_ s -> advances s s'.
Proof. intros Hg Hw Hb. unfold advances. rewrite Hg, Hb. split; [lia |]. auto. Qed.

Lemma advances_bump s s' :
  generation_ s < generation_ s' -> msg_buf_mgr_ s' = msg_buf_mgr_ s -> advances s s'.
Proof. intros Hg Hb. unfold advances. rewrite Hb. split; [lia |]. split; [lia | done]. Qed.

(** ** Components *)

Definition op_ptr (o : Op) : option sptr :=
  match o with
  | OpRead p | OpWrite p _ _ | OpDb p _ _ => Some p
  | _ => None
  end.

(** The operations that keep the server serving: each handler that completes
    one must start the next. *)
Inductive Service := SAccept | SReceive | STimer (t : LoopTimer).

Definition service_of (o : Op) : option Service :=
  match o with
  | OpAccept => Some SAccept
  | OpReceive => Some SReceive
  | OpTimer t _ => Some (STimer t)
  | _ => None
  end.

Definition services (ops : list Op) : list Service := omap service_of ops.

Definition zone_ok (D : gset sptr) (z : Zone) : Prop :=
  Z.of_nat (size (sessions_ z)) <= max_sessions_ z /\
  map_Forall (fun _ p => p ∈ D) (sessions_ z).

(** The indices waiting in the queue are distinct, in range and not in use: an
    index either was released (and is in the set) or never handed out. *)
Definition pool_ok (D : gset sptr) (heap : gmap sptr Session) (x : Pool) : Prop :=
  NoDup (pool_ x) /\
  Forall (fun p => p ∈ dom heap) (pool_ x) /\
  NoDup (reusable_indices_ x) /\
  Forall (fun i => (i < length (pool_ x))%nat) (reusable_indices_ x) /\
  (forall i, i ∈ reusable_indices_ x ->
     i ∈ available_index_set_ x \/ forall p, pool_ x !! i = Some p -> p ∉ D) /\
  (forall i, i ∈ available_index_set_ x -> i ∈ reusable_indices_ x).

Record Inv (c : gmap string Z) (bufs : sptr -> MessageBufferManager) (svc : list Service) (locked : bool) (quiet : option sptr) (D : gset sptr) (w : World) : Prop := mkInv {
  inv_config : w_config w = c;
  inv_heap : D ⊆ dom (w_heap w);
  inv_next : forall p, p ∈ dom (w_heap w) -> (p < w_next w)%nat;
  inv_sessions : map_Forall (fun _ s => session_ok c s) (w_heap w);
  inv_bufs : map_Forall (fun p s => msg_buf_mgr_ s = bufs p) (w_heap w);
  inv_writes : map_Forall (writes_ok (w_ops w)) (w_heap w);
  inv_quiet : forall p s, quiet = Some p -> w_heap w !! p = Some s ->
    writes_of p (generation_ s) (w_ops w) = 0%nat;
  inv_services : services (w_ops w) = svc;
  inv_ops : Forall (fun o => forall p, op_ptr o = Some p -> p ∈ D) (w_ops w);
  inv_timers : map_Forall (fun p s => login_timer_ s <> None -> p ∈ D) (w_heap w);
  inv_jobs : forall p, default [] (w_jobs w !! p) <> [] -> p ∈ D;
  inv_manager : SessionStore.wf_manager (w_sm w);
  inv_buckets : Forall (map_Forall (fun _ p => p ∈ D)) (session_buckets_ (w_sm w));
  inv_nicknames : map_Forall (fun _ p => p ∈ D) (nickname_index_ (w_sm w));
  inv_lock : nickname_locked (w_sm w) = locked;
  inv_udp : map_Forall (fun _ p => p ∈ D) (udp_endpoint_to_session_ (w_dh w));
  inv_zones : map_Forall (fun _ z => zone_ok D z) (w_zones w);
  inv_pool : pool_ok D (w_heap w) (w_pool w);
  inv_prompt : prompt w
}.

(** ** Writes in flight *)

Lemma writes_of_app p g l k : writes_of p g (l ++ k) = (writes_of p g l + writes_of p g k)%nat.
Proof. unfold writes_of. by rewrite List.filter_app, length_app. Qed.

Lemma writes_of_one p g o : is_write_of p g o = false -> writes_of p g [o] = 0%nat.
Proof. unfold writes_of. cbn. by intros ->. Qed.

Lemma writes_ok_advances ops p s s' :
  writes_ok ops p s -> advances_buf s s' -> writes_ok ops p s'.
Proof.
  intros (H1 & H2 & H3) (Ha & Hb). unfold writes_ok.
  destruct (decide (generation_ s' = generation_ s)) as [E | E].
  - rewrite E. split; [done |]. split; [auto | done].
  - assert (generation_ s < generation_ s') by lia.
    rewrite (H3 (generation_ s')) by lia. split; [lia |]. split; [lia |].
    intros g Hg. apply H3. lia.
Qed.

Lemma writes_ok_other ops o p s :
  (forall q m g, o = OpWrite q m g -> q <> p) -> writes_ok ops p s -> writes_ok (ops ++ [o]) p s.
Proof.
  intros Ho (H1 & H2 & H3).
  assert (Hz : forall g, writes_of p g [o] = 0%nat).
  { intros g. apply writes_of_one. destruct o; try done. cbn.
    rewrite bool_decide_false; [done |]. by eapply Ho. }
  unfold writes_ok. rewrite writes_of_app, Hz, Nat.add_0_r. split; [done |]. split; [done |].
  intros g Hg. rewrite writes_of_app, Hz, (H3 g Hg). lia.
Qed.

(** ** Accessors *)

Section inv.
Context (c : gmap string Z) (bufs : sptr -> MessageBufferManager) (svc : list Service) (locked : bool) (quiet : option sptr) (D : gset sptr).
Abbreviation I := (Inv c bufs svc locked quiet D).

Lemma inv_lookup w p : I w -> p ∈ D -> exists s, w_heap w !! p = Some s.
Proof. intros H Hp. apply elem_of_dom. by apply (inv_heap _ _ _ _ _ _ _ H). Qed.

Lemma inv_bucket w i b id p :
  I w -> session_buckets_ (w_sm w) !! i = Some b -> b !! id = Some p -> p ∈ D.
Proof.
  intros H Hb Hp. pose proof (inv_buckets _ _ _ _ _ _ _ H) as Hf.
  rewrite Forall_lookup in Hf. by apply (Hf i b Hb id p).
Qed.

Lemma inv_all_sessions w : I w -> Forall (fun p => p ∈ D) (SessionStore.all_sessions (w_sm w)).
Proof.
  intros H. apply Forall_concat, Forall_fmap.
  apply (Forall_impl (map_Forall (fun _ p => p ∈ D))); [apply (inv_buckets _ _ _ _ _ _ _ H) |].
  intros b Hb. apply Forall_forall. intros p Hp. apply list_elem_of_fmap in Hp as ([id q] & -> & Hin).
  apply elem_of_map_to_list in Hin. by apply (Hb id q).
Qed.

(** ** Updating one session *)

Definition set_buf (p : sptr) (m : MessageBufferManager) : sptr -> MessageBufferManager :=
  fun q => if decide (q = p) then m else bufs q.

Lemma inv_set_buf w p s s' :
  I w -> p ∈ D -> w_heap w !! p = Some s -> advances_buf s s' -> session_ok c s' ->
  Inv c (set_buf p (msg_buf_mgr_ s')) svc locked quiet D (w <| w_heap ::= <[p := s']> |>).
Proof.
  intros H HD Hp Ha Hs. destruct H. split; cbn; try done.
  - intros q Hq. rewrite dom_insert. set_solver.
  - intros q Hq. rewrite dom_insert in Hq. apply inv_next0.
    apply elem_of_union in Hq as [Hq | Hq]; [| done].
    apply elem_of_singleton in Hq as ->. by apply elem_of_dom.
  - by apply map_Forall_insert_2.
  - intros q r Hr. unfold set_buf. destruct (decide (q = p)) as [-> | Hne].
    + rewrite lookup_insert_eq in Hr. by injection Hr as <-.
    + rewrite lookup_insert_ne in Hr by done. by apply (inv_bufs0 q r).
  - apply map_Forall_insert_2; [| done]. eapply writes_ok_advances; [| exact Ha].
    by apply (inv_writes0 p s).
  - intros q r -> Hr. destruct (decide (q = p)) as [-> | Hne].
    + rewrite lookup_insert_eq in Hr. injection Hr as <-. destruct Ha as (Ha & _).
      destruct (decide (generation_ s' = generation_ s)) as [-> |]; [by apply (inv_quiet0 p s) |].
      apply (inv_writes0 p s Hp). lia.
    + rewrite lookup_insert_ne in Hr by done. by apply (inv_quiet0 q r).
  - by apply map_Forall_insert_2.
  - destruct inv_pool0 as (? & Hd & ?). split; [done |]. split; [| done].
    eapply Forall_impl; [exact Hd |]. cbn. intros q Hq. rewrite dom_insert. set_solver.
Qed.

Lemma inv_bufs_ext bufs' w :
  I w -> (forall p s, w_heap w !! p = Some s -> bufs' p = bufs p) -> Inv c bufs' svc locked quiet D w.
Proof.
  intros H Hext. destruct H. split; try done. intros p s Hs. rewrite (Hext p s Hs). by apply (inv_bufs0 p s).
Qed.

Lemma inv_set_session w p s s' :
  I w -> p ∈ D -> w_heap w !! p = Some s -> advances s s' -> session_ok c s' ->
  I (w <| w_heap ::= <[p := s']> |>).
Proof.
  intros H HD Hp (H1 & H2 & H3) Hs.
  pose proof (inv_set_buf w p s s' H HD Hp (conj H1 H2) Hs) as H'.
  destruct H'. split; try done. intros q r Hr. rewrite (inv_bufs0 q r Hr). unfold set_buf.
  destruct (decide (q = p)) as [-> |]; [| done]. rewrite H3. apply (inv_bufs _ _ _ _ _ _ _ H p s Hp).
Qed.

Lemma safe_with_session {A} (p : sptr) (f : Session -> A * Session) E (Q : A -> Prop) :
  p ∈ D ->
  (forall s, session_ok c s ->
     advances s (snd (f s)) /\ session_ok c (snd (f s)) /\ Q (fst (f s))) ->
  safe I (with_session p f) E Q.
Proof.
  intros Hp Hf w Hw. unfold with_session. destruct (inv_lookup w p Hw Hp) as [s Hs].
  rewrite Hs. destruct (Hf s) as (Ha & Hok & HQ); [by apply (inv_sessions _ _ _ _ _ _ _ Hw p s) |].
  destruct (f s) as [a s']. split; [done |]. by apply (inv_set_session w p s).
Qed.

Lemma safe_upd p (f : Session -> Session) E :
  p ∈ D -> (forall s, session_ok c s -> advances s (f s) /\ session_ok c (f s)) ->
  safe I (upd p f) E (fun _ => True).
Proof. intros Hp Hf. apply safe_with_session; [done |]. intros s Hs. by destruct (Hf s Hs). Qed.

Lemma safe_get {A} p (f : Session -> A) E : p ∈ D -> safe I (get p f) E (fun _ => True).
Proof.
  intros Hp w Hw. unfold get. destruct (inv_lookup w p Hw Hp) as [s ->]. done.
Qed.

(** Updates that leave the write queue, the task queue, the bucket and the
    generation alone. *)
Definition same_queues (f : Session -> Session) : Prop :=
  forall s, write_queue_ (f s) = write_queue_ s /\ generation_ (f s) = generation_ s /\
            task_queue_ (f s) = task_queue_ s /\ bucket_ (f s) = bucket_ s /\
            msg_buf_mgr_ (f s) = msg_buf_mgr_ s.

Lemma safe_upd_same p f E : same_queues f -> p ∈ D -> safe I (upd p f) E (fun _ => True).
Proof.
  intros Hf Hp. apply safe_upd; [done |]. intros s (? & ? & ?).
  destruct (Hf s) as (Hw & Hg & Ht & Hb & Hm). split; [by apply advances_same |].
  unfold session_ok. by rewrite Hw, Ht, Hb.
Qed.

Lemma u64_nonneg z : 0 <= u64 z.
Proof. pose proof (u64_range z). lia. Qed.

Lemma session_ok_empty s s' :
  session_ok c s -> bucket_ s' = bucket_ s -> write_queue_ s' = [] -> task_queue_ s' = [] ->
  session_ok c s'.
Proof.
  intros (Hb & _) Eb Ew Et. unfold session_ok. rewrite Eb, Ew, Et, len_nil.
  split; [done |]. split; apply u64_nonneg.
Qed.

Lemma safe_cleanup p E : p ∈ D -> safe I (upd p cleanup) E (fun _ => True).
Proof.
  intros Hp. apply safe_upd; [done |]. intros s Hs. split.
  - apply advances_bump; [cbn; lia | done].
  - by apply (session_ok_empty s).
Qed.

(** ** The world's primitives *)

Lemma safe_weak_lock p E :
  p ∈ D -> safe I (weak_lock p) E (fun q => q = Some p).
Proof.
  intros Hp w Hw. split; [| done]. destruct (inv_lookup w p Hw Hp) as [s ->]. done.
Qed.

Lemma safe_emit o E : safe I (emit o) E (fun _ => True).
Proof. apply safe_modify. intros w H. destruct H. by split. Qed.

Lemma safe_send_prefixed p conn m E : safe I (send_prefixed p conn m) E (fun _ => True).
Proof.
  intros w H. rewrite send_prefixed_prompt by apply (inv_prompt _ _ _ _ _ _ _ H). by apply safe_emit.
Qed.

Lemma safe_send_admin_alert t E : safe I (send_admin_alert t) E (fun _ => True).
Proof. apply safe_emit. Qed.

Lemma safe_async_send_to m ep E : safe I (async_send_to m ep) E (fun _ => True).
Proof. apply safe_emit. Qed.

Lemma safe_now E : safe I now E (fun _ => True).
Proof. by apply safe_gets. Qed.

Lemma safe_gets_true {A} (f : World -> A) E : safe I (gets f) E (fun _ => True).
Proof. by apply safe_gets. Qed.

Lemma safe_config_int k d E : safe I (config_int k d) E (fun v => v = config_value c k d).
Proof. apply safe_gets. intros w H. by rewrite (inv_config _ _ _ _ _ _ _ H). Qed.

Lemma safe_config_size k d E : safe I (config_size k d) E (fun v => v = u64 (config_value c k d)).
Proof. apply safe_gets. intros w H. by rewrite (inv_config _ _ _ _ _ _ _ H). Qed.

(** Operations other than writes can be started at any time. *)
Lemma safe_start_op o E :
  (forall q m g, o <> OpWrite q m g) -> service_of o = None ->
  (forall p, op_ptr o = Some p -> p ∈ D) ->
  safe I (start_op o) E (fun _ => True).
Proof.
  intros Hw Hsvc Hp. apply safe_modify. intros w H. destruct H. split; try done.
  - cbn. intros p s Hs. apply writes_ok_other; [| by apply (inv_writes0 p s)].
    intros q m g ->. by destruct (Hw q m g).
  - intros p s Hq Hs. etransitivity; [apply writes_of_app |].
    rewrite (inv_quiet0 p s Hq Hs). apply writes_of_one.
    destruct o; try done. by destruct (Hw p0 msg gen).
  - etransitivity; [apply omap_app |]. cbn. rewrite Hsvc, app_nil_r. done.
  - cbn. apply Forall_app. auto.
Qed.

(** [starts v m E Q]: [m] does what [safe] says and starts the service [v]
    exactly once, whether it returns or throws. *)
Definition starts {A} (v : Service) (m : P A) (E : exn -> Prop) (Q : A -> Prop) : Prop :=
  hoare I m (fun e w => E e /\ Inv c bufs (svc ++ [v]) locked quiet D w)
    (fun a w => Q a /\ Inv c bufs (svc ++ [v]) locked quiet D w).

Lemma starts_op o v E : service_of o = Some v -> starts v (start_op o) E (fun _ => True).
Proof.
  intros Hv w H. split; [done |]. destruct H. split; try done.
  - cbn. intros p s Hs. apply writes_ok_other; [| by apply (inv_writes0 p s)].
    intros q m g ->. done.
  - intros p s Hq Hs. etransitivity; [apply writes_of_app |].
    rewrite (inv_quiet0 p s Hq Hs). apply writes_of_one. by destruct o.
  - etransitivity; [apply omap_app |]. cbn. rewrite Hv. by f_equal.
  - cbn. apply Forall_app. split; [done |]. constructor; [| done]. by destruct o.
Qed.

Lemma starts_after {A B} v (m : P A) (k : A -> P B) E (R : A -> Prop) Q :
  safe I m never R -> (forall a, R a -> starts v (k a) E Q) -> starts v (m ≫= k) E Q.
Proof.
  intros Hm Hk. eapply (hoare_bind _ _ _ _ (fun a w => R a /\ I w)).
  - eapply hoare_conseq; [exact Hm | done | | done]. by intros e w [[] _].
  - intros a w [Ha Hw]. by apply (Hk a Ha w).
Qed.

Lemma starts_mret {A B} v (m : P A) (b : B) E (Q : B -> Prop) :
  starts v m E (fun _ => True) -> Q b -> starts v (m ≫= fun _ => mret b) E Q.
Proof.
  intros Hm Hb. eapply hoare_bind; [exact Hm |]. intros a w [_ Hw]. by split.
Qed.

Lemma safe_upd_udp f E :
  (forall m : gmap endpoint sptr, map_Forall (fun _ p => p ∈ D) m -> map_Forall (fun _ p => p ∈ D) (f m)) ->
  safe I (upd_dh (fun d => d <| udp_endpoint_to_session_ ::= f |>)) E (fun _ => True).
Proof. intros Hf. apply safe_modify. intros w H. destruct H. split; try done. cbn. auto. Qed.

Lemma map_Forall_delete_2 {K A} `{Countable K} (R : K -> A -> Prop) (m : gmap K A) k :
  map_Forall R m -> map_Forall R (delete k m).
Proof. intros Hm i x Hi. apply lookup_delete_Some in Hi as [_ Hi]. by apply Hm. Qed.

Lemma map_Forall_filter_2 {K A} `{Countable K} (R : K -> A -> Prop) (S : K * A -> Prop)
    `{forall x, Decision (S x)} (m : gmap K A) :
  map_Forall R m -> map_Forall R (filter S m).
Proof. intros Hm i x Hi. apply map_lookup_filter_Some in Hi as [Hi _]. by apply Hm. Qed.

Lemma safe_set_zone zone_id z E :
  zone_ok D z -> safe I (upd_zones (<[zone_id := z]>)) E (fun _ => True).
Proof.
  intros Hz. apply safe_modify. intros w H. destruct H. split; try done.
  by apply map_Forall_insert_2.
Qed.

Lemma safe_lookup_zone zone_id E :
  safe I (get_zone zone_id) E (fun z => forall z', z = Some z' -> zone_ok D z').
Proof.
  apply safe_gets. intros w H z Hz. by apply (inv_zones _ _ _ _ _ _ _ H zone_id z).
Qed.
End inv.

#[export] Hint Resolve safe_get safe_cleanup safe_weak_lock safe_emit safe_send_admin_alert
  safe_async_send_to safe_now safe_gets_true safe_config_int safe_config_size : safe.
#[export] Hint Extern 1 (safe _ (upd _ _) _ _) =>
  apply safe_upd_same; [intros ?; repeat split; reflexivity | assumption] : safe.

(** ** SessionManager *)

Section store.
Context (c : gmap string Z) (bufs : sptr -> MessageBufferManager) (svc : list Service) (quiet : option sptr) (D : gset sptr).

Lemma safe_with_bucket {A} locked id (f : gmap Z sptr -> A * gmap Z sptr) E (Q : A -> Prop) :
  (forall b, map_Forall (fun _ p => p ∈ D) b ->
     Q (fst (f b)) /\ map_Forall (fun _ p => p ∈ D) (snd (f b)) /\
     forall k, k <> id -> snd (f b) !! k = b !! k) ->
  safe (Inv c bufs svc locked quiet D) (SessionStore.with_bucket id f) E Q.
Proof.
  intros Hf w H. unfold SessionStore.with_bucket.
  destruct (SessionStore.bucket_exists (w_sm w) id) as [b Hb]; [apply (inv_manager _ _ _ _ _ _ _ H) |].
  rewrite Hb. pose proof (inv_buckets _ _ _ _ _ _ _ H) as HD.
  destruct (Hf b) as (HQ & Hb' & Hk).
  { rewrite Forall_lookup in HD. by apply (HD _ b Hb). }
  destruct (f b) as [a b'] eqn:Ef. cbn [fst snd] in *. split; [done |].
  destruct H. split; try done.
  - by apply (SessionStore.set_bucket_wf _ id b).
  - cbn. by apply Forall_insert.
Qed.

Lemma safe_remove_session locked id E :
  safe (Inv c bufs svc locked quiet D) (SessionStore.remove_session id) E
    (fun r => forall p, r = Some p -> p ∈ D).
Proof.
  apply safe_with_bucket. intros b Hb. cbn. split; [| split].
  - intros p Hp. by apply (Hb id).
  - by apply map_Forall_delete_2.
  - intros k Hk. by apply lookup_delete_ne.
Qed.

Lemma safe_find_session locked id E :
  safe (Inv c bufs svc locked quiet D) (SessionStore.find_session id) E
    (fun r => forall p, r = Some p -> p ∈ D).
Proof.
  apply safe_with_bucket. intros b Hb. cbn. split; [| done].
  intros p Hp. by apply (Hb id).
Qed.

Lemma safe_insert_session locked id p E {A} (a : gmap Z sptr -> A) (Q : A -> Prop) :
  p ∈ D -> (forall b, map_Forall (fun _ p => p ∈ D) b -> Q (a b)) ->
  safe (Inv c bufs svc locked quiet D) (SessionStore.with_bucket id (fun b => (a b, <[id := p]> b))) E Q.
Proof.
  intros Hp HQ. apply safe_with_bucket. intros b Hb. cbn. split; [auto |]. split.
  - by apply map_Forall_insert_2.
  - intros k Hk. by apply lookup_insert_ne.
Qed.

Lemma safe_for_each_session locked fn E :
  (forall p, p ∈ D -> safe (Inv c bufs svc locked quiet D) (fn p) E (fun _ => True)) ->
  safe (Inv c bufs svc locked quiet D) (SessionStore.for_each_session fn) E (fun _ => True).
Proof.
  intros Hf. unfold SessionStore.for_each_session.
  eapply (safe_bind _ _ _ _ (Forall (fun p => p ∈ D))).
  - apply safe_gets. intros w H. by apply (inv_all_sessions c bufs svc locked quiet).
  - cbv beta. intros l Hl. apply safe_for_each. intros p Hp. apply Hf.
    rewrite Forall_forall in Hl. auto.
Qed.

Lemma inv_set_lock locked b w :
  Inv c bufs svc locked quiet D w -> Inv c bufs svc b quiet D (w <| w_sm ::= fun sm => sm <| nickname_locked := b |> |>).
Proof. intros H. destruct H. by split. Qed.

Lemma safe_with_nickname_lock {A} (m : P A) E Q :
  safe (Inv c bufs svc true quiet D) m E Q -> safe (Inv c bufs svc false quiet D) (with_nickname_lock m) E Q.
Proof.
  intros Hm w H. unfold with_nickname_lock. rewrite (inv_lock _ _ _ _ _ _ _ H).
  specialize (Hm _ (inv_set_lock false true w H)).
  destruct (m _) as [[a | e |] w']; [| | done];
    (split; [apply Hm | apply (inv_set_lock true false), Hm]).
Qed.

Lemma safe_nickname_owner nickname E :
  safe (Inv c bufs svc true quiet D)
    (idx ← gets (fun w => nickname_index_ (w_sm w));
     match idx !! nickname with
     | Some p => weak_lock p
     | None => mret None
     end) E (fun r => forall p, r = Some p -> p ∈ D).
Proof.
  eapply (safe_bind _ _ _ _ (map_Forall (fun _ p => p ∈ D))).
  - apply safe_gets. intros w H. apply (inv_nicknames _ _ _ _ _ _ _ H).
  - intros idx Hidx. destruct (idx !! nickname) as [p |] eqn:Ep; [| by apply safe_mret].
    assert (p ∈ D) by by apply (Hidx nickname).
    eapply safe_weaken; [by apply safe_weak_lock |]. naive_solver.
Qed.

Lemma safe_find_session_by_nickname nickname E :
  safe (Inv c bufs svc false quiet D) (SessionStore.find_session_by_nickname nickname) E
    (fun r => forall p, r = Some p -> p ∈ D).
Proof. apply safe_with_nickname_lock, safe_nickname_owner. Qed.

Lemma safe_upd_nicknames locked f E :
  (forall m : gmap string sptr, map_Forall (fun _ p => p ∈ D) m -> map_Forall (fun _ p => p ∈ D) (f m)) ->
  safe (Inv c bufs svc locked quiet D) (upd_sm (fun sm => sm <| nickname_index_ ::= f |>)) E (fun _ => True).
Proof. intros Hf. apply safe_modify. intros w H. destruct H. split; try done. cbn. auto. Qed.

Lemma safe_cleanup_expired_nicknames E :
  safe (Inv c bufs svc false quiet D) SessionStore.cleanup_expired_nicknames E (fun _ => True).
Proof.
  apply safe_with_nickname_lock. safe_step. apply safe_upd_nicknames.
  intros m Hm. by apply map_Forall_filter_2.
Qed.

(** ** SessionPool *)

Lemma index_of_lookup p l i : index_of p l = Some i -> l !! i = Some p.
Proof.
  revert i. induction l as [| q l IH]; intros i; cbn; [done |].
  destruct (decide (q = p)) as [-> |]; [by intros [= <-] |].
  destruct (index_of p l) as [j |]; [| done]. intros [= <-]. by apply IH.
Qed.

Lemma pool_ok_dom heap heap' x :
  dom heap ⊆ dom heap' -> pool_ok D heap x -> pool_ok D heap' x.
Proof.
  intros Hd (H1 & H2 & H3). split; [done |]. split; [| done].
  eapply Forall_impl; [exact H2 |]. cbn. set_solver.
Qed.

(** Returning a session that is in use to the queue. *)
Lemma pool_ok_return heap x p i :
  pool_ok D heap x -> p ∈ D -> pool_ x !! i = Some p -> i ∉ available_index_set_ x ->
  pool_ok D heap (x <| reusable_indices_ ::= fun q => q ++ [i] |>
                    <| available_index_set_ ::= fun s => {[i]} ∪ s |>).
Proof.
  intros (H1 & H2 & H3 & H4 & H5 & H6) Hp Hi Hs.
  assert (Hq : i ∉ reusable_indices_ x).
  { intros Hin. destruct (H5 i Hin) as [? | Hn]; [done |]. by destruct (Hn p Hi). }
  split; [done |]. split; [done |]. cbn. split.
  { apply NoDup_app. split; [done |]. split; [| apply NoDup_singleton].
    intros j Hj Hj'. apply list_elem_of_singleton in Hj' as ->. done. }
  split.
  { apply Forall_app. split; [done |]. constructor; [| done]. by apply lookup_lt_Some in Hi. }
  split.
  - intros j Hj. apply elem_of_app in Hj as [Hj | Hj].
    + destruct (H5 j Hj); [left; set_solver | by right].
    + apply list_elem_of_singleton in Hj as ->. left. set_solver.
  - intros j Hj. apply elem_of_union in Hj as [Hj | Hj]; apply elem_of_app.
    + apply elem_of_singleton in Hj as ->. right. by apply list_elem_of_singleton.
    + left. auto.
Qed.

Lemma safe_release locked p E :
  p ∈ D -> safe (Inv c bufs svc locked quiet D) (release p) E (fun _ => True).
Proof.
  intros Hp w H. unfold release, gets, mbind, M_bind, bind.
  destruct (index_of p (pool_ (w_pool w))) as [i |] eqn:Ei; [| done].
  apply index_of_lookup in Ei.
  destruct (decide (i ∈ available_index_set_ (w_pool w))) as [Hs | Hs].
  { by apply (safe_send_admin_alert c bufs svc locked quiet D). }
  assert (Hm : safe (Inv c bufs svc locked quiet D)
    (upd p cleanup;; upd p mark_released;; upd p (set_active false)) E (fun _ => True)).
  { safe_step. safe_step. apply safe_upd; [done |]. intros s Hok. unfold set_active, cas_life.
    destruct (decide _); (split; [by apply advances_same | apply Hok]). }
  specialize (Hm w H).
  destruct (inv_lookup c bufs svc locked quiet D w p H Hp) as [s Hsess].
  revert Hm. unfold mbind, M_bind, bind, upd, with_session.
  cbn [w_heap set_field]. rewrite Hsess. cbn. rewrite lookup_insert_eq.
  cbn. rewrite lookup_insert_eq. cbn. intros [_ Hinv]. split; [done |].
  destruct Hinv. split; try done. cbn.
  apply (pool_ok_return _ (w_pool w) p i); try done.
Qed.
End store.

(** ** Zones *)

Section zones.
Context (c : gmap string Z) (bufs : sptr -> MessageBufferManager) (svc : list Service) (locked : bool) (quiet : option sptr) (D : gset sptr).

Lemma zone_ok_remove z id : zone_ok D z -> zone_ok D (Zone_remove_session z id).
Proof.
  intros (H1 & H2). split.
  - change (max_sessions_ (Zone_remove_session z id)) with (max_sessions_ z).
    change (sessions_ (Zone_remove_session z id)) with (delete id (sessions_ z)).
    rewrite map_size_delete. destruct (sessions_ z !! id); unfold Datatypes.id; lia.
  - by apply map_Forall_delete_2.
Qed.

Lemma zone_ok_add z id p b z' :
  zone_ok D z -> p ∈ D -> Zone_add_session z id p = (b, z') -> zone_ok D z'.
Proof.
  unfold Zone_add_session. intros (H1 & H2) Hp.
  destruct (Z.leb_spec (max_sessions_ z) (Z.of_nat (size (sessions_ z)))); [by intros [= <- <-] |].
  destruct (sessions_ z !! id) eqn:E; intros [= <- <-]; [done |]. split.
  - change (max_sessions_ (z <| sessions_ ::= <[id:=p]> |>)) with (max_sessions_ z).
    change (sessions_ (z <| sessions_ ::= <[id:=p]> |>)) with (<[id:=p]> (sessions_ z)).
    rewrite map_size_insert_None by done. lia.
  - by apply map_Forall_insert_2.
Qed.

Lemma zone_members_ok z heap : zone_ok D z -> Forall (fun p => p ∈ D) (zone_members z heap).
Proof.
  intros (_ & H). apply Forall_forall. unfold zone_members. intros p Hp.
  apply list_elem_of_filter in Hp as [_ Hp].
  apply list_elem_of_fmap in Hp as ([id q] & -> & Hin).
  apply elem_of_map_to_list in Hin. by apply (H id q).
Qed.

Lemma safe_ZoneManager_remove_session p E :
  p ∈ D -> safe (Inv c bufs svc locked quiet D) (ZoneManager_remove_session p) E (fun _ => True).
Proof.
  intros Hp. unfold ZoneManager_remove_session. safe_step. safe_step.
  eapply safe_bind; [apply safe_lookup_zone |]. intros [z |] Hz; [| by apply safe_mret].
  specialize (Hz z eq_refl). safe_step.
  eapply safe_bind; [apply safe_set_zone; by apply zone_ok_remove |]. intros _ _.
  safe_step. safe_done.
Qed.

Lemma zone_ok_filter z (S : Z * sptr -> Prop) `{forall x, Decision (S x)} :
  zone_ok D z -> zone_ok D (z <| sessions_ ::= filter S |>).
Proof.
  intros (H1 & H2). split.
  - change (Z.of_nat (size (filter S (sessions_ z))) <= max_sessions_ z).
    pose proof (map_size_filter S (sessions_ z)). lia.
  - by apply map_Forall_filter_2.
Qed.

Lemma safe_Zone_for_each_session zone_id fn E :
  (forall p, p ∈ D -> safe (Inv c bufs svc locked quiet D) (fn p) E (fun _ => True)) ->
  safe (Inv c bufs svc locked quiet D) (Zone_for_each_session zone_id fn) E (fun _ => True).
Proof.
  intros Hfn. unfold Zone_for_each_session. eapply safe_bind; [apply safe_gets_some |].
  intros w (w0 & H & ->). destruct (w_zones (id w0) !! zone_id) as [z |] eqn:Ez; [| by apply safe_mret].
  assert (Hz : zone_ok D z) by by apply (inv_zones _ _ _ _ _ _ _ H zone_id z).
  eapply safe_bind.
  { apply safe_for_each. intros p Hp. apply Hfn.
    pose proof (zone_members_ok z (w_heap (id w0)) Hz) as Hf. rewrite Forall_forall in Hf. auto. }
  intros _ _. apply safe_set_zone. by apply zone_ok_filter.
Qed.

Lemma safe_run_zone_broadcast zone_id msg sender E :
  safe (Inv c bufs svc locked quiet D) (run_zone_broadcast zone_id msg sender) E (fun _ => True).
Proof.
  unfold run_zone_broadcast. eapply safe_bind; [apply safe_gets_some |]. intros w (w0 & H & ->).
  destruct (w_zones (id w0) !! zone_id) as [z |] eqn:Ez; [| by apply safe_mret].
  assert (Hz : zone_ok D z) by by apply (inv_zones _ _ _ _ _ _ _ H zone_id z).
  apply safe_for_each. intros p Hp.
  assert (p ∈ D). { pose proof (zone_members_ok z (w_heap (id w0)) Hz) as Hf.
    rewrite Forall_forall in Hf. auto. }
  safe_step. safe_step. destruct (decide _); [by apply safe_mret |].
  destruct a0; safe_done.
Qed.
End zones.

#[export] Hint Resolve safe_remove_session safe_find_session safe_find_session_by_nickname
  safe_release safe_ZoneManager_remove_session safe_run_zone_broadcast : safe.
