(* ===== verification/Lifecycle.v ===== *)
(** * Closing a session, its task queue and its write queue

    [Session::close_session] and what it calls in the other components
    ([DataHandler::remove_session], which takes the session out of the manager,
    the UDP table, its zone and back into the pool), and the members of
    [Session] that run on its strand: [post_task], [run_next_task],
    [post_write], [enqueue_write], [do_write_queue], the start of [do_read] and
    the login timer.

    [boost::asio::dispatch(strand_, f)] runs [f] at once when the current
    handler already runs in that strand, or when the strand is idle (the call
    comes from a thread of the [io_context]); it queues [f] when another thread
    is running the strand or other lambdas wait in it. *)
From Stdlib Require Import ZArith Lia.
From stdpp Require Import base gmap sets list strings.
From S2P Require Import Prelude MessageBuffer RateLimit Json Session World.
From S2P Require Import SessionPool Zones Invariant.
From S2P Require SessionStore.

Open Scope Z_scope.

(** ** DataHandler::remove_session *)

(** The UDP table entry of [ep], if it still belongs to [session] or its owner
    is gone. *)
Definition erase_udp_mapping (session : sptr) (ep : endpoint) : P unit :=
  dh ← gets w_dh;
  match udp_endpoint_to_session_ dh !! ep with
  | None => mret tt
  | Some q =>
      existing ← weak_lock q;
      match existing with
      | Some e =>
          when (bool_decide (e = session))
            (upd_dh (fun d => d <| udp_endpoint_to_session_ ::= delete ep |>))
      | None => upd_dh (fun d => d <| udp_endpoint_to_session_ ::= delete ep |>)
      end
  end.

Definition DataHandler_remove_session (session_id : Z) : P unit :=
  removed ← SessionStore.remove_session session_id;
  match removed with
  | None => mret tt
  | Some session =>
      ep ← get session udp_endpoint_;
      match ep with
      | Some ep => erase_udp_mapping session ep
      | None => mret tt
      end;;
      upd session clear_udp_token;;
      zone_id ← get session zone_id_;
      when (-1 <? zone_id) (ZoneManager_remove_session session);;
      pool ← gets (fun w => session_pool_set (w_dh w));
      when pool (release session)
  end.

(** ** Session::close_session *)
Definition close_session (p : sptr) : P unit :=
  ok ← with_session p try_close;
  if negb ok then mret tt
  else
    upd p (set_state Closed);;
    upd p (fun s => s <| login_timer_ := None |>);;
    catch (
      upd p (fun s => s <| socket_ := None |>);;
      upd p finalize_close;;
      alive ← gets w_handler_alive;
      id ← get p session_id_;
      when alive (DataHandler_remove_session id);;
      upd p cleanup)
      (fun _ => upd p cleanup).

(** [get_handler_safe]: whether the data handler could be locked. *)
Definition get_handler_safe (p : sptr) : P bool :=
  alive ← gets w_handler_alive;
  if (alive : bool) then mret true
  else close_session p;; mret false.

(** ** Task queue *)

(** Running the closure of [do_read]: [async_read_some]. *)
Definition run_task (p : sptr) (t : Task) : P unit :=
  match t with
  | TRead => start_op (OpRead p)
  end.

Definition pop_task (s : Session) : option Task * Session :=
  match task_queue_ s with
  | [] => (None, s <| task_running_ := false |>)
  | t :: rest => (Some t, s <| task_queue_ := rest |>)
  end.

Definition run_next_task (p : sptr) : P unit :=
  t ← with_session p pop_task;
  match t with
  | None => mret tt
  | Some t => run_task p t
  end.

(** The lambda of [post_task]. *)
Definition push_task (t : Task) (s : Session) : bool * Session :=
  (negb (task_running_ s), s <| task_queue_ ::= fun q => q ++ [t] |>).

Definition post_task_body (p : sptr) (t : Task) : P unit :=
  limit ← config_size "max_task_queue" 1000;
  n ← get p (fun s => len (task_queue_ s));
  if limit <=? n then close_session p
  else
    idle ← with_session p (push_task t);
    when idle (
      upd p (fun s => s <| task_running_ := true |>);;
      run_next_task p).

(** ** Write queue *)

(** [enqueue_write]; dropping from an empty queue would be undefined. *)
Definition enqueue_write (p : sptr) (msg : string) : P unit :=
  max_size ← config_size "max_write_queue_size" 100;
  limit ← config_size "write_queue_overflow_limit" 10;
  empty ← get p (fun s => bool_decide (write_queue_ s = []));
  if empty && (max_size <=? 0) then ub
  else
    close ← with_session p (enqueue_overflow max_size limit);
    if (close : bool) then close_session p
    else upd p (push_write msg).

(** The front of the queue with the generation it was taken in, unless the
    session is closed; an empty queue ends the writing. *)
Definition next_write (s : Session) : option (string * Z) * Session :=
  if decide (state_ s = Closed) then (None, s)
  else
    match write_queue_ s with
    | [] => (None, s <| write_in_progress_ := false |>)
    | msg :: _ => (Some (msg, generation_ s), s)
    end.

(** The 4-byte prefix and the message go out on the socket, if it is open;
    [async_write] on a closed one completes with an error and reads no
    buffer. *)
Definition do_write_queue (p : sptr) : P unit :=
  next ← with_session p next_write;
  match next with
  | None => mret tt
  | Some (msg, gen) =>
      start_op (OpWrite p msg gen);;
      sock ← get p socket_;
      match sock with
      | Some conn => send_prefixed p conn msg
      | None => mret tt
      end
  end.

(** The completion handler of [async_write]. *)
Definition pop_write (s : Session) : bool * Session :=
  (bool_decide (write_queue_ s = []), s <| write_queue_ ::= tail |>).

Definition on_write_complete (p : sptr) (gen : Z) (ok : bool) : P unit :=
  current ← get p generation_;
  if decide (gen <> current) then mret tt
  else if negb ok then close_session p
  else
    empty ← with_session p pop_write;
    if (empty : bool) then ub else do_write_queue p.

(** The lambda of [post_write]. *)
Definition post_write_body (p : sptr) (msg : string) : P unit :=
  idle ← get p (fun s => bool_decide (write_queue_ s = []));
  enqueue_write p msg;;
  when idle (
    upd p (fun s => s <| write_in_progress_ := true |>);;
    do_write_queue p).

(** ** Strands *)

Definition run_job (p : sptr) (j : Job) : P unit :=
  match j with
  | JPostWrite msg => post_write_body p msg
  | JPostTask t => post_task_body p t
  end.

Definition enqueue_job (p : sptr) (j : Job) : P unit :=
  modify (fun w => w <| w_jobs ::= fun m => <[p := default [] (m !! p) ++ [j]]> m |>).

Definition runs_inline (p : sptr) (w : World) : bool :=
  bool_decide (w_strand w = Some p) ||
  bool_decide (p ∉ w_busy w) && bool_decide (default [] (w_jobs w !! p) = []).

Definition dispatch_strand (p : sptr) (j : Job) : P unit :=
  inline ← gets (runs_inline p);
  if (inline : bool) then run_job p j else enqueue_job p j.

Definition post_write (p : sptr) (msg : string) : P unit := dispatch_strand p (JPostWrite msg).
Definition post_task (p : sptr) (t : Task) : P unit := dispatch_strand p (JPostTask t).

(** A completion handler bound to the strand of [p]. *)
Definition in_strand (p : sptr) (m : P unit) : P unit := fun w =>
  let '(r, w') := m (w <| w_strand := Some p |>) in (r, w' <| w_strand := None |>).

(** ** Starting to read, and the login timer *)

Definition do_read (p : sptr) : P unit :=
  st ← get p state_;
  if decide (st = Closed) then mret tt
  else
    acquired ← with_session p try_acquire_read;
    if negb acquired then mret tt
    else
      handler ← get_handler_safe p;
      if (handler : bool) then post_task p TRead else mret tt.

Definition start_login_timeout (p : sptr) : P unit :=
  st ← get p state_;
  if decide (st = Closed) then mret tt
  else
    t ← now;
    secs ← config_int "login_timeout_seconds" 90;
    upd p (fun s => s <| login_timer_ := Some (t + seconds secs) |>).

Definition login_timeout_notice : string :=
  (raw "{'type':'notice','msg':'Your connection has been terminated due to a login timeout.'}"
   +:+ newline)%string.

Definition on_login_timeout (p : sptr) : P unit :=
  upd p (fun s => s <| login_timer_ := None |>);;
  registered ← get p nickname_registered_;
  if (registered : bool) then mret tt
  else
    post_write p login_timeout_notice;;
    close_session p.

Definition start (p : sptr) : P unit :=
  do_read p;;
  start_login_timeout p.

(** ** Safety: every operation keeps the invariant *)

Section safety.
Context (c : gmap string Z) (bufs : sptr -> MessageBufferManager) (svc : list Service) (locked : bool) (quiet : option sptr) (D : gset sptr).
Abbreviation I := (Inv c bufs svc locked quiet D).

Lemma safe_erase_udp_mapping p ep E : p ∈ D -> safe I (erase_udp_mapping p ep) E (fun _ => True).
Proof.
  intros Hp. unfold erase_udp_mapping. eapply safe_bind; [apply safe_gets_some |].
  intros dh (w & H & ->). destruct (_ !! ep) as [q |] eqn:Eq; [| by apply safe_mret].
  assert (q ∈ D) by by apply (inv_udp _ _ _ _ _ _ _ H ep q).
  safe_step. subst. cbv beta iota. safe_step. apply safe_upd_udp. intros m. apply map_Forall_delete_2.
Qed.

Lemma safe_DataHandler_remove_session id E :
  safe I (DataHandler_remove_session id) E (fun _ => True).
Proof.
  unfold DataHandler_remove_session. safe_step. destruct a as [p |]; [| by apply safe_mret].
  assert (p ∈ D) by auto. safe_step.
  eapply safe_bind; [destruct a; [by apply safe_erase_udp_mapping | by apply safe_mret] |].
  intros _ _. safe_step. safe_step.
  eapply safe_bind; [eapply safe_when; intros _; safe_done |].
  intros _ _. safe_step. safe_step. safe_done.
Qed.

Lemma safe_try_close p E : p ∈ D -> safe I (with_session p try_close) E (fun _ => True).
Proof.
  intros Hp. apply safe_with_session; [done |]. intros s Hs.
  assert (Hsame : forall b s', try_close s = (b, s') ->
    write_queue_ s' = write_queue_ s /\ generation_ s' = generation_ s /\
    task_queue_ s' = task_queue_ s /\ bucket_ s' = bucket_ s /\
    msg_buf_mgr_ s' = msg_buf_mgr_ s).
  { unfold try_close, cas_life. intros b s'.
    destruct (decide _); [| destruct (decide _)]; by intros [= <- <-]. }
  destruct (try_close s) as [b s'] eqn:E'. destruct (Hsame b s' eq_refl) as (Hw & Hg & Ht & Hb & Hm).
  cbn [snd fst]. split; [by apply advances_same |]. unfold session_ok. by rewrite Hw, Ht, Hb.
Qed.

Lemma safe_close_session p E : p ∈ D -> safe I (close_session p) E (fun _ => True).
Proof.
  intros Hp. unfold close_session.
  eapply safe_bind; [by apply safe_try_close |]. intros b _. destruct b; [| by apply safe_mret].
  cbn [negb]. safe_step. safe_step.
  apply (safe_catch _ _ never); [| intros ? []].
  safe_step. safe_step. safe_step. safe_step.
  eapply safe_bind; [eapply safe_when; intros _; apply safe_DataHandler_remove_session |].
  intros _ _. safe_done.
Qed.

Lemma safe_get_handler_safe p E : p ∈ D -> safe I (get_handler_safe p) E (fun _ => True).
Proof.
  intros Hp. unfold get_handler_safe. safe_step. destruct a; [by apply safe_mret |].
  eapply safe_bind; [by apply safe_close_session |]. intros _ _. by apply safe_mret.
Qed.

Lemma safe_run_next_task p E : p ∈ D -> safe I (run_next_task p) E (fun _ => True).
Proof.
  intros Hp. unfold run_next_task. eapply (safe_bind _ _ _ _ (fun _ => True)).
  - apply safe_with_session; [done |]. intros s (Hb & Hw & Ht). unfold pop_task.
    destruct (task_queue_ s) eqn:Et; (split; [by apply advances_same |]);
      (split; [| done]); (split; [done |]; split; [done |]); cbn [snd].
    + change (len (task_queue_ s) <= max_task_queue c). by rewrite Et.
    + change (len l <= max_task_queue c). rewrite len_cons in Ht. lia.
  - intros [[] |] _; [| by apply safe_mret]. cbn. apply safe_start_op; [done | done |].
    cbn. congruence.
Qed.

Lemma safe_post_task_body p t E : p ∈ D -> safe I (post_task_body p t) E (fun _ => True).
Proof.
  intros Hp. unfold post_task_body. safe_step. subst.
  intros w Hw. destruct (inv_lookup _ _ _ _ _ _ w p Hw Hp) as [s Hs].
  unfold get at 1, mbind at 1, M_bind at 1, bind at 1. rewrite Hs.
  fold (max_task_queue c). destruct (Z.leb_spec (max_task_queue c) (len (task_queue_ s))) as [Hle | Hlt].
  { by apply safe_close_session. }
  unfold with_session, mbind at 1, M_bind at 1, bind at 1. rewrite Hs. cbn [push_task].
  eassert (Hs1 : I (w <| w_heap ::= <[p := s <| task_queue_ ::= fun q => q ++ [t] |>]> |>)).
  { apply (inv_set_session c bufs svc locked quiet D w p s); [done | done | done | by apply advances_same |].
    destruct (inv_sessions _ _ _ _ _ _ _ Hw p s Hs) as (Hb & Hq & _). split; [done |].
    split; [done |]. change (len (task_queue_ s ++ [t]) <= max_task_queue c).
    rewrite len_app, len_cons, len_nil. lia. }
  eapply (safe_when I E); [| exact Hs1]. intros _. safe_step. by apply safe_run_next_task.
Qed.

Context (Hc : 2 <= max_write_queue c).

Lemma safe_enqueue_write p msg E : p ∈ D -> safe I (enqueue_write p msg) E (fun _ => True).
Proof.
  intros Hp. unfold enqueue_write. safe_step. safe_step. subst. safe_step.
  fold (max_write_queue c). rewrite (proj2 (Z.leb_gt _ _)) by lia. rewrite andb_false_r.
  intros w Hw. destruct (inv_lookup _ _ _ _ _ _ w p Hw Hp) as [s Hs].
  destruct (inv_sessions _ _ _ _ _ _ _ Hw p s Hs) as (Hb & Hq & Ht).
  unfold with_session at 1, mbind at 1, M_bind at 1, bind at 1. rewrite Hs.
  unfold enqueue_overflow.
  destruct (Z.leb_spec (max_write_queue c) (len (write_queue_ s))) as [Hfull | Hroom].
  - set (s1 := s <| write_queue_ ::= tail |> <| write_queue_overflow_count_ ::= Z.succ |>).
    assert (Hlen : len (write_queue_ s1) = len (write_queue_ s) - 1).
    { unfold s1. cbn [write_queue_ set_field]. destruct (write_queue_ s) as [| m q]; cbn [tail].
      - rewrite len_nil in *. lia.
      - rewrite len_cons. lia. }
    assert (Hi : I (w <| w_heap ::= <[p := s1]> |>)).
    { apply (inv_set_session c bufs svc locked quiet D w p s); [done | done | done | |].
      - apply advances_nonempty; [done | | done]. intros Hnil. rewrite Hnil, len_nil in Hlen. lia.
      - split; [done |]. split; [lia | done]. }
    destruct (_ <=? write_queue_overflow_count_ s1); [by apply safe_close_session |].
    unfold upd, with_session. cbn [w_heap set_field]. rewrite lookup_insert_eq.
    split; [done |]. eapply (inv_set_session c bufs svc locked quiet D _ p s1 (push_write msg s1)); [exact Hi | done | by apply lookup_insert_eq | |].
    + apply advances_nonempty; [done | | done]. cbn. by destruct (tail _).
    + split; [done |]. split; [| done].
      change (len (write_queue_ s1 ++ [msg]) <= max_write_queue c).
      rewrite len_app, len_cons, len_nil. lia.
  - set (s1 := s <| write_queue_overflow_count_ := 0 |>).
    assert (Hi : I (w <| w_heap ::= <[p := s1]> |>)).
    { apply (inv_set_session c bufs svc locked quiet D w p s); [done | done | done | |].
      - by apply advances_same.
      - by split. }
    unfold upd, with_session. cbn [w_heap set_field]. rewrite lookup_insert_eq.
    split; [done |]. eapply (inv_set_session c bufs svc locked quiet D _ p s1 (push_write msg s1)); [exact Hi | done | by apply lookup_insert_eq | |].
    + apply advances_nonempty; [done | | done]. cbn. by destruct (write_queue_ s).
    + split; [done |]. split; [| done].
      change (len (write_queue_ s ++ [msg]) <= max_write_queue c).
      rewrite len_app, len_cons, len_nil. lia.
Qed.
End safety.

(** *** The write queue *)

Section writes.
Context (c : gmap string Z) (bufs : sptr -> MessageBufferManager) (svc : list Service) (locked : bool) (D : gset sptr).
Abbreviation I := (Inv c bufs svc locked None D).

Lemma inv_forget quiet w : Inv c bufs svc locked quiet D w -> I w.
Proof. intros H. destruct H. by split. Qed.

(** A session with an empty queue has no current write in flight. *)
Lemma inv_idle w p s :
  I w -> w_heap w !! p = Some s -> write_queue_ s = [] -> Inv c bufs svc locked (Some p) D w.
Proof.
  intros H Hs Hq. pose proof (inv_writes _ _ _ _ _ _ _ H p s Hs) as (H1 & H2 & _).
  destruct H. split; try done. intros q r [= <-] Hr. rewrite Hs in Hr. injection Hr as <-.
  destruct (writes_of p (generation_ s) (w_ops w)) eqn:E; [done |].
  destruct H2; [lia | done].
Qed.

(** The write of the front of the queue is started. *)
Lemma inv_start_write w p s m q :
  Inv c bufs svc locked (Some p) D w -> p ∈ D -> w_heap w !! p = Some s -> write_queue_ s = m :: q ->
  I (w <| w_ops ::= fun l => l ++ [OpWrite p m (generation_ s)] |>).
Proof.
  intros H Hp Hs Hq. pose proof (inv_quiet _ _ _ _ _ _ _ H p s eq_refl Hs) as Hz.
  destruct H. split; try done.
  - intros r t Hr. change (w_heap w !! r = Some t) in Hr.
    pose proof (inv_writes r t Hr) as Hok. destruct (decide (r = p)) as [-> | Hne].
    + rewrite Hs in Hr. injection Hr as <-. destruct Hok as (_ & _ & Hlater).
      assert (Hone : forall g, writes_of p g [OpWrite p m (generation_ s)] =
                       if decide (generation_ s = g) then 1%nat else 0%nat).
      { intros g. unfold writes_of. cbn. rewrite bool_decide_true by done.
        destruct (decide (generation_ s = g)); by case_bool_decide. }
      unfold writes_ok.
      change (w_ops (w <| w_ops ::= fun l => l ++ [OpWrite p m (generation_ s)] |>))
        with (w_ops w ++ [OpWrite p m (generation_ s)]).
      rewrite writes_of_app, Hz, Hone, decide_True by done. split; [lia |]. split; [by rewrite Hq |].
      intros g Hg. rewrite writes_of_app, Hlater, Hone, decide_False by lia. done.
    + apply writes_ok_other; [| done]. intros ? ? ? [= <- <- <-]. done.
  - etransitivity; [apply omap_app |]. by rewrite app_nil_r.
  - apply Forall_app. split; [done |]. constructor; [| done]. cbn. congruence.
Qed.

Lemma hoare_do_write_queue p E :
  p ∈ D ->
  hoare (Inv c bufs svc locked (Some p) D) (do_write_queue p) (fun e w => E e /\ I w) (fun _ w => True /\ I w).
Proof.
  intros Hp w Hw. destruct (inv_lookup _ _ _ _ _ _ w p Hw Hp) as [s Hs].
  unfold do_write_queue, with_session at 1, mbind at 1, M_bind at 1, bind at 1. rewrite Hs.
  assert (Hok := inv_sessions _ _ _ _ _ _ _ Hw p s Hs).
  unfold next_write. destruct (decide (state_ s = Closed)) as [_ | _].
  { split; [done |]. apply (inv_forget (Some p)).
    apply (inv_set_session c bufs svc locked (Some p) D w p s); [done | done | done | | done].
    by apply advances_same. }
  destruct (write_queue_ s) as [| m q] eqn:Eq.
  { split; [done |]. apply (inv_forget (Some p)).
    apply (inv_set_session c bufs svc locked (Some p) D w p s); [done | done | done | | done].
    by apply advances_same. }
  set (w1 := w <| w_heap ::= <[p := s]> |>).
  assert (H1 : Inv c bufs svc locked (Some p) D w1).
  { apply (inv_set_session c bufs svc locked (Some p) D w p s); [done | done | done | | done].
    by apply advances_same. }
  assert (H2 := inv_start_write w1 p s m q H1 Hp (lookup_insert_eq _ _ _) Eq).
  assert (Hrest : safe I
    (sock ← get p socket_;
     match sock with
     | Some conn => send_prefixed p conn m
     | None => mret tt
     end) E (fun _ => True)).
  { safe_step. destruct a; [apply safe_send_prefixed | by apply safe_mret]. }
  apply (Hrest _ H2).
Qed.

Context (Hc : 2 <= max_write_queue c).

(** Completion of a write: the operation has left [w_ops]; if its generation
    is current, it was the only one and the queue is not empty. *)
Lemma hoare_on_write_complete p g ok E :
  p ∈ D ->
  hoare (fun w => I w /\ forall s, w_heap w !! p = Some s -> generation_ s = g ->
           write_queue_ s <> [] /\ writes_of p g (w_ops w) = 0%nat)
    (on_write_complete p g ok) (fun e w => E e /\ I w) (fun _ w => True /\ I w).
Proof.
  intros Hp w [Hw Hg]. destruct (inv_lookup _ _ _ _ _ _ w p Hw Hp) as [s Hs].
  unfold on_write_complete, get, mbind at 1, M_bind at 1, bind at 1. rewrite Hs.
  destruct (decide (g <> generation_ s)) as [Hne | Heq]; [done |].
  apply dec_stable in Heq. destruct (Hg s Hs (eq_sym Heq)) as [Hq Hz].
  destruct ok; cbn [negb]; [| by apply (safe_close_session c bufs svc locked None D p E Hp w)].
  assert (Hquiet : Inv c bufs svc locked (Some p) D w).
  { destruct Hw. split; try done. intros q r [= <-] Hr. rewrite Hs in Hr. injection Hr as <-.
    by rewrite <- Heq. }
  unfold with_session, mbind at 1, M_bind at 1, bind at 1. rewrite Hs. cbn [pop_write].
  rewrite bool_decide_false by done.
  apply (hoare_do_write_queue p E Hp).
  destruct (inv_sessions _ _ _ _ _ _ _ Hw p s Hs) as (Hb & Hlen & Ht).
  set (s1 := s <| write_queue_ ::= tail |>).
  pose proof (inv_writes _ _ _ _ _ _ _ Hw p s Hs) as (_ & _ & Hlater).
  destruct Hquiet. split; try done; cbn.
  - intros q Hin. rewrite dom_insert. set_solver.
  - intros q Hin. rewrite dom_insert in Hin. apply inv_next.
    apply elem_of_union in Hin as [Hin | Hin]; [| done].
    apply elem_of_singleton in Hin as ->. by apply elem_of_dom.
  - apply map_Forall_insert_2; [| done]. split; [done |]. split; [| done].
    change (len (tail (write_queue_ s)) <= max_write_queue c).
    destruct (write_queue_ s); [done |]. rewrite len_cons in Hlen. cbn [tail]. lia.
  - apply map_Forall_insert_2; [| done]. by apply (inv_bufs p s).
  - apply map_Forall_insert_2; [| done].
    assert (Hz' : writes_of p (generation_ s1) (w_ops w) = 0%nat) by (cbn; by rewrite <- Heq).
    unfold writes_ok. rewrite Hz'. split; [lia |]. split; [lia |]. apply Hlater.
  - intros q r [= <-] Hr. rewrite lookup_insert_eq in Hr. injection Hr as <-. cbn. by rewrite <- Heq.
  - by apply map_Forall_insert_2.
  - by apply (pool_ok_dom D (w_heap w)); [rewrite dom_insert; set_solver |].
Qed.

Lemma safe_post_write_body p msg E : p ∈ D -> safe I (post_write_body p msg) E (fun _ => True).
Proof.
  intros Hp w Hw. destruct (inv_lookup _ _ _ _ _ _ w p Hw Hp) as [s Hs].
  unfold post_write_body, get, mbind at 1, M_bind at 1, bind at 1. rewrite Hs.
  destruct (decide (write_queue_ s = [])) as [Hq | Hq].
  - rewrite bool_decide_true by done. cbn [when].
    assert (Hidle := inv_idle w p s Hw Hs Hq).
    clear Hw Hs. revert w Hidle.
    change (hoare (Inv c bufs svc locked (Some p) D)
      (enqueue_write p msg;; upd p (fun s => s <| write_in_progress_ := true |>);; do_write_queue p)
      (fun e w => E e /\ I w) (fun _ w => True /\ I w)).
    eapply hoare_bind.
    + eapply hoare_conseq; [apply (safe_enqueue_write c bufs svc locked (Some p) D Hc p msg E Hp) | done | | done].
      intros e w [He Hw]. split; [done | by apply (inv_forget (Some p))].
    + intros []. eapply hoare_bind.
      * eapply (hoare_conseq _ (Inv c bufs svc locked (Some p) D)); [| by intros w [_ Hw] | | ].
        -- apply (safe_upd_same c bufs svc locked (Some p) D p _ E); [by intros ? | done].
        -- intros e w [He Hw]. split; [done | by apply (inv_forget (Some p))].
        -- intros a w H. exact H.
      * intros []. eapply hoare_conseq; [by apply (hoare_do_write_queue p E) | by intros w [_ Hw] | done | done].
  - rewrite bool_decide_false by done. cbn [when]. clear Hs. revert w Hw.
    change (safe I (enqueue_write p msg;; ret tt) E (fun _ => True)).
    eapply safe_bind; [by apply safe_enqueue_write |]. intros _ _. by apply safe_ret.
Qed.

Lemma safe_run_job p j E : p ∈ D -> safe I (run_job p j) E (fun _ => True).
Proof.
  intros Hp. destruct j; cbn; [by apply safe_post_write_body | by apply safe_post_task_body].
Qed.

Lemma safe_enqueue_job p j E : p ∈ D -> safe I (enqueue_job p j) E (fun _ => True).
Proof.
  intros Hp. apply safe_modify. intros w H. destruct H. split; try done. cbn.
  intros q. destruct (decide (q = p)) as [-> | Hne]; [done |].
  rewrite lookup_insert_ne by done. apply inv_jobs.
Qed.

Lemma safe_dispatch_strand p j E : p ∈ D -> safe I (dispatch_strand p j) E (fun _ => True).
Proof.
  intros Hp. unfold dispatch_strand. safe_step.
  destruct a; [by apply safe_run_job | by apply safe_enqueue_job].
Qed.

Lemma safe_post_write p msg E : p ∈ D -> safe I (post_write p msg) E (fun _ => True).
Proof. apply safe_dispatch_strand. Qed.

Lemma safe_post_task p t E : p ∈ D -> safe I (post_task p t) E (fun _ => True).
Proof. apply safe_dispatch_strand. Qed.

Lemma inv_set_strand quiet o w :
  Inv c bufs svc locked quiet D w -> Inv c bufs svc locked quiet D (w <| w_strand := o |>).
Proof. intros H. destruct H. by split. Qed.

Lemma hoare_in_strand p (m : P unit) (Pre : World -> Prop) E :
  hoare Pre m (fun e w => E e /\ I w) (fun _ w => True /\ I w) ->
  (forall w, Pre w -> Pre (w <| w_strand := Some p |>)) ->
  hoare Pre (in_strand p m) (fun e w => E e /\ I w) (fun _ w => True /\ I w).
Proof.
  intros Hm Hpre w Hw. unfold in_strand. specialize (Hm _ (Hpre w Hw)).
  destruct (m _) as [[a | e |] w']; [| | done];
    (split; [apply Hm | apply inv_set_strand, Hm]).
Qed.

Lemma safe_in_strand p (m : P unit) E :
  safe I m E (fun _ => True) -> safe I (in_strand p m) E (fun _ => True).
Proof. intros Hm. apply hoare_in_strand; [done |]. intros w. apply inv_set_strand. Qed.

(** *** Reading and the login timer *)

Lemma safe_do_read p E : p ∈ D -> safe I (do_read p) E (fun _ => True).
Proof.
  intros Hp. unfold do_read. safe_step. destruct (decide _); [by apply safe_mret |].
  eapply (safe_bind _ _ _ _ (fun _ => True)).
  { apply safe_with_session; [done |]. intros s Hs. cbn. split; [| done].
    by apply advances_same. }
  intros b _. destruct b; cbn [negb]; [| by apply safe_mret].
  eapply safe_bind; [by apply safe_get_handler_safe |]. intros b _.
  destruct b; [by apply safe_post_task | by apply safe_mret].
Qed.

Lemma safe_start_login_timeout p E : p ∈ D -> safe I (start_login_timeout p) E (fun _ => True).
Proof.
  intros Hp. unfold start_login_timeout. safe_step. destruct (decide _); [by apply safe_mret |].
  safe_step. safe_step. safe_done.
Qed.

Lemma safe_on_login_timeout p E : p ∈ D -> safe I (on_login_timeout p) E (fun _ => True).
Proof.
  intros Hp. unfold on_login_timeout. safe_step. safe_step. destruct a0; [by apply safe_mret |].
  eapply safe_bind; [by apply safe_post_write |]. intros _ _. by apply safe_close_session.
Qed.

Lemma safe_start p E : p ∈ D -> safe I (start p) E (fun _ => True).
Proof.
  intros Hp. unfold start. eapply safe_bind; [by apply safe_do_read |].
  intros _ _. by apply safe_start_login_timeout.
Qed.
End writes.

#[export] Hint Resolve safe_DataHandler_remove_session safe_close_session safe_get_handler_safe
  safe_run_next_task safe_post_task safe_do_read safe_on_login_timeout safe_start : safe.
#[export] Hint Extern 1 (safe _ (post_write _ _) _ _) => apply safe_post_write; assumption : safe.
