(* ===== verification/SessionManager.v ===== *)
(** * SessionManager: the operations that close sessions

    [add_session], [register_nickname] and [cleanup_inactive_sessions]; the
    others are in [SessionStore]. *)
From Stdlib Require Import ZArith Lia.
From stdpp Require Import base gmap sets list strings.
From S2P Require Import Prelude MessageBuffer RateLimit Json Session World.
From S2P Require Import SessionPool Zones Invariant.
From S2P Require Import SessionStore.
From S2P Require Import Lifecycle.

Open Scope Z_scope.

(** The session that [add_session] replaces: the one stored under the same id,
    if its generation differs. *)
Definition replaced_session (prev : option sptr) (generation : Z) : P (option sptr) :=
  match prev with
  | None => mret None
  | Some prev =>
      g ← get prev generation_;
      mret (if decide (g <> generation) then Some prev else None)
  end.

Definition add_session (session : sptr) : P unit :=
  session_id ← get session session_id_;
  prev ← with_bucket session_id (fun b => (b !! session_id, <[session_id := session]> b));
  generation ← get session generation_;
  replaced ← replaced_session prev generation;
  match replaced with
  | None => mret tt
  | Some r =>
      closed ← get r closed_;
      when (negb closed) (close_session r)
  end.

Definition other_login_notice : string :=
  (raw "{'type':'error','msg':'다른 곳에서 로그인되어 기존 연결이 종료됩니다.'}" +:+ newline)%string.

Definition register_nickname (nickname : string) (session : sptr) : P unit :=
  with_nickname_lock (
    idx ← gets (fun w => nickname_index_ (w_sm w));
    match idx !! nickname with
    | None => mret tt
    | Some q =>
        prev ← weak_lock q;
        match prev with
        | None => mret tt
        | Some prev =>
            if decide (prev = session) then mret tt
            else post_write prev other_login_notice;; close_session prev
        end
    end;;
    upd_sm (fun sm => sm <| nickname_index_ ::= <[nickname := session]> |>)).

(** The sessions of the table that [keep] selects, read before any is closed. *)
Definition sessions_where (keep : Session -> bool) (w : World) : list sptr :=
  List.filter (fun p => match w_heap w !! p with Some s => keep s | None => false end)
    (all_sessions (w_sm w)).

(** Idle for more than [max_idle]. *)
Definition inactive (now max_idle : Z) (s : Session) : bool :=
  max_idle <? now - last_alive_time_ s.

Definition cleanup_inactive_sessions (max_idle_time : Z) : P unit :=
  t ← now;
  to_close ← gets (sessions_where (inactive t (seconds max_idle_time)));
  for_each to_close close_session.

(** ** Safety *)

Section safety.
Context (c : gmap string Z) (bufs : sptr -> MessageBufferManager) (svc : list Service) (Hc : 2 <= max_write_queue c) (D : gset sptr).

Lemma safe_add_session locked p E :
  p ∈ D -> safe (Inv c bufs svc locked None D) (add_session p) E (fun _ => True).
Proof.
  intros Hp. unfold add_session. safe_step.
  eapply (safe_bind _ _ _ _ (fun r => forall q, r = Some q -> q ∈ D)).
  { apply (safe_insert_session c bufs svc None D locked a p E (fun b => b !! a)); [done |].
    intros b Hb q Hq. by apply (Hb a). }
  intros prev Hprev. safe_step.
  eapply (safe_bind _ _ _ _ (fun r => forall q, r = Some q -> q ∈ D)).
  { unfold replaced_session. destruct prev as [q |]; [| by apply safe_mret].
    assert (q ∈ D) by auto. safe_step. apply safe_mret. intros q'.
    by destruct (decide _); intros [= <-]. }
  intros [r |] Hr; [| by apply safe_mret]. assert (r ∈ D) by auto.
  safe_step. safe_step. by apply safe_close_session.
Qed.

Lemma safe_register_nickname nickname p E :
  p ∈ D -> safe (Inv c bufs svc false None D) (register_nickname nickname p) E (fun _ => True).
Proof.
  intros Hp. apply safe_with_nickname_lock.
  eapply (safe_bind _ _ _ _ (map_Forall (fun _ p => p ∈ D))).
  { apply safe_gets. intros w H. apply (inv_nicknames _ _ _ _ _ _ _ H). }
  intros idx Hidx. eapply (safe_bind _ _ _ _ (fun _ => True)).
  - destruct (idx !! nickname) as [q |] eqn:Eq; [| by apply safe_mret].
    assert (q ∈ D) by by apply (Hidx nickname). safe_step. subst. cbv beta iota.
    destruct (decide _); [by apply safe_mret |].
    eapply safe_bind; [by apply safe_post_write |]. intros _ _. by apply safe_close_session.
  - intros _ _. apply safe_upd_nicknames. intros m Hm. by apply map_Forall_insert_2.
Qed.

Lemma sessions_where_ok keep locked quiet w :
  Inv c bufs svc locked quiet D w -> Forall (fun p => p ∈ D) (sessions_where keep w).
Proof.
  intros H. apply Forall_forall. intros p Hp. apply list_elem_of_In, filter_In in Hp as [Hp _].
  pose proof (inv_all_sessions c bufs svc locked quiet D w H) as Hf. rewrite Forall_forall in Hf.
  apply Hf. by apply list_elem_of_In.
Qed.

Lemma safe_close_where keep locked E :
  safe (Inv c bufs svc locked None D) (l ← gets (sessions_where keep); for_each l close_session)
    E (fun _ => True).
Proof.
  eapply (safe_bind _ _ _ _ (Forall (fun p => p ∈ D))).
  { apply safe_gets. intros w H. by apply (sessions_where_ok keep locked None). }
  intros l Hl. rewrite Forall_forall in Hl. apply safe_for_each.
  intros p Hp. apply safe_close_session. auto.
Qed.

Lemma safe_cleanup_inactive_sessions locked secs E :
  safe (Inv c bufs svc locked None D) (cleanup_inactive_sessions secs) E (fun _ => True).
Proof. unfold cleanup_inactive_sessions. safe_step. apply safe_close_where. Qed.
End safety.
