(* ===== verification/DataHandler.v ===== *)
(** * DataHandler.{h,cpp}: broadcasts, sweeps and periodic loops

    [DataHandler::remove_session] is in [Lifecycle], [on_udp_receive] in
    [UdpReceive], the bad-packet table in [RateLimit]. *)
From Stdlib Require Import ZArith Lia.
From stdpp Require Import base gmap sets list strings sorting.
From S2P Require Import Prelude MessageBuffer RateLimit Json Session World.
From S2P Require Import SessionPool Zones Invariant.
From S2P Require SessionStore.
From S2P Require Import Lifecycle SessionManager.

Open Scope Z_scope.

Section handler.
Context `{Platform}.

Definition DataHandler_add_session (session_id : Z) (session : sptr) : P unit :=
  add_session session.

(** ** TCP broadcasts *)

(** The recipients of [broadcast]: logged in, and not the sender. *)
Definition is_recipient (sender_session_id : Z) (s : Session) : bool :=
  bool_decide (session_id_ s <> sender_session_id) && bool_decide (nickname_ s <> EmptyString).

Definition in_zone (zone_id : Z) (s : Session) : bool := bool_decide (zone_id_ s = zone_id).

(** The loop over a snapshot; an exception of one session is logged. *)
Definition post_to_all (msg : string) (snapshot : list sptr) : P unit :=
  for_each snapshot (fun sess => catch (post_write sess msg) (fun _ => mret tt)).

Definition broadcast (msg : string) (sender_session_id : Z) : P unit :=
  snapshot ← gets (sessions_where (is_recipient sender_session_id));
  post_to_all msg snapshot.

Definition broadcast_zone_tcp (msg : string) (zone_id sender_session_id : Z) : P unit :=
  snapshot ← gets (sessions_where (fun s => is_recipient sender_session_id s && in_zone zone_id s));
  post_to_all msg snapshot.

Definition broadcast_strict (msg : string) : P unit :=
  SessionStore.for_each_session (fun sess => post_write sess msg).

(** ** Periodic sweeps *)

Definition keepalive_timeout_ : Z := seconds 60.

Definition keepalive_expired (now : Z) (s : Session) : bool :=
  nickname_registered_ s && (keepalive_timeout_ <? now - last_alive_time_ s).

Definition do_keepalive_check : P unit :=
  t ← now;
  sessions_to_close ← gets (sessions_where (keepalive_expired t));
  for_each sessions_to_close close_session.

(** [udp_endpoint_to_session_.erase(ep)], then the session's own fields.  The
    branch for an idle endpoint only logs. *)
Definition expire_one (sess : sptr) : P unit :=
  closed ← get sess closed_;
  if (closed : bool) then
    ep ← get sess udp_endpoint_;
    match ep with
    | Some ep => upd_dh (fun d => d <| udp_endpoint_to_session_ ::= delete ep |>)
    | None => mret tt
    end;;
    upd sess clear_udp_endpoint;;
    upd sess clear_udp_token
  else mret tt.

Definition expire_stale_udp_endpoints (timeout : Z) : P unit :=
  SessionStore.for_each_session expire_one.

(** Not logged in yet. *)
Definition unauthenticated (s : Session) : bool :=
  match state_ s with Handshaking | LoginWait => true | _ => false end.

(** [std::sort] by last activity. *)
Definition older (a b : Z * sptr) : Prop := a.1 <= b.1.
#[global] Instance older_dec a b : Decision (older a b).
Proof. unfold older. apply _. Defined.

Definition last_alive (w : World) (p : sptr) : Z :=
  match w_heap w !! p with Some s => last_alive_time_ s | None => 0 end.

Definition oldest_first (w : World) (l : list sptr) : list sptr :=
  (merge_sort older (map (fun p => (last_alive w p, p)) l)).*2.

Definition cleanup_unauth_sessions (max_unauth : Z) : P unit :=
  unauth_sessions ← gets (sessions_where unauthenticated);
  if max_unauth <? len unauth_sessions then
    sorted ← gets (fun w => oldest_first w unauth_sessions);
    for_each (take (Z.to_nat (len unauth_sessions - max_unauth)) sorted) close_session
  else mret tt.

Definition start_keepalive_loop : P unit :=
  t ← now; start_op (OpTimer KeepaliveTimer (t + keepalive_timeout_)).

Definition on_keepalive_timer : P unit :=
  do_keepalive_check;;
  timeout ← config_int "udp_expire_timeout_seconds" 300;
  expire_stale_udp_endpoints (seconds timeout);;
  start_keepalive_loop.

Definition start_monitor_loop : P unit :=
  t ← now; start_op (OpTimer MonitorTimer (t + seconds 10)).

(** What the monitor reports: the total and the sessions the pool calls
    active. *)
Definition on_monitor_timer : P (Z * Z) :=
  total ← SessionStore.get_total_session_count;
  pool ← gets (fun w => session_pool_set (w_dh w));
  active ← (if (pool : bool) then count_active else mret 0);
  start_monitor_loop;;
  mret (total, active).

Definition start_cleanup_loop : P unit :=
  t ← now; start_op (OpTimer CleanupTimer (t + seconds 60)).

Definition on_cleanup_timer : P unit :=
  cleanup_inactive_sessions 300;;
  start_cleanup_loop.

(** The constructor starts the three loops. *)
Definition DataHandler_init : P unit :=
  start_keepalive_loop;; start_monitor_loop;; start_cleanup_loop.

(** ** UDP broadcasts *)

Definition udp_broadcast (msg sender_nickname : string) : P unit :=
  modify (fun w => w <| w_bg ::= fun q => q ++ [BUdpBroadcast msg sender_nickname] |>).

(** [nlohmann::json::parse]. *)
Definition parse_json (msg : string) : P json :=
  match parse msg with
  | inr j => mret j
  | inl e => throw (exn_of e)
  end.

(** The lambda posted on [udp_send_strand_]. *)
Definition run_udp_broadcast (msg sender_nickname : string) : P unit :=
  SessionStore.for_each_session (fun sess =>
    nick ← get sess nickname_;
    if decide (nick = EmptyString) then mret tt
    else if decide (nick = sender_nickname) then mret tt
    else
      udp_ep ← get sess udp_endpoint_;
      match udp_ep with
      | None => mret tt
      | Some ep =>
          recv ← parse_json msg;
          type ← lift (value_str recv "type" "");
          nickname ← lift (value_str recv "nickname" "");
          text ← lift (value_str recv "msg" "");
          async_send_to
            (dump (obj [("type", JStr type); ("nickname", JStr nickname); ("msg", JStr text)]%string))
            ep
      end).

Definition udp_broadcast_zone (zone_id : Z) (msg sender_nickname : string) : P unit :=
  zone ← get_zone zone_id;
  match zone with
  | Some _ => Zone_broadcast zone_id msg sender_nickname
  | None => mret tt
  end.

(** ** Zones *)

Definition assign_session_to_zone (session : sptr) (zone_id : Z) : P unit :=
  zone ← get_zone zone_id;
  match zone with
  | None => mret tt
  | Some z =>
      id ← get session session_id_;
      let '(added, z') := Zone_add_session z id session in
      if added then
        upd_zones (<[zone_id := z']>);;
        upd session (set_zone_id zone_id);;
        upd session (set_zone (Some zone_id))
      else mret tt
  end.

(** ** UDP endpoints *)

Definition getSessionByEndpoint (e : endpoint) : P (option sptr) :=
  dh ← gets w_dh;
  match udp_endpoint_to_session_ dh !! e with
  | Some p => weak_lock p
  | None => mret None
  end.

(** ** Safety *)

Context (c : gmap string Z) (bufs : sptr -> MessageBufferManager) (svc : list Service) (Hc : 2 <= max_write_queue c) (D : gset sptr) (locked : bool).
Abbreviation I := (Inv c bufs svc locked None D).

Lemma safe_post_to_all msg l E :
  Forall (fun p => p ∈ D) l -> safe I (post_to_all msg l) E (fun _ => True).
Proof using Hc.
  intros Hl. rewrite Forall_forall in Hl. apply safe_for_each. intros p Hp.
  apply (safe_catch _ _ never); [apply safe_post_write; auto | intros ? []].
Qed.

Lemma safe_post_where keep msg E :
  safe I (snapshot ← gets (sessions_where keep); post_to_all msg snapshot) E (fun _ => True).
Proof using Hc.
  eapply (safe_bind _ _ _ _ (Forall (fun p => p ∈ D))).
  { apply safe_gets. intros w Hw. by apply (sessions_where_ok c bufs svc D keep locked None). }
  intros l Hl. by apply safe_post_to_all.
Qed.

Lemma safe_broadcast msg id E : safe I (broadcast msg id) E (fun _ => True).
Proof using Hc. apply safe_post_where. Qed.

Lemma safe_broadcast_zone_tcp msg z id E :
  safe I (broadcast_zone_tcp msg z id) E (fun _ => True).
Proof using Hc. apply safe_post_where. Qed.

Lemma safe_broadcast_strict msg E : safe I (broadcast_strict msg) E (fun _ => True).
Proof using Hc. apply safe_for_each_session. intros p Hp. by apply safe_post_write. Qed.

Lemma safe_do_keepalive_check E : safe I do_keepalive_check E (fun _ => True).
Proof using Type. unfold do_keepalive_check. safe_step. apply safe_close_where. Qed.

Lemma safe_expire_stale_udp_endpoints t E :
  safe I (expire_stale_udp_endpoints t) E (fun _ => True).
Proof using Type.
  apply safe_for_each_session. intros p Hp. unfold expire_one. safe_step.
  destruct a; [| by apply safe_mret]. safe_step.
  eapply (safe_bind _ _ _ _ (fun _ => True)).
  { destruct a; [| by apply safe_mret]. apply safe_upd_udp. intros m. apply map_Forall_delete_2. }
  intros _ _. safe_step. safe_done.
Qed.

Lemma oldest_first_perm w l : oldest_first w l ≡ₚ l.
Proof using Type.
  unfold oldest_first. rewrite merge_sort_Permutation, <- list_fmap_compose.
  apply reflexive_eq, list_fmap_id.
Qed.

Lemma safe_cleanup_unauth_sessions n E : safe I (cleanup_unauth_sessions n) E (fun _ => True).
Proof using Type.
  unfold cleanup_unauth_sessions. eapply (safe_bind _ _ _ _ (Forall (fun p => p ∈ D))).
  { apply safe_gets. intros w Hw. by apply (sessions_where_ok c bufs svc D _ locked None). }
  intros l Hl. destruct (n <? len l); [| by apply safe_mret].
  eapply (safe_bind _ _ _ _ (fun s => s ≡ₚ l)).
  { apply safe_gets. intros w Hw. apply oldest_first_perm. }
  intros s Hs. rewrite <- Hs, Forall_forall in Hl. apply safe_for_each. intros p Hp.
  apply elem_of_take in Hp as (i & Hi & _). apply safe_close_session, Hl.
  by apply list_elem_of_lookup_2 in Hi.
Qed.

(** Each loop starts its next round. *)
Lemma starts_timer t d E :
  starts c bufs svc locked None D (STimer t) (t0 ← now; start_op (OpTimer t (t0 + d)))
    E (fun _ => True).
Proof using Type.
  eapply starts_after; [apply safe_now |]. intros. by apply starts_op.
Qed.

Lemma starts_on_keepalive_timer E :
  starts c bufs svc locked None D (STimer KeepaliveTimer) on_keepalive_timer E (fun _ => True).
Proof using Type.
  eapply starts_after; [apply safe_do_keepalive_check |]. intros _ _.
  eapply starts_after; [apply safe_config_int |]. intros t _.
  eapply starts_after; [apply safe_expire_stale_udp_endpoints |]. intros _ _.
  apply starts_timer.
Qed.

Lemma starts_on_monitor_timer E :
  starts c bufs svc locked None D (STimer MonitorTimer) on_monitor_timer E (fun _ => True).
Proof using Type.
  eapply (starts_after _ _ _ _ _ _ _ _ _ _ (fun _ => True)); [by apply safe_gets |]. intros total _.
  eapply (starts_after _ _ _ _ _ _ _ _ _ _ (fun _ => True)); [by apply safe_gets |]. intros pool _.
  eapply (starts_after _ _ _ _ _ _ _ _ _ _ (fun _ => True)).
  { destruct pool; [by apply safe_gets | by apply safe_mret]. }
  intros active _. by apply starts_mret; [apply starts_timer |].
Qed.

Lemma starts_on_cleanup_timer E :
  starts c bufs svc locked None D (STimer CleanupTimer) on_cleanup_timer E (fun _ => True).
Proof using Type.
  eapply starts_after; [apply safe_cleanup_inactive_sessions |]. intros _ _. apply starts_timer.
Qed.

Lemma safe_upd_bg f E : safe I (modify (fun w => w <| w_bg ::= f |>)) E (fun _ => True).
Proof using Type. apply safe_modify. intros w Hw. destruct Hw. by split. Qed.

Lemma safe_run_udp_broadcast msg sender :
  safe I (run_udp_broadcast msg sender) any (fun _ => True).
Proof using Type.
  apply safe_for_each_session. intros p Hp. safe_step.
  destruct (decide _); [by apply safe_mret |]. destruct (decide _); [by apply safe_mret |].
  safe_step. destruct a0 as [ep |]; [| by apply safe_mret].
  eapply (safe_bind _ _ _ _ (fun _ => True)).
  { unfold parse_json. destruct (parse msg); [by apply safe_throw | by apply safe_mret]. }
  intros recv _.
  assert (Hv : forall key, safe I (lift (value_str recv key "")) any (fun _ => True)).
  { intros key. apply safe_lift. unfold value_str. by repeat case_match. }
  do 3 (eapply safe_bind; [apply Hv | intros ? _]). apply safe_async_send_to.
Qed.

Lemma safe_assign_session_to_zone p z E :
  p ∈ D -> safe I (assign_session_to_zone p z) E (fun _ => True).
Proof using Type.
  intros Hp. unfold assign_session_to_zone.
  eapply safe_bind; [apply safe_lookup_zone |]. intros [zn |] Hz; [| by apply safe_mret].
  specialize (Hz zn eq_refl). safe_step.
  destruct (Zone_add_session zn a p) as [b zn'] eqn:Ea.
  destruct b; [| by apply safe_mret].
  eapply safe_bind; [apply safe_set_zone; by eapply zone_ok_add |]. intros _ _.
  safe_step. safe_done.
Qed.

Lemma safe_getSessionByEndpoint e E :
  safe I (getSessionByEndpoint e) E (fun r => forall p, r = Some p -> p ∈ D).
Proof using Type.
  unfold getSessionByEndpoint. eapply safe_bind; [apply safe_gets_some |].
  intros dh (w & Hw & ->). destruct (_ !! e) as [p |] eqn:Ep; [| by apply safe_mret].
  assert (p ∈ D) by by apply (inv_udp _ _ _ _ _ _ _ Hw e p).
  eapply safe_weaken; [by apply safe_weak_lock |]. naive_solver.
Qed.
End handler.

#[export] Hint Resolve safe_broadcast safe_broadcast_zone_tcp safe_do_keepalive_check
  safe_cleanup_unauth_sessions safe_assign_session_to_zone safe_getSessionByEndpoint : safe.
