(* ===== verification/LoginFlow.v ===== *)
(** * LoginFlow and the TCP message handlers

    [UseCases/LoginFlow.cpp] and [MessageHandlers/*.cpp].  A flow is the pair
    of a weak pointer to the session and the nickname; the request it makes of
    the DB router is an outstanding operation [OpDb], completed with the
    router's answer.  [handler] and the managers behind the raw pointers the
    handlers receive are those of the world. *)
From Stdlib Require Import ZArith Lia.
From stdpp Require Import base gmap sets list strings.
From S2P Require Import Prelude MessageBuffer RateLimit Json Session World.
From S2P Require Import SessionPool Zones Invariant.
From S2P Require SessionStore.
From S2P Require Import Lifecycle SessionManager DataHandler.

Open Scope Z_scope.

Section login.
Context `{Platform}.

(** ** LoginFlow *)

(** [j.dump() + "\n"]. *)
Definition line (j : json) : string := (dump j +:+ newline)%string.

Definition login_success_msg (nickname : string) : string :=
  line (obj [("type", JStr "login_success"); ("nickname", JStr nickname)]%string).

Definition complete_success (sess : sptr) (nickname : string) : P unit :=
  s ← weak_lock sess;
  match s with
  | Some s => post_write s (login_success_msg nickname)
  | None => mret tt
  end.

Definition complete_fail (sess : sptr) (reason : string) : P unit :=
  s ← weak_lock sess;
  match s with
  | Some s => post_write s
      (line (obj [("type", JStr "login_result"); ("ok", JBool false); ("error", JStr reason)]%string))
  | None => mret tt
  end.

Definition entered_notice (nickname : string) : string :=
  line (obj [("type", JStr "notice"); ("msg", JStr (nickname +:+ " has entered."))]%string).

Definition duplicate_ban : string := raw "{'type':'error','msg':'Duplicate login ban'}".

(** The session that holds the nickname is told [msg] and closed. *)
Definition evict (prev : option sptr) (s : sptr) (msg : string) : P unit :=
  match prev with
  | None => mret tt
  | Some prev =>
      if decide (prev = s) then mret tt
      else post_write prev msg;; close_session prev
  end.

Definition default_zone : Z := 1.

Definition on_user_info_ok (sess : sptr) (nickname : string) (j : json) : P unit :=
  code ← lift (value_int j "code" (-1));
  if decide (code <> 0) then complete_fail sess "user_not_found"
  else
    s ← weak_lock sess;
    match s with
    | None => mret tt
    | Some s =>
        alive ← gets (fun w => managers_alive (w_links w));
        if negb alive then complete_fail sess "server_unavailable"
        else
          add_session s;;
          prev ← SessionStore.find_session_by_nickname nickname;
          evict prev s duplicate_ban;;
          register_nickname nickname s;;
          upd s (set_nickname nickname);;
          upd s on_nickname_registered;;
          assign_session_to_zone s default_zone;;
          id ← get s session_id_;
          broadcast (entered_notice nickname) id;;
          complete_success sess nickname
    end.

Definition on_user_info_fail (sess : sptr) (j : json) : P unit :=
  complete_fail sess (match j with JStr s => s | _ => "db_error" end).

(** The answer a login gets when the DB link is down. *)
Definition bypass_answer (nickname : string) : json :=
  obj [("type", JStr "db_query_result"); ("api", JStr "request_user_info"); ("code", JInt 0);
       ("data", obj [("nickname", JStr nickname)])]%string.

Definition request_user_info (sess : sptr) (nickname : string) : P unit :=
  router ← gets (fun w => db_router_alive (w_links w));
  s ← weak_lock sess;
  match s with
  | None => mret tt
  | Some s =>
      if negb router then on_user_info_ok sess nickname (bypass_answer nickname)
      else
        db_connected ← gets (fun w => db_client_connected (w_links w));
        if negb db_connected then on_user_info_ok sess nickname (bypass_answer nickname)
        else
          catch (id ← get s session_id_; start_op (OpDb s nickname id))
            (fun _ => on_user_info_fail sess
               (obj [("type", JStr "error"); ("msg", JStr "exception")]%string))
  end.

(** The callbacks handed to the router. *)
Definition on_db_ok (sess : sptr) (nickname : string) (j : json) : P unit :=
  on_user_info_ok sess nickname j.

Definition on_db_error (sess : sptr) (j : json) : P unit :=
  reason ← lift (value_str j "msg" "timeout");
  on_user_info_fail sess (JStr reason).

Definition begin (sess : sptr) (nickname : string) : P unit := request_user_info sess nickname.

(** ** Message handlers *)

Definition login_handler (session : sptr) (msg : json) : P unit :=
  nickname ← lift (value_str msg "nickname" "anonymity");
  if decide (nickname = EmptyString) then
    post_write session (raw "{'type':'error','msg':'nickname required'}")
  else if decide (nickname = "quit"%string) then
    post_write session (raw "{'type':'logout','msg':'You are not logged in.'}" +:+ newline);;
    close_session session
  else
    prev ← SessionStore.find_session_by_nickname nickname;
    evict prev session (duplicate_ban +:+ newline);;
    begin session nickname.

Definition left_notice (nickname : string) : string :=
  line (obj [("type", JStr "notice"); ("msg", JStr (nickname +:+ " has left."))]%string).

Definition logout_handler (session : sptr) (msg : json) : P unit :=
  nickname ← get session nickname_;
  if decide (nickname = EmptyString) then
    post_write session (raw "{'type':'logout','msg':'You are not logged in.'}" +:+ newline);;
    close_session session
  else
    id ← get session session_id_;
    broadcast (left_notice nickname) id;;
    close_session session.

Definition chat_msg_of (type nickname text : string) : string :=
  line (obj [("type", JStr type); ("from", JStr nickname); ("msg", JStr text)]%string).

Definition notice_msg (text : string) : string :=
  line (obj [("type", JStr "notice"); ("msg", JStr text)]%string).

Definition error_msg (text : string) : string :=
  line (obj [("type", JStr "error"); ("msg", JStr text)]%string).

Definition chat_handler (session : sptr) (msg : json) : P unit :=
  chat_msg ← lift (value_str msg "msg" "");
  nickname ← get session nickname_;
  id ← get session session_id_;
  broadcast (chat_msg_of "chat" nickname chat_msg) id;;
  post_write session (notice_msg (chat_msg +:+ " 'Message sent completed.' ")).

Definition chatzone_handler (session : sptr) (msg : json) : P unit :=
  zone_id ← get session zone_id_;
  if zone_id <=? 0 then post_write session (error_msg "not in any zone")
  else
    chat_msg ← lift (value_str msg "msg" "");
    nickname ← get session nickname_;
    if decide (chat_msg = EmptyString) then post_write session (error_msg "empty message")
    else
      id ← get session session_id_;
      broadcast_zone_tcp (chat_msg_of "chat_zone" nickname chat_msg) zone_id id;;
      post_write session (notice_msg (chat_msg +:+ " 'Message tcp_zone_sent completed.' ")).

Definition keepalive_handler (session : sptr) (msg : json) : P unit :=
  t ← now;
  upd session (update_alive_time t).

(** ** Safety *)

Context (c : gmap string Z) (bufs : sptr -> MessageBufferManager) (svc : list Service) (Hc : 2 <= max_write_queue c) (D : gset sptr).
Abbreviation I := (Inv c bufs svc false None D).

Lemma safe_value_str j key d : safe I (lift (value_str j key d)) (eq TypeError) (fun _ => True).
Proof using Type. apply safe_lift. unfold value_str. destruct j; try done. by destruct (obj_get key o) as [[] |]. Qed.

Lemma safe_value_int j key d : safe I (lift (value_int j key d)) (eq TypeError) (fun _ => True).
Proof using Type. apply safe_lift. unfold value_int. destruct j; try done. by destruct (obj_get key o) as [[] |]. Qed.

Lemma safe_post_locked p msg E :
  p ∈ D ->
  safe I (s ← weak_lock p; match s with Some s => post_write s msg | None => mret tt end)
    E (fun _ => True).
Proof using Hc. intros Hp. safe_step. subst. cbv beta iota. by apply safe_post_write. Qed.

Lemma safe_complete_fail p reason E : p ∈ D -> safe I (complete_fail p reason) E (fun _ => True).
Proof using Hc. apply safe_post_locked. Qed.

Lemma safe_evict prev s msg E :
  (forall p, prev = Some p -> p ∈ D) -> safe I (evict prev s msg) E (fun _ => True).
Proof using Hc.
  intros Hp. destruct prev as [p |]; cbn; [| by apply safe_mret].
  destruct (decide _); [by apply safe_mret |]. assert (p ∈ D) by auto.
  eapply safe_bind; [by apply safe_post_write |]. intros _ _. by apply safe_close_session.
Qed.

Lemma safe_on_user_info_ok p nickname j (E : exn -> Prop) :
  p ∈ D -> (forall v, value_int j "code" (-1) = Exn v -> E v) ->
  safe I (on_user_info_ok p nickname j) E (fun _ => True).
Proof using Hc.
  intros Hp HE. unfold on_user_info_ok. eapply (safe_bind _ _ _ _ (fun _ => True)).
  { apply safe_lift. destruct (value_int j "code" (-1)) eqn:Ev; [done | by apply HE |].
    unfold value_int in Ev. destruct j; try done. by destruct (obj_get _ _) as [[] |]. }
  intros code _. destruct (decide _); [by apply safe_complete_fail |].
  safe_step. subst. cbv beta iota. safe_step.
  destruct a; cbn [negb]; [| by apply safe_complete_fail].
  eapply safe_bind; [by apply safe_add_session |]. intros _ _.
  safe_step. eapply safe_bind; [by apply safe_evict |]. intros _ _.
  eapply safe_bind; [by apply safe_register_nickname |]. intros _ _.
  safe_step. safe_step. safe_step. safe_step.
  eapply safe_bind; [by apply safe_broadcast |]. intros _ _. by apply safe_post_locked.
Qed.

Lemma safe_request_user_info p nickname E :
  p ∈ D -> safe I (request_user_info p nickname) E (fun _ => True).
Proof using Hc.
  intros Hp. unfold request_user_info. safe_step. safe_step. subst. cbv beta iota.
  destruct a; cbn [negb]; [| by apply safe_on_user_info_ok].
  safe_step. destruct a; cbn [negb]; [| by apply safe_on_user_info_ok].
  apply (safe_catch _ _ never); [| intros ? []].
  safe_step. apply safe_start_op; [done | done |]. cbn. congruence.
Qed.

Lemma safe_on_db_ok p nickname j : p ∈ D -> safe I (on_db_ok p nickname j) (eq TypeError) (fun _ => True).
Proof using Hc.
  intros Hp. apply safe_on_user_info_ok; [done |]. unfold value_int. intros v.
  destruct j; try by intros [= <-]. by destruct (obj_get _ _) as [[] |]; intros [= <-].
Qed.

Lemma safe_on_db_error p j : p ∈ D -> safe I (on_db_error p j) (eq TypeError) (fun _ => True).
Proof using Hc.
  intros Hp. unfold on_db_error. eapply safe_bind; [apply safe_value_str |]. intros reason _.
  by apply safe_complete_fail.
Qed.

Lemma safe_login_handler p msg : p ∈ D -> safe I (login_handler p msg) (eq TypeError) (fun _ => True).
Proof using Hc.
  intros Hp. unfold login_handler. eapply safe_bind; [apply safe_value_str |]. intros nickname _.
  destruct (decide _); [by apply safe_post_write |]. destruct (decide _).
  - eapply safe_bind; [by apply safe_post_write |]. intros _ _. by apply safe_close_session.
  - safe_step. eapply safe_bind; [by apply safe_evict |]. intros _ _.
    by apply safe_request_user_info.
Qed.

Lemma safe_logout_handler p msg : p ∈ D -> safe I (logout_handler p msg) (eq TypeError) (fun _ => True).
Proof using Hc.
  intros Hp. unfold logout_handler. safe_step. destruct (decide _).
  - eapply safe_bind; [by apply safe_post_write |]. intros _ _. by apply safe_close_session.
  - safe_step. eapply safe_bind; [by apply safe_broadcast |]. intros _ _. by apply safe_close_session.
Qed.

Lemma safe_chat_handler p msg : p ∈ D -> safe I (chat_handler p msg) (eq TypeError) (fun _ => True).
Proof using Hc.
  intros Hp. unfold chat_handler. eapply safe_bind; [apply safe_value_str |]. intros text _.
  safe_step. safe_step. eapply safe_bind; [by apply safe_broadcast |]. intros _ _.
  by apply safe_post_write.
Qed.

Lemma safe_chatzone_handler p msg : p ∈ D -> safe I (chatzone_handler p msg) (eq TypeError) (fun _ => True).
Proof using Hc.
  intros Hp. unfold chatzone_handler. safe_step. destruct (a <=? 0); [by apply safe_post_write |].
  eapply safe_bind; [apply safe_value_str |]. intros text _. safe_step.
  destruct (decide _); [by apply safe_post_write |]. safe_step.
  eapply safe_bind; [by apply safe_broadcast_zone_tcp |]. intros _ _. by apply safe_post_write.
Qed.

Lemma safe_keepalive_handler p msg E : p ∈ D -> safe I (keepalive_handler p msg) E (fun _ => True).
Proof using Type. intros Hp. unfold keepalive_handler. safe_step. safe_done. Qed.
End login.
