(* ===== verification/Dispatcher.v ===== *)
(** * MessageDispatcher.{h,cpp} and the UDP message handlers

    The tables from message type to handler that the constructor fills, TCP
    dispatch with its two layers of exception handling, and UDP dispatch.  The
    handlers of [UDPMessageHandlers/*.cpp] are here, those of
    [MessageHandlers/*.cpp] in [LoginFlow]. *)
From Stdlib Require Import ZArith Lia.
From stdpp Require Import base gmap sets list strings.
From S2P Require Import Prelude MessageBuffer RateLimit Json Session World.
From S2P Require Import SessionPool Zones Invariant.
From S2P Require Import Lifecycle SessionManager DataHandler LoginFlow.

Open Scope Z_scope.

(** ** Random tokens *)

Definition hex_chars : string := "0123456789abcdef".

Definition hex_char (i : Z) : string :=
  match String.get (Z.to_nat i) hex_chars with
  | Some ch => String ch EmptyString
  | None => EmptyString
  end.

Section dispatcher.
Context `{Platform}.

(** [length] draws of the generator seeded by the [n]-th device. *)
Fixpoint token_from (n length : nat) : string :=
  match length with
  | O => EmptyString
  | S k => (token_from n k +:+ hex_char (draw n k))%string
  end.

Definition generate_random_token : P string :=
  n ← gets w_devices;
  modify (fun w => w <| w_devices ::= S |>);;
  mret (token_from n 32).

(** ** UDP message handlers *)

Definition Udp_handler (session : sptr) (msg : json) (from : endpoint) : P unit :=
  text ← lift (value_str msg "msg" "");
  nickname ← lift (value_str msg "nickname" "anonymity");
  async_send_to
    (dump (obj [("type", JStr "udp_reply"); ("msg", JStr ("Echo(UDP): " +:+ text));
                ("nickname", JStr nickname)]%string)) from.

Definition Udpbroadcast_handler (session : sptr) (msg : json) (from : endpoint) : P unit :=
  sender_nickname ← lift (value_str msg "nickname" "");
  udp_broadcast (dump msg) sender_nickname.

Definition Udpregister_handler (session : sptr) (msg : json) (from : endpoint) : P unit :=
  t ← now;
  upd session (set_udp_endpoint t from);;
  upd session (update_udp_alive_time t);;
  ttl ← config_int "udp_token_ttl_seconds" 300;
  upd session (set_udp_token_ttl ttl);;
  udp_token ← generate_random_token;
  upd session (set_udp_token t ttl udp_token);;
  nickname ← lift (value_str msg "nickname" "anonymity");
  async_send_to
    (dump (obj [("type", JStr "udp_register_ack");
                ("msg", JStr "UDP 인증 토큰 발급 및 endpoint registered");
                ("token", JStr udp_token); ("nickname", JStr nickname)]%string)) from.

(** The recipients: the members of the zone under another nickname that have a
    bound endpoint. *)
Definition send_to_member (nickname out_str : string) (s : sptr) : P unit :=
  nick ← get s nickname_;
  if decide (nick = nickname) then mret tt
  else
    ep ← get s udp_endpoint_;
    match ep with
    | Some ep => async_send_to out_str ep
    | None => mret tt
    end.

Definition Udpbroadcastzone_handler (session : sptr) (msg : json) (from : endpoint) : P unit :=
  zone_id ← get session zone_id_;
  zone ← get_zone zone_id;
  match zone with
  | None => mret tt
  | Some _ =>
      nickname ← get session nickname_;
      text ← lift (value_str msg "msg" "");
      let out_str := dump (obj [("type", JStr "broadcast_udp_zone"); ("nickname", JStr nickname);
                                ("msg", JStr text)]%string) in
      Zone_for_each_session zone_id (send_to_member nickname out_str)
  end.

(** ** The tables *)

Definition HandlerFunc : Type := sptr -> json -> P unit.
Definition UdpHandlerFunc : Type := sptr -> json -> endpoint -> P unit.

Definition register_handler (type : string) (handler : HandlerFunc)
    (handlers : gmap string HandlerFunc) : gmap string HandlerFunc := <[type := handler]> handlers.
Definition register_udp_handler (type : string) (handler : UdpHandlerFunc)
    (handlers : gmap string UdpHandlerFunc) : gmap string UdpHandlerFunc :=
  <[type := handler]> handlers.

Definition handlers_ : gmap string HandlerFunc :=
  register_handler "keepalive" keepalive_handler
    (register_handler "chat_zone" chatzone_handler
       (register_handler "chat" chat_handler
          (register_handler "logout" logout_handler
             (register_handler "login" login_handler ∅)))).

Definition udp_handlers_ : gmap string UdpHandlerFunc :=
  register_udp_handler "broadcast_udp_zone" Udpbroadcastzone_handler
    (register_udp_handler "udp_register" Udpregister_handler
       (register_udp_handler "broadcast_udp" Udpbroadcast_handler
          (register_udp_handler "udp" Udp_handler ∅))).

(** ** Dispatch *)

Definition missing_type : string :=
  (raw "{'type':'error','msg':'Missing message type field'}" +:+ newline)%string.
Definition invalid_field : string :=
  (raw "{'type':'error','msg':'Invalid JSON field type'}" +:+ newline)%string.
Definition unknown_type : string :=
  (raw "{'type':'error','msg':'Unknown message type'}" +:+ newline)%string.

Definition dispatch (session : sptr) (msg : json) : P unit :=
  catch (
    type ← lift (value_str msg "type" "");
    if decide (type = EmptyString) then post_write session missing_type
    else
      match handlers_ !! type with
      | Some handler =>
          catch (handler session msg)
            (fun e => match e with
                      | TypeError => post_write session invalid_field
                      | _ => close_session session
                      end)
      | None =>
          post_write session unknown_type;;
          close_session session
      end)
    (fun _ => close_session session).

Definition udp_invalid_json : string :=
  raw "{'type':'udp_error','code':'INVALID_JSON','msg':'Invalid JSON'}".
Definition udp_unknown_type : string := raw "{'type':'error','msg':'Unknown UDP type'}".

Definition dispatch_udp (session : sptr) (raw_msg : string) (from : endpoint) : P unit :=
  match parse raw_msg with
  | inl _ => async_send_to udp_invalid_json from
  | inr jmsg =>
      type ← lift (value_str jmsg "type" "");
      match udp_handlers_ !! type with
      | Some handler => handler session jmsg from
      | None => async_send_to ("Echo(UDP): " +:+ raw_msg)%string from
      end
  end.

Definition dispatch_udp_parsed (session : sptr) (parsed_msg : json) (from : endpoint) : P unit :=
  catch (
    type ← lift (value_str parsed_msg "type" "");
    match udp_handlers_ !! type with
    | Some handler => handler session parsed_msg from
    | None => async_send_to udp_unknown_type from
    end)
    (fun _ => mret tt).

(** ** Safety *)

Context (c : gmap string Z) (bufs : sptr -> MessageBufferManager) (svc : list Service) (Hc : 2 <= max_write_queue c) (D : gset sptr).
Abbreviation I := (Inv c bufs svc false None D).

Lemma safe_tcp_handler type handler p msg :
  handlers_ !! type = Some handler -> p ∈ D ->
  safe I (handler p msg) (eq TypeError) (fun _ => True).
Proof using Hc.
  unfold handlers_, register_handler. intros Hh Hp.
  apply lookup_insert_Some in Hh as [[_ <-] | [_ Hh]]; [by apply safe_keepalive_handler |].
  apply lookup_insert_Some in Hh as [[_ <-] | [_ Hh]]; [by apply safe_chatzone_handler |].
  apply lookup_insert_Some in Hh as [[_ <-] | [_ Hh]]; [by apply safe_chat_handler |].
  apply lookup_insert_Some in Hh as [[_ <-] | [_ Hh]]; [by apply safe_logout_handler |].
  apply lookup_insert_Some in Hh as [[_ <-] | [_ Hh]]; [by apply safe_login_handler |].
  by rewrite lookup_empty in Hh.
Qed.

(** No exception escapes TCP dispatch. *)
Lemma safe_dispatch p msg E : p ∈ D -> safe I (dispatch p msg) E (fun _ => True).
Proof using Hc.
  intros Hp. apply (safe_catch _ _ (eq TypeError)); [| intros ? _; by apply safe_close_session].
  eapply safe_bind; [apply safe_value_str |]. intros type _.
  destruct (decide _); [by apply safe_post_write |].
  destruct (handlers_ !! type) as [handler |] eqn:Eh.
  - apply (safe_catch _ _ (eq TypeError)); [by eapply safe_tcp_handler |].
    intros e <-. by apply safe_post_write.
  - eapply safe_bind; [by apply safe_post_write |]. intros _ _. by apply safe_close_session.
Qed.

Lemma safe_generate_random_token E : safe I generate_random_token E (fun _ => True).
Proof using Type.
  unfold generate_random_token. safe_step. eapply safe_bind; [| intros; by apply safe_mret].
  apply safe_modify. intros w Hw. destruct Hw. by split.
Qed.

Lemma safe_udp_handler type handler p msg from :
  udp_handlers_ !! type = Some handler -> p ∈ D ->
  safe I (handler p msg from) (eq TypeError) (fun _ => True).
Proof using Type.
  unfold udp_handlers_, register_udp_handler. intros Hh Hp.
  assert (Hv : forall key d, safe I (lift (value_str msg key d)) (eq TypeError) (fun _ => True))
    by (intros; apply safe_value_str).
  apply lookup_insert_Some in Hh as [[_ <-] | [_ Hh]].
  { unfold Udpbroadcastzone_handler. safe_step.
    eapply safe_bind; [apply safe_lookup_zone |]. intros [z |] _; [| by apply safe_mret].
    safe_step. eapply safe_bind; [apply Hv |]. intros text _.
    apply safe_Zone_for_each_session. intros q Hq. unfold send_to_member. safe_step.
    destruct (decide _); [by apply safe_mret |].
    eapply safe_bind; [by apply safe_get |]. intros [ep |] _; safe_done. }
  apply lookup_insert_Some in Hh as [[_ <-] | [_ Hh]].
  { unfold Udpregister_handler. safe_step. safe_step. safe_step. safe_step. safe_step.
    eapply safe_bind; [apply safe_generate_random_token |]. intros token _. safe_step.
    eapply safe_bind; [apply Hv |]. intros nickname _. safe_done. }
  apply lookup_insert_Some in Hh as [[_ <-] | [_ Hh]].
  { unfold Udpbroadcast_handler. eapply safe_bind; [apply Hv |]. intros sender _.
    apply safe_upd_bg. }
  apply lookup_insert_Some in Hh as [[_ <-] | [_ Hh]].
  { unfold Udp_handler. do 2 (eapply safe_bind; [apply Hv | intros ? _]). safe_done. }
  by rewrite lookup_empty in Hh.
Qed.

Lemma safe_dispatch_udp_parsed p msg from E :
  p ∈ D -> safe I (dispatch_udp_parsed p msg from) E (fun _ => True).
Proof using Type.
  intros Hp. apply (safe_catch _ _ (eq TypeError)); [| intros ? _; by apply safe_mret].
  eapply safe_bind; [apply safe_value_str |]. intros type _.
  destruct (udp_handlers_ !! type) eqn:Eh; [by eapply safe_udp_handler | safe_done].
Qed.
End dispatcher.
