(* ===== verification/Reading.v ===== *)
(** * The read loop of a session

    The completion handler of [async_read_some] in [Session::do_read]: appends
    the bytes, dispatches every complete message, closes the session on a
    corrupt stream or a transport error, and starts the next read.  The inner
    [while] runs at most as often as the buffer has bytes; running out of that
    fuel is undefined behaviour, so that the safety theorem excludes it. *)
From Stdlib Require Import ZArith Lia Strings.Byte.
From stdpp Require Import base gmap sets list strings.
From S2P Require Import Prelude MessageBuffer RateLimit Json Session World.
From S2P Require Import SessionPool Zones Invariant.
From S2P Require Import Lifecycle SessionManager DataHandler LoginFlow Dispatcher.

Open Scope Z_scope.

(** How an [async_read_some] completes. *)
Inductive ReadResult :=
| RData (data : list byte)
| REof
| RReset
| RAborted
| RError.

Section reading.
Context `{Platform}.

Definition invalid_json_format : string :=
  line (obj [("type", JStr "error"); ("msg", JStr "Invalid JSON format")]%string).

(** One message; [false] when the handler returns at once. *)
Definition handle_message (p : sptr) (bytes : list byte) : P bool :=
  catch (
    msg ← parse_json (String.string_of_list_byte bytes);
    dispatch p msg;;
    mret true)
    (fun e => match e with
              | ParseError => post_write p invalid_json_format;; mret true
              | _ => close_session p;; mret false
              end).

Definition take_message (s : Session) : option (list byte) * Session :=
  let '(m, b) := extract_message (msg_buf_mgr_ s) in (m, s <| msg_buf_mgr_ := b |>).

(** The [while] loop; [false] when it was left by [return]. *)
Fixpoint read_messages (fuel : nat) (p : sptr) : P bool :=
  match fuel with
  | O => ub
  | S fuel' =>
      m ← with_session p take_message;
      match m with
      | None => mret true
      | Some bytes =>
          continue ← handle_message p bytes;
          if (continue : bool) then read_messages fuel' p else mret false
      end
  end.

Definition append_data (data : list byte) (s : Session) : Session :=
  s <| msg_buf_mgr_ ::= fun m => append m data |>.

(** The branch without an error code; [true] when it returns early. *)
Definition on_data (p : sptr) (data : list byte) : P bool :=
  upd p (append_data data);;
  fuel ← get p (fun s => S (length (buffer_ (msg_buf_mgr_ s))));
  finished ← read_messages fuel p;
  if negb finished then mret true
  else
    invalid ← get p (fun s => was_last_clear_by_invalid_length (msg_buf_mgr_ s));
    if (invalid : bool) then close_session p;; mret true
    else do_read p;; mret false.

Definition on_disconnect (p : sptr) (nickname : string) : P unit :=
  id ← get p session_id_;
  broadcast (left_notice nickname) id.

Definition on_read (p : sptr) (r : ReadResult) : P unit :=
  upd p release_read;;
  returned ← catch (
    match r with
    | RData data => on_data p data
    | REof =>
        nickname ← get p nickname_;
        on_disconnect p nickname;;
        close_session p;; mret false
    | RReset =>
        nickname ← get p nickname_;
        when (negb (bool_decide (nickname = EmptyString))) (on_disconnect p nickname);;
        close_session p;; mret false
    | RAborted => mret false
    | RError => close_session p;; mret false
    end)
    (fun _ => close_session p;; mret false);
  if (returned : bool) then mret tt else run_next_task p.

(** ** Safety *)

Context (c : gmap string Z) (Hc : 2 <= max_write_queue c) (svc : list Service) (B : sptr -> Z) (D : gset sptr).
Abbreviation I bufs := (Inv c bufs svc false None D).

(** A message with a number that has no finite value. *)
Definition overflows (bytes : list byte) : Prop :=
  parse (String.string_of_list_byte bytes) = inl out_of_range.

(** The loop is left early only by such a message. *)
Lemma safe_handle_message bufs p bytes E :
  p ∈ D -> safe (I bufs) (handle_message p bytes) E (fun r => r = true \/ r = false /\ overflows bytes).
Proof using Hc.
  intros Hp. set (s := String.string_of_list_byte bytes).
  apply (safe_catch _ _ (fun e => exists x, parse s = inl x /\ e = exn_of x)).
  - eapply (safe_bind _ _ _ _ (fun _ => True)).
    { unfold parse_json. fold s. destruct (parse s); [apply safe_throw; by eexists | by apply safe_mret]. }
    intros msg _. eapply safe_bind; [by apply safe_dispatch |]. intros. apply safe_mret. by left.
  - intros e (x & Hx & ->). destruct x; cbn [exn_of].
    + eapply safe_bind; [by apply safe_post_write |]. intros. apply safe_mret. by left.
    + eapply safe_bind; [by apply safe_close_session |]. intros. apply safe_mret. by right.
Qed.

(** Changing only the read buffer. *)
Lemma inv_buffer bufs w p s m :
  I bufs w -> p ∈ D -> w_heap w !! p = Some s ->
  I (set_buf bufs p m) (w <| w_heap ::= <[p := s <| msg_buf_mgr_ := m |>]> |>).
Proof using Type.
  intros Hw Hp Hs.
  pose proof (inv_set_buf c bufs svc false None D w p s (s <| msg_buf_mgr_ := m |>) Hw Hp Hs) as Hi.
  apply Hi; [done | by apply (inv_sessions _ _ _ _ _ _ _ Hw p s)].
Qed.

(** A buffer that holds a complete message of that kind. *)
Definition spoilt (m : MessageBufferManager) : Prop :=
  Exists overflows (fst (drain m)).

#[export] Instance overflows_dec bytes : Decision (overflows bytes).
Proof using Type.
  unfold overflows. destruct (parse _) as [[] | v]; [right; discriminate | by left | right; discriminate].
Defined.
#[export] Instance spoilt_dec m : Decision (spoilt m).
Proof using Type. unfold spoilt. apply _. Defined.

(** The loop ends before its fuel.  It leaves in the buffer what [drain]
    leaves, or, left early by a message that overflows, some rest of it. *)
Definition loop_end (m : MessageBufferManager) (r : bool) (m' : MessageBufferManager) : Prop :=
  r = true /\ m' = snd (drain m) \/
  r = false /\ spoilt m /\ len (buffer_ m') <= len (buffer_ m).

Lemma loop_end_shrinks m bytes m1 r m' :
  extract_message m = (Some bytes, m1) -> loop_end m1 r m' -> loop_end m r m'.
Proof using Type.
  intros Ex [[-> ->] | (-> & Ho & Hl)]; [left; split; [done |]; by rewrite (drain_some m bytes m1) |].
  right. pose proof (extract_shrinks _ _ _ Ex). split; [done |]. split; [| unfold len in *; lia].
  unfold spoilt. rewrite (drain_some m bytes m1) by done. by right.
Qed.

(** It is left early by the message it has just taken. *)
Lemma loop_end_early m bytes m1 :
  extract_message m = (Some bytes, m1) -> overflows bytes -> loop_end m false m1.
Proof using Type.
  intros Ex Ho. right. pose proof (extract_shrinks _ _ _ Ex). split; [done |].
  split; [| unfold len in *; lia]. unfold spoilt. rewrite (drain_some m bytes m1) by done. by left.
Qed.

Lemma hoare_read_messages fuel bufs p E :
  p ∈ D -> (length (buffer_ (bufs p)) < fuel)%nat ->
  hoare (I bufs) (read_messages fuel p) (fun e w => E e /\ False)
    (fun r w => exists m, loop_end (bufs p) r m /\ I (set_buf bufs p m) w).
Proof using Hc.
  intros Hp. revert bufs. induction fuel as [| fuel IH]; intros bufs Hf; [lia |].
  intros w Hw. destruct (inv_lookup _ _ _ _ _ _ w p Hw Hp) as [s Hs]. cbn [read_messages].
  pose proof (inv_bufs _ _ _ _ _ _ _ Hw p s Hs) as Hb. cbv beta in Hb.
  unfold with_session, mbind at 1, M_bind at 1, bind at 1. rewrite Hs.
  unfold take_message. rewrite Hb. destruct (extract_message (bufs p)) as [[bytes |] m] eqn:Ex.
  - pose proof (extract_shrinks _ _ _ Ex).
    pose proof (inv_buffer bufs w p s m Hw Hp Hs) as H1.
    set (w1 := w <| w_heap ::= <[p := s <| msg_buf_mgr_ := m |>]> |>) in *.
    assert (Hset : set_buf bufs p m p = m) by (unfold set_buf; by rewrite decide_True).
    revert H1. generalize w1. clear w1 w Hw Hs.
    change (hoare (I (set_buf bufs p m))
      (continue ← handle_message p bytes;
       if (continue : bool) then read_messages fuel p else mret false)
      (fun e w => E e /\ False) (fun r w => exists m', loop_end (bufs p) r m' /\ I (set_buf bufs p m') w)).
    eapply hoare_bind.
    { eapply hoare_conseq; [by apply (safe_handle_message (set_buf bufs p m) p bytes never) | done | | done].
      by intros e w [[] _]. }
    intros r w [[-> | [-> Ho]] Hw].
    2: { exists m. split; [| done]. by apply (loop_end_early _ bytes). }
    specialize (IH (set_buf bufs p m)). rewrite Hset in IH.
    eapply hoare_conseq; [apply IH; lia | done | done | | exact Hw].
    intros r w' (m' & Hend & Hw'). exists m'. split; [by apply (loop_end_shrinks _ _ _ _ _ Ex) |].
    eapply inv_bufs_ext; [exact Hw' |]. intros q t _. unfold set_buf. by destruct (decide (q = p)).
  - exists m. split; [left; by rewrite (drain_none (bufs p) m) |]. by apply inv_buffer.
Qed.

Definition buffers_bounded (bufs : sptr -> MessageBufferManager) : Prop :=
  forall p, len (buffer_ (bufs p)) <= Z.max ABSOLUTE_MAX_BUFFER (B p).

Lemma set_buf_bounded bufs p m :
  buffers_bounded bufs -> len (buffer_ m) <= Z.max ABSOLUTE_MAX_BUFFER (B p) ->
  buffers_bounded (set_buf bufs p m).
Proof using Type. intros Hb Hm q. unfold set_buf. destruct (decide (q = p)) as [-> |]; [done | apply Hb]. Qed.

Lemma loop_end_bounded m r m' p :
  loop_end m r m' -> (spoilt m -> len (buffer_ m) <= B p) ->
  len (buffer_ m') <= Z.max ABSOLUTE_MAX_BUFFER (B p).
Proof using Type.
  intros [[_ ->] | (_ & Hm & ?)] HB; [| specialize (HB Hm); lia].
  destruct (drain_exhausted m) as (d & Hd). apply extract_none_bound in Hd. lia.
Qed.

(** There is room for the bytes of a read that the loop may leave behind. *)
Definition room (p : sptr) (r : ReadResult) (w : World) : Prop :=
  match r with
  | RData data => forall s, w_heap w !! p = Some s -> spoilt (append (msg_buf_mgr_ s) data) ->
      len (buffer_ (msg_buf_mgr_ s)) + len data <= B p
  | _ => True
  end.

(** The invariant with bounded read buffers. *)
Definition Bounded (w : World) : Prop := exists bufs, buffers_bounded bufs /\ I bufs w.

Lemma safe_bounded {A} (m : P A) E Q :
  (forall bufs, safe (I bufs) m E Q) -> safe Bounded m E Q.
Proof using Type.
  intros Hm w (bufs & Hb & Hw). specialize (Hm bufs w Hw).
  destruct (m w) as [[a | e |] w']; [| | done];
    (split; [apply Hm | exists bufs; split; [done | apply Hm]]).
Qed.

Lemma safe_on_data p data E :
  p ∈ D -> hoare (fun w => Bounded w /\ room p (RData data) w) (on_data p data)
    (fun e w => E e /\ Bounded w) (fun _ w => True /\ Bounded w).
Proof using Hc.
  intros Hp w [(bufs & Hb & Hw) Hroom]. unfold on_data.
  destruct (inv_lookup _ _ _ _ _ _ w p Hw Hp) as [s Hs]. rewrite (bind_upd p _ _ w s Hs).
  pose proof (inv_buffer bufs w p s (append (msg_buf_mgr_ s) data) Hw Hp Hs) as H1.
  fold (append_data data s) in H1. change (s <| msg_buf_mgr_ := append (msg_buf_mgr_ s) data |>)
    with (append_data data s) in H1.
  set (w1 := w <| w_heap ::= <[p := append_data data s]> |>) in *.
  set (m := append (msg_buf_mgr_ s) data) in *.
  assert (Hm : spoilt m -> len (buffer_ m) <= B p).
  { intros Hsp. specialize (Hroom s Hs Hsp). subst m. unfold append, len in *. cbn. rewrite length_app. lia. }
  clear Hroom.
  assert (Hs1 : w_heap w1 !! p = Some (append_data data s)) by apply lookup_insert_eq.
  rewrite (bind_get p _ _ w1 _ Hs1).
  change (msg_buf_mgr_ (append_data data s)) with m.
  assert (Hset : set_buf bufs p m p = m) by (unfold set_buf; by rewrite decide_True).
  pose proof (hoare_read_messages (S (length (buffer_ m))) (set_buf bufs p m) p E Hp) as Hread.
  rewrite Hset in Hread. specialize (Hread ltac:(lia)).
  revert H1. generalize w1. clear w1 Hs1 w Hw Hs.
  change (hoare (I (set_buf bufs p m))
    (finished ← read_messages (S (length (buffer_ m))) p;
     if negb finished then mret true
     else
       invalid ← get p (fun s => was_last_clear_by_invalid_length (msg_buf_mgr_ s));
       if (invalid : bool) then close_session p;; mret true
       else do_read p;; mret false)
    (fun e w => E e /\ Bounded w) (fun _ w => True /\ Bounded w)).
  eapply hoare_bind.
  { eapply hoare_conseq; [exact Hread | done | | intros a w Ha; exact Ha]. by intros e w [_ []]. }
  intros r w (m' & Hend & Hw).
  assert (Hw' : Bounded w).
  { exists (set_buf bufs p m'). split.
    - apply set_buf_bounded; [done |]. by apply (loop_end_bounded m r).
    - eapply inv_bufs_ext; [exact Hw |]. intros q t _. unfold set_buf. by destruct (decide (q = p)). }
  clear Hw Hend. destruct r; cbn [negb]; [| done].
  revert w Hw'. change (safe Bounded
    (invalid ← get p (fun s => was_last_clear_by_invalid_length (msg_buf_mgr_ s));
     if (invalid : bool) then close_session p;; mret true else do_read p;; mret false)
    E (fun _ => True)).
  apply safe_bounded. intros bufs'. safe_step.
  destruct a; (eapply safe_bind; [safe_done |]; intros; by apply safe_mret).
Qed.

Lemma safe_on_disconnect bufs p nickname E :
  p ∈ D -> safe (I bufs) (on_disconnect p nickname) E (fun _ => True).
Proof using Hc. intros Hp. unfold on_disconnect. safe_step. by apply safe_broadcast. Qed.

Lemma room_release p r E :
  p ∈ D -> hoare (fun w => Bounded w /\ room p r w) (upd p release_read)
    (fun e w => E e /\ Bounded w) (fun _ w => Bounded w /\ room p r w).
Proof using Type.
  intros Hp w [Hw Hroom]. assert (Hs : safe Bounded (upd p release_read) E (fun _ => True))
    by (apply safe_bounded; intros; safe_done).
  specialize (Hs w Hw). unfold upd, with_session in *.
  destruct (w_heap w !! p) as [s |] eqn:E1; [| done]. split; [apply Hs |].
  destruct r; [| done..]. intros t. cbn. rewrite lookup_insert_eq. intros [= <-]. by apply (Hroom s).
Qed.

Lemma safe_with_room {A} p r (m : P A) E Q :
  safe Bounded m E Q ->
  hoare (fun w => Bounded w /\ room p r w) m (fun e w => E e /\ Bounded w) (fun a w => Q a /\ Bounded w).
Proof using Type. intros Hm. eapply hoare_conseq; [exact Hm | by intros w [? _] | done | done]. Qed.

Lemma safe_on_read p r E :
  p ∈ D -> hoare (fun w => Bounded w /\ room p r w) (on_read p r)
    (fun e w => E e /\ Bounded w) (fun _ w => True /\ Bounded w).
Proof using Hc.
  intros Hp. unfold on_read. eapply hoare_bind; [by apply room_release |]. intros [].
  eapply (hoare_bind _ _ _ _ (fun _ w => True /\ Bounded w)).
  - apply (hoare_catch _ _ _ _ (fun e w => never e /\ Bounded w)); [| by intros e w [[] _]].
    destruct r; [by apply safe_on_data | apply safe_with_room, safe_bounded; intros bufs ..].
    + safe_step. eapply safe_bind; [by apply safe_on_disconnect |]. intros _ _. safe_step.
      by apply safe_mret.
    + safe_step. eapply safe_bind; [eapply safe_when; intros _; by apply safe_on_disconnect |].
      intros _ _. safe_step. by apply safe_mret.
    + by apply safe_mret.
    + safe_step. by apply safe_mret.
  - intros returned w [_ Hw]. revert w Hw. change (safe Bounded
      (if (returned : bool) then mret tt else run_next_task p) E (fun _ => True)).
    destruct returned; apply safe_bounded; intros bufs; [by apply safe_mret |].
    by apply safe_run_next_task.
Qed.
End reading.
