(* ===== verification/UdpReceive.v ===== *)
(** * UDP reception: [DataHandler::on_udp_receive] and UDPManager.{h,cpp}

    A datagram passes the size check, the JSON check with the bad-packet
    table, the bucket of the session bound to its endpoint, the server-wide
    limiter, the session lookup by nickname, the token and endpoint checks
    (except [udp_register]) and the bucket again, before it is dispatched.
    Every path of the completion handler starts the next reception.  The
    thread that runs the handler is given by the hash of its id. *)
From Stdlib Require Import ZArith Lia.
From stdpp Require Import base gmap sets list strings.
From S2P Require Import Prelude MessageBuffer RateLimit Json Session World.
From S2P Require Import SessionPool Zones Invariant.
From S2P Require SessionStore.
From S2P Require Import Lifecycle SessionManager DataHandler LoginFlow Dispatcher.

Open Scope Z_scope.

Section udp.
Context `{Platform}.

(** ** DataHandler::on_udp_receive *)

(** Step 1: the limiter, and the packet counter of the current second. *)
Definition admit_packet (tid_hash : Z) : P bool :=
  t ← now;
  limit ← config_size "total_limit_per_sec" 1000;
  l ← gets (fun w => udp_global_limiter_ (w_dh w));
  let '(ok, l') := sharded_udp_rate_limit tid_hash t limit l in
  upd_dh (fun d => d <| udp_global_limiter_ := l' |>);;
  mret ok.

Definition count_packet : P unit :=
  t ← now;
  upd_dh (fun d =>
    let last := udp_total_packet_window_ d in
    let d := if bool_decide (last = 0) || (1 <=? Z.quot (t - last) 1000000000)
             then d <| udp_total_packet_window_ := t |> <| udp_total_packet_count_ := 0 |>
             else d in
    d <| udp_total_packet_count_ ::= Z.succ |>).

Definition udp_error (code text : string) : string :=
  dump (obj [("type", JStr "udp_error"); ("code", JStr code); ("msg", JStr text)]%string).

(** Step 5: the token, its lifetime and the bound endpoint.  [None] accepts;
    otherwise the answer. *)
Definition check_token (session : sptr) (token : string) (from : endpoint) : P (option string) :=
  expected ← get session udp_token_;
  if bool_decide (token = EmptyString) || negb (bool_decide (expected = token)) then
    mret (Some (if decide (token = EmptyString)
                then udp_error "TOKEN_REQUIRED" "UDP token is required"
                else udp_error "INVALID_TOKEN" "Invalid UDP token"))
  else
    t ← now;
    valid ← get session (is_udp_token_valid t);
    if negb valid then
      upd session clear_udp_token;;
      mret (Some (udp_error "UDP_TOKEN_EXPIRED" "UDP token expired, please udp_register again"))
    else
      bound_ep ← get session udp_endpoint_;
      mret (if decide (bound_ep = Some from) then None
            else Some (udp_error "ENDPOINT_MISMATCH" "Endpoint mismatch; please udp_register again")).

(** Step 7: the endpoint of a registering session moves. *)
Definition evict_endpoint (session : sptr) (from : endpoint) : P unit :=
  dh ← gets w_dh;
  match udp_endpoint_to_session_ dh !! from with
  | None => mret tt
  | Some q =>
      existing ← weak_lock q;
      match existing with
      | Some e =>
          when (bool_decide (e <> session))
            (upd_dh (fun d => d <| udp_endpoint_to_session_ ::= delete from |>))
      | None => upd_dh (fun d => d <| udp_endpoint_to_session_ ::= delete from |>)
      end
  end.

Definition rebind_endpoint (session : sptr) (from : endpoint) : P unit :=
  prev ← get session udp_endpoint_;
  if decide (prev = Some from) then mret tt
  else
    match prev with
    | Some prev => erase_udp_mapping session prev
    | None => mret tt
    end;;
    evict_endpoint session from;;
    upd_dh (fun d => d <| udp_endpoint_to_session_ ::= <[from := session]> |>);;
    t ← now;
    upd session (set_udp_endpoint t from).

Definition is_register (type : string) : bool := bool_decide (type = "udp_register"%string).

Definition on_udp_receive (tid_hash : Z) (msg : string) (from : endpoint) : P unit :=
  ok ← admit_packet tid_hash;
  if negb ok then mret tt
  else
    count_packet;;
    match try_parse_json msg with
    | None => async_send_to
        (dump (obj [("type", JStr "error"); ("msg", JStr "Invalid JSON")]%string)) from
    | Some res =>
        nickname ← lift (value_str res "nickname" "");
        type ← lift (value_str res "type" "");
        token ← lift (value_str res "token" "");
        if decide (nickname = EmptyString) then mret tt
        else
          found ← SessionStore.find_session_by_nickname nickname;
          match found with
          | None => mret tt
          | Some session =>
              rejected ← (if is_register type then mret None else check_token session token from);
              match rejected with
              | Some answer => async_send_to answer from
              | None =>
                  t ← now;
                  allowed ← with_session session (check_udp_rate t);
                  if negb allowed then
                    async_send_to (udp_error "RATE_LIMIT" "UDP rate limit exceeded") from
                  else
                    when (is_register type) (rebind_endpoint session from);;
                    upd session (update_udp_alive_time t);;
                    dispatch_udp_parsed session res from
              end
          end
    end.

(** ** UDPManager *)

Definition start_receive : P unit := start_op OpReceive.

Definition manager_error (text : string) : string :=
  dump (obj [("type", JStr "udp_error"); ("error", JStr text)]%string).

(** A datagram that is not JSON is answered and counted; whether the endpoint
    is blocked is only logged. *)
Definition on_bad_json (from : endpoint) : P unit :=
  async_send_to (manager_error "Invalid JSON format") from;;
  t ← now;
  upd_dh (fun d => d <| bad_udp_map_ ::= register_bad_udp_packet from t |>);;
  upd_dh (fun d => d <| bad_udp_map_ ::= fun m => snd (is_blocked_udp from t m) |>).

(** The bucket of the session bound to the sender's endpoint, if any. *)
Definition over_rate (from : endpoint) : P bool :=
  session ← getSessionByEndpoint from;
  match session with
  | None => mret false
  | Some s =>
      t ← now;
      allowed ← with_session s (check_udp_rate t);
      mret (negb allowed)
  end.

(** The completion handler of [async_receive_from]: [ok] when there is no
    error code. *)
Definition on_receive (tid_hash : Z) (ok : bool) (data : string) (from : endpoint) : P unit :=
  max_udp_packet_size ← config_size "max_udp_packet_size" 1024;
  let bytes_recvd := Z.of_nat (String.length data) in
  if ok && (0 <? bytes_recvd) && (bytes_recvd <=? max_udp_packet_size) then
    alive ← gets w_handler_alive;
    if negb alive then start_receive
    else
      match try_parse_json data with
      | None => on_bad_json from;; start_receive
      | Some _ =>
          limited ← over_rate from;
          if (limited : bool) then
            async_send_to (manager_error "너무 빠르게 UDP 메시지를 보내고 있습니다.") from;;
            start_receive
          else
            handled ← catch (on_udp_receive tid_hash data from;; mret true)
                        (fun _ => start_receive;; mret false);
            when handled start_receive
      end
  else if bool_decide (bytes_recvd = 0) || (max_udp_packet_size <? bytes_recvd) then start_receive
  else start_receive.

(** ** Safety *)

Context (c : gmap string Z) (bufs : sptr -> MessageBufferManager) (svc : list Service) (Hc : 2 <= max_write_queue c) (D : gset sptr).
Abbreviation I := (Inv c bufs svc false None D).

Lemma safe_check_udp_rate t p E : p ∈ D -> safe I (with_session p (check_udp_rate t)) E (fun _ => True).
Proof using Type.
  intros Hp. apply safe_with_session; [done |]. intros s (Hb & Hq & Ht). unfold check_udp_rate.
  pose proof (checkUdpRateLimit_ok t (bucket_ s) Hb) as Hb'.
  destruct (checkUdpRateLimit t (bucket_ s)) as [ok b]. by split; [apply advances_same |].
Qed.

Lemma safe_upd_dh_other f E :
  (forall d, udp_endpoint_to_session_ (f d) = udp_endpoint_to_session_ d) ->
  safe I (upd_dh f) E (fun _ => True).
Proof using Type.
  intros Hf. apply safe_modify. intros w Hw. destruct Hw. split; try done. cbn. by rewrite Hf.
Qed.

Lemma safe_admit_packet tid E : safe I (admit_packet tid) E (fun _ => True).
Proof using Type.
  unfold admit_packet. safe_step. safe_step. safe_step.
  destruct (sharded_udp_rate_limit _ _ _ _) as [ok l'].
  eapply safe_bind; [by apply safe_upd_dh_other |]. intros. by apply safe_mret.
Qed.

Lemma safe_count_packet E : safe I count_packet E (fun _ => True).
Proof using Type.
  unfold count_packet. safe_step. apply safe_upd_dh_other. intros d. cbv zeta. by destruct (_ || _).
Qed.

Lemma safe_check_token p token from E : p ∈ D -> safe I (check_token p token from) E (fun _ => True).
Proof using Type.
  intros Hp. unfold check_token. safe_step. destruct (_ || _); [by apply safe_mret |].
  safe_step. safe_step. destruct a1; cbn [negb]; safe_step; by apply safe_mret.
Qed.

Lemma safe_rebind_endpoint p from E : p ∈ D -> safe I (rebind_endpoint p from) E (fun _ => True).
Proof using Type.
  intros Hp. unfold rebind_endpoint. safe_step. destruct (decide _); [by apply safe_mret |].
  eapply safe_bind; [destruct a; [by apply safe_erase_udp_mapping | by apply safe_mret] |]. intros _ _.
  eapply (safe_bind _ _ _ _ (fun _ => True)).
  { unfold evict_endpoint. eapply safe_bind; [apply safe_gets_some |]. intros dh (w & Hw & ->).
    destruct (_ !! from) as [q |] eqn:Eq; [| by apply safe_mret].
    assert (q ∈ D) by by apply (inv_udp _ _ _ _ _ _ _ Hw from q).
    safe_step. subst. cbv beta iota. safe_step. apply safe_upd_udp. intros m.
    apply map_Forall_delete_2. }
  intros _ _. eapply safe_bind.
  { apply safe_upd_udp. intros m Hm. by apply map_Forall_insert_2. }
  intros _ _. safe_step. safe_done.
Qed.

Lemma safe_on_udp_receive tid msg from :
  safe I (on_udp_receive tid msg from) (eq TypeError) (fun _ => True).
Proof using Type.
  unfold on_udp_receive. eapply safe_bind; [apply safe_admit_packet |]. intros ok _.
  destruct ok; cbn [negb]; [| by apply safe_mret].
  eapply safe_bind; [apply safe_count_packet |]. intros _ _.
  destruct (try_parse_json msg) as [j |]; [| safe_done].
  do 3 (eapply safe_bind; [apply safe_value_str | intros ? _]).
  destruct (decide _); [by apply safe_mret |]. safe_step.
  destruct a2 as [p |]; [| by apply safe_mret]. assert (p ∈ D) by auto.
  eapply (safe_bind _ _ _ _ (fun _ => True)).
  { destruct (is_register a0); [by apply safe_mret | by apply safe_check_token]. }
  intros [answer |] _; [safe_done |]. safe_step.
  eapply safe_bind; [by apply safe_check_udp_rate |]. intros allowed _.
  destruct allowed; cbn [negb]; [| safe_done].
  eapply safe_bind; [eapply safe_when; intros _; by apply safe_rebind_endpoint |]. intros _ _.
  safe_step. by apply safe_dispatch_udp_parsed.
Qed.

Abbreviation receives m := (starts c bufs svc false None D SReceive m).

Lemma starts_receive E : receives start_receive E (fun _ => True).
Proof using Type. by apply starts_op. Qed.

Lemma safe_over_rate from E : safe I (over_rate from) E (fun _ => True).
Proof using Type.
  unfold over_rate. eapply safe_bind; [apply safe_getSessionByEndpoint |].
  intros [p |] Hp; [| by apply safe_mret]. assert (p ∈ D) by auto. safe_step.
  eapply safe_bind; [by apply safe_check_udp_rate |]. intros. by apply safe_mret.
Qed.

Lemma safe_on_bad_json from E : safe I (on_bad_json from) E (fun _ => True).
Proof using Type.
  unfold on_bad_json. safe_step. safe_step.
  eapply safe_bind; [by apply safe_upd_dh_other |]. intros _ _. by apply safe_upd_dh_other.
Qed.

(** The protected call: reception is restarted by the handler of the
    exception, or is still to be restarted. *)
Lemma starts_handled tid data from E :
  receives (handled ← catch (on_udp_receive tid data from;; mret true)
                        (fun _ => start_receive;; mret false);
            when handled start_receive) E (fun _ => True).
Proof using Type.
  eapply (hoare_bind _ _ _ _ (fun r w =>
    if (r : bool) then I w else Inv c bufs (svc ++ [SReceive]) false None D w)).
  - intros w Hw. unfold catch.
    pose proof (safe_on_udp_receive tid data from w Hw) as Hu.
    unfold mbind at 1, M_bind at 1, bind at 1.
    destruct (on_udp_receive tid data from w) as [[[] | e |] w']; [apply Hu | | done].
    destruct Hu as [_ Hw']. destruct (starts_receive never w' Hw') as [_ Hs]. exact Hs.
  - intros [] w Hw; [by apply starts_receive | done].
Qed.

(** Every path through the completion handler restarts reception, once. *)
Lemma starts_on_receive tid ok data from E : receives (on_receive tid ok data from) E (fun _ => True).
Proof using Type.
  eapply starts_after; [apply safe_config_size |]. intros max _. cbv zeta.
  destruct (_ && _); [| destruct (_ || _); apply starts_receive].
  eapply (starts_after _ _ _ _ _ _ _ _ _ _ (fun _ => True)); [by apply safe_gets |]. intros alive _.
  destruct alive; cbn [negb]; [| apply starts_receive].
  destruct (try_parse_json data).
  - eapply starts_after; [apply safe_over_rate |]. intros limited _. destruct limited.
    + eapply starts_after; [apply safe_async_send_to |]. intros _ _. apply starts_receive.
    + apply starts_handled.
  - eapply starts_after; [apply safe_on_bad_json |]. intros _ _. apply starts_receive.
Qed.
End udp.
