(* ===== verification/Server.v ===== *)
(** * Server.{h,cpp} and main: accepting connections and starting up *)
From Stdlib Require Import ZArith Lia.
From stdpp Require Import base gmap sets list strings.
From S2P Require Import Prelude MessageBuffer RateLimit Json Session World.
From S2P Require Import SessionPool Zones Invariant.
From S2P Require SessionStore.
From S2P Require Import Lifecycle SessionManager DataHandler LoginFlow Dispatcher Reading UdpReceive.

Open Scope Z_scope.

Section server.
Context `{Platform}.

Definition start_accept : P unit := start_op OpAccept.

(** The session a connection gets, and its first steps. *)
Definition serve (session_id : Z) (session : sptr) : P unit :=
  DataHandler_add_session session_id session;;
  cleanup_unauth_sessions 100;;
  start session.

(** The completion handler of [async_accept]; [None] is an error code. *)
Definition on_accept (socket : option Z) : P unit :=
  match socket with
  | Some socket =>
      session_id ← gets w_counter;
      modify (fun w => w <| w_counter ::= fun n => i32 (n + 1) |>);;
      session ← acquire socket session_id;
      match session with
      | Some s => serve session_id s
      | None => mret tt
      end
  | None => mret tt
  end;;
  start_accept.

(** ** main

    [hardware] is [std::thread::hardware_concurrency()]. *)
Definition shards_of (hardware : Z) : Z := Z.max 4 (u32 (hardware * 2)).

(** The objects before any handler has run. *)
Definition initial_world (c : gmap string Z) (hardware now : Z) : World := {|
  w_now := now; w_config := c; w_handler_alive := true; w_strand := None; w_busy := ∅;
  w_busy_zones := ∅;
  w_heap := ∅; w_next := O; w_jobs := ∅; w_ops := [];
  w_pool := mkPool [] [] ∅ (config_value c "max_session_pool_size" 10000);
  w_sm := SessionStore.new_manager (shards_of hardware);
  w_zones := ZoneManager_init c (config_value c "max_zone_count" 10);
  w_dh := mkDataHandler ∅ ∅ 0 0 (new_limiter (Z.to_nat (shards_of hardware))) false;
  w_bg := []; w_counter := 0; w_devices := O;
  w_links := mkAppLinks true false true; w_out := []; w_slow := ∅
|}.

Definition set_session_pool : P unit := upd_dh (fun d => d <| session_pool_set := true |>).

(** The constructors of [main], in order. *)
Definition boot : P unit :=
  DataHandler_init;;
  pool_size ← config_size "session_pool_size" 1024;
  construct (Z.to_nat pool_size);;
  set_session_pool;;
  start_accept;;
  start_receive.

(** ** Safety *)

Context (c : gmap string Z) (svc : list Service).

(** A session that is not in the queue may be handed out. *)
Lemma inv_grow bufs D w p :
  Inv c bufs svc false None D w -> p ∈ dom (w_heap w) ->
  (forall i, i ∈ reusable_indices_ (w_pool w) -> pool_ (w_pool w) !! i <> Some p) ->
  Inv c bufs svc false None ({[p]} ∪ D) w.
Proof using Type.
  intros Hw Hp Hi. destruct Hw. split; try done.
  - set_solver.
  - eapply Forall_impl; [done |]. cbn. set_solver.
  - intros q s Hs Ht. specialize (inv_timers q s Hs Ht). cbn in *. set_solver.
  - set_solver.
  - eapply Forall_impl; [done |]. intros b Hb k q Hq. specialize (Hb k q Hq). cbn in Hb. set_solver.
  - intros k q Hq. specialize (inv_nicknames k q Hq). cbn in *. set_solver.
  - intros k q Hq. specialize (inv_udp k q Hq). cbn in *. set_solver.
  - intros k z Hz. destruct (inv_zones k z Hz) as (H1 & H2). split; [done |].
    intros j q Hq. specialize (H2 j q Hq). cbn in *. set_solver.
  - destruct inv_pool as (H1 & H2 & H3 & H4 & H5 & H6). repeat (split; [done |]). split; [| done].
    intros i Hin. destruct (H5 i Hin) as [? | Hn]; [by left | right]. intros q Hq.
    apply not_elem_of_union. split; [| by apply Hn]. intros ->%elem_of_singleton.
    by apply (Hi i Hin).
Qed.

(** A fresh session. *)
Lemma writes_of_none ops (D : gset sptr) p g :
  Forall (fun o => forall q, op_ptr o = Some q -> q ∈ D) ops -> p ∉ D -> writes_of p g ops = 0%nat.
Proof using Type.
  intros Hops Hp. unfold writes_of. induction Hops as [| o ops Ho Hops IH]; [done |]. cbn.
  destruct (is_write_of p g o) eqn:E; [| done]. exfalso.
  destruct o; try done. cbn in E. apply andb_true_iff in E as [E _].
  apply bool_decide_eq_true in E as ->. apply Hp. by apply Ho.
Qed.

Definition heap_fresh (w : World) : Prop := w_heap w !! w_next w = None.

Lemma inv_next_fresh bufs D w : Inv c bufs svc false None D w -> heap_fresh w.
Proof using Type.
  intros Hw. unfold heap_fresh. destruct (w_heap w !! w_next w) eqn:E; [| done].
  assert (Hin : w_next w ∈ dom (w_heap w)) by by apply elem_of_dom.
  apply (inv_next _ _ _ _ _ _ _ Hw) in Hin. lia.
Qed.

Lemma inv_alloc bufs D w :
  Inv c bufs svc false None D w ->
  let p := w_next w in
  Inv c (set_buf bufs p empty_buffer) svc false None D
    (w <| w_heap ::= <[p := new_session (w_now w)]> |> <| w_next ::= S |>
       <| w_pool ::= fun x => x <| pool_ ::= fun l => l ++ [p] |> |>).
Proof using Type.
  intros Hw p. pose proof (inv_next_fresh bufs D w Hw) as Hfresh. unfold heap_fresh in Hfresh.
  assert (HpD : p ∉ D).
  { intros Hin. apply (inv_heap _ _ _ _ _ _ _ Hw) in Hin. apply elem_of_dom in Hin as [s Hs].
    fold p in Hfresh. congruence. }
  destruct Hw. split; try done; cbn.
  - rewrite dom_insert. set_solver.
  - intros q Hq. rewrite dom_insert in Hq. apply elem_of_union in Hq as [Hq | Hq].
    + apply elem_of_singleton in Hq as ->. apply Nat.lt_succ_diag_r.
    + apply inv_next in Hq. by apply Nat.lt_lt_succ_r.
  - apply map_Forall_insert_2; [| done]. split; [apply fresh_bucket_ok |].
    cbn. rewrite !len_nil. split; apply u64_nonneg.
  - intros q s Hs. unfold set_buf. destruct (decide (q = p)) as [-> | Hne].
    + rewrite lookup_insert_eq in Hs. by injection Hs as <-.
    + rewrite lookup_insert_ne in Hs by done. by apply (inv_bufs q s).
  - apply map_Forall_insert_2; [| done]. unfold writes_ok.
    assert (Hz : forall g, writes_of p g (w_ops w) = 0%nat) by (intros g; by eapply writes_of_none).
    rewrite Hz. split; [lia |]. split; [lia |]. intros g _. apply Hz.
  - by apply map_Forall_insert_2.
  - destruct inv_pool as (H1 & H2 & H3 & H4 & H5 & H6).
    assert (Hnew : p ∉ pool_ (w_pool w)).
    { intros Hin. rewrite Forall_forall in H2. apply H2, elem_of_dom in Hin as [s Hs].
      fold p in Hfresh. congruence. }
    split; [apply NoDup_app; split; [done |]; split; [| apply NoDup_singleton];
            intros q Hq ->%list_elem_of_singleton; done |].
    split.
    { apply Forall_app. split.
      - eapply Forall_impl; [exact H2 |]. cbn. intros q Hq. rewrite dom_insert. set_solver.
      - constructor; [rewrite dom_insert; set_solver | done]. }
    split; [done |]. split.
    { eapply Forall_impl; [exact H4 |]. cbn. intros i Hi. rewrite length_app. lia. }
    split; [| done]. intros i Hi. destruct (H5 i Hi) as [? | Hn]; [by left | right].
    intros q Hq. apply Hn. rewrite Forall_forall in H4. specialize (H4 i Hi).
    change ((pool_ (w_pool w) ++ [p]) !! i = Some q) in Hq. by rewrite lookup_app_l in Hq.
Qed.

Lemma inv_pop_index bufs D w i rest :
  Inv c bufs svc false None D w -> reusable_indices_ (w_pool w) = i :: rest ->
  Inv c bufs svc false None D
    (w <| w_pool ::= fun x => x <| reusable_indices_ := rest |>
                                <| available_index_set_ ::= fun s => s ∖ {[i]} |> |>).
Proof using Type.
  intros Hw Hi. destruct Hw. split; try done. cbn.
  destruct inv_pool as (H1 & H2 & H3 & H4 & H5 & H6). rewrite Hi in *.
  apply NoDup_cons in H3 as [Hni H3]. apply Forall_cons in H4 as [_ H4].
  repeat (split; [done |]). cbn. split.
  - intros j Hj. destruct (H5 j) as [Hs | Hn]; [by right | left | by right].
    apply elem_of_difference. split; [done |]. intros ->%elem_of_singleton. done.
  - intros j Hj. apply elem_of_difference in Hj as [Hj Hne]. apply H6 in Hj.
    apply elem_of_cons in Hj as [-> | Hj]; [set_solver | done].
Qed.

Context (B : sptr -> Z).

Definition taken (D : gset sptr) (idx : option nat) (w : World) : Prop :=
  match idx with
  | None => Bounded c svc B D w
  | Some i => exists p, pool_ (w_pool w) !! i = Some p /\ Bounded c svc B ({[p]} ∪ D) w
  end.

Lemma take_index_ok D w :
  Bounded c svc B D w ->
  exists idx w', take_index w = (Ret idx, w') /\ taken D idx w'.
Proof using Type.
  intros (bufs & Hb & Hw). unfold take_index. rewrite bind_gets.
  destruct (reusable_indices_ (w_pool w)) as [| i rest] eqn:Er.
  - destruct (u64 _ <=? _); [exists None, w; split; [done | by exists bufs] |].
    exists (Some (length (pool_ (w_pool w)))). eexists. split; [reflexivity |].
    exists (w_next w). split; [cbn; by rewrite lookup_app_r, Nat.sub_diag by lia |].
    exists (set_buf bufs (w_next w) empty_buffer). split.
    { apply set_buf_bounded; [done |]. unfold len. cbn. unfold ABSOLUTE_MAX_BUFFER. lia. }
    apply inv_grow; [by apply inv_alloc | cbn; rewrite dom_insert; set_solver |].
    intros j Hj. exfalso. cbn in Hj. rewrite Er in Hj. by apply elem_of_nil in Hj.
  - pose proof (inv_pop_index bufs D w i rest Hw Er) as Hw'.
    assert (Hlt : (i < length (pool_ (w_pool w)))%nat).
    { destruct (inv_pool _ _ _ _ _ _ _ Hw) as (_ & _ & _ & H4 & _). rewrite Er in H4.
      by apply Forall_cons in H4 as [H4 _]. }
    apply lookup_lt_is_Some in Hlt as [p Hp].
    exists (Some i). eexists. split; [reflexivity |]. exists p. split; [done |].
    exists bufs. split; [done |].
    destruct (inv_pool _ _ _ _ _ _ _ Hw) as (H1 & H2 & H3 & _). rewrite Er in H3.
    apply inv_grow; [done | |].
    + rewrite Forall_forall in H2. apply H2. by eapply list_elem_of_lookup_2.
    + intros j Hj Hpj. cbn in Hj, Hpj. apply NoDup_cons in H3 as [Hni _].
      by rewrite (NoDup_lookup _ i j p H1 Hp Hpj) in Hni.
Qed.

(** ** Accepting *)

Section accept.
Context (D : gset sptr) (Hc : 2 <= max_write_queue c).

Lemma safe_reset p t socket id E :
  p ∈ D -> safe (Bounded c svc B D) (upd p (reset t socket id)) E (fun _ => True).
Proof using Type.
  intros Hp w (bufs & Hb & Hw). destruct (inv_lookup _ _ _ _ _ _ w p Hw Hp) as [s Hs].
  unfold upd, with_session. rewrite Hs. split; [done |].
  exists (set_buf bufs p (clear (msg_buf_mgr_ s))). split.
  { apply set_buf_bounded; [done |]. unfold len. cbn. unfold ABSOLUTE_MAX_BUFFER. lia. }
  pose proof (inv_set_buf c bufs svc false None D w p s (reset t socket id s) Hw Hp Hs) as Hi.
  apply Hi.
  - split; cbn; lia.
  - apply (session_ok_empty c s); try done. by apply (inv_sessions _ _ _ _ _ _ _ Hw p s).
Qed.

Lemma safe_set_active p v E :
  p ∈ D -> safe (Bounded c svc B D) (upd p (set_active v)) E (fun _ => True).
Proof using Type.
  intros Hp. apply safe_bounded. intros bufs. apply safe_upd; [done |]. intros s Hok.
  unfold set_active, try_activate, cas_life.
  destruct v; destruct (decide _); (split; [by apply advances_same | apply Hok]).
Qed.

(** What [acquire] does to the session it picked. *)
Definition prepare (sess : sptr) (socket session_id : Z) : P (option sptr) :=
  t ← now;
  upd sess (reset t socket session_id);;
  upd sess (set_active true);;
  upd sess (fun s => s <| release_callback_ := true |>);;
  upd sess cleanup;;
  mret (Some sess).

Lemma safe_prepare p socket id E :
  p ∈ D -> safe (Bounded c svc B D) (prepare p socket id) E (fun r => r = Some p).
Proof using Type.
  intros Hp. unfold prepare.
  eapply safe_bind; [apply safe_bounded; intros; apply safe_now |]. intros t _.
  eapply safe_bind; [by apply safe_reset |]. intros _ _.
  eapply safe_bind; [by apply safe_set_active |]. intros _ _.
  eapply safe_bind; [apply safe_bounded; intros; safe_done |]. intros _ _.
  eapply safe_bind; [apply safe_bounded; intros; by apply safe_cleanup |]. intros _ _.
  by apply safe_mret.
Qed.

Lemma safe_serve p id E : p ∈ D -> safe (Bounded c svc B D) (serve id p) E (fun _ => True).
Proof using Hc.
  intros Hp. apply safe_bounded. intros bufs. unfold serve, DataHandler_add_session.
  eapply safe_bind; [by apply safe_add_session |]. intros _ _.
  eapply safe_bind; [apply safe_cleanup_unauth_sessions |]. intros _ _. by apply safe_start.
Qed.
End accept.

Lemma acquire_unfold socket id :
  acquire socket id =
    (idx ← take_index;
     match idx with
     | None => mret None
     | Some idx =>
         pool ← gets w_pool;
         match pool_ pool !! idx with
         | None => ub
         | Some sess => prepare sess socket id
         end
     end).
Proof. reflexivity. Qed.

(** [acquire] refuses, or hands out a session. *)
Lemma acquire_ok D w socket id :
  Bounded c svc B D w ->
  exists r w', acquire socket id w = (Ret r, w') /\
    match r with
    | None => Bounded c svc B D w'
    | Some p => Bounded c svc B ({[p]} ∪ D) w'
    end.
Proof using Type.
  intros Hw. rewrite acquire_unfold. destruct (take_index_ok D w Hw) as (idx & w1 & Ht & Hok).
  unfold mbind at 1, M_bind at 1, bind at 1. rewrite Ht. destruct idx as [i |]; cbn in Hok.
  - destruct Hok as (p & Hp & Hw1). rewrite bind_gets, Hp.
    pose proof (safe_prepare ({[p]} ∪ D) p socket id never ltac:(set_solver) w1 Hw1) as Hs.
    destruct (prepare p socket id w1) as [[r | e |] w2]; [| by destruct Hs as [[] _] | done].
    destruct Hs as [-> Hs]. by exists (Some p), w2.
  - by exists None, w1.
Qed.
End server.

Section accept.
Context `{Platform} (c : gmap string Z) (Hc : 2 <= max_write_queue c) (svc : list Service) (B : sptr -> Z).

Lemma bounded_start D o v w :
  service_of o = Some v -> Bounded c svc B D w -> Bounded c (svc ++ [v]) B D (exec (start_op o) w).
Proof.
  intros Hv (bufs & Hb & Hw). exists bufs. split; [done |].
  apply (starts_op c bufs svc false None D o v never Hv w Hw).
Qed.

Lemma bounded_counter D f w : Bounded c svc B D w -> Bounded c svc B D (w <| w_counter ::= f |>).
Proof. intros (bufs & Hb & Hw). exists bufs. split; [done |]. destruct Hw. by split. Qed.

(** The completion of an accept: whatever happens, the next one is started. *)
Lemma on_accept_ok D socket w :
  Bounded c svc B D w ->
  exists D' w', on_accept socket w = (Ret tt, w') /\ Bounded c (svc ++ [SAccept]) B D' w'.
Proof using Hc.
  intros Hw. unfold on_accept.
  assert (Hend : forall D' (w' : World), Bounded c svc B D' w' ->
    exists D' w'', start_accept w' = (Ret tt, w'') /\ Bounded c (svc ++ [SAccept]) B D' w'').
  { intros D' w' Hw'. exists D', (exec start_accept w'). split; [done |].
    by apply (bounded_start D' OpAccept SAccept w'). }
  destruct socket as [socket |]; [| rewrite bind_ret; by apply (Hend D)].
  unfold mbind at 1, M_bind at 1, bind at 1. rewrite bind_gets, bind_modify.
  destruct (acquire_ok c svc B D _ socket (w_counter w) (bounded_counter D (fun n => i32 (n + 1)) w Hw))
    as (r & w' & Ha & Hr).
  unfold mbind at 1, M_bind at 1, bind at 1. rewrite Ha. destruct r as [p |]; [| by apply (Hend D)].
  pose proof (safe_serve c svc B ({[p]} ∪ D) Hc p (w_counter w) never ltac:(set_solver) w' Hr) as Hs.
  destruct (serve (w_counter w) p w') as [[[] | e |] w'']; [| by destruct Hs as [[] _] | done].
  apply (Hend ({[p]} ∪ D)), Hs.
Qed.
End accept.
