(* ===== verification/System.v ===== *)
(** * The whole server as a transition system

    An event is a completion asio delivers (accept, read, write, datagram,
    timer, answer of the DB router), a lambda of a strand that gets its turn,
    the passage of time, or a change in what other threads and the DB link are
    doing.  A handler that throws ends its io thread, as [main] has no handler
    inside [io.run()].  [reachable] closes the start-up state of [main] under
    [step]. *)
From Stdlib Require Import ZArith Lia Strings.Byte.
From stdpp Require Import base gmap sets list strings.
From S2P Require Import Prelude MessageBuffer RateLimit Json Session World.
From S2P Require Import SessionPool Zones Invariant.
From S2P Require SessionStore JsonPlatform.
From S2P Require Import Lifecycle SessionManager DataHandler LoginFlow Dispatcher Reading.
From S2P Require Import UdpReceive Server.

Open Scope Z_scope.

Inductive Event :=
| EvAccept (socket : option Z)
| EvRead (p : sptr) (r : ReadResult)
| EvWrite (p : sptr) (msg : string) (gen : Z) (ok : bool)
| EvReceive (tid_hash : Z) (ok : bool) (data : string) (from : endpoint)
| EvTimer (t : LoopTimer) (expiry : Z)
| EvLoginTimer (p : sptr)
| EvDbOk (p : sptr) (nickname : string) (id : Z) (answer : json)
| EvDbError (p : sptr) (nickname : string) (id : Z) (answer : json)
| EvJob (p : sptr)                 (** the first lambda of a session strand *)
| EvBackground (j : BgJob)         (** a lambda of the UDP or a zone strand *)
| EvTick (elapsed : Z)
| EvBusy (busy : gset sptr) (zones : gset Z)
| EvLinks (links : AppLinks)
| EvSignal.                        (** SIGINT or SIGTERM *)

(** The operation an event completes. *)
Definition completes (e : Event) : option Op :=
  match e with
  | EvAccept _ => Some OpAccept
  | EvRead p _ => Some (OpRead p)
  | EvWrite p msg gen _ => Some (OpWrite p msg gen)
  | EvReceive _ _ _ _ => Some OpReceive
  | EvTimer t expiry => Some (OpTimer t expiry)
  | EvDbOk p nickname id _ | EvDbError p nickname id _ => Some (OpDb p nickname id)
  | _ => None
  end.

Fixpoint remove_op (o : Op) (l : list Op) : list Op :=
  match l with
  | [] => []
  | x :: l' => if decide (x = o) then l' else x :: remove_op o l'
  end.

#[export] Instance BgJob_eq_dec : EqDecision BgJob.
Proof. solve_decision. Defined.

(** The strand of a background lambda; lambdas of one strand run in order. *)
Definition strand_of (j : BgJob) : option Z :=
  match j with
  | BUdpBroadcast _ _ => None
  | BZoneBroadcast zone_id _ _ => Some zone_id
  end.

Fixpoint take_background (j : BgJob) (l : list BgJob) : option (list BgJob) :=
  match l with
  | [] => None
  | x :: l' =>
      if decide (strand_of x = strand_of j)
      then (if decide (x = j) then Some l' else None)
      else cons x <$> take_background j l'
  end.

(** Whether an event can happen. *)
Definition enabled (e : Event) (w : World) : bool :=
  match completes e with
  | Some o =>
      bool_decide (o ∈ w_ops w) &&
      match e with
      | EvTimer _ expiry => expiry <=? w_now w
      | EvRead _ (RData data) => (0 <? len data) && (len data <=? 2048)
      | EvReceive _ _ data _ => Z.of_nat (String.length data) <=? 1024
      | _ => true
      end
  | None =>
      match e with
      | EvLoginTimer p =>
          match w_heap w !! p with
          | Some s => match login_timer_ s with Some t => t <=? w_now w | None => false end
          | None => false
          end
      | EvJob p => negb (bool_decide (default [] (w_jobs w !! p) = []))
      | EvBackground j => match take_background j (w_bg w) with Some _ => true | None => false end
      | EvTick elapsed => 0 <=? elapsed
      | EvSignal => false          (** not a handler's step: see [step_stop] *)
      | _ => true
      end
  end.

Section system.
Context `{Platform}.

Definition pop_job (p : sptr) : P unit :=
  jobs ← gets (fun w => default [] (w_jobs w !! p));
  match jobs with
  | [] => mret tt
  | j :: rest =>
      modify (fun w => w <| w_jobs ::= <[p := rest]> |>);;
      in_strand p (run_job p j)
  end.

Definition run_background (j : BgJob) : P unit :=
  match j with
  | BUdpBroadcast msg sender => run_udp_broadcast msg sender
  | BZoneBroadcast zone_id msg sender => run_zone_broadcast zone_id msg sender
  end.

Definition on_timer (t : LoopTimer) : P unit :=
  match t with
  | KeepaliveTimer => on_keepalive_timer
  | MonitorTimer => on_monitor_timer;; mret tt
  | CleanupTimer => on_cleanup_timer
  end.

Definition finish_op (o : Op) : P unit := modify (fun w => w <| w_ops ::= remove_op o |>).

Definition handler_of (e : Event) : P unit :=
  match e with
  | EvAccept socket => on_accept socket
  | EvRead p r => in_strand p (on_read p r)
  | EvWrite p _ gen ok => in_strand p (on_write_complete p gen ok)
  | EvReceive tid ok data from => on_receive tid ok data from
  | EvTimer t _ => on_timer t
  | EvLoginTimer p => in_strand p (on_login_timeout p)
  | EvDbOk p nickname _ j => on_db_ok p nickname j
  | EvDbError p _ _ j => on_db_error p j
  | EvJob p => pop_job p
  | EvBackground j =>
      modify (fun w => w <| w_bg ::= fun l => default l (take_background j l) |>);;
      run_background j
  | EvTick elapsed => modify (fun w => w <| w_now ::= fun t => t + elapsed |>)
  | EvBusy busy zones => modify (fun w => w <| w_busy := busy |> <| w_busy_zones := zones |>)
  | EvLinks links => modify (fun w => w <| w_links := links |>)
  | EvSignal => mret tt
  end.

Definition run_event (e : Event) : P unit :=
  match completes e with
  | Some o => finish_op o
  | None => mret tt
  end;;
  handler_of e.

(** The world and the io threads that still run.  The handler of [signals] in
    [main] calls [io.stop()], after which no thread processes an event. *)
Record Sys := mkSys { s_world : World; s_threads : nat }.

Inductive step : Sys -> Event -> Sys -> Prop :=
| step_return w n e w' :
    enabled e w = true -> run_event e w = (Ret tt, w') ->
    step (mkSys w (S n)) e (mkSys w' (S n))
| step_throw w n e x w' :
    enabled e w = true -> run_event e w = (Exn x, w') ->
    step (mkSys w (S n)) e (mkSys w' n)
| step_stop w n : step (mkSys w (S n)) EvSignal (mkSys w 0).

(** [c] is the configuration, [hardware] the number of cores, [now] the clock
    at start-up. *)
Definition initial (c : gmap string Z) (hardware now : Z) : Sys :=
  mkSys (exec boot (initial_world c hardware now))
    (Z.to_nat (if decide (hardware = 0) then 4 else hardware)).

Inductive reachable (c : gmap string Z) (hardware now : Z) : Sys -> Prop :=
| reach_initial : reachable c hardware now (initial c hardware now)
| reach_step s e s' : reachable c hardware now s -> step s e s' -> reachable c hardware now s'.

(** A run from [s], with the states in which its events happened. *)
Inductive trace (s : Sys) : list (Sys * Event) -> Sys -> Prop :=
| trace_nil : trace s [] s
| trace_snoc l s1 e s2 : trace s l s1 -> step s1 e s2 -> trace s (l ++ [(s1, e)]) s2.

Lemma trace_reachable c hardware now s l s' :
  reachable c hardware now s -> trace s l s' -> reachable c hardware now s'.
Proof using Type. intros Hs. induction 1 as [| l s1 e s2 _ IH Hstep]; [done |]. by eapply reach_step. Qed.

Lemma reachable_trace c hardware now s :
  reachable c hardware now s -> exists l, trace (initial c hardware now) l s.
Proof using Type.
  induction 1 as [| s e s' _ [l Hl] Hstep]; [eexists; apply trace_nil |].
  eexists. by eapply trace_snoc.
Qed.

(** ** Start-up *)

Definition all_services : list Service :=
  [STimer KeepaliveTimer; STimer MonitorTimer; STimer CleanupTimer; SAccept; SReceive].

Lemma make_zones_ok n max : 0 <= max -> map_Forall (fun _ z => zone_ok ∅ z) (make_zones n max).
Proof.
  intros Hm. induction n as [| n IH]; cbn; [apply map_Forall_empty |].
  apply map_Forall_insert_2; [| done]. split; [exact Hm | apply map_Forall_empty].
Qed.

(** Nothing is buffered at the start. *)
Definition no_input : sptr -> Z := fun _ => 0.

Lemma initial_world_inv c hardware now :
  0 <= hardware < 2 ^ 30 -> Bounded c [] no_input ∅ (initial_world c hardware now).
Proof.
  intros Hh. exists (fun _ => empty_buffer). split; [done |].
  assert (Hs : 0 < shards_of hardware <= 2 ^ 31).
  { unfold shards_of. unfold u32. rewrite Z.mod_small by lia. lia. }
  split; try done; cbn.
  - by apply SessionStore.new_manager_wf.
  - apply Forall_replicate. apply map_Forall_empty.
  - apply make_zones_ok. apply u64_nonneg.
  - split; [apply NoDup_nil_2 |]. split; [done |]. split; [apply NoDup_nil_2 |]. split; [done |].
    split; intros i Hi; [by apply elem_of_nil in Hi | by apply elem_of_empty in Hi].
Qed.

(** The new session's index goes to the end of the queue. *)
Lemma inv_push_index c svc bufs w p l :
  Inv c bufs svc false None ∅ w -> pool_ (w_pool w) = l ++ [p] ->
  Forall (fun i => (i < length l)%nat) (reusable_indices_ (w_pool w)) ->
  Inv c bufs svc false None ∅
    (w <| w_pool ::= fun x => x <| reusable_indices_ ::= fun q => q ++ [length l] |> |>).
Proof.
  intros Hw Hl Hr. destruct Hw. split; try done. cbn.
  destruct inv_pool as (H1 & H2 & H3 & H4 & H5 & H6).
  rewrite Forall_forall in Hr. split; [done |]. split; [done |]. cbn. split.
  { apply NoDup_app. split; [done |]. split; [| apply NoDup_singleton].
    intros j Hj ->%list_elem_of_singleton. specialize (Hr _ Hj). lia. }
  split.
  { apply Forall_app. split; [done |]. constructor; [| done]. rewrite Hl, length_app. cbn. lia. }
  split.
  - intros j _. right. intros q _. apply not_elem_of_empty.
  - intros j Hj. apply elem_of_app. left. by apply H6.
Qed.

Lemma construct_ok c svc n w :
  Bounded c svc no_input ∅ w -> exists w', construct n w = (Ret tt, w') /\ Bounded c svc no_input ∅ w'.
Proof.
  revert w. induction n as [| n IH]; intros w Hw; [by exists w |]. cbn [construct].
  destruct Hw as (bufs & Hb & Hw). pose proof (inv_alloc c svc bufs ∅ w Hw) as Ha. cbv zeta in Ha.
  destruct (inv_pool _ _ _ _ _ _ _ Hw) as (_ & _ & _ & H4 & _).
  pose proof (inv_push_index c svc _ _ (w_next w) (pool_ (w_pool w)) Ha eq_refl H4) as Hp.
  apply (IH _). exists (set_buf bufs (w_next w) empty_buffer). split; [| exact Hp].
  apply set_buf_bounded; [done |]. unfold len, no_input, ABSOLUTE_MAX_BUFFER. cbn. lia.
Qed.

(** The constructors of [main] establish the invariant and start the five
    services. *)
Lemma boot_ok c hardware now :
  0 <= hardware < 2 ^ 30 ->
  Bounded c all_services no_input ∅ (exec boot (initial_world c hardware now)).
Proof.
  intros Hh. pose proof (initial_world_inv c hardware now Hh) as H0.
  set (w0 := initial_world c hardware now) in *. clearbody w0.
  assert (Hdh : exists w1, DataHandler_init w0 = (Ret tt, w1) /\
    Bounded c [STimer KeepaliveTimer; STimer MonitorTimer; STimer CleanupTimer] no_input ∅ w1).
  { eexists. split; [reflexivity |].
    pose proof (bounded_start c _ no_input ∅ (OpTimer KeepaliveTimer (w_now w0 + keepalive_timeout_))
                  _ w0 eq_refl H0) as H1.
    pose proof (bounded_start c _ no_input ∅ (OpTimer MonitorTimer (w_now w0 + seconds 10)) _ _ eq_refl H1) as H2.
    apply (bounded_start c _ no_input ∅ (OpTimer CleanupTimer (w_now w0 + seconds 60)) _ _ eq_refl H2). }
  destruct Hdh as (w1 & Hrun & H1).
  unfold boot, exec. unfold mbind at 1, M_bind at 1, bind at 1. rewrite Hrun.
  unfold config_size. rewrite bind_gets.
  unfold mbind at 1, M_bind at 1, bind at 1.
  destruct (construct_ok c _ (Z.to_nat (u64 (config_value (w_config w1) "session_pool_size" 1024))) w1 H1)
    as (w2 & -> & H2).
  assert (H3 : Bounded c [STimer KeepaliveTimer; STimer MonitorTimer; STimer CleanupTimer] no_input ∅
                 (exec set_session_pool w2)).
  { destruct H2 as (bufs & Hb & H2). exists bufs. split; [done |]. destruct H2. by split. }
  pose proof (bounded_start c _ no_input ∅ OpAccept SAccept _ eq_refl H3) as H4.
  apply (bounded_start c _ no_input ∅ OpReceive SReceive _ eq_refl H4).
Qed.

(** ** Completing an operation *)

Lemma remove_op_perm o l : o ∈ l -> l ≡ₚ o :: remove_op o l.
Proof.
  induction l as [| x l IH]; intros Ho; [by apply elem_of_nil in Ho |]. cbn.
  destruct (decide (x = o)) as [-> | Hne]; [done |].
  apply elem_of_cons in Ho as [-> | Ho]; [done |].
  rewrite (IH Ho) at 1. apply perm_swap.
Qed.

Lemma writes_of_cons p g o l :
  writes_of p g (o :: l) = ((if is_write_of p g o then 1 else 0) + writes_of p g l)%nat.
Proof. unfold writes_of. cbn. by destruct (is_write_of p g o). Qed.

Lemma writes_of_perm p g l k : l ≡ₚ k -> writes_of p g l = writes_of p g k.
Proof.
  induction 1 as [| x l k Hp IH | x y l | l k j _ IH1 _ IH2]; try done.
  - by rewrite !writes_of_cons, IH.
  - rewrite !writes_of_cons. lia.
  - by rewrite IH1.
Qed.

Lemma inv_finish c bufs svc D w o :
  Inv c bufs svc false None D w -> o ∈ w_ops w ->
  exists svc', Inv c bufs svc' false None D (w <| w_ops ::= remove_op o |>) /\
    svc ≡ₚ match service_of o with Some v => v :: svc' | None => svc' end.
Proof.
  intros Hw Ho. pose proof (remove_op_perm o (w_ops w) Ho) as Hperm.
  exists (services (remove_op o (w_ops w))). split.
  - destruct Hw. split; try done; cbn.
    + intros p s Hs. destruct (inv_writes p s Hs) as (H1 & H2 & H3).
      rewrite (writes_of_perm _ _ _ _ Hperm), writes_of_cons in H1, H2. unfold writes_ok.
      split; [lia |]. split; [intros Hpos; apply H2; lia |]. intros g Hg. specialize (H3 g Hg).
      rewrite (writes_of_perm _ _ _ _ Hperm), writes_of_cons in H3. lia.
    + rewrite Hperm in inv_ops. by apply Forall_cons in inv_ops as [_ ?].
  - rewrite <- (inv_services _ _ _ _ _ _ _ Hw). unfold services.
    rewrite Hperm at 1. cbn. by destruct (service_of o).
Qed.

(** The write that completes was the only current one, and the queue is not
    empty. *)
Lemma finished_write c bufs svc D w p msg gen s :
  Inv c bufs svc false None D w -> OpWrite p msg gen ∈ w_ops w ->
  w_heap w !! p = Some s -> generation_ s = gen ->
  write_queue_ s <> [] /\ writes_of p gen (remove_op (OpWrite p msg gen) (w_ops w)) = 0%nat.
Proof.
  intros Hw Ho Hs Hg. pose proof (remove_op_perm _ _ Ho) as Hperm.
  destruct (inv_writes _ _ _ _ _ _ _ Hw p s Hs) as (H1 & H2 & _).
  rewrite (writes_of_perm _ _ _ _ Hperm), writes_of_cons, Hg in H1, H2.
  unfold is_write_of in H1 at 1, H2 at 1. rewrite !bool_decide_true in H1, H2 by done.
  cbn [andb] in H1, H2. split; [apply H2; lia | lia].
Qed.

(** ** Every event keeps the invariant *)

Definition SysBounded (c : gmap string Z) (B : sptr -> Z) (w : World) : Prop :=
  exists svc D, svc ≡ₚ all_services /\ Bounded c svc B D w.

Definition SysInv (c : gmap string Z) (w : World) : Prop := exists B, SysBounded c B w.

(** What the handler of an event may do: return, or throw if [E] allows it. *)
Definition fine (c : gmap string Z) (B : sptr -> Z) (E : Prop) (r : res unit * World) : Prop :=
  match r with
  | (Ret _, w) => SysBounded c B w
  | (Exn _, w) => E /\ SysBounded c B w
  | (UB, _) => False
  end.

Lemma fine_safe c svc B D (m : P unit) (E : exn -> Prop) (X : Prop) w :
  safe (Bounded c svc B D) m E (fun _ => True) -> (forall e, E e -> X) ->
  svc ≡ₚ all_services -> Bounded c svc B D w -> fine c B X (m w).
Proof.
  intros Hm HX Hsvc Hw. specialize (Hm w Hw). unfold fine, SysBounded.
  destruct (m w) as [[a | e |] w']; [| | done].
  - exists svc, D. by destruct Hm.
  - destruct Hm as [He Hm]. split; [by eapply HX | by exists svc, D].
Qed.

Lemma fine_starts c bufs svc B D v (m : P unit) X w :
  starts c bufs svc false None D v m never (fun _ => True) -> buffers_bounded B bufs ->
  v :: svc ≡ₚ all_services -> Inv c bufs svc false None D w -> fine c B X (m w).
Proof.
  intros Hm Hb Hsvc Hw. specialize (Hm w Hw). unfold fine, SysBounded.
  destruct (m w) as [[a | e |] w']; [| by destruct Hm as [[] _] | done].
  exists (svc ++ [v]), D. split; [| exists bufs; by destruct Hm].
  by rewrite <- Permutation_cons_append.
Qed.

Lemma fine_in_strand c B X p (m : P unit) w :
  fine c B X (m (w <| w_strand := Some p |>)) -> fine c B X (in_strand p m w).
Proof.
  assert (Hs : forall w', SysBounded c B w' -> SysBounded c B (w' <| w_strand := None |>)).
  { intros w' (svc & D & Hsvc & bufs & Hb & Hw'). exists svc, D. split; [done |]. exists bufs.
    split; [done |]. by apply inv_set_strand. }
  unfold fine, in_strand. destruct (m _) as [[a | e |] w']; [auto | | done].
  intros [? ?]. auto.
Qed.

Context (c : gmap string Z) (Hc : 2 <= max_write_queue c).

(** The events whose handlers can throw. *)
Definition may_throw (e : Event) : Prop :=
  match e with
  | EvBackground (BUdpBroadcast _ _) | EvDbOk _ _ _ _ | EvDbError _ _ _ _ => True
  | _ => False
  end.

Lemma bounded_upd svc B D w w' :
  Bounded c svc B D w ->
  w_config w' = w_config w -> w_heap w' = w_heap w -> w_next w' = w_next w ->
  w_ops w' = w_ops w -> w_jobs w' = w_jobs w -> w_sm w' = w_sm w -> w_dh w' = w_dh w ->
  w_zones w' = w_zones w -> w_pool w' = w_pool w -> w_slow w' = w_slow w -> Bounded c svc B D w'.
Proof.
  intros (bufs & Hb & Hw) E1 E2 E3 E4 E5 E6 E7 E8 E9 E10. exists bufs. split; [done |].
  destruct Hw. by split; unfold prompt in *; rewrite ?E1, ?E2, ?E3, ?E4, ?E5, ?E6, ?E7, ?E8, ?E9, ?E10.
Qed.

Lemma op_in_dom svc B D w o p :
  Bounded c svc B D w -> o ∈ w_ops w -> op_ptr o = Some p -> p ∈ D.
Proof.
  intros (bufs & _ & Hw) Ho Hp. pose proof (inv_ops _ _ _ _ _ _ _ Hw) as Hf.
  rewrite Forall_forall in Hf. by apply (Hf o Ho).
Qed.

Lemma completion_ok e o svc B D w :
  completes e = Some o -> o ∈ w_ops w -> svc ≡ₚ all_services -> Bounded c svc B D w ->
  (forall p r, e = EvRead p r -> room B p r w) ->
  fine c B (may_throw e) (handler_of e (w <| w_ops ::= remove_op o |>)).
Proof using Hc.
  intros He Ho Hsvc Hw Hroom. pose proof (op_in_dom svc B D w o) as Hptr.
  destruct Hw as (bufs & Hb & Hw). destruct (inv_finish c bufs svc D w o Hw Ho) as (svc' & Hw' & Hsvc').
  rewrite Hsvc in Hsvc'. set (w1 := w <| w_ops ::= remove_op o |>) in *.
  assert (HB : Bounded c svc' B D w1) by by exists bufs.
  assert (Hd : forall p, op_ptr o = Some p -> p ∈ D) by (intros p; apply Hptr; [by exists bufs | done]).
  destruct e; try done; cbn in He; injection He as <-; cbn [service_of] in Hsvc'; cbn [handler_of may_throw].
  - destruct (on_accept_ok c Hc svc' B D socket w1 HB) as (D' & w' & -> & HB'). cbn.
    exists (svc' ++ [SAccept]), D'. split; [| done]. by rewrite Hsvc', <- Permutation_cons_append.
  - apply fine_in_strand.
    pose proof (safe_on_read c Hc svc' B D p r never (Hd p eq_refl) (w1 <| w_strand := Some p |>)) as Hrun.
    specialize (Hrun (conj (ex_intro _ bufs (conj Hb (inv_set_strand c bufs svc' false D None (Some p) w1 Hw')))
                        (Hroom p r eq_refl))).
    unfold fine, SysBounded. destruct (on_read p r _) as [[a | x |] w'];
      [exists svc', D; by destruct Hrun | by destruct Hrun as [[] _] | done].
  - apply fine_in_strand.
    pose proof (hoare_on_write_complete c bufs svc' false D Hc p gen ok never (Hd p eq_refl)
                  (w1 <| w_strand := Some p |>)) as Hrun.
    specialize (Hrun (conj (inv_set_strand c bufs svc' false D None (Some p) w1 Hw')
      (fun s Hs Hg => finished_write c bufs svc D w p msg gen s Hw Ho Hs Hg))).
    unfold fine, SysBounded. destruct (on_write_complete p gen ok _) as [[a | x |] w'];
      [| by destruct Hrun as [[] _] | done].
    exists svc', D. split; [done |]. exists bufs. split; [done | apply Hrun].
  - eapply (fine_starts c bufs svc' B D SReceive); [by apply starts_on_receive | done | done | done].
  - destruct t; cbn [on_timer].
    + eapply (fine_starts c bufs svc' B D (STimer KeepaliveTimer)); [apply starts_on_keepalive_timer | done..].
    + eapply (fine_starts c bufs svc' B D (STimer MonitorTimer)); [| done..].
      apply (hoare_bind _ _ _ _ (fun _ => Inv c bufs (svc' ++ [STimer MonitorTimer]) false None D)).
      * eapply hoare_conseq; [apply (starts_on_monitor_timer c bufs svc' D false never) | done | done |].
        by intros a w' [_ ?].
      * by intros a w' ?.
    + eapply (fine_starts c bufs svc' B D (STimer CleanupTimer)); [apply starts_on_cleanup_timer | done..].
  - eapply (fine_safe c svc' B D _ (eq TypeError)); [| done | done | done].
    apply safe_bounded. intros bufs'. apply safe_on_db_ok; [done | by apply Hd].
  - eapply (fine_safe c svc' B D _ (eq TypeError)); [| done | done | done].
    apply safe_bounded. intros bufs'. apply safe_on_db_error; [done | by apply Hd].
Qed.

Lemma background_ok e svc B D w :
  completes e = None -> enabled e w = true -> svc ≡ₚ all_services -> Bounded c svc B D w ->
  fine c B (may_throw e) (handler_of e w).
Proof using Hc.
  intros He Hen Hsvc Hw. pose proof Hw as (bufs & Hb & Hi).
  destruct e; try done; unfold enabled in Hen; cbn [completes] in Hen; cbn [handler_of may_throw].
  - destruct (w_heap w !! p) as [s |] eqn:Hs; [| done].
    destruct (login_timer_ s) as [t |] eqn:Ht; [| done].
    assert (Hp : p ∈ D) by (apply (inv_timers _ _ _ _ _ _ _ Hi p s Hs); by rewrite Ht).
    apply fine_in_strand. eapply (fine_safe c svc B D _ never); [| done | done |].
    + apply safe_bounded. intros bufs'. by apply safe_on_login_timeout.
    + by apply (bounded_upd svc B D w).
  - apply negb_true_iff, bool_decide_eq_false in Hen.
    pose proof (inv_jobs _ _ _ _ _ _ _ Hi p Hen) as Hp.
    unfold pop_job. rewrite bind_gets. destruct (default [] (w_jobs w !! p)) as [| j rest]; [done |].
    rewrite bind_modify. apply fine_in_strand. eapply (fine_safe c svc B D _ never); [| done | done |].
    + apply safe_bounded. intros bufs'. by apply safe_run_job.
    + exists bufs. split; [done |]. apply inv_set_strand. destruct Hi. split; try done. cbn.
      intros q. destruct (decide (q = p)) as [-> | Hne]; [done |].
      rewrite lookup_insert_ne by done. apply inv_jobs.
  - rewrite bind_modify. destruct j as [msg sender | z msg sender]; cbn [run_background].
    + eapply (fine_safe c svc B D _ any); [| done | done | by apply (bounded_upd svc B D w)].
      apply safe_bounded. intros bufs'. apply safe_run_udp_broadcast.
    + eapply (fine_safe c svc B D _ never); [| done | done | by apply (bounded_upd svc B D w)].
      apply safe_bounded. intros bufs'. apply safe_run_zone_broadcast.
  - exists svc, D. split; [done |]. by apply (bounded_upd svc B D w).
  - exists svc, D. split; [done |]. by apply (bounded_upd svc B D w).
  - exists svc, D. split; [done |]. by apply (bounded_upd svc B D w).
Qed.

(** The bytes an event brings in for a session, and how much a session may
    hold after it. *)
Definition input (e : Event) (p : sptr) : Z :=
  match e with
  | EvRead q (RData data) => if decide (q = p) then len data else 0
  | _ => 0
  end.

Definition buffered (w : World) (p : sptr) : Z :=
  match w_heap w !! p with Some s => len (buffer_ (msg_buf_mgr_ s)) | None => 0 end.

(** A read that completes a message with a number that has no finite value:
    json.hpp throws [out_of_range], the handler closes the session and returns
    with the rest of the buffer unread. *)
Definition spoils (e : Event) (w : World) (p : sptr) : bool :=
  match e, w_heap w !! p with
  | EvRead q (RData data), Some s =>
      bool_decide (q = p) && bool_decide (spoilt (append (msg_buf_mgr_ s) data))
  | _, _ => false
  end.

Definition limit (e : Event) (w : World) (p : sptr) : Z :=
  buffered w p + if spoils e w p then input e p else 0.

Lemma input_nonneg e p : 0 <= input e p.
Proof using Type. unfold input, len. repeat case_match; lia. Qed.

Lemma limit_least e w p : buffered w p <= limit e w p.
Proof using Type. unfold limit. pose proof (input_nonneg e p). destruct (spoils e w p); lia. Qed.

(** The reads of [p] in a run that were cut short in this way. *)
Definition spoiling_reads (p : sptr) (l : list (Sys * Event)) : Z :=
  len (List.filter (fun '(s, e) => spoils e (s_world s) p) l).

(** The session objects that exist, with what their buffers hold now. *)
Definition heap_bufs (w : World) (p : sptr) : MessageBufferManager :=
  match w_heap w !! p with Some s => msg_buf_mgr_ s | None => empty_buffer end.

Lemma sys_limit e w : SysInv c w -> SysBounded c (limit e w) w.
Proof using Type.
  intros (B & svc & D & Hsvc & bufs & _ & Hw). exists svc, D. split; [done |].
  exists (heap_bufs w). split.
  - intros p. pose proof (limit_least e w p) as Hl. revert Hl. unfold heap_bufs, buffered.
    destruct (w_heap w !! p); unfold len; cbn; lia.
  - eapply inv_bufs_ext; [exact Hw |]. intros p s Hs. unfold heap_bufs. rewrite Hs.
    by rewrite (inv_bufs _ _ _ _ _ _ _ Hw p s Hs).
Qed.

Lemma limit_room e w p r : e = EvRead p r -> room (limit e w) p r w.
Proof using Type.
  intros ->. destruct r; [| done..]. intros s Hs Hsp. unfold limit, spoils, buffered, input.
  rewrite Hs, !bool_decide_true, decide_True by done. cbn. lia.
Qed.

Lemma event_ok e w :
  SysInv c w -> enabled e w = true -> fine c (limit e w) (may_throw e) (run_event e w).
Proof using Hc.
  intros Hw Hen. destruct (sys_limit e w Hw) as (svc & D & Hsvc & HB).
  unfold run_event. destruct (completes e) as [o |] eqn:He.
  - unfold finish_op. rewrite bind_modify. apply (completion_ok e o svc (limit e w) D w); try done.
    + unfold enabled in Hen. rewrite He in Hen. apply andb_true_iff in Hen as [Hen _].
      by apply bool_decide_eq_true in Hen.
    + intros p r. apply limit_room.
  - rewrite bind_ret. by apply (background_ok e svc (limit e w) D w).
Qed.

Lemma step_ok s e s' :
  SysInv c (s_world s) -> step s e s' -> SysBounded c (limit e (s_world s)) (s_world s').
Proof using Hc.
  intros Hw Hstep. destruct Hstep as [w n e w' Hen Hrun | w n e x w' Hen Hrun | w n]; cbn in *;
    [.. | by apply sys_limit]; pose proof (event_ok e w Hw Hen) as Hf; rewrite Hrun in Hf; [done | apply Hf].
Qed.

Lemma reachable_inv hardware now s :
  0 <= hardware < 2 ^ 30 -> reachable c hardware now s -> SysInv c (s_world s).
Proof using Hc.
  intros Hh. induction 1 as [| s e s' _ IH Hstep].
  - exists no_input, all_services, ∅. split; [done |]. by apply boot_ok.
  - eexists. by eapply step_ok.
Qed.
End system.

(** ** Properties of every reachable state *)

Section reachable.
Context `{Platform} (c : gmap string Z) (hardware now : Z).
Context (Hc : 2 <= max_write_queue c) (Hh : 0 <= hardware < 2 ^ 30).

Lemma reachable_bounded s :
  reachable c hardware now s -> exists svc D bufs,
    svc ≡ₚ all_services /\ Inv c bufs svc false None D (s_world s).
Proof using Hc Hh.
  intros Hs. destruct (reachable_inv c Hc hardware now s Hh Hs) as (B & svc & D & Hsvc & bufs & _ & Hw).
  by exists svc, D, bufs.
Qed.


(** C2. The server never stops serving: in every reachable state exactly one
    accept, one UDP reception and one wait of each periodic timer is
    outstanding, although each is restarted only by its own completion
    handler and these return early, or catch exceptions, on many paths. *)
Theorem services_never_lost s :
  reachable c hardware now s -> services (w_ops (s_world s)) ≡ₚ all_services.
Proof using Hc Hh.
  intros Hs. destruct (reachable_bounded s Hs) as (svc & D & bufs & Hsvc & Hw).
  by rewrite (inv_services _ _ _ _ _ _ _ Hw).
Qed.

(** C3. Which handlers can end an io thread: an exception leaves [io.run()] only
    from the lambda of [udp_broadcast] or from the callbacks of a DB answer;
    every TCP message, datagram, timer, accept and write is fully handled. *)
Theorem exceptions_contained s e x :
  reachable c hardware now s -> enabled e (s_world s) = true ->
  (forall msg sender, e <> EvBackground (BUdpBroadcast msg sender)) ->
  (forall p nickname id answer, e <> EvDbOk p nickname id answer /\ e <> EvDbError p nickname id answer) ->
  outcome (run_event e) (s_world s) <> Exn x.
Proof using Hc Hh.
  intros Hs He Hb Hdb Hx. pose proof (event_ok c Hc e _ (reachable_inv c Hc hardware now s Hh Hs) He) as Hf.
  unfold outcome, fine in *. destruct (run_event e (s_world s)) as [[[] | y |] w']; try done.
  destruct Hf as [Hm _]. destruct e as [| | | | | | p n i a | p n i a | | [msg sender |] | | | |]; try done.
  - by destruct (Hdb p n i a).
  - by destruct (Hdb p n i a).
  - by destruct (Hb msg sender).
Qed.

Lemma enabled_input e w p : enabled e w = true -> input e p <= 2048.
Proof using Type.
  intros He. destruct e as [| q [data | | | |] | | | | | | | | | | | |]; try (cbn; lia).
  unfold enabled in He. cbn [completes] in He. apply andb_true_iff in He as [_ He].
  apply andb_true_iff in He as [_ He]. unfold input. case_decide; lia.
Qed.

Lemma step_input s e s' p : step s e s' -> input e p <= 2048.
Proof using Type.
  destruct 1 as [w n e w' Hen _ | w n e x w' Hen _ | w n];
    [by eapply enabled_input | by eapply enabled_input | cbn; lia].
Qed.

(** An event adds to a read buffer beyond 512 KiB only if it spoils it, and
    then at most the 2048 bytes of one read. *)
Lemma step_buffered s e s' p :
  reachable c hardware now s -> step s e s' ->
  buffered (s_world s') p <=
    Z.max ABSOLUTE_MAX_BUFFER (buffered (s_world s) p + if spoils e (s_world s) p then 2048 else 0).
Proof using Hc Hh.
  intros Hs Hstep. destruct (step_ok c Hc s e s' (reachable_inv c Hc hardware now s Hh Hs) Hstep)
    as (svc' & D' & _ & bufs' & Hb & Hw').
  unfold buffered at 1. destruct (w_heap (s_world s') !! p) as [t |] eqn:Ht; [| unfold ABSOLUTE_MAX_BUFFER; lia].
  pose proof (inv_bufs _ _ _ _ _ _ _ Hw' p t Ht) as H4. cbv beta in H4. rewrite H4.
  specialize (Hb p). unfold limit in Hb. destruct (spoils e (s_world s) p) eqn:Hsp; [| lia].
  pose proof (step_input s e s' p Hstep). lia.
Qed.

Lemma trace_buffered l s p :
  trace (initial c hardware now) l s ->
  buffered (s_world s) p <= ABSOLUTE_MAX_BUFFER + 2048 * spoiling_reads p l.
Proof using Hc Hh.
  intros Hl. induction Hl as [| l s1 e s2 Hl IH Hstep].
  - destruct (boot_ok c hardware now Hh) as (bufs & Hb & Hw). unfold buffered, initial. cbn [s_world].
    destruct (w_heap _ !! p) as [t |] eqn:Ht; [| discriminate].
    pose proof (inv_bufs _ _ _ _ _ _ _ Hw p t Ht) as H4. cbv beta in H4. rewrite H4.
    specialize (Hb p). change (spoiling_reads p []) with 0. unfold no_input, ABSOLUTE_MAX_BUFFER in *. lia.
  - pose proof (step_buffered s1 e s2 p (trace_reachable _ _ _ _ _ _ (reach_initial _ _ _) Hl) Hstep) as Hb.
    unfold spoiling_reads in *. rewrite List.filter_app, len_app. cbn [List.filter].
    destruct (spoils e (s_world s1) p); rewrite ?len_cons, len_nil; unfold len in *; lia.
Qed.

(** C4. Resource bounds: in every state of every run of the server each session
    holds at most [max_write_queue_size] messages to write and at most
    [max_task_queue] tasks, its UDP bucket is within 0..120, no zone exceeds its
    capacity, and a session holds at most 512 KiB of unprocessed input, plus
    2048 bytes for each read of it in the run that was cut short by a message
    with a number that has no finite value (the handler then closes the session
    and leaves the rest in the buffer); 512 KiB if there was none. *)
Theorem resources_bounded l s :
  trace (initial c hardware now) l s ->
  (forall p t, w_heap (s_world s) !! p = Some t ->
     len (write_queue_ t) <= max_write_queue c /\ len (task_queue_ t) <= max_task_queue c /\
     0 <= udpTokens_ (bucket_ t) <= 120) /\
  (forall id z, w_zones (s_world s) !! id = Some z -> Z.of_nat (size (sessions_ z)) <= max_sessions_ z) /\
  (forall p, buffered (s_world s) p <= 512 * 1024 + 2048 * spoiling_reads p l).
Proof using Hc Hh.
  intros Hl. pose proof (trace_reachable _ _ _ _ _ _ (reach_initial _ _ _) Hl) as Hs.
  destruct (reachable_bounded s Hs) as (svc & D & bufs & _ & Hw). split.
  - intros p t Ht. destruct (inv_sessions _ _ _ _ _ _ _ Hw p t Ht) as (H1 & H2 & H3).
    by repeat split; try apply H1.
  - split; [intros id z Hz; apply (inv_zones _ _ _ _ _ _ _ Hw id z Hz) |].
    intros p. exact (trace_buffered l s p Hl).
Qed.

(** C5. One write at a time: in every reachable state a session has at most one
    [async_write] of its current generation in flight, and then its queue is
    not empty, so that the completion pops an existing message (after an
    overflow not the one that was written, see
    [WriteSpec.overflow_skips_unsent]); no write carries a generation from the
    future, so a reused session ignores the completions of its previous life. *)
Theorem one_write_in_flight s p t :
  reachable c hardware now s -> w_heap (s_world s) !! p = Some t ->
  (writes_of p (generation_ t) (w_ops (s_world s)) <= 1)%nat /\
  ((0 < writes_of p (generation_ t) (w_ops (s_world s)))%nat -> write_queue_ t <> []) /\
  forall msg g, OpWrite p msg g ∈ w_ops (s_world s) -> g <= generation_ t.
Proof using Hc Hh.
  intros Hs Ht. destruct (reachable_bounded s Hs) as (svc & D & bufs & _ & Hw).
  destruct (inv_writes _ _ _ _ _ _ _ Hw p t Ht) as (H1 & H2 & H3). split; [done |]. split; [done |].
  intros msg g Hin. destruct (Z.leb_spec g (generation_ t)) as [? | Hlt]; [done |].
  pose proof (H3 g Hlt) as Hz. rewrite (writes_of_perm _ _ _ _ (remove_op_perm _ _ Hin)), writes_of_cons in Hz.
  unfold is_write_of in Hz at 1. rewrite !bool_decide_true in Hz by done. cbn in Hz. lia.
Qed.

(** C9. Pool discipline: in every reachable state the queue of reusable indices
    names each pool slot at most once and only existing slots, every index
    marked available is in the queue, and the sessions of the pool are
    distinct objects; so no session is handed out twice without having been
    released in between. *)
Theorem pool_discipline s :
  reachable c hardware now s ->
  let x := w_pool (s_world s) in
  NoDup (reusable_indices_ x) /\ NoDup (pool_ x) /\
  (forall i, i ∈ reusable_indices_ x -> is_Some (pool_ x !! i)) /\
  (forall i, i ∈ available_index_set_ x -> i ∈ reusable_indices_ x) /\
  (forall i p, i ∈ reusable_indices_ x -> i ∉ available_index_set_ x -> pool_ x !! i = Some p ->
     (OpRead p ∉ w_ops (s_world s)) /\ p ∉ SessionStore.all_sessions (w_sm (s_world s))).
Proof using Hc Hh.
  intros Hs. destruct (reachable_bounded s Hs) as (svc & D & bufs & _ & Hw). cbv zeta.
  destruct (inv_pool _ _ _ _ _ _ _ Hw) as (H1 & H2 & H3 & H4 & H5 & H6).
  split; [done |]. split; [done |]. split.
  { intros i Hi. rewrite Forall_forall in H4. by apply lookup_lt_is_Some, H4. }
  split; [done |]. intros i p Hi Hs' Hp. destruct (H5 i Hi) as [? | Hn]; [done |]. specialize (Hn p Hp).
  split; intros Hin; apply Hn.
  - pose proof (inv_ops _ _ _ _ _ _ _ Hw) as Hf. rewrite Forall_forall in Hf. by apply (Hf _ Hin).
  - pose proof (inv_all_sessions _ _ _ _ _ _ _ Hw) as Hf. rewrite Forall_forall in Hf. by apply Hf.
Qed.

(** A session that exists. *)
Definition allocated (w : World) (p : sptr) : Prop := is_Some (w_heap w !! p).

(** Every pointer the server keeps, in its tables, in what it has started and
    in what its strands still have to run, is to a session that exists. *)
Record well_formed (w : World) : Prop := {
  wf_fresh : forall p, (w_next w <= p)%nat -> w_heap w !! p = None;
  wf_table : forall i b id p, session_buckets_ (w_sm w) !! i = Some b -> b !! id = Some p ->
    allocated w p /\ Z.to_nat (SessionStore.get_shard (shard_count_ (w_sm w)) id) = i;
  wf_nicknames : forall nickname p, nickname_index_ (w_sm w) !! nickname = Some p -> allocated w p;
  wf_endpoints : forall ep p, udp_endpoint_to_session_ (w_dh w) !! ep = Some p -> allocated w p;
  wf_zone_members : forall z zone id p, w_zones w !! z = Some zone -> sessions_ zone !! id = Some p ->
    allocated w p;
  wf_pool : forall p, p ∈ pool_ (w_pool w) -> allocated w p;
  wf_outstanding : forall o p, o ∈ w_ops w -> op_ptr o = Some p -> allocated w p;
  wf_jobs : forall p, default [] (w_jobs w !! p) <> [] -> allocated w p;
  wf_mutex : nickname_locked (w_sm w) = false
}.

(** C10. Type safety: in every reachable state every pointer stored anywhere is to
    a session that exists, addresses not handed out yet are unused, a session
    id is only found in the shard it belongs to, and the nickname mutex is
    free between handlers. *)
Theorem reachable_well_formed s : reachable c hardware now s -> well_formed (s_world s).
Proof using Hc Hh.
  intros Hs. destruct (reachable_bounded s Hs) as (svc & D & bufs & _ & Hw).
  assert (Hd : forall p, p ∈ D -> allocated (s_world s) p).
  { intros p Hp. apply elem_of_dom. by apply (inv_heap _ _ _ _ _ _ _ Hw). }
  destruct Hw. split; try done.
  - intros p Hp. apply not_elem_of_dom. intros Hin. specialize (inv_next p Hin). lia.
  - intros i b id p Hb Hp. destruct inv_manager as (_ & _ & Hshard). split; [| by eapply Hshard].
    rewrite Forall_lookup in inv_buckets. by apply Hd, (inv_buckets i b Hb id).
  - intros nickname p Hp. by apply Hd, (inv_nicknames nickname).
  - intros ep p Hp. by apply Hd, (inv_udp ep).
  - intros z zone id p Hz Hp. destruct (inv_zones z zone Hz) as [_ Hm]. by apply Hd, (Hm id).
  - intros p Hp. destruct inv_pool as (_ & Hp2 & _). rewrite Forall_forall in Hp2.
    by apply elem_of_dom, Hp2.
  - intros o p Ho Hp. rewrite Forall_forall in inv_ops. by apply Hd, (inv_ops o Ho).
  - intros p Hp. by apply Hd, inv_jobs.
Qed.
End reachable.

(** ** Running a list of events *)

Section run.
Context `{Platform}.

(** [None] when an event is not enabled or no thread is left. *)
Definition run_one (e : Event) (s : Sys) : option Sys :=
  match s_threads s with
  | O => None
  | S n =>
      if enabled e (s_world s) then
        match run_event e (s_world s) with
        | (Ret tt, w) => Some (mkSys w (S n))
        | (Exn _, w) => Some (mkSys w n)
        | (UB, _) => None
        end
      else None
  end.

Fixpoint run_events (es : list Event) (s : Sys) : option Sys :=
  match es with
  | [] => Some s
  | e :: es' => s' ← run_one e s; run_events es' s'
  end.

Lemma run_one_step e s s' : run_one e s = Some s' -> step s e s'.
Proof.
  unfold run_one. destruct s as [w [| n]]; [done |]. cbn [s_threads s_world].
  destruct (enabled e w) eqn:He; [| done].
  destruct (run_event e w) as [[[] | x |] w'] eqn:Hr; intros [= <-];
    [by apply step_return | by eapply step_throw].
Qed.

Lemma run_events_reachable c hardware now es s s' :
  reachable c hardware now s -> run_events es s = Some s' -> reachable c hardware now s'.
Proof.
  revert s. induction es as [| e es IH]; intros s Hs; cbn; [by intros [= <-] |].
  destruct (run_one e s) as [s1 |] eqn:He; [| done]. apply IH.
  eapply reach_step; [done | by apply run_one_step].
Qed.

(** The run of a list of events as a [trace]. *)
Fixpoint run_trace (es : list Event) (s : Sys) : list (Sys * Event) :=
  match es with
  | [] => []
  | e :: es' => (s, e) :: match run_one e s with Some s' => run_trace es' s' | None => [] end
  end.

Lemma trace_cons s e s1 l s2 : step s e s1 -> trace s1 l s2 -> trace s ((s, e) :: l) s2.
Proof.
  intros Hstep. induction 1 as [| l s2 e2 s3 _ IH Hstep2].
  - apply (trace_snoc s [] s e s1); [apply trace_nil | done].
  - by apply (trace_snoc s ((s, e) :: l) s2 e2 s3).
Qed.

Lemma run_trace_ok es s s' : run_events es s = Some s' -> trace s (run_trace es s) s'.
Proof.
  revert s. induction es as [| e es IH]; intros s; cbn; [intros [= <-]; apply trace_nil |].
  destruct (run_one e s) as [s1 |] eqn:He; [| done]. intros Hr.
  eapply trace_cons; [by apply run_one_step | by apply IH].
Qed.
End run.

(** ** A concrete run

    Two pooled sessions, four cores, a bucket of messages: a client connects
    and logs in while the DB link is down, registers an UDP endpoint, and asks
    for a broadcast; a second client connects. *)

Definition demo_login : json := obj [("type", JStr "login"); ("nickname", JStr "kim")]%string.
Definition demo_register : json :=
  obj [("type", JStr "udp_register"); ("nickname", JStr "kim")]%string.
Definition demo_chat : json := obj [("type", JStr "chat"); ("msg", JStr "hi")]%string.

(** A datagram with a forged token. *)
Definition demo_forged : json :=
  obj [("type", JStr "udp"); ("nickname", JStr "kim"); ("token", JStr "0000"); ("msg", JStr "x")]%string.

(** A broadcast over UDP whose text is not a string. *)
Definition demo_poison : json :=
  obj [("type", JStr "broadcast_udp"); ("nickname", JStr "lee");
       ("token", JStr "0123456789abcdef0123456789abcdef"); ("msg", JInt 1)]%string.

Definition demo_login_lee : json := obj [("type", JStr "login"); ("nickname", JStr "lee")]%string.
Definition demo_register_lee : json :=
  obj [("type", JStr "udp_register"); ("nickname", JStr "lee")]%string.
Definition demo_logout : json := obj [("type", JStr "logout")]%string.

#[global] Instance demo_platform : Platform := JsonPlatform.exact_platform.

Definition demo_endpoint : endpoint := mkEndpoint "10.0.0.1" 4000.

Definition demo_config : gmap string Z :=
  {[ "session_pool_size"%string := 2; "zone_max_sessions_count"%string := 50 ]}.
Definition demo_start : Sys := initial demo_config 4 1.

Definition framed (j : json) : ReadResult := RData (frame (String.list_byte_of_string (dump j))).

Definition demo_events : list Event :=
  [EvAccept (Some 7); EvTick 1000; EvRead 0 (framed demo_login);
   EvReceive 3 true (dump demo_register) demo_endpoint; EvAccept (Some 8);
   EvRead 0 (framed demo_chat)].

Definition demo_served : Sys := default demo_start (run_events demo_events demo_start).

Lemma demo_reachable : reachable demo_config 4 1 demo_served.
Proof.
  apply (run_events_reachable _ _ _ demo_events demo_start); [apply reach_initial |].
  vm_compute. reflexivity.
Qed.

Definition demo_trace : list (Sys * Event) := run_trace demo_events demo_start.

Lemma demo_run : run_events demo_events demo_start = Some demo_served.
Proof. vm_compute. reflexivity. Qed.

Lemma demo_queue : 2 <= max_write_queue demo_config.
Proof. vm_compute. discriminate. Qed.

Lemma demo_cores : 0 <= 4 < 2 ^ 30.
Proof. split; [discriminate | reflexivity]. Qed.

(** The session of the first client. *)
Definition demo_session : Session :=
  default (new_session 0) (w_heap (s_world demo_served) !! 0%nat).

Lemma demo_lookup : w_heap (s_world demo_served) !! 0%nat = Some demo_session.
Proof. vm_compute. reflexivity. Qed.

Definition demo_message : string := login_success_msg "kim".


Lemma services_never_lost_witness : services (w_ops (s_world demo_served)) ≡ₚ all_services.
Proof. apply (services_never_lost demo_config 4 1 demo_queue demo_cores _ demo_reachable). Defined.

Lemma exceptions_contained_witness :
  outcome (run_event (EvRead 0 (framed demo_chat))) (s_world demo_served) <> Exn TypeError.
Proof.
  apply (exceptions_contained demo_config 4 1 demo_queue demo_cores demo_served
           (EvRead 0 (framed demo_chat)) TypeError demo_reachable); [| done | done].
  vm_compute. reflexivity.
Defined.

Lemma resources_bounded_witness :
  len (write_queue_ demo_session) = 2 /\
  len (write_queue_ demo_session) <= max_write_queue demo_config /\
  spoiling_reads 0 demo_trace = 0 /\ buffered (s_world demo_served) 0 <= 512 * 1024 + 2048 * 0 /\
  exists z, w_zones (s_world demo_served) !! 1 = Some z /\ Z.of_nat (size (sessions_ z)) <= 50.
Proof.
  split; [vm_compute; reflexivity |].
  pose proof (resources_bounded demo_config 4 1 demo_queue demo_cores demo_trace demo_served
                (run_trace_ok _ _ _ demo_run)) as (Hq & Hz & Hb).
  split; [apply (Hq 0%nat _ demo_lookup) |].
  assert (Hs : spoiling_reads 0 demo_trace = 0) by (vm_compute; reflexivity).
  split; [exact Hs |]. split; [rewrite <- Hs; exact (Hb 0%nat) |].
  destruct (w_zones (s_world demo_served) !! 1) as [z |] eqn:Ez; [| exfalso; revert Ez; vm_compute; discriminate].
  exists z. split; [reflexivity |].
  specialize (Hz 1 z Ez).
  assert (Hm : option_map max_sessions_ (w_zones (s_world demo_served) !! 1) = Some 50)
    by (vm_compute; reflexivity).
  rewrite Ez in Hm. injection Hm as Hm. by rewrite Hm in Hz.
Defined.

(** A message that spoils a read: the session is closed and what came behind
    it stays in the buffer. *)
Definition demo_spoilt : list byte :=
  frame (String.list_byte_of_string "1e999") ++ frame (String.list_byte_of_string "{}").

Example spoilt_read_leaves_rest :
  (fun s => (spoils (EvRead 0 (RData demo_spoilt)) (s_world demo_served) 0, buffered (s_world s) 0,
             state_ <$> w_heap (s_world s) !! 0%nat)) <$>
  run_one (EvRead 0 (RData demo_spoilt)) demo_served = Some (true, 6, Some Closed).
Proof. vm_compute. reflexivity. Qed.

Lemma one_write_in_flight_witness :
  (writes_of 0 (generation_ demo_session) (w_ops (s_world demo_served)) = 1)%nat /\
  write_queue_ demo_session <> [].
Proof.
  assert (Hone : writes_of 0 (generation_ demo_session) (w_ops (s_world demo_served)) = 1%nat)
    by (vm_compute; reflexivity).
  split; [done |].
  apply (one_write_in_flight demo_config 4 1 demo_queue demo_cores _ 0%nat _ demo_reachable demo_lookup).
  rewrite Hone. apply Nat.lt_0_1.
Defined.

Lemma pool_discipline_witness : NoDup (pool_ (w_pool (s_world demo_served))).
Proof. apply (pool_discipline demo_config 4 1 demo_queue demo_cores _ demo_reachable). Defined.

Lemma reachable_well_formed_witness :
  well_formed (s_world demo_served) /\
  exists p, nickname_index_ (w_sm (s_world demo_served)) !! "kim"%string = Some p /\
            allocated (s_world demo_served) p.
Proof.
  pose proof (reachable_well_formed demo_config 4 1 demo_queue demo_cores _ demo_reachable) as Hw.
  split; [exact Hw |].
  destruct (nickname_index_ (w_sm (s_world demo_served)) !! "kim"%string) as [p |] eqn:Hp;
    [| exfalso; revert Hp; vm_compute; discriminate].
  exists p. split; [reflexivity |]. exact (wf_nicknames _ Hw _ _ Hp).
Defined.
