(* ===== verification/Frames.v ===== *)
(** * What the handlers leave alone

    Handlers only add to the outstanding operations: whatever the server does
    while it processes an event, the operations it has started before are still
    outstanding.  [Joint] relies on it for the logins that wait for the
    database. *)
From Stdlib Require Import ZArith Lia Strings.Byte.
From stdpp Require Import base gmap sets list strings.
From S2P Require Import Prelude MessageBuffer RateLimit Json Session World.
From S2P Require Import SessionPool Zones Invariant.
From S2P Require SessionStore.
From S2P Require Import Lifecycle SessionManager DataHandler LoginFlow Dispatcher Reading.
From S2P Require Import UdpReceive Server System.

Open Scope Z_scope.

Definition grows (w w' : World) : Prop := w_ops w `prefix_of` w_ops w'.

#[export] Instance grows_preorder : PreOrder grows.
Proof. split; [intros w; by unfold grows | intros w w1 w2; unfold grows; apply transitivity]. Qed.

(** ** The operations on the world *)

Lemma grows_same f : (forall w, w_ops (f w) = w_ops w) -> steps grows (modify f).
Proof. intros Hf. apply steps_modify. intros w. unfold grows. by rewrite Hf. Qed.

Lemma grows_with_session {A} p (f : Session -> A * Session) : steps grows (with_session p f).
Proof.
  intros w. unfold with_session, grows. destruct (w_heap w !! p) as [s |]; [| done]. by destruct (f s).
Qed.

Lemma grows_get {A} p (f : Session -> A) : steps grows (get p f).
Proof. intros w. unfold get, grows. by destruct (w_heap w !! p). Qed.

Lemma grows_alloc : steps grows alloc.
Proof. intros w. by unfold grows. Qed.

Lemma grows_start_op o : steps grows (start_op o).
Proof. intros w. unfold grows. by apply prefix_app_r. Qed.

Lemma grows_with_bucket {A} id (f : gmap Z sptr -> A * gmap Z sptr) :
  steps grows (SessionStore.with_bucket id f).
Proof.
  intros w. unfold SessionStore.with_bucket, grows. destruct (_ !! _) as [b |]; [| done]. by destruct (f b).
Qed.

Lemma grows_with_lock {A} (m : P A) : steps grows m -> steps grows (with_nickname_lock m).
Proof.
  intros Hm w. unfold with_nickname_lock. destruct (nickname_locked _); [by unfold grows |].
  specialize (Hm (w <| w_sm ::= fun sm => sm <| nickname_locked := true |> |>)).
  destruct (m _) as [r w']. exact Hm.
Qed.

Lemma grows_in_strand p (m : P unit) : steps grows m -> steps grows (in_strand p m).
Proof.
  intros Hm w. unfold in_strand. specialize (Hm (w <| w_strand := Some p |>)).
  destruct (m _) as [r w']. exact Hm.
Qed.

#[export] Hint Resolve grows_with_session grows_get grows_alloc grows_start_op grows_with_bucket : steps.
#[export] Hint Extern 1 (steps grows (modify _)) => apply grows_same; reflexivity : steps.
#[export] Hint Extern 1 (steps grows (gets _)) => apply steps_gets; exact _ : steps.
#[export] Hint Extern 2 (steps grows (with_nickname_lock _)) => apply grows_with_lock; walk : steps.
#[export] Hint Extern 2 (steps grows (in_strand _ _)) => apply grows_in_strand; walk : steps.

Section frames.
Context `{Platform}.

Lemma grows_close_session p : steps grows (close_session p).
Proof. walk. Qed.
#[local] Hint Resolve grows_close_session : steps.

Lemma grows_dispatch_strand p j : steps grows (dispatch_strand p j).
Proof. walk. Qed.
#[local] Hint Resolve grows_dispatch_strand : steps.

Lemma grows_broadcast msg id : steps grows (broadcast msg id).
Proof. walk. Qed.
#[local] Hint Resolve grows_broadcast : steps.

Lemma grows_assign_zone p z : steps grows (assign_session_to_zone p z).
Proof. walk. Qed.
#[local] Hint Resolve grows_assign_zone : steps.

Lemma grows_on_user_info_ok p nickname j : steps grows (on_user_info_ok p nickname j).
Proof. walk. Qed.
#[local] Hint Resolve grows_on_user_info_ok : steps.

Lemma grows_tcp_handler type handler p msg :
  handlers_ !! type = Some handler -> steps grows (handler p msg).
Proof.
  unfold handlers_, register_handler. intros Hh.
  repeat (apply lookup_insert_Some in Hh as [[_ <-] | [_ Hh]]; [walk |]). by rewrite lookup_empty in Hh.
Qed.

Lemma grows_udp_handler type handler p msg from :
  udp_handlers_ !! type = Some handler -> steps grows (handler p msg from).
Proof.
  unfold udp_handlers_, register_udp_handler. intros Hh.
  repeat (apply lookup_insert_Some in Hh as [[_ <-] | [_ Hh]]; [walk |]). by rewrite lookup_empty in Hh.
Qed.

Lemma grows_dispatch p msg : steps grows (dispatch p msg).
Proof.
  unfold dispatch. apply steps_catch; [exact _ | | walk]. apply steps_bind; [exact _ | walk |].
  intros type. destruct (decide _); [walk |].
  destruct (handlers_ !! type) as [handler |] eqn:Hh; [| walk].
  apply steps_catch; [exact _ | by eapply grows_tcp_handler | walk].
Qed.
#[local] Hint Resolve grows_dispatch : steps.

Lemma grows_dispatch_udp_parsed p msg from : steps grows (dispatch_udp_parsed p msg from).
Proof.
  unfold dispatch_udp_parsed. apply steps_catch; [exact _ | | walk].
  apply steps_bind; [exact _ | walk |]. intros type.
  destruct (udp_handlers_ !! type) as [handler |] eqn:Hh; [by eapply grows_udp_handler | walk].
Qed.
#[local] Hint Resolve grows_dispatch_udp_parsed : steps.

Lemma grows_read_messages fuel p : steps grows (read_messages fuel p).
Proof. induction fuel as [| fuel IH]; cbn [read_messages]; walk. Qed.
#[local] Hint Resolve grows_read_messages : steps.

Lemma grows_on_receive h ok data from : steps grows (on_receive h ok data from).
Proof. walk. Qed.

Lemma grows_on_accept socket : steps grows (on_accept socket).
Proof. walk. Qed.
#[local] Hint Resolve grows_on_receive grows_on_accept : steps.

(** No event ends an operation but the one it completes. *)
Lemma grows_handler e : steps grows (handler_of e).
Proof. destruct e; cbn [handler_of]; walk. Qed.
End frames.
