(* ===== verification/Exec.v ===== *)
(** * Running handlers symbolically

    [put p s w] is the world after writing session [p].  The equations of this
    file run a sequence of operations on a session whose contents are known,
    fusing the writes; [exec_simpl] applies them.  The functional
    specifications of the following files are proved with them. *)
From Stdlib Require Import ZArith Lia.
From stdpp Require Import base gmap sets list strings.
From S2P Require Import Prelude MessageBuffer RateLimit Json Session World.

Open Scope Z_scope.

Definition put (p : sptr) (s : Session) (w : World) : World := w <| w_heap ::= <[p := s]> |>.

Lemma lookup_put p s w : w_heap (put p s w) !! p = Some s.
Proof. apply lookup_insert_eq. Qed.

Lemma lookup_put_ne p q s w : q <> p -> w_heap (put p s w) !! q = w_heap w !! q.
Proof. intros Hne. by apply lookup_insert_ne. Qed.

Lemma put_put p s t w : put p s (put p t w) = put p s w.
Proof. unfold put, set_field; cbn. by rewrite insert_insert_eq. Qed.

(** Writing back what is there changes nothing. *)
Lemma put_same p s w : w_heap w !! p = Some s -> put p s w = w.
Proof. intros Hs. unfold put, set_field; cbn. rewrite insert_id by done. by destruct w. Qed.

(** Only the heap changes. *)
Lemma put_dh p s w : w_dh (put p s w) = w_dh w.
Proof. reflexivity. Qed.
Lemma put_sm p s w : w_sm (put p s w) = w_sm w.
Proof. reflexivity. Qed.
Lemma put_zones p s w : w_zones (put p s w) = w_zones w.
Proof. reflexivity. Qed.
Lemma put_pool p s w : w_pool (put p s w) = w_pool w.
Proof. reflexivity. Qed.
Lemma put_alive p s w : w_handler_alive (put p s w) = w_handler_alive w.
Proof. reflexivity. Qed.
Lemma put_config p s w : w_config (put p s w) = w_config w.
Proof. reflexivity. Qed.
Lemma put_now p s w : w_now (put p s w) = w_now w.
Proof. reflexivity. Qed.
Lemma put_links p s w : w_links (put p s w) = w_links w.
Proof. reflexivity. Qed.

Section exec.
Context {A B : Type}.

Lemma exec_get p s w (f : Session -> A) (k : A -> P B) :
  (get p f ≫= k) (put p s w) = k (f s) (put p s w).
Proof. apply bind_get, lookup_put. Qed.

Lemma exec_upd p s w (f : Session -> Session) (k : unit -> P B) :
  (upd p f ≫= k) (put p s w) = k tt (put p (f s) w).
Proof.
  rewrite (bind_upd p f k _ s) by apply lookup_put. f_equal. apply put_put.
Qed.

Lemma exec_with_session p s w (f : Session -> A * Session) (k : A -> P B) :
  (with_session p f ≫= k) (put p s w) = k (fst (f s)) (put p (snd (f s)) w).
Proof.
  rewrite (bind_with_session p f k _ s) by apply lookup_put. f_equal. apply put_put.
Qed.

Lemma exec_weak_lock p s w (k : option sptr -> P B) :
  (weak_lock p ≫= k) (put p s w) = k (Some p) (put p s w).
Proof. unfold weak_lock. rewrite bind_gets, lookup_put. done. Qed.

Lemma bind_assoc {C} (m : P C) (f : C -> P A) (k : A -> P B) w :
  ((m ≫= f) ≫= k) w = (m ≫= (fun c => f c ≫= k)) w.
Proof. unfold mbind, M_bind, bind. by destruct (m w) as [[c | e |] w']. Qed.

(** Running a known prefix. *)
Lemma bind_run (m : P A) (k : A -> P B) w a w' :
  m w = (Ret a, w') -> (m ≫= k) w = k a w'.
Proof. intros Hm. unfold mbind, M_bind, bind. by rewrite Hm. Qed.
End exec.

Lemma exec_upd_last p s w (f : Session -> Session) : upd p f (put p s w) = (Ret tt, put p (f s) w).
Proof.
  unfold upd, with_session. rewrite lookup_put. f_equal. apply put_put.
Qed.

Lemma exec_catch_ret {A} (m : P A) h w a w' : m w = (Ret a, w') -> catch m h w = (Ret a, w').
Proof. intros Hm. unfold catch. by rewrite Hm. Qed.

Lemma run_put {A} (m : P A) p s w r :
  w_heap w !! p = Some s -> m (put p s w) = r -> m w = r.
Proof. intros Hs. by rewrite put_same. Qed.

Create Rewrite HintDb exec.
#[export] Hint Rewrite @exec_get @exec_upd @exec_with_session @exec_weak_lock
  put_dh put_sm put_zones put_pool put_alive put_config put_now put_links
  @bind_gets @bind_modify @bind_ret exec_upd_last : exec.

Ltac exec_simpl := autorewrite with exec; cbv beta.
