(* ===== verification/PoolSpec.v ===== *)
(** * What the session pool promises

    The functional specification of [SessionPool::acquire] and
    [SessionPool::release]: which object is handed out, what is left of its
    previous life, and that a second release changes nothing. *)
From Stdlib Require Import ZArith Lia.
From stdpp Require Import base gmap sets list strings pretty.
From S2P Require Import Prelude MessageBuffer RateLimit Json Session World.
From S2P Require Import SessionPool Exec System.

Open Scope Z_scope.

(** The session a client is given, member by member: what is kept of [s], the
    session of the previous client, is its token bucket, its count of overflows,
    the flag of a write in progress, and the flag of the read buffer for an
    invalid length. *)
Definition handed_out (now socket id : Z) (s : Session) : Session := {|
  write_queue_overflow_count_ := write_queue_overflow_count_ s;
  socket_ := Some socket;
  message_ := EmptyString;
  session_id_ := id;
  nickname_ := EmptyString;
  line_buffer_ := EmptyString;
  read_pending_ := false;
  task_queue_ := [];
  task_running_ := false;
  msg_buf_mgr_ := mkMessageBufferManager [] (last_clear_by_invalid_length_ (msg_buf_mgr_ s));
  write_queue_ := [];
  write_in_progress_ := write_in_progress_ s;
  closed_ := false;
  login_timer_ := None;
  nickname_registered_ := false;
  last_alive_time_ := now;
  state_ := Handshaking;
  udp_endpoint_ := None;
  udp_ep_update_time_ := 0;
  last_udp_alive_time_ := 0;
  udp_token_ := EmptyString;
  udp_packet_count_ := 0;
  udp_packet_window_ := 0;
  zone_id_ := -1;
  generation_ := generation_ s + 2;
  life_state_ := LIdle;
  release_callback_ := true;
  bucket_ := bucket_ s;
  zone_ := None;
  udp_token_issued_ := 0;
  udp_token_ttl_sec_ := 300
|}.

(** What the steps of [acquire] make of it. *)
Lemma prepared t socket id s :
  cleanup ((set_active true (reset t socket id s)) <| release_callback_ := true |>) = handed_out t socket id s.
Proof.
  unfold handed_out, set_active, try_activate, cas_life.
  replace (generation_ s + 2) with (Z.succ (Z.succ (generation_ s))) by lia.
  destruct (decide _); reflexivity.
Qed.

(** The head of the queue, or a new session at the end of a pool that may
    grow. *)
Definition next_session (w : World) : option (sptr * Session) :=
  match reusable_indices_ (w_pool w) with
  | i :: _ => p ← pool_ (w_pool w) !! i; s ← w_heap w !! p; Some (p, s)
  | [] =>
      if u64 (max_size_ (w_pool w)) <=? len (pool_ (w_pool w)) then None
      else Some (w_next w, new_session (w_now w))
  end.

Definition pool_linked (w : World) : Prop :=
  Forall (fun p => is_Some (w_heap w !! p)) (pool_ (w_pool w)) /\
  Forall (fun i => (i < length (pool_ (w_pool w)))%nat) (reusable_indices_ (w_pool w)).

Lemma prepare_run w idx p s socket id :
  pool_ (w_pool w) !! idx = Some p -> w_heap w !! p = Some s ->
  (pool ← gets w_pool;
   match pool_ pool !! idx with
   | None => ub
   | Some sess =>
       t ← now;
       upd sess (reset t socket id);;
       upd sess (set_active true);;
       upd sess (fun s => s <| release_callback_ := true |>);;
       upd sess cleanup;;
       mret (Some sess)
   end) w = (Ret (Some p), put p (handed_out (w_now w) socket id s) w).
Proof.
  intros Hp Hs. rewrite bind_gets, Hp. unfold now. rewrite bind_gets.
  apply (run_put _ p s); [done |]. exec_simpl. by rewrite prepared.
Qed.

(** The pool when the session has been taken from it. *)
Definition pool_taken (w : World) : Pool :=
  match reusable_indices_ (w_pool w) with
  | i :: rest => (w_pool w) <| reusable_indices_ := rest |> <| available_index_set_ ::= fun a => a ∖ {[i]} |>
  | [] =>
      if u64 (max_size_ (w_pool w)) <=? len (pool_ (w_pool w)) then w_pool w
      else (w_pool w) <| pool_ ::= fun l => l ++ [w_next w] |>
  end.

(** The world with the session handed out. *)
Definition acquired (socket id : Z) (w : World) : World :=
  match next_session w with
  | None => w
  | Some (p, s) =>
      w <| w_heap ::= <[p := handed_out (w_now w) socket id s]> |>
        <| w_next := match reusable_indices_ (w_pool w) with [] => S (w_next w) | _ => w_next w end |>
        <| w_pool := pool_taken w |>
  end.

Lemma acquire_run w socket id :
  pool_linked w -> acquire socket id w = (Ret (fst <$> next_session w), acquired socket id w).
Proof.
  intros [Hp Hi]. unfold acquire, take_index, acquired, next_session, pool_taken.
  rewrite bind_assoc, bind_gets.
  destruct (reusable_indices_ (w_pool w)) as [| i rest] eqn:Er; cbn [tail].
  - destruct (u64 _ <=? _) eqn:Em; [by rewrite bind_ret |].
    unfold upd_pool. rewrite bind_assoc, (bind_run alloc _ w _ _ eq_refl).
    rewrite bind_assoc, bind_modify, bind_ret, (prepare_run _ _ (w_next w) (new_session (w_now w))).
    + unfold put, set_field. cbn. by rewrite insert_insert_eq.
    + cbn. by rewrite lookup_app_r, Nat.sub_diag by lia.
    + apply lookup_insert_eq.
  - apply Forall_cons in Hi as [Hi _]. apply lookup_lt_is_Some in Hi as [p Hi].
    rewrite Forall_forall in Hp. destruct (Hp p) as [s Hs]; [by eapply list_elem_of_lookup_2 |].
    rewrite Hi. cbn. rewrite Hs. cbn. unfold upd_pool.
    by rewrite bind_assoc, bind_modify, bind_ret, (prepare_run _ i p s).
Qed.

(** C25. What [acquire] hands out: the session at the head of the queue of
    reusable indices, or a new one when the queue is empty and the pool may
    still grow, or none; with the new socket and id, a new generation and every
    other member reset, except for the four that [handed_out] keeps of its
    previous life; the pool loses its index, and nothing else of the world
    changes.  Its life state is [Idle], not [Active]: the [cleanup] that follows
    [set_active(true)] undoes it. *)
Theorem acquire_hands_out w socket id :
  pool_linked w ->
  match next_session w with
  | None => acquire socket id w = (Ret None, w)
  | Some (p, s) =>
      acquire socket id w = (Ret (Some p), acquired socket id w) /\
      w_heap (acquired socket id w) = <[p := handed_out (w_now w) socket id s]> (w_heap w) /\
      w_pool (acquired socket id w) = pool_taken w /\
      is_active (handed_out (w_now w) socket id s) = false
  end.
Proof.
  intros Hl. rewrite (acquire_run w socket id Hl). unfold acquired. destruct (next_session w) as [[p s] |]; done.
Qed.

(** ** Release *)

Lemma index_of_at p l i : NoDup l -> l !! i = Some p -> index_of p l = Some i.
Proof.
  intros Hn. revert i. induction Hn as [| q l Hq Hn IH]; intros i Hi; [done |].
  destruct i as [| i]; cbn in *.
  - injection Hi as ->. by rewrite decide_True.
  - rewrite decide_False; [by rewrite (IH i Hi) |]. intros ->. apply Hq.
    by eapply list_elem_of_lookup_2.
Qed.

Lemma index_of_None p l : p ∉ l -> index_of p l = None.
Proof.
  induction l as [| q l IH]; intros Hp; [done |]. apply not_elem_of_cons in Hp as [Hne Hp].
  cbn. by rewrite decide_False, IH.
Qed.

Definition released (s : Session) : Session := set_active false (mark_released (cleanup s)).

Definition give_back (i : nat) (x : Pool) : Pool :=
  x <| reusable_indices_ ::= fun q => q ++ [i] |> <| available_index_set_ ::= fun a => {[i]} ∪ a |>.

Definition double_release_alert (i : nat) : Out :=
  OAlert ("[ALERT] SessionPool 중복 acquire 감지! idx=" +:+ pretty i).

Lemma release_run w i p s :
  NoDup (pool_ (w_pool w)) -> pool_ (w_pool w) !! i = Some p -> w_heap w !! p = Some s ->
  i ∉ available_index_set_ (w_pool w) ->
  release p w = (Ret tt, put p (released s) w <| w_pool ::= give_back i |>).
Proof.
  intros Hn Hp Hs Hi. unfold release. rewrite bind_gets, (index_of_at p _ i) by done.
  rewrite decide_False by done. apply (run_put _ p s); [done |]. exec_simpl. reflexivity.
Qed.

(** A session is given back once: [release] cleans the session up, marks it
    released, bumps its generation and appends its index to the queue; a second
    [release] before the next [acquire] only raises an alert and changes
    neither the pool nor any session; a session that is not of the pool is
    ignored. *)
Theorem release_once w i p s :
  NoDup (pool_ (w_pool w)) -> pool_ (w_pool w) !! i = Some p -> w_heap w !! p = Some s ->
  i ∉ available_index_set_ (w_pool w) ->
  exists w', release p w = (Ret tt, w') /\
    reusable_indices_ (w_pool w') = reusable_indices_ (w_pool w) ++ [i] /\
    (exists t, w_heap w' !! p = Some t /\ is_released t = true /\ nickname_ t = EmptyString /\
       udp_token_ t = EmptyString /\ write_queue_ t = [] /\ generation_ t = generation_ s + 1) /\
    release p w' = (Ret tt, w' <| w_out ::= fun l => l ++ [double_release_alert i] |>) /\
    (forall q, q ∉ pool_ (w_pool w) -> release q w = (Ret tt, w)).
Proof.
  intros Hn Hp Hs Hi. eexists. split; [by apply (release_run w i p s) |]. split; [done |]. split.
  { exists (released s). split; [apply lookup_insert_eq |]. by repeat split. }
  split.
  - unfold release at 1. rewrite bind_gets. cbn [w_pool set_field put].
    rewrite (index_of_at p _ i) by done. rewrite decide_True by (cbn; set_solver). reflexivity.
  - intros q Hq. unfold release. by rewrite bind_gets, index_of_None.
Qed.

(** *** Witnesses *)

(** The demo server hands its first session to a client. *)
Lemma acquire_hands_out_witness :
  next_session (s_world demo_start) = Some (0%nat, new_session 1) /\
  exists w', acquire 9 5 (s_world demo_start) = (Ret (Some 0%nat), w') /\
    w_heap w' !! 0%nat = Some (handed_out 1 9 5 (new_session 1)) /\
    reusable_indices_ (w_pool w') = [1%nat].
Proof.
  assert (Hn : next_session (s_world demo_start) = Some (0%nat, new_session 1)) by (vm_compute; reflexivity).
  assert (Hnow : w_now (s_world demo_start) = 1) by (vm_compute; reflexivity).
  split; [exact Hn |].
  assert (Hl : pool_linked (s_world demo_start))
    by (split; apply (bool_decide_unpack _); vm_compute; reflexivity).
  pose proof (acquire_hands_out (s_world demo_start) 9 5 Hl) as Ha. rewrite Hn in Ha.
  destruct Ha as (Hrun & Hheap & Hpool & _). rewrite Hnow in Hheap.
  exists (acquired 9 5 (s_world demo_start)). split; [exact Hrun |].
  split; [rewrite Hheap; apply lookup_insert_eq |]. rewrite Hpool. vm_compute. reflexivity.
Defined.

Lemma release_once_witness :
  exists w', release 0 (s_world demo_served) = (Ret tt, w') /\
    reusable_indices_ (w_pool w') = [0%nat].
Proof.
  destruct (release_once (s_world demo_served) 0 0 demo_session) as (w' & Hrun & Hr & _).
  - apply (bool_decide_unpack _). vm_compute. reflexivity.
  - vm_compute. reflexivity.
  - apply demo_lookup.
  - apply (bool_decide_unpack _). vm_compute. reflexivity.
  - exists w'. split; [exact Hrun |]. rewrite Hr. vm_compute. reflexivity.
Defined.
