(* ===== verification/CloseSpec.v ===== *)
(** * What closing a session does

    The functional specification of [Session::close_session] on a session that
    the manager knows: the session leaves the table, the UDP map, its zone and
    goes back to the pool, nothing else changes; and closing a session the
    manager no longer knows. *)
From Stdlib Require Import ZArith Lia.
From stdpp Require Import base gmap sets list strings.
From S2P Require Import Prelude MessageBuffer RateLimit Json Session World.
From S2P Require Import SessionPool Zones.
From S2P Require SessionStore.
From S2P Require Import Lifecycle SessionManager DataHandler System Exec PoolSpec.

Open Scope Z_scope.

(** ** The steps, on a session whose contents are known *)

Lemma remove_session_run w p s id b :
  session_buckets_ (w_sm w) !! Z.to_nat (SessionStore.get_shard (shard_count_ (w_sm w)) id) = Some b ->
  SessionStore.remove_session id (put p s w) =
    (Ret (b !! id), put p s (w <| w_sm ::= SessionStore.set_bucket id (delete id b) |>)).
Proof.
  intros Hb. unfold SessionStore.remove_session, SessionStore.with_bucket.
  rewrite put_sm, Hb. reflexivity.
Qed.

(** The entry of [ep] belongs to [p], or to a session that no longer exists. *)
Definition erasable (p : sptr) (ep : endpoint) (w : World) : bool :=
  match udp_endpoint_to_session_ (w_dh w) !! ep with
  | None => false
  | Some q => bool_decide (q = p) || bool_decide (w_heap w !! q = None)
  end.

Definition erase_endpoint (ep : endpoint) (w : World) : World :=
  w <| w_dh ::= fun d => d <| udp_endpoint_to_session_ ::= delete ep |> |>.

Definition unbind (p : sptr) (s : Session) (w : World) : World :=
  match udp_endpoint_ s with
  | Some ep => if erasable p ep w then erase_endpoint ep w else w
  | None => w
  end.

Lemma erase_udp_mapping_run w p s ep :
  erase_udp_mapping p ep (put p s w) =
    (Ret tt, put p s (if erasable p ep w then erase_endpoint ep w else w)).
Proof.
  unfold erase_udp_mapping, erasable. rewrite bind_gets.
  rewrite put_dh. destruct (_ !! ep) as [q |]; [| done]. unfold weak_lock. rewrite bind_gets.
  destruct (decide (q = p)) as [-> | Hne].
  - rewrite lookup_put, !bool_decide_true by done. reflexivity.
  - rewrite lookup_put_ne, (bool_decide_false (q = p)) by done.
    destruct (w_heap w !! q) eqn:Hq; cbn [orb].
    + rewrite !bool_decide_false by congruence. reflexivity.
    + rewrite bool_decide_true by done. reflexivity.
Qed.

Definition leave_zone (s : Session) (w : World) : Session * World :=
  if -1 <? zone_id_ s then
    match w_zones w !! zone_id_ s with
    | Some z => (clear_zone (set_zone_id (-1) s),
                 w <| w_zones ::= <[zone_id_ s := Zone_remove_session z (session_id_ s)]> |>)
    | None => (s, w)
    end
  else (s, w).

Lemma ZoneManager_remove_session_run w p s :
  ZoneManager_remove_session p (put p s w) =
    (Ret tt, put p (leave_zone s w).1 (leave_zone s w).2).
Proof.
  unfold ZoneManager_remove_session, leave_zone, get_zone. exec_simpl.
  destruct (-1 <? zone_id_ s); cbn [when]; [| done]. rewrite bind_gets, put_zones.
  destruct (w_zones w !! zone_id_ s) as [z |]; [| done]. exec_simpl.
  unfold upd_zones. rewrite bind_modify.
  change ((put p s w) <| w_zones ::= ?f |>) with (put p s (w <| w_zones ::= f |>)).
  by exec_simpl.
Qed.

(** ** The whole operation *)

(** A session in use: known to the manager under its id, and handed out by the
    pool. *)
Record in_use (w : World) (p : sptr) (i : nat) (s : Session) : Prop := {
  use_heap : w_heap w !! p = Some s;
  use_life : life_state_ s = LIdle \/ life_state_ s = LActive;
  use_handler : w_handler_alive w = true;
  use_wf : SessionStore.wf_manager (w_sm w);
  use_table : SessionStore.table (w_sm w) !! session_id_ s = Some p;
  use_pool_set : session_pool_set (w_dh w) = true;
  use_pool : NoDup (pool_ (w_pool w));
  use_index : pool_ (w_pool w) !! i = Some p;
  use_taken : i ∉ available_index_set_ (w_pool w)
}.

(** The session when [close_session] calls the data handler. *)
Definition closing (s : Session) : Session :=
  finalize_close ((set_state Closed (s <| life_state_ := LClosing |>))
    <| login_timer_ := None |> <| socket_ := None |>).

(** The world once the session has left the table and the UDP map, and then
    the session and the world once it has left its zone. *)
Definition unlisted (p : sptr) (s : Session) (b : gmap Z sptr) (w : World) : World :=
  unbind p s (w <| w_sm ::= SessionStore.set_bucket (session_id_ s) (delete (session_id_ s) b) |>).

Definition unlinked (p : sptr) (s : Session) (b : gmap Z sptr) (w : World) : Session * World :=
  leave_zone (clear_udp_token (closing s)) (unlisted p s b w).

Lemma try_close_run s :
  life_state_ s = LIdle \/ life_state_ s = LActive ->
  try_close s = (true, s <| life_state_ := LClosing |>).
Proof.
  intros Hl. unfold try_close, cas_life. destruct (decide (life_state_ s = LActive)); [done |].
  rewrite decide_True; [done | tauto].
Qed.

Lemma unlisted_same p s b w :
  w_zones (unlisted p s b w) = w_zones w /\ w_pool (unlisted p s b w) = w_pool w /\
  w_heap (unlisted p s b w) = w_heap w /\
  session_pool_set (w_dh (unlisted p s b w)) = session_pool_set (w_dh w).
Proof.
  unfold unlisted, unbind. destruct (udp_endpoint_ s) as [ep |]; [| done].
  by destruct (erasable _ _ _).
Qed.

Lemma leave_zone_same s w :
  w_pool (leave_zone s w).2 = w_pool w /\ w_dh (leave_zone s w).2 = w_dh w /\
  w_sm (leave_zone s w).2 = w_sm w /\ w_heap (leave_zone s w).2 = w_heap w.
Proof. unfold leave_zone. by destruct (_ <? _); [destruct (_ !! _) |]. Qed.

Lemma remove_session_spec w p i s b :
  in_use w p i s ->
  session_buckets_ (w_sm w) !! Z.to_nat (SessionStore.get_shard (shard_count_ (w_sm w)) (session_id_ s))
    = Some b ->
  DataHandler_remove_session (session_id_ s) (put p (closing s) w) =
    (Ret tt, put p (released (unlinked p s b w).1) ((unlinked p s b w).2 <| w_pool ::= give_back i |>)).
Proof.
  intros Hu Hb. unfold DataHandler_remove_session.
  assert (Hp : b !! session_id_ s = Some p).
  { rewrite <- (SessionStore.table_lookup _ _ _ (use_wf _ _ _ _ Hu) Hb). apply Hu. }
  rewrite (bind_run _ _ _ _ _ (remove_session_run w p (closing s) (session_id_ s) b Hb)), Hp.
  rewrite exec_get. change (udp_endpoint_ (closing s)) with (udp_endpoint_ s).
  set (w1 := w <| w_sm ::= _ |>).
  erewrite (bind_run _ _ _ tt (put p (closing s) (unlisted p s b w))).
  2: { unfold unlisted, unbind. destruct (udp_endpoint_ s) as [ep |]; [| done].
       apply erase_udp_mapping_run. }
  rewrite exec_upd, exec_get.
  set (s1 := clear_udp_token (closing s)).
  erewrite (bind_run _ _ _ tt (put p (unlinked p s b w).1 (unlinked p s b w).2)).
  2: { unfold unlinked. fold s1. destruct (-1 <? zone_id_ s1) eqn:Ez; cbn [when].
       - apply ZoneManager_remove_session_run.
       - unfold leave_zone. rewrite Ez. reflexivity. }
  destruct (unlisted_same p s b w) as (_ & Hpool & Hheap & Hset).
  destruct (leave_zone_same s1 (unlisted p s b w)) as (Hpool' & Hdh' & _).
  rewrite bind_gets, put_dh.
  unfold unlinked. fold s1. rewrite Hdh', Hset, (use_pool_set _ _ _ _ Hu). cbn [when].
  set (w2 := (leave_zone s1 (unlisted p s b w)).2) in *. set (t := (leave_zone _ _).1).
  rewrite (release_run _ i p t).
  - f_equal. exact (put_put p (released t) t (w2 <| w_pool ::= give_back i |>)).
  - change (NoDup (pool_ (w_pool w2))). rewrite Hpool', Hpool. apply Hu.
  - change (pool_ (w_pool w2) !! i = Some p). rewrite Hpool', Hpool. apply Hu.
  - apply lookup_put.
  - change (i ∉ available_index_set_ (w_pool w2)). rewrite Hpool', Hpool. apply Hu.
Qed.

Lemma close_session_run w p i s b :
  in_use w p i s ->
  session_buckets_ (w_sm w) !! Z.to_nat (SessionStore.get_shard (shard_count_ (w_sm w)) (session_id_ s))
    = Some b ->
  close_session p w =
    (Ret tt, put p (cleanup (released (unlinked p s b w).1))
               ((unlinked p s b w).2 <| w_pool ::= give_back i |>)).
Proof.
  intros Hu Hb. apply (run_put _ p s); [apply Hu |]. unfold close_session.
  rewrite exec_with_session, (try_close_run s) by apply Hu. cbn [fst snd negb].
  rewrite !exec_upd. apply exec_catch_ret. rewrite !exec_upd, bind_gets, put_alive.
  rewrite (use_handler _ _ _ _ Hu), exec_get. cbn [when].
  rewrite (bind_run _ _ _ _ _ (remove_session_spec w p i s b Hu Hb)). apply exec_upd_last.
Qed.

Lemma udp_without p s b w e :
  udp_endpoint_to_session_ (w_dh (unlisted p s b w)) !! e =
    if bool_decide (udp_endpoint_ s = Some e) && erasable p e w then None
    else udp_endpoint_to_session_ (w_dh w) !! e.
Proof.
  unfold unlisted, unbind. destruct (udp_endpoint_ s) as [ep |]; [| done].
  destruct (decide (ep = e)) as [-> | Hne].
  - rewrite bool_decide_true by done. change (erasable p e (w <| w_sm ::= ?f |>)) with (erasable p e w).
    destruct (erasable p e w); [apply lookup_delete_eq | done].
  - rewrite (bool_decide_false (Some ep = Some e)) by congruence.
    destruct (erasable _ _ _); [by apply lookup_delete_ne | done].
Qed.

Lemma zones_without s w z :
  w_zones (leave_zone s w).2 !! z =
    (if bool_decide (z = zone_id_ s) && (-1 <? z)
     then (fun x => Zone_remove_session x (session_id_ s)) <$> w_zones w !! z
     else w_zones w !! z).
Proof.
  unfold leave_zone. destruct (decide (z = zone_id_ s)) as [-> | Hne].
  - rewrite bool_decide_true by done. cbn [andb].
    destruct (-1 <? zone_id_ s); [| done].
    destruct (w_zones w !! zone_id_ s) as [x |] eqn:E; cbn; [| by rewrite E].
    by rewrite lookup_insert_eq.
  - rewrite (bool_decide_false (z = zone_id_ s)) by done. cbn [andb].
    destruct (-1 <? zone_id_ s); [| done]. destruct (w_zones w !! zone_id_ s); [| done].
    by apply lookup_insert_ne.
Qed.

Lemma unlinked_same p s b w :
  (forall z, w_zones (unlinked p s b w).2 !! z = w_zones (leave_zone s w).2 !! z) /\
  w_pool (unlinked p s b w).2 = w_pool w /\ w_heap (unlinked p s b w).2 = w_heap w /\
  w_dh (unlinked p s b w).2 = w_dh (unlisted p s b w) /\
  w_sm (unlinked p s b w).2 =
    SessionStore.set_bucket (session_id_ s) (delete (session_id_ s) b) (w_sm w).
Proof.
  unfold unlinked.
  destruct (unlisted_same p s b w) as (Hz & Hpool & Hheap & _).
  destruct (leave_zone_same (clear_udp_token (closing s)) (unlisted p s b w))
    as (Hpool' & Hdh & Hsm & Hheap').
  split; [intros z; by rewrite !zones_without, Hz |].
  rewrite Hpool', Hpool, Hheap', Hheap, Hdh, Hsm. do 3 (split; [done |]).
  unfold unlisted, unbind. destruct (udp_endpoint_ s); [by destruct (erasable _ _ _) | done].
Qed.

(** What closing never touches. *)
Record untouched (w w' : World) : Prop := {
  kept_now : w_now w' = w_now w;
  kept_config : w_config w' = w_config w;
  kept_alive : w_handler_alive w' = w_handler_alive w;
  kept_strand : w_strand w' = w_strand w;
  kept_busy : w_busy w' = w_busy w;
  kept_jobs : w_jobs w' = w_jobs w;
  kept_ops : w_ops w' = w_ops w;
  kept_out : w_out w' = w_out w;
  kept_bg : w_bg w' = w_bg w;
  kept_links : w_links w' = w_links w;
  kept_counter : w_counter w' = w_counter w;
  kept_next : w_next w' = w_next w;
  kept_pool_set : session_pool_set (w_dh w') = session_pool_set (w_dh w)
}.

#[export] Instance untouched_preorder : PreOrder untouched.
Proof.
  split; [by intros w; split |].
  intros w1 w2 w3 [] []. split; congruence.
Qed.

Lemma unlinked_untouched p s b w : untouched w (unlinked p s b w).2.
Proof.
  unfold unlinked. transitivity (unlisted p s b w).
  - unfold unlisted, unbind. destruct (udp_endpoint_ s) as [ep |]; [| by split].
    destruct (erasable _ _ _); by split.
  - unfold leave_zone. destruct (_ <? _); [| done]. destruct (_ !! _); [by split | done].
Qed.

(** A session that serves nobody. *)
Definition vacated (s : Session) : Prop :=
  socket_ s = None /\ state_ s = Closed /\ nickname_ s = EmptyString /\
  nickname_registered_ s = false /\ udp_endpoint_ s = None /\ udp_token_ s = EmptyString /\
  write_queue_ s = [] /\ task_queue_ s = [] /\ login_timer_ s = None /\
  zone_ s = None /\ zone_id_ s = -1 /\ life_state_ s = LIdle.

Lemma vacated_unlinked p s b w :
  let t := cleanup (released (unlinked p s b w).1) in
  vacated t /\ session_id_ t = session_id_ s /\ generation_ t = generation_ s + 2.
Proof.
  unfold unlinked, leave_zone. cbv zeta.
  destruct (-1 <? _); [destruct (_ !! _) |]; cbn [fst];
    (split; [by repeat split | split; [reflexivity | change (Z.succ (Z.succ (generation_ s)) = generation_ s + 2); lia]]).
Qed.

(** What closing a session in use leaves of it, of the table and of the pool. *)
Lemma close_session_core w p i s :
  in_use w p i s ->
  exists w' t, close_session p w = (Ret tt, w') /\ w_heap w' = <[p := t]> (w_heap w) /\
    vacated t /\ session_id_ t = session_id_ s /\ generation_ t = generation_ s + 2 /\
    SessionStore.wf_manager (w_sm w') /\
    (forall k, SessionStore.table (w_sm w') !! k =
               delete (session_id_ s) (SessionStore.table (w_sm w)) !! k) /\
    w_pool w' = give_back i (w_pool w) /\ untouched w w'.
Proof.
  intros Hu. destruct (SessionStore.bucket_exists (w_sm w) (session_id_ s) (use_wf _ _ _ _ Hu)) as [b Hb].
  pose proof (close_session_run w p i s b Hu Hb) as Hrun.
  destruct (vacated_unlinked p s b w) as (Hv & Hid & Hg).
  destruct (unlinked_same p s b w) as (Hz & Hpool & Hheap & Hdh & Hsm').
  pose proof (unlinked_untouched p s b w) as Hun.
  revert Hrun Hv Hid Hg Hz Hpool Hheap Hdh Hsm' Hun.
  generalize (cleanup (released (unlinked p s b w).1)) as t, (unlinked p s b w).2 as u.
  intros t u Hrun Hv Hid Hg Hz Hpool Hheap Hdh Hsm' Hun.
  assert (Hd : forall k, k <> session_id_ s -> delete (session_id_ s) b !! k = b !! k)
    by (intros k Hk; by apply lookup_delete_ne).
  exists (put p t (u <| w_pool ::= give_back i |>)), t. split; [exact Hrun |].
  cbn [w_heap w_sm w_dh w_zones w_pool put set_field].
  split; [by rewrite Hheap |]. do 3 (split; [done |]). rewrite Hsm'.
  split; [apply SessionStore.set_bucket_wf with b; [apply Hu | done | done] |]. split.
  { intros k. rewrite (SessionStore.set_bucket_table _ _ b) by (done || apply Hu).
    destruct (decide (k = session_id_ s)) as [-> |].
    - by rewrite !lookup_delete_eq.
    - by rewrite lookup_delete_ne. }
  split; [by rewrite Hpool | by destruct Hun; split].
Qed.

(** C20. [close_session] of a session in use: it leaves the table under its id and
    only that id, the UDP map no longer leads to it, its zone loses its member,
    its index goes to the end of the pool's queue and is marked available; the
    session itself is vacated, two generations later, so that the completions
    of its pending writes are ignored; every other session, endpoint and zone
    is untouched, and no other member of the server.  The nickname index keeps
    its entry. *)
Theorem close_session_effect w p i s :
  in_use w p i s ->
  exists w' t, close_session p w = (Ret tt, w') /\ w_heap w' = <[p := t]> (w_heap w) /\
    vacated t /\ session_id_ t = session_id_ s /\ generation_ t = generation_ s + 2 /\
    SessionStore.wf_manager (w_sm w') /\
    (forall k, SessionStore.table (w_sm w') !! k =
               delete (session_id_ s) (SessionStore.table (w_sm w)) !! k) /\
    nickname_index_ (w_sm w') = nickname_index_ (w_sm w) /\
    (forall e, udp_endpoint_to_session_ (w_dh w') !! e =
       if bool_decide (udp_endpoint_ s = Some e) && erasable p e w then None
       else udp_endpoint_to_session_ (w_dh w) !! e) /\
    (forall z, w_zones w' !! z =
       (if bool_decide (z = zone_id_ s) && (-1 <? z)
        then (fun x => Zone_remove_session x (session_id_ s)) <$> w_zones w !! z
        else w_zones w !! z)) /\
    w_pool w' = give_back i (w_pool w) /\ untouched w w'.
Proof.
  intros Hu. destruct (close_session_core w p i s Hu) as (w' & t & Hrun & Hh & Hv & Hid & Hg & Hwf & Ht & Hp & Hun).
  destruct (SessionStore.bucket_exists (w_sm w) (session_id_ s) (use_wf _ _ _ _ Hu)) as [b Hb].
  exists w', t. do 7 (split; [assumption |]). pose proof (close_session_run w p i s b Hu Hb) as Hrun'.
  destruct (unlinked_same p s b w) as (Hz & _ & _ & Hdh & Hsm').
  revert Hrun' Hz Hdh Hsm'. generalize (cleanup (released (unlinked p s b w).1)) as t', (unlinked p s b w).2 as u.
  intros t' u Hrun' Hz Hdh Hsm'.
  assert (Hw' : w' = put p t' (u <| w_pool ::= give_back i |>)) by (rewrite Hrun' in Hrun; by injection Hrun as <-).
  rewrite Hw'. cbn [w_sm w_dh w_zones put set_field]. split; [by rewrite Hsm' |]. split; [intros e; rewrite Hdh; apply udp_without |].
  split; [intros z; rewrite Hz; apply zones_without |].
  rewrite Hw' in Hp, Hun. split; [exact Hp | exact Hun].
Qed.

Lemma set_bucket_same sm id b :
  session_buckets_ sm !! Z.to_nat (SessionStore.get_shard (shard_count_ sm) id) = Some b ->
  b !! id = None -> SessionStore.set_bucket id (delete id b) sm = sm.
Proof.
  intros Hb Hn. unfold SessionStore.set_bucket, set_field. cbn.
  rewrite delete_id, list_insert_id by done. by destruct sm.
Qed.

(** Closing a session that is not in the table (closed before, or never
    added) disturbs nobody: nothing goes to the pool a second time, and only
    the session itself is written; but unless the close of another caller is
    under way it is not refused, since [cleanup] has set the life state back to
    [Idle]. *)
Theorem close_unlisted_session w p s :
  w_heap w !! p = Some s -> w_handler_alive w = true -> SessionStore.wf_manager (w_sm w) ->
  SessionStore.table (w_sm w) !! session_id_ s = None ->
  close_session p w =
    (Ret tt, put p (if decide (life_state_ s = LIdle \/ life_state_ s = LActive)
                    then cleanup (closing s) else s) w).
Proof.
  intros Hs Ha Hwf Hn. apply (run_put _ p s); [done |]. unfold close_session.
  rewrite exec_with_session. destruct (decide _) as [Hl | Hl].
  2: { unfold try_close, cas_life. by rewrite !decide_False by tauto. }
  rewrite (try_close_run s Hl). cbn [fst snd negb].
  rewrite !exec_upd. apply exec_catch_ret. rewrite !exec_upd, bind_gets, put_alive, Ha, exec_get.
  destruct (SessionStore.bucket_exists (w_sm w) (session_id_ s) Hwf) as [b Hb].
  rewrite (SessionStore.table_lookup _ _ _ Hwf Hb) in Hn. cbn [when].
  unfold DataHandler_remove_session. rewrite bind_assoc.
  rewrite (bind_run _ _ _ _ _ (remove_session_run w p (closing s) (session_id_ s) b Hb)), Hn, bind_ret.
  rewrite exec_upd_last. f_equal. f_equal. unfold set_field; cbn.
  rewrite set_bucket_same by done. by destruct w.
Qed.

(** *** Witnesses *)

Lemma demo_wf : SessionStore.wf_manager (w_sm (s_world demo_served)).
Proof.
  assert (Hw : SysInv demo_config (s_world demo_served))
    by (apply (reachable_inv demo_config demo_queue 4 1 demo_served demo_cores demo_reachable)).
  destruct Hw as (B & svc & D & _ & bufs & _ & Hw). apply (Invariant.inv_manager _ _ _ _ _ _ _ Hw).
Qed.

Lemma demo_in_use : in_use (s_world demo_served) 0 0 demo_session.
Proof.
  split.
  - apply demo_lookup.
  - left. vm_compute. reflexivity.
  - vm_compute. reflexivity.
  - apply demo_wf.
  - vm_compute. reflexivity.
  - vm_compute. reflexivity.
  - apply (bool_decide_unpack _). vm_compute. reflexivity.
  - vm_compute. reflexivity.
  - apply (bool_decide_unpack _). vm_compute. reflexivity.
Qed.

Lemma close_session_effect_witness :
  exists w', close_session 0 (s_world demo_served) = (Ret tt, w') /\
    udp_endpoint_to_session_ (w_dh w') !! demo_endpoint = None /\
    SessionStore.table (w_sm w') !! 0 = None /\ reusable_indices_ (w_pool w') = [0%nat].
Proof.
  destruct (close_session_effect (s_world demo_served) 0 0 demo_session demo_in_use)
    as (w' & t & Hrun & Hh & Hv & Hid & Hg & Hwf & Ht & Hn & Hu & Hz & Hp & _).
  exists w'. split; [exact Hrun |]. rewrite Hu, Ht, Hp. vm_compute. auto.
Defined.

(** The pooled session 1 of the start-up state, which no client uses. *)
Lemma close_unlisted_session_witness :
  exists t, close_session 1 (s_world demo_start) = (Ret tt, put 1 t (s_world demo_start)).
Proof.
  assert (Hs : w_heap (s_world demo_start) !! 1%nat = Some (new_session 1)) by (vm_compute; reflexivity).
  assert (Hwf : SessionStore.wf_manager (w_sm (s_world demo_start))).
  { replace (w_sm (s_world demo_start)) with (SessionStore.new_manager 8) by (vm_compute; reflexivity).
    apply SessionStore.new_manager_wf. vm_compute. split; [reflexivity | discriminate]. }
  eexists. apply (close_unlisted_session (s_world demo_start) 1 (new_session 1) Hs);
    [vm_compute; reflexivity | exact Hwf | vm_compute; reflexivity].
Defined.
