(* ===== verification/WriteSpec.v ===== *)
(** * Delivering messages: [post_write] and the TCP broadcasts

    What a session is going to receive is its write queue together with the
    [post_write] lambdas that wait in its strand; [pending] is that list.  A
    broadcast adds its message to the pending list of every recipient, once,
    and to nobody else's, whichever strands are busy. *)
From Stdlib Require Import ZArith Lia.
From stdpp Require Import base gmap sets list strings.
From S2P Require Import Prelude MessageBuffer RateLimit Json Session World.
From S2P Require Import SessionPool Zones Invariant.
From S2P Require SessionStore.
From S2P Require Import Lifecycle SessionManager DataHandler System Exec CloseSpec.

Open Scope Z_scope.

Definition job_message (j : Job) : option string :=
  match j with
  | JPostWrite msg => Some msg
  | JPostTask _ => None
  end.

Definition pending (w : World) (p : sptr) : list string :=
  match w_heap w !! p with Some s => write_queue_ s | None => [] end
  ++ omap job_message (default [] (w_jobs w !! p)).

(** What a write touches: the queues of sessions, the strands, the operations
    and the wire. *)
Record delivers (w w' : World) : Prop := {
  same_sm : w_sm w' = w_sm w;
  same_dh : w_dh w' = w_dh w;
  same_zones : w_zones w' = w_zones w;
  same_pool : w_pool w' = w_pool w;
  same_config : w_config w' = w_config w;
  same_alive : w_handler_alive w' = w_handler_alive w;
  same_strand : w_strand w' = w_strand w;
  same_busy : w_busy w' = w_busy w;
  same_now : w_now w' = w_now w;
  same_links : w_links w' = w_links w;
  same_slow : w_slow w' = w_slow w
}.

#[export] Instance delivers_preorder : PreOrder delivers.
Proof.
  split; [by intros w; split |].
  intros w1 w2 w3 [] []. split; congruence.
Qed.

(** The session with one more message in its queue. *)
Definition queued (msg : string) (s : Session) : Session :=
  let s' := push_write msg (s <| write_queue_overflow_count_ := 0 |>) in
  if bool_decide (write_queue_ s = []) then s' <| write_in_progress_ := true |> else s'.

Lemma queued_queue msg s : write_queue_ (queued msg s) = write_queue_ s ++ [msg].
Proof. unfold queued. by destruct (bool_decide _). Qed.

(** There is room for a message to [s], in its queue and, for the length prefix,
    in the socket of every session. *)
Definition has_room (w : World) (s : Session) : Prop :=
  len (write_queue_ s) < max_write_queue (w_config w) /\ prompt w.

Lemma has_room_delivers w w' s : delivers w w' -> has_room w s -> has_room w' s.
Proof. intros Hd. unfold has_room, prompt. by rewrite (same_config _ _ Hd), (same_slow _ _ Hd). Qed.

Lemma do_write_queue_run p s w :
  prompt w ->
  exists w', do_write_queue p (put p s w) = (Ret tt, w') /\ delivers w w' /\
    w_heap w' = <[p := (next_write s).2]> (w_heap w) /\ w_jobs w' = w_jobs w.
Proof.
  intros Hslow. unfold do_write_queue. rewrite exec_with_session.
  destruct (next_write s) as [[[msg gen] |] s'] eqn:En; cbn [fst snd].
  - unfold start_op. rewrite bind_modify.
    set (w1 := w <| w_ops ::= fun l => l ++ [OpWrite p msg gen] |>).
    change ((put p s' w) <| w_ops ::= fun l => l ++ [OpWrite p msg gen] |>) with (put p s' w1).
    rewrite exec_get. destruct (socket_ s') as [conn |]; [rewrite send_prefixed_prompt by exact Hslow |];
      eexists; (split; [reflexivity |]); by repeat split.
  - eexists. split; [reflexivity |]. by repeat split.
Qed.

Lemma next_write_keeps s : write_queue_ s <> [] -> (next_write s).2 = s.
Proof. unfold next_write. destruct (decide _); [done |]. by destruct (write_queue_ s). Qed.

Lemma enqueue_write_run p s w msg :
  has_room w s ->
  enqueue_write p msg (put p s w) =
    (Ret tt, put p (push_write msg (s <| write_queue_overflow_count_ := 0 |>)) w).
Proof.
  intros [Hroom _]. unfold enqueue_write, config_size. rewrite !bind_gets, exec_get, put_config.
  unfold max_write_queue in Hroom. pose proof (len_nonneg (write_queue_ s)).
  rewrite (proj2 (Z.leb_gt _ 0)) by lia. rewrite andb_false_r, exec_with_session.
  unfold enqueue_overflow. rewrite (proj2 (Z.leb_gt _ _)) by lia. cbn [fst snd].
  apply exec_upd_last.
Qed.

Lemma post_write_body_run w p s msg :
  w_heap w !! p = Some s -> has_room w s ->
  exists w', post_write_body p msg w = (Ret tt, w') /\ delivers w w' /\
    w_heap w' = <[p := queued msg s]> (w_heap w) /\ w_jobs w' = w_jobs w.
Proof.
  intros Hs Hroom.
  assert (Hrun : exists w', post_write_body p msg (put p s w) = (Ret tt, w') /\ delivers w w' /\
    w_heap w' = <[p := queued msg s]> (w_heap w) /\ w_jobs w' = w_jobs w).
  - unfold post_write_body. rewrite exec_get.
    rewrite (bind_run _ _ _ _ _ (enqueue_write_run p s w msg Hroom)). unfold queued.
    destruct (bool_decide (write_queue_ s = [])); cbn [when].
    + rewrite exec_upd. set (t := set_field _ _ _).
      destruct (do_write_queue_run p t w (proj2 Hroom)) as (w' & Hw & Hd & Hh & Hj). exists w'.
      split; [exact Hw |]. split; [done |]. split; [| done]. rewrite Hh, next_write_keeps; [done |].
      intros E. change (write_queue_ s ++ [msg] = []) in E. by destruct (write_queue_ s).
    + eexists. split; [reflexivity |]. by repeat split.
  - destruct Hrun as (w' & Hw & Hr). exists w'. split; [by apply (run_put _ p s) | done].
Qed.

(** One more message pending for [p], and for nobody else. *)
Definition sends (p : sptr) (msg : string) (w w' : World) : Prop :=
  delivers w w' /\
  (forall q, q <> p -> w_heap w' !! q = w_heap w !! q /\
     default [] (w_jobs w' !! q) = default [] (w_jobs w !! q)) /\
  (forall s, w_heap w !! p = Some s ->
     w_heap w' !! p = Some s \/ w_heap w' !! p = Some (queued msg s)) /\
  pending w' p ≡ₚ pending w p ++ [msg].

Lemma post_write_run w p s msg :
  w_heap w !! p = Some s -> has_room w s ->
  exists w', post_write p msg w = (Ret tt, w') /\ sends p msg w w'.
Proof.
  intros Hs Hroom. unfold post_write, dispatch_strand. rewrite bind_gets.
  destruct (runs_inline p w).
  - destruct (post_write_body_run w p s msg Hs Hroom) as (w' & Hw & Hd & Hh & Hj).
    exists w'. split; [exact Hw |]. split; [done |]. split.
    { intros q Hq. rewrite Hh, Hj. by rewrite lookup_insert_ne. }
    split; [intros s' Hs'; right; rewrite Hh, lookup_insert_eq; congruence |].
    unfold pending. rewrite Hh, Hj, Hs, lookup_insert_eq, queued_queue.
    rewrite <- !(assoc_L app). by rewrite (Permutation_app_comm [msg]).
  - eexists. split; [reflexivity |]. split; [by split |]. split.
    { intros q Hq. split; [done |]. cbn. by rewrite lookup_insert_ne. }
    split; [by left |]. unfold pending. cbn. rewrite lookup_insert_eq. cbn.
    rewrite omap_app, (assoc_L app). done.
Qed.

(** ** Broadcasts *)

(** Only the sessions that satisfy [sel] get [msg]; a session keeps everything
    but its queue. *)
Definition delivered (msg : string) (sel : sptr -> bool) (w w' : World) : Prop :=
  delivers w w' /\
  (forall q, pending w' q ≡ₚ pending w q ++ (if sel q then [msg] else [])) /\
  (forall q, if sel q
             then exists s, w_heap w !! q = Some s /\
                    (w_heap w' !! q = Some s \/ w_heap w' !! q = Some (queued msg s))
             else w_heap w' !! q = w_heap w !! q).

Lemma pending_same w w' q :
  w_heap w' !! q = w_heap w !! q -> default [] (w_jobs w' !! q) = default [] (w_jobs w !! q) ->
  pending w' q = pending w q.
Proof. unfold pending. by intros -> ->. Qed.

Lemma post_to_all_run msg l w :
  NoDup l -> (forall p, p ∈ l -> exists s, w_heap w !! p = Some s /\ has_room w s) ->
  exists w', post_to_all msg l w = (Ret tt, w') /\ delivered msg (fun q => bool_decide (q ∈ l)) w w'.
Proof.
  intros Hn. revert w. induction Hn as [| p l Hp Hn IH]; intros w Hl.
  { exists w. split; [reflexivity |]. split; [done |]. split; intros q.
    - rewrite bool_decide_false by apply not_elem_of_nil. by rewrite app_nil_r.
    - by rewrite bool_decide_false by apply not_elem_of_nil. }
  destruct (Hl p) as (s & Hs & Hroom); [left |].
  destruct (post_write_run w p s msg Hs Hroom) as (w1 & Hw1 & Hd1 & Ho1 & Hp1 & Hq1).
  destruct (IH w1) as (w2 & Hw2 & Hd2 & Hq2 & Hh2).
  { intros q Hq. assert (Hne : q <> p) by (intros ->; done).
    destruct (Hl q) as (t & Ht & Hr); [by right |]. exists t.
    destruct (Ho1 q Hne) as [-> _]. split; [done |]. by apply (has_room_delivers w). }
  exists w2. split.
  { unfold post_to_all. cbn [for_each]. unfold bind. by rewrite (exec_catch_ret _ _ _ _ _ Hw1). }
  split; [by transitivity w1 |]. split; intros q; destruct (decide (q = p)) as [-> | Hne].
  - rewrite (Hq2 p), bool_decide_false, app_nil_r by done. rewrite bool_decide_true by left. exact Hq1.
  - rewrite (Hq2 q). destruct (Ho1 q Hne) as [Hh Hj]. rewrite (pending_same w w1 q Hh Hj).
    by rewrite (bool_decide_ext (q ∈ p :: l) (q ∈ l)) by set_solver.
  - rewrite bool_decide_true by left. specialize (Hh2 p). rewrite bool_decide_false in Hh2 by done.
    exists s. split; [done |]. rewrite Hh2. by apply Hp1.
  - rewrite (bool_decide_ext (q ∈ p :: l) (q ∈ l)) by set_solver.
    specialize (Hh2 q). destruct (Ho1 q Hne) as [Hh _]. by rewrite Hh in Hh2.
Qed.

(** The session is in the table and satisfies [keep]. *)
Definition selected (keep : Session -> bool) (w : World) (p : sptr) : bool :=
  bool_decide (p ∈ SessionStore.all_sessions (w_sm w)) &&
  match w_heap w !! p with Some s => keep s | None => false end.

Lemma elem_of_sessions_where keep w p : p ∈ sessions_where keep w <-> selected keep w p = true.
Proof.
  unfold sessions_where, selected. rewrite list_elem_of_In, filter_In, <- list_elem_of_In.
  rewrite andb_true_iff, bool_decide_eq_true. done.
Qed.

Lemma delivered_ext msg sel sel' w w' :
  (forall q, sel q = sel' q) -> delivered msg sel w w' -> delivered msg sel' w w'.
Proof.
  intros He (Hd & Hp & Hh). split; [done |].
  split; intros q; rewrite <- He; [apply Hp | apply Hh].
Qed.

Lemma post_where_run keep msg w :
  NoDup (SessionStore.all_sessions (w_sm w)) ->
  (forall p s, selected keep w p = true -> w_heap w !! p = Some s -> has_room w s) ->
  exists w', post_to_all msg (sessions_where keep w) w = (Ret tt, w') /\
    delivered msg (selected keep w) w w'.
Proof.
  intros Hn Hr. destruct (post_to_all_run msg (sessions_where keep w) w) as (w' & Hw & Hd).
  - apply NoDup_ListNoDup, List.NoDup_filter. by apply NoDup_ListNoDup.
  - intros p Hp. apply elem_of_sessions_where in Hp. pose proof Hp as Hsel.
    unfold selected in Hp. apply andb_true_iff in Hp as [_ Hp].
    destruct (w_heap w !! p) as [s |] eqn:Hs; [| done]. exists s. split; [done | by eapply Hr].
  - exists w'. split; [done |]. eapply delivered_ext; [| exact Hd]. intros q. cbv beta.
    rewrite (bool_decide_ext _ _ (elem_of_sessions_where keep w q)).
    by destruct (selected keep w q).
Qed.

Section broadcasts.
Context `{Platform}.

Lemma broadcast_run w msg sender :
  NoDup (SessionStore.all_sessions (w_sm w)) ->
  (forall p s, p ∈ SessionStore.all_sessions (w_sm w) -> w_heap w !! p = Some s -> has_room w s) ->
  exists w', broadcast msg sender w = (Ret tt, w') /\
     delivered msg (selected (is_recipient sender) w) w w'.
Proof.
  intros Hn Hr. apply post_where_run; [done |]. intros p s Hp. apply Hr. unfold selected in Hp.
  apply andb_true_iff in Hp as [Hp _]. by apply bool_decide_eq_true in Hp.
Qed.

End broadcasts.

(** ** A full queue *)

(** The limit of consecutive overflows. *)
Definition overflow_limit (c : gmap string Z) : Z :=
  u64 (config_value c "write_queue_overflow_limit" 10).

Lemma enqueue_overflow_run p s w msg :
  2 <= max_write_queue (w_config w) <= len (write_queue_ s) ->
  write_queue_overflow_count_ s + 1 < overflow_limit (w_config w) ->
  enqueue_write p msg (put p s w) =
    (Ret tt, put p (push_write msg (s <| write_queue_ ::= tail |>
                                      <| write_queue_overflow_count_ ::= Z.succ |>)) w).
Proof.
  intros [Hm Hfull] Hc. unfold enqueue_write, config_size. rewrite !bind_gets, exec_get, put_config.
  unfold overflow_limit in Hc. unfold max_write_queue in Hm, Hfull.
  rewrite (proj2 (Z.leb_gt _ 0)) by lia. rewrite andb_false_r, exec_with_session.
  unfold enqueue_overflow. rewrite (proj2 (Z.leb_le _ _)) by lia. cbn [fst snd].
  rewrite (proj2 (Z.leb_gt _ _)); [apply exec_upd_last |].
  change (Z.succ (write_queue_overflow_count_ s) < u64 (config_value (w_config w) "write_queue_overflow_limit" 10)).
  lia.
Qed.

(** C30. Overflow policy: when a message arrives for a full queue whose first
    message [m0] is being written, [m0] is dropped from the queue although it is
    already on the wire; the completion of its write then pops [m1], which has
    not been sent, and writes [m2].  So [m1] is lost: the client receives [m0]
    and then [m2]. *)
Theorem overflow_skips_unsent w p s msg m0 m1 m2 rest conn :
  w_heap w !! p = Some s -> socket_ s = Some conn -> state_ s <> Closed ->
  write_queue_ s = m0 :: m1 :: m2 :: rest ->
  2 <= max_write_queue (w_config w) <= len (write_queue_ s) ->
  write_queue_overflow_count_ s + 1 < overflow_limit (w_config w) -> prompt w ->
  exists w1 w2,
    post_write_body p msg w = (Ret tt, w1) /\ w_out w1 = w_out w /\
    on_write_complete p (generation_ s) true w1 = (Ret tt, w2) /\
    w_out w2 = w_out w ++ [OTcp conn (frame (String.list_byte_of_string m2))] /\
    (exists t, w_heap w2 !! p = Some t /\ write_queue_ t = m2 :: rest ++ [msg]).
Proof.
  intros Hs Hsock Hst Hq Hfull Hc Hslow.
  set (s1 := push_write msg (s <| write_queue_ ::= tail |> <| write_queue_overflow_count_ ::= Z.succ |>)).
  assert (Hq1 : write_queue_ s1 = m1 :: m2 :: rest ++ [msg])
    by (unfold s1; cbn; by rewrite Hq).
  exists (put p s1 w). eexists. split.
  { apply (run_put _ p s); [done |]. unfold post_write_body.
    rewrite exec_get, Hq, (bind_run _ _ _ _ _ (enqueue_overflow_run p s w msg Hfull Hc)).
    by rewrite bool_decide_false. }
  split; [done |].
  assert (Hsock2 : socket_ (s1 <| write_queue_ ::= tail |>) = Some conn) by exact Hsock.
  assert (Hnext : next_write (s1 <| write_queue_ ::= tail |>) =
                  (Some (m2, generation_ s), s1 <| write_queue_ ::= tail |>)).
  { unfold next_write. rewrite decide_False by done. cbn [write_queue_ set_field]. by rewrite Hq1. }
  split.
  { unfold on_write_complete. rewrite exec_get, decide_False by (intros Hn; by apply Hn). cbn [negb].
    rewrite exec_with_session. unfold pop_write. cbn [fst snd]. rewrite Hq1, bool_decide_false by done.
    unfold do_write_queue. rewrite exec_with_session, Hnext. cbn [fst snd]. unfold start_op.
    rewrite bind_modify.
    change ((put p ?t w) <| w_ops ::= ?f |>) with (put p t (w <| w_ops ::= f |>)).
    rewrite exec_get, Hsock2, send_prefixed_prompt by exact Hslow. reflexivity. }
  split; [done |]. eexists. split; [apply lookup_insert_eq |].
  cbn [write_queue_ set_field]. by rewrite Hq1.
Qed.

(** ** A slow socket

    A message for an idle session whose socket has no room for the prefix: the
    write is started with a buffer that is gone when it is read. *)
Lemma slow_socket_undefined w p s msg conn :
  w_heap w !! p = Some s -> socket_ s = Some conn -> state_ s <> Closed -> write_queue_ s = [] ->
  0 < max_write_queue (w_config w) -> p ∈ w_slow w ->
  outcome (post_write_body p msg) w = UB.
Proof.
  intros Hs Hsock Hst Hq Hmax Hslow. rewrite <- (put_same p s w Hs). unfold outcome, post_write_body.
  rewrite exec_get, Hq, bool_decide_true by done. unfold enqueue_write, config_size.
  rewrite !bind_assoc, bind_gets, bind_assoc, bind_gets, bind_assoc, exec_get, Hq, put_config.
  unfold max_write_queue in Hmax. rewrite (proj2 (Z.leb_gt _ 0)) by lia. rewrite andb_false_r, bind_assoc, exec_with_session.
  unfold enqueue_overflow. rewrite Hq, (proj2 (Z.leb_gt _ _)) by (by rewrite len_nil). cbn [fst snd when].
  rewrite exec_upd, exec_upd. unfold do_write_queue. rewrite exec_with_session.
  set (t := set_field _ _ _). unfold next_write. rewrite decide_False by exact Hst.
  assert (Ht : write_queue_ t = [msg]) by (unfold t; cbn; by rewrite Hq). rewrite Ht. cbn [fst snd].
  unfold start_op. rewrite bind_modify. change ((put p ?a w) <| w_ops ::= ?f |>) with (put p a (w <| w_ops ::= f |>)).
  rewrite exec_get. change (socket_ t) with (socket_ s). rewrite Hsock. unfold send_prefixed. rewrite bind_gets.
  by rewrite bool_decide_true by exact Hslow.
Qed.

(** *** Witnesses *)

Lemma demo_sessions_distinct :
  NoDup (SessionStore.all_sessions (w_sm (s_world demo_served))).
Proof. apply (bool_decide_unpack _). vm_compute. reflexivity. Qed.

Lemma demo_room p s :
  p ∈ SessionStore.all_sessions (w_sm (s_world demo_served)) ->
  w_heap (s_world demo_served) !! p = Some s -> has_room (s_world demo_served) s.
Proof.
  intros Hp. assert (Hd : p = 0%nat \/ p = 1%nat).
  { assert (Ha : SessionStore.all_sessions (w_sm (s_world demo_served)) = [0%nat; 1%nat])
      by (vm_compute; reflexivity).
    rewrite Ha in Hp. clear -Hp. by apply elem_of_cons in Hp as [-> | ->%list_elem_of_singleton]; [left | right]. }
  intros Hs. split; [| reflexivity].
  assert (Hl : exists n, option_map (fun t => len (write_queue_ t)) (w_heap (s_world demo_served) !! p) = Some n /\
                         (n <? max_write_queue (w_config (s_world demo_served))) = true).
  { destruct Hd as [-> | ->]; eexists; (split; [vm_compute; reflexivity |]); vm_compute; reflexivity. }
  destruct Hl as (n & Hn & Hlt). rewrite Hs in Hn. cbn [option_map] in Hn.
  assert (Heq : len (write_queue_ s) = n) by congruence. rewrite Heq. by apply (proj1 (Z.ltb_lt _ _)).
Qed.


Definition overflow_session : Session :=
  (new_session 1) <| socket_ := Some 7 |> <| state_ := Ready |>
    <| write_queue_ := ["m0"; "m1"; "m2"]%string |>.

Definition overflow_world : World :=
  (SessionStore.demo_world {[ 0%nat := overflow_session ]} (SessionStore.new_manager 4))
    <| w_config := {[ "max_write_queue_size"%string := 3 ]} |>.

Lemma overflow_skips_unsent_witness :
  exists w1 w2, post_write_body 0 "m3" overflow_world = (Ret tt, w1) /\
    on_write_complete 0 0 true w1 = (Ret tt, w2) /\
    w_out w2 = [OTcp 7 (frame (String.list_byte_of_string "m2"))].
Proof.
  destruct (overflow_skips_unsent overflow_world 0 overflow_session "m3" "m0" "m1" "m2" [] 7)
    as (w1 & w2 & H1 & _ & H2 & H3 & _).
  - vm_compute. reflexivity.
  - reflexivity.
  - discriminate.
  - reflexivity.
  - vm_compute. split; discriminate.
  - vm_compute. reflexivity.
  - reflexivity.
  - exists w1, w2. split; [exact H1 |]. split; [exact H2 | exact H3].
Defined.
