(* ===== verification/SweepSpec.v ===== *)
(** * The periodic sweeps and the limit of unauthenticated sessions

    [do_keepalive_check], [cleanup_inactive_sessions] and
    [cleanup_unauth_sessions] close exactly the sessions they mean to. *)
From Stdlib Require Import ZArith Lia Sorting.Sorted.
From stdpp Require Import base gmap sets list strings sorting.
From S2P Require Import Prelude MessageBuffer RateLimit Json Session World.
From S2P Require Import SessionPool Zones Invariant.
From S2P Require SessionStore.
From S2P Require Import Lifecycle SessionManager DataHandler Server System Exec PoolSpec CloseSpec WriteSpec.

Open Scope Z_scope.

(** Every session of the table is in use, under its own id. *)
Definition managed (w : World) : Prop :=
  SessionStore.wf_manager (w_sm w) /\
  forall k p, SessionStore.table (w_sm w) !! k = Some p ->
    exists i s, in_use w p i s /\ session_id_ s = k.

(** The sessions of [gone] have been closed, and nothing else. *)
Definition swept (gone : sptr -> bool) (w w' : World) : Prop :=
  untouched w w' /\ SessionStore.wf_manager (w_sm w') /\
  (forall p, if gone p then exists s t, w_heap w !! p = Some s /\ w_heap w' !! p = Some t /\
                              vacated t /\ session_id_ t = session_id_ s /\
                              generation_ t = generation_ s + 2
             else w_heap w' !! p = w_heap w !! p) /\
  (forall k, SessionStore.table (w_sm w') !! k =
     match SessionStore.table (w_sm w) !! k with
     | Some p => if gone p then None else Some p
     | None => None
     end).

Lemma in_use_other w w' p q i j s t u :
  in_use w p i s -> in_use w q j t -> q <> p ->
  untouched w w' -> SessionStore.wf_manager (w_sm w') -> w_heap w' = <[p := u]> (w_heap w) ->
  (forall k, SessionStore.table (w_sm w') !! k =
             delete (session_id_ s) (SessionStore.table (w_sm w)) !! k) ->
  w_pool w' = give_back i (w_pool w) -> in_use w' q j t.
Proof.
  intros Hp Hq Hne Hun Hwf Hh Ht Hpool.
  assert (Hid : session_id_ t <> session_id_ s).
  { intros He. pose proof (use_table _ _ _ _ Hp) as H1. pose proof (use_table _ _ _ _ Hq) as H2.
    rewrite He in H2. congruence. }
  assert (Hij : j <> i).
  { intros ->. pose proof (use_index _ _ _ _ Hp). pose proof (use_index _ _ _ _ Hq). congruence. }
  destruct Hq, Hun. split; try done.
  - by rewrite Hh, lookup_insert_ne.
  - congruence.
  - by rewrite Ht, lookup_delete_ne.
  - congruence.
  - by rewrite Hpool.
  - by rewrite Hpool.
  - rewrite Hpool. cbn. set_solver.
Qed.

Lemma close_all_run l w :
  NoDup l -> managed w -> (forall p, p ∈ l -> exists k, SessionStore.table (w_sm w) !! k = Some p) ->
  exists w', for_each l close_session w = (Ret tt, w') /\ managed w' /\
    swept (fun p => bool_decide (p ∈ l)) w w'.
Proof.
  intros Hn. revert w. induction Hn as [| p l Hp Hn IH]; intros w Hm Hl.
  { exists w. split; [reflexivity |]. split; [done |]. split; [done |]. split; [apply Hm |]. split.
    - intros p. by rewrite bool_decide_false by apply not_elem_of_nil.
    - intros k. by destruct (_ !! k). }
  destruct Hm as [Hwf Hm]. destruct (Hl p) as [k Hk]; [left |].
  destruct (Hm k p Hk) as (i & s & Hu & Hid).
  destruct (close_session_core w p i s Hu) as (w1 & t & Hrun & Hh & Hv & Ht & Hg & Hwf1 & Htab & Hpool & Hun).
  assert (Htab' : forall j q, SessionStore.table (w_sm w1) !! j = Some q ->
            SessionStore.table (w_sm w) !! j = Some q /\ q <> p /\ j <> k).
  { intros j q Hj. rewrite Htab in Hj. apply lookup_delete_Some in Hj as [Hne Hj].
    split; [done |]. rewrite Hid in Hne. split; [| done]. intros ->. destruct (Hm j p Hj) as (i' & s' & Hu' & Hid').
    pose proof (use_heap _ _ _ _ Hu). pose proof (use_heap _ _ _ _ Hu'). congruence. }
  destruct (IH w1) as (w' & Hrun' & Hm' & Hun' & Hwf' & Hheap' & Htable').
  { split; [done |]. intros j q Hj. destruct (Htab' j q Hj) as (Hj' & Hne & _).
    destruct (Hm j q Hj') as (i' & s' & Hu' & Hid'). exists i', s'. split; [| done].
    by apply (in_use_other w w1 p q i i' s s' t). }
  { intros q Hq. destruct (Hl q) as [j Hj]; [by right |]. exists j. rewrite Htab, Hid.
    rewrite lookup_delete_ne; [done |]. intros <-. congruence. }
  exists w'. split; [cbn [for_each]; unfold bind; by rewrite Hrun |]. split; [done |].
  split; [by transitivity w1 |]. split; [done |]. split.
  - intros q. specialize (Hheap' q). destruct (decide (q = p)) as [-> | Hne].
    + rewrite bool_decide_true by left. rewrite bool_decide_false in Hheap' by done.
      exists s, t. split; [apply Hu |]. split; [| done]. by rewrite Hheap', Hh, lookup_insert_eq.
    + rewrite (bool_decide_ext (q ∈ p :: l) (q ∈ l)) by set_solver.
      by rewrite Hh, lookup_insert_ne in Hheap'.
  - intros j. rewrite Htable', Htab, Hid. destruct (decide (j = k)) as [-> | Hne].
    + rewrite lookup_delete_eq, Hk. by rewrite bool_decide_true by left.
    + rewrite lookup_delete_ne by done. destruct (SessionStore.table (w_sm w) !! j) as [q |] eqn:Hj; [| done].
      assert (Hqp : q <> p).
      { intros ->. destruct (Hm j p Hj) as (i' & s' & Hu' & Hid').
        pose proof (use_heap _ _ _ _ Hu). pose proof (use_heap _ _ _ _ Hu'). congruence. }
      by rewrite (bool_decide_ext (q ∈ p :: l) (q ∈ l)) by set_solver.
Qed.

(** ** Sessions of a managed table *)

Lemma managed_injective w k k' p :
  managed w -> SessionStore.table (w_sm w) !! k = Some p ->
  SessionStore.table (w_sm w) !! k' = Some p -> k = k'.
Proof.
  intros [_ Hm] H1 H2. destruct (Hm k p H1) as (i & s & Hu & <-). destruct (Hm k' p H2) as (j & t & Hv & <-).
  pose proof (use_heap _ _ _ _ Hu). pose proof (use_heap _ _ _ _ Hv). congruence.
Qed.

Lemma NoDup_values (m : gmap Z sptr) :
  (forall k k' p, m !! k = Some p -> m !! k' = Some p -> k = k') -> NoDup (map_to_list m).*2.
Proof.
  intros Hi. apply NoDup_fmap_2_strong; [| apply NoDup_map_to_list].
  intros [k p] [k' p'] H1 H2 He. apply elem_of_map_to_list in H1, H2. cbn in He. subst p'.
  by rewrite (Hi k k' p).
Qed.

Lemma managed_distinct w : managed w -> NoDup (SessionStore.all_sessions (w_sm w)).
Proof.
  intros Hm. rewrite (SessionStore.all_sessions_table _ (proj1 Hm)). apply NoDup_values.
  intros k k' p. by apply managed_injective.
Qed.

Lemma selected_in_table keep w p :
  managed w -> p ∈ sessions_where keep w -> exists k, SessionStore.table (w_sm w) !! k = Some p.
Proof.
  intros [Hwf _] Hp. apply elem_of_sessions_where in Hp. unfold selected in Hp.
  apply andb_true_iff in Hp as [Hp _]. apply bool_decide_eq_true in Hp.
  by apply SessionStore.elem_of_all_sessions in Hp.
Qed.

Lemma distinct_where keep w : managed w -> NoDup (sessions_where keep w).
Proof.
  intros Hm. apply NoDup_ListNoDup, List.NoDup_filter, NoDup_ListNoDup. by apply managed_distinct.
Qed.

Lemma swept_ext gone gone' w w' :
  (forall p, gone p = gone' p) -> swept gone w w' -> swept gone' w w'.
Proof.
  intros He (H1 & H2 & H3 & H4). split; [done |]. split; [done |]. split.
  - intros p. specialize (H3 p). by rewrite He in H3.
  - intros k. rewrite H4. destruct (_ !! k); [by rewrite He | done].
Qed.

Lemma close_where_run keep w :
  managed w ->
  exists w', for_each (sessions_where keep w) close_session w = (Ret tt, w') /\ managed w' /\
    swept (selected keep w) w w'.
Proof.
  intros Hm. destruct (close_all_run (sessions_where keep w) w) as (w' & Hrun & Hm' & Hs).
  - by apply distinct_where.
  - done.
  - intros p. by apply selected_in_table.
  - exists w'. split; [done |]. split; [done |]. eapply swept_ext; [| exact Hs]. intros p. cbv beta.
    rewrite (bool_decide_ext _ _ (elem_of_sessions_where keep w p)). by destruct (selected keep w p).
Qed.

(** ** Properties *)

Section sweeps.
Context `{Platform}.

(** C26. The periodic sweeps close exactly the timed-out sessions: on a table
    whose sessions are all in use, [do_keepalive_check] closes the logged-in
    sessions silent for more than 60 seconds, [cleanup_inactive_sessions] those
    idle for more than the given time, and nothing else: every other session
    and every other entry of the table is untouched, and the table is again one
    of sessions in use. *)
Theorem sweeps_exact w max_idle :
  managed w ->
  (exists w', do_keepalive_check w = (Ret tt, w') /\ managed w' /\
     swept (selected (fun s => nickname_registered_ s && (60000000000 <? w_now w - last_alive_time_ s)) w) w w') /\
  (exists w', cleanup_inactive_sessions max_idle w = (Ret tt, w') /\ managed w' /\
     swept (selected (fun s => max_idle * 1000000000 <? w_now w - last_alive_time_ s) w) w w').
Proof.
  intros Hm. split; apply (close_where_run _ w Hm).
Qed.

Lemma oldest_first_fst w l : forall a, a ∈ merge_sort older (map (fun p => (last_alive w p, p)) l) ->
  a.1 = last_alive w a.2 /\ a.2 ∈ l.
Proof.
  intros a Ha. rewrite merge_sort_Permutation in Ha. apply list_elem_of_In, in_map_iff in Ha.
  destruct Ha as (p & <- & Hp). split; [done |]. by apply list_elem_of_In.
Qed.

#[local] Instance older_trans : Transitive older.
Proof using Type. intros a b c. unfold older. lia. Qed.

#[local] Instance older_total : Total older.
Proof using Type. intros a b. unfold older. lia. Qed.

Lemma oldest_first_split w l n p q :
  p ∈ take n (oldest_first w l) -> q ∈ drop n (oldest_first w l) ->
  last_alive w p <= last_alive w q.
Proof using Type.
  unfold oldest_first. set (m := merge_sort older _).
  assert (Hs : StronglySorted older m) by apply (StronglySorted_merge_sort older).
  change (m.*2) with (snd <$> m). rewrite <- fmap_take, <- fmap_drop. intros Hp Hq.
  apply list_elem_of_fmap in Hp as (a & -> & Ha). apply list_elem_of_fmap in Hq as (b & -> & Hb).
  assert (Hin : a ∈ m /\ b ∈ m).
  { split; rewrite <- (take_drop n m); apply elem_of_app; auto. }
  destruct Hin as [Ha' Hb'].
  destruct (oldest_first_fst w l a Ha') as [<- _]. destruct (oldest_first_fst w l b Hb') as [<- _].
  rewrite <- (take_drop n m) in Hs. by apply (StronglySorted_app_1_elem_of _ _ _ _ _ Hs Ha Hb).
Qed.

(** From [w] to [w'] the [victims] were closed and nothing else: the excess of
    waiting sessions over [n], and each of them silent at least as long as each
    one that waits on. *)
Record excess_closed (n : Z) (w w' : World) (victims : list sptr) : Prop := {
  excess_managed : managed w';
  excess_swept : swept (fun p => bool_decide (p ∈ victims)) w w';
  excess_number : len victims = Z.max 0 (len (sessions_where unauthenticated w) - n);
  excess_distinct : NoDup victims;
  excess_waiting : forall p, p ∈ victims -> p ∈ sessions_where unauthenticated w;
  excess_oldest : forall p q, p ∈ victims -> q ∈ sessions_where unauthenticated w -> q ∉ victims ->
    last_alive w p <= last_alive w q;
  excess_left : len (sessions_where unauthenticated w') = Z.min n (len (sessions_where unauthenticated w))
}.

(** The sessions of a sweep's table that satisfy [keep] are those it had and
    has not closed. *)
Lemma swept_where keep (victims : list sptr) w w' p :
  managed w -> swept (fun p => bool_decide (p ∈ victims)) w w' ->
  p ∈ sessions_where keep w' <-> p ∈ sessions_where keep w /\ p ∉ victims.
Proof using Type.
  intros [Hwf _] (_ & Hwf' & Hh & Ht). rewrite !elem_of_sessions_where. unfold selected.
  rewrite !andb_true_iff, !bool_decide_eq_true, !SessionStore.elem_of_all_sessions by done.
  split.
  - intros [[k Hk] Hkeep]. rewrite Ht in Hk. destruct (SessionStore.table (w_sm w) !! k) as [q |] eqn:E; [| done].
    case_bool_decide as Hq; [done |]. injection Hk as ->. specialize (Hh p). rewrite bool_decide_false in Hh by done.
    rewrite Hh in Hkeep. eauto.
  - intros [[[k Hk] Hkeep] Hp]. specialize (Hh p). rewrite bool_decide_false in Hh by done. rewrite Hh.
    split; [| done]. exists k. by rewrite Ht, Hk, bool_decide_false.
Qed.

Lemma swept_count keep (victims : list sptr) w w' :
  managed w -> managed w' -> swept (fun p => bool_decide (p ∈ victims)) w w' -> NoDup victims ->
  (forall p, p ∈ victims -> p ∈ sessions_where keep w) ->
  len (sessions_where keep w) = len victims + len (sessions_where keep w').
Proof using Type.
  intros Hm Hm' Hs Hn Hsub. assert (Hp : sessions_where keep w ≡ₚ victims ++ sessions_where keep w').
  { apply NoDup_Permutation; [by apply distinct_where | |].
    - apply NoDup_app. split; [done |]. split; [| by apply distinct_where].
      intros p Hp Hin. by apply (swept_where keep victims w w' p Hm Hs) in Hin as [_ ?].
    - intros p. rewrite elem_of_app, (swept_where keep victims w w' p Hm Hs).
      destruct (decide (p ∈ victims)); naive_solver. }
  unfold len. rewrite (Permutation_length Hp), length_app. lia.
Qed.

Lemma cleanup_unauth_run w n :
  managed w -> 0 <= n ->
  exists w' victims, cleanup_unauth_sessions n w = (Ret tt, w') /\ excess_closed n w w' victims.
Proof using Type.
  intros Hm Hn. set (waiting := sessions_where unauthenticated w).
  enough (exists w' victims, cleanup_unauth_sessions n w = (Ret tt, w') /\ managed w' /\
    swept (fun p => bool_decide (p ∈ victims)) w w' /\
    len victims = Z.max 0 (len waiting - n) /\ NoDup victims /\
    (forall p, p ∈ victims -> p ∈ waiting) /\
    (forall p q, p ∈ victims -> q ∈ waiting -> q ∉ victims -> last_alive w p <= last_alive w q))
    as (w' & v & Hrun & Hm' & Hs & Hl & Hd & Hsub & Hold).
  { exists w', v. split; [done |]. split; try done.
    pose proof (swept_count unauthenticated v w w' Hm Hm' Hs Hd Hsub) as Hc. fold waiting in Hc |- *. lia. }
  unfold cleanup_unauth_sessions. rewrite bind_gets. fold waiting.
  destruct (Z.ltb_spec n (len waiting)) as [Hlt | Hle].
  - rewrite bind_gets. set (k := Z.to_nat (len waiting - n)).
    set (sorted := oldest_first w waiting). assert (Hperm : sorted ≡ₚ waiting).
    { unfold sorted, oldest_first. rewrite merge_sort_Permutation, <- list_fmap_compose.
      apply reflexive_eq, list_fmap_id. }
    assert (Hdist : NoDup sorted) by (rewrite Hperm; by apply distinct_where).
    assert (Hsub : forall p, p ∈ take k sorted -> p ∈ waiting).
    { intros p Hp. rewrite <- Hperm, <- (take_drop k sorted). apply elem_of_app. by left. }
    destruct (close_all_run (take k sorted) w) as (w' & Hrun & Hm' & Hs).
    + rewrite <- (take_drop k sorted) in Hdist. by apply NoDup_app in Hdist as (? & _).
    + done.
    + intros p Hp. by apply (selected_in_table unauthenticated), Hsub.
    + exists w', (take k sorted). split; [exact Hrun |]. split; [done |]. split; [exact Hs |].
      split.
      { unfold len at 1. rewrite length_take, (Permutation_length Hperm). unfold k, len in *. lia. }
      split; [rewrite <- (take_drop k sorted) in Hdist; by apply NoDup_app in Hdist as (? & _) |].
      split; [done |]. intros p q Hp Hq Hnq. apply (oldest_first_split w waiting k p q Hp).
      rewrite <- Hperm, <- (take_drop k sorted) in Hq. by apply elem_of_app in Hq as [? | ?].
  - exists w, []. split; [reflexivity |]. split; [done |]. split.
    { split; [done |]. split; [apply Hm |]. split.
      - intros p. by rewrite bool_decide_false by apply not_elem_of_nil.
      - intros k. by destruct (_ !! k). }
    split; [rewrite len_nil; lia |]. split; [apply NoDup_nil_2 |].
    split; intros p; intros; by destruct (not_elem_of_nil p).
Qed.

(** *** Accepting *)

(** A pool that can hand out its next session: what every reachable state has
    ([accept_ready_reachable]), with the pool and the data handler of [main] in
    place. *)
Record accept_ready (w : World) : Prop := {
  ready_linked : pool_linked w;
  ready_distinct : NoDup (pool_ (w_pool w));
  ready_index : forall i, i ∈ available_index_set_ (w_pool w) -> i ∈ reusable_indices_ (w_pool w);
  ready_once : NoDup (reusable_indices_ (w_pool w));
  ready_free : forall i p, i ∈ reusable_indices_ (w_pool w) -> i ∉ available_index_set_ (w_pool w) ->
    pool_ (w_pool w) !! i = Some p -> p ∉ SessionStore.all_sessions (w_sm w);
  ready_fresh : w_heap w !! w_next w = None;
  ready_handler : w_handler_alive w = true;
  ready_pool_set : session_pool_set (w_dh w) = true
}.

Lemma accept_ready_reachable c hardware now s :
  2 <= max_write_queue c -> 0 <= hardware < 2 ^ 30 -> reachable c hardware now s ->
  w_handler_alive (s_world s) = true -> session_pool_set (w_dh (s_world s)) = true -> accept_ready (s_world s).
Proof using Type.
  intros Hc Hh Hs Ha Hp. destruct (reachable_bounded c hardware now Hc Hh s Hs) as (svc & D & bufs & _ & Hw).
  destruct (inv_pool _ _ _ _ _ _ _ Hw) as (H1 & H2 & H3 & H4 & H5 & H6). split; try done.
  - split; [| done]. eapply Forall_impl; [exact H2 |]. intros p. by apply elem_of_dom.
  - intros i p Hi Hni Hip Hin. destruct (H5 i Hi) as [? | Hn]; [done |]. apply (Hn p Hip).
    pose proof (inv_all_sessions _ _ _ _ _ _ _ Hw) as Hf. rewrite Forall_forall in Hf. by apply Hf.
  - by apply (inv_next_fresh c svc bufs D).
Qed.

(** The session that is handed out, and the slot of the pool it is in. *)
Lemma next_in_pool w p s :
  accept_ready w -> managed w -> next_session w = Some (p, s) ->
  (forall k, SessionStore.table (w_sm w) !! k <> Some p) /\
  exists i, pool_ (pool_taken w) !! i = Some p /\ i ∉ available_index_set_ (pool_taken w).
Proof using Type.
  intros Hr [Hwf Hm] Hn. unfold next_session, pool_taken in *.
  destruct (reusable_indices_ (w_pool w)) as [| i rest] eqn:Er.
  - destruct (u64 _ <=? _); [done |]. injection Hn as <- <-. split.
    + intros k Hk. destruct (Hm k _ Hk) as (i & t & Hu & _).
      pose proof (use_heap _ _ _ _ Hu). pose proof (ready_fresh w Hr). congruence.
    + exists (length (pool_ (w_pool w))). split; [cbn; by rewrite lookup_app_r, Nat.sub_diag by lia |].
      intros Hi. apply (ready_index w Hr) in Hi. rewrite Er in Hi. by apply elem_of_nil in Hi.
  - destruct (pool_ (w_pool w) !! i) as [q |] eqn:Ei; [| done]. cbn in Hn.
    destruct (w_heap w !! q) as [t |]; [| done]. cbn in Hn. injection Hn as -> ->. split.
    + intros k Hk. destruct (Hm k p Hk) as (j & u & Hu & _).
      assert (j = i) as -> by (eapply NoDup_lookup; [apply Hr | apply Hu | done]).
      apply (ready_free w Hr i p); [rewrite Er; by left | apply Hu | done |].
      apply SessionStore.elem_of_all_sessions; [done |]. by exists k.
    + exists i. split; [done |]. cbn. set_solver.
Qed.

Lemma pool_taken_slots w i q :
  pool_ (w_pool w) !! i = Some q -> i ∉ available_index_set_ (w_pool w) ->
  pool_ (pool_taken w) !! i = Some q /\ i ∉ available_index_set_ (pool_taken w).
Proof using Type.
  unfold pool_taken. intros Hi Ha. destruct (reusable_indices_ _).
  - destruct (_ <=? _); [done |]. split; [| done]. cbn. rewrite lookup_app_l; [done |]. by eapply lookup_lt_Some.
  - split; [done |]. cbn. set_solver.
Qed.

Lemma pool_taken_distinct w : accept_ready w -> NoDup (pool_ (pool_taken w)).
Proof using Type.
  intros Hr. unfold pool_taken. pose proof (ready_distinct w Hr) as Hd. destruct (reusable_indices_ _); [| done].
  destruct (_ <=? _); [done |]. apply NoDup_app. split; [done |]. split; [| apply NoDup_singleton].
  intros q Hq ->%list_elem_of_singleton. pose proof (proj1 (ready_linked w Hr)) as Hl. rewrite Forall_forall in Hl.
  destruct (Hl _ Hq) as [t Ht]. pose proof (ready_fresh w Hr). congruence.
Qed.

(** The world in which the new session [p] has entered the table. *)
Definition listed (w w2 : World) (p : sptr) (s : Session) : Prop :=
  w_heap w2 = <[p := s]> (w_heap w) /\
  forall k, SessionStore.table (w_sm w2) !! k = <[session_id_ s := p]> (SessionStore.table (w_sm w)) !! k.

Lemma add_session_new w p s :
  SessionStore.wf_manager (w_sm w) -> w_heap w !! p = Some s ->
  SessionStore.table (w_sm w) !! session_id_ s = None ->
  exists b, session_buckets_ (w_sm w) !! Z.to_nat (SessionStore.get_shard (shard_count_ (w_sm w)) (session_id_ s)) = Some b /\
    add_session p w = (Ret tt, w <| w_sm ::= SessionStore.set_bucket (session_id_ s) (<[session_id_ s := p]> b) |>).
Proof using Type.
  intros Hwf Hs Ht. destruct (SessionStore.bucket_exists (w_sm w) (session_id_ s) Hwf) as [b Hb].
  exists b. split; [done |]. unfold add_session. rewrite (bind_get p _ _ w s Hs).
  unfold SessionStore.with_bucket. unfold mbind at 1, M_bind at 1, bind at 1. rewrite Hb.
  rewrite (SessionStore.table_lookup _ _ b Hwf Hb) in Ht. rewrite Ht.
  set (w1 := set_field w_sm _ w). assert (Hs1 : w_heap w1 !! p = Some s) by exact Hs.
  by rewrite (bind_get p _ _ w1 s Hs1).
Qed.

(** The accept, up to the limit: the new session is in use, and so are the
    others. *)
Lemma listed_managed w socket id p s :
  accept_ready w -> managed w -> next_session w = Some (p, s) ->
  SessionStore.table (w_sm w) !! id = None ->
  exists w2, add_session p (acquired socket id w) = (Ret tt, w2) /\ managed w2 /\
    listed w w2 p (handed_out (w_now w) socket id s).
Proof using Type.
  intros Hr Hm Hn Ht. set (t := handed_out (w_now w) socket id s).
  assert (Hacq : acquired socket id w =
    w <| w_heap ::= <[p := t]> |>
      <| w_next := match reusable_indices_ (w_pool w) with [] => S (w_next w) | _ => w_next w end |>
      <| w_pool := pool_taken w |>) by (unfold acquired; by rewrite Hn).
  rewrite Hacq. set (w1 := set_field w_pool _ _).
  destruct (add_session_new w1 p t (proj1 Hm) (lookup_insert_eq _ _ _) Ht) as (b & Hb & Hrun).
  change (session_id_ t) with id in *. change (w_sm w1) with (w_sm w) in Hb.
  assert (Hk : forall k, k <> id -> <[id := p]> b !! k = b !! k)
    by (intros k Hk; by apply lookup_insert_ne).
  pose proof (SessionStore.set_bucket_wf (w_sm w) id b _ (proj1 Hm) Hb Hk) as Hwf2.
  assert (Htab : forall k, SessionStore.table (SessionStore.set_bucket id (<[id := p]> b) (w_sm w)) !! k
    = <[id := p]> (SessionStore.table (w_sm w)) !! k).
  { intros k. rewrite (SessionStore.set_bucket_table _ _ b) by (done || apply Hm).
    destruct (decide (k = id)) as [-> | Hne]; [by rewrite !lookup_insert_eq | by rewrite lookup_insert_ne]. }
  destruct (next_in_pool w p s Hr Hm Hn) as (Hnot & i & Hi & Ha).
  eexists. split; [exact Hrun |]. split; [split; [exact Hwf2 |] | split; [done | exact Htab]].
  intros k q Hkq. cbn [w_sm set_field] in Hkq. change (w_sm w1) with (w_sm w) in Hkq. rewrite Htab in Hkq.
  apply lookup_insert_Some in Hkq as [[<- <-] | [Hne Hkq]].
  - exists i, t. split; [| done]. split; try done.
    + by apply lookup_insert_eq.
    + by left.
    + apply Hr.
    + change (SessionStore.table (SessionStore.set_bucket id (<[id := p]> b) (w_sm w)) !! id = Some p).
      by rewrite Htab, lookup_insert_eq.
    + apply Hr.
    + by apply pool_taken_distinct.
  - destruct (proj2 Hm k q Hkq) as (j & u & Hu & Hid). exists j, u. split; [| done].
    assert (Hqp : q <> p) by (intros ->; by apply (Hnot k)).
    destruct (pool_taken_slots w j q (use_index _ _ _ _ Hu) (use_taken _ _ _ _ Hu)) as [Hj Hja].
    destruct Hu. split; try done.
    + cbn. by rewrite lookup_insert_ne.
    + change (SessionStore.table (SessionStore.set_bucket id (<[id := p]> b) (w_sm w)) !! session_id_ u = Some q).
      rewrite Htab, Hid. by rewrite lookup_insert_ne.
    + by apply pool_taken_distinct.
Qed.

End sweeps.

(** *** Witnesses: both clients of the run are in the table *)

Definition demo_second : Session :=
  default (new_session 0) (w_heap (s_world demo_served) !! 1%nat).

Lemma demo_in_use_second : in_use (s_world demo_served) 1 1 demo_second.
Proof.
  split.
  - vm_compute. reflexivity.
  - left. vm_compute. reflexivity.
  - vm_compute. reflexivity.
  - apply demo_wf.
  - vm_compute. reflexivity.
  - vm_compute. reflexivity.
  - apply (bool_decide_unpack _). vm_compute. reflexivity.
  - vm_compute. reflexivity.
  - apply (bool_decide_unpack _). vm_compute. reflexivity.
Qed.

Lemma demo_managed : managed (s_world demo_served).
Proof.
  split; [apply demo_wf |]. intros k p Hk.
  assert (Hl : (k, p) ∈ map_to_list (SessionStore.table (w_sm (s_world demo_served))))
    by by apply elem_of_map_to_list.
  assert (Ht : map_to_list (SessionStore.table (w_sm (s_world demo_served))) = [(1, 1%nat); (0, 0%nat)])
    by (vm_compute; reflexivity).
  rewrite Ht in Hl. clear Ht Hk. apply elem_of_cons in Hl as [Hl | Hl].
  - assert (k = 1 /\ p = 1%nat) as [-> ->] by by split; congruence.
    exists 1%nat, demo_second. split; [apply demo_in_use_second | vm_compute; reflexivity].
  - apply list_elem_of_singleton in Hl. assert (k = 0 /\ p = 0%nat) as [-> ->] by by split; congruence.
    exists 0%nat, demo_session. split; [apply demo_in_use | vm_compute; reflexivity].
Qed.

Lemma sweeps_exact_witness :
  exists w', cleanup_inactive_sessions (-1) (s_world demo_served) = (Ret tt, w') /\
    SessionStore.table (w_sm w') !! 0 = None /\ SessionStore.table (w_sm w') !! 1 = None.
Proof.
  destruct (sweeps_exact (s_world demo_served) (-1) demo_managed) as [_ (w' & Hrun & _ & _ & _ & _ & Ht)].
  exists w'. split; [exact Hrun |]. rewrite !Ht. vm_compute. auto.
Defined.

Lemma demo_accept_ready : accept_ready (s_world demo_served).
Proof.
  apply (accept_ready_reachable demo_config 4 1 demo_served demo_queue demo_cores demo_reachable);
    vm_compute; reflexivity.
Qed.

Lemma demo_next_session : next_session (s_world demo_served) = Some (2%nat, new_session 1001).
Proof. vm_compute. reflexivity. Qed.


(** Of 103 clients that connect and say nothing the first three are closed. *)
Definition demo_crowd : option Sys :=
  run_events (concat (repeat [EvTick 1; EvAccept (Some 9)] 103)) demo_start.

Example unauth_limit_crowd :
  (fun s => (len (sessions_where unauthenticated (s_world s)),
             (fun id => bool_decide (is_Some (SessionStore.table (w_sm (s_world s)) !! id))) <$> [0; 1; 2; 3; 102])) <$>
  demo_crowd = Some (100, [false; false; false; true; true]).
Proof. vm_compute. reflexivity. Qed.
