(* ===== verification/UdpSpec.v ===== *)
(** * Who may send UDP messages

    The functional specification of [DataHandler::on_udp_receive]: a datagram
    that is neither a registration nor carries a valid token from the bound
    endpoint reaches no message handler; what a registration does; how long a
    token lives. *)
From Stdlib Require Import ZArith Lia.
From stdpp Require Import base gmap sets list strings.
From S2P Require Import Prelude MessageBuffer RateLimit Json Session World.
From S2P Require Import SessionPool Zones Invariant.
From S2P Require SessionStore.
From S2P Require Import Lifecycle SessionManager DataHandler LoginFlow Dispatcher UdpReceive.
From S2P Require Import System Exec CloseSpec.

Open Scope Z_scope.

(** Lifetime of a token issued at [t0] with a configured lifetime of [ttl]
    seconds: it is accepted as long as it is at most [ttl] whole seconds old,
    that is for less than [ttl + 1] seconds; the empty token never is. *)
Theorem token_lifetime s t0 ttl token now :
  0 < t0 <= now -> 0 <= ttl ->
  is_udp_token_valid now (set_udp_token t0 ttl token s) = true <->
  token <> EmptyString /\ now < t0 + (ttl + 1) * 1000000000.
Proof.
  intros Ht Httl. unfold is_udp_token_valid, set_udp_token.
  cbn [udp_token_ udp_token_issued_ udp_token_ttl_sec_ set_field].
  destruct (decide (token = EmptyString)) as [-> | Hne]; [split; [done | by intros [? _]] |].
  rewrite decide_False by lia. rewrite Z.leb_le, Z.quot_div_nonneg by lia.
  pose proof (Z.div_mod (now - t0) 1000000000 ltac:(lia)).
  pose proof (Z.mod_pos_bound (now - t0) 1000000000 ltac:(lia)).
  split; [intros Hle; split; [done | nia] | intros [_ Hlt]; nia].
Qed.

Lemma token_lifetime_witness :
  is_udp_token_valid 301000000000 (set_udp_token 1000000001 300 "ab" (new_session 0)) = true.
Proof.
  apply (token_lifetime (new_session 0) 1000000001 300 "ab" 301000000000);
    [split; [reflexivity | vm_compute; discriminate] | discriminate |].
  split; [discriminate | vm_compute; reflexivity].
Defined.

(** ** The gate *)

Definition accepted (now : Z) (s : Session) (token : string) (from : endpoint) : bool :=
  negb (bool_decide (token = EmptyString)) && bool_decide (udp_token_ s = token) &&
  is_udp_token_valid now s && bool_decide (udp_endpoint_ s = Some from).

Definition returned {A} (r : res A) : option A :=
  match r with Ret a => Some a | _ => None end.

Section gate.
Context `{Platform}.

(** The session on whose behalf a datagram is dispatched, if any. *)
Definition udp_sender (w : World) (msg : string) (from : endpoint) : option sptr :=
  j ← try_parse_json msg;
  nickname ← returned (value_str j "nickname" "");
  type ← returned (value_str j "type" "");
  token ← returned (value_str j "token" "");
  if decide (nickname = EmptyString) then None
  else
    p ← nickname_index_ (w_sm w) !! nickname;
    s ← w_heap w !! p;
    if is_register type || accepted (w_now w) s token from then Some p else None.

Lemma find_by_nickname_run w nickname :
  nickname_locked (w_sm w) = false ->
  SessionStore.find_session_by_nickname nickname w =
    (Ret (p ← nickname_index_ (w_sm w) !! nickname; s ← w_heap w !! p; Some p), w).
Proof using Type.
  intros Hl. unfold SessionStore.find_session_by_nickname, with_nickname_lock. rewrite Hl.
  rewrite bind_gets. cbn [w_sm set_field nickname_index_].
  assert (Hw : w <| w_sm ::= fun sm => sm <| nickname_locked := true |> |>
                 <| w_sm ::= fun sm => sm <| nickname_locked := false |> |> = w).
  { destruct w as [? ? ? ? ? ? ? ? ? ? ? sm]. destruct sm. cbn in *. by subst. }
  destruct (nickname_index_ (w_sm w) !! nickname) as [p |]; cbn.
  - unfold weak_lock, gets. cbn. change (w_heap (w <| w_sm ::= ?f |>)) with (w_heap w).
    by destruct (w_heap w !! p); rewrite Hw.
  - by rewrite Hw.
Qed.

(** The rate counters of the server. *)
Definition counters_only (w w1 : World) : Prop :=
  exists d, w1 = w <| w_dh := d |> /\
    udp_endpoint_to_session_ d = udp_endpoint_to_session_ (w_dh w) /\
    session_pool_set d = session_pool_set (w_dh w).

Lemma admit_packet_run tid w :
  exists ok w1, admit_packet tid w = (Ret ok, w1) /\ counters_only w w1.
Proof using Type.
  unfold admit_packet, now, config_size. rewrite !bind_gets.
  destruct (sharded_udp_rate_limit _ _ _ _) as [ok l']. unfold upd_dh. rewrite bind_modify.
  exists ok. eexists. split; [reflexivity |]. eexists. by split.
Qed.

Lemma count_packet_run w : exists w1, count_packet w = (Ret tt, w1) /\ counters_only w w1.
Proof using Type.
  unfold count_packet, now. rewrite bind_gets. eexists. split; [reflexivity |].
  eexists. split; [reflexivity |]. cbv zeta. by destruct (_ || _).
Qed.

Lemma counters_only_trans w1 w2 w3 :
  counters_only w1 w2 -> counters_only w2 w3 -> counters_only w1 w3.
Proof using Type.
  intros (d & -> & H1 & H2) (e & -> & H3 & H4). exists e. split; [done |].
  split; etransitivity; eauto.
Qed.

(** Nothing happened but counting, perhaps one answer to the sender, and
    perhaps the removal of an expired token. *)
Record inert (from : endpoint) (w w' : World) : Prop := {
  inert_sm : w_sm w' = w_sm w;
  inert_zones : w_zones w' = w_zones w;
  inert_pool : w_pool w' = w_pool w;
  inert_ops : w_ops w' = w_ops w;
  inert_jobs : w_jobs w' = w_jobs w;
  inert_bg : w_bg w' = w_bg w;
  inert_udp : udp_endpoint_to_session_ (w_dh w') = udp_endpoint_to_session_ (w_dh w);
  inert_out : w_out w' = w_out w \/ exists text, w_out w' = w_out w ++ [OUdp from text];
  inert_heap : forall q, w_heap w' !! q = w_heap w !! q \/
    exists s, w_heap w !! q = Some s /\ is_udp_token_valid (w_now w) s = false /\
              w_heap w' !! q = Some (clear_udp_token s)
}.

Lemma inert_counters from w w1 : counters_only w w1 -> inert from w w1.
Proof using Type. intros (d & -> & Hd & _). split; try done; by left. Qed.

Lemma inert_send from text w w1 :
  counters_only w w1 -> inert from w (w1 <| w_out ::= fun l => l ++ [OUdp from text] |>).
Proof using Type. intros (d & -> & Hd & _). split; try done; [by right; exists text | by left]. Qed.

Lemma value_str_cases j key d :
  (exists s, value_str j key d = Ret s) \/ value_str j key d = Exn TypeError.
Proof using Type. unfold value_str. destruct j; try (by right). destruct (obj_get key o) as [[] |]; eauto. Qed.

Lemma bind_lift_ret {A B} (r : res A) (k : A -> P B) w a :
  r = Ret a -> (lift r ≫= k) w = k a w.
Proof using Type. by intros ->. Qed.

Lemma bind_lift_exn {A B} (r : res A) (k : A -> P B) w e :
  r = Exn e -> (lift r ≫= k) w = (Exn e, w).
Proof using Type. by intros ->. Qed.

(** What becomes of a datagram that reaches no handler. *)
Inductive Refusal :=
| Silent                     (** no nickname, or one nobody has *)
| Throws                     (** a field that is no string *)
| Answers (text : string)
| Expires (p : sptr).        (** the token of [p] is too old *)

Definition invalid_json_answer : string :=
  dump (obj [("type", JStr "error"); ("msg", JStr "Invalid JSON")]%string).

(** The session has the name, the datagram is no registration. *)
Definition token_refusal (now : Z) (p : sptr) (s : Session) (token : string) : Refusal :=
  if decide (token = EmptyString) then Answers (udp_error "TOKEN_REQUIRED" "UDP token is required")
  else if decide (udp_token_ s <> token) then Answers (udp_error "INVALID_TOKEN" "Invalid UDP token")
  else if is_udp_token_valid now s
  then Answers (udp_error "ENDPOINT_MISMATCH" "Endpoint mismatch; please udp_register again")
  else Expires p.

Definition refusal (w : World) (msg : string) : Refusal :=
  match try_parse_json msg with
  | None => Answers invalid_json_answer
  | Some j =>
      match value_str j "nickname" "", value_str j "type" "", value_str j "token" "" with
      | Ret nickname, Ret _, Ret token =>
          if decide (nickname = EmptyString) then Silent
          else
            match p ← nickname_index_ (w_sm w) !! nickname; s ← w_heap w !! p; Some (p, s) with
            | None => Silent
            | Some (p, s) => token_refusal (w_now w) p s token
            end
      | _, _, _ => Throws
      end
  end.

Definition answered (from : endpoint) (text : string) (w : World) : World :=
  w <| w_out ::= fun l => l ++ [OUdp from text] |>.

Definition forget_token (p : sptr) (w : World) : World := w <| w_heap ::= alter clear_udp_token p |>.

Definition refuse (r : Refusal) (from : endpoint) (w : World) : res unit * World :=
  match r with
  | Silent => (Ret tt, w)
  | Throws => (Exn TypeError, w)
  | Answers text => (Ret tt, answered from text w)
  | Expires p =>
      (Ret tt, answered from (udp_error "UDP_TOKEN_EXPIRED" "UDP token expired, please udp_register again")
                 (forget_token p w))
  end.

Lemma refuse_inert w w1 msg from :
  counters_only w w1 -> inert from w (snd (refuse (refusal w msg) from w1)).
Proof using Type.
  intros Hc. unfold refusal.
  assert (Hsil : inert from w w1) by by apply inert_counters.
  assert (Hans : forall text, inert from w (answered from text w1)) by (intros text; by apply inert_send).
  destruct (try_parse_json msg) as [j |]; [| apply Hans].
  destruct (value_str j "nickname" "") as [nickname | |]; [| exact Hsil ..].
  destruct (value_str j "type" "") as [type | |]; [| exact Hsil ..].
  destruct (value_str j "token" "") as [token | |]; [| exact Hsil ..].
  destruct (decide (nickname = EmptyString)); [exact Hsil |].
  destruct (nickname_index_ (w_sm w) !! nickname) as [p |]; [| exact Hsil]. cbn.
  destruct (w_heap w !! p) as [s |] eqn:Hs; [| exact Hsil].
  change (inert from w (snd (refuse (token_refusal (w_now w) p s token) from w1))). unfold token_refusal.
  destruct (decide (token = _)); [apply Hans |]. destruct (decide (udp_token_ s <> token)); [apply Hans |].
  destruct (is_udp_token_valid (w_now w) s) eqn:Hv; [apply Hans |].
  destruct Hc as (d & -> & Hd & _). split; try done; [right; by eexists |]. intros q. cbn.
  destruct (decide (q = p)) as [-> | Hne]; [| left; by rewrite lookup_alter_ne].
  right. exists s. by rewrite lookup_alter_eq, Hs.
Qed.

(** A datagram of a known session that is not accepted is answered. *)
Lemma check_token_rejects p s token from w :
  w_heap w !! p = Some s -> accepted (w_now w) s token from = false ->
  (rejected ← check_token p token from;
   match rejected with Some answer => async_send_to answer from | None => mret tt end) w =
  refuse (token_refusal (w_now w) p s token) from w.
Proof using Type.
  intros Hs Ha. unfold check_token, token_refusal. rewrite bind_assoc, (bind_get _ _ _ _ s Hs).
  unfold accepted in Ha. destruct (decide (token = EmptyString)) as [-> | Hne].
  { by rewrite bool_decide_true. }
  rewrite (bool_decide_false (token = EmptyString)) in * by done. cbn [negb orb andb] in *.
  destruct (decide (udp_token_ s <> token)) as [Htok | Htok].
  { by rewrite bool_decide_false. }
  apply dec_stable in Htok. rewrite bool_decide_true in * by done. cbn [negb andb] in *.
  unfold now. rewrite bind_assoc, bind_gets, bind_assoc, (bind_get _ _ _ _ s Hs).
  destruct (is_udp_token_valid (w_now w) s) eqn:Hv; cbn [negb andb] in *.
  - rewrite bind_assoc, (bind_get _ _ _ _ s Hs). apply bool_decide_eq_false in Ha. by rewrite decide_False.
  - rewrite bind_assoc, (bind_upd _ _ _ _ s Hs). unfold refuse, forget_token, answered.
    replace (alter clear_udp_token p) with (fun m : gmap sptr Session => alter clear_udp_token p m) by done.
    assert (Hal : alter clear_udp_token p (w_heap w) = <[p := clear_udp_token s]> (w_heap w)).
    { apply map_eq. intros q. destruct (decide (q = p)) as [-> | Hq].
      - by rewrite lookup_alter_eq, Hs, lookup_insert_eq.
      - by rewrite lookup_alter_ne, lookup_insert_ne. }
    unfold set_field. cbn. by rewrite Hal.
Qed.

Lemma check_token_refuses p s token from w :
  w_heap w !! p = Some s -> accepted (w_now w) s token from = false ->
  exists answer w', check_token p token from w = (Ret (Some answer), w').
Proof using Type.
  intros Hs Ha. unfold check_token. rewrite (bind_get _ _ _ _ s Hs). unfold accepted in Ha.
  destruct (bool_decide (token = EmptyString)); cbn [negb orb andb] in *; [by eexists _, _ |].
  destruct (bool_decide (udp_token_ s = token)); cbn [negb andb] in *; [| by eexists _, _].
  unfold now. rewrite bind_gets, (bind_get _ _ _ _ s Hs).
  destruct (is_udp_token_valid (w_now w) s); cbn [negb andb] in *.
  - rewrite (bind_get _ _ _ _ s Hs). apply bool_decide_eq_false in Ha. rewrite decide_False by done.
    by eexists _, _.
  - rewrite (bind_upd _ _ _ _ s Hs). by eexists _, _.
Qed.

(** C21. The UDP gate.  A datagram that no session is accepted for (it is no
    registration of a nickname of the index, nor carries that session's current
    token, from the endpoint bound to it, within the token's lifetime) reaches no
    message handler.  Over the limit of the server it is dropped and only the
    limiter counts it; within the limit it is counted, and then exactly what
    [refusal] says happens: it is ignored, or a [TypeError] is thrown, or the
    sender gets the one answer of its case, and a token that has expired is
    removed from its session.  Nothing else changes: no table, zone, pool slot,
    strand or outstanding operation, and no session but that one. *)
Theorem udp_gate w tid msg from :
  nickname_locked (w_sm w) = false -> udp_sender w msg from = None ->
  let limited := exec (admit_packet tid) w in
  let counted := exec count_packet limited in
  (outcome (admit_packet tid) w = Ret false -> on_udp_receive tid msg from w = (Ret tt, limited)) /\
  (outcome (admit_packet tid) w = Ret true ->
   on_udp_receive tid msg from w = refuse (refusal w msg) from counted) /\
  counters_only w limited /\ counters_only w counted /\
  inert from w (exec (on_udp_receive tid msg from) w).
Proof using Type.
  intros Hl Hn limited counted. unfold counted, limited, exec.
  destruct (admit_packet_run tid w) as (ok & w1 & Hrun1 & Hc1). unfold outcome. rewrite Hrun1. cbn [fst snd].
  destruct (count_packet_run w1) as (w2 & Hrun2 & Hc2). rewrite Hrun2. cbn [snd].
  pose proof (counters_only_trans _ _ _ Hc1 Hc2) as Hc.
  assert (Hrun : on_udp_receive tid msg from w =
    if ok then refuse (refusal w msg) from w2 else (Ret tt, w1)).
  - unfold on_udp_receive. rewrite (bind_run _ _ _ _ _ Hrun1). destruct ok; cbn [negb]; [| done].
    rewrite (bind_run _ _ _ _ _ Hrun2). unfold refusal. unfold udp_sender in Hn.
    destruct (try_parse_json msg) as [j |]; cbn in Hn; [| done].
    destruct (value_str_cases j "nickname" "") as [[nickname E1] | E1];
      [| by rewrite (bind_lift_exn _ _ _ _ E1), E1].
    rewrite (bind_lift_ret _ _ _ _ E1). rewrite E1 in *. cbn in Hn.
    destruct (value_str_cases j "type" "") as [[type E2] | E2]; [| by rewrite (bind_lift_exn _ _ _ _ E2), E2].
    rewrite (bind_lift_ret _ _ _ _ E2). rewrite E2 in *. cbn in Hn.
    destruct (value_str_cases j "token" "") as [[token E3] | E3]; [| by rewrite (bind_lift_exn _ _ _ _ E3), E3].
    rewrite (bind_lift_ret _ _ _ _ E3). rewrite E3 in *. cbn in Hn.
    destruct (decide (nickname = EmptyString)); [done |].
    assert (Hsame : w_sm w2 = w_sm w /\ w_heap w2 = w_heap w /\ w_now w2 = w_now w)
      by (by destruct Hc as (d & -> & _)).
    destruct Hsame as (Esm & Eheap & Enow).
    assert (Hl2 : nickname_locked (w_sm w2) = false) by by rewrite Esm.
    pose proof (find_by_nickname_run w2 nickname Hl2) as Hrun. rewrite Esm, Eheap in Hrun.
    rewrite (bind_run _ _ _ _ _ Hrun).
    destruct (nickname_index_ (w_sm w) !! nickname) as [p |]; cbn in Hn |- *; [| done].
    destruct (w_heap w !! p) as [s |] eqn:Hs; cbn in Hn |- *; [| done].
    destruct (is_register type); cbn in Hn; [done |].
    destruct (accepted (w_now w) s token from) eqn:Ha; [done |].
    change (match Some s ≫= fun s => Some (p, s) with Some (p, s) => token_refusal (w_now w) p s token | None => Silent end)
      with (token_refusal (w_now w) p s token).
    rewrite <- Enow in Ha |- *. rewrite <- Eheap in Hs.
    rewrite <- (check_token_rejects p s token from w2 Hs Ha).
    pose proof (check_token_refuses p s token from w2 Hs Ha) as (answer & w3 & Hrun3).
    by rewrite !(bind_run _ _ _ _ _ Hrun3).
  - rewrite Hrun. split; [by intros [= ->] |]. split; [by intros [= ->] |]. split; [done |]. split; [done |].
    destruct ok; [by apply refuse_inert | by apply inert_counters].
Qed.

(** ** Registration *)

Definition set_udp_map (u : gmap endpoint sptr) (w : World) : World :=
  w <| w_dh ::= fun d => d <| udp_endpoint_to_session_ := u |> |>.

Definition udp_map (w : World) : gmap endpoint sptr := udp_endpoint_to_session_ (w_dh w).

Lemma set_udp_map_same w : set_udp_map (udp_map w) w = w.
Proof using Type. destruct w as [? ? ? ? ? ? ? ? ? ? ? ? ? dh]. by destruct dh. Qed.

Lemma erase_endpoint_map ep w : erase_endpoint ep w = set_udp_map (delete ep (udp_map w)) w.
Proof using Type. reflexivity. Qed.

Lemma evict_endpoint_run p s from w :
  exists u, evict_endpoint p from (put p s w) = (Ret tt, put p s (set_udp_map u w)) /\
    forall e, e <> from -> u !! e = udp_map w !! e.
Proof using Type.
  unfold evict_endpoint. rewrite bind_gets, put_dh. fold (udp_map w).
  assert (Hdel : forall e, e <> from -> delete from (udp_map w) !! e = udp_map w !! e)
    by (intros e He; by apply lookup_delete_ne).
  destruct (udp_map w !! from) as [q |].
  - unfold weak_lock. rewrite bind_gets. destruct (w_heap (put p s w) !! q).
    + destruct (bool_decide (q <> p)); cbn [when].
      * exists (delete from (udp_map w)). split; [reflexivity | done].
      * exists (udp_map w). by rewrite set_udp_map_same.
    + exists (delete from (udp_map w)). split; [reflexivity | done].
  - exists (udp_map w). by rewrite set_udp_map_same.
Qed.

(** Where the UDP map leads after a registration of [p] from [from]: nothing
    changes if the session says that it is bound to [from] already, even where
    the map leads to another session by now. *)
Definition rebound (p : sptr) (s : Session) (from : endpoint) (w : World) (e : endpoint) : option sptr :=
  if decide (udp_endpoint_ s = Some from) then udp_map w !! e
  else if decide (e = from) then Some p
  else if bool_decide (udp_endpoint_ s = Some e) && erasable p e w then None
  else udp_map w !! e.

(** The session and the UDP map after the endpoint has moved. *)
Lemma rebind_endpoint_run p s from w :
  exists u t, rebind_endpoint p from (put p s w) = (Ret tt, put p t (set_udp_map u w)) /\
    (t = s \/ t = set_udp_endpoint (w_now w) from s) /\ forall e, u !! e = rebound p s from w e.
Proof using Type.
  unfold rebind_endpoint, rebound. rewrite exec_get.
  destruct (decide (udp_endpoint_ s = Some from)) as [He | Hne].
  - exists (udp_map w), s. rewrite set_udp_map_same. split; [done |]. split; [by left | done].
  - assert (Hun : exists u, (match udp_endpoint_ s with
                | Some prev => erase_udp_mapping p prev | None => mret tt end) (put p s w) =
                (Ret tt, put p s (set_udp_map u w)) /\
              forall e, u !! e = if bool_decide (udp_endpoint_ s = Some e) && erasable p e w
                                 then None else udp_map w !! e).
    { destruct (udp_endpoint_ s) as [prev |].
      - rewrite erase_udp_mapping_run. destruct (erasable p prev w) eqn:Ee.
        + exists (delete prev (udp_map w)). split; [by rewrite erase_endpoint_map |]. intros e.
          destruct (decide (e = prev)) as [-> |].
          * by rewrite bool_decide_true, Ee, lookup_delete_eq.
          * rewrite bool_decide_false by congruence. by rewrite lookup_delete_ne.
        + exists (udp_map w). rewrite set_udp_map_same. split; [done |]. intros e.
          destruct (decide (e = prev)) as [-> |]; [by rewrite Ee, andb_false_r |].
          by rewrite bool_decide_false by congruence.
      - exists (udp_map w). rewrite set_udp_map_same. split; [done |]. intros e.
        by rewrite bool_decide_false. }
    destruct Hun as (u1 & Hrun1 & Hu1). rewrite (bind_run _ _ _ _ _ Hrun1).
    destruct (evict_endpoint_run p s from (set_udp_map u1 w)) as (u2 & Hrun2 & Hu2).
    rewrite (bind_run _ _ _ _ _ Hrun2). unfold upd_dh, now. rewrite bind_modify, bind_gets.
    set (u3 := <[from := p]> u2). exists u3, (set_udp_endpoint (w_now w) from s).
    split; [exact (exec_upd_last p s (set_udp_map u3 w) (set_udp_endpoint (w_now w) from)) |]. unfold u3.
    split; [by right |]. intros e. destruct (decide (e = from)) as [-> | He]; [apply lookup_insert_eq |].
    rewrite lookup_insert_ne by done. rewrite (Hu2 e He). apply Hu1.
Qed.

Lemma value_str_default j key v d :
  value_str j key "" = Ret v -> v <> EmptyString -> value_str j key d = Ret v.
Proof using Type.
  unfold value_str. intros Hv Hne. destruct j; try done.
  destruct (obj_get key o) as [[] |]; try done. by injection Hv as <-.
Qed.

Lemma register_handler_found : udp_handlers_ !! "udp_register"%string = Some Udpregister_handler.
Proof using Type.
  unfold udp_handlers_, register_udp_handler. rewrite lookup_insert_ne by done. by rewrite lookup_insert_eq.
Qed.

Definition register_ack (nickname token : string) : string :=
  dump (obj [("type", JStr "udp_register_ack");
             ("msg", JStr "UDP 인증 토큰 발급 및 endpoint registered");
             ("token", JStr token); ("nickname", JStr nickname)]%string).

(** The session after [Udpregister_handler]. *)
Definition registered (now ttl : Z) (token : string) (from : endpoint) (s : Session) : Session :=
  set_udp_token now ttl token
    (set_udp_token_ttl ttl (update_udp_alive_time now (set_udp_endpoint now from s))).

Lemma Udpregister_handler_run p s w j nickname from :
  value_str j "nickname" "" = Ret nickname -> nickname <> EmptyString ->
  let token := token_from (w_devices w) 32 in
  let ttl := config_value (w_config w) "udp_token_ttl_seconds" 300 in
  exists w', Udpregister_handler p j from (put p s w) = (Ret tt, w') /\
    w_heap w' = <[p := registered (w_now w) ttl token from s]> (w_heap w) /\
    w_dh w' = w_dh w /\ w_out w' = w_out w ++ [OUdp from (register_ack nickname token)].
Proof using Type.
  intros Hn Hne token ttl. unfold Udpregister_handler, now, config_int, generate_random_token.
  rewrite bind_gets, !exec_upd, bind_gets, exec_upd, bind_assoc, bind_gets, bind_assoc, bind_modify, bind_ret.
  set (w1 := w <| w_devices ::= S |>). rewrite !put_now, !put_config.
  set (s1 := set_udp_token_ttl _ _).
  change (w_devices (put p s1 w)) with (w_devices w).
  change ((put p s1 w) <| w_devices ::= S |>) with (put p s1 w1). rewrite exec_upd.
  rewrite (bind_lift_ret _ _ _ _ (value_str_default _ _ _ "anonymity" Hn Hne)).
  eexists. split; [reflexivity |]. by repeat split.
Qed.

(** C28. What a registration does, with whatever token field: the session of the
    named nickname is bound to the endpoint the datagram came from and gets a
    fresh token, valid from now on, which is sent to that endpoint.  If the
    session was bound to another endpoint or none, the UDP map leads from the
    new endpoint to it, and from the old one no more; if it was bound to this
    endpoint already, the map is not touched, and leads to whatever session it
    led to before ([reregistration_misses]).  No other entry and no other session
    changes.  (So whoever knows a nickname can take over its UDP identity.) *)
Theorem register_binds w tid msg j nickname token from p s :
  nickname_locked (w_sm w) = false -> outcome (admit_packet tid) w = Ret true ->
  try_parse_json msg = Some j -> value_str j "nickname" "" = Ret nickname ->
  value_str j "type" "" = Ret "udp_register"%string -> value_str j "token" "" = Ret token ->
  nickname <> EmptyString -> nickname_index_ (w_sm w) !! nickname = Some p ->
  w_heap w !! p = Some s -> fst (checkUdpRateLimit (w_now w) (bucket_ s)) = true ->
  let ttl := config_value (w_config w) "udp_token_ttl_seconds" 300 in
  let fresh := token_from (w_devices w) 32 in
  exists w', on_udp_receive tid msg from w = (Ret tt, w') /\
    w_heap w' = <[p := registered (w_now w) ttl fresh from
                         (s <| bucket_ := snd (checkUdpRateLimit (w_now w) (bucket_ s)) |>)]> (w_heap w) /\
    (forall e, udp_map w' !! e = rebound p s from w e) /\
    w_out w' = w_out w ++ [OUdp from (register_ack nickname fresh)].
Proof using Type.
  intros Hl Hadm Hj En Et Ek Hne Hp Hs Hrate ttl fresh. unfold on_udp_receive.
  destruct (admit_packet_run tid w) as (ok & w1 & Hrun1 & Hc1). unfold outcome in Hadm.
  rewrite Hrun1 in Hadm. injection Hadm as ->. rewrite (bind_run _ _ _ _ _ Hrun1). cbn [negb].
  destruct (count_packet_run w1) as (w2 & Hrun2 & Hc2). rewrite (bind_run _ _ _ _ _ Hrun2).
  destruct (counters_only_trans _ _ _ Hc1 Hc2) as (d & Hw2 & Hd & _).
  assert (Hsame : w_sm w2 = w_sm w /\ w_heap w2 = w_heap w /\ w_now w2 = w_now w /\ w_out w2 = w_out w /\
                  w_devices w2 = w_devices w /\ w_config w2 = w_config w /\ udp_map w2 = udp_map w) by by subst w2.
  clear w1 Hrun1 Hc1 Hrun2 Hc2 d Hw2 Hd. destruct Hsame as (Esm & Eheap & Enow & Eout & Edev & Ecfg & Emap).
  rewrite Hj, (bind_lift_ret _ _ _ _ En), (bind_lift_ret _ _ _ _ Et), (bind_lift_ret _ _ _ _ Ek).
  rewrite decide_False by done.
  assert (Hl2 : nickname_locked (w_sm w2) = false) by by rewrite Esm.
  rewrite (bind_run _ _ _ _ _ (find_by_nickname_run w2 nickname Hl2)), Esm, Hp. cbn. rewrite Eheap, Hs. cbn.
  change (is_register "udp_register") with true. cbv iota. unfold now. rewrite bind_ret, bind_gets.
  assert (Hs2 : w_heap w2 !! p = Some s) by by rewrite Eheap.
  rewrite (bind_with_session _ _ _ _ s Hs2). fold (put p (check_udp_rate (w_now w2) s).2 w2).
  unfold check_udp_rate. rewrite Enow.
  destruct (checkUdpRateLimit (w_now w) (bucket_ s)) as [b1 b2]. cbn in Hrate. subst b1. cbn [fst snd negb].
  set (s1 := s <| bucket_ := b2 |>).
  destruct (rebind_endpoint_run p s1 from w2) as (u & t & Hrun3 & Ht & Hu).
  cbn [when]. rewrite (bind_run _ _ _ _ _ Hrun3), exec_upd.
  destruct (Udpregister_handler_run p (update_udp_alive_time (w_now w) t) (set_udp_map u w2) j nickname from En Hne)
    as (w3 & Hrun4 & Hheap3 & Hdh3 & Hout3).
  change (w_devices (set_udp_map u w2)) with (w_devices w2) in *. rewrite Edev in *.
  change (w_config (set_udp_map u w2)) with (w_config w2) in *. rewrite Ecfg in *.
  change (w_now (set_udp_map u w2)) with (w_now w2) in *. rewrite Enow in *.
  exists w3. split.
  { unfold dispatch_udp_parsed. apply exec_catch_ret. rewrite (bind_lift_ret _ _ _ _ Et), register_handler_found.
    exact Hrun4. }
  split.
  { rewrite Hheap3. change (w_heap (set_udp_map u w2)) with (w_heap w2). rewrite Eheap. f_equal.
    by destruct Ht as [-> | ->]. }
  split.
  - intros e. unfold udp_map at 1. rewrite Hdh3.
    change (udp_endpoint_to_session_ (w_dh (set_udp_map u w2))) with u. rewrite Hu.
    assert (Her : erasable p e w2 = erasable p e w).
    { unfold erasable. change (udp_endpoint_to_session_ (w_dh w2)) with (udp_map w2).
      by rewrite Emap, Eheap. }
    unfold rebound. by rewrite Her, Emap.
  - rewrite Hout3. by rewrite <- Eout.
Qed.
End gate.

(** *** Witnesses *)

(** A forged token is answered. *)
Lemma udp_gate_witness :
  exists w1, counters_only (s_world demo_served) w1 /\
    on_udp_receive 3 (dump demo_forged) demo_endpoint (s_world demo_served) =
      (Ret tt, answered demo_endpoint (udp_error "INVALID_TOKEN" "Invalid UDP token") w1).
Proof.
  destruct (udp_gate (s_world demo_served) 3 (dump demo_forged) demo_endpoint) as (_ & Hrun & _ & Hc & _);
    [vm_compute; reflexivity .. |].
  exists (exec count_packet (exec (admit_packet 3) (s_world demo_served))). split; [exact Hc |].
  rewrite Hrun by (vm_compute; reflexivity).
  assert (Hr : refusal (s_world demo_served) (dump demo_forged) =
               Answers (udp_error "INVALID_TOKEN" "Invalid UDP token")) by (vm_compute; reflexivity).
  rewrite Hr. reflexivity.
Defined.

(** Another host registers under the nickname of the first client. *)
Definition demo_intruder : endpoint := mkEndpoint "10.6.6.6" 666.

Lemma register_binds_witness :
  exists w', on_udp_receive 3 (dump demo_register) demo_intruder (s_world demo_served) = (Ret tt, w') /\
    udp_map w' !! demo_intruder = Some 0%nat /\ udp_map w' !! demo_endpoint = None.
Proof.
  destruct (register_binds (s_world demo_served) 3 (dump demo_register) demo_register "kim" ""
              demo_intruder 0 demo_session)
    as (w' & Hrun & _ & Hmap & _);
    [vm_compute; reflexivity .. | discriminate | vm_compute; reflexivity | apply demo_lookup |
     vm_compute; reflexivity |].
  exists w'. split; [exact Hrun |]. split; rewrite Hmap; vm_compute; reflexivity.
Defined.
