(* ===== verification/LoginSpec.v ===== *)
(** * Logging in, and dispatching messages

    The functional specification of [MessageDispatcher::dispatch] on the
    messages no handler takes, and of a login with a free nickname. *)
From Stdlib Require Import ZArith Lia.
From stdpp Require Import base gmap sets list strings.
From S2P Require Import Prelude MessageBuffer RateLimit Json Session World.
From S2P Require Import SessionPool Zones Invariant.
From S2P Require SessionStore.
From S2P Require Import Lifecycle SessionManager DataHandler LoginFlow Dispatcher.
From S2P Require Import System Exec CloseSpec WriteSpec UdpSpec.

Open Scope Z_scope.

Section dispatching.
Context `{Platform}.

(** C29. What [dispatch] does with a message no handler accepts: a message that
    is no object, or whose type is not a string, closes the session without an
    answer; a missing type is answered and the session stays; an unknown type
    is answered and the session is closed; a field of the wrong type makes the
    handler throw, which is answered, and the session stays. The answers need
    room in the session's queue and socket. *)
Theorem dispatch_rejects w p s msg :
  w_heap w !! p = Some s -> has_room w s ->
  (forall e, value_str msg "type" "" = Exn e -> dispatch p msg w = close_session p w) /\
  (value_str msg "type" "" = Ret EmptyString ->
     exists w', dispatch p msg w = (Ret tt, w') /\ sends p missing_type w w') /\
  (forall type, value_str msg "type" "" = Ret type -> type <> EmptyString -> handlers_ !! type = None ->
     exists w1, sends p unknown_type w w1 /\
       forall w2, close_session p w1 = (Ret tt, w2) -> dispatch p msg w = (Ret tt, w2)) /\
  (forall type handler w1 t, value_str msg "type" "" = Ret type -> type <> EmptyString ->
     handlers_ !! type = Some handler -> handler p msg w = (Exn TypeError, w1) ->
     w_heap w1 !! p = Some t -> has_room w1 t ->
     exists w', dispatch p msg w = (Ret tt, w') /\ sends p invalid_field w1 w').
Proof.
  intros Hs Hroom. unfold dispatch. split; [| split; [| split]].
  - intros e He. unfold catch at 1. by rewrite (bind_lift_exn _ _ _ _ He).
  - intros Ht. destruct (post_write_run w p s missing_type Hs Hroom) as (w' & Hw & Hsend).
    exists w'. split; [| done]. apply exec_catch_ret. rewrite (bind_lift_ret _ _ _ _ Ht).
    by rewrite decide_True.
  - intros type Ht Hne Hh.
    destruct (post_write_run w p s unknown_type Hs Hroom) as (w1 & Hw & Hsend).
    exists w1. split; [done |]. intros w2 Hclose. apply exec_catch_ret.
    rewrite (bind_lift_ret _ _ _ _ Ht), decide_False by done.
    case_match eqn:E; [by pose proof (eq_trans (eq_sym Hh) E) |].
    by rewrite (bind_run _ _ _ _ _ Hw).
  - intros type handler w1 t Ht Hne Hh Hexn Ht1 Hroom1.
    destruct (post_write_run w1 p t invalid_field Ht1 Hroom1) as (w' & Hw & Hsend).
    exists w'. split; [| done]. apply exec_catch_ret.
    rewrite (bind_lift_ret _ _ _ _ Ht), decide_False by done.
    case_match eqn:E; pose proof (eq_trans (eq_sym Hh) E) as Heq; [| done]. injection Heq as ->.
    unfold catch. by rewrite Hexn.
Qed.

(** ** Login *)

Lemma add_session_again w p s :
  SessionStore.wf_manager (w_sm w) -> w_heap w !! p = Some s ->
  SessionStore.table (w_sm w) !! session_id_ s = Some p -> add_session p w = (Ret tt, w).
Proof using Type.
  intros Hwf Hs Ht. unfold add_session. rewrite (bind_get _ _ _ _ s Hs).
  destruct (SessionStore.bucket_exists (w_sm w) (session_id_ s) Hwf) as [b Hb].
  pose proof Ht as Hbp. rewrite (SessionStore.table_lookup _ _ _ Hwf Hb) in Hbp.
  erewrite (bind_run _ _ _ (Some p) w).
  2: { unfold SessionStore.with_bucket. rewrite Hb. cbv beta zeta. rewrite Hbp. f_equal.
       rewrite insert_id by done. unfold set_field; cbn. rewrite list_insert_id by done.
       destruct w as [? ? ? ? ? ? ? ? ? ? ? sm]. by destruct sm. }
  rewrite (bind_get _ _ _ _ s Hs). unfold replaced_session.
  rewrite bind_assoc, (bind_get _ _ _ _ s Hs), bind_ret. by rewrite decide_False by (intros Hn; by apply Hn).
Qed.

Definition index_nickname (nickname : string) (p : sptr) (w : World) : World :=
  w <| w_sm ::= fun sm => sm <| nickname_index_ ::= <[nickname := p]> |> |>.

Lemma register_free_nickname w p nickname :
  nickname_locked (w_sm w) = false -> nickname_index_ (w_sm w) !! nickname = None ->
  register_nickname nickname p w = (Ret tt, index_nickname nickname p w).
Proof using Type.
  intros Hl Hi. unfold register_nickname, with_nickname_lock. rewrite Hl, bind_gets.
  cbn [w_sm set_field nickname_index_]. rewrite Hi. rewrite bind_ret. unfold upd_sm, modify. f_equal.
  unfold index_nickname, set_field. cbn. destruct w as [? ? ? ? ? ? ? ? ? ? ? sm]. destruct sm. cbn in *.
  by subst.
Qed.

Lemma assign_zone_run w p s z zone_id :
  w_zones w !! zone_id = Some z -> sessions_ z !! session_id_ s = None ->
  Z.of_nat (size (sessions_ z)) < max_sessions_ z ->
  assign_session_to_zone p zone_id (put p s w) =
    (Ret tt, put p (s <| zone_id_ := zone_id |> <| zone_ := Some zone_id |>)
               (w <| w_zones ::= <[zone_id := z <| sessions_ ::= <[session_id_ s := p]> |>]> |>)).
Proof using Type.
  intros Hz Hn Hroom. unfold assign_session_to_zone, get_zone. rewrite bind_gets, put_zones, Hz, exec_get.
  unfold Zone_add_session. rewrite (proj2 (Z.leb_gt _ _)) by lia. rewrite Hn.
  unfold upd_zones. rewrite bind_modify.
  change ((put p s w) <| w_zones ::= ?f |>) with (put p s (w <| w_zones ::= f |>)).
  by exec_simpl.
Qed.

(** A connected session that may log in under [nickname]: the nickname is free,
    the first zone has room for it, and every queue and every socket has room. *)
Record may_login (w : World) (p : sptr) (s : Session) (nickname : string) (z : Zone) : Prop := {
  log_heap : w_heap w !! p = Some s;
  log_name : nickname <> EmptyString /\ nickname <> "quit"%string;
  log_unlocked : nickname_locked (w_sm w) = false;
  log_free : nickname_index_ (w_sm w) !! nickname = None;
  log_wf : SessionStore.wf_manager (w_sm w);
  log_table : SessionStore.table (w_sm w) !! session_id_ s = Some p;
  log_managers : managers_alive (w_links w) = true;
  log_zone : w_zones w !! default_zone = Some z;
  log_zone_free : sessions_ z !! session_id_ s = None;
  log_zone_room : Z.of_nat (size (sessions_ z)) < max_sessions_ z;
  log_distinct : NoDup (SessionStore.all_sessions (w_sm w));
  log_room : forall q t, w_heap w !! q = Some t -> has_room w t
}.

(** The server logs clients in by itself. *)
Definition link_down (w : World) : Prop := db_router_alive (w_links w) && db_client_connected (w_links w) = false.

Definition logged_in (nickname : string) (s : Session) : Session :=
  (on_nickname_registered (set_nickname nickname s)) <| zone_id_ := default_zone |>
    <| zone_ := Some default_zone |>.

(** The world when the login is announced. *)
Definition entered (w : World) (p : sptr) (s : Session) (nickname : string) (z : Zone) : World :=
  put p (logged_in nickname s)
    ((index_nickname nickname p w)
       <| w_zones ::= <[default_zone := z <| sessions_ ::= <[session_id_ s := p]> |>]> |>).

Definition announce (p : sptr) (nickname : string) : P unit :=
  id ← get p session_id_; broadcast (entered_notice nickname) id;; complete_success p nickname.

Lemma lock_run w p s : w_heap w !! p = Some s -> weak_lock p w = (Ret (Some p), w).
Proof using Type. intros Hs. unfold weak_lock, gets. by rewrite Hs. Qed.

Lemma find_free_nickname w p s nickname z :
  may_login w p s nickname z -> SessionStore.find_session_by_nickname nickname w = (Ret None, w).
Proof using Type. intros Hm. rewrite find_by_nickname_run by apply Hm. by rewrite (log_free _ _ _ _ _ Hm). Qed.

(** An answer that accepts the login, of the database or made up. *)
Lemma user_info_ok_run w p s nickname z j :
  may_login w p s nickname z -> value_int j "code" (-1) = Ret 0 ->
  on_user_info_ok p nickname j w = announce p nickname (entered w p s nickname z).
Proof using Type.
  intros Hm Hj. unfold on_user_info_ok. rewrite (bind_lift_ret _ _ _ 0) by exact Hj. rewrite decide_False by lia.
  rewrite (bind_run _ _ _ _ _ (lock_run w p s (log_heap _ _ _ _ _ Hm))), bind_gets, (log_managers _ _ _ _ _ Hm).
  cbn [negb].
  rewrite (bind_run _ _ _ _ _ (add_session_again w p s (log_wf _ _ _ _ _ Hm) (log_heap _ _ _ _ _ Hm)
                                 (log_table _ _ _ _ _ Hm))).
  rewrite (bind_run _ _ _ _ _ (find_free_nickname w p s nickname z Hm)). cbn [evict]. rewrite bind_ret.
  rewrite (bind_run _ _ _ _ _ (register_free_nickname w p nickname (log_unlocked _ _ _ _ _ Hm)
                                 (log_free _ _ _ _ _ Hm))).
  apply (run_put _ p s); [apply Hm |]. rewrite !exec_upd.
  rewrite (bind_run _ _ _ _ _ (assign_zone_run (index_nickname nickname p w) p
    (on_nickname_registered (set_nickname nickname s)) z default_zone
    (log_zone _ _ _ _ _ Hm) (log_zone_free _ _ _ _ _ Hm) (log_zone_room _ _ _ _ _ Hm))).
  reflexivity.
Qed.

Lemma login_handler_run w p s nickname z msg :
  may_login w p s nickname z -> link_down w -> value_str msg "nickname" "anonymity" = Ret nickname ->
  login_handler p msg w = announce p nickname (entered w p s nickname z).
Proof using Type.
  intros Hm Hb Hn. destruct (log_name _ _ _ _ _ Hm) as [Hne Hnq].
  pose proof (user_info_ok_run w p s nickname z (bypass_answer nickname) Hm eq_refl) as Hok.
  unfold login_handler. rewrite (bind_lift_ret _ _ _ _ Hn), !decide_False by done.
  rewrite (bind_run _ _ _ _ _ (find_free_nickname w p s nickname z Hm)). cbn [evict]. rewrite bind_ret.
  unfold begin, request_user_info. rewrite bind_gets, (bind_run _ _ _ _ _ (lock_run w p s (log_heap _ _ _ _ _ Hm))).
  unfold link_down in Hb. destruct (db_router_alive (w_links w)); cbn [negb andb] in *.
  - rewrite bind_gets, Hb. exact Hok.
  - exact Hok.
Qed.

(** With the link up the handler only asks the database, on behalf of the
    session and its present id. *)
Lemma login_handler_asks w p s nickname z msg :
  may_login w p s nickname z -> ~ link_down w -> value_str msg "nickname" "anonymity" = Ret nickname ->
  login_handler p msg w = (Ret tt, w <| w_ops ::= fun l => l ++ [OpDb p nickname (session_id_ s)] |>).
Proof using Type.
  intros Hm Hb Hn. destruct (log_name _ _ _ _ _ Hm) as [Hne Hnq].
  unfold login_handler. rewrite (bind_lift_ret _ _ _ _ Hn), !decide_False by done.
  rewrite (bind_run _ _ _ _ _ (find_free_nickname w p s nickname z Hm)). cbn [evict]. rewrite bind_ret.
  unfold begin, request_user_info. rewrite bind_gets, (bind_run _ _ _ _ _ (lock_run w p s (log_heap _ _ _ _ _ Hm))).
  unfold link_down in Hb. apply not_false_iff_true, andb_true_iff in Hb as [-> Hb]. cbn [negb].
  rewrite bind_gets, Hb. cbn [negb]. unfold catch. by rewrite (bind_get _ _ _ _ s (log_heap _ _ _ _ _ Hm)).
Qed.

(** What a login of [p], whose session is [s], makes of the server. *)
Definition logs_in (p : sptr) (s : Session) (nickname : string) (z : Zone) (w : World) (m : P unit) : Prop :=
  exists w' t, m w = (Ret tt, w') /\ w_heap w' !! p = Some t /\
    nickname_ t = nickname /\ nickname_registered_ t = true /\ state_ t = Ready /\
    login_timer_ t = None /\ zone_id_ t = default_zone /\ session_id_ t = session_id_ s /\
    nickname_index_ (w_sm w') = <[nickname := p]> (nickname_index_ (w_sm w)) /\
    w_zones w' = <[default_zone := z <| sessions_ ::= <[session_id_ s := p]> |>]> (w_zones w) /\
    pending w' p ≡ₚ pending w p ++ [login_success_msg nickname] /\
    (forall q, q <> p -> pending w' q ≡ₚ pending w q ++
       (if selected (is_recipient (session_id_ s)) w q then [entered_notice nickname] else [])).

Lemma announced w p s nickname z m :
  may_login w p s nickname z -> m w = announce p nickname (entered w p s nickname z) ->
  logs_in p s nickname z w m.
Proof using Type.
  intros Hm Hrun. unfold logs_in. rewrite Hrun. unfold announce.
  set (w1 := entered w p s nickname z). set (t1 := logged_in nickname s).
  assert (Ht1 : w_heap w1 !! p = Some t1) by apply lookup_put.
  rewrite (bind_get _ _ _ _ t1 Ht1). change (session_id_ t1) with (session_id_ s).
  assert (Hroom1 : forall q t, w_heap w1 !! q = Some t -> has_room w1 t).
  { intros q t Hq. destruct (decide (q = p)) as [-> | Hne].
    - rewrite Ht1 in Hq. injection Hq as <-. apply (log_room _ _ _ _ _ Hm p s). apply Hm.
    - unfold w1, entered in Hq. rewrite lookup_put_ne in Hq by done. by apply (log_room _ _ _ _ _ Hm q t). }
  destruct (broadcast_run w1 (entered_notice nickname) (session_id_ s) (log_distinct _ _ _ _ _ Hm)
              (fun q t _ => Hroom1 q t)) as (w2 & Hrun2 & Hd2 & Hp2 & Hh2).
  rewrite (bind_run _ _ _ _ _ Hrun2).
  assert (Hself : selected (is_recipient (session_id_ s)) w1 p = false).
  { unfold selected. rewrite Ht1. unfold is_recipient. rewrite (bool_decide_false (_ <> _)); [apply andb_false_r |].
    intros Hf. by apply Hf. }
  assert (Ht2 : w_heap w2 !! p = Some t1) by (specialize (Hh2 p); by rewrite Hself, Ht1 in Hh2).
  assert (Hroom2 : has_room w2 t1) by (apply (has_room_delivers w1 _ _ Hd2); by apply (Hroom1 p)).
  destruct (post_write_run w2 p t1 (login_success_msg nickname) Ht2 Hroom2) as (w3 & Hrun3 & Hd3 & Ho3 & Hs3 & Hp3).
  assert (Hpend : forall q, pending w1 q = pending w q).
  { intros q. unfold pending. destruct (decide (q = p)) as [-> | Hne].
    - by rewrite Ht1, (log_heap _ _ _ _ _ Hm).
    - unfold w1, entered. by rewrite lookup_put_ne. }
  exists w3. assert (Ht3 : exists t, w_heap w3 !! p = Some t /\ (t = t1 \/ t = queued (login_success_msg nickname) t1)).
  { destruct (Hs3 t1 Ht2) as [? | ?]; eauto. }
  destruct Ht3 as (t & Ht3 & Ht). exists t. split.
  { unfold complete_success. rewrite (bind_run _ _ w2 (Some p) w2); [exact Hrun3 |].
    unfold weak_lock, gets. by rewrite Ht2. }
  split; [done |].
  assert (Hfields : nickname_ t = nickname /\ nickname_registered_ t = true /\ state_ t = Ready /\
    login_timer_ t = None /\ zone_id_ t = default_zone /\ session_id_ t = session_id_ s).
  { destruct Ht as [-> | ->]; [by repeat split |]. unfold queued. by destruct (bool_decide _). }
  destruct Hfields as (F1 & F2 & F3 & F4 & F5 & F6). do 6 (split; [done |]).
  split; [by rewrite (same_sm _ _ Hd3), (same_sm _ _ Hd2) |].
  split; [by rewrite (same_zones _ _ Hd3), (same_zones _ _ Hd2) |]. split.
  - rewrite Hp3, (Hp2 p), Hself, app_nil_r. by rewrite Hpend.
  - intros q Hq. destruct (Ho3 q Hq) as [Hh3 Hj3]. rewrite (pending_same w2 w3 q Hh3 Hj3), (Hp2 q), Hpend.
    assert (Hsel : selected (is_recipient (session_id_ s)) w1 q = selected (is_recipient (session_id_ s)) w q).
    { unfold selected, w1, entered. by rewrite lookup_put_ne. }
    by rewrite Hsel.
Qed.

(** The failure message, which is all a refused login leads to. *)
Definition login_failed_msg (reason : string) : string :=
  line (obj [("type", JStr "login_result"); ("ok", JBool false); ("error", JStr reason)]%string).

Lemma complete_fail_run w p s reason :
  w_heap w !! p = Some s -> has_room w s ->
  exists w', complete_fail p reason w = (Ret tt, w') /\ sends p (login_failed_msg reason) w w'.
Proof using Type.
  intros Hs Hroom. unfold complete_fail. rewrite (bind_run _ _ _ _ _ (lock_run w p s Hs)).
  by apply (post_write_run w p s).
Qed.

(** C23. A login with a free nickname, on every answer.  While the DB link is down
    the handler logs the session in at once; with the link up it only makes the
    request to the database, and logs the session in when the answer has code 0:
    the session becomes [Ready] under the nickname, its login timer stops, the
    index and the first zone lead to it, the client is told of the success,
    every other logged-in client is told of the newcomer, and nobody else is
    told anything.  An answer with another code, or an error, only sends the
    client the reason. *)
Theorem login_free_nickname w p s nickname z msg :
  may_login w p s nickname z -> value_str msg "nickname" "anonymity" = Ret nickname ->
  (link_down w -> logs_in p s nickname z w (login_handler p msg)) /\
  (~ link_down w ->
   login_handler p msg w = (Ret tt, w <| w_ops ::= fun l => l ++ [OpDb p nickname (session_id_ s)] |>)) /\
  (forall j, value_int j "code" (-1) = Ret 0 -> logs_in p s nickname z w (on_db_ok p nickname j)) /\
  (forall j code, value_int j "code" (-1) = Ret code -> code <> 0 ->
   exists w', on_db_ok p nickname j w = (Ret tt, w') /\ sends p (login_failed_msg "user_not_found") w w') /\
  (forall j reason, value_str j "msg" "timeout" = Ret reason ->
   exists w', on_db_error p j w = (Ret tt, w') /\ sends p (login_failed_msg reason) w w').
Proof using Type.
  intros Hm Hn. pose proof (log_heap _ _ _ _ _ Hm) as Hs. pose proof (log_room _ _ _ _ _ Hm p s Hs) as Hroom.
  split; [intros Hb; apply announced; [done | by apply login_handler_run] |].
  split; [intros Hb; by apply (login_handler_asks w p s nickname z) |].
  split; [intros j Hj; apply announced; [done | by apply user_info_ok_run] |]. split.
  - intros j code Hj Hc. unfold on_db_ok, on_user_info_ok. rewrite (bind_lift_ret _ _ _ _ Hj), decide_True by done.
    by apply (complete_fail_run w p s).
  - intros j reason Hj. unfold on_db_error. rewrite (bind_lift_ret _ _ _ _ Hj).
    by apply (complete_fail_run w p s).
Qed.
End dispatching.

(** *** Witnesses *)

Lemma dispatch_rejects_witness :
  dispatch 0 (JArr []) (s_world demo_served) = close_session 0 (s_world demo_served) /\
  (exists w', dispatch 0 (JObj []) (s_world demo_served) = (Ret tt, w')).
Proof.
  assert (Hroom : has_room (s_world demo_served) demo_session).
  { apply (demo_room 0); [| apply demo_lookup]. apply (bool_decide_unpack _). vm_compute. reflexivity. }
  split.
  - by apply (dispatch_rejects _ 0 _ (JArr []) demo_lookup Hroom) with TypeError.
  - destruct (proj1 (proj2 (dispatch_rejects _ 0 _ (JObj []) demo_lookup Hroom)) eq_refl) as (w' & Hw & _).
    exists w'. exact Hw.
Defined.

(** One client has connected. *)
Definition demo_connected : Sys := default demo_start (run_events [EvAccept (Some 7)] demo_start).
Definition demo_fresh : Session :=
  default (new_session 0) (w_heap (s_world demo_connected) !! 0%nat).

Lemma connected_wf : SessionStore.wf_manager (w_sm (s_world demo_connected)).
Proof.
  assert (Hr : reachable demo_config 4 1 demo_connected).
  { apply (run_events_reachable _ _ _ [EvAccept (Some 7)] demo_start); [apply reach_initial |].
    vm_compute. reflexivity. }
  destruct (reachable_inv demo_config demo_queue 4 1 _ demo_cores Hr) as (B & svc & D & _ & bufs & _ & Hw).
  apply (Invariant.inv_manager _ _ _ _ _ _ _ Hw).
Qed.

Lemma connected_room q t :
  w_heap (s_world demo_connected) !! q = Some t -> has_room (s_world demo_connected) t.
Proof.
  assert (Hall : map_Forall (fun _ t => (len (write_queue_ t) <? max_write_queue (w_config (s_world demo_connected))) = true)
                   (w_heap (s_world demo_connected))).
  { apply (bool_decide_unpack _). vm_compute. reflexivity. }
  intros Hq. split; [| reflexivity]. apply (proj1 (Z.ltb_lt _ _)). exact (Hall q t Hq).
Qed.

Lemma connected_may_login :
  may_login (s_world demo_connected) 0 demo_fresh "kim" (mkZone 50 ∅).
Proof.
  split.
  - vm_compute. reflexivity.
  - split; discriminate.
  - vm_compute. reflexivity.
  - vm_compute. reflexivity.
  - apply connected_wf.
  - vm_compute. reflexivity.
  - vm_compute. reflexivity.
  - vm_compute. reflexivity.
  - vm_compute. reflexivity.
  - vm_compute. reflexivity.
  - apply (bool_decide_unpack _). vm_compute. reflexivity.
  - apply connected_room.
Qed.

(** The demo's link is down; a database that knows the nickname, or not. *)
Lemma login_free_nickname_witness :
  (exists w', login_handler 0 demo_login (s_world demo_connected) = (Ret tt, w') /\
    nickname_index_ (w_sm w') !! "kim"%string = Some 0%nat /\
    pending w' 0 ≡ₚ [login_success_msg "kim"]) /\
  (exists w', on_db_ok 0 "kim" (obj [("code", JInt 0)]%string) (s_world demo_connected) = (Ret tt, w') /\
    pending w' 0 ≡ₚ [login_success_msg "kim"]) /\
  (exists w', on_db_ok 0 "kim" (obj [("code", JInt 7)]%string) (s_world demo_connected) = (Ret tt, w') /\
    sends 0 (login_failed_msg "user_not_found") (s_world demo_connected) w').
Proof.
  destruct (login_free_nickname (s_world demo_connected) 0 demo_fresh "kim" (mkZone 50 ∅) demo_login
              connected_may_login) as (Hdown & _ & Hok & Hfail & _); [vm_compute; reflexivity |].
  split; [| split].
  - destruct Hdown as (w' & t & Hrun & _ & _ & _ & _ & _ & _ & _ & Hi & _ & Hp & _); [vm_compute; reflexivity |].
    exists w'. split; [exact Hrun |]. split; [rewrite Hi; vm_compute; reflexivity |].
    rewrite Hp. vm_compute. reflexivity.
  - destruct (Hok (obj [("code", JInt 0)]%string)) as (w' & t & Hrun & _ & _ & _ & _ & _ & _ & _ & _ & _ & Hp & _);
      [reflexivity |].
    exists w'. split; [exact Hrun |]. rewrite Hp. vm_compute. reflexivity.
  - apply (Hfail _ 7); [reflexivity | discriminate].
Defined.
