(* ===== verification/Scenarios.v ===== *)
(** * Runs that show what the code allows

    Concrete sequences of events, computed in the model from the start-up
    state, that reach states the program does not mean to reach. *)
From Stdlib Require Import ZArith Lia Strings.Byte.
From stdpp Require Import base gmap sets list strings.
From S2P Require Import Prelude MessageBuffer RateLimit Json Session World.
From S2P Require SessionStore.
From S2P Require Import Reading System UdpSpec.

Open Scope Z_scope.

(** The state after some events from start-up. *)
Definition after (es : list Event) : Sys := default demo_start (run_events es demo_start).

Lemma after_reachable es :
  match run_events es demo_start with Some _ => true | None => false end = true -> reachable demo_config 4 1 (after es).
Proof.
  unfold after. intros Hs. destruct (run_events es demo_start) as [s |] eqn:Hr; [| done].
  apply (run_events_reachable demo_config 4 1 es demo_start); [apply reach_initial | exact Hr].
Qed.

(** ** A broadcast that ends the io threads *)

Definition lee_endpoint : endpoint := mkEndpoint "10.0.0.2" 5000.

(** Two clients log in and register their UDP endpoints. *)
Definition two_registered : list Event :=
  [EvAccept (Some 7); EvRead 0 (framed demo_login_lee);
   EvReceive 3 true (dump demo_register_lee) lee_endpoint;
   EvAccept (Some 8); EvRead 1 (framed demo_login);
   EvReceive 3 true (dump demo_register) demo_endpoint].

Definition poison : list Event :=
  [EvReceive 3 true (dump demo_poison) lee_endpoint;
   EvBackground (BUdpBroadcast (dump demo_poison) "lee")].

(** One authenticated client can stop the whole server: each
    [broadcast_udp] datagram whose [msg] is not a string makes the lambda of
    [DataHandler::udp_broadcast] throw out of [io.run()], which ends the thread
    that ran it; after as many datagrams as there are threads none is left. *)
Theorem udp_broadcast_ends_threads :
  let s := after (two_registered ++ poison ++ poison ++ poison ++ poison) in
  reachable demo_config 4 1 s /\ s_threads (after two_registered) = 4%nat /\ s_threads s = 0%nat.
Proof.
  split; [apply after_reachable |]; vm_compute; auto.
Qed.

(** ** A registration that does not bind *)

(** Lee registers from kim's endpoint, and then kim does again. *)
Definition endpoint_shared : list Event :=
  two_registered ++ [EvReceive 3 true (dump demo_register_lee) demo_endpoint;
                     EvReceive 3 true (dump demo_register) demo_endpoint].

(** Kim gets the acknowledgement with his new token, and his session says that
    it is bound to the endpoint, but the UDP map goes on leading from it to
    lee's session: [on_udp_receive] only looks at what the session says. *)
Theorem reregistration_misses :
  let w := s_world (after endpoint_shared) in
  reachable demo_config 4 1 (after endpoint_shared) /\
  nickname_index_ (w_sm w) !! "kim"%string = Some 1%nat /\
  udp_endpoint_ <$> w_heap w !! 1%nat = Some (Some demo_endpoint) /\
  last (w_out w) = OUdp demo_endpoint <$> (register_ack "kim" <$> (udp_token_ <$> w_heap w !! 1%nat)) /\
  udp_map w !! demo_endpoint = Some 0%nat.
Proof.
  cbv zeta. split; [apply after_reachable; vm_compute; reflexivity |].
  repeat split; vm_compute; reflexivity.
Qed.

(** ** Messages after a logout *)

Definition both (j k : json) : ReadResult :=
  RData (frame (String.list_byte_of_string (dump j)) ++ frame (String.list_byte_of_string (dump k))).

Definition free_in_pool (w : World) (p : sptr) : bool :=
  existsb (fun i => bool_decide (pool_ (w_pool w) !! i = Some p)) (reusable_indices_ (w_pool w)).

(** The read loop goes on dispatching the messages of a buffer after one of
    them has closed the session: a login that follows a logout in the same
    read enters a session in the table that is back in the pool's queue, and
    once the pool has handed it to the next client, that client is in the table
    twice. *)
Theorem login_after_logout :
  let s1 := after [EvAccept (Some 7); EvRead 0 (framed demo_login); EvRead 0 (both demo_logout demo_login_lee)] in
  let s2 := after [EvAccept (Some 7); EvRead 0 (framed demo_login); EvRead 0 (both demo_logout demo_login_lee);
                   EvAccept (Some 8); EvAccept (Some 9)] in
  reachable demo_config 4 1 s1 /\
  free_in_pool (s_world s1) 0 = true /\ SessionStore.table (w_sm (s_world s1)) !! 0 = Some 0%nat /\
  (nickname_ <$> w_heap (s_world s1) !! 0%nat) = Some "lee"%string /\
  reachable demo_config 4 1 s2 /\
  SessionStore.table (w_sm (s_world s2)) !! 0 = Some 0%nat /\
  SessionStore.table (w_sm (s_world s2)) !! 2 = Some 0%nat.
Proof.
  split; [apply after_reachable; vm_compute; reflexivity |].
  do 3 (split; [vm_compute; reflexivity |]).
  split; [apply after_reachable; vm_compute; reflexivity |].
  split; vm_compute; reflexivity.
Qed.

(** ** A nickname that outlives its session *)

(** The first client logs in as "kim" and disconnects; its session object is
    handed to a client that logs in as "lee". *)
Definition recycled : list Event :=
  [EvAccept (Some 7); EvAccept (Some 8); EvRead 0 (framed demo_login); EvRead 0 REof;
   EvAccept (Some 9); EvRead 0 (framed demo_login_lee)].

(** The nickname index is never cleaned: after "kim" has left, the index
    still leads to its session object, now used by "lee"; the next login as
    "kim" is taken for a duplicate and disconnects "lee". *)
Theorem stale_nickname_evicts :
  let s := after recycled in
  let s' := after (recycled ++ [EvRead 1 (framed demo_login)]) in
  reachable demo_config 4 1 s /\
  (fun t => (nickname_ t, socket_ t)) <$> w_heap (s_world s) !! 0%nat = Some ("lee"%string, Some 9) /\
  nickname_index_ (w_sm (s_world s)) !! "kim"%string = Some 0%nat /\
  reachable demo_config 4 1 s' /\
  (fun t => (nickname_ t, socket_ t)) <$> w_heap (s_world s') !! 0%nat = Some (EmptyString, None).
Proof.
  split; [apply after_reachable; vm_compute; reflexivity |].
  do 2 (split; [vm_compute; reflexivity |]).
  split; [apply after_reachable; vm_compute; reflexivity | vm_compute; reflexivity].
Qed.
