(* ===== verification/DbLink.v ===== *)
(** * The link to the DB middleware: state

    The members of [DBMiddlewareClient] and of [DBmwRouter], which call each
    other, in one record.  The state of the game server is not part of it: the
    callbacks that [LoginFlow] hands to the router are numbers, and calling one
    is an output.

    Handlers run one at a time, each at one instant; a lambda dispatched on a
    strand runs at once.  A timer is the expiry of its pending wait: setting it
    again cancels the wait, whose handler then does nothing.  Sockets are
    numbered by [socket_epoch]; an operation that is outstanding when its socket
    is closed may still succeed, since its completion may be queued already.
    The 64-bit counters are not wrapped. *)
From Stdlib Require Import ZArith Lia Strings.Byte.
From stdpp Require Import base gmap sets list strings.
From S2P Require Import Prelude MessageBuffer Json.

Open Scope Z_scope.

(** ** Protobuf

    The accessors of [wire::Envelope], by the value of [type()]; an absent
    payload reads as its default. *)
Inductive Envelope :=
| PbServerLoginAck (result nickname : string)
| PbKeepaliveAck
| PbDbQueryResult (req_id : string) (code : Z) (api data_json : string)
| PbError (req_id : string) (code : Z) (msg : string)
| PbUnhandled.

(** Generated code: [Envelope::ParseFromArray]. *)
Class Wire := { ParseFromArray : list byte -> option Envelope }.

(** ** DBMiddlewareClient *)

(** The constructor's arguments that the operations read, and the interval of
    the heartbeat. *)
Record Settings := mkSettings {
  port_ : Z;
  server_login_nickname_ : string;
  secret_ : string;
  heartbeat_sec_ : Z;
  process_id : Z
}.

(** A wait of [send_json] or of [send_secure_json]. *)
Record RequestTimer := mkRequestTimer {
  rt_id : string;
  rt_secure : bool;
  rt_expiry : Z
}.

Record Client := mkClient {
  socket_is_open : bool;
  socket_epoch : Z;
  connected_ : bool;
  stopping_ : bool;
  server_login_sent_ : bool;
  authed_ : bool;
  missed_heartbeat_ : Z;
  msg_buf_mgr_ : MessageBufferManager;
  write_queue_ : list (list byte);
  write_in_progress_ : bool;
  reconnect_sec_ : Z;
  reconnect_timer_ : option Z;
  heartbeat_timer_ : option Z;
  timeout_count_ : Z;
  request_timers_ : gmap string RequestTimer;
  request_waits : list RequestTimer;     (** waits that have not completed *)
  request_counter : Z                    (** of [generate_request_id] *)
}.
#[export] Instance eta_Client : Settable Client := fun c => mkClient
  (socket_is_open c) (socket_epoch c) (connected_ c) (stopping_ c) (server_login_sent_ c)
  (authed_ c) (missed_heartbeat_ c) (msg_buf_mgr_ c) (write_queue_ c) (write_in_progress_ c)
  (reconnect_sec_ c) (reconnect_timer_ c) (heartbeat_timer_ c) (timeout_count_ c)
  (request_timers_ c) (request_waits c) (request_counter c).

Definition heartbeat_miss_limit_ : Z := 3.
Definition reconnect_sec_max_ : Z := 30.

Definition new_client : Client := {|
  socket_is_open := false; socket_epoch := 0; connected_ := false; stopping_ := false;
  server_login_sent_ := false; authed_ := false; missed_heartbeat_ := 0;
  msg_buf_mgr_ := empty_buffer; write_queue_ := []; write_in_progress_ := false;
  reconnect_sec_ := 2; reconnect_timer_ := None; heartbeat_timer_ := None;
  timeout_count_ := 0; request_timers_ := ∅; request_waits := []; request_counter := 0
|}.

(** ** DBmwRouter *)

(** A callback of the game server. *)
Abbreviation callback := nat.

Record Pending := mkPending {
  timer : option Z;
  request_json : json;
  secure : bool;
  retries : Z;
  max_retries : Z;
  timeout_ms : Z;
  session_id : Z;
  on_ok : option callback;
  on_error : option callback;
  use_callbacks : bool
}.
#[export] Instance eta_Pending : Settable Pending := fun p => mkPending
  (timer p) (request_json p) (secure p) (retries p) (max_retries p) (timeout_ms p)
  (session_id p) (on_ok p) (on_error p) (use_callbacks p).

(** The registered handlers. *)
Inductive Handler := OnServerLoginAck | OnServerKeepAliveAck.

Record Router := mkRouter {
  senders_set : bool;                    (** both send functions are set *)
  handlers_ : gmap string Handler;
  pending_ : gmap string Pending;
  req_seq_ : Z;
  m_sent_ : Z;
  m_ok_ : Z;
  m_to_ : Z;
  m_retry_ : Z;
  m_fail_ : Z;
  last_timeout_count_ : Z;
  metrics_timer_ : option (Z * Z);       (** interval and expiry *)
  retry_waits : list (string * Z)        (** timers of [schedule_retry] *)
}.
#[export] Instance eta_Router : Settable Router := fun r => mkRouter
  (senders_set r) (handlers_ r) (pending_ r) (req_seq_ r) (m_sent_ r) (m_ok_ r) (m_to_ r)
  (m_retry_ r) (m_fail_ r) (last_timeout_count_ r) (metrics_timer_ r) (retry_waits r).

(** ** The whole link *)

(** Outstanding asynchronous operations. *)
Inductive DbOp :=
| DbResolve
| DbConnect
| DbRead (epoch : Z)
| DbWrite (epoch : Z) (data : list byte).

#[export] Instance byte_eq_dec : EqDecision byte := Byte.byte_eq_dec.

#[export] Instance DbOp_eq_dec : EqDecision DbOp.
Proof. solve_decision. Defined.

Inductive DbOut :=
| DbSend (data : list byte)                        (** an [async_write] *)
| DbPromise (req_id : string) (result : json)      (** [promise.set_value] *)
| DbCallback (cb : callback) (j : json)
| DbAlert (text : string).

Record Db := mkDb {
  d_now : Z;
  d_tcp_port : Z;                        (** [config.value("tcp_port", 12345)] *)
  d_client : Client;
  d_router : Router;
  d_ops : list DbOp;
  d_out : list DbOut
}.
#[export] Instance eta_Db : Settable Db := fun d => mkDb
  (d_now d) (d_tcp_port d) (d_client d) (d_router d) (d_ops d) (d_out d).

Abbreviation L := (M Db).

Definition client {A} (f : Client -> A) : L A := gets (fun d => f (d_client d)).
Definition upd_client (f : Client -> Client) : L unit := modify (fun d => d <| d_client ::= f |>).
Definition router {A} (f : Router -> A) : L A := gets (fun d => f (d_router d)).
Definition upd_router (f : Router -> Router) : L unit := modify (fun d => d <| d_router ::= f |>).
Definition db_now : L Z := gets d_now.
Definition start_db_op (o : DbOp) : L unit := modify (fun d => d <| d_ops ::= fun l => l ++ [o] |>).
Definition db_emit (o : DbOut) : L unit := modify (fun d => d <| d_out ::= fun l => l ++ [o] |>).

Definition milliseconds (n : Z) : Z := n * 1000000.
