(* ===== verification/DbClient.v ===== *)
(** * DBMiddlewareClient.{h,cpp}

    Connecting with a growing delay, the framed write queue, the login and the
    heartbeat, the timers of requests, and the read loop, which hands every
    message to the router. *)
From Stdlib Require Import ZArith Lia Strings.Byte.
From stdpp Require Import base gmap sets list strings pretty.
From S2P Require Import Prelude MessageBuffer RateLimit Json DbLink.

Open Scope Z_scope.

Section client.
Context `{Platform} (cfg : Settings).

(** ** Connecting *)

Definition close_socket : L unit :=
  upd_client (fun c => c <| socket_is_open := false |> <| connected_ := false |>).

Definition schedule_reconnect : L unit :=
  upd_client (fun c => c <| connected_ := false |>);;
  stopping ← client stopping_;
  if (stopping : bool) then mret tt
  else
    t ← db_now;
    upd_client (fun c => c <| reconnect_sec_ ::= fun s => Z.min (s * 2) reconnect_sec_max_ |>);;
    upd_client (fun c => c <| reconnect_timer_ := Some (t + seconds (reconnect_sec_ c)) |>).

Definition do_connect : L unit :=
  stopping ← client stopping_;
  if (stopping : bool) then mret tt
  else
    game_port ← gets d_tcp_port;
    if decide (port_ cfg = game_port) then mret tt
    else start_db_op DbResolve.

(** The handler of [reconnect_timer_]. *)
Definition on_reconnect_timer : L unit :=
  upd_client (fun c => c <| reconnect_timer_ := None |>);;
  stopping ← client stopping_;
  if negb stopping then do_connect else mret tt.

Definition on_resolve (ok : bool) : L unit :=
  if negb ok then schedule_reconnect else start_db_op DbConnect.

Definition start : L unit :=
  upd_client (fun c => c <| stopping_ := false |>);;
  do_connect.

Definition stop : L unit :=
  upd_client (fun c => c <| stopping_ := true |>);;
  close_socket;;
  upd_client (fun c => c <| reconnect_timer_ := None |>);;
  upd_client (fun c => c <| heartbeat_timer_ := None |>).

Definition is_connected : L bool := client connected_.
Definition get_timeout_count : L Z := client timeout_count_.
Definition on_request_timeout : L unit := upd_client (fun c => c <| timeout_count_ ::= Z.succ |>).

Definition note_heartbeat_ack : L unit := upd_client (fun c => c <| missed_heartbeat_ := 0 |>).
Definition mark_authed (v : bool) : L unit := upd_client (fun c => c <| authed_ := v |>).

(** ** Writing *)

Definition flush_write_queue : L unit :=
  q ← client write_queue_;
  match q with
  | [] => upd_client (fun c => c <| write_in_progress_ := false |>)
  | data :: _ =>
      e ← client socket_epoch;
      start_db_op (DbWrite e data);;
      db_emit (DbSend data)
  end.

Definition on_write (ok : bool) : L unit :=
  if negb ok then close_socket;; schedule_reconnect
  else
    q ← client write_queue_;
    match q with
    | [] => ub
    | _ :: rest =>
        upd_client (fun c => c <| write_queue_ := rest |>);;
        flush_write_queue
    end.

Definition send_framed (body : string) : L unit :=
  let data := frame (String.list_byte_of_string body) in
  connected ← client connected_;
  if negb connected then mret tt
  else
    idle ← client (fun c => bool_decide (write_queue_ c = []));
    upd_client (fun c => c <| write_queue_ ::= fun q => q ++ [data] |>);;
    busy ← client write_in_progress_;
    when (idle && negb busy) (
      upd_client (fun c => c <| write_in_progress_ := true |>);;
      flush_write_queue).

(** ** Requests *)

Definition generate_request_id : L string :=
  upd_client (fun c => c <| request_counter ::= Z.succ |>);;
  id ← client request_counter;
  mret ("req_" +:+ pretty id)%string.

(** The request id of [j], added if there is none. *)
Definition ensure_request_id (j : json) : L (string * json) :=
  match j with
  | JObj o =>
      match obj_get "request_id" o with
      | Some (JStr id) => mret (id, j)
      | Some _ => throw TypeError
      | None =>
          id ← generate_request_id;
          mret (id, JObj (obj_set "request_id" (JStr id) o))
      end
  | JNull =>
      id ← generate_request_id;
      mret (id, JObj [("request_id", JStr id)]%string)
  | _ => generate_request_id;; throw TypeError
  end.

(** Setting the 5 second timer of a request. *)
Definition arm_request_timer (id : string) (secure : bool) : L unit :=
  t ← db_now;
  let w := mkRequestTimer id secure (t + seconds 5) in
  upd_client (fun c => c <| request_timers_ ::= <[id := w]> |>
                         <| request_waits ::= fun l => l ++ [w] |>).

(** Any exception on the way is reported; of the alert the text is modelled
    without the [what()] of the exception that the code appends. *)
Definition send_json (j : json) : L unit :=
  catch (
    r ← ensure_request_id j;
    send_framed (dump (snd r));;
    arm_request_timer (fst r) false)
    (fun _ =>
      db_emit (DbAlert "[ALERT][DBMW][send_json] Unexpected exception");;
      close_socket;;
      schedule_reconnect).

Definition send_secure_json (j : json) : L unit :=
  r ← ensure_request_id j;
  send_framed (secret_ cfg +:+ dump (snd r));;
  arm_request_timer (fst r) true.

(** [body] is the serialised message. *)
Definition send_proto (body : string) : L unit := send_framed body.
Definition send_secure_proto (plain : string) : L unit := send_framed (secret_ cfg +:+ plain).

(** The handler of a request's timer. *)
Definition on_request_timer (w : RequestTimer) : L unit :=
  upd_client (fun c => c <| timeout_count_ ::= Z.succ |>);;
  when (negb (rt_secure w))
    (db_emit (DbAlert ("[ALERT][DBMW] Request timeout detected (id=" +:+ rt_id w +:+ ")")));;
  upd_client (fun c => c <| request_timers_ ::= delete (rt_id w) |>).

(** ** Login and heartbeat *)

Definition login_message : json :=
  obj [("type", JStr "serverlogin"); ("nickname", JStr (server_login_nickname_ cfg))]%string.

Definition server_send_login : L unit :=
  sent ← client server_login_sent_;
  upd_client (fun c => c <| server_login_sent_ := true |>);;
  if (sent : bool) then mret tt else send_secure_json login_message.

Definition arm_heartbeat_timer : L unit :=
  t ← db_now;
  upd_client (fun c => c <| heartbeat_timer_ := Some (t + seconds (heartbeat_sec_ cfg)) |>).

Definition heartbeat_message : json :=
  obj [("type", JStr "keepalive"); ("nickname", JStr (server_login_nickname_ cfg))]%string.

Definition on_heartbeat_timer : L unit :=
  upd_client (fun c => c <| heartbeat_timer_ := None |>);;
  stopping ← client stopping_;
  if (stopping : bool) then mret tt
  else
    live ← client (fun c => connected_ c && authed_ c);
    if (live : bool) then
      send_secure_json heartbeat_message;;
      upd_client (fun c => c <| missed_heartbeat_ ::= Z.succ |>);;
      misses ← client missed_heartbeat_;
      if heartbeat_miss_limit_ <=? misses then close_socket;; schedule_reconnect
      else arm_heartbeat_timer
    else arm_heartbeat_timer.

(** ** Reading *)

Definition do_read_some : L unit :=
  connected ← client connected_;
  if negb connected then mret tt
  else e ← client socket_epoch; start_db_op (DbRead e).

(** The handler of [async_connect]. *)
Definition on_connect (ok : bool) : L unit :=
  if negb ok then schedule_reconnect
  else
    upd_client (fun c => c <| socket_is_open := true |> <| socket_epoch ::= Z.succ |>
      <| connected_ := true |> <| reconnect_sec_ := 2 |> <| server_login_sent_ := false |>
      <| authed_ := false |>);;
    server_send_login;;
    do_read_some;;
    arm_heartbeat_timer.

Definition secret_bytes : list byte := String.list_byte_of_string (secret_ cfg).

(** The message without the secret, if it starts with it. *)
Definition strip_secret (raw : list byte) : list byte :=
  if decide (take (length secret_bytes) raw = secret_bytes)
  then drop (length secret_bytes) raw else raw.

(** What the router does with a message. *)
Context `{Wire} (on_message : json -> L unit) (on_message_pb : Envelope -> L unit).

Definition handle_bytes (bytes : list byte) : L unit :=
  match ParseFromArray (strip_secret bytes) with
  | Some env => on_message_pb env
  | None =>
      match parse (String.string_of_list_byte bytes) with
      | inl parse_error => mret tt
      | inl out_of_range => db_emit (DbAlert "[ALERT][DBMW] Unexpected JSON exception")
      | inr j =>
          catch (on_message j)
            (fun e => match e with
                      | ParseError => mret tt
                      | _ => db_emit (DbAlert "[ALERT][DBMW] Unexpected JSON exception")
                      end)
      end
  end.

Definition take_bytes : L (option (list byte)) := fun d =>
  let '(m, b) := extract_message (msg_buf_mgr_ (d_client d)) in
  (Ret m, d <| d_client ::= fun c => c <| msg_buf_mgr_ := b |> |>).

Fixpoint read_frames (fuel : nat) : L unit :=
  match fuel with
  | O => ub
  | S fuel' =>
      m ← take_bytes;
      match m with
      | None => mret tt
      | Some bytes => handle_bytes bytes;; read_frames fuel'
      end
  end.

(** The handler of [async_read_some]; [None] is an error. *)
Definition on_read (data : option (list byte)) : L unit :=
  match data with
  | None => close_socket;; schedule_reconnect
  | Some data =>
      upd_client (fun c => c <| msg_buf_mgr_ ::= fun b => append b data |>);;
      fuel ← client (fun c => S (length (buffer_ (msg_buf_mgr_ c))));
      read_frames fuel;;
      invalid ← client (fun c => was_last_clear_by_invalid_length (msg_buf_mgr_ c));
      if (invalid : bool) then close_socket;; schedule_reconnect else do_read_some
  end.
End client.
