(* ===== verification/DbRouter.v ===== *)
(** * DBmwRouter.{h,cpp} and its registered handlers

    Requests to the DB middleware, matched with their answers by request id,
    repeated on timeout; messages from the middleware; the handlers of
    [Handlers/DBmw/*.cpp]; the metrics timer. *)
From Stdlib Require Import ZArith Lia Strings.Byte.
From stdpp Require Import base gmap sets list strings pretty.
From S2P Require Import Prelude MessageBuffer RateLimit Json DbLink DbClient.

Open Scope Z_scope.

Section router.
Context `{Platform} (cfg : Settings).

Definition set_senders : L unit := upd_router (fun r => r <| senders_set := true |>).

Definition register_handler (type : string) (h : Handler) : L unit :=
  upd_router (fun r => r <| handlers_ ::= <[type := h]> |>).

(** The functions [main] passes to [set_senders]. *)
Definition sender (secure : bool) (j : json) : L unit :=
  if secure then send_secure_json cfg j else send_json j.

(** ** Request ids *)

Definition make_req_id (session_id : Z) : L string :=
  upd_router (fun r => r <| req_seq_ ::= Z.succ |>);;
  seq ← router req_seq_;
  mret (if (0 <=? session_id)%Z then pretty session_id +:+ "_" +:+ pretty seq
        else "srv-" +:+ pretty (process_id cfg) +:+ "-" +:+ pretty seq)%string.

Definition is_digit (a : Ascii.ascii) : bool :=
  (Nat.leb 48 (Ascii.nat_of_ascii a)) && (Nat.leb (Ascii.nat_of_ascii a) 57).

Fixpoint leading_digits (s : string) : string :=
  match s with
  | EmptyString => EmptyString
  | String a s' => if is_digit a then String a (leading_digits s') else EmptyString
  end.

(** The value of a string of digits. *)
Fixpoint number_of (acc : Z) (s : string) : Z :=
  match s with
  | EmptyString => acc
  | String a s' => number_of (acc * 10 + (Z.of_nat (Ascii.nat_of_ascii a) - 48)) s'
  end.

(** [std::stoi] throws when the number is no [int]. *)
Definition extract_session_id_from_req (req_id : string) : Z :=
  let digits := leading_digits req_id in
  if decide (digits = EmptyString) then -1
  else if number_of 0 digits <? 2 ^ 31 then number_of 0 digits else -1.

(** ** Sending and timeouts *)

Definition find_pending (req_id : string) : L (option Pending) :=
  router (fun r => pending_ r !! req_id).

Definition schedule_retry (req_id : string) (delay : Z) : L unit :=
  p ← find_pending req_id;
  match p with
  | None => mret tt
  | Some _ =>
      t ← db_now;
      upd_router (fun r => r <| retry_waits ::= fun l => l ++ [(req_id, t + milliseconds delay)] |>)
  end.

Definition send_now_locked (req_id : string) : L unit :=
  p ← find_pending req_id;
  match p with
  | None => mret tt
  | Some p =>
      catch (
        set ← router senders_set;
        when set (sender (secure p) (request_json p));;
        upd_router (fun r => r <| m_sent_ ::= Z.succ |>);;
        lift (value_str (request_json p) "api" "");;
        mret tt)
        (fun _ => schedule_retry req_id 500)
  end.

Definition arm_timeout_locked (req_id : string) : L unit :=
  p ← find_pending req_id;
  match p with
  | None => mret tt
  | Some p =>
      t ← db_now;
      upd_router (fun r => r <| pending_ ::=
        <[req_id := p <| timer := Some (t + milliseconds (timeout_ms p)) |>]> |>)
  end.

Definition fulfill_and_erase_locked (req_id : string) (result : json) (success : bool) : L unit :=
  p ← find_pending req_id;
  match p with
  | None => mret tt
  | Some _ =>
      upd_router (fun r => r <| pending_ ::= delete req_id |>);;
      db_emit (DbPromise req_id result);;
      if success then upd_router (fun r => r <| m_ok_ ::= Z.succ |>)
      else upd_router (fun r => r <| m_fail_ ::= Z.succ |>)
  end.

Definition timeout_error (req_id : string) : json :=
  obj [("type", JStr "error"); ("code", JInt (-110)%Z); ("msg", JStr "timeout");
       ("req_id", JStr req_id)]%string.

(** The handler of a request's timer. *)
Definition on_timeout (req_id : string) : L unit :=
  p ← find_pending req_id;
  match p with
  | None => mret tt
  | Some p =>
      if retries p <? max_retries p then
        upd_router (fun r => r <| pending_ ::= <[req_id := p <| retries ::= Z.succ |>]> |>);;
        upd_router (fun r => r <| m_retry_ ::= Z.succ |>);;
        send_now_locked req_id;;
        arm_timeout_locked req_id
      else
        upd_router (fun r => r <| m_to_ ::= Z.succ |>);;
        fulfill_and_erase_locked req_id (timeout_error req_id) false
  end.

(** ** Requests *)

(** The members of [payload] are set one by one; iterating over a value that
    is neither an object nor null has no keys. *)
Definition merge_payload (req : list (string * json)) (payload : json) : res (list (string * json)) :=
  match payload with
  | JNull => Ret req
  | JObj o => Ret (foldl (fun r kv => obj_set (fst kv) (snd kv) r) req o)
  | JArr [] => Ret req
  | _ => Exn StdError
  end.

Definition request_of (api req_id : string) (payload : json) : res json :=
  match merge_payload
          (obj_set "req_id" (JStr req_id) (obj_set "api" (JStr api) [("type", JStr "db_query")]))
          payload with
  | Ret o => Ret (JObj o)
  | Exn e => Exn e
  | UB => UB
  end%string.

(** [pending_.emplace]: an entry under the same id stays. *)
Definition add_pending (req_id : string) (p : Pending) : L unit :=
  upd_router (fun r => r <| pending_ ::= fun m =>
    match m !! req_id with Some _ => m | None => <[req_id := p]> m end |>).

Definition launch (req_id : string) (p : Pending) : L unit :=
  add_pending req_id p;;
  send_now_locked req_id;;
  arm_timeout_locked req_id.

Definition send_request (api : string) (payload : json) (secure : bool)
    (timeout_ms max_retries session_id : Z) : L string :=
  req_id ← make_req_id session_id;
  req ← lift (request_of api req_id payload);
  launch req_id (mkPending None req secure 0 max_retries timeout_ms session_id None None false);;
  mret req_id.

Definition not_set_error (req_id : string) : json :=
  obj [("type", JStr "error"); ("code", JInt (-1)%Z); ("msg", JStr "send function not set");
       ("req_id", JStr req_id)]%string.

(** Calling a callback that may be empty. *)
Definition call (cb : option callback) (j : json) : L unit :=
  match cb with
  | Some cb => db_emit (DbCallback cb j)
  | None => mret tt
  end.

Definition send_request_cb (api : string) (payload : json) (secure : bool)
    (timeout_ms max_retries session_id : Z) (on_ok on_error : option callback) : L string :=
  req_id ← make_req_id session_id;
  req ← lift (request_of api req_id payload);
  set ← router senders_set;
  (if negb set then call on_error (not_set_error req_id)
   else launch req_id (mkPending None req secure 0 max_retries timeout_ms session_id on_ok on_error true));;
  mret req_id.

(** The handler of a timer of [schedule_retry]. *)
Definition on_retry_timer (req_id : string) : L unit := send_now_locked req_id.

(** ** Messages from the middleware *)

Definition handle_login_ack (j : json) : L unit :=
  result ← lift (value_str j "result" "");
  nickname ← lift (value_str j "nickname" "");
  if decide (result = "OK"%string) then mark_authed true
  else
    mark_authed false;;
    stop;;
    start cfg.

Definition run_handler (h : Handler) (j : json) : L unit :=
  match h with
  | OnServerLoginAck => handle_login_ack j
  | OnServerKeepAliveAck => note_heartbeat_ack
  end.

Definition is_answer (type : string) : bool :=
  bool_decide (type ∈ ["db_query_result"; "db_error"; "dbmw_error"; "db_error_msg"]%string).

(** The lambda that looks the request up. *)
Definition answer (req_id : string) (j : json) : L unit :=
  p ← find_pending req_id;
  match p with
  | None => mret tt
  | Some p =>
      type ← lift (value_str j "type" "");
      let ok := bool_decide (type = "db_query_result"%string) in
      if use_callbacks p then
        fulfill_and_erase_locked req_id j ok;;
        if ok then call (on_ok p) j else call (on_error p) j
      else fulfill_and_erase_locked req_id j ok
  end.

Definition dispatch_type (type : string) (j : json) : L unit :=
  h ← router (fun r => handlers_ r !! type);
  match h with
  | Some h => run_handler h j
  | None => mret tt
  end.

Definition handle (j : json) : L unit :=
  type ← lift (value_str j "type" "");
  if is_answer type then
    req_id ← lift (value_str j "req_id" "");
    if decide (req_id = EmptyString) then dispatch_type type j else answer req_id j
  else dispatch_type type j.

Definition handle_envelope (env : Envelope) : L unit :=
  match env with
  | PbServerLoginAck result nickname =>
      if decide (result = "ok"%string) then mark_authed true else mret tt
  | PbKeepaliveAck => note_heartbeat_ack
  | PbDbQueryResult req_id code api data_json =>
      handle (obj [("type", JStr "db_query_result"); ("api", JStr api); ("code", JInt code);
                   ("req_id", JStr req_id); ("data", JStr data_json)]%string)
  | PbError req_id code msg =>
      handle (obj [("type", JStr "db_error"); ("code", JInt code); ("req_id", JStr req_id);
                   ("msg", JStr msg)]%string)
  | PbUnhandled => mret tt
  end.

(** ** Metrics *)

Record Metrics := mkMetrics {
  sent : Z;
  ok : Z;
  timed_out : Z;
  retried : Z;
  failed : Z
}.

Definition metrics_snapshot : L Metrics :=
  router (fun r => mkMetrics (m_sent_ r) (m_ok_ r) (m_to_ r) (m_retry_ r) (m_fail_ r)).

Definition schedule_next_metrics (interval : Z) : L unit :=
  t ← db_now;
  upd_router (fun r => r <| metrics_timer_ := Some (interval, t + interval) |>).

Definition start_metrics_timer (interval : Z) : L unit := schedule_next_metrics interval.

Definition on_metrics_timer (interval : Z) : L unit :=
  metrics_snapshot;;
  current_timeouts ← get_timeout_count;
  last ← router last_timeout_count_;
  when (50 <? current_timeouts - last)
    (db_emit (DbAlert ("[DBmwRouter] ALERT: Timeout surge detected! count=" +:+ pretty current_timeouts)));;
  upd_router (fun r => r <| last_timeout_count_ := current_timeouts |>);;
  schedule_next_metrics interval.

(** ** Start-up

    [DBmwHandlerRegistry::attach] and the rest of [main]. *)
Definition new_router : Router := {|
  senders_set := false; handlers_ := ∅; pending_ := ∅; req_seq_ := 0; m_sent_ := 0; m_ok_ := 0;
  m_to_ := 0; m_retry_ := 0; m_fail_ := 0; last_timeout_count_ := 0; metrics_timer_ := None;
  retry_waits := []
|}.

Definition attach : L unit :=
  register_handler "server_login_ack" OnServerLoginAck;;
  register_handler "keepalive_ack" OnServerKeepAliveAck.

Definition connect_db : L unit :=
  attach;;
  attach;;
  set_senders;;
  start cfg.

Definition initial_db (now tcp_port : Z) : Db := {|
  d_now := now; d_tcp_port := tcp_port; d_client := new_client; d_router := new_router;
  d_ops := []; d_out := []
|}.
End router.
