(* ===== verification/DbSystem.v ===== *)
(** * The DB link as a transition system

    The events of the link: completions of its operations, expiries of its
    timers, requests of the game server, start and stop, time.  One invariant,
    kept by every handler, carries the theorems of this file and of [DbSpec]. *)
From Stdlib Require Import ZArith Lia Strings.Byte.
From stdpp Require Import base gmap sets list strings pretty.
From S2P Require Import Prelude MessageBuffer RateLimit Json DbLink DbClient DbRouter.

Open Scope Z_scope.

#[export] Instance RequestTimer_eq_dec : EqDecision RequestTimer.
Proof. solve_decision. Defined.

Inductive DbEvent :=
| DbResolved (ok : bool)
| DbConnected (ok : bool)
| DbReadDone (epoch : Z) (data : option (list byte))
| DbWritten (epoch : Z) (data : list byte) (ok : bool)
| DbReconnect
| DbHeartbeat
| DbRequestTimer (w : RequestTimer)
| DbTimeout (req_id : string)
| DbRetry (req_id : string) (expiry : Z)
| DbMetrics
| DbRequest (api : string) (payload : json) (secure : bool) (timeout_ms max_retries session_id : Z)
    (ok error : option callback)            (** [send_request_cb] *)
| DbFuture (api : string) (payload : json) (secure : bool) (timeout_ms max_retries session_id : Z)
                                            (** [send_request] *)
| DbStart
| DbStop
| DbTick (elapsed : Z).

Definition db_completes (e : DbEvent) : option DbOp :=
  match e with
  | DbResolved _ => Some DbResolve
  | DbConnected _ => Some DbConnect
  | DbReadDone epoch _ => Some (DbRead epoch)
  | DbWritten epoch data _ => Some (DbWrite epoch data)
  | _ => None
  end.

Fixpoint remove_one {A} `{EqDecision A} (x : A) (l : list A) : list A :=
  match l with
  | [] => []
  | y :: l' => if decide (y = x) then l' else y :: remove_one x l'
  end.

Definition expired (t : option Z) (d : Db) : bool :=
  match t with Some t => t <=? d_now d | None => false end.

Definition db_enabled (e : DbEvent) (d : Db) : bool :=
  let c := d_client d in
  let r := d_router d in
  match db_completes e with
  | Some o =>
      bool_decide (o ∈ d_ops d) &&
      match e with
      | DbReadDone epoch (Some data) => (0 <? len data) && (len data <=? 4096)
      | _ => true
      end
  | None =>
      match e with
      | DbReconnect => expired (reconnect_timer_ c) d
      | DbHeartbeat => expired (heartbeat_timer_ c) d
      | DbRequestTimer w => bool_decide (w ∈ request_waits c) && (rt_expiry w <=? d_now d)
      | DbTimeout req_id => match pending_ r !! req_id with
                            | Some p => expired (timer p) d
                            | None => false
                            end
      | DbRetry req_id expiry => bool_decide ((req_id, expiry) ∈ retry_waits r) && (expiry <=? d_now d)
      | DbMetrics => expired (snd <$> metrics_timer_ r) d
      | DbTick elapsed => 0 <=? elapsed
      | _ => true
      end
  end.

Section system.
Context `{Platform} `{Wire} (cfg : Settings).

Definition db_handler (e : DbEvent) : L unit :=
  match e with
  | DbResolved ok => on_resolve ok
  | DbConnected ok => on_connect cfg ok
  | DbReadDone _ data => on_read cfg (handle cfg) (handle_envelope cfg) data
  | DbWritten _ _ ok => on_write ok
  | DbReconnect => on_reconnect_timer cfg
  | DbHeartbeat => on_heartbeat_timer cfg
  | DbRequestTimer w =>
      upd_client (fun c => c <| request_waits ::= remove_one w |>);;
      on_request_timer w
  | DbTimeout req_id => on_timeout cfg req_id
  | DbRetry req_id expiry =>
      upd_router (fun r => r <| retry_waits ::= remove_one (req_id, expiry) |>);;
      on_retry_timer cfg req_id
  | DbMetrics =>
      m ← router metrics_timer_;
      match m with
      | Some (interval, _) => on_metrics_timer interval
      | None => mret tt
      end
  | DbRequest api payload secure ms n id ok error =>
      send_request_cb cfg api payload secure ms n id ok error;; mret tt
  | DbFuture api payload secure ms n id => send_request cfg api payload secure ms n id;; mret tt
  | DbStart => start cfg
  | DbStop => stop
  | DbTick elapsed => modify (fun d => d <| d_now ::= fun t => t + elapsed |>)
  end.

Definition db_run (e : DbEvent) : L unit :=
  match db_completes e with
  | Some o => modify (fun d => d <| d_ops ::= remove_one o |>)
  | None => mret tt
  end;;
  db_handler e.

(** An exception that leaves a handler leaves the state as it is. *)
Definition db_step (d : Db) (e : DbEvent) (d' : Db) : Prop :=
  db_enabled e d = true /\ snd (db_run e d) = d' /\ fst (db_run e d) <> UB.

Inductive db_reachable (now tcp_port : Z) : Db -> Prop :=
| db_reach_initial : db_reachable now tcp_port (exec (connect_db cfg) (initial_db now tcp_port))
| db_reach_step d e d' :
    db_reachable now tcp_port d -> db_step d e d' -> db_reachable now tcp_port d'.
End system.

(** ** The invariant *)

Definition is_write (o : DbOp) : bool :=
  match o with DbWrite _ _ => true | _ => false end.
Definition writes (l : list DbOp) : list DbOp := List.filter is_write l.

Definition is_send (o : DbOut) : bool :=
  match o with DbSend _ => true | _ => false end.
Definition sends_made (l : list DbOut) : nat := length (List.filter is_send l).

Definition retries_ok (p : Pending) : Prop := 0 <= retries p <= Z.max 0 (max_retries p).

(** [hole]: the request that is being launched and whose timer is not set yet.
    [w]: a wait that must not disappear.  [mute]: when it is [Some n], the queue
    is not empty, no write is outstanding, and [n] frames have been sent.
    [buf]: the contents of the read buffer, when it is known. *)
Record LinkInv (hole : option string) (w : option RequestTimer) (mute : option nat)
    (buf : option MessageBufferManager) (d : Db) : Prop := {
  li_writes : (length (writes (d_ops d)) <= 1)%nat;
  li_head : forall e data, DbWrite e data ∈ d_ops d -> head (write_queue_ (d_client d)) = Some data;
  li_busy : write_in_progress_ (d_client d) = true <-> write_queue_ (d_client d) <> [];
  li_sec : 2 <= reconnect_sec_ (d_client d) <= reconnect_sec_max_;
  li_armed : forall id p, pending_ (d_router d) !! id = Some p -> Some id <> hole -> is_Some (timer p);
  li_retries : map_Forall (fun _ p => retries_ok p) (pending_ (d_router d));
  li_wait : forall x, w = Some x -> x ∈ request_waits (d_client d);
  li_mute : forall n, mute = Some n -> write_queue_ (d_client d) <> [] /\ writes (d_ops d) = [] /\
              sends_made (d_out d) = n;
  li_buf : forall b, buf = Some b -> msg_buf_mgr_ (d_client d) = b
}.

(** A change of the client that keeps what the invariant reads. *)
Definition minor (f : Client -> Client) : Prop := forall c,
  write_queue_ (f c) = write_queue_ c /\ write_in_progress_ (f c) = write_in_progress_ c /\
  request_waits (f c) = request_waits c /\ msg_buf_mgr_ (f c) = msg_buf_mgr_ c /\
  (2 <= reconnect_sec_ c <= reconnect_sec_max_ -> 2 <= reconnect_sec_ (f c) <= reconnect_sec_max_).

Section safety.
Context (hole : option string) (w : option RequestTimer) (mute : option nat)
  (buf : option MessageBufferManager).
Abbreviation I := (LinkInv hole w mute buf).

Lemma safe_minor f E : minor f -> safe I (upd_client f) E (fun _ => True).
Proof.
  intros Hf. apply safe_modify. intros d Hd. destruct Hd.
  destruct (Hf (d_client d)) as (H1 & H2 & H3 & H4 & H5).
  split; cbn [d_client d_ops d_router d_out set_field]; rewrite ?H1, ?H2, ?H3, ?H4; auto.
Qed.

Lemma safe_router_other f E :
  (forall r, pending_ (f r) = pending_ r) -> safe I (upd_router f) E (fun _ => True).
Proof.
  intros Hf. apply safe_modify. intros d Hd. destruct Hd.
  split; cbn [d_client d_ops d_router d_out set_field]; try done; [intros id p |]; rewrite Hf; [apply li_armed0 | done].
Qed.

Lemma safe_read {A} (f : Db -> A) E : safe I (gets f) E (fun _ => True).
Proof. by apply safe_gets. Qed.

Lemma safe_client {A} (f : Client -> A) E : safe I (client f) E (fun _ => True).
Proof. by apply safe_gets. Qed.

Lemma safe_router {A} (f : Router -> A) E : safe I (router f) E (fun _ => True).
Proof. by apply safe_gets. Qed.

Lemma safe_db_now E : safe I db_now E (fun _ => True).
Proof. by apply safe_gets. Qed.

Lemma safe_db_emit o E : is_send o = false -> safe I (db_emit o) E (fun _ => True).
Proof.
  intros Ho. apply safe_modify. intros d Hd. destruct Hd. split; try done. cbn.
  intros n Hn. destruct (li_mute0 n Hn) as (H1 & H2 & H3). split; [done |]. split; [done |].
  unfold sends_made in *. rewrite List.filter_app. cbn. by rewrite Ho, app_nil_r.
Qed.

Lemma safe_start_db_op o E : is_write o = false -> safe I (start_db_op o) E (fun _ => True).
Proof.
  intros Ho. apply safe_modify. intros d Hd. destruct Hd.
  assert (Hw : writes (d_ops d ++ [o]) = writes (d_ops d)).
  { unfold writes. rewrite List.filter_app. cbn. by rewrite Ho, app_nil_r. }
  split; try done; cbn [d_ops d_client d_out set_field]; rewrite ?Hw; try done.
  intros e data [Hin | Hin]%elem_of_app; [by eapply li_head0 |].
  apply list_elem_of_singleton in Hin. by rewrite <- Hin in Ho.
Qed.

Lemma safe_close_socket E : safe I close_socket E (fun _ => True).
Proof. apply safe_minor. intros c. cbn. auto. Qed.

Lemma safe_schedule_reconnect E : safe I schedule_reconnect E (fun _ => True).
Proof.
  unfold schedule_reconnect. eapply safe_bind; [apply safe_minor; by intros c |]. intros _ _.
  eapply safe_bind; [apply safe_client |]. intros stopping _. destruct stopping; [by apply safe_mret |].
  eapply safe_bind; [apply safe_db_now |]. intros t _.
  eapply safe_bind; [| intros _ _; by apply safe_minor; intros c].
  apply safe_minor. intros c. do 4 (split; [done |]). unfold reconnect_sec_max_. cbn. lia.
Qed.

Lemma safe_disconnect E : safe I (close_socket;; schedule_reconnect) E (fun _ => True).
Proof. eapply safe_bind; [apply safe_close_socket |]. intros _ _. apply safe_schedule_reconnect. Qed.

Lemma safe_do_connect cfg E : safe I (do_connect cfg) E (fun _ => True).
Proof.
  unfold do_connect. eapply safe_bind; [apply safe_client |]. intros stopping _.
  destruct stopping; [by apply safe_mret |].
  eapply safe_bind; [apply safe_read |]. intros port _.
  destruct (decide _); [by apply safe_mret | by apply safe_start_db_op].
Qed.

Lemma safe_db_start cfg E : safe I (start cfg) E (fun _ => True).
Proof. eapply safe_bind; [apply safe_minor; by intros c |]. intros _ _. apply safe_do_connect. Qed.

Lemma safe_db_stop E : safe I stop E (fun _ => True).
Proof.
  unfold stop. eapply safe_bind; [apply safe_minor; by intros c |]. intros _ _.
  eapply safe_bind; [apply safe_close_socket |]. intros _ _.
  eapply safe_bind; [apply safe_minor; by intros c |]. intros _ _. apply safe_minor; by intros c.
Qed.

Lemma safe_on_reconnect_timer cfg E : safe I (on_reconnect_timer cfg) E (fun _ => True).
Proof.
  unfold on_reconnect_timer. eapply safe_bind; [apply safe_minor; by intros c |]. intros _ _.
  eapply safe_bind; [apply safe_client |]. intros [] _; [by apply safe_mret | apply safe_do_connect].
Qed.

Lemma safe_on_resolve ok E : safe I (on_resolve ok) E (fun _ => True).
Proof. destruct ok; [by apply safe_start_db_op | apply safe_schedule_reconnect]. Qed.

(** Starting to write the first frame of the queue: no write is outstanding. *)
Lemma inv_start_db_write d data rest :
  I d -> writes (d_ops d) = [] -> write_queue_ (d_client d) = data :: rest -> mute = None ->
  I (d <| d_ops ::= fun l => l ++ [DbWrite (socket_epoch (d_client d)) data] |>
       <| d_out ::= fun l => l ++ [DbSend data] |>).
Proof.
  intros Hd Hw Hq Hm. destruct Hd. split; cbn [d_client d_ops d_router d_out set_field]; try done.
  - unfold writes in *. rewrite List.filter_app, Hw. cbn. lia.
  - intros e x [Hin | Hin]%elem_of_app; [by eapply li_head0 |].
    apply list_elem_of_singleton in Hin. injection Hin as _ ->. by rewrite Hq.
  - by rewrite Hm.
Qed.

Lemma safe_send_framed body E : safe I (send_framed body) E (fun _ => True).
Proof.
  intros d Hd. unfold send_framed. change ((client connected_ ≫= ?k) d) with (k (connected_ (d_client d)) d).
  cbv beta. destruct (connected_ (d_client d)); cbn [negb]; [| by split].
  set (data := frame _).
  change ((client ?f ≫= ?k) d) with (k (f (d_client d)) d). cbv beta.
  set (d1 := d <| d_client ::= fun c => c <| write_queue_ ::= fun q => q ++ [data] |> |>).
  change ((upd_client ?f ≫= ?k) d) with (k tt d1). cbv beta.
  change ((client ?f ≫= ?k) d1) with (k (f (d_client d1)) d1). cbv beta.
  change (write_in_progress_ (d_client d1)) with (write_in_progress_ (d_client d)).
  destruct (write_queue_ (d_client d)) as [| x q] eqn:Hq.
  - assert (Hbusy : write_in_progress_ (d_client d) = false).
    { apply not_true_is_false. intros Hb. apply (li_busy _ _ _ _ _ Hd) in Hb. by rewrite Hq in Hb. }
    assert (Hno : writes (d_ops d) = []).
    { destruct (writes (d_ops d)) as [| o l] eqn:E'; [done |].
      assert (Hin : In o (writes (d_ops d))) by (rewrite E'; by left).
      apply filter_In in Hin as [Hin Ho]. destruct o as [| | | e x]; try done.
      apply list_elem_of_In, (li_head _ _ _ _ _ Hd) in Hin. by rewrite Hq in Hin. }
    assert (Hm : mute = None).
    { destruct mute as [n |] eqn:Em; [| done]. destruct (li_mute _ _ _ _ _ Hd n eq_refl) as [Hne _].
      by rewrite Hq in Hne. }
    rewrite bool_decide_true by done. rewrite Hbusy. cbn [andb negb when].
    set (d2 := d1 <| d_client ::= fun c => c <| write_in_progress_ := true |> |>).
    assert (Hd2 : I d2).
    { destruct Hd. split; unfold d2, d1; cbn [d_client d_ops d_router d_out set_field]; try done.
      - intros e y Hin. exfalso. apply list_elem_of_In in Hin.
        assert (Hin' : In (DbWrite e y) (writes (d_ops d))) by by apply filter_In.
        by rewrite Hno in Hin'.
      - cbn. rewrite Hq. done.
      - by rewrite Hm. }
    assert (Hq2 : write_queue_ (d_client d2) = [data]) by (unfold d2, d1; cbn; by rewrite Hq).
    change ((upd_client ?f ≫= ?k) d1) with (k tt d2). cbv beta. unfold flush_write_queue.
    change ((client ?f ≫= ?k) d2) with (k (f (d_client d2)) d2). cbv beta. rewrite Hq2.
    split; [done |]. by apply (inv_start_db_write d2 data []).
  - rewrite bool_decide_false by done. cbn [andb when]. split; [done |].
    destruct Hd. split; unfold d1; cbn [d_client d_ops d_router d_out set_field]; try done.
    + intros e y Hin. specialize (li_head0 e y Hin). cbn. rewrite Hq in *. done.
    + cbn. rewrite li_busy0, Hq. done.
    + intros n Hn. destruct (li_mute0 n Hn) as (_ & H2 & H3). split; [| done]. cbn. by rewrite Hq.
Qed.

(** ** Requests of the client *)

Lemma safe_generate_request_id E : safe I generate_request_id E (fun _ => True).
Proof.
  unfold generate_request_id. eapply safe_bind; [apply safe_minor; by intros c |]. intros _ _.
  eapply safe_bind; [apply safe_client |]. intros. by apply safe_mret.
Qed.

Lemma safe_arm_request_timer id b E : safe I (arm_request_timer id b) E (fun _ => True).
Proof.
  unfold arm_request_timer. eapply safe_bind; [apply safe_db_now |]. intros t _.
  apply safe_modify. intros d Hd. destruct Hd. split; try done. cbn.
  intros x Hx. apply elem_of_app. left. by apply li_wait0.
Qed.

Section sending.
Context `{Platform} (cfg : Settings).

Lemma safe_ensure_request_id j : safe I (ensure_request_id j) (eq TypeError) (fun _ => True).
Proof.
  unfold ensure_request_id. destruct j as [| | | | | | o];
    try (eapply safe_bind; [apply safe_generate_request_id |]; intros id _;
         first [by apply safe_mret | by apply safe_throw]).
  destruct (obj_get "request_id" o) as [[] |]; try (by apply safe_throw); [by apply safe_mret |].
  eapply safe_bind; [apply safe_generate_request_id |]. intros id _. by apply safe_mret.
Qed.

Lemma safe_send_json j E : safe I (send_json j) E (fun _ => True).
Proof.
  apply (safe_catch _ _ (eq TypeError)).
  - eapply safe_bind; [apply safe_ensure_request_id |]. intros r _.
    eapply safe_bind; [apply safe_send_framed |]. intros _ _. apply safe_arm_request_timer.
  - intros e _. eapply safe_bind; [by apply safe_db_emit |]. intros _ _. apply safe_disconnect.
Qed.

Lemma safe_send_secure_json j : safe I (send_secure_json cfg j) (eq TypeError) (fun _ => True).
Proof.
  eapply safe_bind; [apply safe_ensure_request_id |]. intros r _.
  eapply safe_bind; [apply safe_send_framed |]. intros _ _. apply safe_arm_request_timer.
Qed.

(** Objects without a request id never make it throw. *)
Lemma safe_send_secure_obj o E :
  obj_get "request_id" o = None -> safe I (send_secure_json cfg (JObj o)) E (fun _ => True).
Proof.
  intros Ho. unfold send_secure_json, ensure_request_id. rewrite Ho.
  eapply (safe_bind _ _ _ _ (fun _ => True)).
  { eapply safe_bind; [apply safe_generate_request_id |]. intros id _. by apply safe_mret. }
  intros r _. eapply safe_bind; [apply safe_send_framed |]. intros _ _. apply safe_arm_request_timer.
Qed.

Lemma safe_server_send_login E : safe I (server_send_login cfg) E (fun _ => True).
Proof.
  unfold server_send_login. eapply safe_bind; [apply safe_client |]. intros sent _.
  eapply safe_bind; [apply safe_minor; by intros c |]. intros _ _.
  destruct sent; [by apply safe_mret | by apply safe_send_secure_obj].
Qed.

Lemma safe_arm_heartbeat E : safe I (arm_heartbeat_timer cfg) E (fun _ => True).
Proof.
  eapply safe_bind; [apply safe_db_now |]. intros t _. apply safe_minor; by intros c.
Qed.

Lemma safe_on_heartbeat_timer E : safe I (on_heartbeat_timer cfg) E (fun _ => True).
Proof.
  unfold on_heartbeat_timer. eapply safe_bind; [apply safe_minor; by intros c |]. intros _ _.
  eapply safe_bind; [apply safe_client |]. intros [] _; [by apply safe_mret |].
  eapply safe_bind; [apply safe_client |]. intros [] _; [| apply safe_arm_heartbeat].
  eapply safe_bind; [by apply safe_send_secure_obj |]. intros _ _.
  eapply safe_bind; [apply safe_minor; by intros c |]. intros _ _.
  eapply safe_bind; [apply safe_client |]. intros misses _.
  destruct (_ <=? _); [apply safe_disconnect | apply safe_arm_heartbeat].
Qed.

Lemma safe_do_read_some E : safe I do_read_some E (fun _ => True).
Proof.
  unfold do_read_some. eapply safe_bind; [apply safe_client |]. intros [] _; [| by apply safe_mret].
  eapply safe_bind; [apply safe_client |]. intros e _. by apply safe_start_db_op.
Qed.

Lemma safe_on_connect ok E : safe I (on_connect cfg ok) E (fun _ => True).
Proof.
  unfold on_connect. destruct ok; cbn [negb]; [| apply safe_schedule_reconnect].
  eapply safe_bind.
  { apply safe_minor. intros c. do 4 (split; [done |]). unfold reconnect_sec_max_. cbn. lia. }
  intros _ _. eapply safe_bind; [apply safe_server_send_login |]. intros _ _.
  eapply safe_bind; [apply safe_do_read_some |]. intros _ _. apply safe_arm_heartbeat.
Qed.

(** ** The router *)

Lemma safe_schedule_retry id n E : safe I (schedule_retry id n) E (fun _ => True).
Proof.
  unfold schedule_retry, find_pending. eapply safe_bind; [apply safe_router |].
  intros [p |] _; [| by apply safe_mret]. eapply safe_bind; [apply safe_db_now |]. intros t _.
  by apply safe_router_other.
Qed.

Lemma safe_value_json j key dflt :
  safe I (lift (value_str j key dflt)) (eq TypeError) (fun _ => True).
Proof.
  apply safe_lift. unfold value_str. destruct j; try done. by destruct (obj_get key o) as [[] |].
Qed.

Lemma safe_send_now_locked id E : safe I (send_now_locked cfg id) E (fun _ => True).
Proof.
  unfold send_now_locked, find_pending. eapply safe_bind; [apply safe_router |].
  intros [p |] _; [| by apply safe_mret]. apply (safe_catch _ _ (eq TypeError)).
  - eapply safe_bind; [apply safe_router |]. intros set _.
    eapply safe_bind.
    { eapply safe_when. intros _. unfold sender. destruct (secure p);
        [apply safe_send_secure_json | apply safe_send_json]. }
    intros _ _. eapply safe_bind; [by apply safe_router_other |]. intros _ _.
    eapply safe_bind; [apply safe_value_json |]. intros _ _. by apply safe_mret.
  - intros e _. apply safe_schedule_retry.
Qed.

Lemma safe_fulfill id r b E : safe I (fulfill_and_erase_locked id r b) E (fun _ => True).
Proof.
  unfold fulfill_and_erase_locked, find_pending. eapply safe_bind; [apply safe_router |].
  intros [p |] _; [| by apply safe_mret].
  eapply (safe_bind _ _ _ _ (fun _ => True)).
  { apply safe_modify. intros d Hd. destruct Hd. split; try done; cbn.
    - intros k q Hk. apply lookup_delete_Some in Hk as [_ Hk]. by apply (li_armed0 k q).
    - intros k q Hk. apply lookup_delete_Some in Hk as [_ Hk]. by apply (li_retries0 k). }
  intros _ _. eapply safe_bind; [by apply safe_db_emit |]. intros _ _.
  destruct b; by apply safe_router_other.
Qed.

Lemma safe_call cb j E : safe I (call cb j) E (fun _ => True).
Proof. destruct cb; [by apply safe_db_emit | by apply safe_mret]. Qed.

Lemma safe_answer id j : safe I (answer id j) (eq TypeError) (fun _ => True).
Proof.
  unfold answer, find_pending. eapply safe_bind; [apply safe_router |].
  intros [p |] _; [| by apply safe_mret]. eapply safe_bind; [apply safe_value_json |]. intros type _.
  destruct (use_callbacks p); [| apply safe_fulfill].
  eapply safe_bind; [apply safe_fulfill |]. intros _ _.
  destruct (bool_decide _); apply safe_call.
Qed.

Lemma safe_dispatch_type type j : safe I (dispatch_type cfg type j) (eq TypeError) (fun _ => True).
Proof.
  unfold dispatch_type. eapply safe_bind; [apply safe_router |].
  intros [[] |] _; [| apply safe_minor; by intros c | by apply safe_mret]. cbn [run_handler].
  unfold handle_login_ack. do 2 (eapply safe_bind; [apply safe_value_json | intros ? _]).
  destruct (decide _); [apply safe_minor; by intros c |].
  eapply safe_bind; [apply safe_minor; by intros c |]. intros _ _.
  eapply safe_bind; [apply safe_db_stop |]. intros _ _. apply safe_db_start.
Qed.

Lemma safe_handle j : safe I (handle cfg j) (eq TypeError) (fun _ => True).
Proof.
  unfold handle. eapply safe_bind; [apply safe_value_json |]. intros type _.
  destruct (is_answer type); [| apply safe_dispatch_type].
  eapply safe_bind; [apply safe_value_json |]. intros id _.
  destruct (decide _); [apply safe_dispatch_type | apply safe_answer].
Qed.

Lemma safe_handle_envelope env : safe I (handle_envelope cfg env) (eq TypeError) (fun _ => True).
Proof.
  destruct env; cbn [handle_envelope]; try apply safe_handle.
  - destruct (decide _); [apply safe_minor; by intros c | by apply safe_mret].
  - apply safe_minor; by intros c.
  - by apply safe_mret.
Qed.

Lemma safe_on_metrics_timer n E : safe I (on_metrics_timer n) E (fun _ => True).
Proof.
  unfold on_metrics_timer. eapply safe_bind; [apply safe_router |]. intros snapshot _.
  eapply safe_bind; [apply safe_client |]. intros cur _.
  eapply safe_bind; [apply safe_router |]. intros last _.
  eapply safe_bind; [eapply safe_when; intros _; by apply safe_db_emit |]. intros _ _.
  eapply safe_bind; [by apply safe_router_other |]. intros _ _.
  eapply safe_bind; [apply safe_db_now |]. intros t _. by apply safe_router_other.
Qed.
End sending.
End safety.

(** ** Handlers that open the invariant for a moment *)

Section handlers.
Context `{Platform} `{Wire} (cfg : Settings).
Context (w : option RequestTimer) (mute : option nat).
Abbreviation I := (LinkInv None w mute None).

Lemma inv_forget_buf hole buf d : LinkInv hole w mute buf d -> LinkInv hole w mute None d.
Proof using Type. intros Hd. destruct Hd. by split. Qed.

Lemma inv_open hole d : I d -> LinkInv hole w mute None d.
Proof using Type.
  intros Hd. destruct Hd. split; try done. intros id p Hp _. by apply (li_armed0 id p).
Qed.

(** *** Requests *)

Lemma safe_launch id p E : retries_ok p -> safe I (launch cfg id p) E (fun _ => True).
Proof using Type.
  intros Hp. unfold launch.
  apply (hoare_bind _ _ _ _ (fun _ => LinkInv (Some id) w mute None)).
  { intros d Hd. destruct Hd. split; try done; cbn.
    - intros k q Hk Hne. destruct (pending_ (d_router d) !! id) as [x |] eqn:Hid; [by apply (li_armed0 k q) |].
      rewrite lookup_insert_ne in Hk by congruence. by apply (li_armed0 k q).
    - destruct (pending_ (d_router d) !! id); [done | by apply map_Forall_insert_2]. }
  intros _. apply (hoare_bind _ _ _ _ (fun _ => LinkInv (Some id) w mute None)).
  { intros d Hd. pose proof (safe_send_now_locked (Some id) w mute None cfg id never d Hd) as Hs.
    destruct (send_now_locked cfg id d) as [[[] | e |] d']; [apply Hs | by destruct Hs as [[] _] | done]. }
  intros _ d Hd. unfold arm_timeout_locked, find_pending.
  change ((router ?f ≫= ?k) d) with (k (f (d_router d)) d). cbv beta.
  destruct (pending_ (d_router d) !! id) as [q |] eqn:Hq; cbn; (split; [done |]);
    destruct Hd; split; try done; cbn.
  - intros k x Hk _. destruct (decide (k = id)) as [-> | Hne].
    + rewrite lookup_insert_eq in Hk. injection Hk as <-. by eexists.
    + rewrite lookup_insert_ne in Hk by done. apply (li_armed0 k x Hk). congruence.
  - apply map_Forall_insert_2; [exact (li_retries0 id q Hq) | done].
  - intros k x Hk _. destruct (decide (k = id)) as [-> | Hne]; [by rewrite Hq in Hk |].
    apply (li_armed0 k x Hk). congruence.
Qed.

Lemma safe_request_of api id payload :
  safe I (lift (request_of api id payload)) (eq StdError) (fun _ => True).
Proof using Type.
  apply safe_lift. unfold request_of, merge_payload. destruct payload as [| | | | | [|] |]; done.
Qed.

Lemma safe_make_req_id sid E : safe I (make_req_id cfg sid) E (fun _ => True).
Proof using Type.
  unfold make_req_id. eapply safe_bind; [by apply safe_router_other |]. intros _ _.
  eapply safe_bind; [apply safe_router |]. intros seq _. by apply safe_mret.
Qed.

Lemma retries_start p : retries p = 0 -> retries_ok p.
Proof using Type. unfold retries_ok. lia. Qed.

Lemma safe_send_request api payload b ms n sid :
  safe I (send_request cfg api payload b ms n sid) (eq StdError) (fun _ => True).
Proof using Type.
  unfold send_request. eapply safe_bind; [apply safe_make_req_id |]. intros id _.
  eapply safe_bind; [apply safe_request_of |]. intros req _.
  eapply safe_bind; [apply safe_launch, retries_start; done |]. intros _ _. by apply safe_mret.
Qed.

Lemma safe_send_request_cb api payload b ms n sid ok error :
  safe I (send_request_cb cfg api payload b ms n sid ok error) (eq StdError) (fun _ => True).
Proof using Type.
  unfold send_request_cb. eapply safe_bind; [apply safe_make_req_id |]. intros id _.
  eapply safe_bind; [apply safe_request_of |]. intros req _.
  eapply safe_bind; [apply safe_router |]. intros set _.
  eapply (safe_bind _ _ _ _ (fun _ => True)).
  { destruct set; cbn [negb]; [apply safe_launch, retries_start; done | apply safe_call]. }
  intros _ _. by apply safe_mret.
Qed.

Lemma safe_on_timeout id E : safe I (on_timeout cfg id) E (fun _ => True).
Proof using Type.
  unfold on_timeout, find_pending. eapply safe_bind; [apply safe_gets_some |].
  intros [p |] (d0 & Hd0 & Hp); [| by apply safe_mret].
  assert (Hr : retries_ok p) by (apply (li_retries _ _ _ _ _ Hd0 id); done).
  assert (Ht : is_Some (timer p)) by by apply (li_armed _ _ _ _ _ Hd0 id p).
  destruct (Z.ltb_spec (retries p) (max_retries p)) as [Hlt | Hle].
  - eapply (safe_bind _ _ _ _ (fun _ => True)).
    { apply safe_modify. intros d Hd. destruct Hd. split; try done; cbn.
      - intros k q Hk Hne. destruct (decide (k = id)) as [-> | Hk'].
        + rewrite lookup_insert_eq in Hk. by injection Hk as <-.
        + rewrite lookup_insert_ne in Hk by done. by apply (li_armed0 k q).
      - apply map_Forall_insert_2; [| done]. unfold retries_ok in *. cbn. lia. }
    intros _ _. eapply safe_bind; [by apply safe_router_other |]. intros _ _.
    eapply safe_bind; [apply safe_send_now_locked |]. intros _ _.
    unfold arm_timeout_locked, find_pending. eapply safe_bind; [apply safe_gets_some |].
    intros [q |] (d1 & Hd1 & Hq); [| by apply safe_mret].
    assert (Hrq : retries_ok q) by (apply (li_retries _ _ _ _ _ Hd1 id); done).
    eapply safe_bind; [apply safe_db_now |]. intros t _.
    apply safe_modify. intros d Hd. destruct Hd. split; try done; cbn.
    + intros k x Hk Hne. destruct (decide (k = id)) as [-> | Hk'].
      * rewrite lookup_insert_eq in Hk. injection Hk as <-. by eexists.
      * rewrite lookup_insert_ne in Hk by done. by apply (li_armed0 k x).
    + apply map_Forall_insert_2; [exact Hrq | done].
  - eapply safe_bind; [by apply safe_router_other |]. intros _ _. apply safe_fulfill.
Qed.

(** *** Reading *)

Lemma safe_handle_bytes buf bytes :
  safe (LinkInv None w mute buf) (handle_bytes cfg (handle cfg) (handle_envelope cfg) bytes)
    (eq TypeError) (fun _ => True).
Proof using Type.
  unfold handle_bytes. destruct (ParseFromArray _); [apply safe_handle_envelope |].
  destruct (parse _) as [[] | j]; [by apply safe_mret | by apply safe_db_emit |].
  apply (safe_catch _ _ (eq TypeError)); [apply safe_handle |].
  intros e <-. by apply safe_db_emit.
Qed.

Lemma hoare_read_frames fuel b :
  (length (buffer_ b) < fuel)%nat ->
  hoare (LinkInv None w mute (Some b)) (read_frames cfg (handle cfg) (handle_envelope cfg) fuel)
    (fun e d => e = TypeError /\ I d) (fun _ d => I d).
Proof using Type.
  revert b. induction fuel as [| fuel IH]; intros b Hf d Hd; [lia |].
  cbn [read_frames]. unfold take_bytes, mbind at 1, M_bind at 1, bind at 1.
  pose proof (li_buf _ _ _ _ _ Hd b eq_refl) as Hb. rewrite Hb.
  destruct (extract_message b) as [m b'] eqn:Eb. cbv beta iota zeta.
  assert (Hd' : LinkInv None w mute (Some b') (d <| d_client ::= fun c => c <| msg_buf_mgr_ := b' |> |>)).
  { destruct Hd. split; try done. cbn. congruence. }
  destruct m as [bytes |]; [| by eapply inv_forget_buf].
  pose proof (extract_shrinks _ _ _ Eb) as Hlt.
  apply (hoare_bind (LinkInv None w mute (Some b')) _ _ _ (fun _ => LinkInv None w mute (Some b'))); [| | exact Hd'].
  - intros d1 Hd1. pose proof (safe_handle_bytes (Some b') bytes d1 Hd1) as Hs.
    destruct (handle_bytes _ _ _ _ d1) as [[a | e |] d2]; [apply Hs | | done].
    destruct Hs as [<- Hs]. split; [done | by eapply inv_forget_buf].
  - intros _. apply IH. unfold fd_view in Hlt. cbn in Hlt. lia.
Qed.

Lemma safe_on_db_read data :
  safe I (on_read cfg (handle cfg) (handle_envelope cfg) data) (eq TypeError) (fun _ => True).
Proof using Type.
  destruct data as [data |]; cbn [on_read]; [| apply safe_disconnect].
  eapply safe_bind; [apply safe_modify; intros d Hd; destruct Hd; by split |]. intros _ _.
  intros d Hd. set (b := msg_buf_mgr_ (d_client d)).
  change ((client ?f ≫= ?k) d) with (k (f (d_client d)) d). cbv beta. fold b.
  assert (Hb : LinkInv None w mute (Some b) d).
  { destruct Hd. split; try done. intros x Hx. by injection Hx. }
  revert Hb. apply (hoare_bind (LinkInv None w mute (Some b)) _ _ _ (fun _ => I)).
  - eapply hoare_conseq; [apply (hoare_read_frames (S (length (buffer_ b))) b); lia | done | | done].
    intros e d' [-> Hd']. done.
  - intros _. eapply safe_bind; [apply safe_client |]. intros [] _;
      [apply safe_disconnect | apply safe_do_read_some].
Qed.

(** *** Writing *)

Lemma writes_remove o l :
  (length (writes (remove_one o l)) <= length (writes l))%nat /\
  (forall x, x ∈ remove_one o l -> x ∈ l) /\
  (writes l = [] -> writes (remove_one o l) = []) /\
  (is_write o = true -> o ∈ l -> (length (writes l) <= 1)%nat -> writes (remove_one o l) = []).
Proof using Type.
  induction l as [| y l IH]; cbn; [done |].
  destruct IH as (H1 & H2 & H3 & H4). destruct (decide (y = o)) as [-> | Hne].
  - split; [destruct (is_write o); cbn; lia |]. split; [intros x Hx; by right |]. split.
    + destruct (is_write o); [done | tauto].
    + intros Ho _ Hl. rewrite Ho in Hl. cbn in Hl. apply nil_length_inv. unfold writes. lia.
  - cbn. unfold writes in *. destruct (is_write y) eqn:Ey; cbn.
    + split; [lia |]. split; [intros x [-> | Hx]%elem_of_cons; [by left | right; auto] |].
      split; [done |]. intros Ho Hin Hl. exfalso.
      apply elem_of_cons in Hin as [-> | Hin]; [done |].
      assert (Hin' : In o (List.filter is_write l)) by (apply filter_In; split; [by apply list_elem_of_In | done]).
      destruct (List.filter is_write l); [done | cbn in Hl; lia].
    + split; [lia |]. split; [intros x [-> | Hx]%elem_of_cons; [by left | right; auto] |].
      split; [done |]. intros Ho Hin Hl. apply elem_of_cons in Hin as [-> | Hin]; [by rewrite Ho in Ey |]. auto.
Qed.

Lemma inv_remove o d : I d -> I (d <| d_ops ::= remove_one o |>).
Proof using Type.
  intros Hd. destruct (writes_remove o (d_ops d)) as (H1 & H2 & H3 & _). destruct Hd.
  split; try done; cbn [d_ops d_client d_out set_field].
  - lia.
  - intros e x Hx. apply (li_head0 e). auto.
  - intros n Hn. destruct (li_mute0 n Hn) as (? & ? & ?). auto.
Qed.

(** Writing the queue when no write is outstanding. *)
Lemma safe_flush d rest :
  I d -> writes (d_ops d) = [] -> mute = None -> write_in_progress_ (d_client d) = true ->
  exists d', (upd_client (fun c => c <| write_queue_ := rest |>);; flush_write_queue) d = (Ret tt, d') /\ I d'.
Proof using Type.
  intros Hd Hw Hm Hbusy.
  assert (Hno : forall e x, DbWrite e x ∉ d_ops d).
  { intros e x Hin. apply list_elem_of_In in Hin.
    assert (Hin' : In (DbWrite e x) (writes (d_ops d))) by by apply filter_In. by rewrite Hw in Hin'. }
  set (d1 := d <| d_client ::= fun c => c <| write_queue_ := rest |> |>).
  change ((upd_client ?f ≫= ?k) d) with (k tt d1). cbv beta. unfold flush_write_queue.
  change ((client ?f ≫= ?k) d1) with (k (f (d_client d1)) d1). cbv beta.
  change (write_queue_ (d_client d1)) with rest. destruct rest as [| data rest].
  - eexists. split; [reflexivity |]. destruct Hd.
    split; unfold d1; cbn [d_client d_ops d_router d_out set_field]; try done.
    + intros e x Hin. by destruct (Hno e x).
    + by rewrite Hm.
  - eexists. split; [reflexivity |]. apply (inv_start_db_write None w mute None d1 data rest); try done.
    destruct Hd. split; unfold d1; cbn [d_client d_ops d_router d_out set_field]; try done.
    + intros e x Hin. by destruct (Hno e x).
    + by rewrite Hm.
Qed.

Lemma on_write_safe epoch data ok d :
  I d -> DbWrite epoch data ∈ d_ops d ->
  exists d', on_write ok (d <| d_ops ::= remove_one (DbWrite epoch data) |>) = (Ret tt, d') /\ I d'.
Proof using Type.
  intros Hd Hin. pose proof (inv_remove (DbWrite epoch data) d Hd) as Hd1.
  set (d1 := d <| d_ops ::= remove_one (DbWrite epoch data) |>) in *. unfold on_write.
  destruct ok; cbn [negb].
  2: { pose proof (safe_disconnect None w mute None never d1 Hd1) as Hs.
       destruct ((close_socket;; schedule_reconnect) d1) as [[[] | e |] d']; [| by destruct Hs as [[] _] | done].
       exists d'. by destruct Hs. }
  assert (Hw : writes (d_ops d1) = []).
  { apply (writes_remove (DbWrite epoch data) (d_ops d)); [done | done | apply Hd]. }
  assert (Hm : mute = None).
  { destruct mute as [n |] eqn:Em; [| done]. destruct (li_mute _ _ _ _ _ Hd n eq_refl) as (_ & Hno & _).
    apply list_elem_of_In in Hin.
    assert (Hin' : In (DbWrite epoch data) (writes (d_ops d))) by by apply filter_In. by rewrite Hno in Hin'. }
  pose proof (li_head _ _ _ _ _ Hd epoch data Hin) as Hhead.
  change ((client ?f ≫= ?k) d1) with (k (f (d_client d1)) d1). cbv beta.
  change (write_queue_ (d_client d1)) with (write_queue_ (d_client d)).
  destruct (write_queue_ (d_client d)) as [| x rest] eqn:Hq; [done |].
  apply safe_flush; [done | done | done |]. apply (li_busy _ _ _ _ _ Hd). by rewrite Hq.
Qed.
End handlers.

(** ** Every event keeps the invariant *)

Section events.
Context `{Platform} `{Wire} (cfg : Settings).
Context (w : option RequestTimer) (mute : option nat).
Abbreviation I := (LinkInv None w mute None).

Definition kept (m : L unit) (d : Db) : Prop := fst (m d) <> UB /\ I (snd (m d)).

Lemma safe_kept m E d : safe I m E (fun _ => True) -> I d -> kept m d.
Proof using Type.
  intros Hm Hd. specialize (Hm d Hd). unfold kept. destruct (m d) as [[a | e |] d']; [| | done].
  - by destruct Hm.
  - by destruct Hm.
Qed.

Lemma in_remove_other {A} `{EqDecision A} (x y : A) l : y ∈ l -> y <> x -> y ∈ remove_one x l.
Proof using Type.
  intros Hy Hne. induction l as [| z l IH]; [done |]. cbn.
  apply elem_of_cons in Hy as [-> | Hy].
  - rewrite decide_False by done. by left.
  - destruct (decide (z = x)); [done | right; auto].
Qed.

Lemma timer_kept x d : I d -> w <> Some x -> kept (db_handler cfg (DbRequestTimer x)) d.
Proof using Type.
  intros Hd Hx. apply (safe_kept _ never); [| done]. cbn [db_handler].
  eapply (safe_bind _ _ _ _ (fun _ => True)).
  { apply safe_modify. intros d1 Hd1. destruct Hd1. split; try done. cbn. intros y Hy.
    apply in_remove_other; [by apply li_wait0 | congruence]. }
  intros _ _. unfold on_request_timer.
  eapply safe_bind; [apply safe_minor; by intros c |]. intros _ _.
  eapply safe_bind; [eapply safe_when; intros _; by apply safe_db_emit |]. intros _ _.
  apply safe_minor; by intros c.
Qed.

Lemma handler_kept e d :
  I d -> db_completes e = None -> (forall x, e = DbRequestTimer x -> w <> Some x) ->
  kept (db_handler cfg e) d.
Proof using Type.
  intros Hd He Hx. destruct e; try done; cbn [db_handler].
  - apply (safe_kept _ never); [apply safe_on_reconnect_timer | done].
  - apply (safe_kept _ never); [apply safe_on_heartbeat_timer | done].
  - apply (timer_kept w0); [done | by apply Hx].
  - apply (safe_kept _ never); [apply safe_on_timeout | done].
  - apply (safe_kept _ never); [| done].
    eapply safe_bind; [by apply safe_router_other |]. intros _ _. apply safe_send_now_locked.
  - apply (safe_kept _ never); [| done].
    eapply safe_bind; [apply safe_router |]. intros [[n t] |] _;
      [apply safe_on_metrics_timer | by apply safe_mret].
  - eapply safe_kept; [| done]. eapply safe_bind; [apply safe_send_request_cb |]. intros. by apply safe_mret.
  - eapply safe_kept; [| done]. eapply safe_bind; [apply safe_send_request |]. intros. by apply safe_mret.
  - apply (safe_kept _ never); [apply safe_db_start | done].
  - apply (safe_kept _ never); [apply safe_db_stop | done].
  - split; [done |]. destruct Hd. by split.
Qed.

Lemma db_event_ok e d :
  I d -> db_enabled e d = true -> (forall x, e = DbRequestTimer x -> w <> Some x) ->
  kept (db_run cfg e) d.
Proof using Type.
  intros Hd Hen Hx. unfold db_run. destruct (db_completes e) as [o |] eqn:He.
  - assert (Ho : o ∈ d_ops d).
    { unfold db_enabled in Hen. rewrite He in Hen. apply andb_true_iff in Hen as [Hen _].
      by apply bool_decide_eq_true in Hen. }
    pose proof (inv_remove w mute o d Hd) as Hd1. unfold kept.
    change ((modify ?f ≫= ?k) d) with (k tt (f d)). cbv beta. fold (kept (db_handler cfg e) (d <| d_ops ::= remove_one o |>)).
    destruct e; try done; cbn [db_handler]; cbn in He; injection He as <-.
    + apply (safe_kept _ never); [apply safe_on_resolve | done].
    + apply (safe_kept _ never); [apply safe_on_connect | done].
    + eapply safe_kept; [apply safe_on_db_read | done].
    + destruct (on_write_safe w mute epoch data ok d Hd Ho) as (d' & Hrun & Hd'). unfold kept.
      by rewrite Hrun.
  - exact (handler_kept e d Hd He Hx).
Qed.
End events.

Section reachable.
Context `{Platform} `{Wire} (cfg : Settings).

Lemma initial_link now port : LinkInv None None None None (exec (connect_db cfg) (initial_db now port)).
Proof.
  assert (Hd : LinkInv None None None None (initial_db now port)).
  { split; cbn; try done; try lia. by intros e data Hin%elem_of_nil. }
  assert (Hs : safe (LinkInv None None None None) (connect_db cfg) never (fun _ => True)).
  { unfold connect_db. do 2 (eapply safe_bind; [eapply safe_bind; [by apply safe_router_other |];
      intros _ _; by apply safe_router_other |]; intros _ _).
    eapply safe_bind; [by apply safe_router_other |]. intros _ _. apply safe_db_start. }
  specialize (Hs _ Hd). unfold exec. by destruct (connect_db cfg _) as [[a | e |] d']; [| |];
    first [apply Hs | done].
Qed.

Lemma reachable_link now port d :
  db_reachable cfg now port d -> LinkInv None None None None d.
Proof.
  induction 1 as [| d e d' _ IH (Hen & <- & _)]; [apply initial_link |].
  by apply (db_event_ok cfg None None e d).
Qed.
End reachable.
