(* ===== verification/DbSpec.v ===== *)
(** * What the DB link promises, and where it does not keep it

    Properties of every reachable state of [DbSystem], the functional
    specification of answers and timeouts, and the traps: a failed write, the
    heartbeat counter, the timers of requests. *)
From Stdlib Require Import ZArith Lia Strings.Byte.
From stdpp Require Import base gmap sets list strings pretty.
From S2P Require Import Prelude MessageBuffer RateLimit Json DbLink DbClient DbRouter DbSystem.
From S2P Require JsonPlatform.

Open Scope Z_scope.

(** Losing the connection. *)
Lemma disconnect_run d :
  exists c, (close_socket;; schedule_reconnect) d = (Ret tt, d <| d_client := c |>) /\
    connected_ c = false /\ socket_is_open c = false /\ authed_ c = authed_ (d_client d) /\
    stopping_ c = stopping_ (d_client d) /\ missed_heartbeat_ c = missed_heartbeat_ (d_client d) /\
    write_queue_ c = write_queue_ (d_client d) /\ msg_buf_mgr_ c = msg_buf_mgr_ (d_client d) /\
    (stopping_ (d_client d) = false ->
     reconnect_sec_ c = Z.min (2 * reconnect_sec_ (d_client d)) 30 /\
     reconnect_timer_ c = Some (d_now d + seconds (reconnect_sec_ c))).
Proof.
  destruct d as [now port c r ops out]. destruct c as [? ? ? stopping].
  unfold close_socket, schedule_reconnect, upd_client, client, db_now, mbind, M_bind, bind, modify, gets.
  destruct stopping; (eexists; split; [reflexivity |]); cbn; repeat split; try done.
  by rewrite Z.mul_comm.
Qed.

Section reachable.
Context `{Platform} `{Wire} (cfg : Settings).

(** A sequence of events. *)
Inductive db_path : Db -> list DbEvent -> Db -> Prop :=
| db_path_nil d : db_path d [] d
| db_path_cons d e d1 es d2 : db_step cfg d e d1 -> db_path d1 es d2 -> db_path d (e :: es) d2.

(** C31. The link is sound: in every reachable state every possible event is
    processed without popping an empty queue; at most one frame is being
    written, and it is the first of the queue; the reconnection delay is
    between 2 and 30 seconds; every pending request has a timer running and has
    been repeated at most [max_retries] times. *)
Theorem link_sound now port d :
  db_reachable cfg now port d ->
  (forall e, db_enabled e d = true -> exists d', db_step cfg d e d') /\
  (length (writes (d_ops d)) <= 1)%nat /\
  (forall e data, DbWrite e data ∈ d_ops d -> head (write_queue_ (d_client d)) = Some data) /\
  2 <= reconnect_sec_ (d_client d) <= 30 /\
  (forall id p, pending_ (d_router d) !! id = Some p ->
     is_Some (timer p) /\ 0 <= retries p <= Z.max 0 (max_retries p)).
Proof.
  intros Hr. pose proof (reachable_link cfg now port d Hr) as Hd. split.
  { intros e He. destruct (db_event_ok cfg None None e d Hd He) as [Hub _]; [done |].
    exists (snd (db_run cfg e d)). done. }
  destruct Hd. do 3 (split; [done |]). intros id p Hp. split; [by apply (li_armed id p) | by apply (li_retries id)].
Qed.

Lemma path_inv w mute d es d' :
  LinkInv None w mute None d -> db_path d es d' -> (forall x, DbRequestTimer x ∈ es -> w <> Some x) ->
  LinkInv None w mute None d'.
Proof.
  intros Hd Hp. induction Hp as [| d e d1 es d2 (Hen & <- & _) Hp IH]; intros Hx; [done |].
  apply IH; [| intros x Hin; apply Hx; by right].
  apply (db_event_ok cfg w mute e d Hd Hen). intros x ->. apply Hx. by left.
Qed.

Lemma inv_with w mute d :
  LinkInv None None None None d -> (forall x, w = Some x -> x ∈ request_waits (d_client d)) ->
  (forall n, mute = Some n -> write_queue_ (d_client d) <> [] /\ writes (d_ops d) = [] /\
     sends_made (d_out d) = n) -> LinkInv None w mute None d.
Proof. intros Hd Hw Hm. destruct Hd. by split. Qed.

(** C34. After a failed write nothing is ever sent again: the frame stays at the
    head of the queue, so [send_framed] never finds the queue empty, and no
    completion is left to go on with it; whatever happens afterwards,
    reconnections and new requests included, no further frame is written. *)
Theorem write_error_mutes now port d epoch data d1 es d2 :
  db_reachable cfg now port d -> db_step cfg d (DbWritten epoch data false) d1 ->
  db_path d1 es d2 -> sends_made (d_out d2) = sends_made (d_out d1).
Proof.
  intros Hr (Hen & <- & _) Hp. pose proof (reachable_link cfg now port d Hr) as Hd.
  assert (Hin : DbWrite epoch data ∈ d_ops d).
  { cbn in Hen. apply andb_true_iff in Hen as [Hen _]. by apply bool_decide_eq_true in Hen. }
  pose proof (db_event_ok cfg None None _ d Hd Hen ltac:(done)) as [_ Hd1].
  set (d1 := snd (db_run cfg (DbWritten epoch data false) d)) in *.
  assert (Hkeep : write_queue_ (d_client d1) = write_queue_ (d_client d) /\
                  d_ops d1 = remove_one (DbWrite epoch data) (d_ops d)).
  { destruct (disconnect_run (d <| d_ops ::= remove_one (DbWrite epoch data) |>))
      as (c & Hrun & _ & _ & _ & _ & _ & Hq & _).
    assert (Hd1' : d1 = d <| d_ops ::= remove_one (DbWrite epoch data) |> <| d_client := c |>).
    { unfold d1. change (db_run cfg (DbWritten epoch data false) d)
        with ((close_socket;; schedule_reconnect) (d <| d_ops ::= remove_one (DbWrite epoch data) |>)).
      by rewrite Hrun. }
    by rewrite Hd1'. }
  destruct Hkeep as [Hq Hops].
  assert (Hmute : LinkInv None None (Some (sends_made (d_out d1))) None d1).
  { apply inv_with; [done | done |]. intros n [= <-]. rewrite Hq, Hops. split; [| split; [| done]].
    - intros Hnil. pose proof (li_head _ _ _ _ _ Hd epoch data Hin) as Hh. by rewrite Hnil in Hh.
    - apply (writes_remove (DbWrite epoch data) (d_ops d)); [done | done | apply Hd]. }
  pose proof (path_inv None _ d1 es d2 Hmute Hp ltac:(done)) as Hd2.
  by destruct (li_mute _ _ _ _ _ Hd2 _ eq_refl) as (_ & _ & ?).
Qed.

(** Every request is counted as timed out: the wait that [send_json] and
    [send_secure_json] start is not ended by the answer, nor by any other event
    than its own expiry, and the expiry adds one to [timeout_count_]. *)
Theorem answers_do_not_stop_timers now port d w es d' :
  db_reachable cfg now port d -> w ∈ request_waits (d_client d) ->
  db_path d es d' -> DbRequestTimer w ∉ es ->
  w ∈ request_waits (d_client d') /\
  (rt_expiry w <= d_now d' ->
   exists d'', db_step cfg d' (DbRequestTimer w) d'' /\
     timeout_count_ (d_client d'') = timeout_count_ (d_client d') + 1).
Proof.
  intros Hr Hw Hp Hes. pose proof (reachable_link cfg now port d Hr) as Hd.
  assert (Hd1 : LinkInv None (Some w) None None d) by (apply inv_with; [done | intros x Hx; by injection Hx as <- | done]).
  assert (Hd2 : LinkInv None (Some w) None None d').
  { apply (path_inv (Some w) None d es d' Hd1 Hp). intros x Hx Heq. injection Heq as <-. done. }
  pose proof (li_wait _ _ _ _ _ Hd2 w eq_refl) as Hin. split; [done |]. intros Hexp.
  assert (Hen : db_enabled (DbRequestTimer w) d' = true).
  { cbn. rewrite bool_decide_true by done. by apply Z.leb_le. }
  exists (snd (db_run cfg (DbRequestTimer w) d')). split.
  - split; [done |]. split; [done |].
    pose proof (path_inv None None d es d' Hd Hp ltac:(done)) as Hd3.
    by destruct (db_event_ok cfg None None _ d' Hd3 Hen) as [Hub _].
  - unfold db_run. cbn [db_completes db_handler].
    unfold on_request_timer, upd_client, db_emit, mbind, M_bind, bind, mret, M_ret, ret, modify. cbn. unfold when. by destruct (rt_secure w).
Qed.
End reachable.

(** ** Timeouts and answers *)

Definition is_call (o : DbOut) : bool :=
  match o with DbPromise _ _ | DbCallback _ _ => true | _ => false end.

(** The promises and callbacks of a trace. *)
Definition calls (l : list DbOut) : list DbOut := List.filter is_call l.

Lemma calls_app l k : calls (l ++ k) = calls l ++ calls k.
Proof. apply List.filter_app. Qed.

(** The request table, the clock and the calls made so far. *)
Definition at_rest (m : gmap string Pending) (t : Z) (k : list DbOut) (d : Db) : Prop :=
  pending_ (d_router d) = m /\ d_now d = t /\ calls (d_out d) = k.

Section sending.
Context `{Platform} (cfg : Settings) (m : gmap string Pending) (t : Z) (k : list DbOut).
Abbreviation I := (at_rest m t k).

Lemma rest_client f E : safe I (upd_client f) E (fun _ => True).
Proof. by apply safe_modify. Qed.

Lemma rest_emit o E : is_call o = false -> safe I (db_emit o) E (fun _ => True).
Proof.
  intros Ho. apply safe_modify. intros d (H1 & H2 & H3). split; [done |]. split; [done |].
  cbn. rewrite calls_app, H3. unfold calls. cbn. by rewrite Ho, app_nil_r.
Qed.

Lemma rest_op o E : safe I (start_db_op o) E (fun _ => True).
Proof. by apply safe_modify. Qed.

Lemma rest_router f E : (forall r, pending_ (f r) = pending_ r) -> safe I (upd_router f) E (fun _ => True).
Proof. intros Hf. apply safe_modify. intros d (H1 & H2 & H3). split; [| done]. cbn. by rewrite Hf. Qed.

Lemma rest_gets {A} (f : Db -> A) E : safe I (gets f) E (fun _ => True).
Proof. by apply safe_gets. Qed.

(** Walks through a handler that only reads and makes such changes. *)
Ltac rest :=
  repeat first
    [ by apply safe_mret | by apply safe_ret | by apply safe_throw | by apply safe_lift
    | apply rest_client | by apply rest_emit | apply rest_op | by apply rest_router
    | apply rest_gets
    | eapply (safe_bind _ _ _ _ (fun _ => True)); [| intros ? _]
    | eapply safe_when; intros _
    | match goal with |- safe _ (match ?x with _ => _ end) _ _ => destruct x end ].

Lemma rest_send_framed body E : safe I (send_framed body) E (fun _ => True).
Proof. unfold send_framed, flush_write_queue, client. rest. Qed.

Lemma rest_disconnect E : safe I (close_socket;; schedule_reconnect) E (fun _ => True).
Proof. unfold close_socket, schedule_reconnect, client, db_now. rest. Qed.

Lemma rest_ensure j : safe I (ensure_request_id j) any (fun _ => True).
Proof. unfold ensure_request_id, generate_request_id, client. rest. Qed.

Lemma rest_sender b j : safe I (sender cfg b j) any (fun _ => True).
Proof.
  assert (Harm : forall id c, safe I (arm_request_timer id c) any (fun _ => True))
    by (intros; unfold arm_request_timer, db_now; rest).
  destruct b; cbn [sender].
  - unfold send_secure_json. eapply safe_bind; [apply rest_ensure |]. intros r _.
    eapply safe_bind; [apply rest_send_framed |]. intros _ _. apply Harm.
  - apply (safe_catch _ _ any).
    + eapply safe_bind; [apply rest_ensure |]. intros r _.
      eapply safe_bind; [apply rest_send_framed |]. intros _ _. apply Harm.
    + intros e _. eapply safe_bind; [by apply rest_emit |]. intros _ _. apply rest_disconnect.
Qed.

Lemma rest_send_now id E : safe I (send_now_locked cfg id) E (fun _ => True).
Proof.
  unfold send_now_locked, find_pending, router. eapply safe_bind; [apply rest_gets |].
  intros [p |] _; [| by apply safe_mret]. apply (safe_catch _ _ any).
  - eapply safe_bind; [apply rest_gets |]. intros set _.
    eapply safe_bind; [eapply safe_when; intros _; apply rest_sender |]. intros _ _.
    eapply safe_bind; [by apply rest_router |]. intros _ _.
    eapply (safe_bind _ _ _ _ (fun _ => True)); [| intros; by apply safe_mret].
    apply safe_lift. unfold value_str. destruct (request_json p); try done.
    by destruct (obj_get _ _) as [[] |].
  - intros e _. unfold schedule_retry, find_pending, router, db_now. rest.
Qed.

End sending.

Section requests.
Context `{Platform} (cfg : Settings).

(** One step of a request whose time is up, while repetitions are left. *)
Lemma timeout_repeats d id p :
  pending_ (d_router d) !! id = Some p -> retries p < max_retries p ->
  exists d', on_timeout cfg id d = (Ret tt, d') /\ calls (d_out d') = calls (d_out d) /\
    pending_ (d_router d') =
      <[id := p <| retries ::= Z.succ |>
                <| timer := Some (d_now d + milliseconds (timeout_ms p)) |>]> (pending_ (d_router d)).
Proof.
  intros Hp Hr. unfold on_timeout, find_pending.
  change ((router ?f ≫= ?g) d) with (g (f (d_router d)) d). cbv beta. rewrite Hp.
  rewrite (proj2 (Z.ltb_lt _ _)) by done.
  set (p1 := p <| retries ::= Z.succ |>).
  set (d1 := d <| d_router ::= fun r => r <| pending_ ::= <[id := p1]> |> |>
               <| d_router ::= fun r => r <| m_retry_ ::= Z.succ |> |>).
  change ((upd_router ?f ≫= (fun _ => upd_router ?g ≫= ?h)) d) with (h tt d1). cbv beta.
  pose proof (rest_send_now cfg (pending_ (d_router d1)) (d_now d) (calls (d_out d))
                id never d1 (conj eq_refl (conj eq_refl eq_refl))) as Hs.
  unfold mbind at 1, M_bind at 1, bind at 1.
  destruct (send_now_locked cfg id d1) as [[[] | e |] d2]; [| by destruct Hs as [[] _] | done].
  destruct Hs as (_ & Hm & Ht & Hk).
  assert (Hm1 : pending_ (d_router d1) = <[id := p1]> (pending_ (d_router d))) by done.
  rewrite Hm1 in Hm. unfold arm_timeout_locked, find_pending.
  change ((router ?f ≫= ?g) d2) with (g (f (d_router d2)) d2). cbv beta.
  rewrite Hm, lookup_insert_eq. eexists. split; [reflexivity |]. split; [exact Hk |].
  cbn. by rewrite Hm, Ht, insert_insert_eq.
Qed.

(** The last one. *)
Lemma timeout_drops d id p :
  pending_ (d_router d) !! id = Some p -> max_retries p <= retries p ->
  exists d', on_timeout cfg id d = (Ret tt, d') /\
    pending_ (d_router d') = delete id (pending_ (d_router d)) /\
    calls (d_out d') = calls (d_out d) ++ [DbPromise id (timeout_error id)].
Proof.
  intros Hp Hr. unfold on_timeout, find_pending.
  change ((router ?f ≫= ?g) d) with (g (f (d_router d)) d). cbv beta. rewrite Hp.
  rewrite (proj2 (Z.ltb_ge _ _)) by done. unfold fulfill_and_erase_locked, find_pending.
  set (d1 := d <| d_router ::= fun r => r <| m_to_ ::= Z.succ |> |>).
  change ((upd_router ?f ≫= ?h) d) with (h tt d1). cbv beta.
  change ((router ?f ≫= ?g) d1) with (g (f (d_router d1)) d1). cbv beta.
  change (pending_ (d_router d1)) with (pending_ (d_router d)). rewrite Hp.
  eexists. split; [reflexivity |]. split; [done |]. cbn. by rewrite calls_app.
Qed.

(** The timer of one request expiring again and again. *)
Fixpoint timeouts (n : nat) (id : string) : L unit :=
  match n with
  | O => mret tt
  | S n' => on_timeout cfg id;; timeouts n' id
  end.

Lemma timeouts_S n id d d1 : on_timeout cfg id d = (Ret tt, d1) -> timeouts (S n) id d = timeouts n id d1.
Proof. intros Hrun. cbn [timeouts]. unfold mbind, M_bind, bind. by rewrite Hrun. Qed.

(** C32. Termination of a request nobody answers: it is given up after exactly
    one timeout more than the repetitions left, whatever the link does with the
    frames; until then it stays in the table, and its promise is set once. *)
Theorem request_gives_up n d id p :
  pending_ (d_router d) !! id = Some p ->
  (Z.of_nat n <= Z.max 0 (max_retries p - retries p) ->
   exists d' q, timeouts n id d = (Ret tt, d') /\ pending_ (d_router d') !! id = Some q /\
     retries q = retries p + Z.of_nat n /\ calls (d_out d') = calls (d_out d)) /\
  (Z.of_nat n = 1 + Z.max 0 (max_retries p - retries p) ->
   exists d', timeouts n id d = (Ret tt, d') /\ pending_ (d_router d') !! id = None /\
     calls (d_out d') = calls (d_out d) ++ [DbPromise id (timeout_error id)]).
Proof.
  revert d p. induction n as [| n IH]; intros d p Hp.
  { split; [intros _ | lia]. exists d, p. rewrite Z.add_0_r. done. }
  destruct (Z.lt_ge_cases (retries p) (max_retries p)) as [Hlt | Hge].
  - destruct (timeout_repeats d id p Hp Hlt) as (d1 & Hrun & Hk & Hm).
    rewrite (timeouts_S n id d d1 Hrun), <- Hk.
    set (p1 := p <| retries ::= Z.succ |> <| timer := _ |>) in Hm.
    assert (Hp1 : pending_ (d_router d1) !! id = Some p1) by (rewrite Hm; apply lookup_insert_eq).
    assert (Hr1 : retries p1 = retries p + 1) by done. assert (Hx1 : max_retries p1 = max_retries p) by done.
    destruct (IH d1 p1 Hp1) as [IH1 IH2]. rewrite Hr1, Hx1 in IH1, IH2. split.
    + intros Hn. destruct IH1 as (d' & q & H1 & H2 & H3 & H4); [lia |]. exists d', q.
      split; [done |]. split; [done |]. split; [lia | done].
    + intros Hn. apply IH2. lia.
  - split; [lia |]. intros Hn. assert (n = 0%nat) as -> by lia.
    destruct (timeout_drops d id p Hp Hge) as (d1 & Hrun & Hm & Hk). exists d1.
    rewrite (timeouts_S 0 id d d1 Hrun), Hm, lookup_delete_eq. done.
Qed.

(** C33. An answer reaches the request it names, once: the request leaves the
    table, its promise gets the answer, and of its callbacks [on_ok] is called
    for a [db_query_result] and [on_error] for the other kinds; the same answer
    a second time, or one that names no pending request, does nothing. *)
Theorem answer_reaches_request d j type id p :
  value_str j "type" "" = Ret type -> is_answer type = true ->
  value_str j "req_id" "" = Ret id -> id <> EmptyString ->
  pending_ (d_router d) !! id = Some p ->
  exists d', handle cfg j d = (Ret tt, d') /\
    pending_ (d_router d') = delete id (pending_ (d_router d)) /\
    d_out d' = d_out d ++ DbPromise id j ::
      (if use_callbacks p
       then match (if decide (type = "db_query_result"%string) then on_ok p else on_error p) with
            | Some cb => [DbCallback cb j]
            | None => []
            end
       else []) /\
    handle cfg j d' = (Ret tt, d').
Proof.
  intros Ht Ha Hi Hne Hp.
  assert (Hrun : forall d0, handle cfg j d0 = answer id j d0).
  { intros d0. unfold handle. rewrite Ht, Hi. unfold lift, mbind, M_bind, bind.
    rewrite Ha. by rewrite decide_False. }
  set (ok := bool_decide (type = "db_query_result"%string)).
  set (d1 := (d <| d_router ::= fun r => r <| pending_ ::= delete id |> |>
                <| d_out ::= fun l => l ++ [DbPromise id j] |>)
                <| d_router ::= fun r => if ok then r <| m_ok_ ::= Z.succ |> else r <| m_fail_ ::= Z.succ |> |>).
  assert (Hful : fulfill_and_erase_locked id j ok d = (Ret tt, d1)).
  { unfold fulfill_and_erase_locked, find_pending.
    change ((router ?f ≫= ?g) d) with (g (f (d_router d)) d). cbv beta. rewrite Hp.
    unfold d1. by destruct ok. }
  assert (Hlost : forall d0, pending_ (d_router d0) !! id = None -> handle cfg j d0 = (Ret tt, d0)).
  { intros d0 Hn. rewrite Hrun. unfold answer, find_pending.
    change ((router ?f ≫= ?g) d0) with (g (f (d_router d0)) d0). cbv beta. by rewrite Hn. }
  assert (Hd1 : pending_ (d_router d1) = delete id (pending_ (d_router d))).
  { unfold d1. cbn. by destruct ok. }
  rewrite Hrun. unfold answer, find_pending.
  change ((router ?f ≫= ?g) d) with (g (f (d_router d)) d). cbv beta. rewrite Hp.
  rewrite Ht. change ((lift (Ret type) ≫= ?g) d) with (g type d). cbv beta. fold ok.
  unfold mbind, M_bind, bind. destruct (use_callbacks p).
  - rewrite Hful. unfold ok, call, db_emit, modify. rewrite <- (decide_bool_decide (type = _)).
    destruct (decide (type = "db_query_result"%string));
      [destruct (on_ok p) as [cb |] | destruct (on_error p) as [cb |]];
      (eexists; split; [reflexivity |]; split; [exact Hd1 |]; split; [cbn; by rewrite <- ?(assoc_L app) |];
       apply Hlost; change (pending_ (d_router d1) !! id = None); rewrite Hd1; apply lookup_delete_eq).
  - exists d1. split; [done |]. split; [done |]. split; [done |]. apply Hlost. rewrite Hd1. apply lookup_delete_eq.
Qed.
End requests.

(** ** The heartbeat *)

Section heartbeat.
Context `{Platform} `{Wire} (cfg : Settings).

(** A connection from its establishment to its first heartbeat, with the login
    acknowledged in between. *)
Definition connection : L unit :=
  on_connect cfg true;; mark_authed true;; on_heartbeat_timer cfg.

Fixpoint connections (n : nat) : L unit :=
  match n with
  | O => mret tt
  | S n' => connection;; connections n'
  end.

(** What the handlers of a connection leave alone. *)
Definition link_state (missed : Z) (authed connected : bool) (d : Db) : Prop :=
  missed_heartbeat_ (d_client d) = missed /\ authed_ (d_client d) = authed /\
  connected_ (d_client d) = connected /\ stopping_ (d_client d) = false.

Lemma link_client missed authed connected f E :
  (forall c, missed_heartbeat_ (f c) = missed_heartbeat_ c /\ authed_ (f c) = authed_ c /\
             connected_ (f c) = connected_ c /\ stopping_ (f c) = stopping_ c) ->
  safe (link_state missed authed connected) (upd_client f) E (fun _ => True).
Proof using Type.
  intros Hf. apply safe_modify. intros d (H1 & H2 & H3 & H4).
  destruct (Hf (d_client d)) as (E1 & E2 & E3 & E4).
  unfold link_state. cbn. by rewrite E1, E2, E3, E4.
Qed.

Lemma link_gets {A} missed authed connected (f : Db -> A) E :
  safe (link_state missed authed connected) (gets f) E (fun _ => True).
Proof using Type. by apply safe_gets. Qed.

Lemma link_other missed authed connected f E :
  (forall d, d_client (f d) = d_client d) ->
  safe (link_state missed authed connected) (modify f) E (fun _ => True).
Proof using Type. intros Hf. apply safe_modify. intros d. unfold link_state. by rewrite Hf. Qed.

Ltac link :=
  repeat first
    [ match goal with
      | |- safe _ (mret _) _ _ => by apply safe_mret
      | |- safe _ (gets _) _ _ => apply link_gets
      | |- safe _ (upd_client _) _ _ => apply link_client; by intros c
      | |- safe _ (modify _) _ _ => by apply link_other
      | |- safe _ (_ ≫= _) _ _ => eapply (safe_bind _ _ _ _ (fun _ => True)); [| intros ? _]
      | |- safe _ (when _ _) _ _ => eapply safe_when; intros _
      | |- safe _ (match ?x with _ => _ end) _ _ => destruct x
      end ].

Lemma link_send missed authed connected o E :
  obj_get "request_id" o = None ->
  safe (link_state missed authed connected) (send_secure_json cfg (JObj o)) E (fun _ => True).
Proof using Type.
  intros Ho. unfold send_secure_json, ensure_request_id. rewrite Ho.
  unfold generate_request_id, send_framed, flush_write_queue, arm_request_timer, client, db_now,
    start_db_op, db_emit. link.
Qed.

Lemma hoare_run {A} (Pre Post : Db -> Prop) (m : L A) d :
  hoare Pre m (fun _ _ => False) (fun _ => Post) -> Pre d -> exists a d', m d = (Ret a, d') /\ Post d'.
Proof using Type.
  intros Hm Hd. specialize (Hm d Hd). destruct (m d) as [[a | e |] d']; [| done | done]. eauto.
Qed.

Lemma safe_hoare {A} (J : Db -> Prop) (m : L A) :
  safe J m never (fun _ => True) -> hoare J m (fun _ _ => False) (fun _ => J).
Proof using Type.
  intros Hm. eapply hoare_conseq; [exact Hm | done | by intros e d [[] _] | by intros a d [_ ?]].
Qed.

(** A connection that has just been established, in any state before. *)
Lemma link_established missed :
  hoare (fun d => missed_heartbeat_ (d_client d) = missed /\ stopping_ (d_client d) = false)
    (on_connect cfg true) (fun _ _ => False) (fun _ => link_state missed false true).
Proof using Type.
  unfold on_connect. cbn [negb].
  apply (hoare_bind _ _ _ _ (fun _ => link_state missed false true)); [by intros d1 [H1 H2] |].
  intros _. apply safe_hoare. eapply (safe_bind _ _ _ _ (fun _ => True)).
  { unfold server_send_login, client.
    eapply (safe_bind _ _ _ _ (fun _ => True)); [apply link_gets |]. intros sent _.
    eapply safe_bind; [apply link_client; by intros c |]. intros _ _.
    destruct sent; [by apply safe_mret | by apply link_send]. }
  intros _ _. unfold do_read_some, arm_heartbeat_timer, client, db_now, start_db_op. link.
Qed.

(** A heartbeat that reaches the limit closes the connection. *)
Definition closed_after (missed : Z) (d : Db) : Prop :=
  missed_heartbeat_ (d_client d) = missed /\ connected_ (d_client d) = false /\ stopping_ (d_client d) = false.

Lemma last_heartbeat missed :
  heartbeat_miss_limit_ <= missed + 1 ->
  hoare (link_state missed true true) (on_heartbeat_timer cfg) (fun _ _ => False)
    (fun _ => closed_after (missed + 1)).
Proof using Type.
  intros Hlim. unfold on_heartbeat_timer.
  apply (hoare_bind _ _ _ _ (fun _ => link_state missed true true)).
  { apply safe_hoare, link_client. by intros c. }
  intros _ d1 Hd1. pose proof Hd1 as (H1 & H2 & H3 & H4).
  change ((client ?f ≫= ?k) d1) with (k (f (d_client d1)) d1). cbv beta. rewrite H4.
  change ((client ?f ≫= ?k) d1) with (k (f (d_client d1)) d1). cbv beta. rewrite H2, H3. cbn [andb].
  clear H1 H2 H3 H4. revert d1 Hd1.
  apply (hoare_bind (link_state missed true true) _ _ _ (fun _ => link_state missed true true)).
  { apply safe_hoare. by apply link_send. }
  intros _ d2 (H1 & H2 & H3 & H4).
  set (d3 := d2 <| d_client ::= fun c => c <| missed_heartbeat_ ::= Z.succ |> |>).
  change ((upd_client ?f ≫= ?k) d2) with (k tt d3). cbv beta.
  change ((client ?f ≫= ?k) d3) with (k (f (d_client d3)) d3). cbv beta.
  assert (Hmiss : missed_heartbeat_ (d_client d3) = missed + 1) by (unfold d3; cbn; lia).
  rewrite Hmiss, (proj2 (Z.leb_le _ _)) by done.
  destruct (disconnect_run d3) as (c & Hrun & Hc & _ & _ & Hstop & Hmc & _). rewrite Hrun.
  split; [cbn; by rewrite Hmc |]. split; [exact Hc |]. cbn. rewrite Hstop. exact H4.
Qed.

Lemma connection_run missed d :
  heartbeat_miss_limit_ <= missed + 1 ->
  missed_heartbeat_ (d_client d) = missed -> stopping_ (d_client d) = false ->
  exists d', connection d = (Ret tt, d') /\ closed_after (missed + 1) d'.
Proof using Type.
  intros Hlim Hm Hs.
  assert (Hc : hoare (fun d => missed_heartbeat_ (d_client d) = missed /\ stopping_ (d_client d) = false)
    connection (fun _ _ => False) (fun _ => closed_after (missed + 1))).
  { unfold connection. apply (hoare_bind _ _ _ _ (fun _ => link_state missed false true)); [apply link_established |].
    intros _. apply (hoare_bind _ _ _ _ (fun _ => link_state missed true true)); [| intros _; by apply last_heartbeat].
    by intros d1 (H1 & _ & H3 & H4). }
  destruct (hoare_run _ _ _ d Hc) as ([] & d' & Hrun & Hd'); [done | by exists d'].
Qed.

Lemma connections_S n d d1 : connection d = (Ret tt, d1) -> connections (S n) d = connections n d1.
Proof using Type. intros Hrun. cbn [connections]. unfold mbind, M_bind, bind. by rewrite Hrun. Qed.

(** Three unanswered heartbeats are never forgiven: reconnecting does not
    reset the counter, and the first heartbeat of the new connection counts as
    missed before it can be answered; so each of the following connections,
    however many, is closed at its first heartbeat. *)
Theorem heartbeat_never_recovers n d :
  2 <= missed_heartbeat_ (d_client d) -> stopping_ (d_client d) = false ->
  exists d', connections (S n) d = (Ret tt, d') /\ connected_ (d_client d') = false /\
    missed_heartbeat_ (d_client d') = missed_heartbeat_ (d_client d) + Z.of_nat (S n).
Proof using Type.
  revert d. induction n as [| n IH]; intros d Hm Hs.
  - destruct (connection_run (missed_heartbeat_ (d_client d)) d) as (d1 & Hrun & H1 & H2 & H3);
      [unfold heartbeat_miss_limit_; lia | done | done |].
    exists d1. split; [| split; [done | rewrite H1; lia]].
    by rewrite (connections_S 0 d d1 Hrun).
  - destruct (connection_run (missed_heartbeat_ (d_client d)) d) as (d1 & Hrun & H1 & H2 & H3);
      [unfold heartbeat_miss_limit_; lia | done | done |].
    destruct (IH d1) as (d2 & Hrun2 & Hc2 & Hm2); [lia | done |].
    exists d2. split; [| split; [done | rewrite Hm2, H1; lia]].
    by rewrite (connections_S (S n) d d1 Hrun).
Qed.

(** ** The acknowledgement of the login *)

Lemma lift_run {A B} (r : res A) (k : A -> L B) d a : r = Ret a -> (lift r ≫= k) d = k a d.
Proof using Type. by intros ->. Qed.

(** The two encodings of a successful login acknowledgement differ: over
    Protobuf the result ["ok"] authenticates the link and ["OK"] is ignored;
    over JSON ["OK"] authenticates it, and ["ok"] drops the connection and
    starts a new one. *)
Theorem login_ack_encodings d nickname :
  handlers_ (d_router d) !! "server_login_ack"%string = Some OnServerLoginAck ->
  let json_ack r := obj [("type", JStr "server_login_ack"); ("result", JStr r);
                         ("nickname", JStr nickname)]%string in
  authed_ (d_client (exec (handle_envelope cfg (PbServerLoginAck "ok" nickname)) d)) = true /\
  exec (handle_envelope cfg (PbServerLoginAck "OK" nickname)) d = d /\
  authed_ (d_client (exec (handle cfg (json_ack "OK")) d)) = true /\
  authed_ (d_client (exec (handle cfg (json_ack "ok")) d)) = false /\
  connected_ (d_client (exec (handle cfg (json_ack "ok")) d)) = false.
Proof using Type.
  intros Hh json_ack. split; [done |]. split; [done |].
  assert (Hrun : forall r, handle cfg (json_ack r) d =
            (result ← lift (value_str (json_ack r) "result" "");
             nickname ← lift (value_str (json_ack r) "nickname" "");
             if decide (result = "OK"%string) then mark_authed true
             else mark_authed false;; stop;; start cfg) d).
  { intros r. unfold handle. rewrite (lift_run _ _ _ "server_login_ack"%string) by reflexivity.
    change (is_answer "server_login_ack") with false. cbv iota.
    unfold dispatch_type. change ((router ?f ≫= ?g) d) with (g (f (d_router d)) d). cbv beta.
    by rewrite Hh. }
  unfold exec. rewrite !Hrun.
  rewrite !(lift_run (value_str (json_ack "OK") "result" "") _ _ "OK"%string) by reflexivity.
  rewrite !(lift_run (value_str (json_ack "ok") "result" "") _ _ "ok"%string) by reflexivity.
  rewrite !(lift_run (value_str (json_ack _) "nickname" "") _ _ nickname) by reflexivity.
  rewrite decide_True, decide_False by done. split; [done |].
  unfold mark_authed, stop, start, do_connect, close_socket, upd_client, client, start_db_op,
    mbind, M_bind, bind, modify, gets, mret, M_ret, ret. cbn.
  by destruct (decide (port_ cfg = d_tcp_port d)).
Qed.
End heartbeat.

(** ** Request ids *)

Section req_id.

Lemma digit_char (x : N) : (x < 10)%N ->
  is_digit (pretty_N_char x) = true /\ Z.of_nat (Ascii.nat_of_ascii (pretty_N_char x)) - 48 = Z.of_N x.
Proof.
  intros Hx. assert (Hd : (x = 0 \/ x = 1 \/ x = 2 \/ x = 3 \/ x = 4 \/ x = 5 \/ x = 6 \/ x = 7 \/ x = 8 \/ x = 9)%N)
    by lia.
  by repeat destruct Hd as [-> | Hd]; [.. | rewrite Hd].
Qed.

Lemma number_of_go (x : N) s : number_of 0 (pretty_N_go x s) = number_of (Z.of_N x) s.
Proof.
  revert s. induction (N.lt_wf_0 x) as [x _ IH]. intros s.
  destruct (N.eq_0_gt_0_cases x) as [-> | Hx]; [by rewrite pretty_N_go_0 |].
  rewrite pretty_N_go_step, IH by (done || by apply N.div_lt). cbn [number_of].
  destruct (digit_char (x `mod` 10)) as [_ Hd]; [by apply N.mod_lt |].
  assert (Hn : Z.of_N (x `div` 10) * 10 + (Z.of_nat (Ascii.nat_of_ascii (pretty_N_char (x `mod` 10))) - 48) = Z.of_N x).
  { rewrite Hd. pose proof (N.div_mod x 10 ltac:(done)). lia. }
  by rewrite Hn.
Qed.

Lemma leading_go (x : N) s : leading_digits (pretty_N_go x s) = pretty_N_go x (leading_digits s).
Proof.
  revert s. induction (N.lt_wf_0 x) as [x _ IH]. intros s.
  destruct (N.eq_0_gt_0_cases x) as [-> | Hx]; [by rewrite !pretty_N_go_0 |].
  rewrite !(pretty_N_go_step x) by done. rewrite IH by by apply N.div_lt. cbn [leading_digits].
  destruct (digit_char (x `mod` 10)) as [-> _]; [by apply N.mod_lt | done].
Qed.

Lemma go_app (x : N) s t : (pretty_N_go x s +:+ t)%string = pretty_N_go x (s +:+ t).
Proof.
  revert s. induction (N.lt_wf_0 x) as [x _ IH]. intros s.
  destruct (N.eq_0_gt_0_cases x) as [-> | Hx]; [by rewrite !pretty_N_go_0 |].
  rewrite !(pretty_N_go_step x) by done. by rewrite IH by by apply N.div_lt.
Qed.

(** The digits of a number, followed by something else. *)
Lemma leading_pretty (n : Z) t :
  0 <= n -> leading_digits t = EmptyString ->
  leading_digits (pretty n +:+ t) = pretty n /\ number_of 0 (pretty n) = n /\ pretty n <> EmptyString.
Proof.
  intros Hn Ht. destruct n as [| n | n]; [| | lia].
  - split; [| done]. change (pretty 0 +:+ t)%string with (String (Ascii.ascii_of_nat 48) t).
    exact (f_equal (String (Ascii.ascii_of_nat 48)) Ht).
  - change (pretty (Z.pos n)) with (pretty_N_go (N.pos n) EmptyString).
    assert (Hnum : number_of 0 (pretty_N_go (N.pos n) EmptyString) = Z.pos n) by apply number_of_go.
    split; [rewrite go_app, leading_go; exact (f_equal (pretty_N_go (N.pos n)) Ht) |]. split; [done |].
    intros He. by rewrite He in Hnum.
Qed.

Context (cfg : Settings).

Definition req_id_of (seq session_id : Z) : string :=
  if 0 <=? session_id then (pretty session_id +:+ "_" +:+ pretty seq)%string
  else ("srv-" +:+ pretty (process_id cfg) +:+ "-" +:+ pretty seq)%string.

Lemma make_req_id_run sid d :
  make_req_id cfg sid d =
    (Ret (req_id_of (req_seq_ (d_router d) + 1) sid), d <| d_router ::= fun r => r <| req_seq_ ::= Z.succ |> |>).
Proof. unfold make_req_id, req_id_of. by destruct (0 <=? sid). Qed.

Lemma extract_req_id seq sid :
  extract_session_id_from_req (req_id_of seq sid) =
    if (0 <=? sid) && (sid <? 2 ^ 31) then sid else -1.
Proof.
  unfold extract_session_id_from_req, req_id_of. destruct (Z.leb_spec 0 sid) as [Hs | Hs]; [| done].
  destruct (leading_pretty sid ("_" +:+ pretty seq) Hs eq_refl) as (-> & -> & Hne).
  by rewrite decide_False.
Qed.

Lemma req_id_inj seq seq' sid sid' : req_id_of seq sid = req_id_of seq' sid' -> seq = seq'.
Proof.
  intros He. pose proof (f_equal leading_digits He) as Hd. unfold req_id_of in *.
  destruct (Z.leb_spec 0 sid) as [Hs | Hs], (Z.leb_spec 0 sid') as [Hs' | Hs'].
  - destruct (leading_pretty sid ("_" +:+ pretty seq) Hs eq_refl) as (H1 & _ & _).
    destruct (leading_pretty sid' ("_" +:+ pretty seq') Hs' eq_refl) as (H2 & _ & _).
    rewrite H1, H2 in Hd. rewrite Hd in He. apply (inj _) in He. apply (inj _) in He. by apply (inj pretty).
  - destruct (leading_pretty sid ("_" +:+ pretty seq) Hs eq_refl) as (H1 & _ & H3).
    rewrite H1 in Hd. by destruct H3.
  - destruct (leading_pretty sid' ("_" +:+ pretty seq') Hs' eq_refl) as (H1 & _ & H3).
    rewrite H1 in Hd. by destruct H3.
  - do 3 apply (inj _) in He. by apply (inj pretty).
Qed.

(** Request ids: the session id can be read back from the id of a request
    made for a session, and is -1 for the others; the ids of different calls
    differ, so that an answer cannot reach another request. *)
Theorem req_id_roundtrip d sid d2 sid2 :
  exists id id2,
    make_req_id cfg sid d = (Ret id, d <| d_router ::= fun r => r <| req_seq_ ::= Z.succ |> |>) /\
    outcome (make_req_id cfg sid2) d2 = Ret id2 /\
    (0 <= sid < 2 ^ 31 -> extract_session_id_from_req id = sid) /\
    (sid < 0 -> extract_session_id_from_req id = -1) /\
    (req_seq_ (d_router d) < req_seq_ (d_router d2) -> id <> id2).
Proof.
  exists (req_id_of (req_seq_ (d_router d) + 1) sid), (req_id_of (req_seq_ (d_router d2) + 1) sid2).
  split; [apply make_req_id_run |]. split; [unfold outcome; by rewrite make_req_id_run |].
  rewrite extract_req_id. split; [| split].
  - intros Hs. by rewrite (proj2 (Z.leb_le _ _)), (proj2 (Z.ltb_lt _ _)) by lia.
  - intros Hs. by rewrite (proj2 (Z.leb_gt _ _)) by lia.
  - intros Hlt He. apply req_id_inj in He. lia.
Qed.
End req_id.

(** ** A run of the link *)

Section events.
Context `{Platform} `{Wire} (cfg : Settings).

Definition is_ub {A} (r : res A) : bool := match r with UB => true | _ => false end.

(** Events processed one after the other. *)
Fixpoint db_events (d : Db) (es : list DbEvent) : option Db :=
  match es with
  | [] => Some d
  | e :: es' =>
      if db_enabled e d && negb (is_ub (fst (db_run cfg e d)))
      then db_events (snd (db_run cfg e d)) es' else None
  end.

Lemma db_events_path d es d' : db_events d es = Some d' -> db_path cfg d es d'.
Proof.
  revert d. induction es as [| e es IH]; intros d He; cbn in He; [injection He as <-; constructor |].
  destruct (db_enabled e d) eqn:Hen; [| done]. destruct (fst (db_run cfg e d)) eqn:Hrun; cbn in He; [| | done];
    (econstructor; [| by apply IH]; split; [done |]; split; [done |]; by rewrite Hrun).
Qed.

Lemma path_one d e d' : db_path cfg d [e] d' -> db_step cfg d e d'.
Proof. intros Hp. inversion Hp as [| ? ? d1 ? ? Hs Hn]; subst. by inversion Hn; subst. Qed.

Lemma db_path_reachable now port d es d' :
  db_reachable cfg now port d -> db_path cfg d es d' -> db_reachable cfg now port d'.
Proof. intros Hd Hp. induction Hp; [done |]. eauto using db_reach_step. Qed.
End events.

(** The middleware acknowledges the login, then answers a request. *)
Definition demo_login_ack : json :=
  obj [("type", JStr "server_login_ack"); ("result", JStr "OK"); ("nickname", JStr "gs")]%string.
Definition demo_answer : json :=
  obj [("type", JStr "db_query_result"); ("req_id", JStr "7_1"); ("level", JInt 3%Z)]%string.

#[local] Instance demo_link_platform : Platform := JsonPlatform.exact_platform.
#[local] Instance demo_wire : Wire := {| ParseFromArray := fun _ => None |}.

Definition demo_settings : Settings := mkSettings 40000 "gs" "secret:" 10 77.

Definition demo_link (es : list DbEvent) : option Db :=
  db_events demo_settings (exec (connect_db demo_settings) (initial_db 0 12345)) es.

Definition demo_state (es : list DbEvent) : Db := default (initial_db 0 12345) (demo_link es).

(** The frame being written, the wait started last. *)
Definition in_flight (d : Db) : list byte := default [] (head (write_queue_ (d_client d))).
Definition last_wait (d : Db) : RequestTimer := default (mkRequestTimer "" true 0) (last (request_waits (d_client d))).

Definition from_middleware (j : json) : list byte := frame (String.list_byte_of_string (dump j)).

Definition demo_connect : list DbEvent := [DbResolved true; DbConnected true].
Definition demo_logged_in : list DbEvent :=
  demo_connect ++ [DbWritten 1 (in_flight (demo_state demo_connect)) true;
                   DbReadDone 1 (Some (from_middleware demo_login_ack));
                   DbRequest "user_info" JNull true 2000 1 7 (Some 1%nat) (Some 2%nat)].

Lemma demo_runs es es' :
  (if demo_link es is Some _ then true else false) = true ->
  (if demo_link (es ++ es') is Some _ then true else false) = true ->
  db_reachable demo_settings 0 12345 (demo_state es) /\
  db_path demo_settings (demo_state es) es' (demo_state (es ++ es')).
Proof.
  assert (Happ : demo_link (es ++ es') = demo_link es ≫= fun d => db_events demo_settings d es').
  { unfold demo_link. generalize (exec (connect_db demo_settings) (initial_db 0 12345)).
    induction es as [| e es IH]; intros d; [done |]. cbn. destruct (_ && _); [apply IH | done]. }
  unfold demo_state. rewrite Happ. destruct (demo_link es) as [d |] eqn:Hd; [| done]. cbn.
  destruct (db_events demo_settings d es') as [d' |] eqn:Hd'; [| done]. intros _ _. cbn. split.
  - apply db_events_path in Hd. eapply db_path_reachable; [apply db_reach_initial | exact Hd].
  - by apply db_events_path.
Qed.

Lemma demo_reached es :
  (if demo_link es is Some _ then true else false) = true ->
  db_reachable demo_settings 0 12345 (demo_state es).
Proof. intros He. apply (demo_runs es []); [done | by rewrite app_nil_r]. Qed.

Example demo_served_login :
  authed_ (d_client (demo_state demo_logged_in)) = true /\
  sends_made (d_out (demo_state demo_logged_in)) = 2%nat.
Proof. by vm_compute. Qed.

(** ** Instances of the theorems *)

Lemma link_sound_witness :
  (length (writes (d_ops (demo_state demo_logged_in))) <= 1)%nat /\
  is_Some (pending_ (d_router (demo_state demo_logged_in)) !! "7_1"%string).
Proof.
  split.
  - apply (link_sound demo_settings 0 12345 (demo_state demo_logged_in)).
    apply demo_reached. by vm_compute.
  - apply (bool_decide_unpack _). by vm_compute.
Defined.

Definition demo_failure : DbEvent := DbWritten 1 (in_flight (demo_state demo_connect)) false.
Definition demo_aftermath : list DbEvent :=
  [DbTick (seconds 5); DbReconnect; DbResolved true; DbConnected true;
   DbRequest "user_info" JNull true 2000 1 7 None None].

Lemma write_error_mutes_witness :
  sends_made (d_out (demo_state ((demo_connect ++ [demo_failure]) ++ demo_aftermath))) = 1%nat /\
  sends_made (d_out (demo_state ((demo_connect ++ [demo_failure]) ++ demo_aftermath))) =
  sends_made (d_out (demo_state (demo_connect ++ [demo_failure]))).
Proof.
  split; [by vm_compute |].
  assert (Hs : db_step demo_settings (demo_state demo_connect) demo_failure
                 (demo_state (demo_connect ++ [demo_failure]))).
  { apply path_one, demo_runs; by vm_compute. }
  assert (Hp : db_path demo_settings (demo_state (demo_connect ++ [demo_failure])) demo_aftermath
                 (demo_state ((demo_connect ++ [demo_failure]) ++ demo_aftermath))).
  { apply demo_runs; by vm_compute. }
  exact (write_error_mutes demo_settings 0 12345 _ 1 _ _ _ _ (demo_reached demo_connect eq_refl) Hs Hp).
Defined.

Definition demo_reply : list DbEvent :=
  [DbWritten 1 (in_flight (demo_state demo_logged_in)) true;
   DbReadDone 1 (Some (from_middleware demo_answer)); DbTick (seconds 5)].

Lemma answers_do_not_stop_timers_witness :
  pending_ (d_router (demo_state (demo_logged_in ++ demo_reply))) = ∅ /\
  exists d, db_step demo_settings (demo_state (demo_logged_in ++ demo_reply))
              (DbRequestTimer (last_wait (demo_state demo_logged_in))) d /\
    timeout_count_ (d_client d) = timeout_count_ (d_client (demo_state (demo_logged_in ++ demo_reply))) + 1.
Proof.
  split; [by vm_compute |].
  assert (Hr : db_reachable demo_settings 0 12345 (demo_state demo_logged_in)).
  { apply demo_reached. by vm_compute. }
  assert (Hp : db_path demo_settings (demo_state demo_logged_in) demo_reply
                 (demo_state (demo_logged_in ++ demo_reply))).
  { apply demo_runs; by vm_compute. }
  apply (answers_do_not_stop_timers demo_settings 0 12345 (demo_state demo_logged_in)
           (last_wait (demo_state demo_logged_in)) demo_reply _ Hr); [| exact Hp | |].
  - apply (bool_decide_unpack _). by vm_compute.
  - unfold demo_reply. intros Hin. repeat (apply elem_of_cons in Hin as [Hin | Hin]; [done |]).
    by apply elem_of_nil in Hin.
  - apply Z.leb_le. by vm_compute.
Defined.

Definition demo_pending (n : Z) : Pending :=
  mkPending (Some 0) demo_answer true n 1 2000 7 (Some 1%nat) (Some 2%nat) true.
Definition demo_waiting (n : Z) : Db :=
  (initial_db 0 12345) <| d_router ::= fun r => r <| pending_ := {["7_1"%string := demo_pending n]} |>
                                                <| handlers_ ::= <["server_login_ack"%string := OnServerLoginAck]> |> |>.

Lemma answer_reaches_request_witness :
  exists d', handle demo_settings demo_answer (demo_waiting 0) = (Ret tt, d') /\
    d_out d' = [DbPromise "7_1" demo_answer; DbCallback 1%nat demo_answer].
Proof.
  destruct (answer_reaches_request demo_settings (demo_waiting 0) demo_answer "db_query_result" "7_1"
              (demo_pending 0)) as (d' & Hrun & _ & Ho & _); [done | by vm_compute | done | done | done |].
  exists d'. split; [exact Hrun | exact Ho].
Defined.

Definition demo_three_missed : Db :=
  (initial_db 0 12345) <| d_client ::= fun c => c <| missed_heartbeat_ := 3 |> |>.

Lemma heartbeat_never_recovers_witness :
  exists d', connections demo_settings 5 demo_three_missed = (Ret tt, d') /\
    connected_ (d_client d') = false /\ missed_heartbeat_ (d_client d') = 8.
Proof.
  destruct (heartbeat_never_recovers demo_settings 4 demo_three_missed) as (d' & H1 & H2 & H3);
    [by cbn; lia | done |].
  exists d'. split; [exact H1 |]. split; [exact H2 |]. exact H3.
Defined.

Lemma login_ack_encodings_witness :
  authed_ (d_client (exec (handle_envelope demo_settings (PbServerLoginAck "ok" "gs")) (demo_waiting 0))) = true /\
  authed_ (d_client (exec (handle_envelope demo_settings (PbServerLoginAck "OK" "gs")) (demo_waiting 0))) = false.
Proof.
  destruct (login_ack_encodings demo_settings (demo_waiting 0) "gs") as (H1 & H2 & _); [done |].
  split; [exact H1 |]. by rewrite H2.
Defined.

Lemma request_gives_up_witness :
  exists d', timeouts demo_settings 2 "7_1" (demo_waiting 0) = (Ret tt, d') /\
    pending_ (d_router d') !! "7_1"%string = None.
Proof.
  destruct (request_gives_up demo_settings 2 (demo_waiting 0) "7_1" (demo_pending 0)) as [_ Hg]; [done |].
  destruct Hg as (d' & H1 & H2 & _); [done |]. by exists d'.
Defined.
