(* ===== verification/Requests.v ===== *)
(** * What a login expects from the database link

    The interface between [LoginFlow] and [DBmwRouter]: requests with a success
    and an error callback, and the answers that call them.  [DbCalls] shows that
    the router keeps it; the composition of [Joint] is proved against it. *)
From Stdlib Require Import ZArith Lia.
From stdpp Require Import base gmap sets list strings.
From S2P Require Import Prelude Json.

(** One call of a callback: of the request [a_call], of its [on_ok] or of its
    [on_error]. *)
Record Answer := mkAnswer {
  a_call : nat;
  a_ok : bool;
  a_json : json
}.

(** From [before] to [after], the answers [l] are given: only to open requests,
    at most one each, and an answered request is open no more. *)
Definition accounts (before : gset nat) (l : list Answer) (after : gset nat) : Prop :=
  after ⊆ before /\ NoDup (a_call <$> l) /\
  forall k, k ∈ a_call <$> l -> k ∈ before /\ k ∉ after.

Class RequestService := {
  rs_state : Type;
  rs_event : Type;
  rs_start : rs_state -> Prop;
  rs_wf : rs_state -> Prop;
  rs_connected : rs_state -> bool;
  (** the requests whose callbacks may still be called *)
  rs_open : rs_state -> gset nat;
  (** [send_request_cb]: the request [k], for a nickname and a session id *)
  rs_request : nat -> string -> Z -> rs_state -> list Answer * rs_state;
  rs_stop : rs_event;
  rs_step : rs_state -> rs_event -> list Answer -> rs_state -> Prop;
  rs_start_wf : forall d, rs_start d -> rs_wf d /\ rs_open d = ∅;
  rs_request_ok : forall k nickname id d,
    rs_wf d -> k ∉ rs_open d ->
    let '(l, d') := rs_request k nickname id d in
    rs_wf d' /\ accounts ({[k]} ∪ rs_open d) l (rs_open d');
  rs_step_ok : forall d e l d',
    rs_wf d -> rs_step d e l d' -> rs_wf d' /\ accounts (rs_open d) l (rs_open d')
}.

Lemma accounts_nil before after : after ⊆ before -> accounts before [] after.
Proof. intros Hs. split; [done |]. split; [apply NoDup_nil_2 |]. intros k Hk. by apply elem_of_nil in Hk. Qed.

Lemma accounts_refl o : accounts o [] o.
Proof. by apply accounts_nil. Qed.

Lemma accounts_trans o1 l1 o2 l2 o3 :
  accounts o1 l1 o2 -> accounts o2 l2 o3 -> accounts o1 (l1 ++ l2) o3.
Proof.
  intros (H1 & H2 & H3) (H4 & H5 & H6). split; [set_solver |]. rewrite fmap_app. split.
  - apply NoDup_app. split; [done |]. split; [| done]. intros k Hk Hk2.
    destruct (H3 k Hk) as [_ Hn]. by apply Hn, (H6 k Hk2).
  - intros k [Hk | Hk]%elem_of_app; [| set_solver]. destruct (H3 k Hk) as [? Hn]. split; [done |]. set_solver.
Qed.

Lemma accounts_weaken o o' l after : o ⊆ o' -> accounts o l after -> accounts o' l after.
Proof. intros Hs (H1 & H2 & H3). split; [set_solver |]. split; [done |]. intros k Hk. destruct (H3 k Hk). set_solver. Qed.
