(* ===== verification/DbCalls.v ===== *)
(** * The router answers each request at most once

    [DbSystem] as an instance of the interface [Requests]: request [k] has the
    callbacks [2 k] and [2 k + 1]. *)
From Stdlib Require Import ZArith Lia Strings.Byte.
From stdpp Require Import base gmap sets list strings pretty.
From S2P Require Import Prelude MessageBuffer RateLimit Json DbLink DbClient DbRouter DbSystem Requests.

Open Scope Z_scope.

(** ** The callbacks called and those that can still be *)

Definition ok_callback (k : nat) : callback := (2 * k)%nat.
Definition error_callback (k : nat) : callback := S (2 * k).

Definition answer_of (o : DbOut) : option Answer :=
  match o with
  | DbCallback cb j => Some (mkAnswer (Nat.div2 cb) (Nat.even cb) j)
  | _ => None
  end.
Definition answers (l : list DbOut) : list Answer := omap answer_of l.

Lemma answer_ok k j : answer_of (DbCallback (ok_callback k) j) = Some (mkAnswer k true j).
Proof.
  unfold answer_of, ok_callback. rewrite Nat.div2_double. by rewrite Nat.even_mul.
Qed.

Lemma answer_error k j : answer_of (DbCallback (error_callback k) j) = Some (mkAnswer k false j).
Proof.
  unfold answer_of, error_callback. rewrite Nat.div2_succ_double.
  by rewrite Nat.even_succ, <- Nat.negb_even, Nat.even_mul.
Qed.

(** The requests of the game server a pending entry belongs to. *)
Definition opens (p : Pending) : gset nat :=
  list_to_set (option_list (Nat.div2 <$> on_ok p) ++ option_list (Nat.div2 <$> on_error p)).

Definition open_calls (m : gmap string Pending) : gset nat := ⋃ ((opens ∘ snd) <$> map_to_list m).

Lemma elem_of_open_calls m k : k ∈ open_calls m <-> exists id p, m !! id = Some p /\ k ∈ opens p.
Proof.
  unfold open_calls. rewrite elem_of_union_list. split.
  - intros (X & HX & Hk). apply list_elem_of_fmap in HX as ([id p] & -> & Hin).
    apply elem_of_map_to_list in Hin. by exists id, p.
  - intros (id & p & Hm & Hk). exists (opens p). split; [| done].
    apply list_elem_of_fmap. exists (id, p). split; [done | by apply elem_of_map_to_list].
Qed.

(** Every entry belongs to one request, and no two entries to the same. *)
Definition calls_wf (m : gmap string Pending) : Prop :=
  (forall id p k k', m !! id = Some p -> k ∈ opens p -> k' ∈ opens p -> k = k') /\
  (forall id id' p p' k, m !! id = Some p -> m !! id' = Some p' -> k ∈ opens p -> k ∈ opens p' -> id = id').

(** What a handler does to the accounts. *)
Definition keeps_accounts (d d' : Db) : Prop :=
  calls_wf (pending_ (d_router d)) ->
  calls_wf (pending_ (d_router d')) /\
  exists l, answers (d_out d') = answers (d_out d) ++ l /\
    accounts (open_calls (pending_ (d_router d))) l (open_calls (pending_ (d_router d'))).

#[export] Instance keeps_accounts_preorder : PreOrder keeps_accounts.
Proof.
  split.
  - intros d Hd. split; [done |]. exists []. rewrite app_nil_r. split; [done | apply accounts_refl].
  - intros d1 d2 d3 H12 H23 H1. destruct (H12 H1) as (H2 & l & Hl & Ha).
    destruct (H23 H2) as (H3 & k & Hk & Hb). split; [done |]. exists (l ++ k).
    rewrite Hk, Hl, app_assoc. split; [done | by eapply accounts_trans].
Qed.

Lemma accounts_same d d' :
  pending_ (d_router d') = pending_ (d_router d) -> answers (d_out d') = answers (d_out d) ->
  keeps_accounts d d'.
Proof.
  intros Hm Ho Hd. rewrite Hm, Ho. split; [done |]. exists []. rewrite app_nil_r.
  split; [done | apply accounts_refl].
Qed.

Lemma answers_app l k : answers (l ++ k) = answers l ++ answers k.
Proof. apply omap_app. Qed.

(** A changed entry with the same callbacks. *)
Lemma accounts_update d id p p' :
  pending_ (d_router d) !! id = Some p -> opens p' = opens p ->
  keeps_accounts d (d <| d_router ::= fun r => r <| pending_ ::= <[id := p']> |> |>).
Proof.
  intros Hp Ho Hd. cbn. set (m := pending_ (d_router d)) in *.
  assert (Hin : forall i q, <[id := p']> m !! i = Some q -> exists q0, m !! i = Some q0 /\ opens q = opens q0).
  { intros i q [[-> <-] | [_ Hq]]%lookup_insert_Some; [by exists p | by exists q]. }
  split.
  - destruct Hd as [H1 H2]. split.
    + intros i q k k' Hq. destruct (Hin i q Hq) as (q0 & Hq0 & ->). by apply (H1 i q0).
    + intros i i' q q' k Hq Hq'. destruct (Hin i q Hq) as (q0 & Hq0 & ->).
      destruct (Hin i' q' Hq') as (q0' & Hq0' & ->). by apply (H2 i i' q0 q0').
  - exists []. rewrite app_nil_r. split; [done |]. apply accounts_nil. intros k Hk.
    apply elem_of_open_calls in Hk as (i & q & Hq & Hk). destruct (Hin i q Hq) as (q0 & Hq0 & He).
    apply elem_of_open_calls. exists i, q0. by rewrite <- He.
Qed.

Lemma accounts_delete d id p :
  pending_ (d_router d) !! id = Some p ->
  keeps_accounts d (d <| d_router ::= fun r => r <| pending_ ::= delete id |> |>).
Proof.
  intros Hp Hd. cbn. set (m := pending_ (d_router d)) in *. split.
  - destruct Hd as [H1 H2]. split.
    + intros i q k k' [_ Hq]%lookup_delete_Some. by apply (H1 i q).
    + intros i i' q q' k [_ Hq]%lookup_delete_Some [_ Hq']%lookup_delete_Some. by apply (H2 i i' q q').
  - exists []. rewrite app_nil_r. split; [done |]. apply accounts_nil. intros k Hk.
    apply elem_of_open_calls in Hk as (i & q & [_ Hq]%lookup_delete_Some & Hk).
    apply elem_of_open_calls. by exists i, q.
Qed.

(** ** The handlers *)

Lemma keeps_modify f :
  (forall d, pending_ (d_router (f d)) = pending_ (d_router d) /\ answers (d_out (f d)) = answers (d_out d)) ->
  steps keeps_accounts (modify f).
Proof. intros Hf. apply steps_modify. intros d. destruct (Hf d). by apply accounts_same. Qed.

Lemma keeps_emit o : answer_of o = None -> steps keeps_accounts (db_emit o).
Proof.
  intros Ho. apply keeps_modify. intros d. split; [done |]. cbn. rewrite answers_app. cbn.
  by rewrite Ho, app_nil_r.
Qed.

#[local] Hint Extern 1 (steps keeps_accounts (modify _)) => apply keeps_modify; by intros : steps.
#[local] Hint Extern 1 (steps keeps_accounts (db_emit _)) => by apply keeps_emit : steps.
#[local] Hint Extern 1 (steps keeps_accounts (gets _)) => apply steps_gets; exact _ : steps.

Section link.
Context `{Platform} `{Wire} (cfg : Settings).

Lemma keeps_sender b j : steps keeps_accounts (sender cfg b j).
Proof. walk. Qed.
#[local] Hint Resolve keeps_sender : steps.

Lemma keeps_send_now id : steps keeps_accounts (send_now_locked cfg id).
Proof. walk. Qed.

Lemma keeps_arm_timeout id : steps keeps_accounts (arm_timeout_locked id).
Proof.
  intros d. unfold arm_timeout_locked, find_pending.
  change ((router ?f ≫= ?g) d) with (g (f (d_router d)) d). cbv beta.
  destruct (pending_ (d_router d) !! id) as [p |] eqn:Hp; [| reflexivity].
  by apply (accounts_update d id p).
Qed.

Lemma keeps_fulfill id j b : steps keeps_accounts (fulfill_and_erase_locked id j b).
Proof.
  intros d. unfold fulfill_and_erase_locked, find_pending.
  change ((router ?f ≫= ?g) d) with (g (f (d_router d)) d). cbv beta.
  destruct (pending_ (d_router d) !! id) as [p |] eqn:Hp; [| reflexivity].
  set (d1 := d <| d_router ::= fun r => r <| pending_ ::= delete id |> |>).
  change ((upd_router ?f ≫= ?k) d) with (k tt d1). cbv beta.
  transitivity d1; [by apply (accounts_delete d id p) |].
  clearbody d1. revert d1. change (steps keeps_accounts
    (db_emit (DbPromise id j);;
     if b then upd_router (fun r => r <| m_ok_ ::= Z.succ |>)
     else upd_router (fun r => r <| m_fail_ ::= Z.succ |>))). walk.
Qed.
#[local] Hint Resolve keeps_send_now keeps_arm_timeout keeps_fulfill : steps.

Lemma keeps_on_timeout id : steps keeps_accounts (on_timeout cfg id).
Proof.
  intros d. unfold on_timeout, find_pending.
  change ((router ?f ≫= ?g) d) with (g (f (d_router d)) d). cbv beta.
  destruct (pending_ (d_router d) !! id) as [p |] eqn:Hp; [| reflexivity].
  destruct (retries p <? max_retries p).
  - set (d1 := d <| d_router ::= fun r => r <| pending_ ::= <[id := p <| retries ::= Z.succ |>]> |> |>).
    change ((upd_router ?f ≫= ?k) d) with (k tt d1). cbv beta.
    transitivity d1; [by apply (accounts_update d id p) |].
    clearbody d1. revert d1. change (steps keeps_accounts
      (upd_router (fun r => r <| m_retry_ ::= Z.succ |>);;
       send_now_locked cfg id;; arm_timeout_locked id)). walk.
  - revert d Hp. intros d _. revert d. change (steps keeps_accounts
      (upd_router (fun r => r <| m_to_ ::= Z.succ |>);;
       fulfill_and_erase_locked id (timeout_error id) false)). walk.
Qed.

Lemma fulfill_run d id p j b :
  pending_ (d_router d) !! id = Some p ->
  exists d', fulfill_and_erase_locked id j b d = (Ret tt, d') /\
    pending_ (d_router d') = delete id (pending_ (d_router d)) /\ answers (d_out d') = answers (d_out d).
Proof.
  intros Hp. unfold fulfill_and_erase_locked, find_pending.
  change ((router ?f ≫= ?g) d) with (g (f (d_router d)) d). cbv beta. rewrite Hp.
  destruct b; (eexists; split; [reflexivity |]; split; [done |]; cbn; by rewrite answers_app, app_nil_r).
Qed.

(** The request of a removed entry is open no more. *)
Lemma open_delete m id p k :
  calls_wf m -> m !! id = Some p -> k ∈ opens p -> k ∉ open_calls (delete id m).
Proof.
  intros [_ H2] Hp Hk (i & q & [Hne Hq]%lookup_delete_Some & Hi)%elem_of_open_calls.
  by apply Hne, (H2 id i p q k).
Qed.

(** Calling the callback of an entry that has just been removed. *)
Lemma accounts_call d d1 id p cb j :
  pending_ (d_router d) !! id = Some p -> on_ok p = Some cb \/ on_error p = Some cb ->
  pending_ (d_router d1) = delete id (pending_ (d_router d)) -> answers (d_out d1) = answers (d_out d) ->
  keeps_accounts d (d1 <| d_out ::= fun l => l ++ [DbCallback cb j] |>).
Proof.
  intros Hp Hcb Hm Ho Hd. cbn. rewrite Hm, answers_app, Ho. set (m := pending_ (d_router d)) in *.
  assert (Hk : Nat.div2 cb ∈ opens p).
  { unfold opens. apply elem_of_list_to_set, elem_of_app.
    destruct Hcb as [-> | ->]; [left | right]; by apply list_elem_of_singleton. }
  destruct (accounts_delete d id p Hp Hd) as (Hwf & l & _ & Hsub & _). split; [exact Hwf |].
  exists [mkAnswer (Nat.div2 cb) (Nat.even cb) j]. split; [done |]. split; [exact Hsub |].
  cbn. split; [apply NoDup_singleton |]. intros k ->%list_elem_of_singleton. split.
  - apply elem_of_open_calls. by exists id, p.
  - by apply (open_delete m id p).
Qed.

Lemma keeps_answer id j : steps keeps_accounts (answer id j).
Proof.
  intros d. unfold answer, find_pending.
  change ((router ?f ≫= ?g) d) with (g (f (d_router d)) d). cbv beta.
  destruct (pending_ (d_router d) !! id) as [p |] eqn:Hp; [| reflexivity].
  unfold lift, mbind at 1, M_bind at 1, bind at 1. destruct (value_str j "type" "") as [type | |]; [| reflexivity..].
  set (ok := bool_decide _). destruct (use_callbacks p); [| apply keeps_fulfill].
  destruct (fulfill_run d id p j ok Hp) as (d1 & Hrun & Hm & Ho).
  unfold mbind, M_bind, bind. rewrite Hrun.
  assert (Hdrop : keeps_accounts d d1).
  { pose proof (keeps_fulfill id j ok d) as Hk. by rewrite Hrun in Hk. }
  destruct ok; [destruct (on_ok p) as [cb |] eqn:Hcb | destruct (on_error p) as [cb |] eqn:Hcb];
    first [exact Hdrop | apply (accounts_call d d1 id p cb j); auto].
Qed.
#[local] Hint Resolve keeps_answer keeps_on_timeout : steps.

Lemma keeps_handle j : steps keeps_accounts (handle cfg j).
Proof. walk. Qed.
#[local] Hint Resolve keeps_handle : steps.

Lemma keeps_envelope env : steps keeps_accounts (handle_envelope cfg env).
Proof. walk. Qed.
#[local] Hint Resolve keeps_envelope : steps.

Lemma keeps_take_bytes : steps keeps_accounts take_bytes.
Proof. intros d. unfold take_bytes. destruct (extract_message _) as [m b]. by apply accounts_same. Qed.
#[local] Hint Resolve keeps_take_bytes : steps.

Lemma keeps_read_frames fuel :
  steps keeps_accounts (read_frames cfg (handle cfg) (handle_envelope cfg) fuel).
Proof. induction fuel as [| fuel IH]; cbn [read_frames]; walk. Qed.
#[local] Hint Resolve keeps_read_frames : steps.

(** ** Requests *)

(** A new entry whose requests are not open yet. *)
Lemma accounts_add d id p k :
  calls_wf (pending_ (d_router d)) -> opens p ⊆ {[k]} -> k ∉ open_calls (pending_ (d_router d)) ->
  let d' := exec (add_pending id p) d in
  calls_wf (pending_ (d_router d')) /\ answers (d_out d') = answers (d_out d) /\
  open_calls (pending_ (d_router d')) ⊆ opens p ∪ open_calls (pending_ (d_router d)).
Proof.
  intros Hd Hk Hn. unfold exec, add_pending. cbn. set (m := pending_ (d_router d)) in *.
  destruct (m !! id) as [q |] eqn:Hq; [split; [done |]; split; [done | set_solver] |].
  assert (Hin : forall i q k', <[id := p]> m !! i = Some q -> k' ∈ opens q ->
            (i = id /\ k' = k) \/ (m !! i = Some q /\ k' ∈ open_calls m)).
  { intros i r k' [[-> <-] | [_ Hr]]%lookup_insert_Some Hk'; [left; set_solver | right].
    split; [done |]. apply elem_of_open_calls. by exists i, r. }
  destruct Hd as [H1 H2]. split; [split | split; [done |]].
  - intros i r a b Hr Ha Hb.
    destruct (Hin i r a Hr Ha) as [[? ?] | [Hr' _]], (Hin i r b Hr Hb) as [[? ?] | [Hr2 _]];
      [congruence.. | by apply (H1 i r)].
  - intros i i' r r' a Hr Hr' Ha Ha'.
    destruct (Hin i r a Hr Ha) as [[? ?] | [Hm Ho]], (Hin i' r' a Hr' Ha') as [[? ?] | [Hm' Ho']];
      [congruence | by subst a | by subst a | by apply (H2 i i' r r' a)].
  - intros a (i & r & Hr & Ha)%elem_of_open_calls.
    apply lookup_insert_Some in Hr as [[-> <-] | [_ Hr]]; [set_solver |].
    apply elem_of_union_r, elem_of_open_calls. by exists i, r.
Qed.

Lemma keeps_launch_future id p : opens p = ∅ -> steps keeps_accounts (launch cfg id p).
Proof.
  intros Ho. unfold launch. apply steps_bind; [exact _ | | intros; walk].
  intros d Hd. destruct (accounts_add d id p (fresh (open_calls (pending_ (d_router d)))) Hd)
    as (H1 & H2 & H3); [set_solver | apply is_fresh |].
  split; [exact H1 |]. exists []. rewrite app_nil_r. split; [exact H2 |]. apply accounts_nil. set_solver.
Qed.

#[local] Hint Extern 1 (steps keeps_accounts (launch cfg _ (mkPending _ _ _ _ _ _ _ None None _))) =>
  by apply keeps_launch_future : steps.

(** The requests the game server makes on its own; nobody calls [send_request]. *)
Definition is_request (e : DbEvent) : bool :=
  match e with DbRequest _ _ _ _ _ _ _ _ | DbFuture _ _ _ _ _ _ => true | _ => false end.

(** Every event but a request of the game server. *)
Lemma keeps_event e d : is_request e = false -> keeps_accounts d (snd (db_run cfg e d)).
Proof.
  intros He. revert d. change (steps keeps_accounts (db_run cfg e)).
  unfold db_run. apply steps_bind; [exact _ | destruct (db_completes e); walk |]. intros _.
  destruct e; try done; cbn [db_handler]; walk.
Qed.

(** The request [LoginFlow::request_user_info] makes. *)
Definition user_info_request (k : nat) (nickname : string) (id : Z) : L string :=
  send_request_cb cfg "request_user_info" (obj [("nickname", JStr nickname)]%string) true 2500 2 id
    (Some (ok_callback k)) (Some (error_callback k)).

Lemma launch_request id p k d :
  calls_wf (pending_ (d_router d)) -> opens p ⊆ {[k]} -> k ∉ open_calls (pending_ (d_router d)) ->
  exists l, calls_wf (pending_ (d_router (exec (launch cfg id p) d))) /\
    answers (d_out (exec (launch cfg id p) d)) = answers (d_out d) ++ l /\
    accounts ({[k]} ∪ open_calls (pending_ (d_router d))) l
      (open_calls (pending_ (d_router (exec (launch cfg id p) d)))).
Proof.
  intros Hd Ho Hk. destruct (accounts_add d id p k Hd Ho Hk) as (H1 & H2 & H3).
  assert (Hrest : steps keeps_accounts (send_now_locked cfg id;; arm_timeout_locked id)) by walk.
  specialize (Hrest (exec (add_pending id p) d) H1) as (H4 & l & H5 & H6). exists l.
  change (exec (launch cfg id p) d)
    with (snd ((send_now_locked cfg id;; arm_timeout_locked id) (exec (add_pending id p) d))).
  split; [exact H4 |]. rewrite <- H2. split; [exact H5 |]. eapply accounts_weaken; [| exact H6]. set_solver.
Qed.

Lemma opens_request ms n sid req k :
  opens (mkPending None req true 0 n ms sid (Some (ok_callback k)) (Some (error_callback k)) true) = {[k]}.
Proof.
  unfold opens, ok_callback, error_callback. cbn [on_ok on_error fmap option_fmap option_map option_list app].
  rewrite Nat.div2_succ_double, Nat.div2_double. set_solver.
Qed.

Lemma request_accounts k nickname id d :
  calls_wf (pending_ (d_router d)) -> k ∉ open_calls (pending_ (d_router d)) ->
  let d' := exec (user_info_request k nickname id) d in
  calls_wf (pending_ (d_router d')) /\
  exists l, answers (d_out d') = answers (d_out d) ++ l /\
    accounts ({[k]} ∪ open_calls (pending_ (d_router d))) l (open_calls (pending_ (d_router d'))).
Proof.
  intros Hd Hk. cbv zeta. generalize (eq_refl (exec (user_info_request k nickname id) d)).
  generalize (exec (user_info_request k nickname id) d) at 1 3 4 5 as d'. intros d' Hd'.
  assert (Hid : exists r d1, make_req_id cfg id d = (Ret r, d1) /\
            pending_ (d_router d1) = pending_ (d_router d) /\ answers (d_out d1) = answers (d_out d))
    by (do 2 eexists; split; [reflexivity | done]).
  destruct Hid as (r & d1 & Hrun & Hm & Ho). unfold user_info_request, send_request_cb, exec in Hd'.
  unfold mbind at 1, M_bind at 1, bind at 1 in Hd'. rewrite Hrun in Hd'.
  unfold lift, mbind at 1, M_bind at 1, bind at 1 in Hd'.
  assert (Hsame : calls_wf (pending_ (d_router d1)) /\ exists l, answers (d_out d1) = answers (d_out d) ++ l /\
            accounts ({[k]} ∪ open_calls (pending_ (d_router d))) l (open_calls (pending_ (d_router d1)))).
  { rewrite Hm, Ho. split; [done |]. exists []. rewrite app_nil_r. split; [done | apply accounts_nil; set_solver]. }
  destruct (request_of _ _ _) as [req | |]; [| by rewrite Hd'..].
  change ((router ?f ≫= ?g) d1) with (g (f (d_router d1)) d1) in Hd'. cbv beta in Hd'.
  destruct (senders_set (d_router d1)); cbn [negb] in Hd'.
  - set (p := mkPending None req true 0 2 2500 id (Some (ok_callback k)) (Some (error_callback k)) true) in Hd'.
    destruct (launch_request r p k d1) as (l & H1 & H2 & H3); rewrite ?Hm; [done | | done |].
    { unfold p. by rewrite opens_request. }
    assert (He : d' = exec (launch cfg r p) d1).
    { rewrite Hd'. unfold mbind, M_bind, bind, exec. by destruct (launch cfg r p d1) as [[a | e |] d2]. }
    rewrite He. rewrite Hm, Ho in *. split; [exact H1 |]. by exists l.
  - assert (He : d' = d1 <| d_out ::= fun l => l ++ [DbCallback (error_callback k) (not_set_error r)] |>)
      by exact Hd'.
    assert (Hm' : pending_ (d_router d') = pending_ (d_router d)) by by rewrite He.
    assert (Ho' : answers (d_out d') = answers (d_out d) ++ answers [DbCallback (error_callback k) (not_set_error r)])
      by (rewrite He; cbn [d_out set_field]; by rewrite answers_app, Ho).
    rewrite Hm', Ho'. split; [done |].
    exists [mkAnswer k false (not_set_error r)]. split.
    { unfold answers. cbn [omap list_omap]. by rewrite answer_error. }
    split; [set_solver |]. split; [apply NoDup_singleton |].
    intros i Hi. apply list_elem_of_singleton in Hi as ->. cbn. set_solver.
Qed.

End link.

(** ** The instance *)

Section instance.
Context `{Platform} `{Wire} (cfg : Settings) (now tcp_port : Z).

Definition made (d d' : Db) : list Answer := drop (length (answers (d_out d))) (answers (d_out d')).

Lemma made_app d d' l : answers (d_out d') = answers (d_out d) ++ l -> made d d' = l.
Proof. intros Ho. unfold made. by rewrite Ho, drop_app_length. Qed.

Program Definition db_service : RequestService := {|
  rs_state := Db;
  rs_event := DbEvent;
  rs_start d := d = exec (connect_db cfg) (initial_db now tcp_port);
  rs_wf d := calls_wf (pending_ (d_router d));
  rs_connected d := connected_ (d_client d);
  rs_open d := open_calls (pending_ (d_router d));
  rs_request k nickname id d :=
    let d' := exec (user_info_request cfg k nickname id) d in (made d d', d');
  rs_stop := DbStop;
  rs_step d e l d' := is_request e = false /\ db_step cfg d e d' /\ l = made d d'
|}.
Next Obligation.
  intros d ->. assert (Hm : pending_ (d_router (exec (connect_db cfg) (initial_db now tcp_port))) = ∅).
  { unfold connect_db, exec, attach, register_handler, upd_router, modify, start, do_connect, client, gets, upd_client, mbind, M_bind, bind, mret, M_ret, ret.
    cbn. by destruct (decide (port_ cfg = tcp_port)). }
  rewrite Hm. split; [| done]. split; intros *; by rewrite lookup_empty.
Qed.
Next Obligation.
  intros k nickname id d Hd Hk. destruct (request_accounts cfg k nickname id d Hd Hk) as (H1 & l & H2 & H3).
  cbv zeta. rewrite (made_app _ _ _ H2). done.
Qed.
Next Obligation.
  intros d e l d' Hd (He & (_ & <- & _) & ->). destruct (keeps_event cfg e d He Hd) as (H1 & k & H2 & H3).
  rewrite (made_app _ _ _ H2). done.
Qed.
End instance.
