(* ===== verification/Joint.v ===== *)
(** * The server and the database link together

    A login of [System] that waits for the database is a request of the link:
    [LoginFlow] hands the router two callbacks, and the router calls one of
    them, if any.  The composition is defined over the interface [Requests], so
    that what is proved here holds of every link that keeps it.

    A request is handed over when the handler that makes it returns, and the
    callbacks the link makes are run one by one, in order, as the lambdas of
    the router's strand are.  The game server sees the link through
    [is_connected] only. *)
From Stdlib Require Import ZArith Lia Strings.Byte.
From stdpp Require Import base gmap sets list strings.
From S2P Require Import Prelude Json Session World Invariant LoginFlow System Frames Requests.

Open Scope Z_scope.

(** A login that waits. *)
Record Waiting := mkWaiting {
  wt_session : sptr;
  wt_nickname : string;
  wt_id : Z
}.

Definition waiting_op (x : Waiting) : Op := OpDb (wt_session x) (wt_nickname x) (wt_id x).

Definition request_of_op (o : Op) : option Waiting :=
  match o with OpDb p nickname id => Some (mkWaiting p nickname id) | _ => None end.

(** The logins that wait, of the outstanding operations. *)
Definition waiting (ops : list Op) : list Waiting := omap request_of_op ops.

(** The event that runs a callback. *)
Definition callback_event (x : Waiting) (a : Answer) : Event :=
  if a_ok a then EvDbOk (wt_session x) (wt_nickname x) (wt_id x) (a_json a)
  else EvDbError (wt_session x) (wt_nickname x) (wt_id x) (a_json a).

(** The operations left when the one an event completes is taken away. *)
Definition remaining (e : Event) (ops : list Op) : list Op :=
  match completes e with Some o => remove_op o ops | None => ops end.

(** Events the link does not decide about. *)
Definition is_internal (e : Event) : bool :=
  match e with EvDbOk _ _ _ _ | EvDbError _ _ _ _ | EvLinks _ => false | _ => true end.

Section joint.
Context `{Platform} {link : RequestService}.

Record Joint := mkJoint {
  j_sys : Sys;
  j_link : rs_state;
  j_calls : gmap nat Waiting;     (** the requests whose callback has not run *)
  j_next : nat;
  j_due : list Answer             (** callbacks called and not run yet *)
}.

(** What [LoginFlow] sees of the link. *)
Definition view (d : rs_state) : AppLinks := mkAppLinks true (rs_connected d) true.

Definition hand_over (x : Waiting) (j : Joint) : Joint :=
  let '(l, d) := rs_request (j_next j) (wt_nickname x) (wt_id x) (j_link j) in
  mkJoint (j_sys j) d (<[j_next j := x]> (j_calls j)) (S (j_next j)) (j_due j ++ l).

Definition hand_over_all (l : list Waiting) (j : Joint) : Joint := foldl (fun j x => hand_over x j) j l.

(** The requests made while an event was processed. *)
Definition new_requests (e : Event) (s s' : Sys) : list Waiting :=
  waiting (drop (length (remaining e (w_ops (s_world s)))) (w_ops (s_world s'))).

(** The server processes an event, with the link in its present state. *)
Definition play (d : rs_state) (e : Event) (s : Sys) : option Sys := run_events [EvLinks (view d); e] s.

Inductive joint_step : Joint -> Joint -> Prop :=
| joint_game e j s' :
    is_internal e = true -> play (j_link j) e (j_sys j) = Some s' ->
    joint_step j (hand_over_all (new_requests e (j_sys j) s')
                    (mkJoint s' (j_link j) (j_calls j) (j_next j) (j_due j)))
| joint_link e l d j :
    (0 < s_threads (j_sys j))%nat -> rs_step (j_link j) e l d ->
    joint_step j (mkJoint (j_sys j) d (j_calls j) (j_next j) (j_due j ++ l))
| joint_callback a rest x j s' :
    j_due j = a :: rest -> j_calls j !! a_call a = Some x ->
    play (j_link j) (callback_event x a) (j_sys j) = Some s' ->
    joint_step j (hand_over_all (new_requests (callback_event x a) (j_sys j) s')
                    (mkJoint s' (j_link j) (delete (a_call a) (j_calls j)) (j_next j) rest))
| joint_signal l d j :
    (** the signal handler of [main]: [db->stop(); io.stop();] *)
    (0 < s_threads (j_sys j))%nat -> rs_step (j_link j) rs_stop l d ->
    joint_step j (mkJoint (mkSys (s_world (j_sys j)) 0) d (j_calls j) (j_next j) (j_due j ++ l)).

Definition joint_path : Joint -> Joint -> Prop := rtc joint_step.

Section start.
Context (c : gmap string Z) (hardware now : Z).

Definition joint_start (d : rs_state) : Joint := mkJoint (initial c hardware now) d ∅ 0 [].

Definition joint_reachable (j : Joint) : Prop :=
  exists d, rs_start d /\ joint_path (joint_start d) j.
End start.

(** ** The invariant *)

Record JointInv (j : Joint) : Prop := {
  ji_link : rs_wf (j_link j);
  ji_fresh : forall k, k ∈ dom (j_calls j) -> (k < j_next j)%nat;
  ji_waiting : waiting (w_ops (s_world (j_sys j))) ≡ₚ (map_to_list (j_calls j)).*2;
  ji_open : rs_open (j_link j) ⊆ dom (j_calls j);
  ji_due : NoDup (a_call <$> j_due j);
  ji_once : forall k, k ∈ a_call <$> j_due j -> k ∈ dom (j_calls j) /\ k ∉ rs_open (j_link j)
}.

(** The calls made by the link while its open requests go from [before] to
    those of [d]. *)
Lemma inv_answers s calls next due before l d :
  rs_wf d -> (forall k, k ∈ dom calls -> (k < next)%nat) ->
  waiting (w_ops (s_world s)) ≡ₚ (map_to_list calls).*2 ->
  before ⊆ dom calls -> NoDup (a_call <$> due) ->
  (forall k, k ∈ a_call <$> due -> k ∈ dom calls /\ k ∉ before) ->
  accounts before l (rs_open d) ->
  JointInv (mkJoint s d calls next (due ++ l)).
Proof.
  intros Hd Hf Hw Hb Hn Ho (H1 & H2 & H3). split; cbn; [done | done | done | set_solver | |].
  - rewrite fmap_app. apply NoDup_app. split; [done |]. split; [| done].
    intros k Hk Hk2. destruct (Ho k Hk) as [_ Hx]. by apply Hx, (H3 k Hk2).
  - rewrite fmap_app. intros k [Hk | Hk]%elem_of_app.
    + destruct (Ho k Hk) as [? Hx]. split; [done |]. set_solver.
    + destruct (H3 k Hk) as [? ?]. split; [set_solver | done].
Qed.

(** ** Handing requests over *)

(** The invariant with requests [l] made and not handed over yet. *)
Definition with_pending (l : list Waiting) (j : Joint) : Prop :=
  rs_wf (j_link j) /\ (forall k, k ∈ dom (j_calls j) -> (k < j_next j)%nat) /\
  waiting (w_ops (s_world (j_sys j))) ≡ₚ (map_to_list (j_calls j)).*2 ++ l /\
  rs_open (j_link j) ⊆ dom (j_calls j) /\ NoDup (a_call <$> j_due j) /\
  (forall k, k ∈ a_call <$> j_due j -> k ∈ dom (j_calls j) /\ k ∉ rs_open (j_link j)).

Lemma with_pending_nil j : with_pending [] j <-> JointInv j.
Proof.
  unfold with_pending. rewrite app_nil_r. split; [intros (? & ? & ? & ? & ? & ?); by split |].
  by intros [].
Qed.

Lemma hand_over_ok x l j : with_pending (x :: l) j -> with_pending l (hand_over x j).
Proof.
  intros (Hd & Hf & Hw & Ho & Hn & Hc). unfold hand_over.
  assert (Hk : j_next j ∉ dom (j_calls j)) by (intros Hk; specialize (Hf _ Hk); lia).
  pose proof (rs_request_ok (j_next j) (wt_nickname x) (wt_id x) (j_link j) Hd) as Hr.
  destruct (rs_request _ _ _ _) as [as' d]. destruct Hr as [Hd' (H1 & H2 & H3)]; [set_solver |].
  assert (Hdom : dom (<[j_next j:=x]> (j_calls j)) = {[j_next j]} ∪ dom (j_calls j)) by apply dom_insert_L.
  split; cbn; [done |]. rewrite Hdom. split.
  { intros k [->%elem_of_singleton | Hin]%elem_of_union; [lia |]. specialize (Hf _ Hin). lia. }
  split.
  { rewrite Hw, map_to_list_insert by by apply not_elem_of_dom. cbn. by rewrite <- Permutation_middle. }
  split; [set_solver |]. rewrite fmap_app. split.
  { apply NoDup_app. split; [done |]. split; [| done]. intros k Hin Hin2.
    destruct (Hc k Hin) as [Hdk Hx]. destruct (H3 k Hin2) as [[->%elem_of_singleton | ?]%elem_of_union _]; done. }
  intros k [Hin | Hin]%elem_of_app.
  - destruct (Hc k Hin) as [? Hx]. split; [set_solver |]. intros Hin2. specialize (H1 k Hin2).
    apply elem_of_union in H1 as [->%elem_of_singleton | ?]; done.
  - destruct (H3 k Hin) as [? ?]. split; [set_solver | done].
Qed.

Lemma hand_over_all_ok l j : with_pending l j -> JointInv (hand_over_all l j).
Proof.
  revert j. induction l as [| x l IH]; intros j Hj; cbn; [by apply with_pending_nil |].
  by apply IH, hand_over_ok.
Qed.

(** Handing over touches neither the server nor the other logins. *)
Lemma hand_over_all_keeps l j :
  j_sys (hand_over_all l j) = j_sys j /\
  forall k x, with_pending l j -> j_calls j !! k = Some x ->
    j_calls (hand_over_all l j) !! k = Some x /\
    (k ∉ rs_open (j_link j) -> k ∉ rs_open (j_link (hand_over_all l j))) /\
    (k ∉ rs_open (j_link j) -> k ∉ a_call <$> j_due j -> k ∉ a_call <$> j_due (hand_over_all l j)).
Proof.
  revert j. induction l as [| y l IH]; intros j; [done |].
  change (hand_over_all (y :: l) j) with (hand_over_all l (hand_over y j)).
  destruct (IH (hand_over y j)) as [IH1 IH2]. split.
  { rewrite IH1. unfold hand_over. by destruct (rs_request _ _ _ _). }
  intros k x Hj Hk. pose proof (hand_over_ok y l j Hj) as Hj'.
  destruct Hj as (Hd & Hf & _ & Ho & _).
  assert (Hlt : (k < j_next j)%nat) by (apply Hf, elem_of_dom; eauto).
  assert (Hk' : j_calls (hand_over y j) !! k = Some x).
  { unfold hand_over. destruct (rs_request _ _ _ _) as [l' d]. cbn. rewrite lookup_insert_ne by lia. done. }
  assert (Hnext : j_next j ∉ rs_open (j_link j)).
  { intros Hin. specialize (Ho _ Hin). specialize (Hf _ Ho). lia. }
  pose proof (rs_request_ok (j_next j) (wt_nickname y) (wt_id y) (j_link j) Hd Hnext) as Hr.
  destruct (IH2 k x Hj' Hk') as (H1 & H2 & H3). split; [done |].
  assert (Hacc : k ∉ rs_open (j_link j) -> (k ∉ rs_open (j_link (hand_over y j))) /\
            (k ∉ a_call <$> j_due j -> k ∉ a_call <$> j_due (hand_over y j))).
  { intros Hno. unfold hand_over. destruct (rs_request _ _ _ _) as [l' d]. cbn.
    destruct Hr as [_ (A1 & _ & A3)]. split.
    - intros Hin. specialize (A1 k Hin). apply elem_of_union in A1 as [->%elem_of_singleton | ?]; [lia | done].
    - intros Hdue. rewrite fmap_app. intros [? | Hin]%elem_of_app; [done |].
      destruct (A3 k Hin) as [[->%elem_of_singleton | ?]%elem_of_union _]; [lia | done]. }
  split; [intros Hno; by apply H2, Hacc |]. intros Hno Hdue. apply H3; [by apply Hacc | by apply (Hacc Hno)].
Qed.

Lemma hand_over_all_absent l j k :
  j_calls j !! k = None -> (k < j_next j)%nat -> j_calls (hand_over_all l j) !! k = None.
Proof.
  revert j. induction l as [| y l IH]; intros j Hk Hlt; [done |].
  change (hand_over_all (y :: l) j) with (hand_over_all l (hand_over y j)).
  apply IH; unfold hand_over; destruct (rs_request _ _ _ _) as [l' d]; cbn; [| lia].
  by rewrite lookup_insert_ne by lia.
Qed.

(** ** Steps of the server *)

Lemma elem_of_waiting x ops : x ∈ waiting ops <-> waiting_op x ∈ ops.
Proof.
  unfold waiting. rewrite list_elem_of_omap. split.
  - intros (o & Ho & Hx). destruct o; try done. by injection Hx as <-.
  - intros Ho. exists (waiting_op x). split; [done |]. by destruct x.
Qed.

Lemma waiting_remove_other o ops : request_of_op o = None -> waiting (remove_op o ops) = waiting ops.
Proof.
  intros Ho. unfold waiting. induction ops as [| y ops IH]; [done |]. cbn.
  destruct (decide (y = o)) as [-> | Hne]; [by rewrite Ho |]. cbn. by rewrite IH.
Qed.

Lemma waiting_remove x ops :
  waiting_op x ∈ ops -> waiting ops ≡ₚ x :: waiting (remove_op (waiting_op x) ops).
Proof.
  intros Ho. unfold waiting. rewrite (remove_op_perm _ _ Ho) at 1. cbn. by destruct x.
Qed.

Lemma waiting_app l k : waiting (l ++ k) = waiting l ++ waiting k.
Proof. apply omap_app. Qed.

Lemma run_one_ops e s s' :
  run_one e s = Some s' -> remaining e (w_ops (s_world s)) `prefix_of` w_ops (s_world s').
Proof.
  destruct s as [w [| n]]; [done |]. unfold run_one. cbn [s_threads s_world].
  destruct (enabled e w); [| done]. unfold run_event, remaining.
  destruct (completes e) as [o |].
  - unfold finish_op. rewrite bind_modify.
    pose proof (grows_handler e (w <| w_ops ::= remove_op o |>)) as Hg. unfold grows in Hg.
    destruct (handler_of e _) as [[[] | x |] w']; intros [= <-]; exact Hg.
  - rewrite bind_ret. pose proof (grows_handler e w) as Hg. unfold grows in Hg.
    destruct (handler_of e w) as [[[] | x |] w']; intros [= <-]; exact Hg.
Qed.

(** What a step of the server does to the logins that wait. *)
Lemma play_ops d e s s' :
  play d e s = Some s' ->
  waiting (w_ops (s_world s')) =
    waiting (remaining e (w_ops (s_world s))) ++ new_requests e s s'.
Proof.
  unfold play. cbn [run_events]. destruct (run_one (EvLinks (view d)) s) as [s1 |] eqn:H1; [| done]. cbn.
  destruct (run_one e s1) as [s2 |] eqn:H2; [| done]. intros [= <-].
  assert (Hops : w_ops (s_world s1) = w_ops (s_world s)).
  { destruct s as [w [| n]]; [done |]. injection H1 as <-. done. }
  apply run_one_ops in H2 as [new Hnew]. rewrite Hops in Hnew. unfold new_requests.
  by rewrite Hnew, drop_app_length, waiting_app.
Qed.

Lemma play_reachable c hardware now d e s s' :
  reachable c hardware now s -> play d e s = Some s' -> reachable c hardware now s'.
Proof. intros Hs Hp. by eapply run_events_reachable. Qed.

Lemma internal_waiting e ops : is_internal e = true -> waiting (remaining e ops) = waiting ops.
Proof. intros He. destruct e; try done; by apply waiting_remove_other. Qed.

Lemma callback_completes x a : completes (callback_event x a) = Some (waiting_op x).
Proof. unfold callback_event. by destruct (a_ok a). Qed.

(** A step of the server leaves the requests it made to be handed over. *)
Lemma game_pending e j s' :
  JointInv j -> is_internal e = true -> play (j_link j) e (j_sys j) = Some s' ->
  with_pending (new_requests e (j_sys j) s') (mkJoint s' (j_link j) (j_calls j) (j_next j) (j_due j)).
Proof.
  intros [] He Hp. split; cbn; [done |]. split; [done |]. split; [| done].
  by rewrite (play_ops _ _ _ _ Hp), internal_waiting, ji_waiting0.
Qed.

Lemma calls_waiting j k x : JointInv j -> j_calls j !! k = Some x -> waiting_op x ∈ w_ops (s_world (j_sys j)).
Proof.
  intros [] Hk. apply elem_of_waiting. rewrite ji_waiting0. apply list_elem_of_fmap.
  exists (k, x). split; [done | by apply elem_of_map_to_list].
Qed.

Lemma callback_pending a rest x j s' :
  JointInv j -> j_due j = a :: rest -> j_calls j !! a_call a = Some x ->
  play (j_link j) (callback_event x a) (j_sys j) = Some s' ->
  with_pending (new_requests (callback_event x a) (j_sys j) s')
    (mkJoint s' (j_link j) (delete (a_call a) (j_calls j)) (j_next j) rest).
Proof.
  intros Hj Hdue Hk Hp. pose proof (calls_waiting j _ x Hj Hk) as Hin. destruct Hj.
  rewrite Hdue in ji_due0, ji_once0. cbn in ji_due0, ji_once0. apply NoDup_cons in ji_due0 as [Hnot Hrest].
  assert (Hmap : (map_to_list (j_calls j)).*2 ≡ₚ x :: (map_to_list (delete (a_call a) (j_calls j))).*2).
  { by rewrite <- (map_to_list_delete (j_calls j) (a_call a) x Hk). }
  destruct (ji_once0 (a_call a)) as [_ Hopen]; [by left |].
  split; cbn; [done |]. split; [intros k Hd; apply ji_fresh0; set_solver |]. split.
  { rewrite (play_ops _ _ _ _ Hp). apply Permutation_app_tail. unfold remaining. rewrite callback_completes.
    apply (Permutation_cons_inv (a := x)). by rewrite <- waiting_remove, ji_waiting0, Hmap. }
  split; [set_solver |]. split; [done |]. intros k Hd. destruct (ji_once0 k) as [? ?]; [by right |].
  split; [set_solver | done].
Qed.

Lemma joint_step_inv j j' : JointInv j -> joint_step j j' -> JointInv j'.
Proof.
  intros Hj Hs. destruct Hs as [e j s' He Hp | e l d j _ Hs | a rest x j s' Hdue Hk Hp | l d j _ Hs].
  - by apply hand_over_all_ok, game_pending.
  - destruct Hj. destruct (rs_step_ok _ _ _ _ ji_link0 Hs) as [Hd Ha]. by eapply inv_answers.
  - apply hand_over_all_ok. by eapply callback_pending.
  - destruct Hj. destruct (rs_step_ok _ _ _ _ ji_link0 Hs) as [Hd Ha]. by eapply inv_answers.
Qed.

Lemma joint_path_inv j j' : JointInv j -> joint_path j j' -> JointInv j'.
Proof. intros Hj Hp. induction Hp as [| j j1 j2 Hs _ IH]; [done |]. by eapply IH, joint_step_inv. Qed.

Lemma joint_step_reachable c hardware now j j' :
  reachable c hardware now (j_sys j) -> joint_step j j' -> reachable c hardware now (j_sys j').
Proof.
  intros Hr Hs. destruct Hs; rewrite ?(proj1 (hand_over_all_keeps _ _)); [by eapply play_reachable | done | |].
  - by eapply play_reachable.
  - eapply reach_step; [exact Hr |]. destruct (j_sys j) as [w [| n]]; [cbn in *; lia | apply step_stop].
Qed.

(** ** Logins without an answer *)

(** A login whose request is not open and whose callback has not been called. *)
Definition lost (j : Joint) (k : nat) : Prop :=
  k ∈ dom (j_calls j) /\ (k ∉ rs_open (j_link j)) /\ k ∉ (a_call <$> j_due j).

Lemma lost_hand_over l j k : with_pending l j -> lost j k -> lost (hand_over_all l j) k.
Proof.
  intros Hj (H1 & H2 & H3). apply elem_of_dom in H1 as [x Hx].
  destruct (hand_over_all_keeps l j) as [_ Hk]. destruct (Hk k x Hj Hx) as (A1 & A2 & A3).
  split; [by apply elem_of_dom; exists x |]. split; [by apply A2 | by apply A3].
Qed.

Lemma lost_link j k e l d s :
  JointInv j -> lost j k -> rs_step (j_link j) e l d ->
  lost (mkJoint s d (j_calls j) (j_next j) (j_due j ++ l)) k.
Proof.
  intros Hj (H1 & H2 & H3) Hs. destruct (rs_step_ok _ _ _ _ (ji_link j Hj) Hs) as [_ (A1 & _ & A3)].
  split; [done |]. split; cbn; [set_solver |]. rewrite fmap_app.
  intros [? | Hin]%elem_of_app; [done |]. by destruct (A3 k Hin).
Qed.

Lemma lost_step j j' k : JointInv j -> lost j k -> joint_step j j' -> lost j' k.
Proof.
  intros Hj (H1 & H2 & H3) Hs. destruct Hs as [e j s' He Hp | e l d j _ Hs | a rest x j s' Hdue Hk Hp | l d j _ Hs].
  - by apply lost_hand_over; [apply game_pending |].
  - by eapply lost_link.
  - apply lost_hand_over; [by eapply callback_pending |].
    rewrite Hdue in H3. cbn in H3. apply not_elem_of_cons in H3 as [Hne H3].
    split; cbn; [set_solver | done].
  - by eapply lost_link.
Qed.

Lemma lost_path j j' k : JointInv j -> lost j k -> joint_path j j' -> lost j' k.
Proof.
  intros Hj Hl Hp. induction Hp as [| j1 j2 j3 Hs _ IH]; [done |].
  apply IH; [by eapply joint_step_inv | by eapply lost_step].
Qed.

Lemma lost_waits j k x j' :
  JointInv j -> lost j k -> j_calls j !! k = Some x -> joint_path j j' ->
  waiting_op x ∈ w_ops (s_world (j_sys j')).
Proof.
  intros Hj Hl Hx Hp. apply (calls_waiting j' k); [by eapply joint_path_inv |].
  induction Hp as [| j1 j2 j3 Hs _ IH]; [done |]. apply IH; [by eapply joint_step_inv | by eapply lost_step |].
  clear IH j3. destruct Hl as (H1 & H2 & H3). destruct Hs as [e j s' He Hs | | a rest y j s' Hdue Hk Hs |].
  - by apply (hand_over_all_keeps _ _); [apply game_pending |].
  - done.
  - apply (hand_over_all_keeps _ _); [by eapply callback_pending |]. cbn.
    rewrite lookup_delete_ne; [done |]. intros Heq. apply H3. rewrite Hdue, <- Heq. by left.
  - done.
Qed.
End joint.
