(* ===== verification/JointSpec.v ===== *)
(** * What the composition guarantees, and the logins it loses *)
From Stdlib Require Import ZArith Lia Strings.Byte.
From stdpp Require Import base gmap sets list strings pretty.
From S2P Require Import Prelude Json Session World Invariant LoginFlow System Frames Requests Joint.
From S2P Require DbLink DbRouter DbSystem DbSpec DbCalls.

Open Scope Z_scope.

Section composition.
Context `{Platform} {link : RequestService} (c : gmap string Z) (hardware now : Z).
Context (Hc : 2 <= max_write_queue c) (Hh : 0 <= hardware < 2 ^ 30).

Lemma joint_start_inv d : rs_start d -> JointInv (joint_start c hardware now d).
Proof using Hh.
  intros Hd. destruct (rs_start_wf d Hd) as [Hwf Ho]. split; cbn.
  - done.
  - intros k Hk. by rewrite dom_empty in Hk.
  - rewrite map_to_list_empty. cbn.
    assert (Hnone : forall x, x ∉ waiting (w_ops (exec Server.boot (Server.initial_world c hardware now)))).
    { intros x Hx. apply elem_of_waiting in Hx.
      destruct (boot_ok c hardware now Hh) as (bufs & _ & Hw).
      pose proof (inv_ops _ _ _ _ _ _ _ Hw) as Hf. rewrite Forall_forall in Hf.
      by specialize (Hf _ Hx (wt_session x) eq_refl). }
    destruct (waiting _) as [| x l]; [done |]. exfalso. apply (Hnone x). by left.
  - by rewrite Ho.
  - apply NoDup_nil_2.
  - intros k Hk. by apply elem_of_nil in Hk.
Qed.

Lemma joint_reachable_inv j : joint_reachable c hardware now j -> JointInv j.
Proof using Hh. intros (d & Hd & Hp). eapply joint_path_inv; [by apply joint_start_inv | done]. Qed.

Lemma joint_reachable_sys j : joint_reachable c hardware now j -> reachable c hardware now (j_sys j).
Proof using Type.
  intros (d & _ & Hp). assert (Hr : reachable c hardware now (j_sys (joint_start c hardware now d))) by constructor.
  revert Hr. induction Hp as [| j1 j2 j3 Hs _ IH]; [done |]. intros Hr. eapply IH, joint_step_reachable; eauto.
Qed.

(** A possible event of a reachable state is played. *)
Lemma play_possible d e s :
  reachable c hardware now s -> (0 < s_threads s)%nat ->
  enabled e ((s_world s) <| w_links := view d |>) = true -> exists s', play d e s = Some s'.
Proof using Hc Hh.
  intros Hr Hn He. destruct s as [w [| n]]; [cbn in Hn; lia |].
  change (enabled e (w <| w_links := view d |>) = true) in He. set (w1 := w <| w_links := view d |>) in *.
  assert (H1 : run_one (EvLinks (view d)) (mkSys w (S n)) = Some (mkSys w1 (S n))) by reflexivity.
  assert (Hr1 : reachable c hardware now (mkSys w1 (S n))).
  { eapply reach_step; [exact Hr | by apply run_one_step]. }
  pose proof (event_ok c Hc e w1 (reachable_inv c Hc hardware now _ Hh Hr1) He) as Hf.
  unfold play. cbn [run_events]. rewrite H1. cbn [mbind option_bind].
  unfold run_one. cbn [s_threads s_world]. rewrite He.
  unfold fine in Hf. destruct (run_event e w1) as [[[] | x |] w2]; [by eexists.. | done].
Qed.

(** C12. The server and the link, composed: every behaviour of the pair is one of
    [System], with the answers the link really gives in place of arbitrary
    ones; the logins that wait are exactly the requests whose callback has not
    run; and every callback the router calls is the first one of its request,
    belongs to a login that waits, and can be run as long as an io thread is
    left. *)
Theorem composition_sound j :
  joint_reachable c hardware now j ->
  reachable c hardware now (j_sys j) /\
  waiting (w_ops (s_world (j_sys j))) ≡ₚ (map_to_list (j_calls j)).*2 /\
  NoDup (a_call <$> j_due j) /\
  (forall a rest, j_due j = a :: rest -> (0 < s_threads (j_sys j))%nat ->
     exists x j', j_calls j !! a_call a = Some x /\ joint_step j j' /\
       j_calls j' !! a_call a = None).
Proof using Hc Hh.
  intros Hj. pose proof (joint_reachable_inv j Hj) as Hi. pose proof (joint_reachable_sys j Hj) as Hr.
  split; [done |]. split; [apply Hi |]. split; [apply Hi |]. intros a rest Hdue Hn.
  destruct (ji_once j Hi (a_call a)) as [Hdom _]; [rewrite Hdue; by left |].
  apply elem_of_dom in Hdom as [x Hx].
  destruct (play_possible (j_link j) (callback_event x a) (j_sys j) Hr Hn) as [s' Hp].
  { unfold enabled. rewrite callback_completes. apply andb_true_iff. split.
    - apply bool_decide_eq_true. cbn. by apply (calls_waiting j (a_call a)).
    - unfold callback_event. by destruct (a_ok a). }
  exists x. eexists. split; [done |]. split; [by eapply joint_callback |].
  pose proof (callback_pending a rest x j s' Hi Hdue Hx Hp) as Hpend.
  assert (Hlt : (a_call a < j_next j)%nat) by (apply (ji_fresh j Hi), elem_of_dom; eauto).
  apply hand_over_all_absent; cbn; [apply lookup_delete_eq | done].
Qed.

End composition.

(** ** The link of [DBmwRouter] *)

Section router.
Context `{Platform} `{DbLink.Wire} (cfg : DbLink.Settings) (start tcp_port : Z).
Context (c : gmap string Z) (hardware now : Z).
Context (Hc : 2 <= max_write_queue c) (Hh : 0 <= hardware < 2 ^ 30).

#[local] Instance router_service : RequestService := DbCalls.db_service cfg start tcp_port.

Lemma answers_of_calls l : DbCalls.answers l = DbCalls.answers (DbSpec.calls l).
Proof.
  unfold DbCalls.answers, DbSpec.calls. induction l as [| o l IH]; [done |]. destruct o; cbn; by rewrite <- IH.
Qed.

(** Giving up a request, as a step of the link. *)
Lemma timeout_step d id p :
  DbLink.pending_ (DbLink.d_router d) !! id = Some p ->
  DbSystem.expired (DbLink.timer p) d = true -> DbLink.max_retries p <= DbLink.retries p ->
  exists d', rs_step (d : rs_state) (DbSystem.DbTimeout id) [] d' /\
    DbLink.pending_ (DbLink.d_router d') = delete id (DbLink.pending_ (DbLink.d_router d)).
Proof.
  intros Hp He Hr. destruct (DbSpec.timeout_drops cfg d id p Hp Hr) as (d' & Hrun & Hm & Hk).
  exists d'. split; [| done]. split; [done |].
  assert (Hdb : DbSystem.db_run cfg (DbSystem.DbTimeout id) d = (Ret tt, d')) by exact Hrun.
  split.
  - split; [| by rewrite Hdb]. unfold DbSystem.db_enabled. cbn. by rewrite Hp.
  - symmetry. apply DbCalls.made_app. rewrite app_nil_r, answers_of_calls, Hk, DbCalls.answers_app, app_nil_r.
    symmetry. apply answers_of_calls.
Qed.

(** C24. A login whose request times out is never answered: when the timer of
    the request expires with no repetition left, the router forgets the request
    without calling [on_error], and in every later state, whatever happens, the
    router can call neither callback of it any more, none of the calls it has
    made is of this request, and the login still waits.  So neither the success
    nor the "timeout" message of the login is sent; what the client gets is the
    notice of the login timer, which closes its session
    ([JointScenarios.login_timer_closes]). *)
Theorem timed_out_login_gets_no_callback (j : Joint) id p k :
  joint_reachable c hardware now j -> (0 < s_threads (j_sys j))%nat ->
  DbLink.pending_ (DbLink.d_router (j_link j)) !! id = Some p -> k ∈ DbCalls.opens p ->
  DbSystem.expired (DbLink.timer p) (j_link j) = true -> DbLink.max_retries p <= DbLink.retries p ->
  exists x j1, j_calls j !! k = Some x /\ joint_step j j1 /\
    j_sys j1 = j_sys j /\ j_due j1 = j_due j /\
    forall j2, joint_path j1 j2 ->
      (k ∉ DbCalls.open_calls (DbLink.pending_ (DbLink.d_router (j_link j2)))) /\
      (forall a, a ∈ j_due j2 -> a_call a <> k) /\
      waiting_op x ∈ w_ops (s_world (j_sys j2)).
Proof using Hc Hh.
  intros Hj Hn Hp Hk He Hr. pose proof (joint_reachable_inv c hardware now Hh j Hj) as Hi.
  assert (Hopen : k ∈ rs_open (j_link j)) by (apply DbCalls.elem_of_open_calls; by exists id, p).
  destruct (proj1 (elem_of_dom _ _) (ji_open j Hi k Hopen)) as [x Hx].
  destruct (timeout_step _ id p Hp He Hr) as (d' & Hstep & Hm).
  exists x, (mkJoint (j_sys j) d' (j_calls j) (j_next j) (j_due j)). split; [done |].
  assert (Hs : joint_step j (mkJoint (j_sys j) d' (j_calls j) (j_next j) (j_due j))).
  { rewrite <- (app_nil_r (j_due j)). by eapply joint_link. }
  split; [done |]. split; [done |]. split; [done |]. intros j2 Hp2.
  set (j1 := mkJoint _ d' _ _ _) in *. assert (Hi1 : JointInv j1) by by eapply joint_step_inv.
  assert (Hl : lost j1 k).
  { split; [by apply elem_of_dom; exists x |]. split; cbn.
    - change (k ∉ DbCalls.open_calls (DbLink.pending_ (DbLink.d_router d'))). rewrite Hm.
      apply (DbCalls.open_delete _ id p); [exact (ji_link j Hi) | done | done].
    - intros Hdue. by destruct (ji_once j Hi k Hdue). }
  destruct (lost_path j1 j2 k Hi1 Hl Hp2) as (_ & Hno & Hdue). split; [exact Hno |]. split.
  - intros a Ha <-. apply Hdue. apply list_elem_of_fmap. by exists a.
  - by apply (lost_waits j1 k x j2).
Qed.
End router.
