(* ===== verification/JointScenarios.v ===== *)
(** * Runs of the server with its database link *)
From Stdlib Require Import ZArith Lia Strings.Byte.
From stdpp Require Import base gmap sets list strings pretty.
From S2P Require Import Prelude MessageBuffer RateLimit Json Session World Invariant Reading System Scenarios Requests Joint.
From S2P Require Lifecycle DbLink DbRouter DbSystem DbSpec DbCalls.
From S2P Require Import JointSpec.

Open Scope Z_scope.

(** The answer of the database to the request of the first login. *)
Definition demo_found : json :=
  obj [("type", JStr "db_query_result"); ("req_id", JStr "0_1"); ("code", JInt 0)]%string.

#[local] Instance joint_wire : DbLink.Wire := {| DbLink.ParseFromArray := fun _ => None |}.
#[local] Instance joint_service : RequestService := DbCalls.db_service DbSpec.demo_settings 0 12345.

(** A step of the composition. *)
Inductive JointEvent :=
| Game (e : Event)
| Link (e : DbSystem.DbEvent)
| Callback.

Definition link_event (e : DbSystem.DbEvent) (j : Joint) : option Joint :=
  let d : DbLink.Db := j_link j in
  if (0 <? s_threads (j_sys j))%nat && negb (DbCalls.is_request e) && DbSystem.db_enabled e d &&
     negb (DbSpec.is_ub (fst (DbSystem.db_run DbSpec.demo_settings e d)))
  then let d' := snd (DbSystem.db_run DbSpec.demo_settings e d) in
       Some (mkJoint (j_sys j) (d' : rs_state) (j_calls j) (j_next j) (j_due j ++ DbCalls.made d d'))
  else None.

Definition joint_run1 (e : JointEvent) (j : Joint) : option Joint :=
  match e with
  | Game e =>
      if is_internal e then
        s' ← play (j_link j) e (j_sys j);
        Some (hand_over_all (new_requests e (j_sys j) s')
                (mkJoint s' (j_link j) (j_calls j) (j_next j) (j_due j)))
      else None
  | Link e => link_event e j
  | Callback =>
      match j_due j with
      | [] => None
      | a :: rest =>
          x ← j_calls j !! a_call a;
          s' ← play (j_link j) (callback_event x a) (j_sys j);
          Some (hand_over_all (new_requests (callback_event x a) (j_sys j) s')
                  (mkJoint s' (j_link j) (delete (a_call a) (j_calls j)) (j_next j) rest))
      end
  end.

Fixpoint joint_run (es : list JointEvent) (j : Joint) : option Joint :=
  match es with
  | [] => Some j
  | e :: es' => j' ← joint_run1 e j; joint_run es' j'
  end.

Lemma joint_run1_step e j j' : joint_run1 e j = Some j' -> joint_step j j'.
Proof.
  destruct e as [e | e |]; cbn [joint_run1].
  - destruct (is_internal e) eqn:He; [| done]. destruct (play (j_link j) e (j_sys j)) as [s' |] eqn:Hp; [| done]. cbn.
    intros [= <-]. by apply joint_game.
  - unfold link_event. destruct (_ && _) eqn:He; [| done]. intros [= <-].
    apply andb_true_iff in He as [He Hub]. apply andb_true_iff in He as [He Hen].
    apply andb_true_iff in He as [Hn Hreq]. apply negb_true_iff in Hub, Hreq.
    apply (joint_link (link := joint_service) e); [by apply Nat.ltb_lt | split; [done |]; split; [| done]].
    split; [done |]. split; [done |]. intros Hx. by rewrite Hx in Hub.
  - destruct (j_due j) as [| a rest] eqn:Hdue; [done |].
    destruct (j_calls j !! a_call a) as [x |] eqn:Hx; [| done]. cbn [mbind option_bind].
    destruct (play (j_link j) (callback_event x a) (j_sys j)) as [s' |] eqn:Hp; [| done]. cbn.
    intros [= <-]. by eapply joint_callback.
Qed.

Lemma joint_run_path es j j' : joint_run es j = Some j' -> joint_path j j'.
Proof.
  revert j. induction es as [| e es IH]; intros j; cbn; [intros [= <-]; constructor |].
  destruct (joint_run1 e j) as [j1 |] eqn:He; [| done]. cbn. intros Hr.
  econstructor; [by eapply joint_run1_step | by apply IH].
Qed.

Definition joint_demo_start : Joint :=
  joint_start demo_config 4 1
    (exec (DbRouter.connect_db DbSpec.demo_settings) (DbRouter.initial_db 0 12345) : rs_state).

Definition joint_after (es : list JointEvent) : Joint := default joint_demo_start (joint_run es joint_demo_start).

Definition runs (es : list JointEvent) : bool :=
  match joint_run es joint_demo_start with Some _ => true | None => false end.

Lemma joint_after_reachable es : runs es = true -> joint_reachable demo_config 4 1 (joint_after es).
Proof.
  unfold runs, joint_after. intros Hr. destruct (joint_run es joint_demo_start) as [j |] eqn:Hj; [| done].
  exists (exec (DbRouter.connect_db DbSpec.demo_settings) (DbRouter.initial_db 0 12345)).
  split; [done | by eapply joint_run_path].
Qed.

(** The link connects; a client connects and logs in as "kim", and its login
    waits for the database. *)
Definition link_up : list JointEvent :=
  [Link (DbSystem.DbResolved true); Link (DbSystem.DbConnected true)].
Definition kim_waits : list JointEvent :=
  link_up ++ [Game (EvAccept (Some 7)); Game (EvRead 0 (framed demo_login))].

Definition database_answers : JointEvent :=
  Link (DbSystem.DbReadDone 1 (Some (DbSpec.from_middleware demo_found))).

Example kim_waiting :
  runs kim_waits = true /\ waiting (w_ops (s_world (j_sys (joint_after kim_waits)))) = [mkWaiting 0 "kim" 0] /\
  j_due (joint_after (kim_waits ++ [database_answers])) = [mkAnswer 0 true demo_found] /\
  runs (kim_waits ++ [database_answers; Callback]) = true.
Proof. vm_compute. done. Qed.

(** Kim disconnects while the database has not answered; two more clients
    connect, and the second gets the session object kim had. *)
Definition kim_leaves : list JointEvent :=
  kim_waits ++ [Game (EvRead 0 REof); Game (EvAccept (Some 8)); Game (EvAccept (Some 9))].

Definition holder (p : sptr) (j : Joint) : option (option Z * string * SessionState) :=
  (fun t => (socket_ t, nickname_ t, state_ t)) <$> w_heap (s_world (j_sys j)) !! p.

(** An answer of the database is applied to the session object the login
    came from, whoever uses it by then: a client that disconnects before the
    answer leaves it to the next one, who is logged in under a nickname it
    never sent. *)
Theorem late_answer_logs_in_stranger :
  let j := joint_after kim_leaves in
  let j' := joint_after (kim_leaves ++ [database_answers; Callback]) in
  joint_reachable demo_config 4 1 j /\
  holder 0 j = Some (Some 9, EmptyString, Handshaking) /\
  joint_reachable demo_config 4 1 j' /\
  holder 0 j' = Some (Some 9, "kim"%string, Ready).
Proof.
  split; [apply joint_after_reachable; vm_compute; reflexivity |].
  split; [vm_compute; reflexivity |].
  split; [apply joint_after_reachable; vm_compute; reflexivity | vm_compute; reflexivity].
Qed.

(** ** Instances of the theorems of [JointSpec] *)

Lemma composition_sound_witness :
  let j := joint_after (kim_waits ++ [database_answers]) in
  (a_call <$> j_due j) = [0%nat] /\
  exists x j', j_calls j !! 0%nat = Some x /\ joint_step j j' /\ j_calls j' !! 0%nat = None.
Proof.
  cbv zeta. split; [vm_compute; reflexivity |].
  destruct (composition_sound demo_config 4 1 demo_queue demo_cores (joint_after (kim_waits ++ [database_answers])))
    as (_ & _ & _ & Hcb).
  { apply joint_after_reachable. vm_compute. reflexivity. }
  apply (Hcb (mkAnswer 0 true demo_found) []); [vm_compute; reflexivity |].
  apply Nat.ltb_lt. vm_compute. reflexivity.
Defined.

(** Kim's request is repeated twice and times out a third time. *)
Definition three_timeouts : list JointEvent :=
  let wait := Link (DbSystem.DbTick 2500000000) in
  let timeout := Link (DbSystem.DbTimeout "0_1") in
  kim_waits ++ [wait; timeout; wait; timeout; wait].

Definition kim_pending (j : Joint) : DbLink.Pending :=
  default (DbSpec.demo_pending 0) (DbLink.pending_ (DbLink.d_router (j_link j)) !! "0_1"%string).

Lemma timed_out_login_gets_no_callback_witness :
  exists x j1, j_calls (joint_after three_timeouts) !! 0%nat = Some x /\
    joint_step (joint_after three_timeouts) j1 /\
    forall j2, joint_path j1 j2 ->
      (forall a, a ∈ j_due j2 -> a_call a <> 0%nat) /\ waiting_op x ∈ w_ops (s_world (j_sys j2)).
Proof.
  destruct (timed_out_login_gets_no_callback DbSpec.demo_settings 0 12345 demo_config 4 1 demo_queue demo_cores
              (joint_after three_timeouts) "0_1" (kim_pending (joint_after three_timeouts)) 0)
    as (x & j1 & H1 & H2 & _ & _ & H3).
  - apply joint_after_reachable. vm_compute. reflexivity.
  - apply Nat.ltb_lt. vm_compute. reflexivity.
  - vm_compute. reflexivity.
  - apply (bool_decide_unpack _). vm_compute. reflexivity.
  - vm_compute. reflexivity.
  - apply Z.leb_le. vm_compute. reflexivity.
  - exists x, j1. split; [exact H1 |]. split; [exact H2 |]. intros j2 Hp.
    destruct (H3 j2 Hp) as (_ & Hd & Hw). split; [exact Hd | exact Hw].
Defined.

(** Kim's request times out for good, and 90 seconds after the accept the login
    timer tells and disconnects the client; the login goes on waiting. *)
Definition kim_disconnected : list JointEvent :=
  three_timeouts ++ [Link (DbSystem.DbTimeout "0_1"); Game (EvTick 90000000000); Game (EvLoginTimer 0)].

Theorem login_timer_closes :
  let j := joint_after kim_disconnected in
  joint_reachable demo_config 4 1 j /\
  w_out (s_world (j_sys j)) =
    w_out (s_world (j_sys (joint_after three_timeouts))) ++
      [OTcp 7 (frame (String.list_byte_of_string Lifecycle.login_timeout_notice))] /\
  holder 0 j = Some (None, EmptyString, Closed) /\
  waiting (w_ops (s_world (j_sys j))) = [mkWaiting 0 "kim" 0].
Proof.
  cbv zeta. split; [apply joint_after_reachable; vm_compute; reflexivity |].
  split; [vm_compute; reflexivity |]. split; vm_compute; reflexivity.
Qed.
