(* ===== verification/DeliverySpec.v ===== *)
(** * What waits to be written is being written

    [Awake]: a session that has its socket and is in use never holds messages
    with no write under way.  The relation [stays] says that a computation keeps
    this; most operations do one by one, and the few that push to an empty
    queue, complete a write or shut a session do as a whole.  With one write in
    flight at a time ([System.one_write_in_flight]), the completions of these
    writes empty the queue and put its messages on the wire in order. *)
From Stdlib Require Import ZArith Lia Strings.Byte.
From stdpp Require Import base gmap sets list strings.
From S2P Require Import Prelude MessageBuffer RateLimit Json Session World.
From S2P Require Import SessionPool Zones Invariant.
From S2P Require SessionStore.
From S2P Require Import Lifecycle SessionManager DataHandler LoginFlow Dispatcher Reading.
From S2P Require Import UdpReceive Server System Exec.

Open Scope Z_scope.

(** ** Sessions *)

Definition in_service (s : Session) : Prop :=
  socket_ s <> None /\ (life_state_ s = LIdle \/ life_state_ s = LActive).

Definition has_work (s : Session) : Prop := in_service s /\ write_queue_ s <> [].

(** A session in state [Closed] has given up its socket. *)
Definition shut (s : Session) : Prop := state_ s = Closed -> socket_ s = None.

(** An operation that brings no session to work, and none back from [Closed]
    with its socket. *)
Definition calm (s s' : Session) : Prop :=
  (shut s -> shut s') /\ (has_work s' -> has_work s /\ generation_ s' = generation_ s).

Lemma calm_same s s' :
  state_ s' = state_ s -> socket_ s' = socket_ s -> life_state_ s' = life_state_ s ->
  write_queue_ s' = write_queue_ s -> generation_ s' = generation_ s -> calm s s'.
Proof. intros H1 H2 H3 H4 H5. unfold calm, shut, has_work, in_service. by rewrite H1, H2, H3, H4, H5. Qed.

(** The state moves to one that is not [Closed]. *)
Lemma calm_open s s' :
  state_ s' <> Closed -> socket_ s' = socket_ s -> life_state_ s' = life_state_ s ->
  write_queue_ s' = write_queue_ s -> generation_ s' = generation_ s -> calm s s'.
Proof.
  intros H1 H2 H3 H4 H5. unfold calm, shut, has_work, in_service. by rewrite H2, H3, H4, H5.
Qed.

Lemma calm_empty s s' : (shut s -> shut s') -> write_queue_ s' = [] -> calm s s'.
Proof. intros H1 H2. split; [done | by intros [_ ?]]. Qed.

Lemma calm_out s s' : (shut s -> shut s') -> ~ in_service s' -> calm s s'.
Proof. intros H1 H2. split; [done | by intros [? _]]. Qed.

Lemma calm_tail s s' :
  state_ s' = state_ s -> socket_ s' = socket_ s -> life_state_ s' = life_state_ s ->
  write_queue_ s' = tail (write_queue_ s) -> generation_ s' = generation_ s -> calm s s'.
Proof.
  intros H1 H2 H3 H4 H5. unfold calm, shut, has_work, in_service. rewrite H1, H2, H3, H4, H5.
  split; [done |]. intros [? Hq]. split; [| done]. split; [done |]. by destruct (write_queue_ s).
Qed.

#[export] Instance calm_preorder : PreOrder calm.
Proof.
  split; [by intros s; apply calm_same |].
  intros s s1 s2 [H1 W1] [H2 W2]. split; [auto |].
  intros Hw. destruct (W2 Hw) as [Hw1 G2]. destruct (W1 Hw1) as [? G1]. split; [done | by rewrite G2].
Qed.

Lemma calm_cas e d s : e = LIdle \/ e = LActive -> calm s (snd (cas_life e d s)).
Proof.
  intros He. unfold cas_life. destruct (decide _) as [Hl |]; [| by apply calm_same].
  split; [done |]. intros [[Hs _] Hq]. split; [| done]. split; [| done]. split; [done |].
  destruct He as [-> | ->]; auto.
Qed.
Lemma calm_set_active v s : calm s (set_active v s).
Proof. destruct v; apply calm_cas; auto. Qed.

Lemma calm_try_close s : calm s (snd (try_close s)).
Proof.
  unfold try_close. destruct (cas_life LActive LClosing s) as [[] s1] eqn:E;
    [| etrans; [| apply calm_cas; by left]];
    replace s1 with (snd (cas_life LActive LClosing s)) by (by rewrite E); apply calm_cas; by right.
Qed.

(** After [try_close] the session is not in service, whether it succeeds or
    not. *)
Lemma try_close_stops s : ~ in_service (snd (try_close s)).
Proof.
  unfold try_close, cas_life, in_service. intros [_ Hl]. revert Hl.
  destruct (decide (life_state_ s = LActive)); cbn; [by intros [] |].
  destruct (decide (life_state_ s = LIdle)); cbn; [by intros [] |]. by intros [].
Qed.

Lemma calm_check_udp_rate t s : calm s (snd (check_udp_rate t s)).
Proof. unfold check_udp_rate. destruct (checkUdpRateLimit _ _). by apply calm_same. Qed.

Lemma calm_overflow max limit s : calm s (snd (enqueue_overflow max limit s)).
Proof. unfold enqueue_overflow. destruct (_ <=? _); [by apply calm_tail | by apply calm_same]. Qed.

Lemma calm_next_write s : calm s (snd (next_write s)).
Proof.
  unfold next_write. case_decide; [done |]. destruct (write_queue_ s) eqn:E; [| done].
  by apply calm_same.
Qed.

Lemma calm_pop_write s : calm s (snd (pop_write s)).
Proof. by apply calm_tail. Qed.

Lemma calm_take_message s : calm s (snd (take_message s)).
Proof. unfold take_message. destruct (extract_message _). by apply calm_same. Qed.

Lemma calm_pop_task s : calm s (snd (pop_task s)).
Proof. unfold pop_task. destruct (task_queue_ s); by apply calm_same. Qed.

Lemma calm_reset t socket id s : calm s (reset t socket id s).
Proof. by apply calm_empty. Qed.

Lemma calm_cleanup s : calm s (cleanup s).
Proof. by apply calm_empty. Qed.

Create HintDb calm discriminated.
#[export] Hint Resolve calm_set_active calm_try_close calm_check_udp_rate calm_overflow
  calm_next_write calm_pop_write calm_take_message calm_pop_task calm_reset calm_cleanup : calm.
#[export] Hint Extern 2 (calm _ _) =>
  first [by apply calm_same | by apply calm_open
        | apply calm_out; [done | by intros [? []]]
        | apply calm_out; [by intros ? ? | by intros [? _]]] : calm.

(** ** The world *)

Definition awake (ops : list Op) (p : sptr) (s : Session) : Prop :=
  shut s /\ (has_work s -> (0 < writes_of p (generation_ s) ops)%nat).

Definition Awake (w : World) : Prop := map_Forall (awake (w_ops w)) (w_heap w).

(** The same, but for the session [p], whose write has just completed. *)
Definition AwakeBut (p : sptr) (w : World) : Prop :=
  forall q s, w_heap w !! q = Some s -> if decide (q = p) then shut s else awake (w_ops w) q s.

Definition stays (w w' : World) : Prop := Awake w -> Awake w'.

#[export] Instance stays_preorder : PreOrder stays.
Proof. split; unfold stays; [by intros ? | intros w w1 w2; auto]. Qed.

Lemma stays_same w w' : w_heap w' = w_heap w -> w_ops w' = w_ops w -> stays w w'.
Proof. unfold stays, Awake. by intros -> ->. Qed.

Lemma stays_modify f :
  (forall w, w_heap (f w) = w_heap w) -> (forall w, w_ops (f w) = w_ops w) -> steps stays (modify f).
Proof. intros Hh Ho. apply steps_modify. intros w. by apply stays_same. Qed.

Lemma awake_calm ops p s s' : calm s s' -> awake ops p s -> awake ops p s'.
Proof. intros [H1 H2] [Hs Hw]. split; [auto |]. intros Hw'. destruct (H2 Hw') as [H ->]. auto. Qed.

Lemma awake_more ops k p s : awake ops p s -> awake (ops ++ k) p s.
Proof. intros [Hs Hw]. split; [done |]. intros H. rewrite writes_of_app. specialize (Hw H). lia. Qed.

Lemma stays_with_session {A} p (f : Session -> A * Session) :
  (forall s, calm s (snd (f s))) -> steps stays (with_session p f).
Proof.
  intros Hf w Hw. unfold with_session. destruct (w_heap w !! p) as [t |] eqn:Ht; [| done].
  specialize (Hf t). destruct (f t) as [a t']. unfold Awake in *. cbn [snd w_heap w_ops set_field] in *. cbn.
  apply map_Forall_insert_2; [| done]. eapply awake_calm; [exact Hf | by eapply map_Forall_lookup_1].
Qed.

Lemma stays_upd p f : (forall s, calm s (f s)) -> steps stays (upd p f).
Proof. intros Hf. by apply stays_with_session. Qed.

Lemma stays_get {A} p (f : Session -> A) : steps stays (get p f).
Proof. intros w. unfold get. destruct (w_heap w !! p); by apply stays_same. Qed.

Lemma stays_alloc : steps stays alloc.
Proof. intros w Hw. apply map_Forall_insert_2; [| done]. split; [done | by intros [_ ?]]. Qed.

Lemma stays_start_op o : steps stays (start_op o).
Proof. intros w Hw p s Hs. apply awake_more. by apply Hw. Qed.

Lemma stays_with_bucket {A} id (f : gmap Z sptr -> A * gmap Z sptr) : steps stays (SessionStore.with_bucket id f).
Proof.
  intros w. unfold SessionStore.with_bucket. destruct (_ !! _) as [b |]; [| by apply stays_same].
  destruct (f b). by apply stays_same.
Qed.

Lemma stays_with_lock {A} (m : P A) : steps stays m -> steps stays (with_nickname_lock m).
Proof.
  intros Hm w. unfold with_nickname_lock. destruct (nickname_locked _); [by apply stays_same |].
  specialize (Hm (w <| w_sm ::= fun sm => sm <| nickname_locked := true |> |>)).
  destruct (m _) as [r w']. exact Hm.
Qed.

Lemma stays_in_strand p (m : P unit) : steps stays m -> steps stays (in_strand p m).
Proof.
  intros Hm w. unfold in_strand. specialize (Hm (w <| w_strand := Some p |>)).
  destruct (m _) as [r w']. exact Hm.
Qed.

#[export] Hint Resolve stays_get stays_alloc stays_start_op stays_with_bucket : steps.
#[export] Hint Extern 1 (steps stays (modify _)) => apply stays_modify; reflexivity : steps.
#[export] Hint Extern 1 (steps stays (gets _)) => apply steps_gets; exact _ : steps.
#[export] Hint Extern 1 (steps stays (upd _ _)) =>
  apply stays_upd; intros; solve [auto with calm] : steps.
#[export] Hint Extern 1 (steps stays (with_session _ _)) =>
  apply stays_with_session; intros; solve [auto with calm] : steps.
#[export] Hint Extern 2 (steps stays (with_nickname_lock _)) => apply stays_with_lock; walk : steps.
#[export] Hint Extern 2 (steps stays (in_strand _ _)) => apply stays_in_strand; walk : steps.

(** ** Closing

    From the world that is awake but for [p], too: it leaves the session out of
    service. *)
Lemma awake_but w p : Awake w -> AwakeBut p w.
Proof. intros Hw q s Hs. destruct (decide _); apply (Hw _ _ Hs). Qed.

Lemma awake_put p s w : AwakeBut p w -> shut s -> (has_work s -> (0 < writes_of p (generation_ s) (w_ops w))%nat) ->
  Awake (put p s w).
Proof.
  intros Hw Hs Hk q t. unfold put. cbn. intros [[-> <-] | [Hne Ht]]%lookup_insert_Some; [by split |].
  specialize (Hw q t Ht). by rewrite decide_False in Hw.
Qed.

(** The rest of [close_session], once the state is [Closed] and the socket gone. *)
Definition close_rest (p : sptr) : P unit :=
  upd p finalize_close;;
  alive ← gets w_handler_alive;
  id ← get p session_id_;
  when alive (DataHandler_remove_session id);;
  upd p cleanup.

Lemma stays_close_rest p : steps stays (catch (close_rest p) (fun _ => upd p cleanup)).
Proof. walk. Qed.

Lemma close_awakes p w : AwakeBut p w -> Awake (snd (close_session p w)).
Proof.
  intros Hw. destruct (w_heap w !! p) as [s |] eqn:Hs.
  2: { unfold close_session, mbind, M_bind, bind, with_session. rewrite Hs. intros q t Ht. cbn in Ht.
       specialize (Hw q t Ht). rewrite decide_False in Hw; [exact Hw | congruence]. }
  pose proof (Hw p s Hs) as Hshut. rewrite decide_True in Hshut by done.
  rewrite <- (put_same p s w Hs). unfold close_session. rewrite exec_with_session.
  pose proof (calm_try_close s) as [Hshut' _]. pose proof (try_close_stops s) as Hout.
  destruct (try_close s) as [[] s1]; cbn [fst snd negb] in *.
  - rewrite !exec_upd. unfold catch at 1. rewrite exec_upd. apply stays_close_rest.
    apply awake_put; [exact Hw | by intros ? | by intros [[[] _] _]].
  - apply awake_put; [exact Hw | auto | by intros [? _]].
Qed.

Lemma stays_close_session p : steps stays (close_session p).
Proof. intros w Hw. by apply close_awakes, awake_but. Qed.
#[export] Hint Resolve stays_close_session : steps.

(** ** Writing *)

Lemma awake_put_in p s w : Awake w -> shut s -> (has_work s -> (0 < writes_of p (generation_ s) (w_ops w))%nat) ->
  Awake (put p s w).
Proof. intros Hw. by apply awake_put, awake_but. Qed.

Lemma writes_of_started p g m l : (0 < writes_of p g (l ++ [OpWrite p m g]))%nat.
Proof.
  rewrite writes_of_app. unfold writes_of at 2. cbn. rewrite !bool_decide_true by done. cbn. lia.
Qed.

(** [do_write_queue] makes up for a session that has work and no write. *)
Lemma do_write_queue_awakes p s w :
  AwakeBut p w -> shut s -> Awake (snd (do_write_queue p (put p s w))).
Proof.
  intros Hw Hs. unfold do_write_queue. rewrite exec_with_session. unfold next_write.
  destruct (decide (state_ s = Closed)) as [Hc |].
  { apply awake_put; [done | done |]. intros [[[] _] _]. by apply Hs. }
  destruct (write_queue_ s) as [| m q] eqn:Eq; cbn [fst snd].
  { apply awake_put; [done | done |]. intros [_ Hq]. cbn in Hq. by rewrite Eq in Hq. }
  set (w1 := put p s w <| w_ops ::= fun l => l ++ [OpWrite p m (generation_ s)] |>).
  enough (Hw1 : Awake w1).
  { unfold start_op. rewrite bind_modify. change (Awake (snd ((sock ← get p socket_;
      match sock with
      | Some conn => send_prefixed p conn m
      | None => mret tt
      end) w1))).
    assert (Hst : steps stays (sock ← get p socket_;
      match sock with
      | Some conn => send_prefixed p conn m
      | None => mret tt
      end)) by walk. by apply Hst. }
  intros q' t Ht. unfold w1 in *. cbn [w_ops set_field] in *. cbn in Ht.
  apply lookup_insert_Some in Ht as [[<- <-] | [Hne Ht]].
  - split; [done |]. intros _. apply writes_of_started.
  - apply awake_more. specialize (Hw q' t Ht). by rewrite decide_False in Hw.
Qed.

Lemma stays_do_write_queue p : steps stays (do_write_queue p).
Proof. walk. Qed.
#[export] Hint Resolve stays_do_write_queue : steps.

(** Another message for a session that is being written already. *)
Lemma enqueue_busy_awakes p msg s w :
  Awake (put p s w) -> write_queue_ s <> [] -> Awake (snd (enqueue_write p msg (put p s w))).
Proof.
  intros Hw Hq. unfold enqueue_write, config_size. rewrite !bind_gets, exec_get.
  rewrite bool_decide_false by done. cbn [andb]. rewrite exec_with_session.
  set (max := u64 _). set (limit := u64 _). pose proof (calm_overflow max limit s) as [Hshut _].
  assert (Hsame : socket_ (snd (enqueue_overflow max limit s)) = socket_ s /\
    life_state_ (snd (enqueue_overflow max limit s)) = life_state_ s /\
    generation_ (snd (enqueue_overflow max limit s)) = generation_ s)
    by (unfold enqueue_overflow; by destruct (_ <=? _)).
  destruct (Hw p s (lookup_put p s w)) as [Hs Hk].
  assert (Hbut : AwakeBut p (put p s w)) by by apply awake_but.
  assert (Hstep : steps stays (close_session p)) by exact (stays_close_session p).
  pose proof (stays_with_session p (enqueue_overflow max limit) (calm_overflow max limit) (put p s w) Hw) as Hw1.
  unfold with_session in Hw1. rewrite lookup_put in Hw1.
  destruct (enqueue_overflow max limit s) as [[] s1]; cbn [fst snd] in *.
  - apply Hstep. replace (put p s1 w) with (put p s1 (put p s w)) by apply put_put. exact Hw1.
  - rewrite exec_upd_last. replace (put p (push_write msg s1) w) with (put p (push_write msg s1) (put p s w)) by apply put_put.
    destruct Hsame as (E1 & E2 & E3).
    apply awake_put; [done | exact (Hshut Hs) |]. intros [Hin _]. change (generation_ (push_write msg s1)) with (generation_ s1).
    rewrite E3. apply Hk. split; [| done]. unfold in_service in *. cbn in Hin. by rewrite E1, E2 in Hin.
Qed.

Lemma stays_post_write_body p msg : steps stays (post_write_body p msg).
Proof.
  intros w Hw. destruct (w_heap w !! p) as [s |] eqn:Hs.
  2: { unfold post_write_body, mbind, M_bind, bind, get. by rewrite Hs. }
  rewrite <- (put_same p s w Hs). unfold post_write_body. rewrite exec_get.
  assert (Hwp : Awake (put p s w)) by by rewrite (put_same p s w Hs).
  case_bool_decide as Hq.
  - unfold enqueue_write, config_size. rewrite bind_assoc, bind_gets, bind_assoc, bind_gets, bind_assoc, exec_get.
    rewrite bool_decide_true by done. cbn [andb].
    set (max := u64 _). set (limit := u64 _). destruct (Z.leb_spec max 0) as [| Hmax]; [exact Hwp |].
    rewrite bind_assoc, exec_with_session. unfold enqueue_overflow. rewrite Hq.
    rewrite (proj2 (Z.leb_gt max (len []))) by exact Hmax. cbn [fst snd].
    rewrite exec_upd. cbn [when]. rewrite exec_upd. apply do_write_queue_awakes; [by apply awake_but |].
    exact (proj1 (Hwp p s (lookup_put p s w))).
  - unfold mbind, M_bind, bind. pose proof (enqueue_busy_awakes p msg s w Hwp Hq) as He.
    destruct (enqueue_write p msg (put p s w)) as [[[] | |] w']; exact He.
Qed.
#[export] Hint Resolve stays_post_write_body : steps.

(** ** The handlers *)

Section handlers.
Context `{Platform}.

Lemma stays_dispatch_strand p j : steps stays (dispatch_strand p j).
Proof. walk. Qed.
#[local] Hint Resolve stays_dispatch_strand : steps.

Lemma stays_broadcast msg id : steps stays (broadcast msg id).
Proof. walk. Qed.
#[local] Hint Resolve stays_broadcast : steps.

Lemma stays_assign_zone p z : steps stays (assign_session_to_zone p z).
Proof. walk. Qed.
#[local] Hint Resolve stays_assign_zone : steps.

Lemma stays_on_user_info_ok p nickname j : steps stays (on_user_info_ok p nickname j).
Proof. walk. Qed.
#[local] Hint Resolve stays_on_user_info_ok : steps.

Lemma stays_tcp_handler type handler p msg :
  handlers_ !! type = Some handler -> steps stays (handler p msg).
Proof.
  unfold handlers_, register_handler. intros Hh.
  repeat (apply lookup_insert_Some in Hh as [[_ <-] | [_ Hh]]; [walk |]). by rewrite lookup_empty in Hh.
Qed.

Lemma stays_udp_handler type handler p msg from :
  udp_handlers_ !! type = Some handler -> steps stays (handler p msg from).
Proof.
  unfold udp_handlers_, register_udp_handler. intros Hh.
  repeat (apply lookup_insert_Some in Hh as [[_ <-] | [_ Hh]]; [walk |]). by rewrite lookup_empty in Hh.
Qed.

Lemma stays_dispatch p msg : steps stays (dispatch p msg).
Proof.
  unfold dispatch. apply steps_catch; [exact _ | | walk]. apply steps_bind; [exact _ | walk |].
  intros type. destruct (decide _); [walk |].
  destruct (handlers_ !! type) as [handler |] eqn:Hh; [| walk].
  apply steps_catch; [exact _ | by eapply stays_tcp_handler | walk].
Qed.
#[local] Hint Resolve stays_dispatch : steps.

Lemma stays_dispatch_udp_parsed p msg from : steps stays (dispatch_udp_parsed p msg from).
Proof.
  unfold dispatch_udp_parsed. apply steps_catch; [exact _ | | walk].
  apply steps_bind; [exact _ | walk |]. intros type.
  destruct (udp_handlers_ !! type) as [handler |] eqn:Hh; [by eapply stays_udp_handler | walk].
Qed.
#[local] Hint Resolve stays_dispatch_udp_parsed : steps.

Lemma stays_read_messages fuel p : steps stays (read_messages fuel p).
Proof. induction fuel as [| fuel IH]; cbn [read_messages]; walk. Qed.
#[local] Hint Resolve stays_read_messages : steps.

Lemma stays_on_receive h ok data from : steps stays (on_receive h ok data from).
Proof. walk. Qed.

Lemma stays_on_accept socket : steps stays (on_accept socket).
Proof. walk. Qed.
#[local] Hint Resolve stays_on_receive stays_on_accept : steps.

(** ** Events *)

Lemma writes_of_remove p g o l : is_write_of p g o = false -> writes_of p g (remove_op o l) = writes_of p g l.
Proof.
  intros Ho. induction l as [| x l IH]; [done |]. cbn [remove_op].
  destruct (decide (x = o)) as [-> |]; rewrite !writes_of_cons; [by rewrite Ho | by rewrite IH].
Qed.

Lemma stays_finish o : (forall p msg g, o <> OpWrite p msg g) -> steps stays (finish_op o).
Proof.
  intros Ho. apply steps_modify. intros w Hw p s Hs. destruct (Hw p s Hs) as [H1 H2]. split; [done |].
  change (has_work s -> (0 < writes_of p (generation_ s) (remove_op o (w_ops w)))%nat).
  rewrite writes_of_remove; [done |].
  destruct o; done || by destruct (Ho p0 msg gen).
Qed.

(** The completion of a write, which another takes over from. *)
Lemma on_write_complete_awakes p gen ok w :
  AwakeBut p w ->
  (forall s, w_heap w !! p = Some s -> generation_ s <> gen -> awake (w_ops w) p s) ->
  Awake (snd (on_write_complete p gen ok w)).
Proof.
  intros Hw Hother. destruct (w_heap w !! p) as [s |] eqn:Hs.
  2: { unfold on_write_complete, mbind, M_bind, bind, get. rewrite Hs. intros q t Ht. cbn in Ht.
       specialize (Hw q t Ht). rewrite decide_False in Hw; [exact Hw | congruence]. }
  pose proof (Hw p s Hs) as Hshut. rewrite decide_True in Hshut by done.
  rewrite <- (put_same p s w Hs). unfold on_write_complete. rewrite exec_get.
  destruct (decide (gen <> generation_ s)) as [Hne | _].
  - apply awake_put; [done .. |]. by apply Hother.
  - assert (Hbut : AwakeBut p (put p s w)) by (by rewrite put_same).
    destruct ok; cbn [negb]; [| by apply close_awakes].
    rewrite exec_with_session. unfold pop_write. cbn [fst snd].
    case_bool_decide as Hq; [| by apply do_write_queue_awakes].
    apply awake_put; [done .. |]. intros [_ H']. cbn in H'. by rewrite Hq in H'.
Qed.

Lemma stays_write_event p msg gen ok : steps stays (run_event (EvWrite p msg gen ok)).
Proof.
  intros w Hw. unfold run_event. cbn [completes handler_of].
  unfold finish_op. rewrite bind_modify. unfold in_strand.
  set (w1 := (w <| w_ops ::= remove_op (OpWrite p msg gen) |>) <| w_strand := Some p |>).
  pose proof (on_write_complete_awakes p gen ok w1) as Hc.
  assert (Hpick : forall q s, w_heap w !! q = Some s -> ~ (q = p /\ generation_ s = gen) ->
    awake (w_ops w1) q s).
  { intros q s Hs Hne. destruct (Hw q s Hs) as [H1 H2]. split; [done |].
    change (w_ops w1) with (remove_op (OpWrite p msg gen) (w_ops w)). rewrite writes_of_remove; [done |].
    cbn. case_bool_decide; [| done]. case_bool_decide; [| done]. by destruct Hne. }
  destruct (on_write_complete p gen ok w1) as [r w2]. apply Hc.
  - intros q s Hs. destruct (decide (q = p)) as [-> | Hq]; [apply (Hw p s Hs) |]. apply Hpick; [done | by intros []].
  - intros s Hs Hg. apply Hpick; [done | by intros []].
Qed.

Lemma stays_event e : steps stays (run_event e).
Proof.
  destruct e; try apply stays_write_event; unfold run_event; cbn [completes handler_of]; walk; by apply stays_finish.
Qed.

Lemma stays_step s e s' : step s e s' -> stays (s_world s) (s_world s').
Proof.
  destruct 1 as [w n e w' _ Hr | w n e x w' _ Hr | w n]; cbn; [.. | done];
    pose proof (stays_event e w) as Hf; by rewrite Hr in Hf.
Qed.

Lemma stays_construct n : steps stays (construct n).
Proof. induction n; cbn [construct]; walk. Qed.
#[local] Hint Resolve stays_construct : steps.

Lemma stays_boot : steps stays boot.
Proof. walk. Qed.

Lemma reachable_awake c hardware now s : reachable c hardware now s -> Awake (s_world s).
Proof.
  induction 1 as [| s e s' _ IH Hstep]; [| by eapply stays_step].
  apply stays_boot. apply map_Forall_empty.
Qed.
End handlers.

(** ** Emptying a queue *)

Section drain.
Context `{Platform}.

(** What goes out for a message. *)
Definition sent_frame (conn : Z) (msg : string) : Out := OTcp conn (frame (String.list_byte_of_string msg)).

Definition drained (s : Session) : Session := s <| write_queue_ := [] |> <| write_in_progress_ := false |>.

(** What the completion of its write does with a session and what is left of
    its queue: the next message goes out, or the writing ends. *)
Definition written (s : Session) (q : list string) : Session :=
  match q with [] => drained s | _ => s <| write_queue_ := q |> end.

Definition next_ops (p : sptr) (g : Z) (q : list string) : list Op :=
  match q with [] => [] | m :: _ => [OpWrite p m g] end.

Definition completed (p : sptr) (s : Session) (conn : Z) (q : list string) (w : World) : World :=
  put p (written s q) (w <| w_ops ::= fun l => l ++ next_ops p (generation_ s) q |>
                         <| w_out ::= fun l => l ++ map (sent_frame conn) (take 1 q) |>).

Lemma on_write_complete_run p s conn m q w :
  state_ s <> Closed -> socket_ s = Some conn -> write_queue_ s = m :: q -> prompt w ->
  on_write_complete p (generation_ s) true (put p s w) = (Ret tt, completed p s conn q w).
Proof.
  intros Hst Hsock Hq Hslow. unfold on_write_complete. rewrite exec_get, decide_False by (intros E; by apply E).
  cbn [negb]. rewrite exec_with_session. unfold pop_write. rewrite Hq, bool_decide_false by done.
  cbn [fst snd tail]. unfold do_write_queue. rewrite exec_with_session. unfold next_write.
  rewrite decide_False by done. change (write_queue_ (s <| write_queue_ ::= tail |>)) with (tail (write_queue_ s)).
  rewrite Hq. cbn [tail]. unfold completed, written, next_ops, put.
  destruct q as [| m' q]; cbn [fst snd].
  - unfold drained, set_field. cbn. rewrite Hq, !app_nil_r. by destruct w.
  - unfold start_op. rewrite bind_modify.
    change ((w <| w_heap ::= ?h |>) <| w_ops ::= ?f |>)
      with (put p (s <| write_queue_ ::= tail |>) (w <| w_ops ::= f |>)).
    rewrite exec_get. change (socket_ (s <| write_queue_ ::= tail |>)) with (socket_ s).
    rewrite Hsock, send_prefixed_prompt by exact Hslow. unfold emit, modify, put, set_field. cbn. by rewrite Hq.
Qed.

Lemma write_event p x s conn m q w :
  w_heap w !! p = Some s -> state_ s <> Closed -> socket_ s = Some conn -> write_queue_ s = m :: q -> prompt w ->
  run_event (EvWrite p x (generation_ s) true) w =
  (Ret tt, completed p s conn q (w <| w_ops ::= remove_op (OpWrite p x (generation_ s)) |>) <| w_strand := None |>).
Proof.
  intros Hs Hst Hsock Hq Hslow. unfold run_event. cbn [completes handler_of]. unfold finish_op. rewrite bind_modify.
  unfold in_strand. set (w1 := (w <| w_ops ::= _ |>) <| w_strand := Some p |>).
  rewrite <- (put_same p s w1) by exact Hs. by rewrite (on_write_complete_run p s conn m q w1 Hst Hsock Hq Hslow).
Qed.

(** The completions of the writes of a queue, the first of them that of [x]. *)
Definition completions (p : sptr) (g : Z) (x : string) (q : list string) : list Event :=
  map (fun msg => EvWrite p msg g true) (x :: q).

Lemma run_completions p conn q : forall m x s w n,
  OpWrite p x (generation_ s) ∈ w_ops w -> w_heap w !! p = Some s -> state_ s <> Closed ->
  socket_ s = Some conn -> write_queue_ s = m :: q -> prompt w ->
  exists w', run_events (completions p (generation_ s) x q) (mkSys w (S n)) = Some (mkSys w' (S n)) /\
    w_out w' = w_out w ++ map (sent_frame conn) q /\ w_heap w' = <[p := drained s]> (w_heap w).
Proof.
  induction q as [| m' q IH]; intros m x s w n Ho Hs Hst Hsock Hq Hslow; cbn [completions map run_events];
    unfold run_one; cbn [s_threads s_world enabled completes];
    rewrite bool_decide_true by exact Ho; cbn [andb];
    rewrite (write_event p x s conn m _ w Hs Hst Hsock Hq Hslow).
  - eexists. split; [reflexivity |]. split; [reflexivity |]. reflexivity.
  - set (w1 := completed _ _ _ _ _ <| w_strand := None |>). set (s1 := written s (m' :: q)).
    destruct (IH m' m' s1 w1 n) as (w' & Hrun & Hout & Hheap).
    + unfold w1. cbn. apply elem_of_app. right. by left.
    + apply lookup_insert_eq.
    + exact Hst.
    + exact Hsock.
    + reflexivity.
    + exact Hslow.
    + exists w'. split; [exact Hrun |]. rewrite Hout, Hheap. split.
      * unfold w1. cbn. by rewrite <- (assoc_L app).
      * unfold w1. cbn. by rewrite insert_insert_eq.
Qed.
End drain.

(** ** Every reachable state *)

Lemma writes_of_some p g ops : (0 < writes_of p g ops)%nat -> exists x, OpWrite p x g ∈ ops.
Proof.
  unfold writes_of. destruct (List.filter (is_write_of p g) ops) as [| o l] eqn:E; cbn; [lia |]. intros _.
  assert (Ho : List.In o (List.filter (is_write_of p g) ops)) by (rewrite E; by left).
  apply filter_In in Ho as [Hin Hw]. apply list_elem_of_In in Hin. destruct o as [| q x g' | | | |]; try done.
  cbn in Hw. apply andb_true_iff in Hw as [->%bool_decide_eq_true ->%bool_decide_eq_true]. by exists x.
Qed.

Section delivery.
Context `{Platform} (c : gmap string Z) (hardware now : Z).
Context (Hc : 2 <= max_write_queue c) (Hh : 0 <= hardware < 2 ^ 30).

(** C6. The writer never idles: in every reachable state, whatever clients,
    timers, failing writes and overflowing queues did before, a session that has
    its socket and is in service and holds messages to write has exactly one
    write of its generation under way, and its state is not [Closed]; no message
    waits for a write that nobody will start. *)
Theorem writer_never_idles s p t :
  reachable c hardware now s -> w_heap (s_world s) !! p = Some t ->
  in_service t -> write_queue_ t <> [] ->
  writes_of p (generation_ t) (w_ops (s_world s)) = 1%nat /\ state_ t <> Closed.
Proof using Hc Hh.
  intros Hs Ht Hin Hq. destruct (reachable_awake c hardware now s Hs p t Ht) as [Hshut Hw].
  destruct (reachable_bounded c hardware now Hc Hh s Hs) as (svc & D & bufs & _ & Hi).
  destruct (inv_writes _ _ _ _ _ _ _ Hi p t Ht) as [Hmax _]. specialize (Hw (conj Hin Hq)).
  split; [lia |]. intros E. by apply Hin, Hshut.
Qed.

(** C7. Delivery: in every reachable state, if the session of a client holds
    the messages [m :: q], the write under way and those of [q] can complete one
    after the other, each completion is possible when its turn comes and starts
    the next write, and they put exactly [q] on the client's socket, framed and
    in order, and end with an empty queue and no write under way; nothing else
    on the heap changes.  That the prefix of each frame is intact rests on the
    sockets having room for it when the write starts ([prompt], which holds of
    every reachable state because no event changes it). *)
Theorem queue_drains s p t conn m q :
  reachable c hardware now s -> (0 < s_threads s)%nat -> w_heap (s_world s) !! p = Some t ->
  in_service t -> socket_ t = Some conn -> write_queue_ t = m :: q ->
  exists x s', OpWrite p x (generation_ t) ∈ w_ops (s_world s) /\
    run_events (completions p (generation_ t) x q) s = Some s' /\
    w_out (s_world s') = w_out (s_world s) ++ map (sent_frame conn) q /\
    w_heap (s_world s') = <[p := drained t]> (w_heap (s_world s)) /\
    writes_of p (generation_ t) (w_ops (s_world s')) = 0%nat.
Proof using Hc Hh.
  intros Hs Hn Ht Hin Hsock Hq. destruct (reachable_awake c hardware now s Hs p t Ht) as [Hshut Hw].
  destruct (writes_of_some p (generation_ t) (w_ops (s_world s))) as [x Hx].
  { apply Hw. split; [done |]. by rewrite Hq. }
  destruct s as [w [| n]]; [cbn in Hn; lia |]. cbn [s_world] in *.
  destruct (reachable_bounded c hardware now Hc Hh _ Hs) as (svc0 & D0 & bufs0 & _ & Hi0).
  destruct (run_completions p conn q m x t w n Hx Ht) as (w' & Hrun & Hout & Hheap);
    [| done | done | exact (inv_prompt _ _ _ _ _ _ _ Hi0) |].
  { intros E. by apply Hin, Hshut. }
  exists x, (mkSys w' (S n)). split; [done |]. split; [done |]. split; [done |]. split; [done |].
  pose proof (run_events_reachable c hardware now _ _ _ Hs Hrun) as Hs'.
  destruct (reachable_bounded c hardware now Hc Hh _ Hs') as (svc & D & bufs & _ & Hi).
  assert (Hd : w_heap w' !! p = Some (drained t)) by (rewrite Hheap; apply lookup_insert_eq).
  destruct (inv_writes _ _ _ _ _ _ _ Hi p (drained t) Hd) as (_ & Hnone & _). cbn [s_world] in *.
  change (generation_ (drained t)) with (generation_ t) in Hnone.
  destruct (writes_of p (generation_ t) (w_ops w')); [done |]. by specialize (Hnone ltac:(lia)).
Qed.
End delivery.

(** The first client of the demo, whose login answer is being written while its
    chat message waits. *)
Lemma demo_in_service : in_service demo_session.
Proof. split; [vm_compute; discriminate | left; vm_compute; reflexivity]. Qed.

Lemma writer_never_idles_witness :
  writes_of 0 (generation_ demo_session) (w_ops (s_world demo_served)) = 1%nat /\ state_ demo_session <> Closed.
Proof.
  apply (writer_never_idles demo_config 4 1 demo_queue demo_cores demo_served 0 demo_session demo_reachable
           demo_lookup demo_in_service).
  vm_compute. discriminate.
Defined.

Lemma queue_drains_witness :
  exists x s', OpWrite 0 x (generation_ demo_session) ∈ w_ops (s_world demo_served) /\
    run_events (completions 0 (generation_ demo_session) x (tail (write_queue_ demo_session))) demo_served = Some s' /\
    w_out (s_world s') = w_out (s_world demo_served) ++ map (sent_frame 7) (tail (write_queue_ demo_session)) /\
    w_heap (s_world s') = <[0%nat := drained demo_session]> (w_heap (s_world demo_served)) /\
    writes_of 0 (generation_ demo_session) (w_ops (s_world s')) = 0%nat.
Proof.
  apply (queue_drains demo_config 4 1 demo_queue demo_cores demo_served 0 demo_session 7
           (hd EmptyString (write_queue_ demo_session)) (tail (write_queue_ demo_session)) demo_reachable).
  - vm_compute. lia.
  - exact demo_lookup.
  - exact demo_in_service.
  - vm_compute. reflexivity.
  - vm_compute. reflexivity.
Defined.

Example demo_waiting : length (tail (write_queue_ demo_session)) = 1%nat.
Proof. vm_compute. reflexivity. Qed.
