(* ===== verification/QueueSpec.v ===== *)
(** * The write queue of a session is a bounded FIFO

    Over any run the queue of messages to a client behaves like the bounded
    queue of [replay]: a message is pushed behind the others and drops the oldest
    one when the queue is full, and the completion of a write takes off the
    oldest, until the session is closed or recycled.  The relation [fifo_by]
    says so of two worlds, with the number of completions; a computation that
    completes no write keeps [fifo], the one with no completion. *)
From Stdlib Require Import ZArith Lia Strings.Byte.
From stdpp Require Import base gmap sets list strings.
From S2P Require Import Prelude MessageBuffer RateLimit Json Session World.
From S2P Require Import SessionPool Zones Invariant.
From S2P Require SessionStore.
From S2P Require Import Lifecycle SessionManager DataHandler LoginFlow Dispatcher Reading.
From S2P Require Import UdpReceive Server System Exec DeliverySpec.

Open Scope Z_scope.

(** ** A bounded queue *)

Inductive QueueOp := Push (msg : string) | Pop.

Definition apply_op (max : Z) (q : list string) (o : QueueOp) : list string :=
  match o with
  | Push msg => (if max <=? len q then tail q else q) ++ [msg]
  | Pop => tail q
  end.

Definition replay (max : Z) (q : list string) (ops : list QueueOp) : list string :=
  foldl (apply_op max) q ops.

Definition is_pop (o : QueueOp) : bool := match o with Pop => true | Push _ => false end.
Definition pops (ops : list QueueOp) : nat := length (List.filter is_pop ops).

Lemma pops_app ops ops' : pops (ops ++ ops') = (pops ops + pops ops')%nat.
Proof. unfold pops. by rewrite List.filter_app, length_app. Qed.

(** ** Sessions

    The generation grows, or the queue has seen [n] completions, if the session
    is still in service; nothing brings it back to service. *)
Definition moved (max : Z) (n : nat) (s s' : Session) : Prop :=
  generation_ s < generation_ s' \/
  generation_ s' = generation_ s /\
  (in_service s' -> in_service s /\
     exists ops, pops ops = n /\ write_queue_ s' = replay max (write_queue_ s) ops).

Lemma moved_trans max n m s s1 s2 :
  moved max n s s1 -> (generation_ s1 = generation_ s -> moved max m s1 s2) -> generation_ s1 <= generation_ s2 ->
  moved max (n + m) s s2.
Proof.
  intros [Hlt | [Hg H1]] H2 Hle; [left; lia |]. destruct (H2 Hg) as [Hlt | [Hg2 H3]]; [left; lia |].
  right. split; [lia |]. intros Hin. destruct (H3 Hin) as (Hin1 & ops2 & Hn2 & Hq2).
  destruct (H1 Hin1) as (Hin0 & ops1 & Hn1 & Hq1). split; [done |]. exists (ops1 ++ ops2). split.
  - by rewrite pops_app, Hn1, Hn2.
  - rewrite Hq2, Hq1. unfold replay. by rewrite foldl_app.
Qed.

Lemma moved_generation max n s s' : moved max n s s' -> generation_ s <= generation_ s'.
Proof. intros [? | [? _]]; lia. Qed.

(** No completion, whatever the bound. *)
Definition later (s s' : Session) : Prop := forall max, moved max 0 s s'.

Lemma later_keep s s' :
  generation_ s' = generation_ s -> write_queue_ s' = write_queue_ s -> (in_service s' -> in_service s) ->
  later s s'.
Proof. intros Hg Hq Hin max. right. split; [done |]. intros H. split; [auto |]. by exists []. Qed.

Lemma later_same s s' :
  generation_ s' = generation_ s -> write_queue_ s' = write_queue_ s ->
  socket_ s' = socket_ s -> life_state_ s' = life_state_ s -> later s s'.
Proof. intros H1 H2 H3 H4. apply later_keep; [done | done |]. unfold in_service. by rewrite H3, H4. Qed.

Lemma later_out s s' : generation_ s' = generation_ s -> ~ in_service s' -> later s s'.
Proof. intros Hg Hn max. right. done. Qed.

Lemma later_cleared s s' : generation_ s' = Z.succ (generation_ s) -> later s s'.
Proof. intros H max. left. lia. Qed.

#[export] Instance later_preorder : PreOrder later.
Proof.
  split; [by intros s; apply later_same |]. intros s s1 s2 H1 H2 max.
  exact (moved_trans max 0 0 s s1 s2 (H1 max) (fun _ => H2 max) (moved_generation _ _ _ _ (H2 max))).
Qed.

(** ** Worlds *)

(** Sessions stay allocated, and those that existed moved on with [k p g]
    completions for session [p] of generation [g]; new ones get new addresses. *)
Definition fifo_by (k : sptr -> Z -> nat) (w w' : World) : Prop :=
  w_config w' = w_config w /\ (w_next w <= w_next w')%nat /\
  forall p s, (p < w_next w)%nat -> w_heap w !! p = Some s ->
    exists s', w_heap w' !! p = Some s' /\ moved (max_write_queue (w_config w)) (k p (generation_ s)) s s'.

Definition fifo : World -> World -> Prop := fifo_by (fun _ _ => 0%nat).

Lemma fifo_by_trans k1 k2 k w w1 w2 :
  fifo_by k1 w w1 -> fifo_by k2 w1 w2 -> (forall p g, k p g = (k1 p g + k2 p g)%nat) -> fifo_by k w w2.
Proof.
  intros (C1 & N1 & H1) (C2 & N2 & H2) Hk. split; [congruence |]. split; [lia |]. intros p s Hp Hs.
  destruct (H1 p s Hp Hs) as (s1 & Hs1 & L1). destruct (H2 p s1 ltac:(lia) Hs1) as (s2 & Hs2 & L2).
  rewrite C1 in L2. exists s2. split; [done |]. rewrite Hk. apply (moved_trans _ _ _ s s1).
  - done.
  - by intros <-.
  - by eapply moved_generation.
Qed.

Lemma fifo_by_none k w : (forall p s, w_heap w !! p = Some s -> k p (generation_ s) = 0%nat) -> fifo_by k w w.
Proof.
  intros Hk. split; [done |]. split; [done |]. intros p s _ Hs. exists s. split; [done |].
  rewrite (Hk p s Hs). by apply later_same.
Qed.

#[export] Instance fifo_preorder : PreOrder fifo.
Proof.
  split; [intros w; by apply fifo_by_none |].
  intros w w1 w2 H1 H2. by eapply fifo_by_trans.
Qed.

Lemma fifo_by_put k p s s' w :
  (forall q g, q <> p -> k q g = 0%nat) -> moved (max_write_queue (w_config w)) (k p (generation_ s)) s s' ->
  fifo_by k (put p s w) (put p s' w).
Proof.
  intros Hk Hm. split; [done |]. split; [done |]. intros q t _ Ht. destruct (decide (q = p)) as [-> | Hne].
  - rewrite lookup_put in Ht. injection Ht as <-. exists s'. by rewrite lookup_put.
  - rewrite lookup_put_ne in Ht by done. exists t. rewrite lookup_put_ne by done. split; [done |].
    rewrite Hk by done. by apply later_same.
Qed.

Lemma fifo_put p s s' w : moved (max_write_queue (w_config w)) 0 s s' -> fifo (put p s w) (put p s' w).
Proof. intros Hm. by apply (fifo_by_put (fun _ _ => 0%nat)). Qed.

(** ** The operations on the world *)

Lemma fifo_heap w w' : w_config w' = w_config w -> w_next w' = w_next w -> w_heap w' = w_heap w -> fifo w w'.
Proof.
  intros C N E. split; [done |]. split; [lia |]. intros p s _ Hs. exists s. rewrite E. split; [done |].
  by apply later_same.
Qed.

Lemma fifo_same f :
  (forall w, w_config (f w) = w_config w) -> (forall w, w_next (f w) = w_next w) ->
  (forall w, w_heap (f w) = w_heap w) -> steps fifo (modify f).
Proof. intros Hc Hn Hf. apply steps_modify. intros w. by apply fifo_heap. Qed.

Lemma fifo_with_session {A} p (f : Session -> A * Session) :
  (forall s, later s (snd (f s))) -> steps fifo (with_session p f).
Proof.
  intros Hf w. destruct (w_heap w !! p) as [s |] eqn:Hs.
  2: { unfold with_session. rewrite Hs. by apply fifo_heap. }
  rewrite <- (put_same p s w Hs). unfold with_session. rewrite lookup_put. specialize (Hf s).
  destruct (f s) as [a s']. cbn [snd] in *.
  change (_ <| w_heap ::= _ |>) with (put p s' (put p s w)). rewrite put_put. apply fifo_put, Hf.
Qed.

Lemma fifo_upd p f : (forall s, later s (f s)) -> steps fifo (upd p f).
Proof. intros Hf. by apply fifo_with_session. Qed.

Lemma fifo_get {A} p (f : Session -> A) : steps fifo (get p f).
Proof. intros w. unfold get. destruct (w_heap w !! p); by apply fifo_heap. Qed.

Lemma fifo_alloc : steps fifo alloc.
Proof.
  intros w. split; [done |]. split; [cbn; lia |]. intros p s Hp Hs. exists s. cbn.
  rewrite lookup_insert_ne by lia. split; [done |]. by apply later_same.
Qed.

Lemma fifo_start_op o : steps fifo (start_op o).
Proof. by apply fifo_same. Qed.

Lemma fifo_with_bucket {A} id (f : gmap Z sptr -> A * gmap Z sptr) : steps fifo (SessionStore.with_bucket id f).
Proof.
  intros w. unfold SessionStore.with_bucket. destruct (_ !! _) as [b |]; [| by apply fifo_heap].
  destruct (f b). by apply fifo_heap.
Qed.

(** Changes before and after that leave the sessions alone. *)
Lemma fifo_by_around k w w1 w2 w3 : fifo w w1 -> fifo_by k w1 w2 -> fifo w2 w3 -> fifo_by k w w3.
Proof.
  intros H1 H2 H3. eapply fifo_by_trans; [exact H1 | eapply fifo_by_trans; [exact H2 | exact H3 |] |];
    [done |]. intros; cbn; lia.
Qed.

Lemma fifo_with_lock {A} (m : P A) : steps fifo m -> steps fifo (with_nickname_lock m).
Proof.
  intros Hm w. unfold with_nickname_lock. destruct (nickname_locked _); [by apply fifo_heap |].
  specialize (Hm (w <| w_sm ::= fun sm => sm <| nickname_locked := true |> |>)).
  destruct (m _) as [r w']. cbn [snd] in *.
  eapply fifo_by_around; [| exact Hm |]; by apply fifo_heap.
Qed.

Lemma fifo_by_in_strand k p (m : P unit) :
  (forall w, fifo_by k w (snd (m w))) -> forall w, fifo_by k w (snd (in_strand p m w)).
Proof.
  intros Hm w. unfold in_strand. specialize (Hm (w <| w_strand := Some p |>)).
  destruct (m _) as [r w']. cbn [snd] in *.
  eapply fifo_by_around; [| exact Hm |]; by apply fifo_heap.
Qed.

Lemma fifo_in_strand p (m : P unit) : steps fifo m -> steps fifo (in_strand p m).
Proof. intros Hm. exact (fifo_by_in_strand _ p m Hm). Qed.

(** ** The operations on a session *)

Lemma later_cas e d s : e = LIdle \/ e = LActive -> later s (snd (cas_life e d s)).
Proof.
  intros He. unfold cas_life. destruct (decide _) as [Hl |]; [| by apply later_same].
  apply later_keep; [done | done |]. intros [Hs _]. split; [done |]. destruct He as [-> | ->]; auto.
Qed.

Lemma later_set_active v s : later s (set_active v s).
Proof. destruct v; apply later_cas; auto. Qed.

Lemma later_try_close s : later s (snd (try_close s)).
Proof.
  unfold try_close. destruct (cas_life LActive LClosing s) as [[] s1] eqn:E;
    [| etrans; [| apply later_cas; by left]];
    replace s1 with (snd (cas_life LActive LClosing s)) by (by rewrite E); apply later_cas; by right.
Qed.

Lemma later_check_udp_rate t s : later s (snd (check_udp_rate t s)).
Proof. unfold check_udp_rate. destruct (checkUdpRateLimit _ _). by apply later_same. Qed.

Lemma later_next_write s : later s (snd (next_write s)).
Proof. unfold next_write. case_decide; [done |]. destruct (write_queue_ s) eqn:E; by apply later_same. Qed.

Lemma later_take_message s : later s (snd (take_message s)).
Proof. unfold take_message. destruct (extract_message _). by apply later_same. Qed.

Lemma later_pop_task s : later s (snd (pop_task s)).
Proof. unfold pop_task. destruct (task_queue_ s); by apply later_same. Qed.

Create HintDb later discriminated.
#[export] Hint Resolve later_set_active later_try_close later_check_udp_rate
  later_next_write later_take_message later_pop_task : later.
#[export] Hint Extern 2 (later _ _) =>
  first [by apply later_same | by apply later_cleared
        | apply later_out; [done | by intros [? []]]
        | apply later_out; [done | by intros [? _]]] : later.

#[export] Hint Resolve fifo_get fifo_alloc fifo_start_op fifo_with_bucket : steps.
#[export] Hint Extern 1 (steps fifo (modify _)) => apply fifo_same; reflexivity : steps.
#[export] Hint Extern 1 (steps fifo (gets _)) => apply steps_gets; exact _ : steps.
#[export] Hint Extern 1 (steps fifo (upd _ _)) =>
  apply fifo_upd; intros; solve [auto with later] : steps.
#[export] Hint Extern 1 (steps fifo (with_session _ _)) =>
  apply fifo_with_session; intros; solve [auto with later] : steps.
#[export] Hint Extern 2 (steps fifo (with_nickname_lock _)) => apply fifo_with_lock; walk : steps.
#[export] Hint Extern 2 (steps fifo (in_strand _ _)) => apply fifo_in_strand; walk : steps.

Lemma fifo_close_session p : steps fifo (close_session p).
Proof. walk. Qed.
#[export] Hint Resolve fifo_close_session : steps.

(** What is left of a handler, in whichever world it goes on. *)
Ltac walk_rest :=
  match goal with |- forall w, fifo w (snd (?m w)) => change (steps fifo m) end; walk.

(** ** Pushing

    A session that is closed after it lost a message: it is out of service. *)
Lemma fifo_close_after p s s1 w :
  generation_ s1 = generation_ s -> fifo (put p s w) (snd (close_session p (put p s1 w))).
Proof.
  intros Hg. unfold close_session. rewrite exec_with_session.
  assert (Hstop : fifo (put p s w) (put p (snd (try_close s1)) w)).
  { apply fifo_put, later_out; [| apply try_close_stops]. rewrite <- Hg.
    unfold try_close, cas_life. destruct (decide _); [done |]. by destruct (decide _). }
  etrans; [exact Hstop |]. generalize (put p (snd (try_close s1)) w). walk_rest.
Qed.

Lemma moved_push max limit msg s :
  fst (enqueue_overflow max limit s) = false ->
  moved max 0 s (push_write msg (snd (enqueue_overflow max limit s))).
Proof.
  intros _. right. unfold enqueue_overflow. destruct (max <=? len (write_queue_ s)) eqn:Hm; (split; [done |]);
    (intros Hin; split; [done |]; exists [Push msg]; split; [done |]); cbn; by rewrite Hm.
Qed.

Lemma fifo_enqueue_write p msg : steps fifo (enqueue_write p msg).
Proof.
  intros w. unfold enqueue_write, config_size. rewrite !bind_gets.
  destruct (w_heap w !! p) as [s |] eqn:Hs.
  2: { unfold mbind, M_bind, bind, get. rewrite Hs. by apply fifo_heap. }
  rewrite <- (put_same p s w Hs), exec_get. destruct (_ && _); [by apply fifo_heap |].
  rewrite put_config, exec_with_session. fold (max_write_queue (w_config w)).
  set (limit := u64 _). pose proof (moved_push (max_write_queue (w_config w)) limit msg s) as Hp.
  assert (Hg : generation_ (snd (enqueue_overflow (max_write_queue (w_config w)) limit s)) = generation_ s)
    by (unfold enqueue_overflow; by destruct (_ <=? _)).
  destruct (enqueue_overflow _ limit s) as [[] s1]; cbn [fst snd] in *.
  - by apply fifo_close_after.
  - rewrite exec_upd_last. apply fifo_put. auto.
Qed.
#[export] Hint Resolve fifo_enqueue_write : steps.

(** ** Completing a write *)

(** The completions of writes of session [p] and generation [g]. *)
Definition completes_write (p : sptr) (g : Z) (e : Event) : bool :=
  match e with
  | EvWrite q _ g' true => bool_decide (q = p) && bool_decide (g' = g)
  | _ => false
  end.

Definition completed_by (e : Event) (p : sptr) (g : Z) : nat := if completes_write p g e then 1 else 0.

Lemma completed_by_other q msg gen ok p g :
  ~ (p = q /\ g = gen /\ ok = true) -> completed_by (EvWrite q msg gen ok) p g = 0%nat.
Proof.
  intros Hn. unfold completed_by, completes_write. destruct ok; [| done].
  case_bool_decide; [| done]. case_bool_decide; [| done]. exfalso. by apply Hn.
Qed.

Lemma fifo_on_write_complete p msg gen ok w :
  fifo_by (completed_by (EvWrite p msg gen ok)) w (snd (on_write_complete p gen ok w)).
Proof.
  destruct (w_heap w !! p) as [s |] eqn:Hs.
  2: { unfold on_write_complete, mbind, M_bind, bind, get. rewrite Hs. apply fifo_by_none.
       intros q t Ht. apply completed_by_other. intros [-> _]. cbn [snd] in Ht. congruence. }
  rewrite <- (put_same p s w Hs). unfold on_write_complete. rewrite exec_get.
  destruct (decide (gen <> generation_ s)) as [Hne | ->%dec_stable].
  { apply fifo_by_none. intros q t Ht. apply completed_by_other. intros (-> & Hg & _).
    change (w_heap (put p s w) !! p = Some t) in Ht. rewrite lookup_put in Ht. injection Ht as <-. by apply Hne. }
  destruct ok; cbn [negb].
  - rewrite exec_with_session. apply (fifo_by_around _ _ (put p s w) (put p (snd (pop_write s)) w)); [done | |].
    + apply fifo_by_put.
      * intros q g Hq. apply completed_by_other. by intros [-> _].
      * unfold completed_by, completes_write. rewrite !bool_decide_true by done. right. split; [done |].
        intros Hin. split; [done |]. by exists [Pop].
    + generalize (put p (snd (pop_write s)) w). walk_rest.
  - eapply fifo_by_trans; [apply (fifo_close_session p) | by apply (fifo_by_none (fun _ _ => 0%nat)) |].
    intros q g. by rewrite completed_by_other by (by intros (_ & _ & ?)).
Qed.

(** ** The handlers *)

Section queues.
Context `{Platform}.

Lemma fifo_dispatch_strand p j : steps fifo (dispatch_strand p j).
Proof. walk. Qed.
#[local] Hint Resolve fifo_dispatch_strand : steps.

Lemma fifo_broadcast msg id : steps fifo (broadcast msg id).
Proof. walk. Qed.
#[local] Hint Resolve fifo_broadcast : steps.

Lemma fifo_assign_zone p z : steps fifo (assign_session_to_zone p z).
Proof. walk. Qed.
#[local] Hint Resolve fifo_assign_zone : steps.

Lemma fifo_on_user_info_ok p nickname j : steps fifo (on_user_info_ok p nickname j).
Proof. walk. Qed.
#[local] Hint Resolve fifo_on_user_info_ok : steps.

Lemma fifo_tcp_handler type handler p msg :
  handlers_ !! type = Some handler -> steps fifo (handler p msg).
Proof.
  unfold handlers_, register_handler. intros Hh.
  repeat (apply lookup_insert_Some in Hh as [[_ <-] | [_ Hh]]; [walk |]). by rewrite lookup_empty in Hh.
Qed.

Lemma fifo_udp_handler type handler p msg from :
  udp_handlers_ !! type = Some handler -> steps fifo (handler p msg from).
Proof.
  unfold udp_handlers_, register_udp_handler. intros Hh.
  repeat (apply lookup_insert_Some in Hh as [[_ <-] | [_ Hh]]; [walk |]). by rewrite lookup_empty in Hh.
Qed.

Lemma fifo_dispatch p msg : steps fifo (dispatch p msg).
Proof.
  unfold dispatch. apply steps_catch; [exact _ | | walk]. apply steps_bind; [exact _ | walk |].
  intros type. destruct (decide _); [walk |].
  destruct (handlers_ !! type) as [handler |] eqn:Hh; [| walk].
  apply steps_catch; [exact _ | by eapply fifo_tcp_handler | walk].
Qed.
#[local] Hint Resolve fifo_dispatch : steps.

Lemma fifo_dispatch_udp_parsed p msg from : steps fifo (dispatch_udp_parsed p msg from).
Proof.
  unfold dispatch_udp_parsed. apply steps_catch; [exact _ | | walk].
  apply steps_bind; [exact _ | walk |]. intros type.
  destruct (udp_handlers_ !! type) as [handler |] eqn:Hh; [by eapply fifo_udp_handler | walk].
Qed.
#[local] Hint Resolve fifo_dispatch_udp_parsed : steps.

Lemma fifo_read_messages fuel p : steps fifo (read_messages fuel p).
Proof. induction fuel as [| fuel IH]; cbn [read_messages]; walk. Qed.
#[local] Hint Resolve fifo_read_messages : steps.

Lemma fifo_on_receive h ok data from : steps fifo (on_receive h ok data from).
Proof. walk. Qed.

Lemma fifo_on_accept socket : steps fifo (on_accept socket).
Proof. walk. Qed.
#[local] Hint Resolve fifo_on_receive fifo_on_accept : steps.

(** *** Every event and every run *)

Lemma fifo_event e w : fifo_by (completed_by e) w (snd (run_event e w)).
Proof.
  assert (Hother : steps fifo (run_event e) -> (forall p g, completed_by e p g = 0%nat) ->
    fifo_by (completed_by e) w (snd (run_event e w))).
  { intros Hs Hk. eapply fifo_by_trans; [apply Hs | by apply (fifo_by_none (fun _ _ => 0%nat)) |].
    intros p g. by rewrite Hk. }
  destruct e as [| | p msg gen ok | | | | | | | | | | |];
    try (apply Hother; [unfold run_event; cbn [completes handler_of]; walk | done]).
  unfold run_event. cbn [completes handler_of]. unfold finish_op. rewrite bind_modify.
  eapply fifo_by_around; [| apply (fifo_by_in_strand (completed_by (EvWrite p msg gen ok))) | reflexivity].
  - by apply fifo_heap.
  - apply fifo_on_write_complete.
Qed.

Lemma fifo_step s e s' : step s e s' -> fifo_by (completed_by e) (s_world s) (s_world s').
Proof.
  destruct 1 as [w n e w' _ Hr | w n e x w' _ Hr | w n]; cbn; [.. | by apply fifo_by_none];
    pose proof (fifo_event e w) as Hf; by rewrite Hr in Hf.
Qed.

(** How many writes of session [p] and generation [g] completed in a run. *)
Definition completed_writes (p : sptr) (g : Z) (l : list (Sys * Event)) : nat :=
  length (List.filter (fun '(_, e) => completes_write p g e) l).

Lemma fifo_trace s l s' : trace s l s' -> fifo_by (fun p g => completed_writes p g l) (s_world s) (s_world s').
Proof.
  induction 1 as [| l s1 e s2 _ IH Hstep]; [by apply fifo_by_none |].
  eapply fifo_by_trans; [exact IH | by apply fifo_step |]. intros p g.
  unfold completed_writes, completed_by. rewrite List.filter_app, length_app. cbn.
  by destruct (completes_write p g e).
Qed.

(** C8. First in, first out: however many events lie between two states of the
    server, a session of the first is still allocated in the second, its
    generation has not gone back, and if it is the same and the session is in
    service in the second state, then it was in the first, and its queue of
    messages is that of a bounded FIFO: the old queue, after some sequence of
    pushes at its end, each of which drops the oldest message if the queue is
    full, and of as many removals of the oldest message as writes of the session
    completed in between. *)
Theorem write_queue_fifo c hardware now s l s' p t :
  2 <= max_write_queue c -> 0 <= hardware < 2 ^ 30 ->
  reachable c hardware now s -> trace s l s' -> w_heap (s_world s) !! p = Some t ->
  exists t', w_heap (s_world s') !! p = Some t' /\ generation_ t <= generation_ t' /\
    (generation_ t' = generation_ t -> in_service t' ->
     in_service t /\ exists ops, pops ops = completed_writes p (generation_ t) l /\
       write_queue_ t' = replay (max_write_queue c) (write_queue_ t) ops).
Proof.
  intros Hc Hh Hs Hrun Ht. destruct (reachable_bounded c hardware now Hc Hh s Hs) as (svc & D & bufs & _ & Hw).
  assert (Hp : (p < w_next (s_world s))%nat) by (eapply inv_next; [exact Hw | by apply elem_of_dom]).
  destruct (fifo_trace s l s' Hrun) as (_ & _ & Hf). destruct (Hf p t Hp Ht) as (t' & Ht' & Hm).
  rewrite (inv_config _ _ _ _ _ _ _ Hw) in Hm. exists t'. split; [done |].
  split; [by eapply moved_generation |]. intros Hg Hin. destruct Hm as [Hlt | [_ Hm]]; [lia | by apply Hm].
Qed.
End queues.

(** The queue of the first client of the demo while its first message is
    written and a chat message comes in. *)
Definition demo_more : list Event := [EvWrite 0 demo_message 2 true; EvRead 0 (framed demo_chat)].

Definition demo_later : Sys := default demo_served (run_events demo_more demo_served).

Lemma demo_more_run : run_events demo_more demo_served = Some demo_later.
Proof. vm_compute. reflexivity. Qed.

Lemma write_queue_fifo_witness :
  exists t' ops, w_heap (s_world demo_later) !! 0%nat = Some t' /\ generation_ t' = generation_ demo_session /\
    pops ops = 1%nat /\ write_queue_ t' = replay (max_write_queue demo_config) (write_queue_ demo_session) ops.
Proof.
  destruct (write_queue_fifo demo_config 4 1 demo_served (run_trace demo_more demo_served) demo_later 0%nat
              demo_session demo_queue demo_cores demo_reachable (run_trace_ok _ _ _ demo_more_run) demo_lookup)
    as (t' & Ht' & _ & Hq).
  assert (Hnow : (fun u => (generation_ u, socket_ u, life_state_ u)) <$> w_heap (s_world demo_later) !! 0%nat =
                 Some (generation_ demo_session, Some 7, LIdle)) by (vm_compute; reflexivity).
  rewrite Ht' in Hnow. apply (inj Some), pair_eq in Hnow as [[Hg Hsock]%pair_eq Hlife].
  assert (Hin : in_service t').
  { unfold in_service. rewrite Hsock, Hlife. split; [discriminate | left; reflexivity]. }
  destruct (Hq Hg Hin) as (_ & ops & Hn & Hr). exists t', ops. split; [exact Ht' |]. split; [exact Hg |].
  split; [rewrite Hn; vm_compute; reflexivity | exact Hr].
Defined.

(** One message was taken and another came. *)
Example demo_later_queue :
  (fun t' => (length (write_queue_ demo_session), length (write_queue_ t'))) <$>
  w_heap (s_world demo_later) !! 0%nat = Some (2%nat, 2%nat).
Proof. vm_compute. reflexivity. Qed.
