(* ===== verification/WireSpec.v ===== *)
(** * From the bytes of a connection to the handlers

    The frames of [MessageBuffer], the text of json.hpp and the read loop of
    [Reading] together: a read that completes any number of framed JSON messages
    dispatches exactly their values, in order and once, keeps what has arrived of
    the next message, and starts the next read. *)
From Stdlib Require Import ZArith Lia Strings.Byte.
From stdpp Require Import base gmap sets list strings.
From S2P Require Import Prelude MessageBuffer RateLimit Json Session World Invariant.
From S2P Require Import Lifecycle DataHandler Dispatcher Reading Exec System.
From S2P Require JsonLexer JsonDecimal JsonParser JsonPrinter JsonValid JsonRoundtrip JsonPlatform.
From S2P Require Import JsonStrtod.

Open Scope Z_scope.

(** ** The specification of a read *)

Section spec.
Context `{Platform}.

(** A framed message and its value. *)
Definition carries (bytes : list byte) (j : json) : Prop :=
  wf_message bytes /\ parse (String.string_of_list_byte bytes) = inr j.

Definition hold (bytes : list byte) (s : Session) : Session :=
  s <| msg_buf_mgr_ := mkMessageBufferManager bytes false |>.

(** Each value is dispatched while the messages behind it are still in the
    buffer. *)
Fixpoint dispatch_all (p : sptr) (msgs : list (list byte * json)) (rest : list byte) : P unit :=
  match msgs with
  | [] => upd p (hold rest)
  | (_, j) :: msgs' =>
      upd p (hold (frames (map fst msgs') ++ rest));;
      dispatch p j;;
      dispatch_all p msgs' rest
  end.

Definition read_spec (p : sptr) (msgs : list (list byte * json)) (rest : list byte) : P unit :=
  upd p release_read;;
  dispatch_all p msgs rest;;
  do_read p;;
  run_next_task p.

(** ** The loop *)

Context (c : gmap string Z) (Hc : 2 <= max_write_queue c) (svc : list Service) (D : gset sptr).
Abbreviation I bufs := (Inv c bufs svc false None D).

Lemma safe_returns {A} J (m : P A) Q w :
  safe J m never Q -> J w -> exists a w', m w = (Ret a, w') /\ Q a /\ J w'.
Proof using Type.
  intros Hm Hw. specialize (Hm w Hw). destruct (m w) as [[a | e |] w']; [| by destruct Hm as [[] _] | done].
  by exists a, w'.
Qed.

(** A handler of the session neither throws nor touches its read buffer. *)
Lemma dispatch_returns bufs p j w :
  p ∈ D -> I bufs w -> exists w', dispatch p j w = (Ret tt, w') /\ I bufs w'.
Proof using Hc.
  intros Hp Hw.
  destruct (safe_returns _ _ _ w (safe_dispatch c bufs svc Hc D p j never Hp) Hw) as ([] & w' & Hd & _ & H').
  by exists w'.
Qed.

Lemma handle_message_run p bytes j w w' :
  parse (String.string_of_list_byte bytes) = inr j ->
  dispatch p j w = (Ret tt, w') -> handle_message p bytes w = (Ret true, w').
Proof using Type.
  intros Hj Hd. unfold handle_message. apply exec_catch_ret. unfold parse_json. rewrite Hj.
  unfold mbind, M_bind, bind. cbn. by rewrite Hd.
Qed.

Lemma read_messages_stream msgs rest p bufs fuel w :
  p ∈ D -> I bufs w -> Forall (fun m => carries (fst m) (snd m)) msgs -> incomplete rest ->
  buffer_ (bufs p) = frames (map fst msgs) ++ rest -> (length (buffer_ (bufs p)) < fuel)%nat ->
  exists w', read_messages fuel p w = (Ret true, w') /\ dispatch_all p msgs rest w = (Ret tt, w') /\
    I (set_buf bufs p (mkMessageBufferManager rest false)) w'.
Proof using Hc.
  intros Hp Hw Hms Hrest. revert bufs fuel w Hw.
  induction Hms as [| [bytes j] msgs [Hwf Hj] _ IH]; intros bufs fuel w Hw Hbuf Hf;
    (destruct fuel as [| fuel]; [lia |]); cbn [read_messages dispatch_all map fst snd] in *;
    destruct (inv_lookup _ _ _ _ _ _ w p Hw Hp) as [s Hs];
    pose proof (inv_bufs _ _ _ _ _ _ _ Hw p s Hs) as Hb; cbv beta in Hb;
    destruct (bufs p) as [buf flag] eqn:Ebuf; cbn [buffer_] in Hbuf, Hf; subst buf.
  - rewrite (bind_with_session p take_message _ w s Hs). unfold take_message. rewrite Hb.
    cbn [frames map concat app] in *.
    rewrite extract_incomplete by exact Hrest. cbn [fst snd buffer_].
    pose proof (inv_buffer c svc D bufs w p s (mkMessageBufferManager rest false) Hw Hp Hs) as H1.
    eexists. split; [reflexivity |]. split; [| exact H1].
    unfold upd, with_session. by rewrite Hs.
  - unfold frames in Hb, Hf. cbn [map concat] in Hb, Hf. rewrite <- app_assoc in Hb, Hf.
    fold (frames (map fst msgs)) in Hb, Hf.
    rewrite (bind_with_session p take_message _ w s Hs), (bind_upd p (hold _) _ w s Hs).
    unfold take_message. rewrite Hb, extract_frame_app by exact Hwf. cbn [fst snd].
    set (m := mkMessageBufferManager (frames (map fst msgs) ++ rest) false).
    pose proof (inv_buffer c svc D bufs w p s m Hw Hp Hs) as H1.
    unfold hold. fold m. set (w1 := w <| w_heap ::= <[p := s <| msg_buf_mgr_ := m |>]> |>) in *.
    clearbody w1. destruct (dispatch_returns _ p j w1 Hp H1) as (w2 & Hd & H2).
    rewrite (bind_run _ _ w1 true w2) by by apply (handle_message_run p bytes j).
    rewrite (bind_run _ _ w1 tt w2) by exact Hd.
    assert (Hset : set_buf bufs p m p = m) by (unfold set_buf; by rewrite decide_True).
    rewrite length_app in Hf. pose proof (to_nat_len (frame bytes)) as Hlen.
    rewrite len_frame in Hlen. pose proof (len_nonneg bytes).
    destruct (IH (set_buf bufs p m) fuel w2 H2) as (w3 & Hr & Hda & H3).
    { by rewrite Hset. }
    { rewrite Hset. subst m. cbn [buffer_]. lia. }
    exists w3. split; [exact Hr |]. split; [exact Hda |].
    eapply inv_bufs_ext; [exact H3 |]. intros q t _. unfold set_buf. by destruct (decide (q = p)).
Qed.

(** What was in the buffer before the bytes of the read does not matter. *)
Lemma dispatch_all_appended p msgs rest data w s :
  w_heap w !! p = Some s ->
  dispatch_all p msgs rest (w <| w_heap ::= <[p := append_data data s]> |>) = dispatch_all p msgs rest w.
Proof using Type.
  intros Hs. set (w1 := w <| w_heap ::= _ |>).
  assert (Hhold : forall bytes, upd p (hold bytes) w1 = upd p (hold bytes) w).
  { intros bytes. unfold upd, with_session. subst w1. cbn. rewrite lookup_insert_eq, Hs.
    unfold set_field; cbn. by rewrite insert_insert_eq. }
  destruct msgs as [| [bytes j] msgs]; cbn [dispatch_all]; [apply Hhold |].
  unfold mbind, M_bind, bind. by rewrite Hhold.
Qed.

(** The handler of a read that completes [msgs] and leaves [rest]. *)
Lemma on_read_stream bufs p data msgs rest w s :
  p ∈ D -> I bufs w -> w_heap w !! p = Some s ->
  Forall (fun m => carries (fst m) (snd m)) msgs -> incomplete rest ->
  buffer_ (msg_buf_mgr_ s) ++ data = frames (map fst msgs) ++ rest ->
  on_read p (RData data) w = read_spec p msgs rest w.
Proof using Hc.
  intros Hp Hw Hs Hms Hrest Hbuf. unfold on_read, read_spec.
  rewrite !(bind_upd p release_read _ w s Hs).
  set (s1 := release_read s). set (w1 := w <| w_heap ::= <[p := s1]> |>).
  assert (H1 : I bufs w1).
  { destruct (safe_returns (I bufs) (upd p release_read) (fun _ => True) w) as ([] & w' & Hrun & _ & H1);
      [safe_done | done |]. unfold upd, with_session in Hrun. rewrite Hs in Hrun. by injection Hrun as <-. }
  assert (Hs1 : w_heap w1 !! p = Some s1) by apply lookup_insert_eq. clearbody w1.
  change (msg_buf_mgr_ s) with (msg_buf_mgr_ s1) in Hbuf. clearbody s1.
  pose proof (inv_buffer c svc D bufs w1 p s1 (append (msg_buf_mgr_ s1) data) H1 Hp Hs1) as H2.
  change (s1 <| msg_buf_mgr_ := append (msg_buf_mgr_ s1) data |>) with (append_data data s1) in H2.
  pose proof (dispatch_all_appended p msgs rest data w1 s1 Hs1) as Happ.
  set (w2 := w1 <| w_heap ::= <[p := append_data data s1]> |>) in *.
  assert (Hs2 : w_heap w2 !! p = Some (append_data data s1)) by apply lookup_insert_eq.
  assert (Hset : set_buf bufs p (append (msg_buf_mgr_ s1) data) p = append (msg_buf_mgr_ s1) data)
    by (unfold set_buf; by rewrite decide_True).
  destruct (read_messages_stream msgs rest p _ (S (length (buffer_ (append (msg_buf_mgr_ s1) data)))) w2
              Hp H2 Hms Hrest) as (w3 & Hread & Hall & H3).
  { by rewrite Hset. }
  { rewrite Hset. lia. }
  destruct (inv_lookup _ _ _ _ _ _ w3 p H3 Hp) as [s3 Hs3].
  pose proof (inv_bufs _ _ _ _ _ _ _ H3 p s3 Hs3) as Hb. cbv beta in Hb.
  unfold set_buf in Hb at 1. rewrite decide_True in Hb by done.
  destruct (safe_returns _ (do_read p) (fun _ => True) w3 ltac:(safe_done) H3) as ([] & w4 & Hdo & _ & _).
  rewrite Happ in Hall. rewrite (bind_run _ _ w1 tt w3 Hall), (bind_run _ _ w3 tt w4 Hdo).
  erewrite (bind_run _ _ w1 false w4); [reflexivity |]. apply exec_catch_ret.
  unfold on_data. rewrite (bind_upd p (append_data data) _ w1 s1 Hs1). fold w2. rewrite (bind_get p _ _ w2 _ Hs2).
  rewrite (bind_run _ _ w2 true w3 Hread). cbn [negb].
  rewrite (bind_get p _ _ w3 s3 Hs3), Hb.
  unfold was_last_clear_by_invalid_length. cbn [last_clear_by_invalid_length_]. by rewrite (bind_run _ _ w3 tt w4 Hdo).
Qed.
End spec.

(** ** Reading JSON messages *)

Section json.
Context (F : JsonLexer.Strtod) (L : JsonDecimal.StrtodLaws F) (draws : nat -> nat -> Z).
Instance wire_platform : Platform := JsonPlatform.nlohmann F draws.
Context (c : gmap string Z) (Hc : 2 <= max_write_queue c) (hardware now : Z) (Hh : 0 <= hardware < 2 ^ 30).

(** The frame of a value: its text, with or without a newline. *)
Definition message (terminated : bool) (j : json) : list byte :=
  String.list_byte_of_string (dump j +:+ (if terminated then newline else EmptyString)).

Lemma message_carries b j :
  JsonValid.valid_json j -> wf_message (message b j) -> carries (message b j) j.
Proof using L.
  intros Hj Hwf. split; [done |]. unfold message.
  destruct (JsonRoundtrip.dump_parses j Hj) as (t & Ht & Hp).
  change (dump j) with (default EmptyString (JsonPrinter.dump_text j)). rewrite Ht. cbn [default from_option id].
  rewrite String.string_of_list_byte_of_string. change (parse ?x) with (JsonParser.json_parse x).
  apply Hp. by destruct b.
Qed.

Definition messages (b : bool) (js : list json) : list (list byte * json) := map (fun j => (message b j, j)) js.

(** C13. From the bytes to the handlers: in every reachable state, when a read of
    a client completes whole frames of JSON texts, each the serialisation of a
    value and at most [MAX_PACKET_SIZE] long, the event dispatches exactly these
    values to the handlers of the session, in order and once each; it then
    starts the next read and the next task, and the bytes of an unfinished frame
    stay in the buffer. *)
Theorem read_dispatches_stream s p t data b js rest :
  reachable c hardware now s -> enabled (EvRead p (RData data)) (s_world s) = true ->
  w_heap (s_world s) !! p = Some t ->
  Forall (fun j => JsonValid.valid_json j /\ wf_message (message b j)) js -> incomplete rest ->
  buffer_ (msg_buf_mgr_ t) ++ data = frames (map (message b) js) ++ rest ->
  run_event (EvRead p (RData data)) (s_world s) =
  (finish_op (OpRead p);; in_strand p (read_spec p (messages b js) rest)) (s_world s).
Proof using Hc Hh L.
  intros Hr He Ht Hjs Hrest Hbuf. destruct (reachable_bounded c hardware now Hc Hh s Hr) as (svc & D & bufs & _ & Hw).
  assert (Ho : OpRead p ∈ w_ops (s_world s)).
  { cbn in He. apply andb_true_iff in He as [He _]. by apply bool_decide_eq_true in He. }
  pose proof (inv_ops _ _ _ _ _ _ _ Hw) as Hops. rewrite Forall_forall in Hops.
  pose proof (Hops _ Ho p eq_refl) as Hp.
  destruct (inv_finish c bufs svc D (s_world s) (OpRead p) Hw Ho) as (svc' & H1 & _).
  unfold run_event. cbn [completes handler_of]. unfold mbind, M_bind, bind, finish_op, modify, in_strand.
  erewrite on_read_stream; [reflexivity | exact Hc | exact Hp | apply inv_set_strand; exact H1 | exact Ht | | exact Hrest |].
  - unfold messages. apply Forall_map. eapply Forall_impl; [exact Hjs |]. intros j [Hj Hwf].
    by apply message_carries.
  - unfold messages. by rewrite map_map.
Qed.
End json.

(** Two messages and the first byte of a third. *)
Lemma read_dispatches_stream_witness :
  let data := frames [message exact_strtod JsonPlatform.exact_draws true demo_chat; message exact_strtod JsonPlatform.exact_draws true demo_logout] ++ [x00] in
  run_event (EvRead 0 (RData data)) (s_world demo_served) =
  (finish_op (OpRead 0);;
   in_strand 0 (read_spec 0 (messages exact_strtod JsonPlatform.exact_draws true [demo_chat; demo_logout]) [x00])) (s_world demo_served).
Proof.
  intros data.
  apply (read_dispatches_stream exact_strtod exact_strtod_laws JsonPlatform.exact_draws demo_config demo_queue 4 1 demo_cores
           demo_served 0 demo_session data true [demo_chat; demo_logout] [x00] demo_reachable).
  - vm_compute. reflexivity.
  - exact demo_lookup.
  - repeat constructor; vm_compute; (reflexivity || discriminate).
  - exists [x61], [x00; x00; x01; x61]. repeat split; vm_compute; (reflexivity || discriminate).
  - vm_compute. reflexivity.
Defined.
