(* ===== verification/TextSpec.v ===== *)
(** * Everything the server writes is JSON

    A system-wide invariant: nicknames are well-formed UTF-8, and every message
    that is queued, posted, being written or sent, on TCP or UDP, is a text that
    [json::parse] accepts.  So no [dump] of the server meets a string it would
    throw on.  [keeps] is the triple of this invariant; it is shown for each
    operation from the leaves up. *)
From Stdlib Require Import ZArith Lia Strings.Byte.
From stdpp Require Import base gmap sets list strings sorting.
From S2P Require Import Prelude MessageBuffer RateLimit Json Session World.
From S2P Require Import SessionPool Zones Invariant.
From S2P Require SessionStore.
From S2P Require Import Lifecycle SessionManager DataHandler LoginFlow Dispatcher Reading UdpReceive Server System.
From S2P Require Import JsonString JsonLexer JsonDecimal JsonStrtod JsonPrinter JsonValid JsonRoundtrip JsonPlatform.

Open Scope Z_scope.

(** ** Texts *)

#[export] Instance utf8_dec s : Decision (utf8 s).
Proof.
  destruct (dump_escaped s) as [d |] eqn:E; [left | right]; rewrite <- dump_escaped_iff, E; [by eexists |].
  by intros [? ?].
Defined.

Lemma utf8_app s t : utf8 s -> utf8 t -> utf8 (s +:+ t).
Proof. intros Hs Ht. induction Hs; rewrite ?append_cons; [done | by econstructor ..]. Qed.

Lemma obj_emplace_valid key v o :
  utf8 key -> valid_json v -> valid_json (JObj o) -> valid_json (JObj (obj_emplace key v o)).
Proof.
  rewrite !valid_obj. intros Hk Hv [Hs Ho]. unfold obj_emplace. destruct (obj_get key o); [done |].
  by apply valid_set.
Qed.

Lemma obj_valid kvs : Forall valid_member kvs -> valid_json (obj kvs).
Proof.
  intros Hk. unfold obj. assert (H0 : valid_json (JObj [])) by by apply valid_obj; split; [constructor |].
  revert H0. generalize (@nil (string * json)). induction Hk as [| [k v] kvs [Hu Hv] _ IH]; intros o Ho; [done |].
  cbn [foldl fst snd]. by apply IH, obj_emplace_valid.
Qed.

Lemma obj_get_valid key o v : valid_json (JObj o) -> obj_get key o = Some v -> valid_json v.
Proof.
  rewrite valid_obj. intros [_ Ho]. induction Ho as [| [k w] o [_ Hw] _ IH]; [done |]. cbn.
  destruct (decide (k = key)); [by intros [= <-] | done].
Qed.

Lemma value_str_utf8 j key d s :
  valid_json j -> utf8 d -> value_str j key d = Ret s -> utf8 s.
Proof.
  intros Hj Hd. destruct j as [| | | | | | o]; try done. cbn.
  destruct (obj_get key o) as [[] |] eqn:E; try done; intros [= <-]; [| done].
  by apply (obj_get_valid _ _ _ Hj E).
Qed.

Section texts.
Context (F : Strtod) (L : StrtodLaws F) (draws : nat -> nat -> Z).
#[local] Instance text_platform : Platform := nlohmann F draws.

(** What a peer reads as a value. *)
Definition json_text (s : string) : Prop := exists j, parse s = inr j.

Lemma dump_text_ok j : valid_json j -> json_text (dump j).
Proof using L.
  intros Hj. destruct (dump_parses j Hj) as (t & Ht & Hp). exists j. cbn. rewrite Ht. cbn.
  specialize (Hp EmptyString eq_refl). by rewrite append_nil in Hp.
Qed.

Lemma line_ok j : valid_json j -> json_text (line j).
Proof using L. intros Hj. exists j. by apply nlohmann_line. Qed.

(** ** The invariant *)

Definition clean_session (s : Session) : Prop := utf8 (nickname_ s) /\ Forall json_text (write_queue_ s).

Definition clean_job (j : Job) : Prop := match j with JPostWrite msg => json_text msg | JPostTask _ => True end.

Definition clean_bg (j : BgJob) : Prop :=
  match j with BUdpBroadcast msg _ | BZoneBroadcast _ msg _ => json_text msg end.

Definition clean_op (o : Op) : Prop :=
  match o with
  | OpWrite _ msg _ => json_text msg
  | OpDb _ nickname _ => utf8 nickname
  | _ => True
  end.

(** What is sent: a frame of a text on TCP, a text on UDP. *)
Definition clean_out (o : Out) : Prop :=
  match o with
  | OTcp _ bytes => exists msg, bytes = frame (String.list_byte_of_string msg) /\ json_text msg
  | OUdp _ payload => json_text payload
  | OAlert _ => True
  end.

Record Clean (w : World) : Prop := {
  clean_heap : map_Forall (fun _ => clean_session) (w_heap w);
  clean_jobs : map_Forall (fun _ => Forall clean_job) (w_jobs w);
  clean_ops : Forall clean_op (w_ops w);
  clean_background : Forall clean_bg (w_bg w);
  clean_outs : Forall clean_out (w_out w)
}.

(** ** The triple *)

(** The invariant is kept however the handler ends; a value it returns satisfies
    [Q]. *)
Definition keeps {A} (m : P A) (Q : A -> Prop) : Prop := maintains Clean m Q.

Abbreviation kept m := (keeps m (fun _ => True)).

Lemma keeps_bind {A B} (m : P A) (k : A -> P B) R Q :
  keeps m R -> (forall a, R a -> keeps (k a) Q) -> keeps (m ≫= k) Q.
Proof using Type. apply maintains_bind. Qed.

Lemma kept_bind {A B} (m : P A) (k : A -> P B) Q :
  kept m -> (forall a, keeps (k a) Q) -> keeps (m ≫= k) Q.
Proof using Type. intros Hm Hk. eapply keeps_bind; [exact Hm | by intros a _]. Qed.

Lemma keeps_weaken {A} (m : P A) R Q : keeps m R -> (forall a, R a -> Q a) -> keeps m Q.
Proof using Type. apply maintains_weaken. Qed.

Lemma keeps_kept {A} (m : P A) Q : keeps m Q -> kept m.
Proof using Type. intros Hm. by eapply keeps_weaken. Qed.

Lemma keeps_mret {A} (a : A) (Q : A -> Prop) : Q a -> keeps (mret a) Q.
Proof using Type. apply maintains_mret. Qed.

Lemma keeps_ret {A} (a : A) (Q : A -> Prop) : Q a -> keeps (ret a) Q.
Proof using Type. apply maintains_ret. Qed.

Lemma keeps_throw {A} e (Q : A -> Prop) : keeps (throw e) Q.
Proof using Type. apply maintains_throw. Qed.

Lemma keeps_ub {A} (Q : A -> Prop) : keeps ub Q.
Proof using Type. apply maintains_ub. Qed.

Lemma keeps_lift {A} (r : res A) (Q : A -> Prop) : (forall a, r = Ret a -> Q a) -> keeps (lift r) Q.
Proof using Type. apply maintains_lift. Qed.

Lemma keeps_catch {A} (m : P A) h Q : keeps m Q -> (forall e, keeps (h e) Q) -> keeps (catch m h) Q.
Proof using Type. apply maintains_catch. Qed.

Lemma keeps_when b (m : P unit) : kept m -> kept (when b m).
Proof using Type. apply maintains_when. Qed.

Lemma keeps_for_each {A} (l : list A) (f : A -> P unit) : (forall x, kept (f x)) -> kept (for_each l f).
Proof using Type. apply maintains_for_each. Qed.

Lemma keeps_gets {A} (f : World -> A) Q : (forall w, Clean w -> Q (f w)) -> keeps (gets f) Q.
Proof using Type. apply maintains_gets. Qed.

Lemma keeps_get {A} p (f : Session -> A) (Q : A -> Prop) : (forall s, clean_session s -> Q (f s)) -> keeps (get p f) Q.
Proof using Type.
  intros HQ w Hw. unfold get. destruct (w_heap w !! p) as [s |] eqn:Hs; [| done].
  split; [by apply HQ, (clean_heap w Hw p s) | done].
Qed.

Lemma clean_insert w p s : Clean w -> clean_session s -> Clean (w <| w_heap ::= <[p := s]> |>).
Proof using Type. intros [] Hs. split; try done. by apply map_Forall_insert_2. Qed.

Lemma keeps_with_session {A} p (f : Session -> A * Session) (Q : A -> Prop) :
  (forall s, clean_session s -> Q (fst (f s)) /\ clean_session (snd (f s))) -> keeps (with_session p f) Q.
Proof using Type.
  intros Hf w Hw. unfold with_session. destruct (w_heap w !! p) as [s |] eqn:Hs; [| done].
  specialize (Hf s (clean_heap w Hw p s Hs)). destruct (f s) as [a s']. destruct Hf.
  split; [done | by apply clean_insert].
Qed.

Lemma keeps_upd p f : (forall s, clean_session s -> clean_session (f s)) -> kept (upd p f).
Proof using Type. intros Hf. apply keeps_with_session. intros s Hs. split; [done | by apply Hf]. Qed.

(** Nothing but what the invariant does not speak of. *)
Lemma modify_keeps f :
  (forall w, Clean w -> Clean (f w)) -> kept (modify f).
Proof using Type. apply maintains_modify. Qed.

Lemma keeps_nickname p : keeps (get p nickname_) utf8.
Proof using Type. apply keeps_get. by intros s []. Qed.

Lemma keeps_value_str j key d : valid_json j -> utf8 d -> keeps (lift (value_str j key d)) utf8.
Proof using Type. intros Hj Hd. apply keeps_lift. intros s. by apply value_str_utf8. Qed.

Lemma keeps_nickname_lock {A} (m : P A) Q : keeps m Q -> keeps (with_nickname_lock m) Q.
Proof using Type.
  intros Hm w Hw. unfold with_nickname_lock. destruct (nickname_locked (w_sm w)); [done |].
  set (w1 := w <| w_sm ::= _ |>). assert (H1 : Clean w1) by by destruct Hw.
  specialize (Hm w1 H1). destruct (m w1) as [[a | e |] w2]; [| by destruct Hm ..].
  destruct Hm as [Ha []]. by split.
Qed.

Lemma keeps_in_strand p m : kept m -> kept (in_strand p m).
Proof using Type.
  intros Hm w Hw. unfold in_strand. assert (H1 : Clean (w <| w_strand := Some p |>)) by by destruct Hw.
  specialize (Hm _ H1). destruct (m _) as [[a | e |] w2]; [| by destruct Hm ..].
  destruct Hm as [_ []]. by split.
Qed.

Lemma keeps_with_bucket {A} id (f : gmap Z sptr -> A * gmap Z sptr) : kept (SessionStore.with_bucket id f).
Proof using Type.
  intros w Hw. unfold SessionStore.with_bucket. destruct (_ !! _) as [b |]; [| done].
  destruct (f b). split; [done | by destruct Hw].
Qed.

Lemma keeps_start_op o : clean_op o -> kept (start_op o).
Proof using Type.
  intros Ho. apply modify_keeps. intros w []. split; try done. cbn. apply Forall_app. auto.
Qed.

Lemma emit_keeps o : clean_out o -> kept (emit o).
Proof using Type.
  intros Ho. apply modify_keeps. intros w []. split; try done. cbn. apply Forall_app. auto.
Qed.

Lemma keeps_alloc : kept alloc.
Proof using Type.
  intros w Hw. split; [done |]. pose proof (clean_insert w (w_next w) (new_session (w_now w)) Hw) as Hc.
  destruct Hc; [split; constructor | by split].
Qed.

(** The updates that clear or change the two fields. *)
Lemma keeps_cleanup p : kept (upd p cleanup).
Proof using Type. apply keeps_upd. intros s _. split; constructor. Qed.

Lemma keeps_reset p now socket id : kept (upd p (reset now socket id)).
Proof using Type. apply keeps_upd. intros s _. split; constructor. Qed.

Lemma keeps_set_nickname p n : utf8 n -> kept (upd p (set_nickname n)).
Proof using Type. intros Hn. apply keeps_upd. intros s [_ Hq]. by split. Qed.

Lemma keeps_push_write p msg : json_text msg -> kept (upd p (push_write msg)).
Proof using Type.
  intros Hm. apply keeps_upd. intros s [Hn Hq]. split; [done |]. cbn. apply Forall_app. auto.
Qed.

Lemma clean_tail s : clean_session s -> Forall json_text (tail (write_queue_ s)).
Proof using Type. intros [_ Hq]. destruct (write_queue_ s); [done |]. by apply Forall_cons in Hq as [_ ?]. Qed.

Lemma keeps_enqueue_overflow p n l : kept (with_session p (enqueue_overflow n l)).
Proof using Type.
  apply keeps_with_session. intros s Hs. pose proof (clean_tail s Hs). destruct Hs. split; [done |].
  unfold enqueue_overflow. by case_match.
Qed.

Lemma keeps_pop_write p : kept (with_session p pop_write).
Proof using Type.
  apply keeps_with_session. intros s Hs. pose proof (clean_tail s Hs). by destruct Hs.
Qed.

(** The life cycle, the task queue and the token bucket. *)
Lemma keeps_same {A} p (f : Session -> A * Session) :
  (forall s, nickname_ (snd (f s)) = nickname_ s /\ write_queue_ (snd (f s)) = write_queue_ s) ->
  kept (with_session p f).
Proof using Type.
  intros Hf. apply keeps_with_session. intros s [Hn Hq]. destruct (Hf s) as [E1 E2]. unfold clean_session.
  by rewrite E1, E2.
Qed.

Lemma cas_life_same a b s :
  nickname_ (snd (cas_life a b s)) = nickname_ s /\ write_queue_ (snd (cas_life a b s)) = write_queue_ s.
Proof using Type. unfold cas_life. by destruct (decide _). Qed.

Lemma keeps_try_close p : kept (with_session p try_close).
Proof using Type.
  apply keeps_same. intros s. unfold try_close. unfold cas_life at 1 3. destruct (decide _); [done |].
  apply cas_life_same.
Qed.

Lemma keeps_set_active p v : kept (upd p (set_active v)).
Proof using Type.
  apply keeps_upd. intros s [Hn Hq]. unfold clean_session.
  assert (Hs : nickname_ (set_active v s) = nickname_ s /\ write_queue_ (set_active v s) = write_queue_ s)
    by (destruct v; apply cas_life_same).
  by destruct Hs as [-> ->].
Qed.

Lemma keeps_check_rate p t : kept (with_session p (check_udp_rate t)).
Proof using Type. apply keeps_same. intros s. unfold check_udp_rate. by destruct (checkUdpRateLimit _ _). Qed.

Lemma keeps_pop_task p : kept (with_session p pop_task).
Proof using Type. apply keeps_same. intros s. unfold pop_task. by destruct (task_queue_ s). Qed.

Lemma keeps_next_write p :
  keeps (with_session p next_write) (fun r => match r with Some (msg, _) => json_text msg | None => True end).
Proof using Type.
  apply keeps_with_session. intros s [Hn Hq]. unfold next_write. destruct (decide _); [done |].
  destruct (write_queue_ s) as [| msg q] eqn:E; [split; [done |]; split; [done |]; cbn; by rewrite E |].
  split; [by apply Forall_cons in Hq as [? _] |]. split; [done |]. cbn. by rewrite E.
Qed.
End texts.

Create HintDb keeps discriminated.
#[export] Hint Constants Opaque : keeps.
#[export] Hint Variables Opaque : keeps.
#[export] Hint Resolve keeps_mret keeps_ret keeps_throw keeps_ub keeps_nickname keeps_value_str keeps_with_bucket
  keeps_start_op emit_keeps keeps_alloc keeps_cleanup keeps_reset keeps_set_nickname keeps_push_write
  keeps_enqueue_overflow keeps_pop_write keeps_next_write keeps_try_close keeps_set_active
  keeps_check_rate keeps_pop_task : keeps.
#[export] Hint Extern 1 (clean_op _ _ _) => exact I : keeps.
#[export] Hint Extern 1 (clean_out _ _ (OAlert _)) => exact I : keeps.
#[export] Hint Extern 1 True => exact I : keeps.

(** An update of a session that leaves the nickname and the write queue. *)
Ltac same_texts :=
  let H1 := fresh in let H2 := fresh in
  intros ? [H1 H2]; first [split; [exact H1 | exact H2] | split; [exact I | split; [exact H1 | exact H2]]].

(** One step of a handler: a known operation, or its structure. *)
Ltac keeps_atom :=
  match goal with
  | |- keeps _ _ (get _ _) _ => apply keeps_get; by intros
  | |- keeps _ _ (lift _) _ => apply keeps_lift; by intros
  | |- keeps _ _ (gets _) _ => apply keeps_gets; by intros
  | |- keeps _ _ now _ => apply keeps_gets; by intros
  | |- keeps _ _ (config_int _ _) _ => apply keeps_gets; by intros
  | |- keeps _ _ (config_size _ _) _ => apply keeps_gets; by intros
  | |- keeps _ _ (weak_lock _) _ => apply keeps_gets; by intros
  | |- keeps _ _ (get_zone _) _ => apply keeps_gets; by intros
  | |- keeps _ _ (upd _ _) _ => apply keeps_upd; same_texts
  | |- keeps _ _ (modify _) _ => apply modify_keeps; intros ? []; by split
  | |- keeps _ _ (upd_pool _) _ => apply modify_keeps; intros ? []; by split
  | |- keeps _ _ (upd_sm _) _ => apply modify_keeps; intros ? []; by split
  | |- keeps _ _ (upd_dh _) _ => apply modify_keeps; intros ? []; by split
  | |- keeps _ _ (upd_zones _) _ => apply modify_keeps; intros ? []; by split
  | |- keeps _ _ (with_session _ _) _ => apply keeps_with_session; same_texts
  end.

Ltac keeps_step :=
  first
    [ solve [eauto 3 with keeps]
    | keeps_atom
    | match goal with
      | |- keeps _ _ (mbind _ _) _ =>
          first [eapply keeps_bind; [solve [eauto 3 with keeps] |] | apply kept_bind]; cbv beta; intros
      | |- keeps _ _ (catch _ _) _ => apply keeps_catch; [| intros]
      | |- keeps _ _ (when _ _) _ => apply keeps_when
      | |- keeps _ _ (for_each _ _) _ => apply keeps_for_each; intros
      | |- keeps _ _ (with_nickname_lock _) _ => apply keeps_nickname_lock
      | |- keeps _ _ (if ?b then _ else _) _ => destruct b
      | |- keeps _ _ (match ?x with _ => _ end) _ => destruct x eqn:?
      end ].
Ltac keeps := repeat keeps_step.

Section operations.
Context (F : Strtod) (L : StrtodLaws F) (draws : nat -> nat -> Z).
Instance clean_platform : Platform := nlohmann F draws.
Abbreviation kept m := (keeps F draws m (fun _ => True)).

(** *** The leaves *)

Lemma keeps_erase_udp_mapping p ep : kept (erase_udp_mapping p ep).
Proof. unfold erase_udp_mapping. keeps. Qed.

Lemma keeps_zone_remove p : kept (ZoneManager_remove_session p).
Proof. unfold ZoneManager_remove_session. keeps. Qed.

Lemma keeps_release p : kept (release p).
Proof. unfold release, send_admin_alert. keeps. Qed.

Lemma keeps_remove_session id : kept (SessionStore.remove_session id).
Proof. unfold SessionStore.remove_session. keeps. Qed.

Lemma keeps_find_nickname n : kept (SessionStore.find_session_by_nickname n).
Proof. unfold SessionStore.find_session_by_nickname. keeps. Qed.

Lemma keeps_for_each_session f : (forall p, kept (f p)) -> kept (SessionStore.for_each_session f).
Proof. intros Hf. unfold SessionStore.for_each_session. keeps. Qed.

Lemma keeps_run_task p t : kept (run_task p t).
Proof. unfold run_task. keeps. Qed.
#[local] Hint Resolve keeps_erase_udp_mapping keeps_zone_remove keeps_release keeps_remove_session
  keeps_find_nickname keeps_for_each_session keeps_run_task : keeps.

(** *** Closing, tasks and writes *)

Lemma keeps_close_session p : kept (close_session p).
Proof. unfold close_session, DataHandler_remove_session. keeps. Qed.
#[local] Hint Resolve keeps_close_session : keeps.

Lemma keeps_run_next_task p : kept (run_next_task p).
Proof. unfold run_next_task. keeps. Qed.
#[local] Hint Resolve keeps_run_next_task : keeps.

Lemma keeps_post_task_body p t : kept (post_task_body p t).
Proof. unfold post_task_body. keeps. Qed.

Lemma keeps_enqueue_write p msg : json_text F draws msg -> kept (enqueue_write p msg).
Proof. intros Hm. unfold enqueue_write. keeps. Qed.

Lemma keeps_do_write_queue p : kept (do_write_queue p).
Proof.
  unfold do_write_queue. eapply keeps_bind; [apply keeps_next_write |]. intros [[msg gen] |] Hm; [| keeps].
  apply kept_bind; [by apply keeps_start_op |]. intros _. apply kept_bind; [keeps |].
  intros [conn |]; [| keeps]. unfold send_prefixed. apply kept_bind; [keeps |].
  intros []; [keeps |]. apply emit_keeps. by exists msg.
Qed.
#[local] Hint Resolve keeps_post_task_body keeps_enqueue_write keeps_do_write_queue : keeps.

Lemma keeps_on_write_complete p gen ok : kept (on_write_complete p gen ok).
Proof. unfold on_write_complete. keeps. Qed.

Lemma keeps_run_job p j : clean_job F draws j -> kept (run_job p j).
Proof. intros Hj. destruct j; cbn [run_job]; [unfold post_write_body |]; keeps. Qed.

Lemma keeps_enqueue_job p j : clean_job F draws j -> kept (enqueue_job p j).
Proof.
  intros Hj. apply modify_keeps. intros w [Hh Hjobs]. split; try done. cbn.
  apply map_Forall_insert_2; [| done]. apply Forall_app. split; [| by constructor].
  destruct (w_jobs w !! p) eqn:E; [by apply (Hjobs p) | constructor].
Qed.

Lemma keeps_dispatch_strand p j : clean_job F draws j -> kept (dispatch_strand p j).
Proof.
  intros Hj. unfold dispatch_strand. keeps_step; [keeps |]. destruct a; [by apply keeps_run_job | by apply keeps_enqueue_job].
Qed.

Lemma keeps_post_write p msg : json_text F draws msg -> kept (post_write p msg).
Proof. intros Hm. by apply keeps_dispatch_strand. Qed.

Lemma keeps_post_task p t : kept (post_task p t).
Proof. by apply keeps_dispatch_strand. Qed.
#[local] Hint Resolve keeps_on_write_complete keeps_post_write keeps_post_task : keeps.

Lemma keeps_do_read p : kept (do_read p).
Proof. unfold do_read, get_handler_safe. keeps. Qed.

Lemma keeps_start_login_timeout p : kept (start_login_timeout p).
Proof. unfold start_login_timeout. keeps. Qed.
#[local] Hint Resolve keeps_do_read keeps_start_login_timeout : keeps.
(** *** Messages

    A text of the source, and an object built of well-formed strings. *)

Ltac constant_text := eexists; vm_compute; reflexivity.
Ltac well_formed_text :=
  lazymatch goal with
  | |- utf8 (_ +:+ _) => apply utf8_app; well_formed_text
  | |- _ => first [eassumption | apply (bool_decide_unpack _); vm_compute; exact I]
  end.
Ltac valid_object :=
  apply obj_valid;
  repeat (apply Forall_cons_2; [split; cbn [fst snd valid_json]; [well_formed_text | try well_formed_text] |]);
  try apply Forall_nil_2.

Lemma keeps_on_login_timeout p : kept (on_login_timeout p).
Proof.
  unfold on_login_timeout. assert (json_text F draws login_timeout_notice) by constant_text. keeps.
Qed.

Lemma keeps_evict prev s msg : json_text F draws msg -> kept (evict prev s msg).
Proof. intros Hm. unfold evict. keeps. Qed.

Lemma keeps_register_nickname n p : kept (register_nickname n p).
Proof. unfold register_nickname. assert (json_text F draws other_login_notice) by constant_text. keeps. Qed.

Lemma keeps_add_session p : kept (add_session p).
Proof. unfold add_session, replaced_session. keeps. Qed.

Lemma keeps_post_to_all msg l : json_text F draws msg -> kept (post_to_all msg l).
Proof. intros Hm. unfold post_to_all. keeps. Qed.
#[local] Hint Resolve keeps_evict keeps_register_nickname keeps_add_session keeps_post_to_all : keeps.

Lemma keeps_broadcast msg id : json_text F draws msg -> kept (broadcast msg id).
Proof. intros Hm. unfold broadcast. keeps. Qed.

Lemma keeps_broadcast_zone msg z id : json_text F draws msg -> kept (broadcast_zone_tcp msg z id).
Proof. intros Hm. unfold broadcast_zone_tcp. keeps. Qed.

Lemma keeps_assign_zone p z : kept (assign_session_to_zone p z).
Proof. unfold assign_session_to_zone. keeps. Qed.
#[local] Hint Resolve keeps_broadcast keeps_broadcast_zone keeps_assign_zone : keeps.

Ltac written_text :=
  unfold notice_msg, error_msg, chat_msg_of, left_notice, entered_notice, login_success_msg, udp_error, manager_error;
  lazymatch goal with
  | |- json_text _ _ (line _) => apply line_ok; [exact L | valid_object; try exact I]
  | |- json_text _ _ (dump _) => apply dump_text_ok; [exact L | valid_object; try exact I]
  | |- json_text _ _ ?s => tryif (match s with context [?x] => is_var x end) then fail else constant_text
  end.
#[local] Hint Extern 2 (json_text _ _ _) => solve [written_text] : keeps.
#[local] Hint Extern 2 (utf8 _) => solve [well_formed_text] : keeps.

(** *** LoginFlow and the message handlers *)

Lemma keeps_complete_success p n : utf8 n -> kept (complete_success p n).
Proof using L. intros Hn. unfold complete_success. keeps. Qed.

Lemma keeps_complete_fail p reason : utf8 reason -> kept (complete_fail p reason).
Proof using L. intros Hr. unfold complete_fail. keeps. Qed.
#[local] Hint Resolve keeps_complete_success keeps_complete_fail : keeps.

Lemma keeps_on_user_info_ok p n j : utf8 n -> kept (on_user_info_ok p n j).
Proof using L.
  intros Hn. unfold on_user_info_ok. keeps.
Qed.
#[local] Hint Resolve keeps_on_user_info_ok : keeps.

Lemma keeps_on_user_info_fail p j : valid_json j -> kept (on_user_info_fail p j).
Proof using L. intros Hj. unfold on_user_info_fail. destruct j; keeps. Qed.
#[local] Hint Resolve keeps_on_user_info_fail : keeps.

Lemma keeps_request_user_info p n : utf8 n -> kept (request_user_info p n).
Proof using L.
  intros Hn. unfold request_user_info. keeps. apply keeps_on_user_info_fail. by valid_object.
Qed.

Lemma keeps_on_db_ok p n j : utf8 n -> kept (on_db_ok p n j).
Proof using L. apply keeps_on_user_info_ok. Qed.

Lemma keeps_on_db_error p j : valid_json j -> kept (on_db_error p j).
Proof using L. intros Hj. unfold on_db_error. keeps. Qed.

Lemma keeps_login_handler p msg : valid_json msg -> kept (login_handler p msg).
Proof using L.
  intros Hj. unfold login_handler, begin.
  eapply keeps_bind; [apply keeps_value_str; [done | well_formed_text] |]. intros n Hn.
  pose proof (keeps_request_user_info p n Hn). keeps.
Qed.

Lemma keeps_logout_handler p msg : kept (logout_handler p msg).
Proof using L. unfold logout_handler. keeps. Qed.

Lemma keeps_chat_handler p msg : valid_json msg -> kept (chat_handler p msg).
Proof using L. intros Hj. unfold chat_handler. keeps. Qed.

Lemma keeps_chatzone_handler p msg : valid_json msg -> kept (chatzone_handler p msg).
Proof using L. intros Hj. unfold chatzone_handler. keeps. Qed.

Lemma keeps_keepalive_handler p msg : kept (keepalive_handler p msg).
Proof using Type. unfold keepalive_handler. keeps. Qed.

Lemma keeps_tcp_handler type handler p msg :
  handlers_ !! type = Some handler -> valid_json msg -> kept (handler p msg).
Proof using L.
  unfold handlers_, register_handler. intros Hh Hj.
  apply lookup_insert_Some in Hh as [[_ <-] | [_ Hh]]; [apply keeps_keepalive_handler |].
  apply lookup_insert_Some in Hh as [[_ <-] | [_ Hh]]; [by apply keeps_chatzone_handler |].
  apply lookup_insert_Some in Hh as [[_ <-] | [_ Hh]]; [by apply keeps_chat_handler |].
  apply lookup_insert_Some in Hh as [[_ <-] | [_ Hh]]; [by apply keeps_logout_handler |].
  apply lookup_insert_Some in Hh as [[_ <-] | [_ Hh]]; [by apply keeps_login_handler |].
  by rewrite lookup_empty in Hh.
Qed.

#[local] Hint Resolve keeps_tcp_handler : keeps.

Lemma keeps_dispatch p msg : valid_json msg -> kept (dispatch p msg).
Proof using L.
  intros Hj. unfold dispatch. keeps.
Qed.
#[local] Hint Resolve keeps_dispatch : keeps.

(** *** Reading *)

Lemma keeps_parse_json msg : keeps F draws (parse_json msg) valid_json.
Proof using L.
  unfold parse_json. destruct (parse msg) as [e | j] eqn:E; [apply keeps_throw |].
  apply keeps_mret. by apply (parse_valid msg).
Qed.
#[local] Hint Resolve keeps_parse_json : keeps.

Lemma keeps_handle_message p bytes : kept (handle_message p bytes).
Proof using L. unfold handle_message. keeps. Qed.
#[local] Hint Resolve keeps_handle_message : keeps.

Lemma keeps_take_message p : kept (with_session p take_message).
Proof using Type.
  apply keeps_same. intros s. unfold take_message. by destruct (extract_message _).
Qed.
#[local] Hint Resolve keeps_take_message : keeps.

Lemma keeps_read_messages fuel p : kept (read_messages fuel p).
Proof using L. induction fuel as [| fuel IH]; cbn [read_messages]; keeps. Qed.
#[local] Hint Resolve keeps_read_messages : keeps.

Lemma keeps_on_read p r : kept (on_read p r).
Proof using L. unfold on_read, on_data, on_disconnect. keeps. Qed.

(** *** UDP *)

Lemma token_utf8 n k : utf8 (token_from n k).
Proof using Type.
  induction k as [| k IH]; [constructor |]. cbn [token_from]. apply utf8_app; [done |].
  unfold Dispatcher.hex_char. generalize (Z.to_nat (draw n k)). intros i.
  do 16 (destruct i as [| i]; [well_formed_text |]). constructor.
Qed.

Lemma keeps_send msg ep : json_text F draws msg -> kept (async_send_to msg ep).
Proof using Type. intros Hm. by apply emit_keeps. Qed.
#[local] Hint Resolve keeps_send : keeps.

Lemma keeps_zone_for_each z f : (forall p, kept (f p)) -> kept (Zone_for_each_session z f).
Proof using Type. intros Hf. unfold Zone_for_each_session. keeps. Qed.

Lemma keeps_push_background j : clean_bg F draws j -> kept (modify (fun w => w <| w_bg ::= fun q => q ++ [j] |>)).
Proof using Type.
  intros Hj. apply modify_keeps. intros w []. split; try done. cbn. apply Forall_app. auto.
Qed.

Lemma keeps_run_zone_broadcast z msg n : json_text F draws msg -> kept (run_zone_broadcast z msg n).
Proof using Type. intros Hm. unfold run_zone_broadcast. keeps. Qed.

Lemma keeps_run_udp_broadcast msg n : kept (run_udp_broadcast msg n).
Proof using L. unfold run_udp_broadcast. apply keeps_for_each_session. intros p. keeps. Qed.
#[local] Hint Resolve keeps_zone_for_each keeps_push_background keeps_run_zone_broadcast keeps_run_udp_broadcast : keeps.

Lemma keeps_token : keeps F draws generate_random_token utf8.
Proof using Type.
  unfold generate_random_token. keeps_step; [by apply keeps_gets |]. keeps_step; [keeps |]. apply keeps_mret, token_utf8.
Qed.

Lemma keeps_send_to_member n msg p : json_text F draws msg -> kept (send_to_member n msg p).
Proof using Type. intros Hm. unfold send_to_member. keeps. Qed.
#[local] Hint Resolve keeps_token keeps_send_to_member : keeps.

Lemma keeps_udp_handler type handler p msg from :
  udp_handlers_ !! type = Some handler -> valid_json msg -> kept (handler p msg from).
Proof using L.
  unfold udp_handlers_, register_udp_handler. intros Hh Hj.
  apply lookup_insert_Some in Hh as [[_ <-] | [_ Hh]]; [unfold Udpbroadcastzone_handler; keeps |].
  apply lookup_insert_Some in Hh as [[_ <-] | [_ Hh]].
  { unfold Udpregister_handler. keeps. }
  apply lookup_insert_Some in Hh as [[_ <-] | [_ Hh]].
  { unfold Udpbroadcast_handler, udp_broadcast. pose proof (dump_text_ok F L draws msg Hj). keeps. }
  apply lookup_insert_Some in Hh as [[_ <-] | [_ Hh]]; [unfold Udp_handler; keeps |].
  by rewrite lookup_empty in Hh.
Qed.
#[local] Hint Resolve keeps_udp_handler : keeps.

Lemma keeps_dispatch_udp_parsed p msg from : valid_json msg -> kept (dispatch_udp_parsed p msg from).
Proof using L. intros Hj. unfold dispatch_udp_parsed. keeps. Qed.

Lemma udp_error_text code text : utf8 code -> utf8 text -> json_text F draws (udp_error code text).
Proof using L. intros Hc Ht. written_text. Qed.

Lemma keeps_check_token p token from :
  keeps F draws (check_token p token from) (fun r => match r with Some answer => json_text F draws answer | None => True end).
Proof using L.
  unfold check_token. keeps_step; [keeps |]. destruct (_ || _).
  - apply keeps_mret. case_decide; apply udp_error_text; well_formed_text.
  - keeps_step; [keeps |]. keeps_step; [keeps |]. destruct (negb _).
    + keeps_step; [keeps |]. apply keeps_mret, udp_error_text; well_formed_text.
    + keeps_step; [keeps |]. apply keeps_mret. case_decide; [done |]. apply udp_error_text; well_formed_text.
Qed.

(** The answer of step 5, if any. *)
Lemma keeps_rejected (b : bool) p token from :
  keeps F draws (if b then mret None else check_token p token from)
    (fun r => match r with Some answer => json_text F draws answer | None => True end).
Proof using L. destruct b; [by apply keeps_mret | apply keeps_check_token]. Qed.

Lemma keeps_evict_endpoint p from : kept (evict_endpoint p from).
Proof using Type. unfold evict_endpoint. keeps. Qed.

Lemma keeps_admit_packet tid : kept (admit_packet tid).
Proof using Type. unfold admit_packet. keeps. Qed.

Lemma keeps_count_packet : kept count_packet.
Proof using Type. unfold count_packet. keeps. Qed.
#[local] Hint Resolve keeps_dispatch_udp_parsed keeps_check_token keeps_evict_endpoint keeps_admit_packet
  keeps_count_packet : keeps.

Lemma keeps_rebind_endpoint p from : kept (rebind_endpoint p from).
Proof using Type. unfold rebind_endpoint. keeps. Qed.
#[local] Hint Resolve keeps_rebind_endpoint : keeps.

Lemma keeps_on_udp_receive tid msg from : kept (on_udp_receive tid msg from).
Proof using L.
  unfold on_udp_receive. keeps_step. destruct a; cbn [negb]; [| keeps]. keeps_step.
  destruct (try_parse_json msg) as [j |] eqn:Ej; [| keeps].
  assert (Hj : valid_json j).
  { unfold try_parse_json in Ej. destruct (parse msg) as [| j'] eqn:E; [done |]. injection Ej as ->.
    by apply (parse_valid msg). }
  do 3 (eapply keeps_bind; [by apply keeps_value_str; [| constructor] |]; intros ? ?).
  destruct (decide _); [keeps |]. apply kept_bind; [keeps |]. intros [p |]; [| keeps].
  eapply keeps_bind; [by apply keeps_rejected |]. intros [answer |] Ha; [by apply keeps_send |].
  pose proof (udp_error_text "RATE_LIMIT" "UDP rate limit exceeded"
                ltac:(well_formed_text) ltac:(well_formed_text)). keeps.
Qed.
#[local] Hint Resolve keeps_on_udp_receive : keeps.

Lemma keeps_on_receive tid ok data from : kept (on_receive tid ok data from).
Proof using L. unfold on_receive, on_bad_json, over_rate, getSessionByEndpoint, start_receive. keeps. Qed.

(** *** Accepting and the timers *)

Lemma keeps_close_all l : kept (for_each l close_session).
Proof using Type. keeps. Qed.

Lemma keeps_acquire socket id : kept (acquire socket id).
Proof using Type. unfold acquire, take_index. keeps. Qed.
#[local] Hint Resolve keeps_acquire : keeps.

Lemma keeps_on_accept socket : kept (on_accept socket).
Proof using Type.
  unfold on_accept, serve, DataHandler_add_session, cleanup_unauth_sessions, start, start_accept. keeps.
Qed.

Lemma keeps_expire timeout : kept (expire_stale_udp_endpoints timeout).
Proof using Type. apply keeps_for_each_session. intros p. unfold expire_one. keeps. Qed.
#[local] Hint Resolve keeps_expire : keeps.

Lemma keeps_on_timer t : kept (on_timer t).
Proof using Type.
  destruct t; cbn [on_timer];
    unfold on_keepalive_timer, do_keepalive_check, start_keepalive_loop,
      on_monitor_timer, SessionStore.get_total_session_count, count_active, start_monitor_loop,
      on_cleanup_timer, cleanup_inactive_sessions, start_cleanup_loop; keeps.
Qed.

Lemma keeps_construct n : kept (construct n).
Proof using Type. induction n as [| n IH]; cbn [construct]; keeps. Qed.
#[local] Hint Resolve keeps_construct : keeps.

Lemma keeps_boot : kept boot.
Proof using Type.
  unfold boot, DataHandler_init, start_keepalive_loop, start_monitor_loop, start_cleanup_loop, set_session_pool,
    start_accept, start_receive. keeps.
Qed.

(** ** The system *)

(** The answers of the database are values of [json::parse], or strings of
    Protobuf messages. *)
Definition valid_event (e : Event) : Prop :=
  match e with
  | EvDbOk _ _ _ j | EvDbError _ _ _ j => valid_json j
  | _ => True
  end.

Lemma keeps_pop_job p : kept (pop_job p).
Proof using Type.
  eapply (keeps_bind _ _ _ _ (Forall (clean_job F draws))).
  { apply keeps_gets. intros w [_ Hj]. destruct (w_jobs w !! p) eqn:E; [by apply (Hj p) | constructor]. }
  intros [| j rest] Hjobs; [keeps |]. apply Forall_cons in Hjobs as [Hj Hrest]. apply kept_bind.
  - apply modify_keeps. intros w []. split; try done. by apply map_Forall_insert_2.
  - intros _. by apply keeps_in_strand, keeps_run_job.
Qed.

Lemma take_background_clean j l l' :
  take_background j l = Some l' -> Forall (clean_bg F draws) l -> clean_bg F draws j /\ Forall (clean_bg F draws) l'.
Proof using Type.
  revert l'. induction l as [| x l IH]; intros l' Ht Hl; [done |]. cbn in Ht. apply Forall_cons in Hl as [Hx Hl].
  destruct (decide _).
  - destruct (decide _) as [-> |]; [by injection Ht as <- | done].
  - destruct (take_background j l) as [l2 |]; [| done]. injection Ht as <-.
    destruct (IH l2 eq_refl Hl). split; [done | by constructor].
Qed.

Lemma remove_op_clean o l : Forall (clean_op F draws) l -> Forall (clean_op F draws) (remove_op o l).
Proof using Type.
  induction 1 as [| x l Hx Hl IH]; [constructor |]. cbn. destruct (decide _); [done | by constructor].
Qed.

Lemma keeps_finish_op o : kept (finish_op o).
Proof using Type. apply modify_keeps. intros w []. split; try done. by apply remove_op_clean. Qed.

Lemma keeps_exec (m : P unit) w : kept m -> Clean F draws w -> Clean F draws (snd (m w)).
Proof using Type. apply maintains_exec. Qed.

Lemma keeps_run_background j : clean_bg F draws j -> kept (run_background j).
Proof using L. intros Hj. destruct j; cbn [run_background]; keeps. Qed.

Lemma is_background e : (exists j, e = EvBackground j) \/ forall j, e <> EvBackground j.
Proof using Type. destruct e; try (right; by intros ? [=]). left. by eexists. Qed.

Lemma run_background_clean j w :
  enabled (EvBackground j) w = true -> Clean F draws w -> Clean F draws (snd (run_event (EvBackground j) w)).
Proof using L.
  intros He Hw. cbn in He. destruct (take_background j (w_bg w)) as [l |] eqn:E; [| done].
  destruct (take_background_clean j _ l E (clean_background _ _ w Hw)) as [Hj Hl].
  change (snd (run_event (EvBackground j) w)) with
    (snd (run_background j (w <| w_bg := default (w_bg w) (take_background j (w_bg w)) |>))).
  rewrite E. apply keeps_exec; [by apply keeps_run_background |]. destruct Hw. by split.
Qed.

Lemma run_event_clean e w :
  enabled e w = true -> valid_event e -> Clean F draws w -> Clean F draws (snd (run_event e w)).
Proof using L.
  intros He Hv Hw.
  assert (Hop : forall o, completes e = Some o -> clean_op F draws o).
  { intros o Ho. unfold enabled in He. rewrite Ho in He. apply andb_true_iff in He as [He _].
    apply bool_decide_eq_true in He. pose proof (clean_ops _ _ w Hw) as Hops. rewrite Forall_forall in Hops. auto. }
  destruct (is_background e) as [[j ->] | Hnb]; [by apply run_background_clean |].
  unfold run_event. destruct e; cbn [completes handler_of valid_event] in *; try (by destruct (Hnb j));
    (apply keeps_exec; [| exact Hw]; apply kept_bind; [first [apply keeps_finish_op | keeps] | intros []]).
  - apply keeps_on_accept.
  - by apply keeps_in_strand, keeps_on_read.
  - apply keeps_in_strand. keeps.
  - apply keeps_on_receive.
  - apply keeps_on_timer.
  - apply keeps_in_strand, keeps_on_login_timeout.
  - apply keeps_on_db_ok. by apply (Hop _ eq_refl).
  - by apply keeps_on_db_error.
  - apply keeps_pop_job.
  - keeps.
  - keeps.
  - keeps.
  - keeps.
Qed.

(** ** Every reachable state *)

Context (c : gmap string Z) (hardware now : Z).

Inductive runs : Sys -> Prop :=
| runs_initial : runs (initial c hardware now)
| runs_step s e s' : runs s -> step s e s' -> valid_event e -> runs s'.

Lemma runs_clean s : runs s -> Clean F draws (s_world s).
Proof using L.
  induction 1 as [| s e s' _ IH Hstep Hv].
  - cbn. apply keeps_exec; [apply keeps_boot |]. by split; try constructor.
  - destruct Hstep as [w n e w' He Hr | w n e x w' He Hr | w n]; cbn [s_world] in *; [| | done];
      pose proof (run_event_clean e w He Hv IH) as Hc; by rewrite Hr in Hc.
Qed.

Lemma run_events_runs es s s' :
  runs s -> Forall valid_event es -> run_events es s = Some s' -> runs s'.
Proof using Type.
  intros Hs Hv. revert s Hs. induction Hv as [| e es He _ IH]; cbn [run_events]; intros s Hs; [by intros [= <-] |].
  destruct (run_one e s) as [s1 |] eqn:E; [| done]. apply IH.
  eapply runs_step; [exact Hs | by apply run_one_step | done].
Qed.

(** Whatever the clients, the datagrams and the database send, and in
    whatever order, what the server writes is JSON: every payload sent over UDP
    is a text that json.hpp parses, every sequence of bytes sent over TCP is a
    frame of one, and so is every message in a write queue, in a posted lambda
    or in a write under way.  In particular no [dump] of the server throws on
    ill-formed UTF-8. *)
Theorem everything_written_is_json s :
  runs s ->
  (forall ep payload, OUdp ep payload ∈ w_out (s_world s) -> json_text F draws payload) /\
  (forall conn bytes, OTcp conn bytes ∈ w_out (s_world s) ->
     exists msg, bytes = frame (String.list_byte_of_string msg) /\ json_text F draws msg) /\
  (forall p t, w_heap (s_world s) !! p = Some t -> utf8 (nickname_ t) /\ Forall (json_text F draws) (write_queue_ t)) /\
  (forall p jobs msg, w_jobs (s_world s) !! p = Some jobs -> JPostWrite msg ∈ jobs -> json_text F draws msg) /\
  (forall p msg gen, OpWrite p msg gen ∈ w_ops (s_world s) -> json_text F draws msg).
Proof using L.
  intros [Hheap Hjobs Hops _ Hout]%runs_clean. rewrite Forall_forall in Hops. rewrite Forall_forall in Hout.
  split; [intros ep payload Ho; apply (Hout _ Ho) |]. split; [intros conn bytes Ho; apply (Hout _ Ho) |].
  split; [intros p t Ht; apply (Hheap p t Ht) |]. split; [| intros p msg gen Ho; apply (Hops _ Ho)].
  intros p jobs msg Hp Hm. specialize (Hjobs p jobs Hp). cbv beta in Hjobs. rewrite Forall_forall in Hjobs.
  apply (Hjobs _ Hm).
Qed.
End operations.

(** The run of [System]: a login, a registration over UDP and a chat message. *)
Lemma everything_written_is_json_witness :
  runs exact_strtod exact_draws demo_config 4 1 demo_served /\
  (exists conn bytes rest, w_out (s_world demo_served) = OTcp conn bytes :: rest /\
     exists msg, bytes = frame (String.list_byte_of_string msg) /\ json_text exact_strtod exact_draws msg).
Proof.
  assert (Hr : runs exact_strtod exact_draws demo_config 4 1 demo_served).
  { apply (run_events_runs exact_strtod exact_draws demo_config 4 1 demo_events demo_start);
      [apply runs_initial | by repeat constructor |]. vm_compute. reflexivity. }
  split; [exact Hr |].
  pose proof (proj1 (proj2 (everything_written_is_json exact_strtod exact_strtod_laws exact_draws demo_config 4 1
    demo_served Hr))) as Hout.
  destruct (w_out (s_world demo_served)) as [| [conn bytes | ep payload | text] rest] eqn:E;
    [vm_compute in E; discriminate | | vm_compute in E; discriminate | vm_compute in E; discriminate].
  exists conn, bytes, rest. split; [reflexivity |]. apply (Hout conn bytes). constructor.
Defined.
