(* ===== verification/DbTextSpec.v ===== *)
(** * Everything on the link to the database is JSON

    The counterpart of [TextSpec] for the link: every frame it queues, writes or
    has written carries a text that [json::parse] accepts, behind the secret if
    it is a secured one, and every value it hands to a callback or a promise is
    one that [json::parse] can return, whatever bytes the middleware sends.  Of
    the generated code it is used that Protobuf strings are UTF-8 and an [int32]
    is one, which its parser checks. *)
From Stdlib Require Import ZArith Lia Strings.Byte.
From stdpp Require Import base gmap sets list strings pretty.
From S2P Require Import Prelude MessageBuffer RateLimit Json JsonString JsonLexer JsonDecimal JsonStrtod JsonPrinter.
From S2P Require Import JsonValid JsonRoundtrip JsonPlatform DbLink DbClient DbRouter DbSystem TextSpec.

Open Scope Z_scope.

(** ** Numbers are text *)

Lemma utf8_pretty_N_go x : forall acc, utf8 acc -> utf8 (pretty_N_go x acc).
Proof.
  induction (N.lt_wf_0 x) as [x _ IH]. intros acc Ha. destruct (decide (0 < x)%N) as [Hx |].
  - rewrite pretty_N_go_step by done. apply IH; [by apply N.div_lt |]. apply utf8_one; [| done].
    unfold pretty_N_char. repeat case_match; done.
  - by replace x with 0%N by lia.
Qed.

Lemma utf8_pretty_N (x : N) : utf8 (pretty x).
Proof.
  unfold pretty, pretty_N. destruct (decide (x = 0%N)); [by repeat constructor |].
  apply utf8_pretty_N_go. constructor.
Qed.

Lemma utf8_pretty_Z (z : Z) : utf8 (pretty z).
Proof.
  destruct z as [| p | p]; [apply (utf8_pretty_N 0) | apply (utf8_pretty_N (N.pos p)) |].
  apply (utf8_app "-" (pretty (N.pos p))); [by repeat constructor | apply utf8_pretty_N].
Qed.

(** ** Protobuf *)

Definition envelope_ok (env : Envelope) : Prop :=
  match env with
  | PbServerLoginAck result nickname => utf8 result /\ utf8 nickname
  | PbDbQueryResult req_id code api data_json =>
      utf8 req_id /\ - 2 ^ 31 <= code < 2 ^ 31 /\ utf8 api /\ utf8 data_json
  | PbError req_id code msg => utf8 req_id /\ - 2 ^ 31 <= code < 2 ^ 31 /\ utf8 msg
  | PbKeepaliveAck | PbUnhandled => True
  end.

(** The checks of the generated parser (proto3). *)
Class WireLaws `{Wire} := { parsed_ok : forall bytes env, ParseFromArray bytes = Some env -> envelope_ok env }.

Lemma member_valid key v o : utf8 key -> valid_json v -> valid_json (JObj o) -> valid_json (JObj (obj_set key v o)).
Proof.
  rewrite !valid_obj. intros Hk Hv [Hs Ho]. destruct (obj_set_valid key v o Hs Ho (conj Hk Hv)) as (? & ? & _). done.
Qed.

Section link.
Context (F : Strtod) (Laws : StrtodLaws F) (draws : nat -> nat -> Z).
#[local] Instance link_platform : Platform := nlohmann F draws.
Context `{WL : WireLaws} (cfg : Settings) (Hname : utf8 (server_login_nickname_ cfg)).
Abbreviation text := (json_text F draws).

(** ** The invariant *)

(** A frame of a JSON text, or of one behind the secret. *)
Definition link_frame (data : list byte) : Prop :=
  exists t, text t /\
    (data = frame (String.list_byte_of_string t) \/
     data = frame (String.list_byte_of_string (secret_ cfg +:+ t))).

Definition link_op (o : DbOp) : Prop := match o with DbWrite _ data => link_frame data | _ => True end.

Definition link_out (o : DbOut) : Prop :=
  match o with
  | DbSend data => link_frame data
  | DbPromise _ j | DbCallback _ j => valid_json j
  | DbAlert _ => True
  end.

Definition pending_ok (id : string) (p : Pending) : Prop := utf8 id /\ valid_json (request_json p).

Record Texts (d : Db) : Prop := {
  texts_queue : Forall link_frame (write_queue_ (d_client d));
  texts_pending : map_Forall pending_ok (pending_ (d_router d));
  texts_ops : Forall link_op (d_ops d);
  texts_out : Forall link_out (d_out d)
}.

Abbreviation holds := (maintains Texts).
Abbreviation held m := (maintains Texts m (fun _ => True)).

Lemma held_bind {A B} (m : L A) (k : A -> L B) Q : held m -> (forall a, holds (k a) Q) -> holds (m ≫= k) Q.
Proof using Type. intros Hm Hk. eapply maintains_bind; [exact Hm | by intros a _]. Qed.

(** ** The operations *)

Lemma held_client f :
  (forall c, write_queue_ (f c) = write_queue_ c) -> held (upd_client f).
Proof using Type. intros Hf. apply maintains_modify. intros d []. split; try done. cbn. by rewrite Hf. Qed.

Lemma held_router f : (forall r, pending_ (f r) = pending_ r) -> held (upd_router f).
Proof using Type. intros Hf. apply maintains_modify. intros d []. split; try done. cbn. by rewrite Hf. Qed.

Lemma held_pending f :
  (forall m : gmap string Pending, map_Forall pending_ok m -> map_Forall pending_ok (f m)) ->
  held (upd_router (fun r => r <| pending_ ::= f |>)).
Proof using Type. intros Hf. apply maintains_modify. intros d []. split; try done. by apply Hf. Qed.

Lemma held_start_op o : link_op o -> held (start_db_op o).
Proof using Type. intros Ho. apply maintains_modify. intros d []. split; try done. cbn. apply Forall_app. auto. Qed.

Lemma held_emit o : link_out o -> held (db_emit o).
Proof using Type. intros Ho. apply maintains_modify. intros d []. split; try done. cbn. apply Forall_app. auto. Qed.

Lemma holds_find id : holds (find_pending id) (fun p => match p with Some p => pending_ok id p | None => True end).
Proof using Type.
  apply maintains_gets. intros d []. destruct (pending_ (d_router d) !! id) eqn:E; [| done]. by apply texts_pending0.
Qed.

Lemma holds_queue : holds (client write_queue_) (Forall link_frame).
Proof using Type. apply maintains_gets. by intros d []. Qed.

Lemma held_gets {A} (f : Db -> A) : held (gets f).
Proof using Type. by apply maintains_gets. Qed.

Lemma held_pop_queue rest : Forall link_frame rest -> held (upd_client (fun c => c <| write_queue_ := rest |>)).
Proof using Type. intros Hr. apply maintains_modify. intros d []. by split. Qed.

Lemma held_push_queue data : link_frame data -> held (upd_client (fun c => c <| write_queue_ ::= fun q => q ++ [data] |>)).
Proof using Type.
  intros Hd. apply maintains_modify. intros d []. split; try done. cbn. apply Forall_app. auto.
Qed.

Lemma pending_insert id p (m : gmap string Pending) : pending_ok id p -> map_Forall pending_ok m -> map_Forall pending_ok (<[id := p]> m).
Proof using Type. intros Hp Hm. by apply map_Forall_insert_2. Qed.
End link.

Create HintDb texts discriminated.
#[export] Hint Constants Opaque : texts.
#[export] Hint Variables Opaque : texts.
#[export] Hint Resolve maintains_mret maintains_ret maintains_throw maintains_ub held_start_op held_emit holds_find
  holds_queue held_pop_queue held_push_queue : texts.
#[export] Hint Extern 1 (link_op _ _ _ _) => exact I : texts.
#[export] Hint Extern 1 (link_out _ _ _ (DbAlert _)) => exact I : texts.
#[export] Hint Extern 1 True => exact I : texts.

(** One step of an operation of the link: one that is known, a part, or its
    definition. *)
Ltac holds_step :=
  first
    [ solve [eauto 3 with texts]
    | lazymatch goal with
      | |- forall _, _ => intro
      | |- maintains _ (mbind _ _) _ =>
          first [eapply maintains_bind; [solve [eauto 3 with texts] |] | apply held_bind]; cbv beta; intros
      | |- maintains _ (catch _ _) _ => apply maintains_catch; [| intros]
      | |- maintains _ (when _ _) _ => apply maintains_when
      | |- maintains _ (if ?b then _ else _) _ => destruct b
      | |- maintains _ (match ?x with _ => _ end) _ => destruct x eqn:?
      | |- maintains _ (lift _) _ => apply maintains_lift; by intros
      | |- maintains _ (client _) _ => apply maintains_gets; by intros
      | |- maintains _ (router _) _ => apply maintains_gets; by intros
      | |- maintains _ (gets _) _ => apply maintains_gets; by intros
      | |- maintains _ (upd_client _) _ => apply held_client; reflexivity
      | |- maintains _ (upd_router _) _ => apply held_router; reflexivity
      | |- maintains _ (modify _) _ => apply maintains_modify; intros ? []; by split
      | |- maintains _ ?m _ => let h := head_of m in progress (unfold h; cbv beta zeta)
      end ].
Ltac holds_texts := repeat holds_step.

Section link_operations.
Context (F : Strtod) (Laws : StrtodLaws F) (draws : nat -> nat -> Z).
#[local] Instance operations_platform : Platform := nlohmann F draws.
Context `{WL : WireLaws} (cfg : Settings) (Hname : utf8 (server_login_nickname_ cfg)).
Abbreviation text := (json_text F draws).
Abbreviation holds m Q := (maintains (Texts F draws cfg) m Q).
Abbreviation held m := (maintains (Texts F draws cfg) m (fun _ => True)).

(** ** Writing *)

Lemma held_flush : held flush_write_queue.
Proof using Type.
  unfold flush_write_queue. eapply maintains_bind; [apply holds_queue |]. intros [| data q] Hq; [holds_texts |].
  apply Forall_cons in Hq as [Hd _]. holds_texts; (apply held_start_op || apply held_emit); exact Hd.
Qed.
#[local] Hint Resolve held_flush : texts.

Lemma held_on_write ok : held (on_write ok).
Proof using Type.
  unfold on_write. destruct ok; cbn [negb]; [| holds_texts].
  eapply maintains_bind; [apply holds_queue |]. intros [| data q] Hq; [holds_texts |].
  apply Forall_cons in Hq as [_ Hq]. holds_texts.
Qed.

Lemma held_send_framed body :
  link_frame F draws cfg (frame (String.list_byte_of_string body)) -> held (send_framed body).
Proof using Type. intros Hb. unfold send_framed. holds_texts. Qed.

Lemma plain_frame t : text t -> link_frame F draws cfg (frame (String.list_byte_of_string t)).
Proof using Type. intros Ht. exists t. auto. Qed.

Lemma secret_frame t : text t -> link_frame F draws cfg (frame (String.list_byte_of_string (secret_ cfg +:+ t))).
Proof using Type. intros Ht. exists t. auto. Qed.

Lemma holds_generate_id : holds generate_request_id utf8.
Proof using Type.
  unfold generate_request_id. apply held_bind; [holds_texts |]. intros _. apply held_bind; [holds_texts |].
  intros id. apply maintains_mret. apply (utf8_app "req_"); [by repeat constructor | apply utf8_pretty_Z].
Qed.

Lemma holds_ensure_id j : valid_json j -> holds (ensure_request_id j) (fun r => valid_json (snd r)).
Proof using Type.
  intros Hj. unfold ensure_request_id.
  destruct j as [| | | | | | o];
    try (apply held_bind; [eapply maintains_weaken; [apply holds_generate_id | done] |]; intros; apply maintains_throw).
  - eapply maintains_bind; [apply holds_generate_id |]. intros id Hid. apply maintains_mret.
    apply (member_valid "request_id" (JStr id) []); [by repeat constructor | done |].
    by apply valid_obj; split; [constructor |].
  - destruct (obj_get "request_id" o) as [[] |]; try apply maintains_throw; [by apply maintains_mret |].
    eapply maintains_bind; [apply holds_generate_id |]. intros id Hid. apply maintains_mret.
    apply member_valid; [by repeat constructor | done | done].
Qed.

Lemma held_send_json j : valid_json j -> held (send_json j).
Proof using Laws.
  intros Hj. unfold send_json. apply maintains_catch; [| intros _; holds_texts].
  eapply maintains_bind; [by apply holds_ensure_id |]. intros [id j'] Hj'. cbn [fst snd] in *.
  apply held_bind; [by apply held_send_framed, plain_frame, dump_text_ok | holds_texts].
Qed.

Lemma held_send_secure_json j : valid_json j -> held (send_secure_json cfg j).
Proof using Laws.
  intros Hj. unfold send_secure_json.
  eapply maintains_bind; [by apply holds_ensure_id |]. intros [id j'] Hj'. cbn [fst snd] in *.
  apply held_bind; [by apply held_send_framed, secret_frame, dump_text_ok | holds_texts].
Qed.
#[local] Hint Resolve held_send_json held_send_secure_json : texts.

Lemma login_message_valid : valid_json (login_message cfg).
Proof using Hname. apply obj_valid. repeat constructor; done. Qed.

Lemma heartbeat_message_valid : valid_json (heartbeat_message cfg).
Proof using Hname. apply obj_valid. repeat constructor; done. Qed.
#[local] Hint Resolve login_message_valid heartbeat_message_valid : texts.

Lemma held_on_connect ok : held (on_connect cfg ok).
Proof using Laws Hname. holds_texts. Qed.

Lemma held_on_heartbeat : held (on_heartbeat_timer cfg).
Proof using Laws Hname. holds_texts. Qed.

(** ** Requests *)

Lemma held_sender secure j : valid_json j -> held (sender cfg secure j).
Proof using Laws. intros Hj. unfold sender. holds_texts. Qed.
#[local] Hint Resolve held_sender : texts.

Lemma held_send_now id : held (send_now_locked cfg id).
Proof using Laws.
  unfold send_now_locked. eapply maintains_bind; [apply holds_find |]. intros [p |] Hp; [| holds_texts].
  destruct Hp as [_ Hj]. holds_texts.
Qed.
#[local] Hint Resolve held_send_now : texts.

Lemma held_arm id : held (arm_timeout_locked id).
Proof using Type.
  unfold arm_timeout_locked. eapply maintains_bind; [apply holds_find |]. intros [p |] Hp; [| holds_texts].
  apply held_bind; [holds_texts |]. intros t. apply held_pending. intros m. by apply pending_insert.
Qed.
#[local] Hint Resolve held_arm : texts.

Lemma held_fulfill id j ok : valid_json j -> held (fulfill_and_erase_locked id j ok).
Proof using Type.
  intros Hj. unfold fulfill_and_erase_locked. apply held_bind; [eapply maintains_weaken; [apply holds_find | done] |].
  intros [p |]; [| holds_texts]. apply held_bind.
  - apply held_pending. intros m. by apply map_Forall_delete.
  - intros _. apply held_bind; [by apply held_emit | holds_texts].
Qed.

Lemma error_valid id code msg : utf8 id -> - 2 ^ 63 <= code < 2 ^ 64 -> utf8 msg ->
  valid_json (obj [("type", JStr "error"); ("code", JInt code); ("msg", JStr msg); ("req_id", JStr id)]%string).
Proof using Type. intros Hid Hc Hm. apply obj_valid. repeat constructor; done || lia. Qed.

Lemma held_on_timeout id : held (on_timeout cfg id).
Proof using Laws.
  unfold on_timeout. eapply maintains_bind; [apply holds_find |]. intros [p |] Hp; [| holds_texts].
  destruct (_ <? _).
  - apply held_bind; [apply held_pending; intros m; by apply pending_insert | holds_texts].
  - apply held_bind; [holds_texts |]. intros _. apply held_fulfill, error_valid; [apply Hp | lia | by repeat constructor].
Qed.

Lemma holds_make_id id : holds (make_req_id cfg id) utf8.
Proof using Type.
  unfold make_req_id. apply held_bind; [holds_texts |]. intros _. apply held_bind; [holds_texts |]. intros seq.
  apply maintains_mret. destruct (0 <=? id).
  - apply utf8_app; [apply utf8_pretty_Z |]. apply (utf8_app "_"); [by repeat constructor | apply utf8_pretty_Z].
  - apply (utf8_app "srv-"); [by repeat constructor |]. apply utf8_app; [apply utf8_pretty_Z |].
    apply (utf8_app "-"); [by repeat constructor | apply utf8_pretty_Z].
Qed.

Lemma merge_valid req payload o :
  valid_json (JObj req) -> valid_json payload -> merge_payload req payload = Ret o -> valid_json (JObj o).
Proof using Type.
  intros Hr Hp. destruct payload as [| | | | | [|] | kvs]; try done; try (by intros [= <-]).
  apply valid_obj in Hp as [_ Hk]. cbn. intros [= <-]. revert req Hr.
  induction Hk as [| [k v] kvs [Hu Hv] _ IH]; intros req Hr; [done |]. by apply IH, member_valid.
Qed.

Lemma request_valid api id payload j :
  utf8 api -> utf8 id -> valid_json payload -> request_of api id payload = Ret j -> valid_json j.
Proof using Type.
  intros Ha Hid Hp. unfold request_of. destruct (merge_payload _ payload) as [o | |] eqn:E; try done. intros [= <-].
  eapply merge_valid; [| exact Hp | exact E].
  apply member_valid; [by repeat constructor | done |]. apply member_valid; [by repeat constructor | done |].
  apply valid_obj. repeat constructor.
Qed.

Lemma held_launch id p : pending_ok id p -> held (launch cfg id p).
Proof using Laws.
  intros Hp. unfold launch. apply held_bind; [| holds_texts]. unfold add_pending. apply held_pending. intros m Hm.
  destruct (m !! id); [done | by apply pending_insert].
Qed.

(** A request of the program: a name and a payload that are JSON. *)
Lemma held_send_request_cb api payload secure ms n id ok error :
  utf8 api -> valid_json payload -> held (send_request_cb cfg api payload secure ms n id ok error).
Proof using Laws.
  intros Ha Hp. unfold send_request_cb. eapply maintains_bind; [apply holds_make_id |]. intros req_id Hid.
  eapply (maintains_bind _ _ _ valid_json); [apply maintains_lift; intros j; by apply request_valid |].
  intros req Hreq. apply held_bind; [holds_texts |]. intros set. apply held_bind; [| holds_texts].
  destruct set; cbn [negb]; [by apply held_launch |]. unfold call. destruct error; [| holds_texts].
  apply held_emit, error_valid; [done | lia | by repeat constructor].
Qed.

Lemma held_send_request api payload secure ms n id :
  utf8 api -> valid_json payload -> held (send_request cfg api payload secure ms n id).
Proof using Laws.
  intros Ha Hp. unfold send_request. eapply maintains_bind; [apply holds_make_id |]. intros req_id Hid.
  eapply (maintains_bind _ _ _ valid_json); [apply maintains_lift; intros j; by apply request_valid |].
  intros req Hreq. apply held_bind; [by apply held_launch | holds_texts].
Qed.

(** ** Messages of the middleware *)

Lemma held_call cb j : valid_json j -> held (call cb j).
Proof using Type. intros Hj. unfold call. destruct cb; [by apply held_emit | holds_texts]. Qed.
#[local] Hint Resolve held_call held_fulfill : texts.

Lemma held_answer id j : valid_json j -> held (answer id j).
Proof using Type.
  intros Hj. unfold answer. apply held_bind; [eapply maintains_weaken; [apply holds_find | done] |]. holds_texts.
Qed.
#[local] Hint Resolve held_answer : texts.

Lemma held_dispatch_type type j : held (dispatch_type cfg type j).
Proof using Type. holds_texts. Qed.
#[local] Hint Resolve held_dispatch_type : texts.

Lemma held_handle j : valid_json j -> held (handle cfg j).
Proof using Type. intros Hj. unfold handle. holds_texts. Qed.
#[local] Hint Resolve held_handle : texts.

Lemma held_handle_envelope env : envelope_ok env -> held (handle_envelope cfg env).
Proof using Type.
  intros Henv. destruct env as [result nickname | | id code api data | id code msg |]; cbn [handle_envelope envelope_ok] in *;
    [holds_texts .. | | | holds_texts]; apply held_handle, obj_valid; destruct_and!; repeat constructor; done || lia.
Qed.

Lemma held_handle_bytes bytes : held (handle_bytes cfg (handle cfg) (handle_envelope cfg) bytes).
Proof using Laws WL.
  unfold handle_bytes. destruct (ParseFromArray _) as [env |] eqn:Henv; [by eapply held_handle_envelope, parsed_ok |].
  destruct (parse _) as [[] | j] eqn:Hj; [holds_texts .. |]. apply parse_valid in Hj.
  apply maintains_catch; [by apply held_handle | holds_texts].
Qed.
#[local] Hint Resolve held_handle_bytes : texts.

Lemma held_take_bytes : held take_bytes.
Proof using Type. intros d Hd. unfold take_bytes. destruct (extract_message _). split; [done |]. destruct Hd. by split. Qed.
#[local] Hint Resolve held_take_bytes : texts.

Lemma held_read_frames fuel : held (read_frames cfg (handle cfg) (handle_envelope cfg) fuel).
Proof using Laws WL. induction fuel as [| fuel IH]; cbn [read_frames]; holds_texts. Qed.
#[local] Hint Resolve held_read_frames : texts.

(** ** The events *)

(** The requests of the program are JSON; of the rest nothing is asked. *)
Definition valid_db_event (e : DbEvent) : Prop :=
  match e with
  | DbRequest api payload _ _ _ _ _ _ | DbFuture api payload _ _ _ _ => utf8 api /\ valid_json payload
  | _ => True
  end.

Lemma remove_one_texts o l : Forall (link_op F draws cfg) l -> Forall (link_op F draws cfg) (remove_one o l).
Proof using Type. induction 1 as [| x l Hx Hl IH]; [constructor |]. cbn. destruct (decide _); [done | by constructor]. Qed.

#[local] Hint Resolve held_on_connect held_on_write held_on_heartbeat held_on_timeout
  held_send_request_cb held_send_request : texts.

Lemma held_event e : valid_db_event e -> held (db_run cfg e).
Proof using Laws WL Hname.
  intros He. unfold db_run. apply held_bind.
  { destruct (db_completes e) as [o |]; [| holds_texts]. apply maintains_modify. intros w []. split; try done.
    by apply remove_one_texts. }
  intros _. destruct e; cbn [db_handler valid_db_event] in *; try destruct He; holds_texts.
Qed.

Lemma held_connect_db : held (connect_db cfg).
Proof using Type. unfold connect_db. holds_texts. Qed.

Lemma initial_texts now tcp_port : Texts F draws cfg (exec (connect_db cfg) (initial_db now tcp_port)).
Proof using Type.
  unfold exec. apply maintains_exec; [apply held_connect_db |].
  split; cbn; [constructor | apply map_Forall_empty | constructor ..].
Qed.
End link_operations.
