(* ===== verification/JointText.v ===== *)
(** * Everything exchanged is JSON

    Server and link together: what [TextSpec] asks of the answers of the database
    is what [DbTextSpec] gives, and what [DbTextSpec] asks of the nicknames of
    requests is what [TextSpec] gives. *)
From Stdlib Require Import ZArith Lia Strings.Byte.
From stdpp Require Import base gmap sets list strings.
From S2P Require Import Prelude MessageBuffer Json JsonString JsonLexer JsonDecimal JsonStrtod JsonValid JsonPlatform.
From S2P Require Import Session World Invariant System Requests Joint TextSpec.
From S2P Require DbLink DbRouter DbSystem DbSpec DbCalls JointScenarios DbTextSpec.

Open Scope Z_scope.

Section exchange.
Context (F : Strtod) (Laws : StrtodLaws F) (draws : nat -> nat -> Z).
#[local] Instance exchange_platform : Platform := nlohmann F draws.
Context `{WL : DbTextSpec.WireLaws} (cfg : DbLink.Settings) (Hname : utf8 (DbLink.server_login_nickname_ cfg)).
Context (start tcp_port : Z).

#[local] Instance text_service : RequestService := DbCalls.db_service cfg start tcp_port.

Abbreviation Texts := (DbTextSpec.Texts F draws cfg).

(** The invariant: of the server, of the link, and of what waits between them. *)
Record Exchange (j : Joint) : Prop := {
  ex_server : Clean F draws (s_world (j_sys j));
  ex_link : Texts (j_link j : DbLink.Db);
  ex_due : Forall (fun a => valid_json (a_json a)) (j_due j)
}.

Lemma answers_valid (l : list DbLink.DbOut) :
  Forall (DbTextSpec.link_out F draws cfg) l -> Forall (fun a => valid_json (a_json a)) (DbCalls.answers l).
Proof using Type.
  induction 1 as [| o l Ho _ IH]; [constructor |]. destruct o; cbn [DbCalls.answers omap list_omap DbCalls.answer_of];
    try exact IH. constructor; [exact Ho | exact IH].
Qed.

Lemma made_valid (d d' : DbLink.Db) : Texts d' -> Forall (fun a => valid_json (a_json a)) (DbCalls.made d d').
Proof using Type. intros Hd. apply Forall_drop, answers_valid, Hd. Qed.

Lemma request_texts k nickname id (d : DbLink.Db) :
  utf8 nickname -> Texts d -> Texts (exec (DbCalls.user_info_request cfg k nickname id) d).
Proof using Laws.
  intros Hn Hd. unfold exec, DbCalls.user_info_request.
  assert (Hm : maintains Texts (DbRouter.send_request_cb cfg "request_user_info" (obj [("nickname", JStr nickname)]%string)
    true 2500 2 id (Some (DbCalls.ok_callback k)) (Some (DbCalls.error_callback k))) (fun _ => True)).
  { apply DbTextSpec.held_send_request_cb; [exact Laws | by repeat constructor | apply obj_valid; by repeat constructor]. }
  specialize (Hm d Hd). destruct (DbRouter.send_request_cb _ _ _ _ _ _ _ _ _ d) as [[] d']; cbn in *; [apply Hm | done ..].
Qed.

Lemma hand_over_all_exchange l : forall j,
  Forall (fun x => utf8 (wt_nickname x)) l -> Exchange j -> Exchange (hand_over_all l j).
Proof using Laws.
  induction l as [| x l IH]; intros j Hl [Hs Hd Hdue]; [done |]. apply Forall_cons in Hl as [Hx Hl].
  apply (IH (hand_over x j) Hl). unfold hand_over. cbn. split; cbn; [done | by apply request_texts |].
  apply Forall_app. split; [done |]. by apply made_valid, request_texts.
Qed.

(** The nicknames of the logins that wait. *)
Lemma waiting_utf8 n ops : Forall (clean_op F draws) ops -> Forall (fun x => utf8 (wt_nickname x)) (waiting (drop n ops)).
Proof using Type.
  intros Hops. apply (Forall_drop _ n) in Hops. unfold waiting.
  induction Hops as [| o l Ho _ IH]; [constructor |]. destruct o; cbn; try exact IH. by constructor.
Qed.

Lemma run_events_clean es : forall s s',
  Forall valid_event es -> run_events es s = Some s' -> Clean F draws (s_world s) -> Clean F draws (s_world s').
Proof using Laws.
  induction es as [| e es IH]; intros s s' Hv Hrun Hs; [by injection Hrun as <- |]. apply Forall_cons in Hv as [He Hv].
  cbn in Hrun. destruct (run_one e s) as [s1 |] eqn:E; [| done]. apply (IH s1 s' Hv Hrun).
  destruct (run_one_step e s s1 E) as [w n e w' Hen Hr | w n e x w' Hen Hr | w n]; cbn [s_world] in *; [.. | done];
    pose proof (run_event_clean F Laws draws e w Hen He Hs) as Hc;
    unfold clean_platform in Hc; unfold exchange_platform in Hr; by rewrite Hr in Hc.
Qed.

Lemma played d e s s' : valid_event e -> play d e s = Some s' -> Clean F draws (s_world s) -> Clean F draws (s_world s').
Proof using Laws. intros He. apply run_events_clean. by repeat constructor. Qed.

Lemma internal_valid e : is_internal e = true -> valid_event e.
Proof using Type. by destruct e. Qed.

Lemma link_event_texts e l (d d' : DbLink.Db) : rs_step (d : rs_state) e l d' -> Texts d ->
  Texts d' /\ Forall (fun a => valid_json (a_json a)) l.
Proof using Laws WL Hname.
  intros (Hreq & (_ & <- & _) & ->) Hd.
  assert (Hd' : Texts (snd (DbSystem.db_run cfg e d))).
  { apply maintains_exec; [| done]. apply DbTextSpec.held_event; [done .. |]. by destruct e. }
  split; [done | by apply made_valid].
Qed.

Lemma exchange_step j j' : joint_step j j' -> Exchange j -> Exchange j'.
Proof using Laws WL Hname.
  intros Hstep [Hs Hd Hdue]. destruct Hstep as [e j s' Hint Hplay | e l d j Hn Hl | a rest x j s' Hj Hx Hplay | l d j Hn Hl].
  - pose proof (played _ _ _ _ (internal_valid e Hint) Hplay Hs) as Hs'.
    apply hand_over_all_exchange; [apply waiting_utf8, Hs' | by split].
  - destruct (link_event_texts e l (j_link j) d Hl Hd). split; cbn; [done .. |]. by apply Forall_app.
  - rewrite Hj in Hdue. apply Forall_cons in Hdue as [Ha Hrest].
    assert (Hs' : Clean F draws (s_world s')).
    { eapply played; [| exact Hplay | exact Hs]. unfold callback_event. by destruct (a_ok a). }
    apply hand_over_all_exchange; [apply waiting_utf8, Hs' | by split].
  - destruct (link_event_texts _ l (j_link j) d Hl Hd). split; cbn; [done .. |]. by apply Forall_app.
Qed.

Lemma exchange_start c hardware now (d : rs_state) : rs_start d -> Exchange (joint_start c hardware now d).
Proof using Laws.
  intros Hd. cbn in Hd. subst d. split; cbn [joint_start j_sys j_link j_due]; [| | constructor].
  - apply (runs_clean F Laws draws c hardware now _ (runs_initial F draws c hardware now)).
  - apply DbTextSpec.initial_texts.
Qed.

Lemma reachable_exchange c hardware now j : joint_reachable c hardware now j -> Exchange j.
Proof using Laws WL Hname.
  intros (d & Hd & Hpath). assert (H0 : Exchange (joint_start c hardware now d)) by by apply exchange_start.
  revert H0. induction Hpath as [| j1 j2 j3 Hstep _ IH]; [done |]. intros H0. apply IH. by eapply exchange_step.
Qed.

(** C11. Whatever bytes the clients and the database middleware send, in whatever
    order they, the timers and the completions come: every payload the server
    sends over UDP is a text json.hpp parses, every write on a client's socket
    is a frame of one, every write on the link to the middleware is a frame of
    one or of the secret and one, every value handed to a callback of a request
    is one [json::parse] can return, and every nickname is well-formed UTF-8.
    So no message is ever lost because [dump] throws. *)
Theorem everything_exchanged_is_json c hardware now j :
  joint_reachable c hardware now j ->
  (forall ep payload, OUdp ep payload ∈ w_out (s_world (j_sys j)) -> json_text F draws payload) /\
  (forall conn bytes, OTcp conn bytes ∈ w_out (s_world (j_sys j)) ->
     exists msg, bytes = frame (String.list_byte_of_string msg) /\ json_text F draws msg) /\
  (forall data, DbLink.DbSend data ∈ DbLink.d_out (j_link j : DbLink.Db) -> DbTextSpec.link_frame F draws cfg data) /\
  (forall k v, DbLink.DbCallback k v ∈ DbLink.d_out (j_link j : DbLink.Db) -> valid_json v) /\
  (forall p t, w_heap (s_world (j_sys j)) !! p = Some t -> utf8 (nickname_ t)).
Proof using Laws WL Hname.
  intros [[Hheap _ _ _ Hout] [_ _ _ Hlink] _]%reachable_exchange. rewrite Forall_forall in Hout. rewrite Forall_forall in Hlink.
  split; [intros ep payload Ho; apply (Hout _ Ho) |]. split; [intros conn bytes Ho; apply (Hout _ Ho) |].
  split; [intros data Ho; apply (Hlink _ Ho) |]. split; [intros k v Ho; apply (Hlink _ Ho) |].
  intros p t Ht. apply (Hheap p t Ht).
Qed.
End exchange.

(** A login that the database answers: the login message of the link goes out,
    the request waits behind it, the answer reaches the callback. *)
#[local] Instance demo_wire_laws : DbTextSpec.WireLaws (H := JointScenarios.joint_wire).
Proof. split. by intros bytes env [=]. Defined.

Definition demo_exchange : Joint (link := JointScenarios.joint_service) :=
  JointScenarios.joint_after (JointScenarios.kim_waits ++ [JointScenarios.database_answers]).

Lemma everything_exchanged_is_json_witness :
  length (List.filter (fun o => match o with DbLink.DbSend _ => true | _ => false end)
            (DbLink.d_out (j_link demo_exchange : DbLink.Db))) = 1%nat /\
  (forall data, DbLink.DbSend data ∈ DbLink.d_out (j_link demo_exchange : DbLink.Db) ->
     DbTextSpec.link_frame exact_strtod exact_draws DbSpec.demo_settings data) /\
  (forall k v, DbLink.DbCallback k v ∈ DbLink.d_out (j_link demo_exchange : DbLink.Db) -> valid_json v).
Proof.
  split; [vm_compute; reflexivity |].
  assert (Hname : utf8 (DbLink.server_login_nickname_ DbSpec.demo_settings)) by (apply (bool_decide_unpack _); vm_compute; reflexivity).
  assert (Hr : JointScenarios.runs (JointScenarios.kim_waits ++ [JointScenarios.database_answers]) = true)
    by (vm_compute; reflexivity).
  destruct (everything_exchanged_is_json exact_strtod exact_strtod_laws exact_draws (H := JointScenarios.joint_wire) DbSpec.demo_settings
    Hname 0 12345 demo_config 4 1 demo_exchange (JointScenarios.joint_after_reachable _ Hr)) as (_ & _ & H1 & H2 & _).
  split; [exact H1 | exact H2].
Defined.
