(* ===== verification/Startup.v ===== *)
(** * The start of the program

    [main] of ServerApplication.cpp up to [io.run()]: reading config.json, the
    settings the constructors take from it, binding the ports, and how the
    program ends when one of these fails.  It gives the configuration of
    [World] and the settings of [DbLink] from the text of the file. *)
From Stdlib Require Import ZArith Lia.
From stdpp Require Import base gmap list strings.
From S2P Require Import Prelude RateLimit Json Session World Invariant System.
From S2P Require DbLink DbClient DbRouter JsonPlatform.

Open Scope Z_scope.

(** ** The settings *)

Definition int_of (v : json) : option Z :=
  match v with
  | JInt z => Some (i32 z)
  | JBool b => Some (if b then 1 else 0)
  | JFloat f => Some (int_of_double f)
  | _ => None
  end.

(** The integer settings: the configuration of [World]. *)
Definition int_entries (o : list (string * json)) : gmap string Z :=
  foldr (fun kv m => match int_of (snd kv) with Some z => <[fst kv := z]> m | None => m end) ∅ o.

(** [value(key, int)] and [value(key, std::string)] do not throw. *)
Definition numeric (o : list (string * json)) (key : string) : bool :=
  match obj_get key o with
  | Some v => match int_of v with Some _ => true | None => false end
  | None => true
  end.

Definition textual (o : list (string * json)) (key : string) : bool :=
  match obj_get key o with Some (JStr _) | None => true | Some _ => false end.

(** Read by the handlers while the server runs. *)
Definition run_time_keys : list string :=
  ["udp_expire_timeout_seconds"; "total_limit_per_sec"; "max_task_queue"; "login_timeout_seconds";
   "write_queue_warn_threshold"; "max_write_queue_size"; "write_queue_overflow_limit";
   "udp_token_ttl_seconds"; "max_udp_packet_size"; "tcp_port"]%string.

(** ** main *)

Definition i16 (z : Z) : Z := (z + 2 ^ 15) mod 2 ^ 16 - 2 ^ 15.
Definition u16 (z : Z) : Z := z mod 2 ^ 16.

Inductive exit :=
| terminated (e : exn)                       (** an exception leaves [main] *)
| exit_code (n : Z)
| io_run (s : Sys) (d : DbLink.Db).          (** the io threads are started *)

Section startup.
Context `{Platform}.

(** Binding the acceptor to a TCP port, the socket to a UDP port; room for a
    pool of that many sessions ([pool_.reserve] and the sessions). *)
Context (tcp_free udp_free pool_fits : Z -> bool).

(** [AppContext::instance().config]. *)
Abbreviation C := (M json).

Definition setting (key : string) (default : Z) : C Z := fun config => (value_int config key default, config).
Definition setting_str (key default : string) : C string := fun config => (value_str config key default, config).

Definition load_config (file : option string) : C unit :=
  match file with
  | None => modify (fun _ => JObj []);; throw StdError
  | Some text =>
      match parse text with
      | inl e => throw (exn_of e)
      | inr j => modify (fun _ => j)
      end
  end.

(** What the constructors and [start] read, and the failures of the pool and of
    the two sockets. *)
Definition construct (secret : string) (process_id : Z) : C (Z * DbLink.Settings) :=
  zone_count ← setting "max_zone_count" 10;
  when (0 <? zone_count) (_ ← setting "zone_max_sessions_count" 500; mret tt);;
  pool_size ← setting "session_pool_size" 1024;
  _ ← setting "max_session_pool_size" 10000;
  (if pool_fits (u64 pool_size) then mret tt else throw StdError);;
  tcp_port ← setting "tcp_port" 12345;
  (if tcp_free (u16 (i16 tcp_port)) then mret tt else throw StdError);;
  udp_port ← setting "udp_port" 54321;
  (if udp_free (u16 udp_port) then mret tt else throw StdError);;
  _ ← setting_str "dbmw_host" "127.0.0.1";
  port ← setting "dbmw_port" 40001;
  nickname ← setting_str "dbmw_login_nickname" "Server_1";
  heartbeat ← setting "dbmw_heartbeat_sec" 20;
  game_port ← setting "tcp_port" 12345;
  mret (game_port, DbLink.mkSettings (u16 port) nickname secret heartbeat process_id).

(** What is running when the io threads start. *)
Definition running (config : json) (hardware now : Z) (x : Z * DbLink.Settings) : exit :=
  let entries := match config with JObj o => int_entries o | _ => ∅ end in
  io_run (initial entries hardware now)
    (exec (DbRouter.connect_db (snd x)) (DbRouter.initial_db now (fst x))).

(** [curl] is the success of [curl_global_init], [secret] the environment
    variable.  [load_config] is called before the [try] block. *)
Definition main (curl : bool) (secret : string) (file : option string) (hardware now process_id : Z) : exit :=
  if negb curl then exit_code 1
  else
    match load_config file JNull with
    | (Ret _, config) =>
        if String.eqb secret "" then exit_code 0
        else
          match construct secret process_id config with
          | (Ret x, _) => running config hardware now x
          | (Exn _, _) => exit_code 0
          | (UB, _) => terminated StdError
          end
    | (Exn e, _) => terminated e
    | (UB, _) => terminated StdError
    end.

(** ** Reading the settings *)

Lemma int_entries_lookup o key :
  numeric o key = true -> int_entries o !! key = (v ← obj_get key o; int_of v).
Proof.
  unfold numeric. induction o as [| [k v] o IH]; [done |]. cbn. destruct (decide (k = key)) as [-> | Hne].
  - destruct (int_of v) as [z |] eqn:Ev; [intros _ | done]. rewrite lookup_insert_eq. symmetry. exact Ev.
  - intros Hn. destruct (int_of v); [rewrite lookup_insert_ne by done |]; by apply IH.
Qed.

Lemma value_int_of o key default :
  value_int (JObj o) key default =
  match obj_get key o with
  | Some v => match int_of v with Some z => Ret z | None => Exn TypeError end
  | None => Ret default
  end.
Proof. cbn. by destruct (obj_get key o) as [[] |]. Qed.

(** The program's reading of a setting is that of the model, or throws. *)
Lemma value_int_entries o key default :
  value_int (JObj o) key default =
  if numeric o key then Ret (config_value (int_entries o) key default) else Exn TypeError.
Proof.
  rewrite value_int_of. destruct (numeric o key) eqn:E.
  - unfold config_value. rewrite int_entries_lookup by done. unfold numeric in E.
    destruct (obj_get key o) as [v |]; [| done]. cbn. by destruct (int_of v).
  - unfold numeric in E. destruct (obj_get key o) as [v |]; [| done]. by destruct (int_of v).
Qed.

Definition text_value (o : list (string * json)) (key default : string) : string :=
  match obj_get key o with Some (JStr s) => s | _ => default end.

Lemma value_str_text o key default :
  value_str (JObj o) key default = if textual o key then Ret (text_value o key default) else Exn TypeError.
Proof. unfold textual, text_value. cbn. by destruct (obj_get key o) as [[] |]. Qed.

(** One read after another. *)
Lemma setting_bind {A} key default (k : Z -> C A) o :
  (setting key default ≫= k) (JObj o) =
  if numeric o key then k (config_value (int_entries o) key default) (JObj o) else (Exn TypeError, JObj o).
Proof. unfold setting, mbind, M_bind, bind. rewrite value_int_entries. by destruct (numeric o key). Qed.

Lemma setting_str_bind {A} key default (k : string -> C A) o :
  (setting_str key default ≫= k) (JObj o) =
  if textual o key then k (text_value o key default) (JObj o) else (Exn TypeError, JObj o).
Proof. unfold setting_str, mbind, M_bind, bind. rewrite value_str_text. by destruct (textual o key). Qed.

Lemma require_bind {A} (b : bool) (k : unit -> C A) config :
  ((if b then mret tt else throw StdError) ≫= k) config = if b then k tt config else (Exn StdError, config).
Proof. by destruct b. Qed.

Lemma optional_setting_bind {A} (b : bool) key default (k : unit -> C A) o :
  (when b (_ ← setting key default; mret tt) ≫= k) (JObj o) =
  if negb b || numeric o key then k tt (JObj o) else (Exn TypeError, JObj o).
Proof.
  destruct b; cbn [negb orb when]; [| done].
  unfold setting, mbind, M_bind, bind. rewrite value_int_entries. by destruct (numeric o key).
Qed.

(** ** How the program starts *)

(** What [construct] needs of the configuration. *)
Definition startup_ok (o : list (string * json)) : bool :=
  let int key default := config_value (int_entries o) key default in
  numeric o "max_zone_count" &&
  (negb (0 <? int "max_zone_count"%string 10) || numeric o "zone_max_sessions_count") &&
  numeric o "session_pool_size" && numeric o "max_session_pool_size" &&
  pool_fits (u64 (int "session_pool_size"%string 1024)) &&
  numeric o "tcp_port" && tcp_free (u16 (int "tcp_port"%string 12345)) &&
  numeric o "udp_port" && udp_free (u16 (int "udp_port"%string 54321)) &&
  textual o "dbmw_host" && numeric o "dbmw_port" && textual o "dbmw_login_nickname" &&
  numeric o "dbmw_heartbeat_sec".

Lemma u16_i16 z : u16 (i16 z) = u16 z.
Proof. unfold u16, i16. rewrite Zminus_mod_idemp_l. by replace (z + 2 ^ 15 - 2 ^ 15) with z by lia. Qed.

(** The settings of the link. *)
Definition link_settings (o : list (string * json)) (secret : string) (process_id : Z) : DbLink.Settings :=
  DbLink.mkSettings (u16 (config_value (int_entries o) "dbmw_port" 40001))
    (text_value o "dbmw_login_nickname" "Server_1") secret
    (config_value (int_entries o) "dbmw_heartbeat_sec" 20) process_id.

(** The next read succeeds, or is the end of [construct]. *)
Ltac read :=
  first [rewrite setting_bind | rewrite setting_str_bind | rewrite require_bind | rewrite optional_setting_bind];
  rewrite ?u16_i16;
  match goal with
  | |- context [if ?b then _ else (Exn _, JObj _)] =>
      let E := fresh "Hread" in destruct b eqn:E; cbn [andb]; [| by eexists]
  end.

Lemma construct_spec o secret process_id :
  if startup_ok o
  then construct secret process_id (JObj o) =
    (Ret (config_value (int_entries o) "tcp_port" 12345, link_settings o secret process_id), JObj o)
  else exists e, construct secret process_id (JObj o) = (Exn e, JObj o).
Proof.
  unfold construct, startup_ok, link_settings. repeat read.
  rewrite setting_bind. by match goal with E : numeric o "tcp_port" = true |- _ => rewrite E end.
Qed.

Lemma construct_not_object config secret process_id :
  (forall o, config <> JObj o) -> exists e, construct secret process_id config = (Exn e, config).
Proof.
  intros Hc. exists TypeError. unfold construct, setting at 1, mbind, M_bind, bind.
  destruct config; try done. by destruct (Hc o).
Qed.

(** The file is missing, or is no JSON text. *)
Definition bad_file (file : option string) : Prop :=
  forall text, file = Some text -> exists e, parse text = inl e.

(** C40. How the program starts, for every configuration file and environment. *)
Theorem main_outcome curl secret file hardware now process_id :
  match main curl secret file hardware now process_id with
  | terminated e => curl = true /\ bad_file file
  | exit_code n =>
      curl = false /\ n = 1 \/
      curl = true /\ n = 0 /\ (exists text j, file = Some text /\ parse text = inr j /\
        (secret = EmptyString \/ forall o, j = JObj o -> startup_ok o = false))
  | io_run s d =>
      curl = true /\ secret <> EmptyString /\ exists text o, file = Some text /\ parse text = inr (JObj o) /\
      startup_ok o = true /\ s = initial (int_entries o) hardware now /\
      d = exec (DbRouter.connect_db (link_settings o secret process_id))
            (DbRouter.initial_db now (config_value (int_entries o) "tcp_port" 12345))
  end.
Proof.
  unfold main. destruct curl; cbn [negb]; [| by left].
  destruct file as [text |]; [| by split]. cbn [load_config].
  destruct (parse text) as [e | j] eqn:Ep.
  { split; [done |]. intros t [= <-]. eauto. }
  cbn [modify]. destruct (String.eqb_spec secret "") as [-> | Hs].
  { right. split; [done |]. split; [done |]. exists text, j. auto. }
  assert (Hex : (exists o, j = JObj o) \/ forall o, j <> JObj o) by (destruct j; eauto).
  destruct Hex as [[o ->] | Hno].
  - pose proof (construct_spec o secret process_id) as Hspec. destruct (startup_ok o) eqn:Eo.
    + rewrite Hspec. cbn [running fst snd]. split; [done |]. split; [done |]. by exists text, o.
    + destruct Hspec as [e ->]. right. split; [done |]. split; [done |]. exists text, (JObj o).
      split; [done |]. split; [done |]. right. by intros o' [= <-].
  - destruct (construct_not_object j secret process_id Hno) as [e ->]. right.
    split; [done |]. split; [done |]. exists text, j. split; [done |]. split; [done |]. right.
    intros o ->. by destruct (Hno o).
Qed.
End startup.

(** ** The file of the repository *)

Definition config_json : string := raw "{
  'tcp_port': 12345,
  'udp_port': 54321,
  'session_pool_size': 1,
  'max_session_pool_size': 10000,
  'max_udp_queue_size': 10000,
  'zone_max_sessions': 500,
  'udp_shard_count': 16,
  'session_max_close_retries': 3,
  'session_retry_delay_ms': 100,
  'max_task_queue': 1000,
  'login_timeout_seconds': 90,
  'max_write_queue_size': 100,
  'write_queue_warn_threshold': 80,
  'write_queue_overflow_limit': 10,
  'udp_expire_timeout_seconds': 300,
  'user_limit_per_sec': 10,
  'total_limit_per_sec': 1000,
  'max_zone_count': 10,
  'max_zone_session_count': 500,
  'dbmw_host': '127.0.0.1',
  'dbmw_port': 6789,
  'dbmw_heartbeat_sec': 20,
  'udp_token_ttl_seconds': 300,
  'max_udp_packet_size':1024
}"%string.

Section shipped.
#[local] Instance shipped_platform : Platform := JsonPlatform.exact_platform.

Definition shipped : list (string * json) :=
  match parse config_json with inr (JObj o) => o | _ => [] end.

(** The program starts with it, every setting read at run time is a number, and
    the write queues are long enough for the theorems of [System]; the capacity
    of a zone is the default, as no key of the file is the one that is read. *)
Example shipped_configuration :
  parse config_json = inr (JObj shipped) /\
  startup_ok (fun _ => true) (fun _ => true) (fun _ => true) shipped = true /\
  forallb (numeric shipped) run_time_keys = true /\
  2 <= max_write_queue (int_entries shipped) /\
  obj_get "zone_max_sessions_count" shipped = None.
Proof. vm_compute. repeat split; discriminate. Qed.

Example shipped_starts :
  main (fun _ => true) (fun _ => true) (fun _ => true) true "secret" (Some config_json) 8 0 1 =
  io_run (initial (int_entries shipped) 8 0)
    (exec (DbRouter.connect_db (link_settings shipped "secret" 1)) (DbRouter.initial_db 0 12345)).
Proof. vm_compute. reflexivity. Qed.

(** Without the file an exception leaves [main]; without the secret it returns 0. *)
Example no_file_terminates :
  main (fun _ => true) (fun _ => true) (fun _ => true) true "secret" None 8 0 1 = terminated StdError.
Proof. reflexivity. Qed.

Example no_secret_returns :
  main (fun _ => true) (fun _ => true) (fun _ => true) true "" (Some config_json) 8 0 1 = exit_code 0.
Proof. vm_compute. reflexivity. Qed.
End shipped.
